(* ===== verification/_CoqProject ===== *)
-Q . S2P
Prelude.v
Record.v
Fs.v
Gob.v
Labgob.v
Wal.v
PersisterWal.v
FileWal.v
Raft.v
RaftSpec.v
RaftSpecInv.v
RaftNet.v
RaftRel.v
RaftElect.v
RaftReplicate.v
RaftRefine.v
RaftDemo.v
RaftSafety.v
Kv.v
KvClerk.v
Lock.v
Workload.v
RandomKeys.v
Appends.v
Spread.v
Porcupine.v
Rsm.v
KvStore.v
Service.v
RsmTest.v
RaftTest.v
RaftOne.v
Labrpc.v
Demux.v
Groups.v
Annotation.v
Harness.v
Grpc.v
MapReduce.v
Config.v
MrTest.v
Process.v
Forward.v
Daemon.v
ShardCfg.v
ShardTest.v
ShardGrp.v
ShardMig.v
ShardCtrl.v
ShardSteps.v
ShardClient.v
