(* ===== verification/Prelude.v ===== *)
(** * raftkv: a verified account of a Raft key/value service

    The program, under src/src: a Raft library ([raft1]), durable logs for it
    ([wal], [filewal], [persist]), a replicated state machine layer ([kvraft1/rsm]),
    a replicated key/value server on it ([kvraft1]), a sharded key/value service
    whose shards move between such groups ([shardkv1]), a single-server key/value
    service with a lock ([kvsrv1]), the network the tests run them on ([labrpc])
    and the one the daemon uses ([transport/grpc], [cmd]), the tester that runs
    servers in processes of their own ([tester1]), and sequential MapReduce
    ([main/mrsequential.go], [mrapps]).

    A request takes this path: a clerk ([KvClerk], [ShardClient]) retries a call
    over a network ([Labrpc], [Grpc]) to the handler of a server ([KvStore],
    [ShardGrp]); the handler submits it to the replication layer ([Rsm]), which
    calls [Start] of Raft ([Raft]); Raft writes its log through a WAL ([Wal],
    [FileWal], [PersisterWal], on the files of [Fs] and [Record]), exchanges
    messages, and delivers committed commands to the replication layer, which
    applies them to the server and answers ([Service]).  Shard controllers
    ([ShardCtrl]) keep the configuration in such a service and move shards
    between groups ([ShardMig]).  In a test the servers run in processes that the
    tester starts and stops ([Harness], [Groups], [Process]); their calls go
    through the tester's simulated network ([Forward], over [Demux] and [Labrpc]).

    ** Which file models what

    This file: Go slices, machine integers, big-endian words, options, finite
    maps and lists; the tactics and the hint databases of the development.

    Durable state
    - [Record]: wal/record.go, [appendRecord] and [replayRecords] on bytes.
    - [Fs]: wal/memfs.go, a file system with an injected fault; wal/atomic.go;
      [OpenRecordLog] and [Append] of wal/record.go.
    - [Gob]: what is assumed of encoding/gob, as a class, and an instance of it;
      [Labgob]: the checks of types and values of labgob/labgob.go.
    - [Wal]: the interface WAL of raft1/wal.go as a class; its laws
      ([LawfulWAL]) are what [Raft] relies on and what [FileWal] and
      [PersisterWal] prove.
    - [PersisterWal]: persist/persist.go, the adapter of raft1/wal.go,
      persist/file.go and tester1/persister.go.
    - [FileWal]: filewal/filewal.go.

    Raft
    - [Raft]: raft1/raft.go, a function per critical section.
    - [RaftSpec], [RaftSpecInv]: the abstract protocol and its invariant.
    - [RaftNet]: the cluster as a transition system; [RaftRel], [RaftElect],
      [RaftReplicate], [RaftRefine]: the code refines the protocol; [RaftDemo]:
      a run of it; [RaftSafety]: the theorems.
    - [RaftTest]: raft1/server.go, the checks of raft1/test.go, raft1/adapter.go;
      [RaftOne]: the drivers of raft1/test.go ([one], [wait]) and its search for
      a leader.

    Services
    - [Kv]: kvsrv1/rpc, kvsrv1/server.go, models1/kv.go.
    - [KvClerk]: kvsrv1/client.go and kvraft1/client.go; [Lock]: kvsrv1/lock.
    - [Workload], [RandomKeys], [Appends], [Spread]: the workloads and checks of
      kvtest1/kvtest.go, as programs over a clerk; [Porcupine]:
      kvtest1/porcupine.go.
    - [Rsm]: kvraft1/rsm/rsm.go and rsm/server.go; [RsmTest]: the drivers of
      rsm/test.go.
    - [KvStore]: kvraft1/kvstore.go, pebblestore, kvraft1/server.go.
    - [Service]: the composition of [RaftNet], [Rsm] and a service.

    Networks and programs
    - [Labrpc]: labrpc/labrpc.go; [Demux]: tester1/demux and tester1/sockrpc;
      [Annotation]: tester1/annotation.go; [Grpc]: transport/grpc.
    - [Groups]: the servers, connections and clients of tester1/group.go, srv.go
      and clnts.go; [Harness]: whole groups and tables of groups and clients of
      the same files, and tester1/config.go; [Process]: the processes of the
      servers, tester1/daemonclnt.go and daemonsrv.go; [Forward]: their calls,
      tester1/testsrv.go and [forward] of the former two, and their annotations,
      tester1/annotator.go.
    - [MapReduce]: main/mrsequential.go, mrapps/wc.go, mrapps/indexer.go;
      [MrTest]: [ihash] of mr/worker.go, the other applications of mrapps, and
      what mr/util.go does with the output of a run.
    - [Config]: cmd/raftkvd/config.go, [nodeOrder] of cmd/raftkvd/main.go,
      cmd/raftkvctl/main.go; [Daemon]: the rest of cmd/raftkvd/main.go.

    Shards
    - [ShardCfg]: shardkv1/shardcfg; [ShardTest]: the configurations that
      shardkv1/test.go makes, [ShardSteps]: the groups it adds and removes, with
      one controller; [ShardGrp]: shardkv1/shardgrp/server.go and
      shardrpc; [ShardMig]: the protocol by which shards move between groups, and
      [migrate]; [ShardCtrl]: shardkv1/shardctrler, which follows it; [ShardClient]: shardkv1/client.go and
      shardkv1/shardgrp/client.go.

    ** What the theorems show

    - Raft is safe as coded ([RaftSafety]): one leader per term, logs match,
      leaders have what is committed, commands delivered at an index are equal
      everywhere, in order, snapshots are genuine, and no event panics a node whose
      service keeps its contract; all by a forward simulation into [RaftSpec].
    - The stack is one state machine ([Service.replicas_apply_one_log]), for
      services that restore a snapshot before they apply, or without snapshots;
      the start orders of [StartKVServer] and of the rsm tests lose writes with
      snapshots, as two runs show ([Service], [RsmTest]).  A [Submit] returns the result of its own operation, and its channels are
      never misused ([Rsm]); the tester's checks pass ([RaftTest]), and the
      agreement its driver reports is real and permanent ([RaftOne]).
    - Persistence survives crashes: under a fault injected at any write, sync,
      rename or truncation the files reopen to the state before or after the
      operation ([Fs], [FileWal], [PersisterWal]); of arbitrary bytes the replay
      finds the longest prefix of whole records ([Record]); a durable store replays
      the log without applying an operation twice, and what a crash in the middle
      of its [Restore] leaves is the old, the new or an empty database ([KvStore]).
    - Clients see atomic operations in spite of retries ([KvClerk]), locks exclude
      ([Lock]); the histories that the tests log of programs that put no version
      ahead of time are linearizable for the model of the checker ([Porcupine], from
      [Kv] and [KvClerk]); the concurrent puts and
      appends of the tests pass their checks ([Workload], [RandomKeys], [Appends],
      [Spread]).
    - Sharding keeps that: one owner per shard and linearizable answers during
      migrations by concurrent controllers, as long as no controller recovers from
      two configurations more than one apart, and a run in which one does and a write
      is lost ([ShardCtrl]); rebalancing terminates and balances ([ShardCfg]).
      A controller without rivals returns, finishes what its predecessor began,
      puts the configuration in force at the groups, and lets groups join and leave
      as the tests expect ([ShardSteps]).
    - The networks do what callers rely on: at most one execution per call
      ([Labrpc]), also when many callers share a socket that breaks, and answers in a
      bounded number of steps when it does not ([Demux]);
      encodings are transparent ([Labrpc], [Grpc], [Demux]); a partition of the
      tests cuts a group exactly in two, and a restarted server resumes from its
      persisted state ([Groups]).
    - The tester does not interfere: a call forwarded between processes is a call
      on the network ([Forward]); a process that is shut down loses nothing that
      anybody has seen, and starting and stopping one takes at most seven steps
      ([Process]); a restarted group resumes, and nothing is left after a test
      ([Harness]).
    - The daemon starts with a configuration that satisfies the cluster's
      assumptions ([Config]), releases what it has opened in the right order, and
      is ready only as long as it serves ([Daemon]); MapReduce reduces each key
      once ([MapReduce]), and a distributed run that does so passes the tests'
      comparison ([MrTest]); labgob's search of recursive types ends ([Labgob]).

    ** How the code is modelled, and what is assumed

    - A section of code under a lock is one function on an explicit state; a
      goroutine that waits or releases its lock is cut there, and a step relation
      interleaves the pieces.  A panic, [log.Fatalf] or failed persistence is
      [None].
    - Packets of the cluster are lost, delayed and reordered, not duplicated:
      both transports run a call at most once ([Labrpc.labrpc_at_most_once]; gRPC
      without retry policy).  A crash leaves the durable states of a [Journal],
      one after each completed WAL operation or appended entry.
    - Services snapshot only what they were given, and their snapshots are not
      empty: the applier of [Rsm] and the encoders provide both.
    - Go [int]s that are indices, terms and configuration numbers are unbounded
      integers; they grow by one per command, election or change.  Widths are kept
      where the code depends on them: the lengths of records, bundles and
      frames (32 bits), checksums, versions and tags.
    - gob, JSON, tar, pebble, gRPC stubs, clocks and random numbers are parameters with
      the documented properties they are used for, and every theorem has an
      instance of them in its witness.  Text is ASCII where case, spaces or
      letters matter.
    - Fuel: [replayLoop] takes one more than the length of the file, since each
      record consumes at least its header, and is [None] without it; [untarLoop] one
      more than the length of the archive; [reduceLoop] the number of pairs; [reads] one more than
      the number of messages; [checkType] one more than the number of types;
      [balance] is fuelled by a bound on the sum of squares
      of the shard counts, which every move decreases; [solo] by the calls and
      requests of one change of configuration.  Enough fuel is proved, not
      assumed.  Loops that wait for the network consume a list of outcomes, or are
      steps.

    ** Not modelled

    - Time: timeouts and delays are steps that may happen at any moment.  Loops of
      the tests that run against the clock end when their observations do.
    - The test functions themselves, and those steps of shardkv1/test.go that race
      goroutines against a timer ([checkShutdownSharding], [partitionCtrler],
      [concurCtrler]); kvraft1/test.go, kvsrv1/test.go and the main functions of the
      daemons only pass arguments on.  Parsing of flags, the memory a process uses
      and the watchdog that ends it are not modelled.
    - The linearizability checker, a library: [Porcupine] states what it checks.
    - Generated code (proto), encoding/gob itself, [osFS] (system calls), dialling
      and accepting connections.
    - The MapReduce coordinator and worker, which are unfilled skeletons.

    ** What is left to do

    A test history that includes puts of versions ahead of time, which the checker
    would reject; liveness of the cluster, which needs a model of time. *)

From stdpp Require Export base gmap strings list fin_maps functions relations.
From Stdlib Require Export ZArith Lia.
From Stdlib Require Import Strings.Byte.

#[export] Set Default Goal Selector "!".
#[export] Set Warnings "-clear-no-such-hyp,-register-all".

Declare Scope go_scope.
Delimit Scope go_scope with go.

(** ** Go slices

    A Go slice is a list; an index is a Go [int], hence a [Z].  Reading or
    reslicing out of range panics in Go: here it is [None]. *)

Definition zlen {A} (l : list A) : Z := Z.of_nat (length l).

Definition gidx {A} (l : list A) (i : Z) : option A :=
  if decide (0 <= i)%Z then l !! Z.to_nat i else None.

(** [l[i:]] *)
Definition gfrom {A} (l : list A) (i : Z) : option (list A) :=
  if decide (0 <= i <= zlen l)%Z then Some (drop (Z.to_nat i) l) else None.

(** [l[:i]] *)
Definition gto {A} (l : list A) (i : Z) : option (list A) :=
  if decide (0 <= i <= zlen l)%Z then Some (take (Z.to_nat i) l) else None.

(** [l[i:j]] *)
Definition gslice {A} (l : list A) (i j : Z) : option (list A) :=
  if decide (0 <= i <= j /\ j <= zlen l)%Z
  then Some (take (Z.to_nat (j - i)) (drop (Z.to_nat i) l)) else None.

Notation "l @[ i ]" := (gidx l i) (at level 1, i at level 200) : go_scope.

Open Scope Z_scope.
Open Scope go_scope.

(** Signed integers of 32 and 64 bits. *)
Definition i32 (z : Z) : Z := (z + 2 ^ 31) mod 2 ^ 32 - 2 ^ 31.
Definition i64 (z : Z) : Z := (z + 2 ^ 63) mod 2 ^ 64 - 2 ^ 63.

(** ** Automation *)

Create HintDb raftkv.

(** Lengths as integers, then linear arithmetic. *)
Ltac zlen_lia :=
  unfold zlen in *; cbn [length] in *;
  repeat (rewrite ?length_app, ?length_take, ?length_drop in *; cbn [length] in *); lia.

(** Destruct every conjunction and existential of the context. *)
Ltac des :=
  repeat match goal with
  | H : _ /\ _ |- _ => destruct H
  | H : exists _, _ |- _ => destruct H
  end.

(** Case on the next [if decide] of the goal or of a hypothesis. *)
Ltac dcase :=
  match goal with
  | |- context [decide ?P] => destruct (decide P)
  | H : context [decide ?P] |- _ => destruct (decide P)
  end.

(** Reduce lookups in updated functions. *)
Ltac fn_upd :=
  repeat match goal with
  | H : context [<[?a:=_]> _ ?a] |- _ => rewrite fn_lookup_insert in H
  | |- context [<[?a:=_]> _ ?a] => rewrite fn_lookup_insert
  | Hne : ?a <> ?b, H : context [<[?a:=_]> _ ?b] |- _ =>
      rewrite (fn_lookup_insert_ne _ a b _ Hne) in H
  | Hne : ?a <> ?b |- context [<[?a:=_]> _ ?b] =>
      rewrite (fn_lookup_insert_ne _ a b _ Hne)
  | Hne : ?b <> ?a, H : context [<[?a:=_]> _ ?b] |- _ =>
      rewrite (fn_lookup_insert_ne _ a b _ (not_eq_sym Hne)) in H
  | Hne : ?b <> ?a |- context [<[?a:=_]> _ ?b] =>
      rewrite (fn_lookup_insert_ne _ a b _ (not_eq_sym Hne))
  end.

(** Case on whether two keys of an updated function coincide. *)
Ltac kcase k k' :=
  destruct (decide (k = k')) as [?|?]; [simplify_eq|]; fn_upd; simplify_eq.

(** ** Slices *)

Section slices.
Context {A : Type}.
Implicit Types l k : list A.

Lemma zlen_nonneg l : 0 <= zlen l.
Proof. unfold zlen; lia. Qed.

Lemma zlen_app l k : zlen (l ++ k) = zlen l + zlen k.
Proof. unfold zlen; rewrite length_app; lia. Qed.

Lemma zlen_cons (x : A) l : zlen (x :: l) = 1 + zlen l.
Proof. unfold zlen; cbn [length]; lia. Qed.

Lemma zlen_to_nat l : Z.to_nat (zlen l) = length l.
Proof. apply Nat2Z.id. Qed.

Lemma gidx_Some l i x : l @[i] = Some x <-> 0 <= i /\ l !! Z.to_nat i = Some x.
Proof. unfold gidx; dcase; split; [auto|by intros [_ ?]|done|by intros [? _]]. Qed.

Lemma gidx_nat l (n : nat) : l @[Z.of_nat n] = l !! n.
Proof. unfold gidx; rewrite decide_True by lia. by rewrite Nat2Z.id. Qed.

Lemma gidx_is_Some l i : 0 <= i < zlen l -> is_Some (l @[i]).
Proof.
  intros Hi; unfold gidx; rewrite decide_True by lia.
  apply lookup_lt_is_Some; unfold zlen in Hi; lia.
Qed.

Lemma gidx_lt l i x : l @[i] = Some x -> 0 <= i < zlen l.
Proof.
  intros [Hi Hl]%gidx_Some. apply lookup_lt_Some in Hl. unfold zlen; lia.
Qed.

Lemma gfrom_Some l i : 0 <= i <= zlen l -> gfrom l i = Some (drop (Z.to_nat i) l).
Proof. intros; unfold gfrom; by rewrite decide_True. Qed.

Lemma gto_Some l i : 0 <= i <= zlen l -> gto l i = Some (take (Z.to_nat i) l).
Proof. intros; unfold gto; by rewrite decide_True. Qed.

Lemma gslice_Some l i j :
  0 <= i <= j -> j <= zlen l ->
  gslice l i j = Some (take (Z.to_nat (j - i)) (drop (Z.to_nat i) l)).
Proof. intros; unfold gslice; by rewrite decide_True. Qed.

Lemma gto_gfrom l i a b : gto l i = Some a -> gfrom l i = Some b -> a ++ b = l.
Proof.
  unfold gto, gfrom; dcase; [|done]. intros [= <-] [= <-]. apply take_drop.
Qed.

End slices.

(** ** Prefixes *)

Section prefixes.
Context {A : Type}.
Implicit Types l k : list A.

Lemma prefix_take_iff l k : l `prefix_of` k <-> take (length l) k = l.
Proof.
  split.
  - intros [r ->]. by rewrite take_app_length.
  - intros <-. apply prefix_take.
Qed.

(** Two prefixes of the same list are comparable, the shorter one first. *)
Lemma prefix_le l1 l2 k :
  l1 `prefix_of` k -> l2 `prefix_of` k -> (length l1 <= length l2)%nat ->
  l1 `prefix_of` l2.
Proof.
  intros H1 H2 Hle. destruct (prefix_weak_total l1 l2 k H1 H2) as [|H]; [done|].
  by rewrite (prefix_length_eq l2 l1 H) by lia.
Qed.

Lemma prefix_lookup l k i x : l `prefix_of` k -> l !! i = Some x -> k !! i = Some x.
Proof. intros [r ->] H. by apply lookup_app_l_Some. Qed.

Lemma take_prefix_mono l k n m :
  l `prefix_of` k -> (n <= m)%nat -> take n l `prefix_of` take m k.
Proof.
  intros Hp Hnm. apply (prefix_le _ _ k).
  - etrans; [apply prefix_take|done].
  - apply prefix_take.
  - apply prefix_length in Hp. rewrite !length_take; lia.
Qed.

Lemma prefix_of_take l k n : l `prefix_of` k -> (length l <= n)%nat -> l `prefix_of` take n k.
Proof.
  intros Hp Hn. apply (prefix_le _ _ k); [done|apply prefix_take|].
  apply prefix_length in Hp. rewrite length_take; lia.
Qed.

Lemma prefix_take_eq l k n :
  l `prefix_of` k -> (n <= length l)%nat -> take n k = take n l.
Proof. intros [r ->] Hn. by rewrite take_app_le. Qed.

Lemma last_lookup_length l x : last l = Some x -> l !! (length l - 1)%nat = Some x.
Proof. rewrite last_lookup. intros <-. f_equal; lia. Qed.

End prefixes.

(** ** Majorities

    [len(ids)/2] is Go's integer division, so [n > len(ids)/2] says that [n]
    nodes are more than half of [ids]. *)

Section majority.
Context {A : Type} `{EqDecision A}.

Definition majority (ids Q : list A) : Prop :=
  NoDup Q /\ Q ⊆ ids /\ zlen ids / 2 < zlen Q.

Lemma NoDup_incl_le (l k : list A) : NoDup l -> l ⊆ k -> (length l <= length k)%nat.
Proof.
  intros Hnd Hin. apply submseteq_length, NoDup_submseteq; [done|]. apply Hin.
Qed.

Lemma majority_intersect ids Q1 Q2 :
  majority ids Q1 -> majority ids Q2 -> exists x, x ∈ Q1 /\ x ∈ Q2 /\ x ∈ ids.
Proof.
  intros (Hn1 & Hs1 & Hl1) (Hn2 & Hs2 & Hl2).
  destruct (decide (Forall (fun x => x ∉ Q2) Q1)) as [Hf|Hf].
  - exfalso. rewrite Forall_forall in Hf.
    assert (Hnd : NoDup (Q1 ++ Q2)) by (apply NoDup_app; naive_solver).
    assert (Hle : (length (Q1 ++ Q2) <= length ids)%nat).
    { apply NoDup_incl_le; [done|]. intros x [?|?]%elem_of_app; auto. }
    rewrite length_app in Hle. unfold zlen in *.
    assert (Z.of_nat (length ids) < 2 * (Z.of_nat (length ids) / 2) + 2) by
      (pose proof (Z.mod_pos_bound (Z.of_nat (length ids)) 2 ltac:(lia));
       pose proof (Z.div_mod (Z.of_nat (length ids)) 2 ltac:(lia)); lia).
    lia.
  - apply not_Forall_Exists, Exists_exists in Hf; [|apply _].
    destruct Hf as (x & Hx & Hx2). exists x. split; [done|].
    destruct (decide (x ∈ Q2)); [auto|]. exfalso; by apply Hx2.
Qed.

End majority.

(** ** Bytes and big-endian words

    [encoding/binary]'s [BigEndian.PutUint32]/[Uint32], used by the record
    framing of wal/record.go and by the bundle format of persist/file.go. *)

Abbreviation byte := Byte.byte.

Definition byte_to_Z (b : byte) : Z := Z.of_N (Byte.to_N b).
Definition byte_of_Z (z : Z) : byte :=
  default Byte.x00 (Byte.of_N (Z.to_N (z mod 256))).

#[export] Instance byte_eq_dec' : EqDecision byte := Byte.byte_eq_dec.

Lemma byte_to_Z_bound b : 0 <= byte_to_Z b < 256.
Proof.
  unfold byte_to_Z. pose proof (Byte.to_N_bounded b). lia.
Qed.

Lemma byte_to_of_Z z : byte_to_Z (byte_of_Z z) = z mod 256.
Proof.
  unfold byte_to_Z, byte_of_Z.
  pose proof (Z.mod_pos_bound z 256 ltac:(lia)) as Hb.
  destruct (Byte.of_N (Z.to_N (z mod 256))) as [b|] eqn:E.
  - simpl. apply Byte.to_of_N in E. rewrite E. lia.
  - apply Byte.of_N_None_iff in E. lia.
Qed.

Lemma byte_of_to_Z b : byte_of_Z (byte_to_Z b) = b.
Proof.
  unfold byte_of_Z. rewrite Z.mod_small by apply byte_to_Z_bound.
  unfold byte_to_Z. rewrite N2Z.id, Byte.of_to_N. done.
Qed.

Definition put_u32 (n : Z) : list byte :=
  [byte_of_Z (Z.shiftr n 24); byte_of_Z (Z.shiftr n 16);
   byte_of_Z (Z.shiftr n 8); byte_of_Z n].

Definition get_u32 (b : list byte) : option Z :=
  match b with
  | b0 :: b1 :: b2 :: b3 :: _ =>
      Some (Z.lor (Z.shiftl (byte_to_Z b0) 24)
             (Z.lor (Z.shiftl (byte_to_Z b1) 16)
               (Z.lor (Z.shiftl (byte_to_Z b2) 8) (byte_to_Z b3))))
  | _ => None
  end.

Lemma length_put_u32 n : length (put_u32 n) = 4%nat.
Proof. done. Qed.

(** Bits [k..k+7] of [n] and the bits above glue back together. *)
Lemma lor_split_byte n k :
  0 <= k ->
  Z.lor (Z.shiftl (Z.shiftr n k mod 256) k) (n mod 2 ^ k) = n mod 2 ^ (k + 8).
Proof.
  intros Hk. apply Z.bits_inj'. intros i Hi.
  rewrite Z.lor_spec, Z.shiftl_spec by lia.
  rewrite !Z.testbit_mod_pow2 by lia.
  destruct (Z.ltb_spec i k).
  - rewrite Z.testbit_neg_r by lia. destruct (Z.ltb_spec i (k + 8)); [done|lia].
  - change 256 with (2 ^ 8).
    rewrite Z.testbit_mod_pow2, Z.shiftr_spec by lia.
    replace (i - k + k) with i by lia.
    destruct (Z.ltb_spec i (k + 8)), (Z.ltb_spec (i - k) 8); try lia; simpl;
      by rewrite ?orb_false_r.
Qed.

Lemma get_put_u32 n rest : get_u32 (put_u32 n ++ rest) = Some (n mod 2 ^ 32).
Proof.
  unfold put_u32, get_u32. cbn [app]. f_equal. rewrite !byte_to_of_Z.
  pose proof (lor_split_byte n 24 ltac:(lia)) as H3.
  pose proof (lor_split_byte n 16 ltac:(lia)) as H2.
  pose proof (lor_split_byte n 8 ltac:(lia)) as H1.
  change (24 + 8) with 32 in H3. change (16 + 8) with 24 in H2. change (8 + 8) with 16 in H1.
  by rewrite <- H3, <- H2, <- H1.
Qed.

#[export] Hint Resolve zlen_nonneg byte_to_Z_bound : raftkv.
