(* ===== verification/Record.v ===== *)
(** * The framed record log

    [wal/record.go]: records [len][crc32][payload] in one file, and the replay
    that stops at the first torn or corrupt record.

    - [replay_fileOf]: what was appended is read back, and the valid length is
      the whole file;
    - [replay_torn_file]: a record cut anywhere by a crash is dropped, and nothing
      else;
    - [replay_heals]: for any file content the loop ends, what it reads is the
      longest well-formed prefix, and healing the file by truncation there is
      stable. *)

From S2P Require Import Prelude.

(** ** hash/crc32, ChecksumIEEE

    Bit by bit, with the reversed polynomial. *)

Definition crc_poly : Z := 0xEDB88320.

Definition crc_bit (c : Z) : Z :=
  if Z.odd c then Z.lxor crc_poly (Z.shiftr c 1) else Z.shiftr c 1.

Definition crc_byte (c : Z) (b : byte) : Z :=
  Nat.iter 8 crc_bit (Z.lxor c (byte_to_Z b)).

Definition crc32 (data : list byte) : Z :=
  Z.lxor (foldl crc_byte 0xFFFFFFFF data) 0xFFFFFFFF.

(** The check value of the algorithm: the checksum of the digits 1 to 9. *)
Example crc32_check :
  crc32 [Byte.x31; Byte.x32; Byte.x33; Byte.x34; Byte.x35; Byte.x36; Byte.x37; Byte.x38; Byte.x39]
  = 0xCBF43926.
Proof. vm_compute. reflexivity. Qed.

Definition u32 (z : Z) : Prop := 0 <= z < 2 ^ 32.

Lemma u32_bits z : 0 <= z -> (forall i, 32 <= i -> Z.testbit z i = false) -> u32 z.
Proof.
  intros Hz Hb. split; [done|].
  assert (Hm : z = z mod 2 ^ 32).
  { apply Z.bits_inj'. intros i Hi. destruct (Z.lt_ge_cases i 32).
    - by rewrite Z.mod_pow2_bits_low by lia.
    - rewrite Hb by lia. symmetry. apply Z.mod_pow2_bits_high. lia. }
  rewrite Hm. apply Z.mod_pos_bound. lia.
Qed.

Lemma u32_testbit z i : u32 z -> 32 <= i -> Z.testbit z i = false.
Proof.
  intros [Hz Hlt] Hi. destruct (Z.eq_dec z 0) as [->|]; [apply Z.bits_0|].
  apply Z.bits_above_log2; [lia|].
  assert (Z.log2 z < 32) by (apply Z.log2_lt_pow2; lia). lia.
Qed.

Lemma u32_lxor x y : u32 x -> u32 y -> u32 (Z.lxor x y).
Proof.
  intros Hx Hy. apply u32_bits.
  - apply Z.lxor_nonneg. destruct Hx, Hy. tauto.
  - intros i Hi. by rewrite Z.lxor_spec, (u32_testbit x), (u32_testbit y).
Qed.

Lemma u32_shiftr x : u32 x -> u32 (Z.shiftr x 1).
Proof.
  intros [Hx Hlt]. rewrite Z.shiftr_div_pow2 by lia. change (2 ^ 1) with 2. split.
  - apply Z.div_pos; lia.
  - apply Z.div_lt_upper_bound; lia.
Qed.

Lemma u32_crc_bit c : u32 c -> u32 (crc_bit c).
Proof.
  intros H. unfold crc_bit. destruct (Z.odd c); [|by apply u32_shiftr].
  apply u32_lxor; [|by apply u32_shiftr]. by split.
Qed.

Lemma u32_crc_byte c b : u32 c -> u32 (crc_byte c b).
Proof.
  intros H. unfold crc_byte.
  assert (H0 : u32 (Z.lxor c (byte_to_Z b))).
  { apply u32_lxor; [done|]. pose proof (byte_to_Z_bound b). unfold u32. lia. }
  revert H0. generalize (Z.lxor c (byte_to_Z b)). generalize 8%nat.
  intros n. induction n as [|n IH]; intros z Hz; simpl; [done|]. by apply u32_crc_bit, IH.
Qed.

Lemma u32_crc32 data : u32 (crc32 data).
Proof.
  apply u32_lxor; [|by split].
  assert (H0 : u32 0xFFFFFFFF) by (by split). revert H0. generalize 0xFFFFFFFF.
  induction data as [|b data IH]; intros z Hz; simpl; [done|]. by apply IH, u32_crc_byte.
Qed.

(** ** Records *)

Definition recordHeaderSize : Z := 8.

Definition appendRecord (dst payload : list byte) : list byte :=
  dst ++ put_u32 (zlen payload) ++ put_u32 (crc32 payload) ++ payload.

(** The loop of [replayRecords] from [off] on: [data] is what is left of the
    file.  [None] is a loop that did not end within [fuel] rounds, and nothing
    else: a torn or damaged record ends it with [Some].  Every round consumes at
    least the header, so more rounds than the file has bytes are enough
    ([replayLoop_total]). *)
Fixpoint replayLoop (fuel : nat) (data : list byte) (off : Z)
  : option (list (list byte) * Z) :=
  match fuel with
  | O => None
  | S fuel =>
      if decide (zlen data < recordHeaderSize) then Some ([], off)
      else
        match get_u32 data, get_u32 (drop 4 data) with
        | Some n, Some crc =>
            if decide (n < 0 \/ zlen data - recordHeaderSize < n) then Some ([], off)
            else
              let payload := take (Z.to_nat n) (drop 8 data) in
              if decide (crc32 payload <> crc) then Some ([], off)
              else
                '(rs, v) ← replayLoop fuel (drop (8 + Z.to_nat n) data)
                  (off + recordHeaderSize + n);
                Some (payload :: rs, v)
        | _, _ => Some ([], off)
        end
  end.

(** The default is never taken: see [replayLoop_total] and [replayRecords_loop]. *)
Definition replayRecords (data : list byte) : list (list byte) * Z :=
  default ([], 0) (replayLoop (S (length data)) data 0).

(** The file that holds the given records. *)
Definition fileOf (rs : list (list byte)) : list byte := foldl appendRecord [] rs.

(** The length fits the 32-bit header. *)
Definition fits (payload : list byte) : Prop := zlen payload < 2 ^ 32.

(** ** Frames *)

Definition frame (payload : list byte) : list byte := appendRecord [] payload.

Lemma frame_cons p : frame p = put_u32 (zlen p) ++ put_u32 (crc32 p) ++ p.
Proof. done. Qed.

Lemma length_frame p : length (frame p) = (8 + length p)%nat.
Proof. done. Qed.

Lemma appendRecord_frame dst p : appendRecord dst p = dst ++ frame p.
Proof. done. Qed.

Lemma fileOf_gen dst rs : foldl appendRecord dst rs = dst ++ concat (frame <$> rs).
Proof.
  revert dst. induction rs as [|p rs IH]; intros dst; simpl; [by rewrite app_nil_r|].
  rewrite IH, appendRecord_frame. by rewrite <- app_assoc.
Qed.

Lemma fileOf_concat rs : fileOf rs = concat (frame <$> rs).
Proof. apply fileOf_gen. Qed.

Lemma fileOf_snoc rs p : fileOf (rs ++ [p]) = appendRecord (fileOf rs) p.
Proof. unfold fileOf. by rewrite foldl_app. Qed.

Lemma fileOf_cons p rs : fileOf (p :: rs) = frame p ++ fileOf rs.
Proof. by rewrite !fileOf_concat. Qed.

(** Reading one frame back. *)
Lemma replayLoop_frame fuel p rest off :
  fits p ->
  replayLoop (S fuel) (frame p ++ rest) off =
  '(rs, v) ← replayLoop fuel rest (off + 8 + zlen p); Some (p :: rs, v).
Proof.
  intros Hp. assert (Hlen : zlen (frame p ++ rest) = 8 + zlen p + zlen rest).
  { rewrite zlen_app. unfold zlen. rewrite length_frame. lia. }
  pose proof (zlen_nonneg p) as Hp0. pose proof (zlen_nonneg rest).
  assert (Hmod : zlen p mod 2 ^ 32 = zlen p) by (apply Z.mod_small; unfold fits in Hp; lia).
  cbn [replayLoop]. rewrite Hlen. unfold recordHeaderSize.
  rewrite decide_False by lia. rewrite frame_cons, <- !app_assoc, get_put_u32.
  change (drop 4 (put_u32 (zlen p) ++ put_u32 (crc32 p) ++ p ++ rest))
    with (put_u32 (crc32 p) ++ p ++ rest).
  rewrite get_put_u32, Hmod. rewrite decide_False by lia.
  change (drop 8 (put_u32 (zlen p) ++ put_u32 (crc32 p) ++ p ++ rest)) with (p ++ rest).
  replace (Z.to_nat (zlen p)) with (length p) by (unfold zlen; lia).
  rewrite take_app_length. rewrite decide_False.
  2:{ pose proof (u32_crc32 p) as Hc. rewrite Z.mod_small by exact Hc. tauto. }
  assert (Hdrop : drop (8 + length p) (put_u32 (zlen p) ++ put_u32 (crc32 p) ++ p ++ rest) = rest).
  { rewrite <- drop_drop.
    change (drop 8 (put_u32 (zlen p) ++ put_u32 (crc32 p) ++ p ++ rest)) with (p ++ rest).
    apply drop_app_length. }
  by rewrite Hdrop.
Qed.

(** A cut frame gives nothing: either its header is incomplete, or its length
    says more than what is there. *)
Lemma replayLoop_torn fuel p k off :
  fits p -> (k < length (frame p))%nat -> replayLoop (S fuel) (take k (frame p)) off = Some ([], off).
Proof.
  intros Hp Hk. rewrite length_frame in Hk. cbn [replayLoop].
  unfold recordHeaderSize. destruct (decide (k < 8)%nat).
  { rewrite decide_True; [done|]. unfold zlen. rewrite length_take, length_frame. lia. }
  assert (Hlen : zlen (take k (frame p)) = Z.of_nat k)
    by (unfold zlen; rewrite length_take, length_frame; lia).
  rewrite Hlen, decide_False by lia.
  assert (Htk : take k (frame p) = put_u32 (zlen p) ++ take (k - 4) (put_u32 (crc32 p) ++ p)).
  { rewrite frame_cons, take_app_ge by (rewrite length_put_u32; lia). by rewrite length_put_u32. }
  rewrite Htk, get_put_u32.
  destruct (get_u32 (drop 4 _)); [|done]. pose proof (zlen_nonneg p).
  assert (zlen p mod 2 ^ 32 = zlen p) as -> by (apply Z.mod_small; unfold fits in Hp; lia).
  rewrite decide_True; [done|]. right. unfold zlen in *. lia.
Qed.

Lemma replayLoop_tail fuel rs tail off :
  Forall fits rs -> (forall f o, replayLoop (S f) tail o = Some ([], o)) ->
  (length rs < fuel)%nat ->
  replayLoop fuel (fileOf rs ++ tail) off = Some (rs, off + zlen (fileOf rs)).
Proof.
  intros Hf Ht. revert fuel off. induction Hf as [|p rs Hp Hf IH]; intros fuel off Hfuel;
    (destruct fuel as [|fuel]; [simpl in Hfuel; lia|]).
  - rewrite Ht. unfold fileOf, zlen. simpl. by rewrite Z.add_0_r.
  - rewrite fileOf_cons, <- app_assoc. rewrite replayLoop_frame by done.
    rewrite IH by (simpl in Hfuel; lia). cbn [mbind option_bind].
    rewrite zlen_app. do 2 f_equal. unfold zlen. rewrite length_frame. lia.
Qed.

Lemma length_fileOf rs : (length rs <= length (fileOf rs))%nat.
Proof.
  induction rs as [|p rs IH]; [done|]. rewrite fileOf_cons, length_app, length_frame. simpl. lia.
Qed.

Lemma replayLoop_nil f o : replayLoop (S f) [] o = Some ([], o).
Proof. cbn [replayLoop]. by rewrite decide_True by done. Qed.

(** The loop ends: a round that does not stop leaves at least eight bytes less. *)
Lemma replayLoop_total fuel data off :
  (length data < fuel)%nat -> is_Some (replayLoop fuel data off).
Proof.
  revert data off. induction fuel as [|fuel IH]; intros data off Hlen; [lia|].
  cbn [replayLoop]. unfold recordHeaderSize. dcase; [by eexists|].
  destruct (get_u32 data) as [len|]; [|by eexists].
  destruct (get_u32 (drop 4 data)) as [crc|]; [|by eexists]. dcase; [by eexists|].
  case_decide; [by eexists|].
  destruct (IH (drop (8 + Z.to_nat len) data) (off + 8 + len)) as [[rs v] ->]; [|by eexists].
  rewrite length_drop. unfold zlen in *. lia.
Qed.

Lemma replayRecords_loop data rs v :
  replayRecords data = (rs, v) <-> replayLoop (S (length data)) data 0 = Some (rs, v).
Proof.
  unfold replayRecords. destruct (replayLoop_total (S (length data)) data 0) as [r ->]; [lia|].
  simpl. split; congruence.
Qed.

(** ** The two guarantees of the log *)

Lemma replay_fileOf rs : Forall fits rs -> replayRecords (fileOf rs) = (rs, zlen (fileOf rs)).
Proof.
  intros Hf. apply replayRecords_loop. rewrite <- (app_nil_r (fileOf rs)) at 2.
  rewrite replayLoop_tail; [done|done|apply replayLoop_nil|]. pose proof (length_fileOf rs). lia.
Qed.

Lemma replay_torn_file rs p k :
  Forall fits rs -> fits p -> (k < length (frame p))%nat ->
  replayRecords (fileOf rs ++ take k (frame p)) = (rs, zlen (fileOf rs)).
Proof.
  intros Hf Hp Hk. apply replayRecords_loop. rewrite replayLoop_tail; [done|done| |].
  - intros f o. by apply replayLoop_torn.
  - rewrite length_app. pose proof (length_fileOf rs). lia.
Qed.


(** ** Any file content *)

Lemma byte_testbit_high b i : 8 <= i -> Z.testbit (byte_to_Z b) i = false.
Proof.
  intros Hi. pose proof (byte_to_Z_bound b) as Hb.
  destruct (Z.eq_dec (byte_to_Z b) 0) as [->|]; [apply Z.bits_0|].
  apply Z.bits_above_log2; [lia|]. assert (Z.log2 (byte_to_Z b) < 8) by (apply Z.log2_lt_pow2; lia). lia.
Qed.

(** One byte of a big-endian word. *)
Lemma byte_of_word n k b :
  0 <= k -> (forall i, 0 <= i < 8 -> Z.testbit n (i + k) = Z.testbit (byte_to_Z b) i) ->
  byte_of_Z (Z.shiftr n k) = b.
Proof.
  intros Hk H. rewrite <- (byte_of_to_Z b). unfold byte_of_Z.
  rewrite (Z.mod_small (byte_to_Z b)) by apply byte_to_Z_bound.
  assert (Z.shiftr n k mod 256 = byte_to_Z b) as ->; [|done].
  apply Z.bits_inj'. intros i Hi. change 256 with (2 ^ 8). rewrite Z.testbit_mod_pow2 by lia.
  rewrite Z.shiftr_spec by lia. destruct (Z.ltb_spec i 8); simpl.
  - apply H. lia.
  - by rewrite byte_testbit_high.
Qed.

Lemma get_u32_inv data n :
  get_u32 data = Some n -> u32 n /\ put_u32 n = take 4 data.
Proof.
  destruct data as [|b0 [|b1 [|b2 [|b3 data]]]]; simpl; try done. intros [= <-].
  set (n := Z.lor _ _).
  assert (Hbit : forall i, 0 <= i -> Z.testbit n i =
    Z.testbit (byte_to_Z b0) (i - 24) || (Z.testbit (byte_to_Z b1) (i - 16) ||
     (Z.testbit (byte_to_Z b2) (i - 8) || Z.testbit (byte_to_Z b3) i))).
  { intros i Hi. unfold n. by rewrite !Z.lor_spec, !Z.shiftl_spec by lia. }
  pose proof (byte_to_Z_bound b0). pose proof (byte_to_Z_bound b1).
  pose proof (byte_to_Z_bound b2). pose proof (byte_to_Z_bound b3). split.
  - apply u32_bits.
    + unfold n. repeat (apply Z.lor_nonneg; split); try lia; apply Z.shiftl_nonneg; lia.
    + intros i Hi. rewrite Hbit by lia. by rewrite !byte_testbit_high by lia.
  - unfold put_u32. rewrite <- (Z.shiftr_0_r n) at 4. f_equal; [|f_equal; [|f_equal; [|f_equal]]];
      apply byte_of_word; try lia; intros i Hi; rewrite Hbit by lia;
      rewrite ?(Z.testbit_neg_r (byte_to_Z b0)), ?(Z.testbit_neg_r (byte_to_Z b1)),
        ?(Z.testbit_neg_r (byte_to_Z b2)) by lia;
      rewrite ?(byte_testbit_high b1), ?(byte_testbit_high b2), ?(byte_testbit_high b3) by lia;
      simpl; rewrite ?orb_false_r; f_equal; lia.
Qed.

Lemma replayLoop_sound fuel data off rs v :
  replayLoop fuel data off = Some (rs, v) ->
  Forall fits rs /\ v = off + zlen (fileOf rs) /\ fileOf rs `prefix_of` data.
Proof.
  revert data off rs v. induction fuel as [|fuel IH]; intros data off rs v H; cbn [replayLoop] in H.
  { done. }
  assert (Hstop : Some ([], off) = Some (rs, v) ->
    Forall fits rs /\ v = off + zlen (fileOf rs) /\ fileOf rs `prefix_of` data).
  { intros ?. simplify_eq. split_and!; [done|unfold zlen; simpl; lia|apply prefix_nil]. }
  unfold recordHeaderSize in *. dcase; [auto|].
  destruct (get_u32 data) as [len|] eqn:En; [|auto].
  destruct (get_u32 (drop 4 data)) as [crc|] eqn:Ec; [|auto]. dcase; [auto|].
  set (p := take (Z.to_nat len) (drop 8 data)) in *.
  destruct (decide (crc32 p <> crc)) as [|Hcrc]; [auto|].
  destruct (replayLoop fuel (drop (8 + Z.to_nat len) data) (off + 8 + len)) as [[rs' v']|] eqn:E;
    [|done].
  apply IH in E as (Hf & Hv & Hp). simpl in H. simplify_eq.
  apply get_u32_inv in En as [Hn Hhn], Ec as [_ Hhc].
  assert (Hlen : zlen p = len) by (unfold p; unfold u32 in Hn; zlen_lia).
  assert (Hcrc' : crc32 p = crc) by (destruct (decide (crc32 p = crc)); tauto).
  assert (Hdata : data = frame p ++ drop (8 + Z.to_nat len) data).
  { rewrite frame_cons, Hlen, Hcrc', Hhn, Hhc, <- !app_assoc. unfold p.
    rewrite <- (drop_drop data (Z.to_nat len) 8), (take_drop (Z.to_nat len)).
    change 8%nat with (4 + 4)%nat. rewrite <- drop_drop, (take_drop 4). by rewrite take_drop. }
  split_and!.
  - constructor; [|done]. unfold fits. rewrite Hlen. apply Hn.
  - rewrite fileOf_cons, zlen_app. unfold zlen at 2. rewrite length_frame. unfold zlen in *. lia.
  - rewrite fileOf_cons, Hdata. by apply prefix_app.
Qed.

(** Nothing well-formed is left out: records at the front of the data are
    records of the result. *)
Lemma replayLoop_complete fuel rs' rest off rs v :
  Forall fits rs' -> replayLoop fuel (fileOf rs' ++ rest) off = Some (rs, v) ->
  rs' `prefix_of` rs.
Proof.
  intros Hf. revert fuel off rs v.
  induction Hf as [|p rs' Hp Hf IH]; intros fuel off rs v H; [apply prefix_nil|].
  destruct fuel as [|fuel]; [done|]. rewrite fileOf_cons, <- app_assoc, replayLoop_frame in H by done.
  destruct (replayLoop fuel _ _) as [[rs1 v1]|] eqn:E; [|done]. simpl in H. simplify_eq.
  apply IH in E. by apply prefix_cons.
Qed.

(** C27: replay ends and finds exactly the longest well-formed prefix.  Whatever
    bytes are in the file, the loop ends within one round more than the file
    has bytes; the records it gives are, re-encoded, the first [validLen] bytes
    of the file; every other way to read whole records with a right checksum
    off the front of the file gives an initial part of them, so no record before
    the first damaged one is dropped; and truncating the file there is stable:
    replaying it again gives the same records with nothing torn. *)
Theorem replay_heals data :
  exists rs v,
    replayLoop (S (length data)) data 0 = Some (rs, v) /\ replayRecords data = (rs, v) /\
    0 <= v <= zlen data /\ take (Z.to_nat v) data = fileOf rs /\
    (forall rs', Forall fits rs' -> fileOf rs' `prefix_of` data -> rs' `prefix_of` rs) /\
    replayRecords (take (Z.to_nat v) data) = (rs, v).
Proof.
  destruct (replayLoop_total (S (length data)) data 0) as [[rs v] H]; [lia|].
  exists rs, v. split_and!; [done|by apply replayRecords_loop|..];
    pose proof H as Hl; apply replayLoop_sound in H as (Hf & -> & Hp);
    rewrite ?Z.add_0_l; [apply zlen_nonneg|apply prefix_length in Hp; zlen_lia|..].
  all: assert (Htk : take (Z.to_nat (zlen (fileOf rs))) data = fileOf rs)
    by (unfold zlen; rewrite Nat2Z.id; by apply prefix_take_iff).
  - done.
  - intros rs' Hf' [rest ->]. by apply replayLoop_complete in Hl.
  - rewrite Htk. by apply replay_fileOf.
Qed.

(** Records survive, torn tails do not.  A file of records is read back as
    those records; with one more record cut after any number of bytes, short of
    all of them, the replay gives the same records and the length to heal to. *)
Theorem replay_torn_tail rs p k :
  Forall fits rs -> fits p -> (k < length (frame p))%nat ->
  replayRecords (fileOf rs) = (rs, zlen (fileOf rs)) /\
  replayRecords (fileOf (rs ++ [p])) = (rs ++ [p], zlen (fileOf (rs ++ [p]))) /\
  replayRecords (fileOf rs ++ take k (frame p)) = (rs, zlen (fileOf rs)).
Proof.
  intros Hf Hp Hk. split_and!; [by apply replay_fileOf| |by apply replay_torn_file].
  apply replay_fileOf, Forall_app. auto.
Qed.

Lemma replay_torn_tail_witness :
  replayRecords (fileOf [[Byte.x01; Byte.x02]] ++ take 9 (frame [Byte.x03; Byte.x04]))
  = ([[Byte.x01; Byte.x02]], 10).
Proof.
  apply (replay_torn_tail [[Byte.x01; Byte.x02]] [Byte.x03; Byte.x04] 9).
  - constructor; [reflexivity|constructor].
  - reflexivity.
  - vm_compute. lia.
Defined.
