(* ===== verification/Fs.v ===== *)
(** * The file system seam and the crash-safe primitives

    [wal/memfs.go] (the file system with injected crashes), [wal/atomic.go]
    ([AtomicWrite]) and the file-backed half of [wal/record.go] ([RecordLog]).

    An operation is a function of the file system that yields the file system
    it leaves behind, also when it fails: [fsM].  After an injected crash every
    operation fails and the durable content is frozen until [Reboot].

    - [AtomicWrite_spec]: under any injected fault, the target holds its old
      content or the whole new one, and the latter whenever no error is returned;
    - [Append_spec], [OpenRecordLog_spec]: an append under any injected fault,
      then a reopen, gives the old records or the old records and the new one. *)

From S2P Require Import Prelude Record.

Inductive fsError := ErrCrash | ErrNotExist | ErrTruncatePastEnd.

Record MemFS := mkFS {
  files : gmap string (list byte);
  FaultWriteLimit : Z;
  FaultRename : string;
  crashed : bool
}.

Definition set_files f m := mkFS f (FaultWriteLimit m) (FaultRename m) (crashed m).
Definition set_FaultWriteLimit z m := mkFS (files m) z (FaultRename m) (crashed m).
Definition set_crashed b m := mkFS (files m) (FaultWriteLimit m) (FaultRename m) b.

Definition NewMemFS : MemFS := mkFS ∅ (-1) "" false.

(** Go reads a missing map entry as the nil slice. *)
Definition fget (m : MemFS) (name : string) : list byte := default [] (files m !! name).

Definition Content (m : MemFS) (name : string) : list byte * bool :=
  match files m !! name with Some b => (b, true) | None => ([], false) end.

Definition Reboot (m : MemFS) : MemFS := mkFS (files m) (-1) "" false.

(** ** The monad *)

Definition fsM (A : Type) : Type := MemFS -> MemFS * (fsError + A).

#[export] Instance fsM_ret : MRet fsM := fun A x m => (m, inr x).
#[export] Instance fsM_bind : MBind fsM := fun A B k x m =>
  match x m with
  | (m', inl e) => (m', inl e)
  | (m', inr v) => k v m'
  end.

Definition fail {A} (e : fsError) : fsM A := fun m => (m, inl e).

(** [if m.crashed { return ErrCrash }] *)
Definition alive {A} (x : fsM A) : fsM A := fun m => if crashed m then (m, inl ErrCrash) else x m.

(** [if err := x; err != nil { cleanup; return err }] *)
Definition orElse {A B} (x : fsM A) (cleanup : fsM B) : fsM A := fun m =>
  match x m with
  | (m', inl e) => (fst (cleanup m'), inl e)
  | r => r
  end.

(** A call whose error is ignored. *)
Definition bestEffort (x : fsM unit) : fsM unit := fun m => (fst (x m), inr tt).

(** ** MemFS and its files *)

Record memFile := mkFile { mf_name : string; mf_off : nat }.

Definition Create (name : string) : fsM memFile :=
  alive (fun m => (set_files (<[name := []]> (files m)) m, inr (mkFile name 0))).

Definition Open (name : string) : fsM memFile :=
  alive (fun m => match files m !! name with
                  | Some _ => (m, inr (mkFile name 0))
                  | None => (m, inl ErrNotExist)
                  end).

Definition OpenAppend (name : string) : fsM memFile :=
  alive (fun m =>
    let m := match files m !! name with
             | Some _ => m
             | None => set_files (<[name := []]> (files m)) m
             end in
    (m, inr (mkFile name (length (fget m name))))).

Definition ReadFile (name : string) : fsM (list byte) := alive (fun m => (m, inr (fget m name))).

Definition Truncate (name : string) (size : Z) : fsM unit :=
  alive (fun m => match files m !! name with
    | Some b => if decide (zlen b < size) then (m, inl ErrTruncatePastEnd)
                else (set_files (<[name := take (Z.to_nat size) b]> (files m)) m, inr tt)
    | None => (m, inl ErrTruncatePastEnd)
    end).

Definition Rename (oldpath newpath : string) : fsM unit :=
  alive (fun m =>
    if decide (FaultRename m = "before") then (set_crashed true m, inl ErrCrash)
    else
      let m := set_files (delete oldpath (<[newpath := fget m oldpath]> (files m))) m in
      if decide (FaultRename m = "after") then (set_crashed true m, inl ErrCrash)
      else (m, inr tt)).

Definition Remove (name : string) : fsM unit :=
  alive (fun m => (set_files (delete name (files m)) m, inr tt)).

Definition SyncDir (dir : string) : fsM unit := alive (mret tt).

(** Overwrites from the offset on, padding with zeros up to it. *)
Definition writeAt (f : memFile) (p : list byte) (m : MemFS) : MemFS :=
  let cur := fget m (mf_name f) in
  let need := (mf_off f + length p)%nat in
  let cur := cur ++ replicate (need - length cur) Byte.x00 in
  set_files (<[mf_name f := take (mf_off f) cur ++ p ++ drop need cur]> (files m)) m.

Definition Write (f : memFile) (p : list byte) : fsM memFile :=
  alive (fun m =>
    let lim := FaultWriteLimit m in
    if decide (0 <= lim) then
      let m := set_FaultWriteLimit (-1) m in
      if decide (lim < zlen p) then
        (set_crashed true (writeAt f (take (Z.to_nat lim) p) m), inl ErrCrash)
      else (writeAt f p m, inr (mkFile (mf_name f) (mf_off f + length p)))
    else (writeAt f p m, inr (mkFile (mf_name f) (mf_off f + length p)))).

Definition Sync (f : memFile) : fsM unit := alive (mret tt).

Definition Close (f : memFile) : fsM unit := alive (mret tt).

(** ** AtomicWrite *)

(** Write a temporary file, sync it, and swap it in: the part that
    [wal.AtomicWrite] and the [atomicWrite] of persist/file.go share. *)
Definition writeSwap (tmp path : string) (data : list byte) : fsM unit :=
  f ← Create tmp;
  f ← orElse (Write f data) (Close f);
  _ ← orElse (Sync f) (Close f);
  _ ← Close f;
  Rename tmp path.

Definition AtomicWrite (dir path : string) (data : list byte) : fsM unit :=
  _ ← writeSwap (path +:+ ".tmp")%string path data;
  SyncDir dir.

(** ** RecordLog: the handle at the end of the file *)

Definition OpenRecordLog (name : string) : fsM (memFile * list (list byte)) :=
  data ← ReadFile name;
  let '(records, validLen) := replayRecords data in
  _ ← (if decide (validLen <> zlen data) then Truncate name validLen else mret tt);
  f ← OpenAppend name;
  mret (f, records).

Definition NewRecordLog (f : memFile) : memFile := f.

Definition Append (l : memFile) (payload : list byte) : fsM memFile :=
  f ← Write l (appendRecord [] payload);
  _ ← Sync f;
  mret f.

(** ** Specifications *)

Lemma tmp_ne path : (path +:+ ".tmp")%string <> path.
Proof.
  intros H. apply (f_equal String.length) in H.
  assert (Hl : forall s t : string, String.length (s +:+ t)%string = (String.length s + String.length t)%nat).
  { intros s t. induction s as [|x s IH]; simpl; [done|]. by rewrite IH. }
  rewrite Hl in H. simpl in H. lia.
Qed.

(** The content a write at the end of a file leaves. *)
Lemma writeAt_end name p m :
  fget (writeAt (mkFile name (length (fget m name))) p m) name = fget m name ++ p.
Proof.
  unfold writeAt, fget at 1; simpl. rewrite lookup_insert_eq. simpl.
  rewrite take_app_length. f_equal.
  rewrite (drop_ge _ (_ + length p)%nat); [by rewrite app_nil_r|].
  rewrite length_app, length_replicate. lia.
Qed.

Lemma writeAt_other name f p m : name <> mf_name f -> files (writeAt f p m) !! name = files m !! name.
Proof. intros. unfold writeAt. simpl. by rewrite lookup_insert_ne. Qed.

(** Every name but [path] and its temporary file is untouched. *)
Definition untouched (tmp path : string) (m m' : MemFS) : Prop :=
  forall name, name <> path -> name <> tmp -> files m' !! name = files m !! name.

(** A crash is pending. *)
Definition faulty (m : MemFS) : Prop :=
  0 <= FaultWriteLimit m \/ FaultRename m = "before" \/ FaultRename m = "after".

#[export] Instance faulty_dec m : Decision (faulty m).
Proof. unfold faulty. apply _. Defined.

(** The second half of [AtomicWrite]: the temporary file is complete. *)
Lemma rename_cases tmp path data m m' r :
  tmp <> path -> crashed m = false -> files m !! tmp = Some data ->
  Rename tmp path m = (m', r) ->
  untouched tmp path m m' /\ FaultWriteLimit m' = FaultWriteLimit m /\ FaultRename m' = FaultRename m /\
  match r with
  | inr _ => files m' !! path = Some data /\ crashed m' = false
  | inl e => e = ErrCrash /\ crashed m' = true /\ faulty m /\
      (files m' !! path = files m !! path \/ files m' !! path = Some data)
  end.
Proof.
  intros Hne Hc Hd H. unfold Rename, alive in H. rewrite Hc in H.
  unfold faulty. destruct (decide (FaultRename m = "before")); [by simplify_eq; split_and!; auto|].
  assert (Hget : fget m tmp = data) by (unfold fget; by rewrite Hd).
  rewrite Hget in H. simpl in H.
  assert (Hun : forall b, untouched tmp path m (set_crashed b (set_files
    (delete tmp (<[path := data]> (files m))) m))).
  { intros b name H1 H2. simpl. by rewrite lookup_delete_ne, lookup_insert_ne by done. }
  assert (Hnew : delete tmp (<[path := data]> (files m)) !! path = Some data)
    by (by rewrite lookup_delete_ne, lookup_insert_eq).
  destruct (decide (FaultRename m = "after")); simplify_eq/=.
  - split_and!; auto.
  - split_and!; auto. apply (Hun (crashed m)).
Qed.

(** Running the steps of a function one by one. *)
Lemma bind_inv {A B} (x : fsM A) (k : A -> fsM B) m m' r :
  (x ≫= k) m = (m', r) ->
  exists m1 r1, x m = (m1, r1) /\
    match r1 with inl e => m' = m1 /\ r = inl e | inr v => k v m1 = (m', r) end.
Proof.
  unfold mbind, fsM_bind. intros H. destruct (x m) as [m1 [e|v]] eqn:E.
  - exists m1, (inl e). by simplify_eq.
  - by exists m1, (inr v).
Qed.

Lemma Write_cases f p m m' r :
  crashed m = false -> Write f p m = (m', r) -> FaultRename m' = FaultRename m /\
  match r with
  | inr f' => f' = mkFile (mf_name f) (mf_off f + length p) /\ crashed m' = false /\
      files m' = files (writeAt f p m) /\ (FaultWriteLimit m < 0 -> FaultWriteLimit m' < 0)
  | inl e => e = ErrCrash /\ crashed m' = true /\ 0 <= FaultWriteLimit m /\
      exists k, (k < length p)%nat /\ files m' = files (writeAt f (take k p) m)
  end.
Proof.
  intros Hc H. unfold Write, alive in H. rewrite Hc in H. simpl in H. dcase; [dcase|]; simplify_eq/=.
  - split; [done|]. split; [done|]. split; [done|]. split; [done|].
    exists (Z.to_nat (FaultWriteLimit m)). split; [zlen_lia|done].
  - split_and!; auto. lia.
  - split_and!; auto.
Qed.

(** [Sync], [Close] and [SyncDir] do nothing on a live file system. *)
Lemma orElse_live {A B} (x : fsM A) (c : fsM B) m m' v :
  x m = (m', inr v) -> orElse x c m = (m', inr v).
Proof. unfold orElse. by intros ->. Qed.

Lemma writeSwap_cases tmp path data m m' r :
  tmp <> path -> crashed m = false -> writeSwap tmp path data m = (m', r) ->
  untouched tmp path m m' /\ FaultRename m' = FaultRename m /\
  match r with
  | inr _ => files m' !! path = Some data /\ crashed m' = false /\
             (FaultWriteLimit m < 0 -> FaultWriteLimit m' < 0)
  | inl e => e = ErrCrash /\ crashed m' = true /\ faulty m /\
      (files m' !! path = files m !! path \/ files m' !! path = Some data)
  end.
Proof.
  intros Hne Hc H. unfold writeSwap in H.
  apply bind_inv in H as (m1 & r1 & E1 & H). unfold Create, alive in E1. rewrite Hc in E1.
  injection E1 as <- <-. set (m1 := set_files (<[tmp := []]> (files m)) m) in *.
  assert (Ho : forall (fs : gmap string (list byte)) b name,
    fs = files (writeAt (mkFile tmp 0) b m1) -> name <> tmp -> fs !! name = files m !! name).
  { intros fs b name -> Hn. rewrite writeAt_other by done. simpl. by rewrite lookup_insert_ne. }
  apply bind_inv in H as (m2 & r2 & E2 & H).
  destruct (Write (mkFile tmp 0) data m1) as [mw rw] eqn:Ew.
  destruct (Write_cases _ _ _ _ _ (Hc : crashed m1 = false) Ew) as (Hfr & Hw).
  change (FaultRename m1) with (FaultRename m) in Hfr.
  destruct rw as [e|f].
  { assert (Hm2 : m2 = mw /\ r2 = inl e).
    { unfold orElse in E2. rewrite Ew in E2. destruct Hw as (_ & Hcw & _).
      unfold Close, alive in E2. rewrite Hcw in E2. by simplify_eq. }
    destruct Hm2 as [-> ->], H as [-> ->]. destruct Hw as (-> & Hcw & Hlim & k & Hk & Hf).
    split_and!; auto; [|by left|left; by eapply Ho]. intros name H1 H2. by eapply Ho. }
  rewrite (orElse_live _ _ _ _ _ Ew) in E2. simplify_eq. destruct Hw as (-> & Hcw & Hf & Hlim).
  apply bind_inv in H as (m3 & r3 & E3 & H). rewrite (orElse_live _ _ _ m2 tt) in E3
    by (unfold Sync, alive; by rewrite Hcw). simplify_eq.
  apply bind_inv in H as (m4 & r4 & E4 & H). unfold Close, alive in E4. rewrite Hcw in E4.
  unfold mret, fsM_ret in E4. simplify_eq.
  assert (Hd : files m4 !! tmp = Some data).
  { rewrite Hf. unfold writeAt. simpl. rewrite lookup_insert_eq. f_equal. unfold fget. simpl.
    rewrite lookup_insert_eq. simpl. rewrite drop_ge; [by rewrite app_nil_r|].
    rewrite length_replicate. lia. }
  destruct (rename_cases tmp path data m4 m' r Hne Hcw Hd H) as (Hu & Hl5 & Hf5 & Hr5).
  assert (Hu' : untouched tmp path m m') by (intros name H1 H2; rewrite Hu by done; by eapply Ho).
  destruct r as [e|[]].
  - destruct Hr5 as (-> & ? & Hfa & Hp). rewrite (Ho _ data path Hf) in Hp by congruence.
    split_and!; auto; [congruence|]. unfold faulty in *. rewrite Hfr in Hfa.
    destruct Hfa as [Hge|]; [|tauto]. left. destruct (decide (FaultWriteLimit m < 0)); [|lia].
    change (FaultWriteLimit m1) with (FaultWriteLimit m) in Hlim. lia.
  - destruct Hr5 as [Hp Hc5]. split_and!; auto; [congruence|]. intros. rewrite Hl5. by apply Hlim.
Qed.

Lemma AtomicWrite_cases dir path data m m' r :
  crashed m = false -> AtomicWrite dir path data m = (m', r) ->
  untouched (path +:+ ".tmp")%string path m m' /\ FaultRename m' = FaultRename m /\
  match r with
  | inr _ => files m' !! path = Some data /\ crashed m' = false /\
             (FaultWriteLimit m < 0 -> FaultWriteLimit m' < 0)
  | inl e => e = ErrCrash /\ crashed m' = true /\ faulty m /\
      (files m' !! path = files m !! path \/ files m' !! path = Some data)
  end.
Proof.
  intros Hc H. unfold AtomicWrite in H. apply bind_inv in H as (m1 & r1 & E1 & H).
  destruct (writeSwap_cases _ _ _ _ _ _ (tmp_ne path) Hc E1) as (Hu & Hf & Hr).
  destruct r1 as [e|[]]; [by destruct H as [-> ->]|]. pose proof Hr as (_ & Hc1 & _).
  unfold SyncDir, alive, mret, fsM_ret in H. rewrite Hc1 in H. by simplify_eq.
Qed.

(** The log in file [name] holds [rs], and [l] is the handle at its end. *)
Record log_at (m : MemFS) (name : string) (rs : list (list byte)) (l : memFile) : Prop := {
  la_live : crashed m = false;
  la_file : files m !! name = Some (fileOf rs);
  la_fits : Forall fits rs;
  la_handle : l = mkFile name (length (fileOf rs))
}.

Definition same_elsewhere (name : string) (m m' : MemFS) : Prop :=
  forall n, n <> name -> files m' !! n = files m !! n.

Lemma Append_cases name rs l p m m' r :
  log_at m name rs l -> fits p -> Append l p m = (m', r) ->
  same_elsewhere name m m' /\ FaultRename m' = FaultRename m /\
  match r with
  | inr l' => log_at m' name (rs ++ [p]) l' /\ (FaultWriteLimit m < 0 -> FaultWriteLimit m' < 0)
  | inl _ => crashed m' = true /\ 0 <= FaultWriteLimit m /\ exists k, (k < length (frame p))%nat /\
      files m' !! name = Some (fileOf rs ++ take k (frame p))
  end.
Proof.
  intros [Hc Hf Hr ->] Hp H. unfold Append in H. fold (frame p) in H.
  assert (Hget : fget m name = fileOf rs) by (unfold fget; by rewrite Hf).
  assert (Hwr : forall b, files (writeAt (mkFile name (length (fileOf rs))) b m) !! name = Some (fileOf rs ++ b)).
  { intros b. pose proof (writeAt_end name b m) as Hw. rewrite Hget in Hw. rewrite <- Hw.
    unfold fget. unfold writeAt. simpl. by rewrite lookup_insert_eq. }
  apply bind_inv in H as (m1 & r1 & E1 & H).
  destruct (Write_cases _ _ _ _ _ Hc E1) as (Hfr & Hw).
  assert (Hother : forall b, files m1 = files (writeAt (mkFile name (length (fileOf rs))) b m) ->
    same_elsewhere name m m1) by (intros b Hb n Hn; rewrite Hb; by apply writeAt_other).
  destruct r1 as [e|f].
  - destruct H as [-> ->], Hw as (_ & Hcw & Hl & k & Hk & Hfk).
    split; [by eapply Hother|]. split; [done|]. split; [done|]. split; [done|].
    exists k. split; [done|]. rewrite Hfk. apply Hwr.
  - destruct Hw as (-> & Hcw & Hfw & Hl). apply bind_inv in H as (m2 & r2 & E2 & H).
    unfold Sync, alive in E2. rewrite Hcw in E2. unfold mret, fsM_ret in E2, H. simplify_eq.
    split_and!; eauto. split; auto.
    + rewrite Hfw, fileOf_snoc, appendRecord_frame. apply Hwr.
    + apply Forall_app. auto.
    + rewrite fileOf_snoc, appendRecord_frame, length_app. done.
Qed.

Lemma OpenRecordLog_heals name m rs v :
  crashed m = false -> replayRecords (fget m name) = (rs, v) ->
  exists m' l, OpenRecordLog name m = (m', inr (l, rs)) /\ log_at m' name rs l /\
    same_elsewhere name m m' /\ FaultRename m' = FaultRename m /\
    FaultWriteLimit m' = FaultWriteLimit m.
Proof.
  intros Hc Hr. pose proof (proj1 (replayRecords_loop _ _ _) Hr) as Hl.
  apply replayLoop_sound in Hl as (Hf & Hv & Hp).
  rewrite Z.add_0_l in Hv. subst v.
  unfold OpenRecordLog, mbind, fsM_bind, ReadFile, alive. rewrite Hc, Hr.
  destruct (decide (zlen (fileOf rs) <> zlen (fget m name))) as [Hne|Heq].
  - unfold Truncate, alive. rewrite Hc. destruct (files m !! name) as [b|] eqn:Eb.
    2:{ exfalso. unfold fget in Hp, Hne. rewrite Eb in *. simpl in *. apply prefix_nil_inv in Hp. by rewrite Hp in Hne. }
    assert (Hg : fget m name = b) by (unfold fget; by rewrite Eb). rewrite Hg in *.
    apply prefix_length in Hp as Hlen. rewrite decide_False by zlen_lia.
    assert (Htk : take (Z.to_nat (zlen (fileOf rs))) b = fileOf rs).
    { unfold zlen. rewrite Nat2Z.id. by apply prefix_take_iff. }
    rewrite Htk. unfold OpenAppend, alive. simpl. rewrite Hc. rewrite lookup_insert_eq. unfold fget. simpl.
    rewrite lookup_insert_eq. eexists _, _. split; [done|]. split_and!; try done.
    + split; auto. simpl. apply lookup_insert_eq.
    + intros n Hn. simpl. by rewrite lookup_insert_ne.
  - assert (Hg : fget m name = fileOf rs).
    { symmetry. apply prefix_length_eq; [done|]. destruct (decide (zlen (fileOf rs) = zlen (fget m name))); [zlen_lia|tauto]. }
    unfold mret, fsM_ret, OpenAppend, alive. rewrite Hc. unfold fget in *.
    destruct (files m !! name) as [b|] eqn:Eb; simpl in *.
    + subst b. rewrite Eb. eexists _, _. split; [done|]. split_and!; done.
    + rewrite lookup_insert_eq. simpl. eexists _, _. split; [done|]. split_and!; try done.
      * split; simpl; auto; [by rewrite lookup_insert_eq, Hg|by rewrite <- Hg].
      * intros n Hn. simpl. by rewrite lookup_insert_ne.
Qed.

(** AtomicWrite is atomic.  Under every injected fault (a write cut after
    any number of bytes, a crash before or after the rename) the target holds
    afterwards either its previous content or all of the new data, the new data
    whenever no error is returned, and no other file but the temporary one has
    changed. *)
Theorem AtomicWrite_atomic dir path data m m' r :
  crashed m = false -> AtomicWrite dir path data m = (m', r) ->
  untouched (path +:+ ".tmp")%string path m m' /\
  (files m' !! path = files m !! path /\ r = inl ErrCrash \/ files m' !! path = Some data) /\
  (r = inr tt -> files m' !! path = Some data).
Proof.
  intros Hc H. destruct (AtomicWrite_cases _ _ _ _ _ _ Hc H) as (Hu & _ & Hr). split; [done|].
  destruct r as [e|[]]; [|tauto]. destruct Hr as (-> & _ & _ & Hr). split; [tauto|done].
Qed.

Lemma AtomicWrite_atomic_witness :
  let m := mkFS {["f" := [Byte.x01]]} 1 "" false in
  let r := AtomicWrite "d" "f" [Byte.x02; Byte.x03] m in
  crashed (fst r) = true /\ (files (fst r) !! "f" = Some [Byte.x01]).
Proof.
  intros m r. split; [vm_compute; reflexivity|].
  destruct (AtomicWrite_atomic "d" "f" [Byte.x02; Byte.x03] m (fst r) (snd r)) as (_ & [[H _]|H] & _).
  - reflexivity.
  - vm_compute. reflexivity.
  - rewrite H. reflexivity.
  - exfalso. revert H. vm_compute. discriminate.
Defined.

(** An append survives or disappears.  Appending a record under every
    injected fault, then rebooting and reopening the log, gives back the records
    before it, or those and the new one; the latter whenever the append
    returned, so an acknowledged record is durable. *)
Theorem append_crash_safe name rs l p m m' r :
  log_at m name rs l -> fits p -> Append l p m = (m', r) ->
  exists m2 l2 rs2, OpenRecordLog name (Reboot m') = (m2, inr (l2, rs2)) /\
    log_at m2 name rs2 l2 /\ (rs2 = rs \/ rs2 = rs ++ [p]) /\
    (forall l', r = inr l' -> rs2 = rs ++ [p]).
Proof.
  intros Hl Hp H. destruct (Append_cases _ _ _ _ _ _ _ Hl Hp H) as (_ & _ & Hr).
  assert (Hget : forall b, files m' !! name = Some b -> fget (Reboot m') name = b)
    by (intros b Hb; unfold fget; simpl; by rewrite Hb).
  destruct r as [e|l'].
  - destruct Hr as (_ & _ & k & Hk & Hf).
    destruct (OpenRecordLog_heals name (Reboot m') rs (zlen (fileOf rs))) as (m2 & l2 & Ho & Hl2 & _).
    + done.
    + rewrite (Hget _ Hf). apply replay_torn_file; [apply Hl|done|done].
    + exists m2, l2, rs. split_and!; auto. intros ? ?. done.
  - destruct Hr as ([Hc Hf Hfit ->] & _).
    destruct (OpenRecordLog_heals name (Reboot m') (rs ++ [p]) (zlen (fileOf (rs ++ [p]))))
      as (m2 & l2 & Ho & Hl2 & _).
    + done.
    + rewrite (Hget _ Hf). by apply replay_fileOf.
    + exists m2, l2, (rs ++ [p]). split_and!; auto.
Qed.

Lemma append_crash_safe_witness :
  let m := mkFS {["w" := fileOf []]} 3 "" false in
  exists m2 l2 rs2, OpenRecordLog "w" (Reboot (fst (Append (mkFile "w" 0) [Byte.x05] m)))
    = (m2, inr (l2, rs2)).
Proof.
  intros m.
  destruct (append_crash_safe "w" [] (mkFile "w" 0) [Byte.x05] m
    (fst (Append (mkFile "w" 0) [Byte.x05] m)) (snd (Append (mkFile "w" 0) [Byte.x05] m)))
    as (m2 & l2 & rs2 & H & _).
  - split; [reflexivity|reflexivity|constructor|reflexivity].
  - reflexivity.
  - vm_compute. reflexivity.
  - exists m2, l2, rs2. exact H.
Defined.
