(* ===== verification/Gob.v ===== *)
(** * Values as bytes

    [labgob] wraps [encoding/gob].  What the persistence code relies on is that
    a value decodes to what was encoded, that a decoder reading a stream stops
    where the value ends, and that no value encodes to nothing.  An empty byte
    slice is not sent and decodes as [nil] ([nilable]).

    [bit_gob] is a concrete codec with these properties, for any countable type. *)

From S2P Require Import Prelude.

Class Gob (A : Type) := {
  gob_enc : A -> list byte;
  gob_dec : list byte -> option (A * list byte);
  gob_stream x rest : gob_dec (gob_enc x ++ rest) = Some (x, rest);
  gob_nonempty x : gob_enc x <> []
}.

Definition nilable (b : list byte) : option (list byte) :=
  match b with [] => None | _ => Some b end.

Lemma nilable_default b : default [] (nilable b) = b.
Proof. by destruct b. Qed.

(** Decoding a whole buffer. *)
Definition gob_decode {A} `{!Gob A} (b : list byte) : option A := fst <$> gob_dec b.

Lemma gob_roundtrip {A} `{!Gob A} (x : A) : gob_decode (gob_enc x) = Some x.
Proof. unfold gob_decode. by rewrite <- (app_nil_r (gob_enc x)), gob_stream. Qed.

(** ** A concrete codec *)

Fixpoint pos_bytes (p : positive) : list byte :=
  match p with
  | xH => [Byte.x02]
  | xO p => Byte.x00 :: pos_bytes p
  | xI p => Byte.x01 :: pos_bytes p
  end.

Fixpoint bytes_pos (b : list byte) : option (positive * list byte) :=
  match b with
  | Byte.x02 :: b => Some (xH, b)
  | Byte.x00 :: b => '(p, r) ← bytes_pos b; Some (xO p, r)
  | Byte.x01 :: b => '(p, r) ← bytes_pos b; Some (xI p, r)
  | _ => None
  end.

Lemma bytes_pos_stream p rest : bytes_pos (pos_bytes p ++ rest) = Some (p, rest).
Proof. induction p as [p IH|p IH|]; simpl; [by rewrite IH|by rewrite IH|done]. Qed.

Definition bit_enc {A} `{Countable A} (x : A) : list byte := pos_bytes (encode x).
Definition bit_dec {A} `{Countable A} (b : list byte) : option (A * list byte) :=
  '(p, r) ← bytes_pos b; x ← decode p; Some (x, r).

Lemma bit_stream {A} `{Countable A} (x : A) rest : bit_dec (bit_enc x ++ rest) = Some (x, rest).
Proof. unfold bit_dec, bit_enc. rewrite bytes_pos_stream. simpl. by rewrite decode_encode. Qed.

Lemma bit_nonempty {A} `{Countable A} (x : A) : bit_enc x <> [].
Proof. unfold bit_enc. by destruct (encode x). Qed.

Definition bit_gob {A} `{Countable A} : Gob A :=
  {| gob_enc := bit_enc; gob_dec := bit_dec; gob_stream := bit_stream; gob_nonempty := bit_nonempty |}.

#[export] Program Instance byte_countable : Countable byte :=
  inj_countable' byte_to_Z byte_of_Z _.
Next Obligation. apply byte_of_to_Z. Qed.
