(* ===== verification/Labgob.v ===== *)
(** * The checks of the codec

    [labgob/labgob.go]: before it encodes or decodes, labgob looks through the type
    of the value for fields that gob will not send, and through a value that is
    decoded into for values that gob may not overwrite.

    A type is a node of a graph, which may have cycles: [kindOf] says what
    [reflect] says of it.  The set of types already looked at is what makes the
    search end; the theorem is that it does, and what it counts. *)

From Stdlib Require Import Ascii.
From S2P Require Import Prelude.

(** ** Types *)

Inductive kind (T : Type) :=
| Struct (fields : list (string * T))
| Elem (elem : T) (* slices, arrays and pointers *)
| Map (key elem : T)
| Other.
Arguments Struct {T}.
Arguments Elem {T}.
Arguments Map {T}.
Arguments Other {T}.

Record lab := mkLab { checked : gset nat; errorCount : Z }.

Section types.
(* [IsUpper] of the first rune *)
Context (isUpper : string -> bool) (kindOf : nat -> kind nat).

Definition mark (t : nat) (st : lab) : lab := mkLab ({[t]} ∪ checked st) (errorCount st).
Definition complain (name : string) (st : lab) : lab :=
  if isUpper name then st else mkLab (checked st) (errorCount st + 1).

Section fields.
Context (checkType : nat -> lab -> option lab).

Fixpoint checkFields (fs : list (string * nat)) (st : lab) : option lab :=
  match fs with
  | [] => Some st
  | (name, t) :: fs => st ← checkType t (complain name st); checkFields fs st
  end.

End fields.

Fixpoint checkType (fuel : nat) (t : nat) (st : lab) : option lab :=
  match fuel with
  | O => None
  | S fuel =>
      if decide (t ∈ checked st) then Some st
      else
        let st := mark t st in
        match kindOf t with
        | Struct fs => checkFields (checkType fuel) fs st
        | Elem e => checkType fuel e st
        | Map k e => st ← checkType fuel e st; checkType fuel k st
        | Other => Some st
        end
  end.

(** ** What the search does *)

Definition children (t : nat) : list nat :=
  match kindOf t with Struct fs => fs.*2 | Elem e => [e] | Map k e => [k; e] | Other => [] end.

(** The fields of a type that gob will not send. *)
Definition bad_fields (t : nat) : Z :=
  match kindOf t with Struct fs => Z.of_nat (length (filter (fun f => isUpper f.1 = false) fs)) | _ => 0 end.

Definition contains (s t : nat) : Prop := t ∈ children s.

Definition total (X : gset nat) : Z := foldr Z.add 0 (bad_fields <$> elements X).

Lemma total_perm l l' : l ≡ₚ l' -> foldr Z.add 0 (bad_fields <$> l) = foldr Z.add 0 (bad_fields <$> l').
Proof. induction 1; csimpl; lia. Qed.

Lemma total_app l l' : foldr Z.add 0 (bad_fields <$> l ++ l') = foldr Z.add 0 (bad_fields <$> l) + foldr Z.add 0 (bad_fields <$> l').
Proof. induction l; csimpl; lia. Qed.

Lemma total_union X Y : X ## Y -> total (X ∪ Y) = total X + total Y.
Proof. intros H. unfold total. rewrite (total_perm _ _ (elements_disj_union X Y H)). apply total_app. Qed.

Lemma total_empty : total ∅ = 0.
Proof. done. Qed.

Lemma total_singleton t : total {[t]} = bad_fields t.
Proof. unfold total. rewrite elements_singleton. simpl. lia. Qed.

(** From [st] to [st'] a search visits [new], whose types' children are all done
    afterwards, and which it reaches from [roots]; [extra] errors are counted
    beside those of the new types. *)
Record searched (roots : list nat) (extra : Z) (st st' : lab) (new : gset nat) : Prop := {
  s_checked : checked st' = checked st ∪ new;
  s_disjoint : new ## checked st;
  s_roots t : t ∈ roots -> t ∈ checked st';
  s_closed s t : s ∈ new -> contains s t -> t ∈ checked st';
  s_reach s : s ∈ new -> exists r, r ∈ roots /\ rtc contains r s;
  s_count : errorCount st' = errorCount st + extra + total new
}.

Lemma searched_nil st : searched [] 0 st st ∅.
Proof.
  split; try set_solver. rewrite total_empty. lia.
Qed.

Lemma searched_app r1 r2 e1 e2 st st1 st2 n1 n2 :
  searched r1 e1 st st1 n1 -> searched r2 e2 st1 st2 n2 -> searched (r1 ++ r2) (e1 + e2) st st2 (n1 ∪ n2).
Proof.
  intros H1 H2. pose proof (s_checked _ _ _ _ _ H1) as C1. pose proof (s_checked _ _ _ _ _ H2) as C2.
  pose proof (s_disjoint _ _ _ _ _ H1). pose proof (s_disjoint _ _ _ _ _ H2). split.
  - set_solver.
  - set_solver.
  - intros t [Ht|Ht]%elem_of_app; [apply (s_roots _ _ _ _ _ H1) in Ht|apply (s_roots _ _ _ _ _ H2) in Ht]; set_solver.
  - intros s t [Hs|Hs]%elem_of_union Hc; [apply (s_closed _ _ _ _ _ H1 s t Hs) in Hc|apply (s_closed _ _ _ _ _ H2 s t Hs) in Hc]; set_solver.
  - intros s [Hs|Hs]%elem_of_union; [destruct (s_reach _ _ _ _ _ H1 s Hs) as (r & ? & ?)|destruct (s_reach _ _ _ _ _ H2 s Hs) as (r & ? & ?)];
      exists r; (split; [apply elem_of_app; tauto|done]).
  - rewrite (s_count _ _ _ _ _ H2), (s_count _ _ _ _ _ H1), total_union by set_solver. lia.
Qed.

(** A type that was not looked at before, once its children have been. *)
Lemma searched_mark t st st' new : t ∉ checked st ->
  searched (children t) (bad_fields t) (mark t st) st' new -> searched [t] 0 st st' ({[t]} ∪ new).
Proof.
  intros Ht H. pose proof (s_checked _ _ _ _ _ H) as C. pose proof (s_disjoint _ _ _ _ _ H) as Hd. simpl in *. split.
  - set_solver.
  - set_solver.
  - intros s ->%list_elem_of_singleton. set_solver.
  - intros s u [->%elem_of_singleton|Hs]%elem_of_union Hc; [by apply (s_roots _ _ _ _ _ H)|by apply (s_closed _ _ _ _ _ H s u)].
  - intros s [->%elem_of_singleton|Hs]%elem_of_union; exists t; (split; [by left|]); [done|].
    destruct (s_reach _ _ _ _ _ H s Hs) as (r & Hr & Hrs). by eapply rtc_l.
  - rewrite (s_count _ _ _ _ _ H), total_union, total_singleton by set_solver. simpl. lia.
Qed.

Lemma searched_reorder r r' e st st' new : (forall t, t ∈ r <-> t ∈ r') -> searched r e st st' new -> searched r' e st st' new.
Proof. intros Hr []. split; try done; [by intros t; rewrite <- Hr; auto|]. intros s Hs. destruct (s_reach0 s Hs) as (x & ? & ?). exists x. by rewrite <- Hr. Qed.

Lemma searched_extra r e e' st st' new : searched r e st st' new -> e = e' -> searched r e' st st' new.
Proof. by intros H ->. Qed.

Lemma searched_complain name roots e st st' new :
  searched roots e (complain name st) st' new ->
  searched roots ((if isUpper name then 0 else 1) + e) st st' new.
Proof.
  unfold complain. destruct (isUpper name); [by rewrite Z.add_0_l|]. intros []. simpl in *. split; try done. lia.
Qed.

(** All types there are. *)
Context (U : gset nat) (U_closed : forall s t, s ∈ U -> contains s t -> t ∈ U).

Definition todo (st : lab) : nat := size (U ∖ checked st).

Lemma todo_mono st st' : checked st ⊆ checked st' -> (todo st' <= todo st)%nat.
Proof. intros H. unfold todo. apply subseteq_size. set_solver. Qed.

Lemma todo_mark t st : t ∈ U -> t ∉ checked st -> (todo (mark t st) < todo st)%nat.
Proof. intros HU Ht. unfold todo. apply subset_size. simpl. set_solver. Qed.

Definition searches (f : nat -> lab -> option lab) (n : nat) : Prop := forall t st, t ∈ U -> (todo st < n)%nat ->
  exists st' new, f t st = Some st' /\ searched [t] 0 st st' new.

Lemma checkFields_spec f n fs st : searches f n -> (todo st < n)%nat -> (forall t, t ∈ fs.*2 -> t ∈ U) ->
  exists st' new, checkFields f fs st = Some st' /\
    searched fs.*2 (Z.of_nat (length (filter (fun x => isUpper x.1 = false) fs))) st st' new.
Proof.
  intros Hf. revert st. induction fs as [|[name t] fs IH]; intros st Hn HU; simpl.
  { exists st, ∅. split; [done|apply searched_nil]. }
  destruct (Hf t (complain name st)) as (st1 & n1 & -> & H1); [apply HU; by left|unfold complain; by destruct (isUpper name)|].
  apply searched_complain in H1. simpl.
  destruct (IH st1) as (st2 & n2 & -> & H2).
  { eapply Nat.le_lt_trans; [|exact Hn]. apply todo_mono. rewrite (s_checked _ _ _ _ _ H1). set_solver. }
  { intros u Hu. apply HU. by right. }
  exists st2, (n1 ∪ n2). split; [done|]. pose proof (searched_app _ _ _ _ _ _ _ _ _ H1 H2) as H3. simpl in H3.
  eapply searched_extra; [exact H3|]. rewrite filter_cons. simpl. destruct (isUpper name); simpl; lia.
Qed.

Lemma checkType_spec fuel : searches (checkType fuel) fuel.
Proof.
  induction fuel as [|fuel IH]; intros t st HU Hn; [lia|]. simpl. destruct (decide (t ∈ checked st)) as [Hin|Hnot].
  { exists st, ∅. split; [done|]. split; try set_solver. rewrite total_empty. lia. }
  pose proof (todo_mark t st HU Hnot) as Hlt. assert (Hch : forall u, u ∈ children t -> u ∈ U) by (intros u Hu; by apply (U_closed t)).
  enough (exists st' new, (match kindOf t with
    | Struct fs => checkFields (checkType fuel) fs (mark t st)
    | Elem e => checkType fuel e (mark t st)
    | Map k e => st ← checkType fuel e (mark t st); checkType fuel k st
    | Other => Some (mark t st)
    end) = Some st' /\ searched (children t) (bad_fields t) (mark t st) st' new) as (st' & new & -> & H)
    by (by eexists _, _; split; [done|apply searched_mark]).
  unfold children, bad_fields in *. destruct (kindOf t) as [fs|e|k e|]; simpl in *.
  - apply (checkFields_spec _ fuel); [done|lia|done].
  - apply IH; [apply Hch; by left|lia].
  - destruct (IH e (mark t st)) as (st1 & n1 & -> & H1); [apply Hch; right; by left|lia|]. simpl.
    assert (Hm : (todo st1 <= todo (mark t st))%nat) by (apply todo_mono; rewrite (s_checked _ _ _ _ _ H1); set_solver).
    destruct (IH k st1) as (st2 & n2 & -> & H2); [apply Hch; by left|lia|]. exists st2, (n1 ∪ n2). split; [done|].
    eapply searched_reorder; [|by apply (searched_app _ _ _ _ _ _ _ _ _ H1 H2)]. intros u. set_solver.
  - exists (mark t st), ∅. split; [done|apply searched_nil].
Qed.

(** Types looked at earlier have had all they contain looked at. *)
Definition settled (st : lab) : Prop := forall s t, s ∈ checked st -> contains s t -> t ∈ checked st.

Lemma settled_reach st s t : settled st -> s ∈ checked st -> rtc contains s t -> t ∈ checked st.
Proof. intros Hst Hs Hr. induction Hr as [|x y z Hxy _ IH]; [done|]. by apply IH, (Hst x). Qed.

(** The check of a type ends, also when types contain each other, with no more
    nested calls than there are types.  It visits exactly the types that can be
    reached and were not visited before, and complains once about each field of
    each of them that is not exported. *)
Theorem checkType_complete t st : t ∈ U -> settled st ->
  exists st' new, checkType (S (size U)) t st = Some st' /\ settled st' /\
    checked st' = checked st ∪ new /\ new ## checked st /\
    (forall s, s ∈ checked st' <-> s ∈ checked st \/ rtc contains t s) /\
    errorCount st' = errorCount st + total new.
Proof.
  intros HU Hset. destruct (checkType_spec (S (size U)) t st HU) as (st' & new & Hc & H).
  { unfold todo. apply Nat.lt_succ_r, subseteq_size. set_solver. }
  exists st', new. pose proof (s_checked _ _ _ _ _ H) as C.
  assert (Hset' : settled st').
  { intros s u Hs Hu. rewrite C in Hs. apply elem_of_union in Hs as [Hs|Hs]; [rewrite C; apply elem_of_union; left; by eapply Hset|].
    by apply (s_closed _ _ _ _ _ H s u). }
  split_and!; [done|done|done|apply (s_disjoint _ _ _ _ _ H)| |].
  - intros s. split.
    + rewrite C. intros [?|Hs]%elem_of_union; [by left|right]. destruct (s_reach _ _ _ _ _ H s Hs) as (r & Hr & ?).
      by apply list_elem_of_singleton in Hr as ->.
    + intros [Hs|Hs]; [rewrite C; apply elem_of_union; by left|]. eapply settled_reach; [done| |done].
      apply (s_roots _ _ _ _ _ H). by left.
  - rewrite (s_count _ _ _ _ _ H). lia.
Qed.

End types.

(** ** Values *)

(** What [reflect] sees of a value: [VBasic] says whether it is the zero value of
    its type; maps, slices and the like are not looked into.  The names of
    fields are for the message only. *)
Inductive value :=
| VStruct (fields : list value)
| VNil
| VPtr (v : value)
| VBasic (zero : bool)
| VOther.

(** The counter after the check; the warnings themselves are only printed. *)
Fixpoint checkDefault1 (v : value) (depth : nat) (errorCount : Z) : Z :=
  if decide (3 < depth)%nat then errorCount
  else
    match v with
    | VStruct fs => foldl (fun n f => checkDefault1 f (S depth) n) errorCount fs
    | VNil => errorCount
    | VPtr v => checkDefault1 v (S depth) errorCount
    | VBasic zero => if zero then errorCount else errorCount + 1
    | VOther => errorCount
    end.

(** [None] is a nil interface. *)
Definition checkDefault (v : option value) (errorCount : Z) : Z :=
  match v with None => errorCount | Some v => checkDefault1 v 1 errorCount end.

(** A value is found at a depth, below structures and pointers. *)
Inductive found (w : value) : nat -> value -> Prop :=
| found_here d : (d <= 3)%nat -> found w d w
| found_field d fs f : (d <= 3)%nat -> f ∈ fs -> found w (S d) f -> found w d (VStruct fs)
| found_ptr d v : (d <= 3)%nat -> found w (S d) v -> found w d (VPtr v).

Lemma checkDefault1_step fs d n :
  (forall f, f ∈ fs -> forall n, n <= checkDefault1 f d n /\ (n < checkDefault1 f d n <-> found (VBasic false) d f)) ->
  n <= foldl (fun n f => checkDefault1 f d n) n fs /\
  (n < foldl (fun n f => checkDefault1 f d n) n fs <-> exists f, f ∈ fs /\ found (VBasic false) d f).
Proof.
  revert n. induction fs as [|f fs IH]; intros n Hfs; simpl.
  { split; [lia|]. split; [lia|]. by intros (f & ?%elem_of_nil & _). }
  destruct (Hfs f ltac:(by left) n) as [H1 H2]. destruct (IH (checkDefault1 f d n)) as [H3 H4]; [intros g Hg; apply Hfs; by right|].
  split; [lia|]. split.
  - intros Hlt. destruct (decide (n < checkDefault1 f d n)) as [H|H]; [exists f; split; [by left|by apply H2]|].
    destruct (proj1 H4) as (g & Hg & ?); [lia|]. exists g. split; [by right|done].
  - intros (g & [->|Hg]%elem_of_cons & Hf); [apply H2 in Hf; lia|]. assert (checkDefault1 f d n < foldl (fun n f => checkDefault1 f d n) (checkDefault1 f d n) fs) by (apply H4; eauto). lia.
Qed.

(** The check of a value that is decoded into complains exactly when there is
    something to complain about no deeper than three levels: a boolean, number or
    string that is not zero. *)
Theorem checkDefault_exact v n : n < checkDefault (Some v) n <-> found (VBasic false) 1 v.
Proof.
  simpl. generalize 1%nat as d. intros d. revert v d n.
  enough (H : forall k v d n, (4 - d < k)%nat -> n <= checkDefault1 v d n /\ (n < checkDefault1 v d n <-> found (VBasic false) d v))
    by (intros v d n; apply (H 5%nat); lia).
  induction k as [|k IH]; intros v d n Hk; [lia|].
  destruct v as [fs| |v|zero|]; simpl; (destruct (decide (3 < d)%nat) as [Hd|Hd]; [split; [lia|]; split; [lia|inversion 1; lia]|]).
  - destruct (checkDefault1_step fs (S d) n) as [H1 H2]; [intros f _ m; apply IH; lia|]. split; [done|]. rewrite H2. split.
    + intros (f & Hf & H). by eapply found_field; [lia|..].
    + inversion 1; subst. eauto.
  - split; [lia|]. split; [lia|inversion 1].
  - destruct (IH v (S d) n) as [H1 H2]; [lia|]. split; [done|]. rewrite H2. split; [intros; constructor; [lia|done]|by inversion 1].
  - destruct zero; (split; [lia|]); (split; [|inversion 1; lia]); [lia|]. intros _. constructor. lia.
  - split; [lia|]. split; [lia|inversion 1].
Qed.

(** ** Two types that contain each other *)

Module LabgobDemo.

(** 0: a structure with an exported field of type 1 and another of type 2;
    1: pointers to 0; 2: a number. *)
Definition kinds (t : nat) : kind nat :=
  match t with 0%nat => Struct [("Next", 1%nat); ("count", 2%nat)] | 1%nat => Elem 0%nat | _ => Other end.

Definition upper (s : string) : bool := match s with String c _ => Ascii.leb "A"%char c && Ascii.leb c "Z"%char | _ => false end.

Definition types : gset nat := {[0%nat; 1%nat; 2%nat]}.

Lemma types_closed s t : s ∈ types -> contains kinds s t -> t ∈ types.
Proof.
  unfold types. rewrite !elem_of_union, !elem_of_singleton. intros Hs. unfold contains.
  assert (Hk : children kinds s = match s with 0%nat => [1%nat; 2%nat] | 1%nat => [0%nat] | _ => [] end).
  { unfold children, kinds. by destruct s as [|[|s]]. }
  rewrite Hk. destruct Hs as [[->| ->]| ->]; rewrite ?elem_of_cons, ?elem_of_nil; naive_solver.
Qed.

Lemma checkType_complete_witness :
  exists st, checkType upper kinds 4 0 (mkLab ∅ 0) = Some st /\ 2%nat ∈ checked st /\ errorCount st = 1.
Proof.
  assert (Hin : 0%nat ∈ types) by (unfold types; set_solver).
  destruct (checkType_complete upper kinds types types_closed 0 (mkLab ∅ 0) Hin) as (st & new & Hc & _ & Hch & _ & Hr & Hn).
  - intros s t Hs. by apply elem_of_empty in Hs.
  - exists st. assert (Hsz : size types = 3%nat) by (vm_compute; reflexivity). rewrite Hsz in Hc. split; [exact Hc|]. split.
    + apply Hr. right. apply rtc_once. unfold contains. simpl. right. by left.
    + assert (Hv : option_map errorCount (checkType upper kinds 4 0 (mkLab ∅ 0)) = Some 1) by (vm_compute; reflexivity).
      rewrite Hc in Hv. by injection Hv.
Defined.

End LabgobDemo.
