(* ===== verification/Wal.v ===== *)
(** * The persistence contract of Raft

    [raft1/raft.go] (the [LogEntry] type) and [raft1/wal.go] (the [WAL] interface
    and [PersistState]).

    - [WAL] is the Go interface as a type class: the operations of a durable
      log; [None] is a panic of the process.
    - [ps_SaveMeta] ... [ps_SaveSnapshot] say what each operation does to the
      persisted state, without any representation.
    - [LawfulWAL] is what Raft relies on: every implementation tracks that
      abstract state, and [Load] gives it back after a restart.
    - [Journal] is the reference implementation, which keeps every durable
      state it went through, so that a crash can fall between two of them.

    The implementations of the repository are in [PersisterWal] and [FileWal]. *)

From S2P Require Import Prelude.

(** ** Data *)

(** transport.NodeID; the empty string means "nobody". *)
Abbreviation NodeID := string (only parsing).

(** [Command] is an [interface{}] that holds the bytes the RSM submits; the
    sentinel entry leaves it [nil]. *)
Record LogEntry := mkEntry { Command : option (list byte); Term : Z }.

#[export] Instance LogEntry_eq_dec : EqDecision LogEntry.
Proof. solve_decision. Defined.

Definition sentinel (t : Z) : LogEntry := mkEntry None t.

Record PersistState := mkPS {
  ps_Term : Z;
  ps_Vote : NodeID;
  ps_Logs : list LogEntry;
  ps_SnapshotIndex : Z;
  ps_Snapshot : option (list byte)
}.

#[export] Instance PersistState_eq_dec : EqDecision PersistState.
Proof. solve_decision. Defined.

(** The state of a node that has never persisted anything. *)
Definition ps_init : PersistState := mkPS 0 "" [sentinel 0] 0 None.

(** A nil and an empty byte slice are the same bytes; the codecs and the
    persisters do not preserve the difference. *)
#[export] Instance PersistState_equiv : Equiv PersistState := fun s t =>
  ps_Term s = ps_Term t /\ ps_Vote s = ps_Vote t /\ ps_Logs s = ps_Logs t /\
  ps_SnapshotIndex s = ps_SnapshotIndex t /\
  default [] (ps_Snapshot s) = default [] (ps_Snapshot t).

#[export] Instance PersistState_equivalence : Equivalence (≡@{PersistState}).
Proof.
  split.
  - by intros [].
  - intros [] []; unfold equiv, PersistState_equiv; naive_solver.
  - intros [] [] []; unfold equiv, PersistState_equiv; simpl; naive_solver congruence.
Qed.

(** ** What the operations mean *)

Definition ps_SaveMeta (st : PersistState) (term : Z) (vote : NodeID) : PersistState :=
  mkPS term vote (ps_Logs st) (ps_SnapshotIndex st) (ps_Snapshot st).

Definition ps_AppendLog (st : PersistState) (entries : list LogEntry) : PersistState :=
  mkPS (ps_Term st) (ps_Vote st) (ps_Logs st ++ entries) (ps_SnapshotIndex st) (ps_Snapshot st).

(** Drops every entry at an absolute index [>= fromIndex]. *)
Definition ps_TruncateSuffix (st : PersistState) (fromIndex : Z) : option PersistState :=
  logs ← gto (ps_Logs st) (fromIndex - ps_SnapshotIndex st);
  Some (mkPS (ps_Term st) (ps_Vote st) logs (ps_SnapshotIndex st) (ps_Snapshot st)).

Definition ps_SaveSnapshot (st : PersistState) (snapshotIndex sentinelTerm : Z)
    (snapshot : option (list byte)) (suffix : list LogEntry) : PersistState :=
  mkPS (ps_Term st) (ps_Vote st) (sentinel sentinelTerm :: suffix) snapshotIndex snapshot.

#[export] Instance ps_SaveMeta_proper :
  Proper ((≡) ==> (=) ==> (=) ==> (≡)) ps_SaveMeta.
Proof. intros ?? (?&?&?&?&?) ?? -> ?? ->. by repeat split. Qed.

#[export] Instance ps_AppendLog_proper : Proper ((≡) ==> (=) ==> (≡)) ps_AppendLog.
Proof.
  intros ?? (?&?&?&?&?) ?? ->. repeat split; simpl; congruence.
Qed.

#[export] Instance ps_SaveSnapshot_proper :
  Proper ((≡) ==> (=) ==> (=) ==> (=) ==> (=) ==> (≡)) ps_SaveSnapshot.
Proof. intros ?? (?&?&?&?&?) ?? -> ?? -> ?? -> ?? ->. by repeat split. Qed.

(** ** The interface *)

Class WAL (W : Type) := {
  SaveMeta : W -> Z -> NodeID -> option W;
  AppendLog : W -> list LogEntry -> option W;
  TruncateSuffix : W -> Z -> option W;
  SaveSnapshot : W -> Z -> Z -> option (list byte) -> list LogEntry -> option W;
  Load : W -> option (PersistState * bool);
  Size : W -> Z
}.

(** The state [MakeWithWAL] builds from what [Load] returns: with [ok = false]
    the node is new and only the snapshot is taken over. *)
Definition recovered (st : PersistState) (ok : bool) : PersistState :=
  if ok then st else mkPS 0 "" [sentinel 0] 0 (ps_Snapshot st).

(** [wal_fits] delimits the states an implementation can represent (the record
    framing of the file WAL stores lengths in 32 bits). *)
Class LawfulWAL (W : Type) `{WAL W} := {
  wal_holds : W -> PersistState -> Prop;
  wal_fits : PersistState -> Prop;
  wal_SaveMeta w st term vote :
    wal_holds w st -> wal_fits (ps_SaveMeta st term vote) ->
    exists w', SaveMeta w term vote = Some w' /\ wal_holds w' (ps_SaveMeta st term vote);
  wal_AppendLog w st es :
    wal_holds w st -> wal_fits (ps_AppendLog st es) ->
    exists w', AppendLog w es = Some w' /\ wal_holds w' (ps_AppendLog st es);
  wal_TruncateSuffix w st st' k :
    wal_holds w st -> ps_TruncateSuffix st k = Some st' -> wal_fits st' ->
    exists w', TruncateSuffix w k = Some w' /\ wal_holds w' st';
  wal_SaveSnapshot w st i t snap suffix :
    wal_holds w st -> wal_fits (ps_SaveSnapshot st i t snap suffix) ->
    exists w', SaveSnapshot w i t snap suffix = Some w' /\
      wal_holds w' (ps_SaveSnapshot st i t snap suffix);
  (* what a restart of the process builds on the same disk *)
  reopen : W -> option W;
  wal_reopen w st :
    wal_holds w st -> exists w' st' ok, reopen w = Some w' /\ wal_holds w' st /\
      Load w' = Some (st', ok) /\ recovered st' ok ≡ st
}.

(** ** The reference implementation: a journal of durable states

    Newest first; the empty journal is a fresh disk.  [AppendLog] makes its
    entries durable one at a time, the way [FileWAL.AppendLog] does. *)

Definition Journal : Type := list PersistState.

Definition jcur (j : Journal) : PersistState := default ps_init (head j).

Fixpoint jAppend (j : Journal) (es : list LogEntry) : Journal :=
  match es with
  | [] => j
  | e :: es => jAppend (ps_AppendLog (jcur j) [e] :: j) es
  end.

#[export] Instance Journal_WAL : WAL Journal := {
  SaveMeta j term vote := Some (ps_SaveMeta (jcur j) term vote :: j);
  AppendLog j es := Some (jAppend j es);
  TruncateSuffix j k := st ← ps_TruncateSuffix (jcur j) k; Some (st :: j);
  SaveSnapshot j i t snap suffix := Some (ps_SaveSnapshot (jcur j) i t snap suffix :: j);
  Load j := Some (jcur j, bool_decide (j <> []));
  Size j := zlen (ps_Logs (jcur j))
}.

Lemma ps_AppendLog_nil st : ps_AppendLog st [] = st.
Proof. destruct st; unfold ps_AppendLog; simpl; by rewrite app_nil_r. Qed.

Lemma ps_AppendLog_app st es1 es2 :
  ps_AppendLog (ps_AppendLog st es1) es2 = ps_AppendLog st (es1 ++ es2).
Proof. unfold ps_AppendLog; simpl; by rewrite app_assoc. Qed.

Lemma jcur_cons st j : jcur (st :: j) = st.
Proof. done. Qed.

Lemma jcur_jAppend j es : jcur (jAppend j es) = ps_AppendLog (jcur j) es.
Proof.
  revert j; induction es as [|e es IH]; intros j; simpl.
  - by rewrite ps_AppendLog_nil.
  - by rewrite IH, jcur_cons, ps_AppendLog_app.
Qed.

(** The states a multi-entry append goes through: the appended prefixes. *)
Lemma jAppend_states j es st :
  st ∈ jAppend j es <->
  st ∈ j \/ exists n, (0 < n <= length es)%nat /\ st = ps_AppendLog (jcur j) (take n es).
Proof.
  revert j; induction es as [|e es IH]; intros j; simpl.
  - split; [auto|]. intros [|(n & Hn & _)]; [done|lia].
  - rewrite IH, elem_of_cons, jcur_cons. split.
    + intros [[->|?]|(n & Hn & ->)]; [right|auto|right].
      * exists 1%nat. split; [lia|]. by destruct es.
      * exists (S n). split; [lia|]. by rewrite ps_AppendLog_app.
    + intros [?|(n & Hn & ->)]; [auto|].
      destruct n as [|[|n]]; [lia|left; left|right].
      * simpl. by destruct es.
      * exists (S n). split; [lia|]. by rewrite ps_AppendLog_app.
Qed.

#[export] Program Instance Journal_Lawful : LawfulWAL Journal := {
  wal_holds j st := jcur j = st;
  wal_fits _ := True;
  reopen j := Some j
}.
Next Obligation. intros j st term vote <- _. by eexists. Qed.
Next Obligation. intros j st es <- _. eexists; split; [done|]. apply jcur_jAppend. Qed.
Next Obligation. intros j st st' k <- H _. simpl. rewrite H. by eexists. Qed.
Next Obligation. intros j st i t snap suffix <- _. by eexists. Qed.
Next Obligation.
  intros j st <-. eexists _, _, _; split; [done|]. split; [done|]. split; [done|].
  destruct j; by rewrite ?bool_decide_eq_true_2, ?bool_decide_eq_false_2 by auto.
Qed.

(** ** Histories

    The operations Raft performs, as data: what a history does to the abstract
    state and to an implementation. *)

Inductive wal_op :=
| OSaveMeta (term : Z) (vote : NodeID)
| OAppend (entries : list LogEntry)
| OTruncate (fromIndex : Z)
| OSnapshot (index sentinelTerm : Z) (snap : option (list byte)) (suffix : list LogEntry).

Definition ps_op (st : PersistState) (o : wal_op) : option PersistState :=
  match o with
  | OSaveMeta t v => Some (ps_SaveMeta st t v)
  | OAppend es => Some (ps_AppendLog st es)
  | OTruncate k => ps_TruncateSuffix st k
  | OSnapshot i t snap suffix => Some (ps_SaveSnapshot st i t snap suffix)
  end.

Section histories.
Context {W : Type} `{LawfulWAL W}.

Definition run_op (w : W) (o : wal_op) : option W :=
  match o with
  | OSaveMeta t v => SaveMeta w t v
  | OAppend es => AppendLog w es
  | OTruncate k => TruncateSuffix w k
  | OSnapshot i t snap suffix => SaveSnapshot w i t snap suffix
  end.

Fixpoint run_ops (w : W) (os : list wal_op) : option W :=
  match os with
  | [] => Some w
  | o :: os => w ← run_op w o; run_ops w os
  end.

(** The history is possible, and every state on the way fits. *)
Fixpoint ps_ops (st : PersistState) (os : list wal_op) (st' : PersistState) : Prop :=
  match os with
  | [] => st = st'
  | o :: os => exists st1, ps_op st o = Some st1 /\ wal_fits st1 /\ ps_ops st1 os st'
  end.

Lemma run_op_holds w st o st1 :
  wal_holds w st -> ps_op st o = Some st1 -> wal_fits st1 ->
  exists w1, run_op w o = Some w1 /\ wal_holds w1 st1.
Proof.
  intros Hw Ho Hf. destruct o; simplify_eq/=.
  - by apply wal_SaveMeta.
  - by apply wal_AppendLog.
  - by eapply wal_TruncateSuffix.
  - by apply wal_SaveSnapshot.
Qed.

Lemma run_ops_holds w st os st' :
  wal_holds w st -> ps_ops st os st' -> exists w', run_ops w os = Some w' /\ wal_holds w' st'.
Proof.
  revert w st. induction os as [|o os IH]; intros w st Hw Hos; simpl in *; [subst; eauto|].
  destruct Hos as (st1 & Ho & Hf & Hos). destruct (run_op_holds w st o st1 Hw Ho Hf) as (w1 & -> & Hw1).
  by apply (IH w1 st1).
Qed.

Lemma history_recovers w st os st' :
  wal_holds w st -> ps_ops st os st' ->
  exists w1 w2 st2 ok, run_ops w os = Some w1 /\ reopen w1 = Some w2 /\
    Load w2 = Some (st2, ok) /\ recovered st2 ok ≡ st'.
Proof.
  intros Hw Hos. destruct (run_ops_holds w st os st' Hw Hos) as (w1 & H1 & Hw1).
  destruct (wal_reopen w1 st' Hw1) as (w2 & st2 & ok & H2 & _ & H3 & H4). eauto 10.
Qed.

End histories.
