(* ===== verification/PersisterWal.v ===== *)
(** * The WAL over a whole-blob persister

    - [persist/persist.go]: the [Persister] interface, as a class with its laws;
    - [raft1/wal.go]: the raftstate blob ([encodeRaftState], [decodeRaftState])
      and the [persisterWAL] adapter, shown to be a [LawfulWAL] over any lawful
      persister;
    - [tester1/persister.go]: the in-memory persister of the test harness;
    - [persist/file.go]: [FilePersister], its bundle format, and its crash
      safety on a file system with injected faults. *)

From S2P Require Import Prelude Record Fs Gob Wal.

(** ** The interface

    A [[]byte] result that is only measured or decoded is a list; the snapshot
    keeps the difference between nil and empty. [None] is a panic. *)

Class Persister (P : Type) := {
  Save : P -> list byte -> option (list byte) -> option P;
  ReadRaftState : P -> list byte;
  ReadSnapshot : P -> option (list byte);
  RaftStateSize : P -> Z
}.

(** [p_holds p rs snap]: what was saved last; [p_reopen] is a restart of the
    process on the same storage. *)
Class LawfulPersister (P : Type) `{Persister P} := {
  p_holds : P -> list byte -> list byte -> Prop;
  p_fits : list byte -> list byte -> Prop;
  p_reopen : P -> option P;
  p_Save p rs0 snap0 rs snap :
    p_holds p rs0 snap0 -> p_fits rs (default [] snap) ->
    exists p', Save p rs snap = Some p' /\ p_holds p' rs (default [] snap);
  p_ReadRaftState p rs snap : p_holds p rs snap -> ReadRaftState p = rs;
  p_ReadSnapshot p rs snap : p_holds p rs snap -> default [] (ReadSnapshot p) = snap;
  p_RaftStateSize p rs snap : p_holds p rs snap -> RaftStateSize p = zlen rs;
  p_reopens p rs snap : p_holds p rs snap -> exists p', p_reopen p = Some p' /\ p_holds p' rs snap
}.

(** ** The raftstate blob *)

Section blob.
Context `{!Gob Z} `{!Gob string} `{!Gob (list LogEntry)}.

Definition encodeRaftState (term : Z) (logs : list LogEntry) (vote : NodeID) (snapshotIndex : Z)
    : list byte :=
  gob_enc term ++ gob_enc logs ++ gob_enc vote ++ gob_enc snapshotIndex.

(** The outer [option] is [log.Fatalf], the inner one is [ok]. *)
Definition decodeRaftState (data : list byte)
    : option (option (Z * list LogEntry * NodeID * Z)) :=
  if decide (zlen data < 1) then Some None
  else
    '(term, data) ← gob_dec data;
    '(logs, data) ← gob_dec data;
    '(vote, data) ← gob_dec data;
    '(snapshotIndex, _) ← gob_dec data;
    Some (Some (term, logs, vote, snapshotIndex)).

Lemma encodeRaftState_nonempty term logs vote si : 0 < zlen (encodeRaftState term logs vote si).
Proof.
  unfold encodeRaftState. rewrite zlen_app.
  destruct (gob_enc term) as [|b l] eqn:E; [by apply gob_nonempty in E|].
  rewrite zlen_cons. pose proof (zlen_nonneg l).
  pose proof (zlen_nonneg (gob_enc logs ++ gob_enc vote ++ gob_enc si)). lia.
Qed.

Lemma decode_encode_state term logs vote si :
  decodeRaftState (encodeRaftState term logs vote si) = Some (Some (term, logs, vote, si)).
Proof.
  unfold decodeRaftState. rewrite decide_False by (pose proof (encodeRaftState_nonempty term logs vote si); lia).
  unfold encodeRaftState. rewrite gob_stream. simpl. rewrite gob_stream. simpl. rewrite gob_stream. simpl.
  rewrite <- (app_nil_r (gob_enc si)). by rewrite gob_stream.
Qed.

(** ** The adapter *)

Context {P : Type} `{!Persister P}.

Record persisterWAL := mkPW {
  pw_p : P;
  pw_term : Z;
  pw_vote : NodeID;
  pw_logs : list LogEntry;
  pw_snapshotIndex : Z;
  pw_snapshot : option (list byte)
}.

Definition newPersisterWAL (p : P) : option persisterWAL :=
  r ← decodeRaftState (ReadRaftState p);
  Some (match r with
        | Some (term, logs, vote, si) => mkPW p term vote logs si (ReadSnapshot p)
        | None => mkPW p 0 "" [sentinel 0] 0 (ReadSnapshot p)
        end).

Definition flush (w : persisterWAL) : option persisterWAL :=
  p ← Save (pw_p w) (encodeRaftState (pw_term w) (pw_logs w) (pw_vote w) (pw_snapshotIndex w))
        (pw_snapshot w);
  Some (mkPW p (pw_term w) (pw_vote w) (pw_logs w) (pw_snapshotIndex w) (pw_snapshot w)).

Definition pw_SaveMeta (w : persisterWAL) (term : Z) (vote : NodeID) : option persisterWAL :=
  flush (mkPW (pw_p w) term vote (pw_logs w) (pw_snapshotIndex w) (pw_snapshot w)).

Definition pw_AppendLog (w : persisterWAL) (entries : list LogEntry) : option persisterWAL :=
  flush (mkPW (pw_p w) (pw_term w) (pw_vote w) (pw_logs w ++ entries) (pw_snapshotIndex w)
           (pw_snapshot w)).

Definition pw_TruncateSuffix (w : persisterWAL) (fromIndex : Z) : option persisterWAL :=
  logs ← gto (pw_logs w) (fromIndex - pw_snapshotIndex w);
  flush (mkPW (pw_p w) (pw_term w) (pw_vote w) logs (pw_snapshotIndex w) (pw_snapshot w)).

Definition pw_SaveSnapshot (w : persisterWAL) (snapshotIndex sentinelTerm : Z)
    (snapshot : option (list byte)) (suffix : list LogEntry) : option persisterWAL :=
  flush (mkPW (pw_p w) (pw_term w) (pw_vote w) (sentinel sentinelTerm :: suffix) snapshotIndex snapshot).

Definition pw_Load (w : persisterWAL) : option (PersistState * bool) :=
  r ← decodeRaftState (ReadRaftState (pw_p w));
  let snap := ReadSnapshot (pw_p w) in
  Some (match r with
        | Some (term, logs, vote, si) => (mkPS term vote logs si snap, true)
        | None => (mkPS 0 "" [] 0 snap, false)
        end).

#[export] Instance persisterWAL_WAL : WAL persisterWAL := {
  SaveMeta := pw_SaveMeta;
  AppendLog := pw_AppendLog;
  TruncateSuffix := pw_TruncateSuffix;
  SaveSnapshot := pw_SaveSnapshot;
  Load := pw_Load;
  Size w := RaftStateSize (pw_p w)
}.

(** ** The adapter is lawful *)

Context `{!LawfulPersister P}.

Definition blob (st : PersistState) : list byte :=
  encodeRaftState (ps_Term st) (ps_Logs st) (ps_Vote st) (ps_SnapshotIndex st).

Definition memory (w : persisterWAL) : PersistState :=
  mkPS (pw_term w) (pw_vote w) (pw_logs w) (pw_snapshotIndex w) (pw_snapshot w).

(** The model in memory is the state; the persister holds its encoding, or
    nothing yet and the state is the initial one. *)
Definition pw_holds (w : persisterWAL) (st : PersistState) : Prop :=
  memory w ≡ st /\
  (p_holds (pw_p w) (blob st) (default [] (ps_Snapshot st)) \/
   p_holds (pw_p w) [] (default [] (ps_Snapshot st)) /\ st ≡ mkPS 0 "" [sentinel 0] 0 (ps_Snapshot st)).

Definition pw_fits (st : PersistState) : Prop := p_fits (blob st) (default [] (ps_Snapshot st)).

Lemma flush_holds w st st' :
  pw_holds w st -> forall w1, pw_p w1 = pw_p w -> memory w1 ≡ st' -> pw_fits st' ->
  exists w', flush w1 = Some w' /\ pw_holds w' st'.
Proof.
  intros [_ Hp] w1 Hpw Hm Hf. unfold flush, pw_fits, blob in *.
  destruct Hm as (H1 & H2 & H3 & H4 & H5). simpl in *.
  assert (Hsave : exists p', Save (pw_p w1) (encodeRaftState (pw_term w1) (pw_logs w1) (pw_vote w1)
      (pw_snapshotIndex w1)) (pw_snapshot w1) = Some p' /\
    p_holds p' (blob st') (default [] (ps_Snapshot st'))).
  { rewrite H1, H2, H3, H4, Hpw. rewrite <- H5.
    destruct Hp as [Hp|[Hp _]]; (eapply p_Save; [exact Hp|]; by rewrite H5). }
  destruct Hsave as (p' & -> & Hp'). simpl. eexists. split; [done|]. split; [by repeat split|].
  left. done.
Qed.

Lemma pw_reopen_holds w st :
  pw_holds w st -> exists w' st' ok, (p ← p_reopen (pw_p w); newPersisterWAL p) = Some w' /\
    pw_holds w' st /\ pw_Load w' = Some (st', ok) /\ recovered st' ok ≡ st.
Proof.
  intros [Hm Hp]. unfold newPersisterWAL, pw_Load.
  destruct Hp as [Hp|[Hp Hi]]; destruct (p_reopens _ _ _ Hp) as (p' & -> & Hp'); simpl;
    rewrite (p_ReadRaftState _ _ _ Hp'); pose proof (p_ReadSnapshot _ _ _ Hp') as Hs.
  - unfold blob. rewrite decode_encode_state. simpl. eexists _, _, _. split; [done|].
    cbn [pw_p]. rewrite (p_ReadRaftState _ _ _ Hp'). unfold blob. rewrite decode_encode_state. simpl.
    split; [|split; [done|by repeat split]]. split; [by repeat split|]. by left.
  - assert (Hd : decodeRaftState [] = Some None) by done. rewrite Hd. simpl.
    eexists _, _, _. split; [done|]. cbn [pw_p]. rewrite (p_ReadRaftState _ _ _ Hp'), Hd. simpl.
    assert (Heq : mkPS 0 "" [sentinel 0] 0 (ReadSnapshot p') ≡ st).
    { rewrite Hi. by repeat split. }
    split; [|split; [done|exact Heq]]. split; [exact Heq|]. right. done.
Qed.

#[export] Program Instance persisterWAL_Lawful : LawfulWAL persisterWAL := {
  wal_holds := pw_holds;
  wal_fits := pw_fits;
  reopen w := p ← p_reopen (pw_p w); newPersisterWAL p
}.
Next Obligation.
  intros w st term vote H Hf. eapply (flush_holds w st _ H); [done| |done].
  destruct H as [(H1&H2&H3&H4&H5) _]. by repeat split.
Qed.
Next Obligation.
  intros w st es H Hf. eapply (flush_holds w st _ H); [done| |done].
  destruct H as [(H1&H2&H3&H4&H5) _]. repeat split; auto. simpl in *. by rewrite H3.
Qed.
Next Obligation.
  intros w st st' k H Ht Hf. simpl. unfold pw_TruncateSuffix. pose proof H as [(H1&H2&H3&H4&H5) _].
  simpl in *. unfold ps_TruncateSuffix in Ht. rewrite H3, H4.
  destruct (gto (ps_Logs st) (k - ps_SnapshotIndex st)) as [logs|]; [|done]. simplify_eq/=.
  eapply (flush_holds w st _ H); [done| |done]. by repeat split.
Qed.
Next Obligation.
  intros w st i t snap suffix H Hf. eapply (flush_holds w st _ H); [done| |done].
  destruct H as [(H1&H2&H3&H4&H5) _]. by repeat split.
Qed.
Next Obligation. intros w st H. by apply pw_reopen_holds. Qed.

(** A history written through the adapter is read back.  Over any lawful
    persister, after any sequence of writes the contract allows, rebuilding the
    adapter from the persister loads exactly the state those writes built. *)
Theorem persisterwal_history w st os st' :
  pw_holds w st -> ps_ops (W := persisterWAL) st os st' ->
  exists w1 w2 st2 ok, run_ops w os = Some w1 /\ (p ← p_reopen (pw_p w1); newPersisterWAL p) = Some w2 /\
    pw_Load w2 = Some (st2, ok) /\ recovered st2 ok ≡ st'.
Proof.
  intros Hw Hos. pose proof (history_recovers w st os st') as Hh. exact (Hh Hw Hos).
Qed.

End blob.

(** ** The in-memory persister of the test harness *)

Module Tester.

Record Persister := MakePersister { raftstate : list byte; snapshot : list byte }.

(** [MakePersister]: two nil slices. *)
Definition empty : Persister := MakePersister [] [].

Definition Checkpoint (ps : Persister) : Persister := MakePersister (raftstate ps) (snapshot ps).

Definition SnapshotSize (ps : Persister) : Z := zlen (snapshot ps).

(** Its [clone] makes a slice also of nil. *)
#[export] Instance Tester_Persister : PersisterWal.Persister Persister := {
  Save ps rs snap := Some (MakePersister rs (default [] snap));
  ReadRaftState := raftstate;
  ReadSnapshot ps := Some (snapshot ps);
  RaftStateSize ps := zlen (raftstate ps)
}.

(** A restart goes through [Checkpoint]. *)
#[export] Program Instance Tester_Lawful : LawfulPersister Persister := {
  p_holds ps rs snap := raftstate ps = rs /\ snapshot ps = snap;
  p_fits _ _ := True;
  p_reopen ps := Some (Checkpoint ps)
}.
Next Obligation. intros ps rs0 snap0 rs snap _ _. by eexists. Qed.
Next Obligation. by intros ps rs snap [<- _]. Qed.
Next Obligation. by intros ps rs snap [_ <-]. Qed.
Next Obligation. by intros ps rs snap [<- _]. Qed.
Next Obligation. intros ps rs snap [<- <-]. by eexists. Qed.

End Tester.

(** ** The bundle file *)

Definition encodeBundle (raftstate snapshot : list byte) : list byte :=
  put_u32 (zlen raftstate) ++ raftstate ++ put_u32 (zlen snapshot) ++ snapshot.

(** [None] is an error; [uint32(len(data))] wraps. *)
Definition decodeBundle (data : list byte) : option (list byte * list byte) :=
  if decide (zlen data < 4) then None
  else
    n ← get_u32 data;
    let data := drop 4 data in
    if decide (zlen data mod 2 ^ 32 < n) then None
    else
      raftstate ← gto data n;
      data ← gfrom data n;
      if decide (zlen data < 4) then None
      else
        m ← get_u32 data;
        let data := drop 4 data in
        if decide (zlen data mod 2 ^ 32 < m) then None
        else
          snapshot ← gto data m;
          Some (raftstate, snapshot).

Definition bundle_fits (rs snap : list byte) : Prop := zlen rs + zlen snap + 4 < 2 ^ 32.

Lemma get_u32_prefix n rest : 0 <= n < 2 ^ 32 -> get_u32 (put_u32 n ++ rest) = Some n.
Proof. intros. rewrite get_put_u32. by rewrite Z.mod_small. Qed.

Lemma bundle_decodes rs snap extra :
  zlen rs + zlen snap + zlen extra + 4 < 2 ^ 32 ->
  decodeBundle (encodeBundle rs snap ++ extra) = Some (rs, snap).
Proof.
  intros Hf. pose proof (zlen_nonneg rs). pose proof (zlen_nonneg snap). pose proof (zlen_nonneg extra).
  unfold decodeBundle, encodeBundle. rewrite <- !app_assoc.
  rewrite decide_False by (rewrite zlen_app; unfold zlen at 1; rewrite length_put_u32;
    pose proof (zlen_nonneg (rs ++ put_u32 (zlen snap) ++ snap ++ extra)); lia).
  rewrite get_u32_prefix by lia. cbn [mbind option_bind].
  assert (Hl4 : forall z, zlen (put_u32 z) = 4) by done.
  change (drop 4 (put_u32 (zlen rs) ++ rs ++ put_u32 (zlen snap) ++ snap ++ extra))
    with (rs ++ put_u32 (zlen snap) ++ snap ++ extra).
  rewrite !zlen_app, Hl4. rewrite Z.mod_small by lia. rewrite decide_False by lia.
  rewrite gto_Some, gfrom_Some by (rewrite !zlen_app, Hl4; lia). cbn [mbind option_bind].
  rewrite !zlen_to_nat, take_app_length, drop_app_length.
  rewrite decide_False by (rewrite !zlen_app, Hl4; lia).
  rewrite get_u32_prefix by lia. cbn [mbind option_bind].
  change (drop 4 (put_u32 (zlen snap) ++ snap ++ extra)) with (snap ++ extra).
  rewrite zlen_app, Z.mod_small by lia. rewrite decide_False by lia.
  rewrite gto_Some by (rewrite zlen_app; lia). cbn [mbind option_bind].
  by rewrite zlen_to_nat, take_app_length.
Qed.

Lemma get_u32_split data n :
  get_u32 data = Some n -> 0 <= n < 2 ^ 32 /\ data = put_u32 n ++ drop 4 data.
Proof. intros [Hn Hp]%get_u32_inv. split; [done|]. by rewrite Hp, take_drop. Qed.

Lemma zlen_encodeBundle rs snap : zlen (encodeBundle rs snap) = zlen rs + zlen snap + 8.
Proof. unfold encodeBundle, zlen. rewrite !length_app, !length_put_u32. lia. Qed.

(** What is accepted starts with a whole bundle. *)
Lemma bundle_decodes_only data rs snap :
  zlen data < 2 ^ 32 + 4 -> decodeBundle data = Some (rs, snap) ->
  exists extra, data = encodeBundle rs snap ++ extra.
Proof.
  intros Hlen. unfold decodeBundle. dcase; [done|].
  destruct (get_u32 data) as [z|] eqn:En; [|done]. apply get_u32_split in En as [Hz Hd].
  cbn [mbind option_bind]. set (d1 := drop 4 data) in *.
  assert (Hl1 : zlen data = 4 + zlen d1) by (rewrite Hd, zlen_app; done).
  pose proof (zlen_nonneg d1). rewrite Z.mod_small by lia. dcase; [done|].
  rewrite gto_Some, gfrom_Some by lia. cbn [mbind option_bind].
  set (d2 := drop (Z.to_nat z) d1). dcase; [done|].
  destruct (get_u32 d2) as [w|] eqn:Em; [|done]. apply get_u32_split in Em as [Hw Hd2].
  cbn [mbind option_bind]. set (d3 := drop 4 d2) in *.
  assert (Hl2 : zlen d1 = z + zlen d2) by (unfold d2; zlen_lia).
  assert (Hl3 : zlen d2 = 4 + zlen d3) by (rewrite Hd2, zlen_app; done).
  pose proof (zlen_nonneg d3). rewrite Z.mod_small by lia. dcase; [done|].
  rewrite gto_Some by lia. cbn [mbind option_bind]. intros [= <- <-].
  exists (drop (Z.to_nat w) d3). unfold encodeBundle.
  assert (zlen (take (Z.to_nat z) d1) = z) as -> by zlen_lia.
  assert (zlen (take (Z.to_nat w) d3) = w) as -> by zlen_lia.
  rewrite <- !app_assoc, take_drop, <- Hd2. unfold d2. by rewrite take_drop.
Qed.

(** C34: the bundle round-trips and cut bundles are rejected.  As long as the
    32-bit lengths do not wrap, decoding what [encodeBundle] wrote gives back
    the raft state and the snapshot, bytes after the bundle being ignored;
    every proper prefix of what it wrote is an error; and data that is accepted
    starts with the encoding of what was decoded. *)
Theorem bundle_roundtrip rs snap extra :
  zlen rs + zlen snap + zlen extra + 4 < 2 ^ 32 ->
  decodeBundle (encodeBundle rs snap ++ extra) = Some (rs, snap) /\
  (forall k, (k < length (encodeBundle rs snap))%nat ->
     decodeBundle (take k (encodeBundle rs snap)) = None) /\
  (forall data rs' snap', zlen data < 2 ^ 32 + 4 -> decodeBundle data = Some (rs', snap') ->
     encodeBundle rs' snap' `prefix_of` data).
Proof.
  intros Hf. pose proof (zlen_nonneg rs). pose proof (zlen_nonneg snap).
  pose proof (zlen_nonneg extra). split_and!.
  - apply bundle_decodes. lia.
  - intros k Hk. destruct (decodeBundle _) as [[rs' snap']|] eqn:E; [|done]. exfalso.
    pose proof (zlen_encodeBundle rs snap).
    apply bundle_decodes_only in E as [e He]; [|zlen_lia].
    assert (Hk' : (length (encodeBundle rs' snap') + length e = k)%nat).
    { rewrite <- length_app, <- He, length_take. lia. }
    pose proof (bundle_decodes rs snap [] ltac:(unfold zlen in *; simpl; lia)) as Hd.
    rewrite app_nil_r, <- (take_drop k (encodeBundle rs snap)), He, <- app_assoc in Hd.
    rewrite bundle_decodes in Hd; [simplify_eq; lia|].
    pose proof (zlen_encodeBundle rs' snap'). zlen_lia.
  - intros data rs' snap' Hd E. apply bundle_decodes_only in E as [e ->]; [|done].
    by apply prefix_app_r.
Qed.

Lemma bundle_roundtrip_witness :
  decodeBundle (encodeBundle [Byte.x01; Byte.x00] [] ++ [Byte.xff]) = Some ([Byte.x01; Byte.x00], []) /\
  decodeBundle (take 9 (encodeBundle [Byte.x01; Byte.x00] [])) = None.
Proof.
  split; apply (bundle_roundtrip [Byte.x01; Byte.x00] [] [Byte.xff]);
    first [reflexivity | simpl; lia].
Defined.

(** ** FilePersister *)

Section file_persister.
(* [os.CreateTemp] picks the name of the temporary file *)
Context (tempName : MemFS -> string) (dir : string).

Definition statePath : string := (dir +:+ "/state.bin")%string.

Context (tempName_ne : forall m, tempName m <> statePath).

Definition deferred {A B} (x : fsM A) (cleanup : fsM B) : fsM A := fun m =>
  let '(m', r) := x m in (fst (cleanup m'), r).

(** The directory sync is best effort; the temporary file is removed last. *)
Definition atomicWrite (path : string) (data : list byte) : fsM unit := fun m =>
  let tmp := tempName m in
  deferred (_ ← writeSwap tmp path data; bestEffort (SyncDir dir)) (Remove tmp) m.

Record FilePersister := mkFP {
  fp_fs : MemFS; fp_raftstate : list byte; fp_snapshot : list byte
}.

(** [load]: no file is the empty state; [None] is an error. *)
Definition fp_load (m : MemFS) : option (list byte * list byte) :=
  match files m !! statePath with
  | None => Some ([], [])
  | Some data => decodeBundle data
  end.

Definition OpenFilePersister (m : MemFS) : option FilePersister :=
  '(rs, snap) ← fp_load m; Some (mkFP m rs snap).

Definition fp_Save (p : FilePersister) (rs : list byte) (snap : option (list byte))
    : option FilePersister :=
  match atomicWrite statePath (encodeBundle rs (default [] snap)) (fp_fs p) with
  | (m, inr _) => Some (mkFP m rs (default [] snap))
  | (_, inl _) => None
  end.

#[export] Instance FilePersister_Persister : Persister FilePersister := {
  Save := fp_Save;
  ReadRaftState := fp_raftstate;
  ReadSnapshot p := nilable (fp_snapshot p);
  RaftStateSize p := zlen (fp_raftstate p)
}.

(** The file holds the pair, or does not exist and the pair is empty. *)
Definition disk_holds (m : MemFS) (rs snap : list byte) : Prop :=
  crashed m = false /\
  (files m !! statePath = None /\ rs = [] /\ snap = [] \/
   files m !! statePath = Some (encodeBundle rs snap) /\ bundle_fits rs snap).

Lemma fp_load_holds m rs snap : disk_holds m rs snap -> fp_load m = Some (rs, snap).
Proof.
  unfold fp_load. intros [_ [(-> & -> & ->)|[-> Hf]]]; [done|].
  rewrite <- (app_nil_r (encodeBundle rs snap)). apply bundle_decodes.
  unfold bundle_fits in Hf. unfold zlen in *. simpl. lia.
Qed.

Lemma atomicWrite_cases path data m m' r :
  tempName m <> path -> crashed m = false -> atomicWrite path data m = (m', r) ->
  FaultRename m' = FaultRename m /\
  match r with
  | inr _ => files m' !! path = Some data /\ crashed m' = false /\
             (FaultWriteLimit m < 0 -> FaultWriteLimit m' < 0)
  | inl _ => crashed m' = true /\ faulty m /\
      (files m' !! path = files m !! path \/ files m' !! path = Some data)
  end.
Proof.
  intros Hne Hc H. unfold atomicWrite, deferred in H.
  destruct ((_ ← writeSwap (tempName m) path data; bestEffort (SyncDir dir)) m) as [m1 r1] eqn:E.
  apply bind_inv in E as (m2 & r2 & E2 & H2).
  destruct (writeSwap_cases _ _ _ _ _ _ Hne Hc E2) as (Hu & Hf & Hr).
  destruct r2 as [e|[]].
  - destruct H2 as [-> ->], Hr as (-> & Hc2 & Hfa & Hp). unfold Remove, alive in H. rewrite Hc2 in H. by simplify_eq.
  - destruct Hr as (Hp & Hc2 & Hl). unfold bestEffort, SyncDir, alive in H2. rewrite Hc2 in H2. simplify_eq/=.
    unfold Remove, alive in *. rewrite Hc2. simpl. split_and!; auto.
    by rewrite lookup_delete_ne by congruence.
Qed.

#[export] Program Instance FilePersister_Lawful : LawfulPersister FilePersister := {
  p_holds p rs snap := fp_raftstate p = rs /\ fp_snapshot p = snap /\ disk_holds (fp_fs p) rs snap /\
    FaultWriteLimit (fp_fs p) < 0 /\ FaultRename (fp_fs p) = "";
  p_fits := bundle_fits;
  p_reopen p := OpenFilePersister (fp_fs p)
}.
Next Obligation.
  intros p rs0 snap0 rs snap (_ & _ & [Hc _] & Hl & Hf) Hfit. simpl. unfold fp_Save.
  destruct (atomicWrite _ _ _) as [m' r] eqn:E.
  destruct (atomicWrite_cases _ _ _ _ _ (tempName_ne _) Hc E) as [Hf' Hr].
  destruct r as [e|[]].
  - destruct Hr as (_ & [Hx|[Hx|Hx]] & _); [lia|congruence|congruence].
  - destruct Hr as (Hp & Hc' & Hl'). eexists. split; [done|]. simpl. split_and!; auto; [|congruence].
    split; [done|]. right. done.
Qed.
Next Obligation. by intros p rs snap (<- & _). Qed.
Next Obligation. intros p rs snap (_ & <- & _). apply nilable_default. Qed.
Next Obligation. by intros p rs snap (<- & _). Qed.
Next Obligation.
  intros p rs snap (<- & <- & Hd & Hl & Hf). simpl. unfold OpenFilePersister.
  rewrite (fp_load_holds _ _ _ Hd). simpl. eexists. split; [done|]. by split_and!.
Qed.

(** A save is all or nothing.  Saving a raft state and a snapshot under every
    injected fault, then rebooting and reopening the file, gives back the pair
    saved before or the new pair, never a mixture; the new pair whenever the
    save returned. *)
Theorem file_persister_atomic m rs0 snap0 rs snap m' r :
  disk_holds m rs0 snap0 -> bundle_fits rs snap ->
  atomicWrite statePath (encodeBundle rs snap) m = (m', r) ->
  exists p, OpenFilePersister (Reboot m') = Some p /\
    ((fp_raftstate p, fp_snapshot p) = (rs0, snap0) \/ (fp_raftstate p, fp_snapshot p) = (rs, snap)) /\
    (r = inr tt -> (fp_raftstate p, fp_snapshot p) = (rs, snap)).
Proof.
  intros Hd Hfit H.
  destruct (atomicWrite_cases _ _ _ _ _ (tempName_ne _) (proj1 Hd) H) as [_ Hr].
  assert (Hcase : disk_holds (Reboot m') rs0 snap0 /\ r <> inr tt \/ disk_holds (Reboot m') rs snap).
  { destruct r as [e|[]].
    - destruct Hr as (_ & _ & [Hp|Hp]); [left|right].
      + split; [|done]. split; [done|]. simpl. rewrite Hp. apply Hd.
      + split; [done|]. right. done.
    - right. split; [done|]. right. split; [apply Hr|done]. }
  destruct Hcase as [[Hc Hn]|Hc]; unfold OpenFilePersister; rewrite (fp_load_holds _ _ _ Hc); simpl;
    eexists; (split; [done|]); simpl; split_and!; auto; done.
Qed.

End file_persister.

Lemma file_persister_atomic_witness :
  let m := mkFS {["d/state.bin" := encodeBundle [Byte.x01] [Byte.x02]]} (-1) "after" false in
  exists p, OpenFilePersister "d" (Reboot (fst (atomicWrite (fun _ => "d/t") "d" "d/state.bin"
    (encodeBundle [Byte.x03] [Byte.x04]) m))) = Some p /\
    ((fp_raftstate p, fp_snapshot p) = ([Byte.x01], [Byte.x02]) \/
     (fp_raftstate p, fp_snapshot p) = ([Byte.x03], [Byte.x04])).
Proof.
  intros m. set (r := atomicWrite (fun _ => "d/t") "d" "d/state.bin" (encodeBundle [Byte.x03] [Byte.x04]) m).
  assert (Hne : forall m : MemFS, (fun _ : MemFS => "d/t") m <> statePath "d") by (intros _; discriminate).
  destruct (file_persister_atomic (fun _ => "d/t") "d" Hne m [Byte.x01] [Byte.x02] [Byte.x03] [Byte.x04]
    (fst r) (snd r)) as (p & H1 & H2 & _).
  - split; [reflexivity|]. right. split; reflexivity.
  - reflexivity.
  - vm_compute. reflexivity.
  - exists p. split; [exact H1|exact H2].
Defined.

Module PersisterDemo.
Import Tester.

#[export] Program Instance entry_countable : Countable LogEntry :=
  inj_countable' (fun e => (Command e, Term e)) (fun p => mkEntry (fst p) (snd p)) _.
Next Obligation. by intros []. Qed.
#[export] Instance gob_int : Gob Z := bit_gob.
#[export] Instance gob_id : Gob string := bit_gob.
#[export] Instance gob_logs : Gob (list LogEntry) := bit_gob.

Definition history : list wal_op :=
  [OSaveMeta 1 "a"; OAppend [mkEntry (Some []) 1; mkEntry None 1]; OTruncate 2;
   OSnapshot 1 1 (Some [Byte.x09]) []].

Lemma persisterwal_history_witness :
  exists w, newPersisterWAL Tester.empty = Some w /\
  exists w1 w2 st2 ok, run_ops w history = Some w1 /\
    (p ← p_reopen (pw_p w1); newPersisterWAL p) = Some w2 /\
    pw_Load w2 = Some (st2, ok) /\ recovered st2 ok ≡ mkPS 1 "a" [sentinel 1] 1 (Some [Byte.x09]).
Proof.
  eexists. split; [reflexivity|].
  apply (persisterwal_history (P := Tester.Persister) _ (mkPS 0 "" [sentinel 0] 0 (Some [])) history).
  - split; [reflexivity|]. right. split; [split; reflexivity|reflexivity].
  - repeat (eexists; split; [reflexivity|split; [exact I|]]). reflexivity.
Defined.

End PersisterDemo.
