(* ===== verification/FileWal.v ===== *)
(** * The file WAL

    [filewal/filewal.go]: the meta file (term and vote, rewritten atomically) and
    the wal file (an optional header record with the embedded snapshot, then
    entry and truncate records, appended; rewritten atomically by a snapshot).

    - [live]: a [FileWAL] and its file system represent a [PersistState];
    - [op_cases]: every operation, under every injected fault, completes or
      leaves a disk from which the old or the new state (or, for an append, the
      old state with the first entries) is recovered;
    - [FileWAL_Lawful]: without faults it is a [LawfulWAL]. *)

From S2P Require Import Prelude Record Fs Gob Wal.

Definition recHeader : byte := Byte.x01.
Definition recEntry : byte := Byte.x02.
Definition recTruncate : byte := Byte.x03.

Record walHeader := mkHeader {
  h_SnapshotIndex : Z; h_SentinelTerm : Z; h_Snapshot : list byte
}.

Record metaState := mkMeta { m_Term : Z; m_Vote : NodeID }.

Record FileWAL := mkFW {
  fw_dir : string;
  fw_metaPath : string;
  fw_walPath : string;
  fw_rl : memFile;
  fw_records : list (list byte);
  fw_logBytes : Z
}.

Definition metaPath (dir : string) : string := (dir +:+ "/meta")%string.
Definition walPath (dir : string) : string := (dir +:+ "/wal")%string.

Section filewal.
Context `{!Gob Z} `{!Gob LogEntry} `{!Gob walHeader} `{!Gob metaState}.

(** ** Codecs *)

Definition encodeEntry (e : LogEntry) : list byte := recEntry :: gob_enc e.
Definition encodeTruncate (k : Z) : list byte := recTruncate :: gob_enc k.
Definition encodeHeader (h : walHeader) : list byte := recHeader :: gob_enc h.
Definition encodeMeta (m : metaState) : list byte := gob_enc m.

(** ** Open *)

(** [logBytes]: the payload bytes of all records but headers. *)
Definition countBytes (records : list (list byte)) : Z :=
  foldr (fun p n => match p with
                    | t :: _ => if decide (t = recHeader) then n else zlen p + n
                    | [] => n
                    end) 0 records.

Definition OpenWAL (dir : string) : fsM FileWAL :=
  '(rl, records) ← OpenRecordLog (walPath dir);
  mret (mkFW dir (metaPath dir) (walPath dir) rl records (countBytes records)).

(** ** Load; [None] is a panic *)

Fixpoint loadRecords (base : Z) (logs : list LogEntry) (recs : list (list byte))
    : option (list LogEntry) :=
  match recs with
  | [] => Some logs
  | [] :: _ => None
  | (t :: b) :: recs =>
      if decide (t = recEntry) then
        e ← gob_decode b; loadRecords base (logs ++ [e]) recs
      else if decide (t = recTruncate) then
        k ← gob_decode b;
        logs ← gto logs (k - base);
        loadRecords base logs recs
      else None
  end.

(** The base, the embedded snapshot and the log of a list of records. *)
Definition loadState (recs : list (list byte)) : option (Z * list byte * list LogEntry) :=
  match recs with
  | [] :: _ => None
  | (t :: b) :: rest =>
      if decide (t = recHeader) then
        h ← gob_decode b;
        logs ← loadRecords (h_SnapshotIndex h) [sentinel (h_SentinelTerm h)] rest;
        Some (h_SnapshotIndex h, h_Snapshot h, logs)
      else
        logs ← loadRecords 0 [sentinel 0] recs; Some (0, [], logs)
  | [] => Some (0, [], [sentinel 0])
  end.

Definition fw_Load (fw : FileWAL) (m : MemFS) : option (PersistState * bool) :=
  match ReadFile (fw_metaPath fw) m with
  | (_, inl _) => None
  | (_, inr metaBytes) =>
      let metaExists := bool_decide (0 < zlen metaBytes) in
      '(term, vote) ← (if metaExists
        then (fun m => (m_Term m, m_Vote m)) <$> gob_decode metaBytes else Some (0, ""));
      '(base, snap, logs) ← loadState (fw_records fw);
      Some (mkPS term vote logs base (nilable snap),
            metaExists || bool_decide (0 < zlen (fw_records fw)))
  end.

(** ** Writes *)

Definition fw_SaveMeta (fw : FileWAL) (term : Z) (vote : NodeID) : fsM FileWAL :=
  _ ← AtomicWrite (fw_dir fw) (fw_metaPath fw) (encodeMeta (mkMeta term vote));
  mret fw.

Definition fw_append (fw : FileWAL) (p : list byte) : fsM FileWAL :=
  rl ← Append (fw_rl fw) p;
  mret (mkFW (fw_dir fw) (fw_metaPath fw) (fw_walPath fw) rl (fw_records fw)
          (fw_logBytes fw + zlen p)).

Fixpoint fw_AppendLog (fw : FileWAL) (entries : list LogEntry) : fsM FileWAL :=
  match entries with
  | [] => mret fw
  | e :: entries => fw ← fw_append fw (encodeEntry e); fw_AppendLog fw entries
  end.

Definition fw_TruncateSuffix (fw : FileWAL) (fromIndex : Z) : fsM FileWAL :=
  fw_append fw (encodeTruncate fromIndex).

Definition fw_SaveSnapshot (fw : FileWAL) (snapshotIndex sentinelTerm : Z)
    (snapshot : option (list byte)) (suffix : list LogEntry) : fsM FileWAL :=
  let content := appendRecord [] (encodeHeader (mkHeader snapshotIndex sentinelTerm (default [] snapshot))) in
  let content := foldl (fun c e => appendRecord c (encodeEntry e)) content suffix in
  let suffixBytes := foldl (fun n e => n + zlen (encodeEntry e)) 0 suffix in
  _ ← AtomicWrite (fw_dir fw) (fw_walPath fw) content;
  _ ← bestEffort (Close (fw_rl fw));
  f ← OpenAppend (fw_walPath fw);
  mret (mkFW (fw_dir fw) (fw_metaPath fw) (fw_walPath fw) (NewRecordLog f) (fw_records fw) suffixBytes).

Definition fw_run (fw : FileWAL) (o : wal_op) : fsM FileWAL :=
  match o with
  | OSaveMeta term vote => fw_SaveMeta fw term vote
  | OAppend es => fw_AppendLog fw es
  | OTruncate k => fw_TruncateSuffix fw k
  | OSnapshot i t snap suffix => fw_SaveSnapshot fw i t snap suffix
  end.

(** ** What the files represent *)

Definition image (rs : list (list byte)) (st : PersistState) : Prop :=
  loadState rs = Some (ps_SnapshotIndex st, default [] (ps_Snapshot st), ps_Logs st).

Definition meta_ok (dir : string) (m : MemFS) (st : PersistState) : Prop :=
  fget m (metaPath dir) = [] /\ ps_Term st = 0 /\ ps_Vote st = "" \/
  fget m (metaPath dir) = encodeMeta (mkMeta (ps_Term st) (ps_Vote st)).

Record live (dir : string) (fw : FileWAL) (m : MemFS) (st : PersistState) : Prop := {
  lv_paths : fw_dir fw = dir /\ fw_metaPath fw = metaPath dir /\ fw_walPath fw = walPath dir;
  lv_log : exists rs, log_at m (walPath dir) rs (fw_rl fw) /\ image rs st;
  lv_meta : meta_ok dir m st
}.

(** What a reboot finds. *)
Definition on_disk (dir : string) (m : MemFS) (st : PersistState) : Prop :=
  (exists rs v, replayRecords (fget m (walPath dir)) = (rs, v) /\ image rs st) /\ meta_ok dir m st.

Definition fw_fits (st : PersistState) : Prop :=
  Forall (fun e => fits (encodeEntry e)) (ps_Logs st) /\
  fits (encodeHeader (mkHeader (ps_SnapshotIndex st) (from_option Term 0 (head (ps_Logs st)))
    (default [] (ps_Snapshot st)))) /\
  fits (encodeTruncate (ps_SnapshotIndex st + zlen (ps_Logs st))).

(** ** Records and states *)

Lemma loadRecords_app base logs rs1 rs2 :
  loadRecords base logs (rs1 ++ rs2) = loadRecords base logs rs1 ≫= fun l => loadRecords base l rs2.
Proof.
  revert logs. induction rs1 as [|[|t b] rs1 IH]; intros logs; simpl; [done|done|].
  dcase; [destruct (gob_decode b); simpl; auto|]. dcase; [|done].
  destruct (gob_decode b); simpl; [|done]. destruct (gto _ _); simpl; auto.
Qed.

Lemma loadRecords_entries base logs es :
  loadRecords base logs (encodeEntry <$> es) = Some (logs ++ es).
Proof.
  revert logs. induction es as [|e es IH]; intros logs; simpl; [by rewrite app_nil_r|].
  rewrite gob_roundtrip. simpl. rewrite IH. by rewrite <- app_assoc.
Qed.

(** A record that is not a header changes the log only. *)
Lemma loadState_snoc rs t b :
  t <> recHeader ->
  loadState (rs ++ [t :: b]) =
  '(base, snap, logs) ← loadState rs; logs ← loadRecords base logs [t :: b]; Some (base, snap, logs).
Proof.
  intros Ht. destruct rs as [|[|t' b'] rs]; [|done|].
  - unfold loadState at 2. cbn [mbind option_bind]. unfold loadState. cbn [app].
    by rewrite decide_False.
  - unfold loadState. cbn [app]. destruct (decide (t' = recHeader)).
    + destruct (gob_decode b') as [h|]; cbn [mbind option_bind]; [|done]. rewrite loadRecords_app.
      destruct (loadRecords _ _ rs); cbn [mbind option_bind]; done.
    + change ((t' :: b') :: rs ++ [t :: b]) with (((t' :: b') :: rs) ++ [t :: b]).
      rewrite loadRecords_app. by destruct (loadRecords 0 [sentinel 0] ((t' :: b') :: rs)).
Qed.

Lemma image_append rs st e : image rs st -> image (rs ++ [encodeEntry e]) (ps_AppendLog st [e]).
Proof.
  unfold image. intros H. unfold encodeEntry. rewrite loadState_snoc by done. rewrite H.
  cbn [mbind option_bind]. pose proof (loadRecords_entries (ps_SnapshotIndex st) (ps_Logs st) [e]) as Hl.
  unfold encodeEntry in Hl. simpl in Hl. simpl. by rewrite Hl.
Qed.

Lemma image_truncate rs st st' k :
  image rs st -> ps_TruncateSuffix st k = Some st' -> image (rs ++ [encodeTruncate k]) st'.
Proof.
  unfold image, ps_TruncateSuffix. intros H Ht. unfold encodeTruncate.
  rewrite loadState_snoc by done. rewrite H. simpl. rewrite gob_roundtrip. simpl.
  destruct (gto (ps_Logs st) (k - ps_SnapshotIndex st)); by simplify_eq/=.
Qed.

Lemma image_snapshot st i t snap suffix :
  image (encodeHeader (mkHeader i t (default [] snap)) :: (encodeEntry <$> suffix))
    (ps_SaveSnapshot st i t snap suffix).
Proof.
  unfold image. simpl. rewrite gob_roundtrip. simpl. by rewrite loadRecords_entries.
Qed.

(** ** Paths *)

Lemma string_app_inj (d a b : string) : (d +:+ a)%string = (d +:+ b)%string -> a = b.
Proof. induction d as [|x d IH]; simpl; [done|]. intros [= H]. auto. Qed.

Lemma string_app_assoc (a b c : string) : ((a +:+ b) +:+ c)%string = (a +:+ (b +:+ c))%string.
Proof. induction a as [|x a IH]; [done|]. exact (f_equal (String x) IH). Qed.

Lemma paths_ne dir :
  walPath dir <> metaPath dir /\ walPath dir <> (metaPath dir +:+ ".tmp")%string /\
  metaPath dir <> (walPath dir +:+ ".tmp")%string.
Proof.
  unfold walPath, metaPath. rewrite !string_app_assoc. simpl.
  split_and!; by intros ?%string_app_inj.
Qed.

Lemma fget_eq m m' name : files m' !! name = files m !! name -> fget m' name = fget m name.
Proof. unfold fget. by intros ->. Qed.

Lemma fget_Some m name b : files m !! name = Some b -> fget m name = b.
Proof. unfold fget. by intros ->. Qed.

Lemma unfaulty m m' :
  FaultRename m' = FaultRename m -> (FaultWriteLimit m < 0 -> FaultWriteLimit m' < 0) ->
  ~ faulty m -> ~ faulty m'.
Proof. unfold faulty. intros -> Hl Hn [?|?]; [|tauto]. assert (FaultWriteLimit m < 0) by lia. lia. Qed.

(** ** Each write *)

Lemma fw_append_cases dir fw m st st' p m' r :
  live dir fw m st -> (forall rs, image rs st -> image (rs ++ [p]) st') ->
  ps_Term st' = ps_Term st -> ps_Vote st' = ps_Vote st -> fits p -> fw_append fw p m = (m', r) ->
  match r with
  | inr fw' => live dir fw' m' st' /\ (~ faulty m -> ~ faulty m')
  | inl _ => crashed m' = true /\ faulty m /\ on_disk dir m' st
  end.
Proof.
  intros [Hp (rs & Hl & Hi) Hm] Himg Ht Hv Hfit H. unfold fw_append in H.
  apply bind_inv in H as (m1 & r1 & E & H).
  destruct (Append_cases _ _ _ _ _ _ _ Hl Hfit E) as (Ho & Hfr & Hr).
  assert (Hmeta : fget m1 (metaPath dir) = fget m (metaPath dir)).
  { apply fget_eq, Ho. destruct (paths_ne dir) as [Hne _]. congruence. }
  assert (Hm' : forall st2, ps_Term st2 = ps_Term st -> ps_Vote st2 = ps_Vote st -> meta_ok dir m1 st2).
  { intros st2 E1 E2. unfold meta_ok. by rewrite Hmeta, E1, E2. }
  destruct r1 as [e|rl].
  - destruct H as [-> ->], Hr as (Hc & Hge & k & Hk & Hf). split_and!; [done|by left|].
    split; [|by apply Hm']. exists rs, (zlen (fileOf rs)). split; [|done].
    rewrite (fget_Some _ _ _ Hf). apply replay_torn_file; [apply Hl|done|done].
  - unfold mret, fsM_ret in H. simplify_eq. destruct Hr as [Hl' Hlim]. split; [|by apply unfaulty].
    split; [done| |by apply Hm']. exists (rs ++ [p]). split; [done|]. by apply Himg.
Qed.

Lemma fw_AppendLog_cases dir es fw m st m' r :
  live dir fw m st -> Forall (fun e => fits (encodeEntry e)) es -> fw_AppendLog fw es m = (m', r) ->
  match r with
  | inr fw' => live dir fw' m' (ps_AppendLog st es) /\ (~ faulty m -> ~ faulty m')
  | inl _ => crashed m' = true /\ faulty m /\
      exists k, (k < length es)%nat /\ on_disk dir m' (ps_AppendLog st (take k es))
  end.
Proof.
  intros Hl Hf. revert fw m st Hl. induction Hf as [|e es He Hf IH]; intros fw m st Hl H; simpl in H.
  { unfold mret, fsM_ret in H. simplify_eq. by rewrite ps_AppendLog_nil. }
  apply bind_inv in H as (m1 & r1 & E & H).
  pose proof (fw_append_cases dir fw m st (ps_AppendLog st [e]) _ _ _ Hl
    (fun rs => image_append rs st e) eq_refl eq_refl He E) as Hr.
  destruct r1 as [err|fw1].
  - destruct H as [-> ->], Hr as (? & ? & ?). split_and!; auto. exists 0%nat.
    split; [simpl; lia|]. simpl. by rewrite ps_AppendLog_nil.
  - destruct Hr as [Hl1 Hq1]. apply (IH _ _ _ Hl1) in H as Hr. destruct r as [err|fw'].
    + destruct Hr as (Hc & Hfa & k & Hk & Hd). split_and!; [done|destruct (decide (faulty m)); tauto|].
      exists (S k). split; [simpl; lia|]. by rewrite ps_AppendLog_app in Hd.
    + destruct Hr as [Hl' Hq']. rewrite ps_AppendLog_app in Hl'. split; [done|]. tauto.
Qed.

Lemma fw_SaveMeta_cases dir fw m st term vote m' r :
  live dir fw m st -> fw_SaveMeta fw term vote m = (m', r) ->
  match r with
  | inr fw' => live dir fw' m' (ps_SaveMeta st term vote) /\ (~ faulty m -> ~ faulty m')
  | inl _ => crashed m' = true /\ faulty m /\
      (on_disk dir m' st \/ on_disk dir m' (ps_SaveMeta st term vote))
  end.
Proof.
  intros [(Hd & Hmp & Hwp) (rs & Hl & Hi) Hm] H. unfold fw_SaveMeta in H. rewrite Hd, Hmp in H.
  pose proof (paths_ne dir) as (Hn1 & Hn2 & Hn3).
  apply bind_inv in H as (m1 & r1 & E & H).
  destruct (AtomicWrite_cases _ _ _ _ _ _ (la_live _ _ _ _ Hl) E) as (Hu & Hfr & Hr).
  assert (Hwal : files m1 !! walPath dir = files m !! walPath dir) by (by apply Hu).
  assert (Hdisk : forall st2, meta_ok dir m1 st2 -> image rs st2 -> on_disk dir m1 st2).
  { intros st2 H1 H2. split; [|done]. exists rs, (zlen (fileOf rs)). split; [|done].
    rewrite (fget_eq _ _ _ Hwal), (fget_Some _ _ _ (la_file _ _ _ _ Hl)). apply replay_fileOf, Hl. }
  destruct r1 as [e|[]].
  - destruct H as [-> ->], Hr as (_ & Hc & Hfa & [Hp|Hp]); split_and!; auto; [left|right]; apply Hdisk; auto.
    + unfold meta_ok. by rewrite (fget_eq _ _ _ Hp).
    + right. by rewrite (fget_Some _ _ _ Hp).
  - unfold mret, fsM_ret in H. simplify_eq. destruct Hr as (Hp & Hc & Hlim).
    split; [|by apply unfaulty]. split; [done| |].
    + exists rs. split; [|done]. destruct Hl as [L1 L2 L3 L4]. split; auto. congruence.
    + right. by rewrite (fget_Some _ _ _ Hp).
Qed.

Lemma snapshot_content h suffix :
  foldl (fun c e => appendRecord c (encodeEntry e)) (appendRecord [] h) suffix =
  fileOf (h :: (encodeEntry <$> suffix)).
Proof.
  unfold fileOf. cbn [foldl]. generalize (appendRecord [] h). 
  induction suffix as [|e l IH]; intros c; simpl; [done|]. apply IH.
Qed.

Lemma fw_SaveSnapshot_cases dir fw m st i t snap suffix m' r :
  live dir fw m st -> fw_fits (ps_SaveSnapshot st i t snap suffix) ->
  fw_SaveSnapshot fw i t snap suffix m = (m', r) ->
  match r with
  | inr fw' => live dir fw' m' (ps_SaveSnapshot st i t snap suffix) /\ (~ faulty m -> ~ faulty m')
  | inl _ => crashed m' = true /\ faulty m /\
      (on_disk dir m' st \/ on_disk dir m' (ps_SaveSnapshot st i t snap suffix))
  end.
Proof.
  intros [(Hd & Hmp & Hwp) (rs & Hl & Hi) Hm] (Hf1 & Hf2 & _) H. unfold fw_SaveSnapshot in H.
  rewrite snapshot_content, Hd, Hmp, Hwp in H. pose proof (paths_ne dir) as (Hn1 & Hn2 & Hn3).
  set (h := encodeHeader (mkHeader i t (default [] snap))) in *.
  set (rs' := h :: (encodeEntry <$> suffix)) in *.
  assert (Hfit : Forall fits rs').
  { constructor; [done|]. apply Forall_fmap. by inversion Hf1. }
  apply bind_inv in H as (m1 & r1 & E & H).
  destruct (AtomicWrite_cases _ _ _ _ _ _ (la_live _ _ _ _ Hl) E) as (Hu & Hfr & Hr).
  assert (Hmeta : forall st2, ps_Term st2 = ps_Term st -> ps_Vote st2 = ps_Vote st -> meta_ok dir m1 st2).
  { intros st2 E1 E2. unfold meta_ok. rewrite (fget_eq m m1), E1, E2 by (apply Hu; congruence). done. }
  destruct r1 as [e|[]].
  - destruct H as [-> ->], Hr as (_ & Hc & Hfa & [Hp|Hp]); split_and!; auto; [left|right];
      (split; [|by apply Hmeta]).
    + exists rs, (zlen (fileOf rs)). split; [|done].
      rewrite (fget_eq _ _ _ Hp), (fget_Some _ _ _ (la_file _ _ _ _ Hl)). apply replay_fileOf, Hl.
    + exists rs', (zlen (fileOf rs')). split; [|apply image_snapshot].
      rewrite (fget_Some _ _ _ Hp). by apply replay_fileOf.
  - destruct Hr as (Hp & Hc & Hlim).
    unfold mbind, fsM_bind, bestEffort, Close, OpenAppend, alive, mret, fsM_ret in H.
    rewrite Hc in H. simpl in H. rewrite Hc in H. rewrite Hp in H. simplify_eq/=.
    split; [|by apply unfaulty]. split; [done| |by apply Hmeta].
    exists rs'. split; [|apply image_snapshot]. split; auto. simpl. unfold NewRecordLog.
    by rewrite (fget_Some _ _ _ Hp).
Qed.

(** ** Recovery *)

(** Opening heals the log; loading right after gives the state back. *)
Lemma open_load dir m st :
  crashed m = false -> on_disk dir m st -> exists m' fw st' ok,
  OpenWAL dir m = (m', inr fw) /\ live dir fw m' st /\ (~ faulty m -> ~ faulty m') /\
  fw_Load fw m' = Some (st', ok) /\ recovered st' ok ≡ st.
Proof.
  intros Hc [(rs & v & Hr & Hi) Hm]. pose proof (paths_ne dir) as (Hn1 & _).
  destruct (OpenRecordLog_heals (walPath dir) m rs v Hc Hr) as (m' & l & Ho & Hl & Hel & Hfr & Hlim).
  unfold OpenWAL, mbind, fsM_bind. rewrite Ho. unfold mret, fsM_ret.
  assert (Hmeta : fget m' (metaPath dir) = fget m (metaPath dir)) by (apply fget_eq, Hel; congruence).
  assert (Hload : exists st' ok, fw_Load (mkFW dir (metaPath dir) (walPath dir) l rs (countBytes rs)) m'
    = Some (st', ok) /\ recovered st' ok ≡ st).
  { unfold fw_Load, ReadFile, alive. simpl. rewrite (la_live _ _ _ _ Hl), Hmeta.
    unfold image in Hi. rewrite Hi. simpl.
    destruct Hm as [(-> & Ht & Hv)| ->].
    - rewrite bool_decide_eq_false_2 by (unfold zlen; simpl; lia). simpl. eexists _, _. split; [done|].
      destruct rs as [|r rs].
      + unfold recovered. simpl. simpl in Hi. injection Hi as Hi1 Hi2 Hi3.
        split_and!; simpl; rewrite <- ?Hi2; done || congruence.
      + rewrite bool_decide_eq_true_2 by (rewrite zlen_cons; pose proof (zlen_nonneg rs); lia). simpl.
        split_and!; simpl; auto. apply nilable_default.
    - unfold encodeMeta. rewrite bool_decide_eq_true_2.
      + rewrite gob_roundtrip. simpl. eexists _, _. split; [done|]. simpl.
        split_and!; simpl; auto. apply nilable_default.
      + destruct (gob_enc _) eqn:E; [by apply gob_nonempty in E|]. rewrite zlen_cons.
        pose proof (zlen_nonneg l0). lia. }
  destruct Hload as (st' & ok & Hload & Hst). eexists _, _, st', ok. split; [done|]. split_and!; auto.
  - split; [done| |unfold meta_ok; by rewrite Hmeta]. exists rs. done.
  - apply unfaulty; [done|lia].
Qed.

Lemma live_on_disk dir fw m st : live dir fw m st -> on_disk dir m st.
Proof.
  intros [_ (rs & Hl & Hi) Hm]. split; [|done]. exists rs, (zlen (fileOf rs)). split; [|done].
  rewrite (fget_Some _ _ _ (la_file _ _ _ _ Hl)). apply replay_fileOf, Hl.
Qed.

(** The states an operation may leave behind when the process dies in it. *)
Definition between (st : PersistState) (o : wal_op) (st' st2 : PersistState) : Prop :=
  st2 = st \/ st2 = st' \/
  exists es k, o = OAppend es /\ st2 = ps_AppendLog st (take k es).

Lemma op_cases dir fw m st o st' m' r :
  live dir fw m st -> ps_op st o = Some st' -> fw_fits st' -> fw_run fw o m = (m', r) ->
  match r with
  | inr fw' => live dir fw' m' st' /\ (~ faulty m -> ~ faulty m')
  | inl _ => faulty m /\ exists st2, between st o st' st2 /\ on_disk dir m' st2
  end.
Proof.
  intros Hl Ho Hf H. destruct o as [t v|es|k|i t snap suffix]; simplify_eq/=.
  - apply (fw_SaveMeta_cases _ _ _ _ _ _ _ _ Hl) in H. destruct r; [|done].
    destruct H as (_ & ? & [?|?]); (split; [done|]); eexists; (split; [|done]); unfold between; auto.
  - apply (fw_AppendLog_cases _ _ _ _ _ _ _ Hl) in H.
    + destruct r; [|done]. destruct H as (_ & ? & k & _ & ?). split; [done|]. eexists. split; [|done].
      right. right. eauto.
    + destruct Hf as [Hf _]. by apply Forall_app in Hf as [_ ?].
  - apply (fw_append_cases dir fw m st st' _ _ _ Hl) in H; auto.
    + destruct r; [|done]. destruct H as (_ & ? & ?). split; [done|]. exists st. split; [by left|done].
    + intros rs Hi. by eapply image_truncate.
    + unfold ps_TruncateSuffix in Ho. destruct (gto _ _); by simplify_eq/=.
    + unfold ps_TruncateSuffix in Ho. destruct (gto _ _); by simplify_eq/=.
    + destruct Hf as (_ & _ & Hf). unfold ps_TruncateSuffix, gto in Ho.
      destruct (decide _) as [Hk|]; simplify_eq/=. 
      replace (ps_SnapshotIndex st + zlen (take (Z.to_nat (k - ps_SnapshotIndex st)) (ps_Logs st))) with k in Hf
        by zlen_lia. done.
  - apply (fw_SaveSnapshot_cases _ _ _ _ _ _ _ _ _ _ Hl Hf) in H. destruct r; [|done].
    destruct H as (_ & ? & [?|?]); (split; [done|]); eexists; (split; [|done]); unfold between; auto.
Qed.

(** C8: the file WAL is crash safe.  Whatever crash is injected into an operation
    of the WAL, rebooting, opening and loading gives the state before it, the
    state after it, or, for an append, the old state with the first entries
    appended; and the state after it whenever the operation returned. *)
Theorem filewal_crash_safe dir fw m st o st' m' r :
  live dir fw m st -> ps_op st o = Some st' -> fw_fits st' -> fw_run fw o m = (m', r) ->
  exists m2 fw2 st2 ok st3, OpenWAL dir (Reboot m') = (m2, inr fw2) /\
    fw_Load fw2 m2 = Some (st3, ok) /\ recovered st3 ok ≡ st2 /\ live dir fw2 m2 st2 /\
    between st o st' st2 /\ (forall fw', r = inr fw' -> st2 = st').
Proof.
  intros Hl Ho Hf H. pose proof (op_cases _ _ _ _ _ _ _ _ Hl Ho Hf H) as Hr.
  assert (Hst2 : exists st2, on_disk dir m' st2 /\ between st o st' st2 /\
    (forall fw', r = inr fw' -> st2 = st')).
  { destruct r as [e|fw'].
    - destruct Hr as (_ & st2 & Hb & Hd). exists st2. split_and!; auto. done.
    - destruct Hr as [Hl' _]. exists st'. split_and!; [by eapply live_on_disk|right; by left|done]. }
  destruct Hst2 as (st2 & Hd & Hb & Hret).
  destruct (open_load dir (Reboot m') st2) as (m2 & fw2 & st3 & ok & H1 & H2 & _ & H3 & H4); [done|done|].
  exists m2, fw2, st2, ok, st3. split_and!; auto.
Qed.

(** ** The contract of Raft *)

(** A WAL that has not been asked to crash. *)
Definition FW : Type := FileWAL * MemFS.

Definition lift (f : FileWAL -> fsM FileWAL) (w : FW) : option FW :=
  match f (fst w) (snd w) with (m, inr fw) => Some (fw, m) | (_, inl _) => None end.

#[export] Instance FileWAL_WAL : WAL FW := {
  SaveMeta w term vote := lift (fun fw => fw_SaveMeta fw term vote) w;
  AppendLog w es := lift (fun fw => fw_AppendLog fw es) w;
  TruncateSuffix w k := lift (fun fw => fw_TruncateSuffix fw k) w;
  SaveSnapshot w i t snap suffix := lift (fun fw => fw_SaveSnapshot fw i t snap suffix) w;
  Load w := fw_Load (fst w) (snd w);
  Size w := fw_logBytes (fst w)
}.

Context (dir : string).

Definition fw_holds (w : FW) (st : PersistState) : Prop := live dir (fst w) (snd w) st /\ ~ faulty (snd w).

Lemma lift_holds w st o st' :
  fw_holds w st -> ps_op st o = Some st' -> fw_fits st' ->
  exists w', lift (fun fw => fw_run fw o) w = Some w' /\ fw_holds w' st'.
Proof.
  intros [Hl Hn] Ho Hf. unfold lift. destruct (fw_run (fst w) o (snd w)) as [m' r] eqn:E.
  pose proof (op_cases _ _ _ _ _ _ _ _ Hl Ho Hf E) as Hr. destruct r as [e|fw'].
  - tauto.
  - destruct Hr as [Hl' Hn']. eexists. split; [done|]. split; simpl; auto.
Qed.

#[export] Program Instance FileWAL_Lawful : LawfulWAL FW := {
  wal_holds := fw_holds;
  wal_fits := fw_fits;
  reopen w := lift (fun _ => OpenWAL dir) w
}.
Next Obligation. intros w st term vote H Hf. by apply (lift_holds w st (OSaveMeta term vote)). Qed.
Next Obligation. intros w st es H Hf. by apply (lift_holds w st (OAppend es)). Qed.
Next Obligation. intros w st st' k H Ht Hf. by apply (lift_holds w st (OTruncate k)). Qed.
Next Obligation. intros w st i t snap suffix H Hf. by apply (lift_holds w st (OSnapshot i t snap suffix)). Qed.
Next Obligation.
  intros [fw m] st [Hl Hn]. simpl in *. pose proof (lv_log _ _ _ _ Hl) as (rs & Hla & _).
  destruct (open_load dir m st (la_live _ _ _ _ Hla) (live_on_disk _ _ _ _ Hl))
    as (m' & fw' & st' & ok & H1 & H2 & H3 & H4 & H5).
  unfold lift. simpl. rewrite H1. eexists _, st', ok. split; [done|]. simpl. split_and!; auto. split; auto.
Qed.

(** C28: a history written to the file WAL is read back.  After any sequence of
    meta, append, truncate and snapshot writes that the contract allows, a
    restart loads exactly the abstract state those writes built. *)
Theorem filewal_history w st os st' :
  fw_holds w st -> ps_ops (W := FW) st os st' ->
  exists w1 w2 st2 ok, run_ops w os = Some w1 /\ lift (fun _ => OpenWAL dir) w1 = Some w2 /\
    Load w2 = Some (st2, ok) /\ recovered st2 ok ≡ st'.
Proof.
  intros Hw Hos. pose proof (history_recovers w st os st') as Hh. exact (Hh Hw Hos).
Qed.

(** A new disk holds the initial state. *)
Lemma fresh_on_disk d m : files m = ∅ -> on_disk d m ps_init.
Proof.
  intros He. unfold on_disk, meta_ok, fget. rewrite He. split; [|by left].
  exists [], 0. split; [|done]. reflexivity.
Qed.

End filewal.


(** ** Witnesses, with a concrete codec *)

#[export] Program Instance LogEntry_countable : Countable LogEntry :=
  inj_countable' (fun e => (Command e, Term e)) (fun p => mkEntry (fst p) (snd p)) _.
Next Obligation. by intros []. Qed.

#[export] Instance walHeader_eq_dec : EqDecision walHeader.
Proof. solve_decision. Defined.

#[export] Program Instance walHeader_countable : Countable walHeader :=
  inj_countable' (fun h => (h_SnapshotIndex h, h_SentinelTerm h, h_Snapshot h))
    (fun p => mkHeader (fst (fst p)) (snd (fst p)) (snd p)) _.
Next Obligation. by intros []. Qed.

#[export] Instance metaState_eq_dec : EqDecision metaState.
Proof. solve_decision. Defined.

#[export] Program Instance metaState_countable : Countable metaState :=
  inj_countable' (fun h => (m_Term h, m_Vote h)) (fun p => mkMeta (fst p) (snd p)) _.
Next Obligation. by intros []. Qed.

Module Concrete.

#[export] Instance gob_Z : Gob Z := bit_gob.
#[export] Instance gob_entry : Gob LogEntry := bit_gob.
#[export] Instance gob_header : Gob walHeader := bit_gob.
#[export] Instance gob_meta : Gob metaState := bit_gob.

(** A fresh disk on which the next write is cut after five bytes. *)
Definition disk0 : MemFS := mkFS ∅ 5 "" false.

Definition e1 : LogEntry := mkEntry (Some [Byte.x01]) 1.

Lemma filewal_crash_safe_witness :
  exists fw m, OpenWAL "d" disk0 = (m, inr fw) /\
  exists m2 fw2 st2 ok st3,
    OpenWAL "d" (Reboot (fst (fw_run fw (OAppend [e1]) m))) = (m2, inr fw2) /\
    fw_Load fw2 m2 = Some (st3, ok) /\ recovered st3 ok ≡ st2 /\
    between ps_init (OAppend [e1]) (ps_AppendLog ps_init [e1]) st2.
Proof.
  destruct (open_load "d" disk0 ps_init) as (m & fw & _ & _ & H1 & H2 & _).
  { reflexivity. }
  { apply fresh_on_disk. reflexivity. }
  exists fw, m. split; [exact H1|].
  destruct (filewal_crash_safe "d" fw m ps_init (OAppend [e1]) (ps_AppendLog ps_init [e1])
    (fst (fw_run fw (OAppend [e1]) m)) (snd (fw_run fw (OAppend [e1]) m)))
    as (m2 & fw2 & st2 & ok & st3 & A & B & C & _ & D & _).
  - exact H2.
  - reflexivity.
  - split; [|split; reflexivity]. repeat constructor.
  - apply surjective_pairing.
  - exists m2, fw2, st2, ok, st3. auto.
Defined.

Definition history : list wal_op :=
  [OSaveMeta 1 "a"; OAppend [e1; e1]; OTruncate 2; OSnapshot 1 1 (Some [Byte.x09]) []].

Lemma filewal_history_witness :
  exists w, fw_holds "d" w ps_init /\
  exists w1 w2 st2 ok, run_ops w history = Some w1 /\ lift (fun _ => OpenWAL "d") w1 = Some w2 /\
    Load w2 = Some (st2, ok) /\ recovered st2 ok ≡ mkPS 1 "a" [sentinel 1] 1 (Some [Byte.x09]).
Proof.
  destruct (open_load "d" NewMemFS ps_init) as (m & fw & _ & _ & H1 & H2 & H3 & _).
  { reflexivity. }
  { apply fresh_on_disk. reflexivity. }
  assert (Hw : fw_holds "d" (fw, m) ps_init).
  { split; [exact H2|]. apply H3. unfold faulty. simpl. intros [H|[H|H]]; [lia|discriminate|discriminate]. }
  exists (fw, m). split; [exact Hw|].
  apply (filewal_history "d" (fw, m) ps_init history _ Hw).
  assert (Hf : forall st, forallb (fun e => zlen (encodeEntry e) <? 2 ^ 32) (ps_Logs st) = true ->
    (zlen (encodeHeader (mkHeader (ps_SnapshotIndex st) (from_option Term 0 (head (ps_Logs st)))
      (default [] (ps_Snapshot st)))) <? 2 ^ 32) = true ->
    (zlen (encodeTruncate (ps_SnapshotIndex st + zlen (ps_Logs st))) <? 2 ^ 32) = true -> fw_fits st).
  { intros st A B C. split; [|split]; try (apply Z.ltb_lt; assumption).
    apply Forall_forall. intros e He. apply Z.ltb_lt. rewrite forallb_forall in A.
    apply A. by apply list_elem_of_In. }
  eexists. split; [reflexivity|]. split; [apply Hf; vm_compute; reflexivity|].
  eexists. split; [reflexivity|]. split; [apply Hf; vm_compute; reflexivity|].
  eexists. split; [reflexivity|]. split; [apply Hf; vm_compute; reflexivity|].
  eexists. split; [reflexivity|]. split; [apply Hf; vm_compute; reflexivity|].
  reflexivity.
Defined.

End Concrete.
