(* ===== verification/Raft.v ===== *)
(** * The Raft node

    [raft1/raft.go]: the state of a node and every section of code that runs
    under [rf.mu], as a function on that state.

    - The node is generic in its WAL, as in Go: [Raft W] for [WAL W].
    - A handler that can panic (a slice index out of range, [log.Fatalf], a
      persistence failure) returns an [option].
    - RPC senders are split where the code releases the lock: the part that
      builds the request, and the part that handles the reply.
    - The channels [resetCh] and [newEntryCh] have capacity one and are only
      written with a non-blocking send: a [bool] says whether they hold a
      token.  [applyCond] records that a [Signal] is pending for the applier. *)

From S2P Require Import Prelude Wal.

Inductive Role := Leader | Follower | Candidate.

#[export] Instance Role_eq_dec : EqDecision Role.
Proof. solve_decision. Defined.

(** ** Messages *)

Record AppendEntries := mkAE {
  ae_Term : Z;
  ae_LeaderId : NodeID;
  ae_PrevLogIndex : Z;
  ae_PrevLogTerm : Z;
  ae_Entries : list LogEntry;
  ae_LeaderCommit : Z;
  ae_Snapshot : option (list byte);
  ae_SnapshotIndex : Z;
  ae_SnapshotTerm : Z
}.

Record AppendEntriesReply := mkAER {
  aer_Term : Z; aer_Success : bool; aer_LastMatchIndex : Z
}.

Record RequestVoteArgs := mkRV {
  rv_Term : Z; rv_CandidateId : NodeID; rv_LastLogIndex : Z; rv_LastLogTerm : Z
}.

Record RequestVoteReply := mkRVR { rvr_Term : Z; rvr_VoteGranted : bool }.

Record TimeoutNowArgs := mkTN {
  tn_Term : Z; tn_LeaderId : NodeID; tn_LastLogIndex : Z; tn_LastLogTerm : Z
}.

Record TimeoutNowReply := mkTNR { tnr_Term : Z; tnr_Accepted : bool }.

Record electionRound := mkRound { er_term : Z; er_lastLogIndex : Z; er_lastLogTerm : Z }.

(** raftapi.ApplyMsg *)
Record ApplyMsg := mkApply {
  am_CommandValid : bool;
  am_Command : option (list byte);
  am_CommandIndex : Z;
  am_SnapshotValid : bool;
  am_Snapshot : option (list byte);
  am_SnapshotTerm : Z;
  am_SnapshotIndex : Z
}.

(** The sentinel errors of raftapi, and the error of an expired context. *)
Inductive RaftError := ErrNotLeader | ErrNoOtherNodes | ErrRPCFailed | ErrTransferRejected
  | ErrContext.

(** What [TransferLeadership] waits for: its context, or the result of the RPC. *)
Inductive transferOutcome := CtxDone | CallFailed | Replied (r : TimeoutNowReply).

(** A Go map read of a missing key gives the zero value. *)
Definition mget (m : gmap NodeID Z) (k : NodeID) : Z := default 0 (m !! k).

Section raft.
Context {W : Type} `{!WAL W}.

(** ** State *)

#[local] Set Primitive Projections.
Record Raft := mkRaft {
  me : NodeID;
  nodeIDs : list NodeID;
  nodeIndex : gmap NodeID Z;
  wal : W;
  (* persistent state *)
  term : Z;
  voteFor : NodeID;
  logs : list LogEntry;
  (* volatile state *)
  customerId : Role;
  leaderId : NodeID;
  voteCount : Z;
  commitIndex : Z;
  appliedIndex : Z;
  (* snapshot *)
  snapshotIndex : Z;
  snapshot : option (list byte);
  (* per-peer replication state *)
  matchIndex : gmap NodeID Z;
  nextIndex : gmap NodeID Z;
  (* signals *)
  resetCh : bool;
  newEntryCh : bool;
  applyCond : bool;
  electionGeneration : Z;
  dead : bool
}.

#[local] Unset Primitive Projections.
Definition set_wal (v : W) (rf : Raft) : Raft :=
  mkRaft (me rf) (nodeIDs rf) (nodeIndex rf) v (term rf) (voteFor rf) (logs rf) (customerId
    rf) (leaderId rf) (voteCount rf) (commitIndex rf) (appliedIndex rf) (snapshotIndex rf)
    (snapshot rf) (matchIndex rf) (nextIndex rf) (resetCh rf) (newEntryCh rf) (applyCond rf)
    (electionGeneration rf) (dead rf).
Definition set_term (v : Z) (rf : Raft) : Raft :=
  mkRaft (me rf) (nodeIDs rf) (nodeIndex rf) (wal rf) v (voteFor rf) (logs rf) (customerId
    rf) (leaderId rf) (voteCount rf) (commitIndex rf) (appliedIndex rf) (snapshotIndex rf)
    (snapshot rf) (matchIndex rf) (nextIndex rf) (resetCh rf) (newEntryCh rf) (applyCond rf)
    (electionGeneration rf) (dead rf).
Definition set_voteFor (v : NodeID) (rf : Raft) : Raft :=
  mkRaft (me rf) (nodeIDs rf) (nodeIndex rf) (wal rf) (term rf) v (logs rf) (customerId rf)
    (leaderId rf) (voteCount rf) (commitIndex rf) (appliedIndex rf) (snapshotIndex rf)
    (snapshot rf) (matchIndex rf) (nextIndex rf) (resetCh rf) (newEntryCh rf) (applyCond rf)
    (electionGeneration rf) (dead rf).
Definition set_logs (v : list LogEntry) (rf : Raft) : Raft :=
  mkRaft (me rf) (nodeIDs rf) (nodeIndex rf) (wal rf) (term rf) (voteFor rf) v (customerId
    rf) (leaderId rf) (voteCount rf) (commitIndex rf) (appliedIndex rf) (snapshotIndex rf)
    (snapshot rf) (matchIndex rf) (nextIndex rf) (resetCh rf) (newEntryCh rf) (applyCond rf)
    (electionGeneration rf) (dead rf).
Definition set_customerId (v : Role) (rf : Raft) : Raft :=
  mkRaft (me rf) (nodeIDs rf) (nodeIndex rf) (wal rf) (term rf) (voteFor rf) (logs rf) v
    (leaderId rf) (voteCount rf) (commitIndex rf) (appliedIndex rf) (snapshotIndex rf)
    (snapshot rf) (matchIndex rf) (nextIndex rf) (resetCh rf) (newEntryCh rf) (applyCond rf)
    (electionGeneration rf) (dead rf).
Definition set_leaderId (v : NodeID) (rf : Raft) : Raft :=
  mkRaft (me rf) (nodeIDs rf) (nodeIndex rf) (wal rf) (term rf) (voteFor rf) (logs rf)
    (customerId rf) v (voteCount rf) (commitIndex rf) (appliedIndex rf) (snapshotIndex rf)
    (snapshot rf) (matchIndex rf) (nextIndex rf) (resetCh rf) (newEntryCh rf) (applyCond rf)
    (electionGeneration rf) (dead rf).
Definition set_voteCount (v : Z) (rf : Raft) : Raft :=
  mkRaft (me rf) (nodeIDs rf) (nodeIndex rf) (wal rf) (term rf) (voteFor rf) (logs rf)
    (customerId rf) (leaderId rf) v (commitIndex rf) (appliedIndex rf) (snapshotIndex rf)
    (snapshot rf) (matchIndex rf) (nextIndex rf) (resetCh rf) (newEntryCh rf) (applyCond rf)
    (electionGeneration rf) (dead rf).
Definition set_commitIndex (v : Z) (rf : Raft) : Raft :=
  mkRaft (me rf) (nodeIDs rf) (nodeIndex rf) (wal rf) (term rf) (voteFor rf) (logs rf)
    (customerId rf) (leaderId rf) (voteCount rf) v (appliedIndex rf) (snapshotIndex rf)
    (snapshot rf) (matchIndex rf) (nextIndex rf) (resetCh rf) (newEntryCh rf) (applyCond rf)
    (electionGeneration rf) (dead rf).
Definition set_appliedIndex (v : Z) (rf : Raft) : Raft :=
  mkRaft (me rf) (nodeIDs rf) (nodeIndex rf) (wal rf) (term rf) (voteFor rf) (logs rf)
    (customerId rf) (leaderId rf) (voteCount rf) (commitIndex rf) v (snapshotIndex rf)
    (snapshot rf) (matchIndex rf) (nextIndex rf) (resetCh rf) (newEntryCh rf) (applyCond rf)
    (electionGeneration rf) (dead rf).
Definition set_snapshotIndex (v : Z) (rf : Raft) : Raft :=
  mkRaft (me rf) (nodeIDs rf) (nodeIndex rf) (wal rf) (term rf) (voteFor rf) (logs rf)
    (customerId rf) (leaderId rf) (voteCount rf) (commitIndex rf) (appliedIndex rf) v
    (snapshot rf) (matchIndex rf) (nextIndex rf) (resetCh rf) (newEntryCh rf) (applyCond rf)
    (electionGeneration rf) (dead rf).
Definition set_snapshot (v : option (list byte)) (rf : Raft) : Raft :=
  mkRaft (me rf) (nodeIDs rf) (nodeIndex rf) (wal rf) (term rf) (voteFor rf) (logs rf)
    (customerId rf) (leaderId rf) (voteCount rf) (commitIndex rf) (appliedIndex rf)
    (snapshotIndex rf) v (matchIndex rf) (nextIndex rf) (resetCh rf) (newEntryCh rf)
    (applyCond rf) (electionGeneration rf) (dead rf).
Definition set_matchIndex (v : gmap NodeID Z) (rf : Raft) : Raft :=
  mkRaft (me rf) (nodeIDs rf) (nodeIndex rf) (wal rf) (term rf) (voteFor rf) (logs rf)
    (customerId rf) (leaderId rf) (voteCount rf) (commitIndex rf) (appliedIndex rf)
    (snapshotIndex rf) (snapshot rf) v (nextIndex rf) (resetCh rf) (newEntryCh rf)
    (applyCond rf) (electionGeneration rf) (dead rf).
Definition set_nextIndex (v : gmap NodeID Z) (rf : Raft) : Raft :=
  mkRaft (me rf) (nodeIDs rf) (nodeIndex rf) (wal rf) (term rf) (voteFor rf) (logs rf)
    (customerId rf) (leaderId rf) (voteCount rf) (commitIndex rf) (appliedIndex rf)
    (snapshotIndex rf) (snapshot rf) (matchIndex rf) v (resetCh rf) (newEntryCh rf)
    (applyCond rf) (electionGeneration rf) (dead rf).
Definition set_resetCh (v : bool) (rf : Raft) : Raft :=
  mkRaft (me rf) (nodeIDs rf) (nodeIndex rf) (wal rf) (term rf) (voteFor rf) (logs rf)
    (customerId rf) (leaderId rf) (voteCount rf) (commitIndex rf) (appliedIndex rf)
    (snapshotIndex rf) (snapshot rf) (matchIndex rf) (nextIndex rf) v (newEntryCh rf)
    (applyCond rf) (electionGeneration rf) (dead rf).
Definition set_newEntryCh (v : bool) (rf : Raft) : Raft :=
  mkRaft (me rf) (nodeIDs rf) (nodeIndex rf) (wal rf) (term rf) (voteFor rf) (logs rf)
    (customerId rf) (leaderId rf) (voteCount rf) (commitIndex rf) (appliedIndex rf)
    (snapshotIndex rf) (snapshot rf) (matchIndex rf) (nextIndex rf) (resetCh rf) v
    (applyCond rf) (electionGeneration rf) (dead rf).
Definition set_applyCond (v : bool) (rf : Raft) : Raft :=
  mkRaft (me rf) (nodeIDs rf) (nodeIndex rf) (wal rf) (term rf) (voteFor rf) (logs rf)
    (customerId rf) (leaderId rf) (voteCount rf) (commitIndex rf) (appliedIndex rf)
    (snapshotIndex rf) (snapshot rf) (matchIndex rf) (nextIndex rf) (resetCh rf) (newEntryCh
    rf) v (electionGeneration rf) (dead rf).
Definition set_electionGeneration (v : Z) (rf : Raft) : Raft :=
  mkRaft (me rf) (nodeIDs rf) (nodeIndex rf) (wal rf) (term rf) (voteFor rf) (logs rf)
    (customerId rf) (leaderId rf) (voteCount rf) (commitIndex rf) (appliedIndex rf)
    (snapshotIndex rf) (snapshot rf) (matchIndex rf) (nextIndex rf) (resetCh rf) (newEntryCh
    rf) (applyCond rf) v (dead rf).
Definition set_dead (v : bool) (rf : Raft) : Raft :=
  mkRaft (me rf) (nodeIDs rf) (nodeIndex rf) (wal rf) (term rf) (voteFor rf) (logs rf)
    (customerId rf) (leaderId rf) (voteCount rf) (commitIndex rf) (appliedIndex rf)
    (snapshotIndex rf) (snapshot rf) (matchIndex rf) (nextIndex rf) (resetCh rf) (newEntryCh
    rf) (applyCond rf) (electionGeneration rf) v.

Implicit Types rf : Raft.

(** ** Log index helpers *)

Definition relIdx rf (absIdx : Z) : Z := absIdx - snapshotIndex rf.

Definition lastLogIndex rf : Z := zlen (logs rf) - 1 + snapshotIndex rf.

Definition logAt rf (absIdx : Z) : option LogEntry := (logs rf) @[relIdx rf absIdx].

(** [rf.logs[len(rf.logs)-1].Term] *)
Definition lastLogTerm rf : option Z := Term <$> (logs rf) @[zlen (logs rf) - 1].

Definition PersistBytes rf : Z := Size (wal rf).

(** ** Persistence points *)

Definition walSaveMeta rf : option Raft :=
  w ← SaveMeta (wal rf) (term rf) (voteFor rf); Some (set_wal w rf).

Definition walSaveSnapshot rf : option Raft :=
  s ← (logs rf) @[0];
  w ← SaveSnapshot (wal rf) (snapshotIndex rf) (Term s) (snapshot rf) (drop 1 (logs rf));
  Some (set_wal w rf).

(** ** Snapshot *)

Definition Snapshot rf (index : Z) (snap : option (list byte)) : option Raft :=
  if decide (index <= snapshotIndex rf) then Some rf
  else if decide (lastLogIndex rf < index) then None (* log.Fatalf *)
  else
    e ← logAt rf index;
    rest ← gfrom (logs rf) (relIdx rf index + 1);
    walSaveSnapshot
      (set_snapshot snap (set_snapshotIndex index (set_logs (sentinel (Term e) :: rest) rf))).

(** ** Internal helpers *)

Definition stepDown rf (newTerm : Z) : option Raft :=
  walSaveMeta
    (set_voteCount 0 (set_voteFor "" (set_leaderId ""
      (set_customerId Follower (set_term newTerm rf))))).

Definition resetElectionTimerLocked rf : Raft :=
  set_resetCh true (set_electionGeneration ((electionGeneration rf + 1) mod 2 ^ 64) rf).

Definition beginElectionLocked rf : option (electionRound * Raft) :=
  rf ← walSaveMeta
    (set_voteCount 1 (set_voteFor (me rf) (set_leaderId ""
      (set_customerId Candidate (set_term (term rf + 1) rf)))));
  let rf := resetElectionTimerLocked rf in
  t ← lastLogTerm rf;
  Some (mkRound (term rf) (lastLogIndex rf) t, rf).

(** The requests of one election round, one per other node. *)
Definition sendRequestVotes rf (round : electionRound) : list (NodeID * RequestVoteArgs) :=
  (fun id => (id, mkRV (er_term round) (me rf) (er_lastLogIndex round) (er_lastLogTerm round)))
    <$> filter (fun id => id <> me rf) (nodeIDs rf).

(** ** RPC handlers *)

(** The body of [RequestVote] after the term comparison. *)
Definition grantVote rf (args : RequestVoteArgs) : option (RequestVoteReply * Raft) :=
  let lastIdx := lastLogIndex rf in
  lastTerm ← lastLogTerm rf;
  let logOk := (lastTerm <? rv_LastLogTerm args) ||
    ((rv_LastLogTerm args =? lastTerm) && (lastIdx <=? rv_LastLogIndex args)) in
  if decide ((voteFor rf = "" \/ voteFor rf = rv_CandidateId args) /\ logOk = true) then
    rf ← walSaveMeta (set_voteFor (rv_CandidateId args) rf);
    let rf := resetElectionTimerLocked rf in
    Some (mkRVR (term rf) true, rf)
  else Some (mkRVR (term rf) false, rf).

(** [if args.Term > rf.term { rf.stepDown(args.Term) }] *)
Definition adoptTerm rf (t : Z) : option Raft :=
  if decide (term rf < t) then stepDown rf t else Some rf.

Definition RequestVote rf (args : RequestVoteArgs) : option (RequestVoteReply * Raft) :=
  if decide (rv_Term args < term rf) then Some (mkRVR (term rf) false, rf)
  else
    rf ← adoptTerm rf (rv_Term args);
    grantVote rf args.

(** InstallSnapshot, folded into AppendEntries. *)
Definition installSnapshot rf (args : AppendEntries) (snap : list byte)
    : option (AppendEntriesReply * Raft) :=
  if decide (ae_SnapshotIndex args <= snapshotIndex rf)
  then Some (mkAER (term rf) true (snapshotIndex rf), rf)
  else
    let rf := set_snapshot (Some snap) rf in
    rest ← (if decide (relIdx rf (ae_SnapshotIndex args) < zlen (logs rf)) then
              e ← logAt rf (ae_SnapshotIndex args);
              if decide (Term e = ae_SnapshotTerm args)
              then gfrom (logs rf) (relIdx rf (ae_SnapshotIndex args) + 1)
              else Some []
            else Some []);
    let rf := set_logs (sentinel (ae_SnapshotTerm args) :: rest) rf in
    let rf := set_snapshotIndex (ae_SnapshotIndex args) rf in
    let rf := set_commitIndex (Z.max (commitIndex rf) (snapshotIndex rf)) rf in
    rf ← walSaveSnapshot rf;
    Some (mkAER (term rf) true (snapshotIndex rf), set_applyCond true rf).

(** The backward scan for the end of the conflicting term; [n] counts the
    entries left above the snapshot. *)
Fixpoint conflictScan rf (conflictTerm : Z) (n : nat) : option Z :=
  match n with
  | O => Some 0
  | S n' =>
      let i := snapshotIndex rf + Z.of_nat n in
      e ← logAt rf i;
      if decide (Term e <> conflictTerm) then Some i else conflictScan rf conflictTerm n'
  end.

(** The rejection of a failed consistency check at [prev]. *)
Definition conflictReply rf (prev : Z) : option AppendEntriesReply :=
  if decide (lastLogIndex rf < prev) then Some (mkAER (term rf) false (lastLogIndex rf))
  else
    c ← logAt rf prev;
    i ← conflictScan rf (Term c) (Z.to_nat (prev - snapshotIndex rf));
    Some (mkAER (term rf) false i).

(** How many of the entries, placed from absolute index [logIdx], the log
    already holds with the same term. *)
Fixpoint matchEntries rf (logIdx : Z) (es : list LogEntry) : option nat :=
  match es with
  | [] => Some 0%nat
  | e :: es' =>
      if decide (lastLogIndex rf < logIdx) then Some 0%nat
      else
        mine ← logAt rf logIdx;
        if decide (Term mine <> Term e) then Some 0%nat
        else n ← matchEntries rf (logIdx + 1) es'; Some (S n)
  end.

(** Truncate at the first conflict and append what is missing. *)
Definition storeEntries rf (prev : Z) (entries : list LogEntry) : option Raft :=
  i ← matchEntries rf (prev + 1) entries;
  if decide (i < length entries)%nat then
    let logIdx := prev + 1 + Z.of_nat i in
    kept ← gto (logs rf) (relIdx rf logIdx);
    let rf := set_logs (kept ++ drop i entries) rf in
    w ← TruncateSuffix (wal rf) logIdx;
    w ← AppendLog w (drop i entries);
    Some (set_wal w rf)
  else Some rf.

(** Plain replication and heartbeats. *)
Definition replicate rf (args : AppendEntries) : option (AppendEntriesReply * Raft) :=
  let prev := ae_PrevLogIndex args in
  if decide (prev < snapshotIndex rf)
  then Some (mkAER (term rf) false (snapshotIndex rf), rf)
  else
    bad ← (if decide (lastLogIndex rf < prev) then Some true
           else e ← logAt rf prev; Some (bool_decide (Term e <> ae_PrevLogTerm args)));
    if (bad : bool) then reply ← conflictReply rf prev; Some (reply, rf)
    else
      let reply := mkAER (term rf) true 0 in
      rf ← storeEntries rf prev (ae_Entries args);
      if decide (commitIndex rf < ae_LeaderCommit args)
      then Some (reply, set_applyCond true
             (set_commitIndex (Z.min (ae_LeaderCommit args) (lastLogIndex rf)) rf))
      else Some (reply, rf).

Definition AppendEntriesHandler rf (args : AppendEntries) : option (AppendEntriesReply * Raft) :=
  if decide (ae_Term args < term rf) then Some (mkAER (term rf) false 0, rf)
  else
    rf ← adoptTerm rf (ae_Term args);
    let rf := resetElectionTimerLocked
      (set_leaderId (ae_LeaderId args) (set_customerId Follower rf)) in
    match ae_Snapshot args with
    | Some snap => installSnapshot rf args snap
    | None => replicate rf args
    end.

(** ** Reply handlers of the RPC senders *)

(** [cnt]: this node and every other one known to hold index [N]. *)
Definition replicaCount rf (N : Z) : Z :=
  1 + zlen (filter (fun id => id <> me rf /\ N <= mget (matchIndex rf) id) (nodeIDs rf)).

(** The commit loop, from [N] on, [n] indices long. *)
Fixpoint advanceCommit rf (N : Z) (n : nat) : option Raft :=
  match n with
  | O => Some rf
  | S n' =>
      e ← logAt rf N;
      if decide (Term e <> term rf) then advanceCommit rf (N + 1) n'
      else if decide (zlen (nodeIDs rf) / 2 < replicaCount rf N)
      then advanceCommit (set_commitIndex N rf) (N + 1) n'
      else advanceCommit rf (N + 1) n'
  end.

(** [sendAppendEntries] once the reply has arrived. *)
Definition onAppendReply rf (server : NodeID) (args : AppendEntries)
    (reply : AppendEntriesReply) : option Raft :=
  if decide (term rf < aer_Term reply) then stepDown rf (aer_Term reply)
  else if decide (term rf <> ae_Term args \/ customerId rf <> Leader) then Some rf
  else if aer_Success reply then
    let newMatch := match ae_Snapshot args with
      | Some _ => ae_SnapshotIndex args
      | None => ae_PrevLogIndex args + zlen (ae_Entries args)
      end in
    let rf := if decide (mget (matchIndex rf) server < newMatch)
      then set_matchIndex (<[server := newMatch]> (matchIndex rf)) rf else rf in
    let rf := set_nextIndex
      (<[server := mget (matchIndex rf) server + 1]> (nextIndex rf)) rf in
    let prevCommit := commitIndex rf in
    rf ← advanceCommit rf (commitIndex rf + 1) (Z.to_nat (lastLogIndex rf - commitIndex rf));
    if decide (prevCommit < commitIndex rf) then Some (set_applyCond true rf) else Some rf
  else if decide (ae_PrevLogIndex args < mget (matchIndex rf) server) then Some rf
  else
    let next := aer_LastMatchIndex reply + 1 in
    Some (set_nextIndex (<[server := if decide (next < 1) then 1 else next]> (nextIndex rf)) rf).

(** Winning the election: leader state and the per-peer indices. *)
Definition becomeLeader rf : Raft :=
  let rf := set_leaderId (me rf) (set_customerId Leader rf) in
  let lastIdx := lastLogIndex rf in
  set_nextIndex (foldr (fun id m => <[id := lastIdx + 1]> m) (nextIndex rf) (nodeIDs rf))
    (set_matchIndex (foldr (fun id m => <[id := 0]> m) (matchIndex rf) (nodeIDs rf)) rf).

(** [sendRequestVote] once the reply has arrived. *)
Definition onVoteReply rf (args : RequestVoteArgs) (reply : RequestVoteReply) : option Raft :=
  if decide (term rf < rvr_Term reply) then stepDown rf (rvr_Term reply)
  else if decide (rvr_VoteGranted reply = false \/ customerId rf <> Candidate \/
                  term rf <> rv_Term args) then Some rf
  else
    let rf := set_voteCount (voteCount rf + 1) rf in
    if decide (zlen (nodeIDs rf) / 2 < voteCount rf) then Some (becomeLeader rf) else Some rf.

(** ** Service API *)

Definition GetState rf : Z * bool := (term rf, bool_decide (leaderId rf = me rf)).

Definition Start rf (command : option (list byte)) : option (Z * Z * bool * Raft) :=
  if decide (customerId rf <> Leader) then Some (-1, term rf, false, rf)
  else
    let index := lastLogIndex rf + 1 in
    let entry := mkEntry command (term rf) in
    let rf := set_logs (logs rf ++ [entry]) rf in
    w ← AppendLog (wal rf) [entry];
    let rf := set_newEntryCh true (set_wal w rf) in
    Some (index, term rf, true, rf).

(** ** Background goroutines *)

(** The request [startHeartbeat] builds for one follower. *)
Definition heartbeatArgs rf (id : NodeID) : option AppendEntries :=
  let p0 := mget (nextIndex rf) id - 1 in
  let p1 := if decide (lastLogIndex rf < p0) then lastLogIndex rf else p0 in
  '(prev, prevTerm, snap) ←
    (if decide (p1 < snapshotIndex rf) then Some (0, 0, snapshot rf)
     else e ← logAt rf p1; Some (p1, Term e, None));
  entries ← (if decide (prev < lastLogIndex rf /\ snap = None)
             then gfrom (logs rf) (relIdx rf prev + 1) else Some []);
  s ← (logs rf) @[0];
  Some (mkAE (term rf) (me rf) prev prevTerm entries (commitIndex rf)
          snap (snapshotIndex rf) (Term s)).

(** One iteration of [startHeartbeat]: a request per follower, leader only. *)
Definition startHeartbeat rf : option (list (NodeID * AppendEntries)) :=
  if decide (customerId rf = Leader)
  then mapM (fun id => a ← heartbeatArgs rf id; Some (id, a))
         (filter (fun id => id <> me rf) (nodeIDs rf))
  else Some [].

(** [ticker]: the timer armed at [generation] fires.  [None] in the result
    means that no election starts. *)
Definition tickerFire rf (generation : Z) : option (option electionRound * Raft) :=
  if dead rf then Some (None, rf)
  else if decide (customerId rf = Leader \/ electionGeneration rf <> generation)
  then Some (None, rf)
  else '(round, rf) ← beginElectionLocked rf; Some (Some round, rf).

Definition snapshotMsg (snap : list byte) (t i : Z) : ApplyMsg :=
  mkApply false None 0 true (Some snap) t i.

Definition commandMsg (e : LogEntry) (i : Z) : ApplyMsg :=
  mkApply true (Command e) i false None 0 0.

(** [sendApplyMsg], from the wake-up to [rf.mu.Unlock]: the messages it then
    sends on [applyCh], in order. *)
Definition sendApplyMsg rf : option (list ApplyMsg * Raft) :=
  if dead rf then Some ([], rf)
  else if decide (commitIndex rf = appliedIndex rf) then Some ([], set_applyCond false rf)
  else
    let start0 := appliedIndex rf + 1 in
    let '(snap, startIdx) := (if decide (start0 <= snapshotIndex rf)
      then (snapshot rf, snapshotIndex rf + 1) else (None, start0)) in
    s ← (logs rf) @[0];
    entries ← gslice (logs rf) (relIdx rf startIdx) (relIdx rf (commitIndex rf) + 1);
    let head := match snap with
      | Some b => [snapshotMsg b (Term s) (snapshotIndex rf)]
      | None => []
      end in
    Some (head ++ imap (fun i e => commandMsg e (startIdx + Z.of_nat i)) entries,
          set_applyCond false (set_appliedIndex (commitIndex rf) rf)).

(** ** Leadership transfer *)

Definition TimeoutNow rf (args : TimeoutNowArgs)
    : option (TimeoutNowReply * option electionRound * Raft) :=
  if decide (tn_Term args < term rf) then Some (mkTNR (term rf) false, None, rf)
  else
    rf ← adoptTerm rf (tn_Term args);
    if decide (tn_LeaderId args <> leaderId rf) then Some (mkTNR (term rf) false, None, rf)
    else
      stale ← (if decide (tn_LastLogIndex args < snapshotIndex rf \/
                          tn_LastLogIndex args <> lastLogIndex rf) then Some true
               else e ← logAt rf (tn_LastLogIndex args);
                    Some (bool_decide (Term e <> tn_LastLogTerm args)));
      if (stale : bool) then Some (mkTNR (term rf) false, None, rf)
      else
        '(round, rf) ← beginElectionLocked rf;
        Some (mkTNR (er_term round) true, Some round, rf).

(** The follower with the highest [matchIndex], the first one among equals;
    [""] when there is no other node. *)
Definition transferTarget rf : NodeID :=
  fst (foldl (fun '(target, best) id =>
         if decide (id = me rf) then (target, best)
         else if decide (best < mget (matchIndex rf) id) then (id, mget (matchIndex rf) id)
         else (target, best)) ("", -1) (nodeIDs rf)).

(** [TransferLeadership] up to the RPC; [ctxErr] says that the context has
    already expired. *)
Definition transferBegin rf (ctxErr : bool) : option (RaftError + NodeID * TimeoutNowArgs) :=
  if ctxErr then Some (inl ErrContext)
  else if decide (customerId rf <> Leader) then Some (inl ErrNotLeader)
  else if decide (transferTarget rf = "") then Some (inl ErrNoOtherNodes)
  else
    t ← lastLogTerm rf;
    Some (inr (transferTarget rf, mkTN (term rf) (me rf) (lastLogIndex rf) t)).

(** ... and from the [select] on its outcome to the end. *)
Definition transferEnd rf (outcome : transferOutcome) : option (option RaftError * Raft) :=
  match outcome with
  | CtxDone => Some (Some ErrContext, rf)
  | CallFailed => Some (Some ErrRPCFailed, rf)
  | Replied r =>
      rf ← adoptTerm rf (tnr_Term r);
      Some (if tnr_Accepted r then None else Some ErrTransferRejected, rf)
  end.

(** ** Start-up and shutdown *)

Definition peerMap (ids : list NodeID) : gmap NodeID Z :=
  foldl (fun m id => <[id := 0]> m) ∅ ids.

Definition indexMap (ids : list NodeID) : gmap NodeID Z :=
  snd (foldl (fun '(i, m) id => (i + 1, <[id := i]> m)) (0, ∅) ids).

Definition MakeWithWAL (myId : NodeID) (ids : list NodeID) (w : W) : option Raft :=
  '(st0, ok) ← Load w;
  let st := recovered st0 ok in
  Some (mkRaft myId ids (indexMap ids) w
          (ps_Term st) (ps_Vote st) (ps_Logs st)
          Follower "" 0 (ps_SnapshotIndex st) (ps_SnapshotIndex st)
          (ps_SnapshotIndex st) (ps_Snapshot st)
          (peerMap ids) (peerMap ids)
          false false false 0 false).

Definition Kill rf : Raft :=
  if dead rf then rf else set_applyCond true (set_dead true rf).

End raft.

Arguments Raft : clear implicits.
