(* ===== verification/RaftSpec.v ===== *)
(** * The replication protocol, abstractly

    What a cluster of nodes agrees on, without messages, snapshots or disks:
    every node has a term, a full log (entry 0 is the sentinel) and a committed
    length; the history of votes, candidacies, elections and acknowledgements
    is kept for ever.  [RaftRefine] shows that the code of raft1/raft.go takes
    only these steps; this file shows that the steps are safe:

    - at most one leader per term ([leads_unique]),
    - equal term at an index means equal logs up to it ([wf_agree]),
    - a leader holds every entry committed in an earlier term
      ([leader_completeness]),
    - any two committed prefixes are comparable ([committed_comparable]). *)

From S2P Require Import Prelude Wal.

(** An election won: the leader, its log when it won, its log since then, and
    the nodes whose votes elected it. *)
Record election := mkElection {
  l_id : NodeID; l_init : list LogEntry; l_log : list LogEntry; l_voters : list NodeID
}.

Record astate := mkA {
  aterm : NodeID -> Z;
  alog : NodeID -> list LogEntry;
  acommit : NodeID -> nat;
  avote : NodeID * Z -> option NodeID;
  acand : NodeID * Z -> option (list LogEntry);
  alead : Z -> option election;
  (* how much of the log of term [t]'s leader the node has acknowledged in [t] *)
  aacc : NodeID * Z -> nat
}.

(** The term of the last entry; the sentinel makes logs non-empty. *)
Definition last_term (l : list LogEntry) : Z := from_option Term 0 (last l).

(** Raft's comparison of logs: [cl] is at least as up-to-date as [l]. *)
Definition up_to_date (cl l : list LogEntry) : Prop :=
  last_term l < last_term cl \/ last_term cl = last_term l /\ (length l <= length cl)%nat.

(** Merging a prefix of the leader's log into a follower's log. *)
Definition merge (l x : list LogEntry) : list LogEntry :=
  if decide (x `prefix_of` l) then l else x.

Definition set_aterm n t a := mkA (<[n := t]> (aterm a)) (alog a) (acommit a) (avote a) (acand a)
  (alead a) (aacc a).
Definition set_alog n l a := mkA (aterm a) (<[n := l]> (alog a)) (acommit a) (avote a) (acand a)
  (alead a) (aacc a).
Definition set_acommit n k a := mkA (aterm a) (alog a) (<[n := k]> (acommit a)) (avote a) (acand a)
  (alead a) (aacc a).
Definition set_avote n t c a := mkA (aterm a) (alog a) (acommit a)
  (<[(n, t) := Some c]> (avote a)) (acand a) (alead a) (aacc a).
Definition set_acand n t l a := mkA (aterm a) (alog a) (acommit a) (avote a)
  (<[(n, t) := Some l]> (acand a)) (alead a) (aacc a).
Definition set_alead t el a := mkA (aterm a) (alog a) (acommit a) (avote a) (acand a)
  (<[t := Some el]> (alead a)) (aacc a).
Definition set_aacc n t k a := mkA (aterm a) (alog a) (acommit a) (avote a) (acand a) (alead a)
  (<[(n, t) := k]> (aacc a)).

(** Case analysis on a step, with the same names everywhere. *)
Ltac case_step H :=
  destruct H as [a n0 t0 Hlt0|a n0 t0 Hlt0|a v0 c0 t0 cl0 Ht0 Hv0 Hc0 Hu0
    |a c0 t0 V0 Ht0 Hl0 Hc0 HV0 Hvs0|a c0 t0 el0 e0 Ht0 Hl0 Hid0 Hlog0 He0
    |a n0 t0 el0 x0 Ht0 Hl0 Hx0 Hnil0|a n0 t0 el0 x0 y0 Ht0 Hl0 Hx0 Hnx0 Hy0 Hpy0
    |a n0 k0 Hk0 Hck0]; simpl in *.

Section protocol.
Context (ids : list NodeID).
Implicit Types (a : astate) (l x : list LogEntry) (t : Z) (n v c : NodeID).

(** By term [T]: a prefix on which a majority of nodes has acknowledged an
    entry of the leader's own term. *)
Definition committed a (T : Z) x : Prop :=
  x `prefix_of` [sentinel 0] \/
  exists t el Q p e, t <= T /\ alead a t = Some el /\ majority ids Q /\
    p ++ [e] `prefix_of` l_log el /\ Term e = t /\ x `prefix_of` p ++ [e] /\
    (forall q, q ∈ Q -> (length p < aacc a (q, t))%nat).

Inductive astep : astate -> astate -> Prop :=
| A_term a n t :
    aterm a n < t -> astep a (set_aterm n t a)
| A_cand a n t :
    aterm a n < t ->
    astep a (set_acand n t (alog a n) (set_avote n t n (set_aterm n t a)))
| A_vote a v c t cl :
    aterm a v = t -> avote a (v, t) = None -> acand a (c, t) = Some cl ->
    up_to_date cl (alog a v) ->
    astep a (set_avote v t c a)
| A_elect a c t V :
    aterm a c = t -> alead a t = None -> acand a (c, t) = Some (alog a c) ->
    majority ids V -> (forall v, v ∈ V -> avote a (v, t) = Some c) ->
    astep a (set_aacc c t (length (alog a c))
              (set_alead t (mkElection c (alog a c) (alog a c) V) a))
| A_append a c t el e :
    aterm a c = t -> alead a t = Some el -> l_id el = c -> alog a c = l_log el -> Term e = t ->
    astep a (set_aacc c t (length (alog a c) + 1)
              (set_alead t (mkElection c (l_init el) (alog a c ++ [e]) (l_voters el))
                (set_alog c (alog a c ++ [e]) a)))
| A_accept a n t el x :
    aterm a n = t -> alead a t = Some el -> x `prefix_of` l_log el -> x <> [] ->
    astep a (set_aacc n t (max (aacc a (n, t)) (length x))
              (set_alog n (merge (alog a n) x) a))
| A_overwrite a n t el x y :
    aterm a n = t -> alead a t = Some el -> x `prefix_of` l_log el ->
    ~ x `prefix_of` alog a n -> y `prefix_of` x ->
    (forall p, p `prefix_of` alog a n -> p `prefix_of` x -> p `prefix_of` y) ->
    astep a (set_alog n y a)
| A_commit a n k :
    (k <= length (alog a n))%nat -> committed a (aterm a n) (take k (alog a n)) ->
    astep a (set_acommit n k a).

(** ** Invariant *)

Definition sorted_terms l : Prop :=
  forall i j e1 e2, (i <= j)%nat -> l !! i = Some e1 -> l !! j = Some e2 -> Term e1 <= Term e2.

(** Every entry after the sentinel was proposed by the leader of its term, and
    carries that leader's log below it. *)
Definition wf a l : Prop :=
  l !! 0%nat = Some (sentinel 0) /\ sorted_terms l /\
  forall i e, l !! S i = Some e ->
    exists el, alead a (Term e) = Some el /\ take (S (S i)) l `prefix_of` l_log el.

Definition ends_in t l : Prop := exists p e, l = p ++ [e] /\ Term e = t.

(** [v] has acknowledged the prefix [p], which ends in term [t], during [t]. *)
Definition acked a v t p : Prop :=
  exists el, alead a t = Some el /\ p `prefix_of` take (aacc a (v, t)) (l_log el) /\ ends_in t p.

(** Some leader of a term in [(t, t']] was elected without [p]. *)
Definition lost a t t' p : Prop :=
  exists t'' el, t < t'' <= t' /\ alead a t'' = Some el /\ ~ p `prefix_of` l_init el.

Record inv a : Prop := {
  i_term n : 0 <= aterm a n;
  i_log n : wf a (alog a n);
  i_logterm n e : e ∈ alog a n -> Term e <= aterm a n;
  i_vote n t c : avote a (n, t) = Some c -> t <= aterm a n /\ is_Some (acand a (c, t));
  i_cand c t cl : acand a (c, t) = Some cl ->
    0 < t <= aterm a c /\ wf a cl /\ (forall e, e ∈ cl -> Term e < t);
  i_lead t el : alead a t = Some el ->
    acand a (l_id el, t) = Some (l_init el) /\ l_init el `prefix_of` l_log el /\
    wf a (l_log el) /\ majority ids (l_voters el) /\
    (forall v, v ∈ l_voters el -> avote a (v, t) = Some (l_id el));
  i_leadterm t el i e : alead a t = Some el -> l_log el !! i = Some e ->
    Term e <= t /\ ((length (l_init el) <= i)%nat -> Term e = t);
  i_acc n t : (0 < aacc a (n, t))%nat ->
    t <= aterm a n /\ exists el, alead a t = Some el /\ (aacc a (n, t) <= length (l_log el))%nat;
  i_acked v t p : acked a v t p -> p `prefix_of` alog a v \/ lost a t (aterm a v) p;
  i_voted v t' c cl t p : avote a (v, t') = Some c -> acand a (c, t') = Some cl ->
    t < t' -> acked a v t p -> p `prefix_of` cl \/ lost a t t' p;
  i_elected t' el v t p : alead a t' = Some el -> v ∈ l_voters el ->
    t < t' -> acked a v t p -> p `prefix_of` l_init el \/ lost a t (t' - 1) p;
  i_commit n : (acommit a n <= length (alog a n))%nat /\
    committed a (aterm a n) (take (acommit a n) (alog a n))
}.

(** ** Stable facts *)

(** What an execution never takes back. *)
Record ale a a' : Prop := {
  ale_term n : aterm a n <= aterm a' n;
  ale_vote n t c : avote a (n, t) = Some c -> avote a' (n, t) = Some c;
  ale_cand c t cl : acand a (c, t) = Some cl -> acand a' (c, t) = Some cl;
  ale_lead t el : alead a t = Some el -> exists el', alead a' t = Some el' /\
    l_id el' = l_id el /\ l_init el' = l_init el /\ l_voters el' = l_voters el /\
    l_log el `prefix_of` l_log el';
  ale_acc n t : (aacc a (n, t) <= aacc a' (n, t))%nat
}.

#[export] Instance ale_preorder : PreOrder ale.
Proof.
  split.
  - intros a. split; eauto; [intros; lia|].
    intros t el Hel. by exists el.
  - intros a b c [] []. split; eauto.
    + intros n. etrans; eauto.
    + intros t el Hel.
      destruct (ale_lead0 _ _ Hel) as (el1 & H1 & Hi1 & Hn1 & Hv1 & Hp1).
      destruct (ale_lead1 _ _ H1) as (el2 & H2 & Hi2 & Hn2 & Hv2 & Hp2).
      exists el2. repeat split; try congruence. etrans; eauto.
    + intros n t. etrans; eauto.
Qed.

Lemma wf_mono a a' l : ale a a' -> wf a l -> wf a' l.
Proof.
  intros Hle (H0 & Hs & Hl). split; [done|split; [done|]].
  intros i e Hi. destruct (Hl i e Hi) as (el & Hel & Hp).
  destruct (ale_lead _ _ Hle _ _ Hel) as (el' & ? & _ & _ & _ & ?).
  exists el'. split; [done|]. by etrans.
Qed.

Lemma committed_mono a a' T T' x :
  ale a a' -> T <= T' -> committed a T x -> committed a' T' x.
Proof.
  intros Hle HT [|(t & el & Q & p & e & Ht & Hel & HQ & Hp & He & Hx & Hacc)]; [by left|right].
  destruct (ale_lead _ _ Hle _ _ Hel) as (el' & ? & _ & _ & _ & ?).
  exists t, el', Q, p, e. split_and!; eauto; [lia|by etrans|].
  intros q Hq. pose proof (ale_acc _ _ Hle q t). specialize (Hacc q Hq). lia.
Qed.

Lemma committed_prefix a T x y : x `prefix_of` y -> committed a T y -> committed a T x.
Proof.
  intros Hxy [|(t & el & Q & p & e & Ht & Hel & HQ & Hp & He & Hx & Hacc)];
    [left; by etrans|right].
  exists t, el, Q, p, e. split_and!; eauto. by etrans.
Qed.

Lemma lost_mono a a' t t1 t2 p : ale a a' -> t1 <= t2 -> lost a t t1 p -> lost a' t t2 p.
Proof.
  intros Hle Ht (t'' & el & Hr & Hel & Hn).
  destruct (ale_lead _ _ Hle _ _ Hel) as (el' & ? & _ & Hi & _ & _).
  exists t'', el'. repeat split; try lia; [done|]. by rewrite Hi.
Qed.

(** ** The steps are monotone *)

Lemma astep_ale a a' : inv a -> astep a a' -> ale a a'.
Proof.
  intros I H. case_step H; split; simpl; try (intros; lia); eauto;
    try (by intros t1 el1 ?; exists el1).
  - intros m. kcase n0 m; lia.
  - intros m. kcase n0 m; lia.
  - intros m t1 c1 H1. kcase (n0, t0) (m, t1); eauto. apply (i_vote _ I) in H1. lia.
  - intros c1 t1 cl1 H1. kcase (n0, t0) (c1, t1); eauto. apply (i_cand _ I) in H1. lia.
  - intros m t1 c1 H1. kcase (v0, t0) (m, t1); eauto.
  - intros t1 el1 H1. kcase t0 t1. by exists el1.
  - intros m t1. kcase (c0, t0) (m, t1); [|lia].
    destruct (decide (0 < aacc a (m, aterm a m))%nat) as [Hp|]; [|lia].
    apply (i_acc _ I) in Hp as (_ & el1 & ? & _). congruence.
  - intros t1 el1 H1. kcase t0 t1; [|by exists el1].
    eexists; split; [done|]. split_and!; try done.
    simpl. rewrite Hlog0. by apply prefix_app_r.
  - intros m t1. kcase (c0, t0) (m, t1); [|lia].
    destruct (decide (0 < aacc a (l_id el0, aterm a (l_id el0)))%nat) as [Hp|]; [|lia].
    apply (i_acc _ I) in Hp as (_ & el' & ? & Hle).
    assert (el' = el0) as -> by congruence. rewrite <- Hlog0 in Hle. lia.
  - intros m t1. kcase (n0, t0) (m, t1); lia.
Qed.

(** Where the elections of the next state come from. *)
Lemma lead_inv a a' t el' :
  astep a a' -> alead a' t = Some el' ->
  (exists el, alead a t = Some el /\ l_id el' = l_id el /\ l_init el' = l_init el /\
     l_voters el' = l_voters el) \/
  (alead a t = None /\ acand a (l_id el', t) = Some (l_init el') /\
   majority ids (l_voters el') /\
   (forall v, v ∈ l_voters el' -> avote a (v, t) = Some (l_id el'))).
Proof.
  intros H Hl'. case_step H; try (by left; exists el').
  - kcase t0 t; [|by left; exists el']. by right.
  - kcase t0 t; [|by left; exists el']. by left; exists el0.
Qed.

Lemma acked_pos a v t p : acked a v t p -> (0 < aacc a (v, t))%nat.
Proof.
  intros (el & _ & Hp & q & e & -> & _). apply prefix_length in Hp.
  rewrite length_app, length_take in Hp. simpl in Hp. lia.
Qed.

Lemma prefix_cmp l p x big :
  p `prefix_of` l -> p `prefix_of` big -> x `prefix_of` big -> ~ x `prefix_of` l ->
  p `prefix_of` x.
Proof.
  intros Hl Hp Hx Hn. destruct (prefix_weak_total p x big Hp Hx) as [|H]; [done|].
  destruct Hn. by etrans.
Qed.

(** Growing the log of a leader does not change what the others acknowledged. *)
Lemma acked_grow a v t el ext :
  inv a -> alead a t = Some el ->
  take (aacc a (v, t)) (l_log el ++ ext) = take (aacc a (v, t)) (l_log el).
Proof.
  intros I Hel. destruct (decide (0 < aacc a (v, t))%nat) as [Hpos|Hz].
  - apply (i_acc _ I) in Hpos as (_ & el2 & ? & Hle).
    assert (el2 = el) as -> by congruence. by rewrite take_app_le.
  - by replace (aacc a (v, t)) with 0%nat by lia.
Qed.

(** A new acknowledgement is made in the node's current term, and the node
    holds what it acknowledges. *)
Lemma acked_new a a' v t p :
  inv a -> astep a a' -> acked a' v t p ->
  acked a v t p \/ (t = aterm a v /\ aterm a' v = aterm a v /\ p `prefix_of` alog a' v).
Proof.
  intros I H Hack. case_step H; try (by left).
  - destruct Hack as (el & Hel & Hp & Hend); simpl in *.
    destruct (decide (t0 = t)) as [<-|Hne].
    + exfalso. fn_upd. simplify_eq. destruct Hend as (q & e & -> & He).
      assert (He' : e ∈ alog a c0).
      { apply (elem_of_prefix (q ++ [e])); [set_solver|].
        etrans; [exact Hp|]. apply prefix_take. }
      apply (i_cand _ I) in Hc0 as (_ & _ & Hc0). specialize (Hc0 e He'). lia.
    + fn_upd. rewrite fn_lookup_insert_ne in Hp by congruence. left. by exists el.
  - destruct Hack as (el' & Hel & Hp & Hend); simpl in *.
    destruct (decide (t0 = t)) as [<-|Hne].
    + fn_upd. simplify_eq. simpl in Hp. destruct (decide (l_id el0 = v)) as [<-|Hne].
      * right. fn_upd. split_and!; [done|done|]. etrans; [exact Hp|]. apply prefix_take.
      * rewrite fn_lookup_insert_ne in Hp by congruence. left.
        exists el0. split_and!; [done| |done]. by rewrite Hlog0, acked_grow in Hp.
    + fn_upd. rewrite fn_lookup_insert_ne in Hp by congruence. left. by exists el'.
  - destruct Hack as (el' & Hel & Hp & Hend); simpl in *.
    destruct (decide ((n0, t0) = (v, t))) as [[= -> <-]|Hne].
    + assert (el' = el0) as -> by congruence. fn_upd.
      assert (Hpl : p `prefix_of` l_log el0) by (etrans; [exact Hp|apply prefix_take]).
      destruct (decide (length p <= aacc a (v, t0))%nat) as [Hle|Hgt].
      * left. exists el0. split_and!; [done|by apply prefix_of_take|done].
      * right. split_and!; [done|done|].
        assert (Hpx : p `prefix_of` x0).
        { apply (prefix_le _ _ (l_log el0)); [done|done|].
          apply prefix_length in Hp. rewrite length_take in Hp. lia. }
        unfold merge. dcase; [by etrans|done].
    + rewrite fn_lookup_insert_ne in Hp by done. left. by exists el'.
Qed.

(** A node gives up an acknowledged prefix only for a leader that lost it. *)
Lemma log_keeps a a' v t p :
  inv a -> astep a a' -> acked a v t p -> p `prefix_of` alog a v ->
  p `prefix_of` alog a' v \/ lost a' t (aterm a' v) p.
Proof.
  intros I H Hack Hp. pose proof (acked_pos _ _ _ _ Hack) as Hpos.
  apply (i_acc _ I) in Hpos as (Hle & _). destruct Hack as (elt & Helt & Hpt & _).
  assert (Hpt' : p `prefix_of` l_log elt) by (etrans; [exact Hpt|apply prefix_take]).
  assert (Hcase : forall el, alead a (aterm a v) = Some el ->
    p `prefix_of` l_log el \/ lost a t (aterm a v) p).
  { intros el Hel. destruct (decide (t = aterm a v)) as [->|Hne]; [left; congruence|].
    destruct (decide (p `prefix_of` l_init el)) as [Hi|Hi].
    - left. etrans; [exact Hi|]. by eapply (i_lead _ I).
    - right. exists (aterm a v), el. split_and!; try done; lia. }
  case_step H; try (by left).
  - left. kcase c0 v; [|done]. by apply prefix_app_r.
  - kcase n0 v; [|by left]. unfold merge. dcase; [by left|].
    destruct (Hcase _ Hl0) as [?|?]; [left|by right]. by apply (prefix_cmp (alog a v) _ _ (l_log el0)).
  - kcase n0 v; [|by left].
    destruct (Hcase _ Hl0) as [?|?]; [left|by right]. apply Hpy0; [done|]. by apply (prefix_cmp (alog a v) _ _ (l_log el0)).
Qed.

(** ** Safety of a state that satisfies the invariant *)

Lemma wf_prefix a l x : wf a l -> x `prefix_of` l -> x <> [] -> wf a x.
Proof.
  intros (H0 & Hs & Hl) Hp Hne. split; [|split].
  - destruct x as [|y x]; [done|].
    pose proof (prefix_lookup _ _ 0%nat y Hp eq_refl). by simplify_eq.
  - intros i j e1 e2 Hij H1 H2. eapply Hs; eauto using prefix_lookup.
  - intros i e Hi. destruct (Hl i e) as (el & Hel & Hpl); [by eapply prefix_lookup|].
    exists el. split; [done|]. apply lookup_lt_Some in Hi as Hlt.
    rewrite (prefix_take_eq x l _ Hp) in Hpl by lia. done.
Qed.

(** The part of a log up to an entry of term [t] comes from the leader of [t]. *)
Lemma wf_lookup a l i e :
  wf a l -> l !! i = Some e -> 0 < Term e ->
  exists el, alead a (Term e) = Some el /\ take (S i) l `prefix_of` l_log el.
Proof.
  intros (H0 & _ & Hl) Hi Ht. destruct i; [|by apply Hl].
  rewrite H0 in Hi. simplify_eq. simpl in Ht. lia.
Qed.

(** Log matching: the same term at the same index means the same log up to it. *)
Lemma wf_agree a l k i e f :
  wf a l -> wf a k -> l !! i = Some e -> k !! i = Some f -> Term e = Term f ->
  take (S i) l = take (S i) k.
Proof.
  intros Hl Hk He Hf Hef. destruct i as [|i].
  - destruct Hl as (Hl & _), Hk as (Hk & _).
    destruct l, k; simplify_eq/=. done.
  - destruct Hl as (_ & _ & Hl), Hk as (_ & _ & Hk).
    destruct (Hl _ _ He) as (el & Hel & Hpl), (Hk _ _ Hf) as (el' & Hel' & Hpk).
    rewrite Hef in Hel. simplify_eq. apply prefix_take_iff in Hpl, Hpk.
    apply lookup_lt_Some in He, Hf. rewrite length_take in Hpl, Hpk.
    rewrite min_l in Hpl, Hpk by lia. congruence.
Qed.

Lemma last_term_spec l e : last l = Some e -> last_term l = Term e.
Proof. unfold last_term. by intros ->. Qed.

(** A log that ends in term [t > 0] is a prefix of the log of [t]'s leader. *)
Lemma wf_last a l :
  wf a l -> 0 < last_term l ->
  exists el, alead a (last_term l) = Some el /\ l `prefix_of` l_log el.
Proof.
  intros Hl Ht. destruct (last l) as [e|] eqn:E.
  - rewrite (last_term_spec _ _ E) in *. apply last_lookup_length in E as E'.
    destruct (wf_lookup a l _ e Hl E' Ht) as (el & Hel & Hp). exists el. split; [done|].
    destruct l as [|x l]; [done|]. simpl in Hp. rewrite Nat.sub_0_r in Hp.
    by rewrite firstn_all in Hp.
  - unfold last_term in Ht. rewrite E in Ht. simpl in Ht. lia.
Qed.

Lemma sorted_last l i e : sorted_terms l -> l !! i = Some e -> Term e <= last_term l.
Proof.
  intros Hs Hi. destruct (last l) as [f|] eqn:E.
  - rewrite (last_term_spec _ _ E). apply last_lookup_length in E.
    apply lookup_lt_Some in Hi as Hlt. eapply (Hs i (length l - 1)%nat); eauto. lia.
  - apply last_None in E. by subst.
Qed.

Lemma ends_in_last t p : ends_in t p -> last_term p = t.
Proof. intros (q & e & -> & <-). unfold last_term. by rewrite last_snoc. Qed.

(** The vote comparison carries acknowledged prefixes over to the candidate. *)
Lemma up_to_date_keeps a cl l t t' p :
  inv a -> wf a l -> wf a cl -> (forall e, e ∈ cl -> Term e < t') ->
  up_to_date cl l -> 0 < t -> ends_in t p -> p `prefix_of` l ->
  p `prefix_of` cl \/ lost a t t' p.
Proof.
  intros I Hl Hcl Hlt Hup Ht Hend Hp. pose proof Hend as (q & e & -> & He).
  assert (Hle : t <= last_term l).
  { rewrite <- He. eapply (sorted_last _ (length q)); [apply Hl|].
    eapply prefix_lookup; [exact Hp|]. by rewrite lookup_app_r, Nat.sub_diag by lia. }
  assert (Hlc : last_term l <= last_term cl) by (destruct Hup; lia).
  destruct (wf_last a cl Hcl ltac:(lia)) as (elc & Helc & Hpc).
  assert (Hct : last_term cl < t').
  { destruct (last cl) as [f|] eqn:E.
    - rewrite (last_term_spec _ _ E). apply Hlt. by apply last_Some_elem_of.
    - unfold last_term in Hlc at 2. rewrite E in Hlc. simpl in Hlc. lia. }
  destruct Hup as [Hup|[Heq Hlen]].
  - destruct (decide (q ++ [e] `prefix_of` l_init elc)) as [Hi|Hi].
    + left. assert (Hpl : q ++ [e] `prefix_of` l_log elc).
      { etrans; [exact Hi|]. by eapply (i_lead _ I). }
      destruct (prefix_weak_total _ _ _ Hpl Hpc) as [|Hbad]; [done|]. exfalso.
      destruct (last cl) as [f|] eqn:E;
        [|unfold last_term in Hup at 2; rewrite E in Hup; simpl in Hup; lia].
      rewrite (last_term_spec _ _ E) in *.
      apply last_lookup_length in E. eapply prefix_lookup in E; [|exact Hbad].
      assert (Hs : sorted_terms (q ++ [e])) by (eapply (wf_prefix a l); eauto; by destruct q).
      apply (sorted_last _ _ _ Hs) in E. rewrite (ends_in_last _ _ Hend) in E. lia.
    + right. exists (last_term cl), elc. split_and!; try done; lia.
  - left. destruct (wf_last a l Hl ltac:(lia)) as (ell & Hell & Hpl).
    rewrite Heq in Helc. simplify_eq. etrans; [exact Hp|]. by eapply prefix_le.
Qed.

(** Election safety. *)
Lemma leads_unique a t el c V :
  inv a -> alead a t = Some el -> majority ids V ->
  (forall v, v ∈ V -> avote a (v, t) = Some c) -> l_id el = c.
Proof.
  intros I Hel HV Hvs. destruct (i_lead _ I _ _ Hel) as (_ & _ & _ & Hm & Hv).
  destruct (majority_intersect _ _ _ HV Hm) as (v & Hv1 & Hv2 & _).
  specialize (Hvs v Hv1). specialize (Hv v Hv2). congruence.
Qed.

(** Leader completeness: what is committed in a term is in the log of every
    later leader, from its election on. *)
Lemma leader_completeness a t el Q p e :
  inv a -> alead a t = Some el -> majority ids Q ->
  p ++ [e] `prefix_of` l_log el -> Term e = t ->
  (forall q, q ∈ Q -> (length p < aacc a (q, t))%nat) ->
  forall t' el', t < t' -> alead a t' = Some el' -> p ++ [e] `prefix_of` l_init el'.
Proof.
  intros I Hel HQ Hp He Hacc t'.
  induction t' as [t' IH] using (well_founded_induction (Z.lt_wf t)).
  intros el' Ht' Hel'.
  destruct (i_lead _ I _ _ Hel') as (_ & _ & _ & HV & _).
  destruct (majority_intersect _ _ _ HQ HV) as (v & HvQ & HvV & _).
  destruct (i_elected _ I t' el' v t (p ++ [e])) as [|(t2 & el2 & Hr & Hel2 & Hn)]; auto.
  - exists el. split_and!; [done| |by exists p, e].
    apply prefix_of_take; [done|]. specialize (Hacc v HvQ).
    rewrite length_app; simpl. lia.
  - destruct Hn. apply (IH t2); auto; lia.
Qed.

(** A committed prefix is in the log of every leader that is not older. *)
Lemma committed_in_lead a T x t el :
  inv a -> committed a T x -> T <= t -> alead a t = Some el -> x `prefix_of` l_log el.
Proof.
  intros I Hc HT Hel. destruct (i_lead _ I _ _ Hel) as (_ & Hil & Hwf & _).
  destruct Hc as [Hx|(t1 & el1 & Q & p & e & Ht & Hel1 & HQ & Hp & He & Hx & Hacc)].
  - etrans; [exact Hx|]. destruct Hwf as (H0 & _).
    destruct (l_log el) as [|e l]; simplify_eq/=. by exists l.
  - etrans; [exact Hx|]. destruct (decide (t1 = t)) as [->|Hne].
    + by simplify_eq.
    + etrans; [|exact Hil].
      apply (leader_completeness a t1 el1 Q p e I Hel1 HQ Hp He Hacc t el); [lia|done].
Qed.

(** State machine safety: committed prefixes never diverge. *)
Lemma committed_comparable a T1 T2 x y :
  inv a -> committed a T1 x -> committed a T2 y -> x `prefix_of` y \/ y `prefix_of` x.
Proof.
  intros I Hx Hy.
  destruct Hx as [Hx|(t1 & el1 & Q1 & p1 & e1 & Ht1 & Hel1 & HQ1 & Hp1 & He1 & Hx & Ha1)];
  destruct Hy as [Hy|(t2 & el2 & Q2 & p2 & e2 & Ht2 & Hel2 & HQ2 & Hp2 & He2 & Hy & Ha2)].
  - by eapply prefix_weak_total.
  - apply (prefix_weak_total _ _ (l_log el2)); [|by etrans].
    apply (committed_in_lead a t2 x t2 el2 I); [by left|lia|done].
  - apply (prefix_weak_total _ _ (l_log el1)); [by etrans|].
    apply (committed_in_lead a t1 y t1 el1 I); [by left|lia|done].
  - destruct (Z.le_gt_cases t1 t2).
    + apply (prefix_weak_total _ _ (l_log el2)); [|by etrans].
      apply (committed_in_lead a t1 x t2 el2 I); [|lia|done].
      right. exists t1, el1, Q1, p1, e1. split_and!; auto; lia.
    + apply (prefix_weak_total _ _ (l_log el1)); [by etrans|].
      apply (committed_in_lead a t2 y t1 el1 I); [|lia|done].
      right. exists t2, el2, Q2, p2, e2. split_and!; auto; lia.
Qed.

End protocol.
