(* ===== verification/RaftSpecInv.v ===== *)
(** * The abstract protocol preserves its invariant

    One lemma per clause of [inv] that a step can endanger, then
    [astep_inv] and [areach_inv] (every state reachable from [ainit]). *)

From S2P Require Import Prelude Wal RaftSpec.

Section preservation.
Context (ids : list NodeID).
Implicit Types (a : astate) (l x : list LogEntry) (t : Z) (n v c : NodeID).

Abbreviation inv := (inv ids).
Abbreviation astep := (astep ids).

(** ** Logs *)

Lemma lead_log_term a t el e : inv a -> alead a t = Some el -> e ∈ l_log el -> Term e <= t.
Proof.
  intros I Hel [i Hi]%list_elem_of_lookup. by eapply (i_leadterm _ _ I).
Qed.

Lemma lead_wf a t el : inv a -> alead a t = Some el -> wf a (l_log el).
Proof. intros I Hel. by eapply (i_lead _ _ I). Qed.

Lemma wf_nonempty a l : wf a l -> l <> [].
Proof. intros (H0 & _) ->. done. Qed.

Lemma wf_head a l : wf a l -> [sentinel 0] `prefix_of` l.
Proof.
  intros (H0 & _). destruct l as [|y l]; simplify_eq/=. by exists l.
Qed.

(** The log of a leader that appends an entry of its own term. *)
Lemma wf_snoc a t el e :
  inv a -> alead a t = Some el -> Term e = t ->
  forall a', ale a a' ->
  (exists el', alead a' t = Some el' /\ l_log el ++ [e] `prefix_of` l_log el') ->
  wf a' (l_log el ++ [e]).
Proof.
  intros I Hel He a' Hle (el' & Hel' & Hp').
  destruct (i_lead _ _ I _ _ Hel) as (_ & _ & Hwf & _).
  apply (wf_mono _ _ _ Hle) in Hwf as (H0 & Hs & Hl). split; [|split].
  - by apply lookup_app_l_Some.
  - intros i j e1 e2 Hij H1 H2.
    apply lookup_app_Some in H2 as [H2|[Hlen H2]].
    + rewrite lookup_app_l in H1 by (apply lookup_lt_Some in H2; lia). by eapply Hs.
    + apply list_lookup_singleton_Some in H2 as [? <-].
      apply lookup_app_Some in H1 as [H1|[_ H1]].
      * rewrite He. eapply lead_log_term; eauto. apply list_elem_of_lookup; eauto.
      * apply list_lookup_singleton_Some in H1 as [_ <-]. lia.
  - intros i f Hi. apply lookup_app_Some in Hi as [Hi|[Hlen Hi]].
    + apply lookup_lt_Some in Hi as Hlt. rewrite take_app_le by lia. by apply Hl.
    + apply list_lookup_singleton_Some in Hi as [? <-]. rewrite He. exists el'.
      split; [done|]. rewrite firstn_all2; [done|]. rewrite length_app; simpl. lia.
Qed.

Lemma step_log a a' n :
  inv a -> astep a a' -> ale a a' -> wf a' (alog a' n).
Proof.
  intros I H Hle. pose proof (i_log _ _ I) as Hlog. case_step H;
    try (by eapply wf_mono).
  - kcase c0 n; [|by eapply wf_mono]. rewrite Hlog0.
    rewrite Hlog0 in Hle. apply (wf_snoc a _ el0 e0 I Hl0 He0 _ Hle). simpl. fn_upd. by eexists.
  - kcase n0 n; [|by eapply wf_mono]. eapply wf_mono; [done|]. unfold merge. dcase; [done|].
    eapply wf_prefix; [by eapply lead_wf|done|done].
  - kcase n0 n; [|by eapply wf_mono]. eapply wf_mono; [done|].
    assert (Hwx : wf a x0).
    { eapply wf_prefix; [by eapply lead_wf|done|]. intros ->. by apply Hnx0, prefix_nil. }
    eapply wf_prefix; [exact Hwx|done|]. intros ->.
    pose proof (Hpy0 _ (wf_head _ _ (Hlog n)) (wf_head _ _ Hwx)) as Hbad.
    by apply prefix_nil_inv in Hbad.
Qed.

Lemma step_logterm a a' n e :
  inv a -> astep a a' -> ale a a' -> e ∈ alog a' n -> Term e <= aterm a' n.
Proof.
  intros I H Hle He. pose proof (i_logterm _ _ I n e) as Hlt.
  pose proof (ale_term _ _ Hle n) as Hmono. case_step H; try (by etrans; eauto).
  - kcase c0 n; [|auto]. apply elem_of_app in He as [He|He]; [auto|].
    apply list_elem_of_singleton in He as ->. lia.
  - kcase n0 n; [|auto]. unfold merge in He. destruct (decide _); [auto|].
    eapply lead_log_term; eauto. by eapply elem_of_prefix.
  - kcase n0 n; [|auto]. eapply lead_log_term; eauto.
    eapply elem_of_prefix; [|exact Hx0]. by eapply elem_of_prefix.
Qed.

(** ** Votes, candidacies and elections *)

Lemma step_vote a a' n t c :
  inv a -> astep a a' -> ale a a' -> avote a' (n, t) = Some c ->
  t <= aterm a' n /\ is_Some (acand a' (c, t)).
Proof.
  intros I H Hle Hv. pose proof (ale_term _ _ Hle n) as Hmono.
  assert (Hold : avote a (n, t) = Some c -> t <= aterm a' n /\ is_Some (acand a' (c, t))).
  { intros Ho. apply (i_vote _ _ I) in Ho as (? & cl & Hcl). split; [lia|].
    exists cl. by eapply (ale_cand _ _ Hle). }
  case_step H; auto.
  - kcase (n0, t0) (n, t); auto. split; [fn_upd; lia|]. fn_upd. eauto.
  - kcase (v0, t0) (n, t); eauto with lia.
Qed.

Lemma step_cand a a' c t cl :
  inv a -> astep a a' -> ale a a' -> acand a' (c, t) = Some cl ->
  0 < t <= aterm a' c /\ wf a' cl /\ (forall e, e ∈ cl -> Term e < t).
Proof.
  intros I H Hle Hc. pose proof (ale_term _ _ Hle c) as Hmono.
  assert (Hold : acand a (c, t) = Some cl ->
    0 < t <= aterm a' c /\ wf a' cl /\ (forall e, e ∈ cl -> Term e < t)).
  { intros Ho. apply (i_cand _ _ I) in Ho as (? & ? & ?).
    split_and!; [lia|lia|by eapply wf_mono|done]. }
  case_step H; auto.
  kcase (n0, t0) (c, t); auto. fn_upd. pose proof (i_term _ _ I c).
  split_and!; [lia|lia| |].
  - eapply wf_mono; [done|]. apply (i_log _ _ I).
  - intros e He. apply (i_logterm _ _ I) in He. lia.
Qed.

Lemma step_lead a a' t el' :
  inv a -> astep a a' -> ale a a' -> alead a' t = Some el' ->
  acand a' (l_id el', t) = Some (l_init el') /\ l_init el' `prefix_of` l_log el' /\
  wf a' (l_log el') /\ majority ids (l_voters el') /\
  (forall v, v ∈ l_voters el' -> avote a' (v, t) = Some (l_id el')).
Proof.
  intros I H Hle Hl'.
  assert (Hold : alead a t = Some el' ->
    acand a' (l_id el', t) = Some (l_init el') /\ l_init el' `prefix_of` l_log el' /\
    wf a' (l_log el') /\ majority ids (l_voters el') /\
    (forall v, v ∈ l_voters el' -> avote a' (v, t) = Some (l_id el'))).
  { intros Ho. apply (i_lead _ _ I) in Ho as (Hc & Hp & Hw & Hm & Hv).
    split_and!; eauto using ale_cand, ale_vote, wf_mono. }
  case_step H; auto.
  - kcase t0 t; auto. simpl. split_and!; auto.
    eapply wf_mono; [done|]. apply (i_log _ _ I).
  - kcase t0 t; auto. simpl. apply (i_lead _ _ I) in Hl0 as Hold'.
    destruct Hold' as (Hc & Hp & Hw & Hm & Hv). split_and!; auto.
    + rewrite Hlog0. by apply prefix_app_r.
    + rewrite Hlog0 in *. apply (wf_snoc a _ el0 e0 I Hl0 He0 _ Hle). simpl. fn_upd. by eexists.
Qed.

Lemma step_leadterm a a' t el' i e :
  inv a -> astep a a' -> alead a' t = Some el' -> l_log el' !! i = Some e ->
  Term e <= t /\ ((length (l_init el') <= i)%nat -> Term e = t).
Proof.
  intros I H Hl' Hi. pose proof (i_leadterm _ _ I t el' i e) as Hold.
  case_step H; auto.
  - kcase t0 t; auto. simpl in *. apply (i_cand _ _ I) in Hc0 as (_ & _ & Hc0).
    split; [|intros Hlen; apply lookup_lt_Some in Hi; lia].
    apply list_elem_of_lookup_2 in Hi. specialize (Hc0 _ Hi). lia.
  - kcase t0 t; auto. simpl in *. rewrite Hlog0 in Hi.
    apply lookup_app_Some in Hi as [Hi|[_ Hi]].
    + by eapply (i_leadterm _ _ I).
    + apply list_lookup_singleton_Some in Hi as [_ <-]. lia.
Qed.

(** ** Acknowledgements *)

Lemma step_acc a a' n t :
  inv a -> astep a a' -> ale a a' -> (0 < aacc a' (n, t))%nat ->
  t <= aterm a' n /\ exists el, alead a' t = Some el /\ (aacc a' (n, t) <= length (l_log el))%nat.
Proof.
  intros I H Hle Hpos. pose proof (ale_term _ _ Hle n) as Hmono.
  assert (Hold : (0 < aacc a (n, t))%nat -> aacc a' (n, t) = aacc a (n, t) ->
    t <= aterm a' n /\ exists el, alead a' t = Some el /\
      (aacc a' (n, t) <= length (l_log el))%nat).
  { intros Ho ->. apply (i_acc _ _ I) in Ho as (? & el & Hel & Hlen). split; [lia|].
    destruct (ale_lead _ _ Hle _ _ Hel) as (el' & ? & _ & _ & _ & Hp).
    exists el'. split; [done|]. apply prefix_length in Hp. lia. }
  case_step H; auto.
  - kcase (c0, t0) (n, t); auto. fn_upd. split; [lia|]. eexists; split; [done|]. simpl. lia.
  - kcase (c0, t0) (n, t); auto. fn_upd. split; [lia|]. eexists; split; [done|].
    simpl. rewrite length_app; simpl. lia.
  - kcase (n0, t0) (n, t); auto. split; [lia|]. exists el0. split; [done|].
    apply prefix_length in Hx0.
    destruct (decide (0 < aacc a (n, aterm a n))%nat) as [Hp|]; [|lia].
    apply (i_acc _ _ I) in Hp as (_ & el2 & ? & ?). simplify_eq. lia.
Qed.

Lemma step_acked a a' v t p :
  inv a -> astep a a' -> ale a a' -> acked a' v t p ->
  p `prefix_of` alog a' v \/ lost a' t (aterm a' v) p.
Proof.
  intros I H Hle Hack.
  destruct (acked_new _ _ _ _ _ _ I H Hack) as [Ho|(_ & _ & ?)]; [|by left].
  destruct (i_acked _ _ I _ _ _ Ho) as [Hp|Hl].
  - by eapply log_keeps.
  - right. eapply lost_mono; eauto. by apply ale_term.
Qed.

(** An acknowledgement in a term below one the node has voted in is old. *)
Lemma acked_before_vote a a' v t t' c p :
  inv a -> astep a a' -> ale a a' -> avote a' (v, t') = Some c -> t < t' ->
  acked a' v t p -> acked a v t p.
Proof.
  intros I H Hle Hv Ht Hack.
  destruct (acked_new _ _ _ _ _ _ I H Hack) as [Ho|(-> & Hterm & _)]; [done|].
  apply (step_vote a a') in Hv as (? & _); auto. lia.
Qed.

Lemma acked_term_pos a v t p : inv a -> acked a v t p -> 0 < t.
Proof.
  intros I (el & Hel & _). apply (i_lead _ _ I) in Hel as (Hc & _).
  apply (i_cand _ _ I) in Hc. lia.
Qed.

Lemma step_voted a a' v t' c cl t p :
  inv a -> astep a a' -> ale a a' ->
  avote a' (v, t') = Some c -> acand a' (c, t') = Some cl -> t < t' -> acked a' v t p ->
  p `prefix_of` cl \/ lost a' t t' p.
Proof.
  intros I H Hle Hv Hc Ht Hack.
  assert (Ho : acked a v t p) by (by eapply acked_before_vote).
  enough (p `prefix_of` cl \/ lost a t t' p) as [?|?];
    [by left|right; by eapply lost_mono|].
  assert (Hold : avote a (v, t') = Some c -> p `prefix_of` cl \/ lost a t t' p).
  { intros Hvo. apply (i_vote _ _ I) in Hvo as Hx. destruct Hx as (_ & cl' & Hcl').
    apply (ale_cand _ _ Hle) in Hcl' as Hcl''. simplify_eq. by eapply (i_voted _ _ I). }
  case_step H; auto.
  - kcase (n0, t0) (v, t'); auto. fn_upd. simplify_eq.
    destruct (i_acked _ _ I _ _ _ Ho) as [?|Hl]; [by left|right].
    eapply lost_mono; [reflexivity| |done]. lia.
  - kcase (v0, t0) (v, t'); auto.
    apply (i_cand _ _ I) in Hc0 as (_ & Hwf & Hlt).
    destruct (i_acked _ _ I _ _ _ Ho) as [Hp|Hl]; [|by right].
    pose proof Ho as (_ & _ & _ & Hend).
    apply (up_to_date_keeps ids a cl0 (alog a v)); eauto using acked_term_pos.
    apply (i_log _ _ I).
Qed.

Lemma step_elected a a' t' el' v t p :
  inv a -> astep a a' -> ale a a' ->
  alead a' t' = Some el' -> v ∈ l_voters el' -> t < t' -> acked a' v t p ->
  p `prefix_of` l_init el' \/ lost a' t (t' - 1) p.
Proof.
  intros I H Hle Hl' Hv Ht Hack.
  destruct (step_lead _ _ _ _ I H Hle Hl') as (_ & _ & _ & _ & Hvs).
  assert (Ho : acked a v t p) by (eapply acked_before_vote; eauto).
  enough (p `prefix_of` l_init el' \/ lost a t (t' - 1) p) as [?|?];
    [by left|right; by eapply lost_mono|].
  destruct (lead_inv _ _ _ _ _ H Hl') as [(el & Hel & _ & -> & Hvv)|(Hno & Hc & _ & Hvo)].
  - rewrite Hvv in Hv. by eapply (i_elected _ _ I).
  - destruct (i_voted _ _ I _ _ _ _ _ _ (Hvo v Hv) Hc Ht Ho)
      as [?|(t2 & el2 & Hr & Hel2 & Hn)]; [by left|right].
    exists t2, el2. split_and!; try done; [lia|].
    destruct (decide (t2 = t')); [congruence|lia].
Qed.

(** ** Commitment *)

(** An update of the log that goes through a prefix of the leader's log keeps
    what is committed. *)
Lemma committed_survives a n el x k :
  inv a -> alead a (aterm a n) = Some el -> x `prefix_of` l_log el ->
  ~ x `prefix_of` alog a n -> committed ids a (aterm a n) (take k (alog a n)) ->
  take k (alog a n) `prefix_of` x.
Proof.
  intros I Hel Hx Hnx Hc. apply (prefix_cmp (alog a n) _ _ (l_log el)); [apply prefix_take| |done|done].
  by eapply committed_in_lead.
Qed.

Lemma prefix_take_same l k m : take m l `prefix_of` k -> (m <= length l)%nat ->
  (m <= length k)%nat /\ take m k = take m l.
Proof.
  intros Hp Hm. apply prefix_length in Hp as Hlen. rewrite length_take in Hlen.
  split; [lia|]. apply prefix_take_iff in Hp. rewrite length_take, min_l in Hp by lia. done.
Qed.

Lemma step_commit a a' n :
  inv a -> astep a a' -> ale a a' ->
  (acommit a' n <= length (alog a' n))%nat /\
  committed ids a' (aterm a' n) (take (acommit a' n) (alog a' n)).
Proof.
  intros I H Hle. destruct (i_commit _ _ I n) as (Hlen & Hc).
  pose proof (ale_term _ _ Hle n) as Hmono.
  assert (Hc' : committed ids a' (aterm a' n) (take (acommit a n) (alog a n)))
    by (by eapply committed_mono).
  case_step H; auto.
  - kcase c0 n; auto. rewrite length_app. split; [simpl; lia|]. by rewrite take_app_le.
  - kcase n0 n; auto. unfold merge. dcase; auto.
    destruct (prefix_take_same (alog a n) x0 (acommit a n)) as (? & ->);
      [by eapply committed_survives|done|auto].
  - kcase n0 n; auto.
    destruct (prefix_take_same (alog a n) y0 (acommit a n)) as (? & ->); [|done|auto].
    apply Hpy0; [apply prefix_take|]. by eapply committed_survives.
  - kcase n0 n; eauto using committed_mono.
Qed.

(** ** The invariant *)

Lemma astep_inv a a' : inv a -> astep a a' -> inv a'.
Proof.
  intros I H. pose proof (astep_ale _ _ _ I H) as Hle. split.
  - intros n. pose proof (i_term _ _ I n). pose proof (ale_term _ _ Hle n). lia.
  - intros n. by eapply step_log.
  - intros n e. by eapply step_logterm.
  - intros n t c. by eapply step_vote.
  - intros c t cl. by eapply step_cand.
  - intros t el. by eapply step_lead.
  - intros t el i e. by eapply step_leadterm.
  - intros n t. by eapply step_acc.
  - intros v t p. by eapply step_acked.
  - intros v t' c cl t p. by eapply step_voted.
  - intros t' el v t p. by eapply step_elected.
  - intros n. by eapply step_commit.
Qed.

Lemma asteps_inv a a' : inv a -> rtc astep a a' -> inv a' /\ ale a a'.
Proof.
  intros I H. induction H as [a|a b c H _ IH]; [by split|].
  destruct (IH (astep_inv _ _ I H)) as (? & ?). split; [done|].
  etrans; [by eapply astep_ale|done].
Qed.

(** ** Initial state *)

Definition ainit : astate :=
  mkA (fun _ => 0) (fun _ => [sentinel 0]) (fun _ => 1%nat) (fun _ => None) (fun _ => None)
    (fun _ => None) (fun _ => 0%nat).

Lemma ainit_inv : inv ainit.
Proof.
  split; simpl; try done; try lia.
  - intros _. split; [done|]. split; [|done].
    intros [|i] [|j] e1 e2 _ H1 H2; simplify_eq/=. lia.
  - intros _ e He. apply list_elem_of_singleton in He as ->. simpl. lia.
  - by intros v t p (el & ? & _).
  - intros _. split; [lia|]. by left.
Qed.

End preservation.
