(* ===== verification/RaftNet.v ===== *)
(** * A cluster of Raft nodes

    Nodes of [Raft], each over a [Journal], exchange packets.  The network
    delays, reorders and loses packets (labrpc and gRPC deliver a call at most
    once); a node crashes between any two durable writes and restarts from what
    its journal held at that moment.

    [exec] runs one section of code of one node: a timer, a client or service
    call, or an incoming packet.  It yields the packets the node sends and the
    [ApplyMsg]s it delivers to the service.  [cstep] interleaves them. *)

From S2P Require Import Prelude Wal Raft.

(** A request carries caller and callee; a reply also carries the request,
    since the goroutine that waits for it still has the arguments. *)
Inductive packet :=
| ReqVote (src dst : NodeID) (args : RequestVoteArgs)
| RepVote (src dst : NodeID) (args : RequestVoteArgs) (reply : RequestVoteReply)
| ReqAE (src dst : NodeID) (args : AppendEntries)
| RepAE (src dst : NodeID) (args : AppendEntries) (reply : AppendEntriesReply)
| ReqTN (src dst : NodeID) (args : TimeoutNowArgs)
| RepTN (src dst : NodeID) (reply : TimeoutNowReply).

Definition dest (p : packet) : NodeID :=
  match p with
  | ReqVote _ d _ | RepVote _ d _ _ | ReqAE _ d _ | RepAE _ d _ _ | ReqTN _ d _
  | RepTN _ d _ => d
  end.

Inductive event :=
| ETimeout (generation : Z)
| EHeartbeat
| EStart (command : list byte)
| EApply
| ESnapshot (index : Z) (snap : list byte)
| ETransfer
| EKill
| ERecv (p : packet).

Section node.
Context {W : Type} `{!WAL W}.
Implicit Types rf : Raft W.

Definition voteRequests rf (round : electionRound) : list packet :=
  (fun '(id, args) => ReqVote (me rf) id args) <$> sendRequestVotes rf round.

Definition roundRequests rf (round : option electionRound) : list packet :=
  match round with Some r => voteRequests rf r | None => [] end.

Definition aeRequests rf (reqs : list (NodeID * AppendEntries)) : list packet :=
  (fun '(id, args) => ReqAE (me rf) id args) <$> reqs.

(** Dispatch of an incoming packet. *)
Definition recv rf (p : packet) : option (Raft W * list packet) :=
  match p with
  | ReqVote src dst args =>
      '(reply, rf) ← RequestVote rf args; Some (rf, [RepVote dst src args reply])
  | RepVote _ _ args reply => rf ← onVoteReply rf args reply; Some (rf, [])
  | ReqAE src dst args =>
      '(reply, rf) ← AppendEntriesHandler rf args; Some (rf, [RepAE dst src args reply])
  | RepAE src _ args reply => rf ← onAppendReply rf src args reply; Some (rf, [])
  | ReqTN src dst args =>
      '(reply, round, rf) ← TimeoutNow rf args;
      Some (rf, RepTN dst src reply :: roundRequests rf round)
  | RepTN _ _ reply => '(_, rf) ← transferEnd rf (Replied reply); Some (rf, [])
  end.

Definition exec rf (ev : event) : option (Raft W * list packet * list ApplyMsg) :=
  match ev with
  | ETimeout g => '(round, rf) ← tickerFire rf g; Some (rf, roundRequests rf round, [])
  | EHeartbeat =>
      reqs ← startHeartbeat rf;
      Some (rf, aeRequests rf reqs, [])
  | EStart command => '(_, _, _, rf) ← Start rf (Some command); Some (rf, [], [])
  | EApply => '(msgs, rf) ← sendApplyMsg rf; Some (rf, [], msgs)
  | ESnapshot index snap => rf ← Snapshot rf index (Some snap); Some (rf, [], [])
  | ETransfer =>
      r ← transferBegin rf false;
      Some (rf, match r with
                | inl _ => []
                | inr (target, args) => [ReqTN (me rf) target args]
                end, [])
  | EKill => Some (Kill rf, [], [])
  | ERecv p => '(rf, ps) ← recv rf p; Some (rf, ps, [])
  end.

(** What the environment promises: a service snapshots only what it has been
    given, its snapshots are not empty, and packets reach their destination. *)
Definition ev_ok rf (ev : event) : Prop :=
  match ev with
  | ESnapshot index snap => index <= appliedIndex rf /\ snap <> []
  | ERecv p => dest p = me rf
  | _ => True
  end.

End node.

(** ** The cluster *)

Record cluster := mkC {
  c_node : NodeID -> Raft Journal;
  c_net : list packet;
  (* everything the nodes have handed to their services *)
  c_out : list (NodeID * ApplyMsg);
  (* everything the services have handed to [Snapshot] *)
  c_snaps : list (Z * list byte)
}.

(** The network before and after the event takes its packet. *)
Definition takes (ev : event) (net net' : list packet) : Prop :=
  match ev with ERecv p => net ≡ₚ p :: net' | _ => net' = net end.

Definition new_snaps (ev : event) : list (Z * list byte) :=
  match ev with ESnapshot i b => [(i, b)] | _ => [] end.

Section cluster.
Context (ids : list NodeID).

Inductive cstep : cluster -> cluster -> Prop :=
| C_exec c n ev net rf ps ms :
    n ∈ ids -> ev_ok (c_node c n) ev -> takes ev (c_net c) net ->
    exec (c_node c n) ev = Some (rf, ps, ms) ->
    cstep c (mkC (<[n := rf]> (c_node c)) (ps ++ net) (((fun m => (n, m)) <$> ms) ++ c_out c)
               (new_snaps ev ++ c_snaps c))
(* The process dies while it handles [ev]; the disk holds one of the states it
   went through.  With [EKill] this is a crash of an idle node. *)
| C_crash c n ev net rf ps ms (w : Journal) rf' :
    n ∈ ids -> ev_ok (c_node c n) ev -> takes ev (c_net c) net ->
    exec (c_node c n) ev = Some (rf, ps, ms) ->
    wal (c_node c n) `suffix_of` w -> w `suffix_of` wal rf ->
    MakeWithWAL n ids w = Some rf' ->
    cstep c (mkC (<[n := rf']> (c_node c)) net (c_out c) (new_snaps ev ++ c_snaps c))
| C_drop c p net :
    c_net c ≡ₚ p :: net -> cstep c (mkC (c_node c) net (c_out c) (c_snaps c)).

(** All disks fresh, nothing sent. *)
Definition cinit (c : cluster) : Prop :=
  (forall n, n ∈ ids -> MakeWithWAL n ids [] = Some (c_node c n)) /\
  c_net c = [] /\ c_out c = [] /\ c_snaps c = [].

Definition creach (c : cluster) : Prop := exists c0, cinit c0 /\ rtc cstep c0 c.

End cluster.
