(* ===== verification/RaftRel.v ===== *)
(** * How a node represents its abstract state

    - [rep]: the in-memory log is the abstract log cut at the snapshot, with a
      sentinel that keeps the term of the last covered entry;
    - [disk_ok]: a durable state represents the abstract state of its node;
    - [node_ok]: so does a running node, volatile state included;
    - [packet_ok]: what a packet in flight says is true, and stays true;
    - [sim_to]: a section of code of node [n] refines abstract steps of [n],
      and so does every prefix of its durable writes. *)

From S2P Require Import Prelude Wal Raft RaftSpec RaftSpecInv RaftNet.

(** ** Logs cut at a snapshot *)

Definition rep (l : list LogEntry) (s : Z) : list LogEntry :=
  match drop (Z.to_nat s) l with e :: r => sentinel (Term e) :: r | [] => [] end.

(** The log up to the absolute index [i], included. *)
Definition pre (l : list LogEntry) (i : Z) : list LogEntry := take (S (Z.to_nat i)) l.

Section rep.
Implicit Types (l k : list LogEntry) (s i : Z).

Lemma rep_cons l s e :
  0 <= s -> l @[s] = Some e -> rep l s = sentinel (Term e) :: drop (Z.to_nat (s + 1)) l.
Proof.
  intros Hs [_ Hl]%gidx_Some. unfold rep. rewrite (drop_S _ _ _ Hl).
  by replace (Z.to_nat (s + 1)) with (S (Z.to_nat s)) by lia.
Qed.

Lemma zlen_rep l s : 0 <= s < zlen l -> zlen (rep l s) = zlen l - s.
Proof.
  intros Hs. destruct (gidx_is_Some l s Hs) as [e He].
  rewrite (rep_cons l s e) by (done || lia). zlen_lia.
Qed.

Lemma rep_idx l s i : 0 <= s < i -> s < zlen l -> (rep l s) @[i - s] = l @[i].
Proof.
  intros Hs Hl. destruct (gidx_is_Some l s ltac:(lia)) as [e He].
  rewrite (rep_cons l s e) by (done || lia). unfold gidx.
  rewrite !decide_True by lia. replace (Z.to_nat (i - s)) with (S (Z.to_nat (i - s - 1))) by lia.
  simpl. rewrite lookup_drop. f_equal. lia.
Qed.

Lemma rep_term l s i : 0 <= s <= i -> s < zlen l -> Term <$> (rep l s) @[i - s] = Term <$> l @[i].
Proof.
  intros Hs Hl. destruct (decide (s = i)) as [->|].
  - destruct (gidx_is_Some l i ltac:(lia)) as [e He].
    rewrite He, (rep_cons l i e), Z.sub_diag by (done || lia). done.
  - by rewrite rep_idx by lia.
Qed.

Lemma rep_app l k s : 0 <= s < zlen l -> rep (l ++ k) s = rep l s ++ k.
Proof.
  intros Hs. unfold rep. rewrite drop_app_le by zlen_lia.
  destruct (drop (Z.to_nat s) l) eqn:E; [|done].
  apply (f_equal length) in E. rewrite length_drop in E. simpl in E. zlen_lia.
Qed.

Lemma rep_take l s i :
  0 <= s < i -> i <= zlen l -> take (Z.to_nat (i - s)) (rep l s) = rep (take (Z.to_nat i) l) s.
Proof.
  intros Hs Hi. unfold rep. rewrite <- (take_drop (Z.to_nat i) l) at 1.
  rewrite drop_app_le by zlen_lia.
  destruct (drop (Z.to_nat s) (take (Z.to_nat i) l)) as [|e r] eqn:E;
    apply (f_equal length) in E; rewrite length_drop, length_take in E; simpl in E.
  - zlen_lia.
  - assert (Z.to_nat (i - s) = S (length r)) as -> by zlen_lia. simpl.
    by rewrite take_app_length.
Qed.

(** Moving the snapshot from [s] to [i]. *)
Lemma rep_cut l s i e :
  0 <= s <= i -> Term <$> l @[i] = Some (Term e) ->
  sentinel (Term e) :: drop (Z.to_nat (i - s + 1)) (rep l s) = rep l i.
Proof.
  intros Hs He. destruct (l @[i]) as [f|] eqn:Ef; [|done]. simplify_eq/=.
  apply gidx_lt in Ef as Hlt. destruct (gidx_is_Some l s ltac:(lia)) as [g Hg].
  rewrite (rep_cons l i f), (rep_cons l s g) by (done || lia). rewrite He. f_equal.
  replace (Z.to_nat (i - s + 1)) with (S (Z.to_nat (i - s))) by lia. simpl.
  rewrite drop_drop. f_equal. lia.
Qed.

Lemma rep_last l s : 0 <= s < zlen l -> Term <$> (rep l s) @[zlen (rep l s) - 1] = Some (last_term l).
Proof.
  intros Hs. rewrite zlen_rep by done.
  replace (zlen l - s - 1) with (zlen l - 1 - s) by lia. rewrite rep_term by lia.
  unfold last_term. rewrite last_lookup, <- Nat.sub_1_r. unfold gidx. rewrite decide_True by lia.
  replace (Z.to_nat (zlen l - 1)) with (length l - 1)%nat by zlen_lia.
  destruct (l !! (length l - 1)%nat) eqn:E; [done|].
  apply lookup_ge_None in E. zlen_lia.
Qed.

Lemma zlen_pre l i : 0 <= i < zlen l -> zlen (pre l i) = i + 1.
Proof. intros. unfold pre, zlen in *. rewrite length_take. lia. Qed.

Lemma pre_prefix l i : pre l i `prefix_of` l.
Proof. apply prefix_take. Qed.

Lemma pre_mono l i j : i <= j -> pre l i `prefix_of` pre l j.
Proof. intros. apply take_prefix_mono; [done|lia]. Qed.

Lemma pre_prefix_eq x l i : x `prefix_of` l -> 0 <= i < zlen x -> pre l i = pre x i.
Proof. intros Hp Hi. unfold pre. apply prefix_take_eq; [done|]. zlen_lia. Qed.

Lemma prefix_gidx x l i e : x `prefix_of` l -> x @[i] = Some e -> l @[i] = Some e.
Proof. rewrite !gidx_Some. intros Hp [? ?]. split; [done|]. by eapply prefix_lookup. Qed.

Lemma prefix_gidx_eq x l i : x `prefix_of` l -> 0 <= i < zlen x -> l @[i] = x @[i].
Proof.
  intros Hp Hi. destruct (gidx_is_Some x i Hi) as [e He]. rewrite He. by eapply prefix_gidx.
Qed.

End rep.

(** ** Abstract steps of one node *)

Record local (n : NodeID) (a a' : astate) : Prop := {
  lo_term m : m <> n -> aterm a' m = aterm a m;
  lo_log m : m <> n -> alog a' m = alog a m;
  lo_commit m : m <> n -> acommit a' m = acommit a m;
  lo_vote m t : m <> n -> avote a' (m, t) = avote a (m, t);
  lo_acc m t : m <> n -> aacc a' (m, t) = aacc a (m, t);
  lo_lead t el : l_id el <> n -> alead a' t = Some el <-> alead a t = Some el
}.

#[export] Instance local_preorder n : PreOrder (local n).
Proof.
  split; [by split|]. intros a b c [A1 A2 A3 A4 A5 A6] [B1 B2 B3 B4 B5 B6].
  split; intros.
  - by rewrite B1, A1.
  - by rewrite B2, A2.
  - by rewrite B3, A3.
  - by rewrite B4, A4.
  - by rewrite B5, A5.
  - by rewrite B6, A6.
Qed.

Section rel.
Context (ids : list NodeID) (S : list (Z * list byte)).
Implicit Types (a : astate) (n v : NodeID) (rf : Raft Journal).

Abbreviation inv := (inv ids).
Abbreviation astep := (astep ids).
Abbreviation committed := (committed ids).

Definition nsteps n a a' : Prop := rtc astep a a' /\ local n a a'.

#[export] Instance nsteps_preorder n : PreOrder (nsteps n).
Proof.
  split; [by split|]. intros a b c [] []. split; by etrans.
Qed.

Lemma nsteps_inv n a a' : inv a -> nsteps n a a' -> inv a' /\ ale a a'.
Proof. intros I [H _]. by apply (asteps_inv ids). Qed.

(** ** Durable and running states *)

(** A node has a snapshot exactly when its log has been cut. *)
Definition has_snap (i : Z) (snap : option (list byte)) : Prop :=
  if decide (0 < i) then exists b, snap = Some b /\ (i, b) ∈ S else snap = None.

Record disk_ok a n (st : PersistState) : Prop := {
  d_term : ps_Term st = aterm a n;
  d_vote : avote a (n, aterm a n) = if decide (ps_Vote st = "") then None else Some (ps_Vote st);
  d_logs : ps_Logs st = rep (alog a n) (ps_SnapshotIndex st);
  d_idx : 0 <= ps_SnapshotIndex st < zlen (alog a n);
  d_committed : committed a (aterm a n) (pre (alog a n) (ps_SnapshotIndex st));
  d_has_snap : has_snap (ps_SnapshotIndex st) (ps_Snapshot st)
}.

Lemma d_snap a n st :
  disk_ok a n st -> 0 < ps_SnapshotIndex st ->
  exists b, ps_Snapshot st = Some b /\ (ps_SnapshotIndex st, b) ∈ S.
Proof. intros [_ _ _ _ _ H] Hi. unfold has_snap in H. by rewrite decide_True in H. Qed.

Lemma has_snap_intro i b : 0 < i -> (i, b) ∈ S -> has_snap i (Some b).
Proof. intros Hi Hb. unfold has_snap. rewrite decide_True by done. eauto. Qed.

Definition persisted rf : PersistState :=
  mkPS (term rf) (voteFor rf) (logs rf) (snapshotIndex rf) (snapshot rf).

Record cand_ok a n rf : Prop := {
  ca_cand : acand a (n, term rf) = Some (alog a n);
  ca_vote : avote a (n, term rf) = Some n;
  ca_lead el : alead a (term rf) = Some el -> l_id el <> n
}.

Record lead_ok a n rf : Prop := {
  le_lead : exists el, alead a (term rf) = Some el /\ l_id el = n /\ l_log el = alog a n;
  le_acc : aacc a (n, term rf) = length (alog a n);
  le_match id : id ∈ ids -> 0 <= mget (matchIndex rf) id /\
    (0 < mget (matchIndex rf) id -> mget (matchIndex rf) id < Z.of_nat (aacc a (id, term rf)));
  le_next id : id ∈ ids -> 1 <= mget (nextIndex rf) id
}.

Record node_ok a n rf : Prop := {
  n_me : me rf = n;
  n_nodes : nodeIDs rf = ids;
  n_wal : jcur (wal rf) = persisted rf;
  n_disk : disk_ok a n (persisted rf);
  n_commit : Z.of_nat (acommit a n) = commitIndex rf + 1;
  n_snap : snapshotIndex rf <= commitIndex rf;
  n_applied : 0 <= appliedIndex rf <= commitIndex rf;
  n_cand : customerId rf = Candidate -> cand_ok a n rf;
  n_lead : customerId rf = Leader -> lead_ok a n rf
}.

(** Everything [node_ok] reads; the signals, the timer, [leaderId] and
    [voteCount] are not part of it. *)
Record same_core rf rf' : Prop := {
  sc_me : me rf' = me rf; sc_nodes : nodeIDs rf' = nodeIDs rf; sc_wal : wal rf' = wal rf;
  sc_persisted : persisted rf' = persisted rf;
  sc_commit : commitIndex rf' = commitIndex rf; sc_applied : appliedIndex rf' = appliedIndex rf;
  sc_role : customerId rf' = customerId rf;
  sc_match : matchIndex rf' = matchIndex rf; sc_next : nextIndex rf' = nextIndex rf
}.

Lemma node_ok_core a n rf rf' : same_core rf rf' -> node_ok a n rf -> node_ok a n rf'.
Proof.
  intros [E1 E2 E3 E4 E5 E6 E7 E8 E9] [H1 H2 H3 H4 H5 H6 H7 H8 H9].
  assert (Et : term rf' = term rf) by apply (f_equal ps_Term E4).
  assert (Es : snapshotIndex rf' = snapshotIndex rf) by apply (f_equal ps_SnapshotIndex E4).
  split; rewrite ?E1, ?E2, ?E3, ?E4, ?E5, ?E6, ?E7, ?Es; auto.
  - intros Hr. destruct (H8 Hr). split; by rewrite Et.
  - intros Hr. destruct (H9 Hr). split; by rewrite ?Et, ?E8, ?E9.
Qed.

(** ** Packets *)

Definition vreq_ok a c v (args : RequestVoteArgs) : Prop :=
  rv_CandidateId args = c /\ c <> v /\ c ∈ ids /\ v ∈ ids /\
  exists cl, acand a (c, rv_Term args) = Some cl /\
    rv_LastLogIndex args = zlen cl - 1 /\ rv_LastLogTerm args = last_term cl.

(** The prefix [x] of the leader's log that the request makes its receiver hold. *)
Definition ae_carries a (args : AppendEntries) (x : list LogEntry) : Prop :=
  match ae_Snapshot args with
  | Some b =>
      0 < ae_SnapshotIndex args /\ zlen x = ae_SnapshotIndex args + 1 /\
      Term <$> x @[ae_SnapshotIndex args] = Some (ae_SnapshotTerm args) /\
      committed a (ae_Term args) x /\ (ae_SnapshotIndex args, b) ∈ S
  | None =>
      0 <= ae_PrevLogIndex args /\
      zlen x = ae_PrevLogIndex args + 1 + zlen (ae_Entries args) /\
      ae_Entries args = drop (Z.to_nat (ae_PrevLogIndex args + 1)) x /\
      Term <$> x @[ae_PrevLogIndex args] = Some (ae_PrevLogTerm args) /\
      0 <= ae_LeaderCommit args < zlen x /\
      committed a (ae_Term args) (pre x (ae_LeaderCommit args))
  end.

Definition ae_ok a l v (args : AppendEntries) (x : list LogEntry) : Prop :=
  l <> v /\ ae_carries a args x /\
  exists el, alead a (ae_Term args) = Some el /\ l_id el = l /\ x `prefix_of` l_log el.

Definition packet_ok a (p : packet) : Prop :=
  match p with
  | ReqVote c v args => vreq_ok a c v args
  | RepVote v c args reply => vreq_ok a c v args /\
      (rvr_VoteGranted reply = true -> avote a (v, rv_Term args) = Some c)
  | ReqAE l v args => exists x, ae_ok a l v args x
  | RepAE v l args reply => exists x, ae_ok a l v args x /\
      (aer_Success reply = true -> (length x <= aacc a (v, ae_Term args))%nat)
  | ReqTN _ _ _ | RepTN _ _ _ => True
  end.

(** ** Stability *)

Lemma vreq_ok_mono a a' c v args : ale a a' -> vreq_ok a c v args -> vreq_ok a' c v args.
Proof.
  intros Hle (? & ? & ? & ? & cl & Hc & ? & ?). split_and!; auto. exists cl.
  split_and!; auto. by eapply ale_cand.
Qed.

Lemma ae_ok_mono a a' l v args x : ale a a' -> ae_ok a l v args x -> ae_ok a' l v args x.
Proof.
  intros Hle (Hne & Hx & el & Hel & Hid & Hp). split; [done|]. split.
  - unfold ae_carries in *. destruct (ae_Snapshot args).
    + destruct Hx as (? & ? & ? & ? & ?). split_and!; auto. by eapply committed_mono.
    + destruct Hx as (? & ? & ? & ? & [? ?] & ?). split_and!; auto. by eapply committed_mono.
  - destruct (ale_lead _ _ Hle _ _ Hel) as (el' & ? & ? & _ & _ & ?).
    exists el'. split_and!; [done|congruence|by etrans].
Qed.

Lemma packet_ok_mono a a' p : ale a a' -> packet_ok a p -> packet_ok a' p.
Proof.
  intros Hle. destruct p; simpl; auto.
  - by apply vreq_ok_mono.
  - intros [? Hg]. split; [by eapply vreq_ok_mono|]. intros. by eapply ale_vote; eauto.
  - intros [x Hx]. exists x. by eapply ae_ok_mono.
  - intros (x & Hx & Hs). exists x. split; [by eapply ae_ok_mono|]. intros Ht.
    pose proof (ale_acc _ _ Hle src (ae_Term args)). specialize (Hs Ht). lia.
Qed.

Lemma disk_ok_other n m a a' st : m <> n -> local n a a' -> ale a a' -> disk_ok a m st -> disk_ok a' m st.
Proof.
  intros Hne Hl Hle [H1 H2 H3 H4 H5 H6].
  split; rewrite ?(lo_term _ _ _ Hl), ?(lo_log _ _ _ Hl), ?(lo_vote _ _ _ Hl) by done; auto.
  by eapply committed_mono.
Qed.

(** The steps of one node do not disturb another. *)
Lemma node_ok_other n m a a' rf :
  m <> n -> local n a a' -> ale a a' -> node_ok a m rf -> node_ok a' m rf.
Proof.
  intros Hne Hl Hle [H1 H2 H3 H4 H5 H6 H7 H8 H9]. split; auto.
  - by eapply disk_ok_other.
  - by rewrite (lo_commit _ _ _ Hl) by done.
  - intros Hr. destruct (H8 Hr) as [C1 C2 C3]. split.
    + rewrite (lo_log _ _ _ Hl) by done. by eapply ale_cand.
    + by eapply ale_vote.
    + intros el Hel Hid. eapply C3; [|done]. eapply (lo_lead _ _ _ Hl); [congruence|done].
  - intros Hr. destruct (H9 Hr) as [(el & L1 & L2 & L3) L4 L5 L6]. split; auto.
    + exists el. rewrite (lo_log _ _ _ Hl) by done. split_and!; auto.
      apply (lo_lead _ _ _ Hl); [congruence|done].
    + rewrite (lo_acc _ _ _ Hl), (lo_log _ _ _ Hl) by done. done.
    + intros id Hid. destruct (L5 id Hid) as [? Hm]. split; [done|]. intros Hpos.
      pose proof (ale_acc _ _ Hle id (term rf)). specialize (Hm Hpos). lia.
Qed.

(** ** Refinement of a section of code *)

(** Every journal between [j] and [j'] ends in a state that abstract steps
    from [a] reach. *)
Definition durable n a (j j' : Journal) : Prop :=
  j `suffix_of` j' /\ forall w : Journal, j `suffix_of` w -> w `suffix_of` j' ->
    exists a', nsteps n a a' /\ disk_ok a' n (jcur w).

Record sim_to n a rf a' rf' : Prop := {
  st_steps : nsteps n a a';
  st_inv : inv a';
  st_node : node_ok a' n rf';
  st_durable : durable n a (wal rf) (wal rf')
}.

Lemma suffix_weak_total {A} (l1 l2 l : list A) :
  l1 `suffix_of` l -> l2 `suffix_of` l -> l1 `suffix_of` l2 \/ l2 `suffix_of` l1.
Proof.
  rewrite !suffix_prefix_reverse. apply prefix_weak_total.
Qed.

Lemma suffix_antisym {A} (l1 l2 : list A) : l1 `suffix_of` l2 -> l2 `suffix_of` l1 -> l1 = l2.
Proof.
  intros [k ->] [k' H]. apply (f_equal length) in H. rewrite !length_app in H.
  destruct k; [done|simpl in H; lia].
Qed.

Lemma sim_refl n a rf : inv a -> node_ok a n rf -> sim_to n a rf a rf.
Proof.
  intros I N. split; auto; [reflexivity|]. split; [done|]. intros w H1 H2.
  rewrite (suffix_antisym _ _ H2 H1). exists a. split; [reflexivity|].
  rewrite (n_wal _ _ _ N). apply (n_disk _ _ _ N).
Qed.

Lemma sim_trans n a rf a1 rf1 a2 rf2 :
  sim_to n a rf a1 rf1 -> sim_to n a1 rf1 a2 rf2 -> sim_to n a rf a2 rf2.
Proof.
  intros [S1 I1 N1 [D1 E1]] [S2 I2 N2 [D2 E2]]. split; auto; [by etrans|].
  split; [by etrans|]. intros w H1 H2.
  destruct (suffix_weak_total _ _ _ H2 D2) as [Hs|Hs]; [by apply E1|].
  destruct (E2 w Hs H2) as (a' & ? & ?). exists a'. split; [by etrans|done].
Qed.

End rel.
