(* ===== verification/RaftElect.v ===== *)
(** * Elections refine the protocol

    The term, vote and election code of [Raft] ([stepDown], [beginElectionLocked],
    [RequestVote], [onVoteReply], [TimeoutNow]) against [RaftSpec], and restart. *)

From S2P Require Import Prelude Wal Raft RaftSpec RaftSpecInv RaftNet RaftRel.

Section elect.
Context (ids : list NodeID) (S : list (Z * list byte)) (Hids : "" ∉ ids).
Implicit Types (a : astate) (n v : NodeID) (rf : Raft Journal).

Abbreviation inv := (inv ids).
Abbreviation astep := (astep ids).
Abbreviation committed := (committed ids).
Abbreviation nsteps := (nsteps ids).
Abbreviation node_ok := (node_ok ids S).
Abbreviation disk_ok := (disk_ok ids S).
Abbreviation sim_to := (sim_to ids S).

(** ** One abstract step of a node *)

Ltac nstep_tac :=
  split; [apply rtc_once; econstructor; eauto|];
  split; simpl; intros; fn_upd; try done;
  rewrite ?fn_lookup_insert_ne by congruence; try done.

Lemma ns_term n t a : aterm a n < t -> nsteps n a (set_aterm n t a).
Proof. intros. nstep_tac. Qed.

Lemma ns_cand n t a :
  aterm a n < t -> nsteps n a (set_acand n t (alog a n) (set_avote n t n (set_aterm n t a))).
Proof. intros. nstep_tac. Qed.

Lemma ns_vote n c cl a :
  avote a (n, aterm a n) = None -> acand a (c, aterm a n) = Some cl -> up_to_date cl (alog a n) ->
  nsteps n a (set_avote n (aterm a n) c a).
Proof. intros. nstep_tac. Qed.

Lemma ns_elect n a V :
  alead a (aterm a n) = None -> acand a (n, aterm a n) = Some (alog a n) -> majority ids V ->
  (forall v, v ∈ V -> avote a (v, aterm a n) = Some n) ->
  nsteps n a (set_aacc n (aterm a n) (length (alog a n))
    (set_alead (aterm a n) (mkElection n (alog a n) (alog a n) V) a)).
Proof.
  intros. nstep_tac. kcase (aterm a n) t; [|done]. split; intros; simplify_eq/=.
Qed.

Lemma ns_append n a el e :
  alead a (aterm a n) = Some el -> l_id el = n -> alog a n = l_log el -> Term e = aterm a n ->
  nsteps n a (set_aacc n (aterm a n) (length (alog a n) + 1)
    (set_alead (aterm a n) (mkElection n (l_init el) (alog a n ++ [e]) (l_voters el))
      (set_alog n (alog a n ++ [e]) a))).
Proof.
  intros. nstep_tac. kcase (aterm a n) t; [|done]. split; intros; simplify_eq/=.
Qed.

Lemma ns_accept n a el x :
  alead a (aterm a n) = Some el -> x `prefix_of` l_log el -> x <> [] ->
  nsteps n a (set_aacc n (aterm a n) (max (aacc a (n, aterm a n)) (length x))
    (set_alog n (merge (alog a n) x) a)).
Proof. intros. nstep_tac. Qed.

Lemma ns_overwrite n a el x y :
  alead a (aterm a n) = Some el -> x `prefix_of` l_log el ->
  ~ x `prefix_of` alog a n -> y `prefix_of` x ->
  (forall p, p `prefix_of` alog a n -> p `prefix_of` x -> p `prefix_of` y) ->
  nsteps n a (set_alog n y a).
Proof. intros. nstep_tac. Qed.

Lemma ns_commit n a k :
  (k <= length (alog a n))%nat -> committed a (aterm a n) (take k (alog a n)) ->
  nsteps n a (set_acommit n k a).
Proof. intros. nstep_tac. Qed.

(** ** Sections with at most one durable write *)

Lemma suffix_cons_cases {A} (x : A) j w :
  j `suffix_of` w -> w `suffix_of` x :: j -> w = j \/ w = x :: j.
Proof.
  intros [k1 ->] [k2 H2]. destruct k2 as [|y k2]; [by right|left].
  apply (f_equal length) in H2. simpl in H2. rewrite !length_app in H2. destruct k1; [done|].
  simpl in H2. lia.
Qed.

Lemma node_disk a n rf : node_ok a n rf -> disk_ok a n (jcur (wal rf)).
Proof. intros N. rewrite (n_wal _ _ _ _ _ N). apply N. Qed.

Lemma sim_push n a a' rf rf' :
  inv a -> node_ok a n rf -> nsteps n a a' -> node_ok a' n rf' ->
  wal rf' = persisted rf' :: wal rf -> sim_to n a rf a' rf'.
Proof.
  intros I N Hs N' Hw. split; auto; [by eapply nsteps_inv|].
  rewrite Hw. split; [by apply suffix_cons_r|]. intros w H1 H2.
  destruct (suffix_cons_cases _ _ _ H1 H2) as [->| ->].
  - exists a. split; [reflexivity|]. by apply node_disk.
  - exists a'. split; [done|]. apply N'.
Qed.

Lemma sim_mem n a a' rf rf' :
  inv a -> node_ok a n rf -> nsteps n a a' -> node_ok a' n rf' -> wal rf' = wal rf ->
  sim_to n a rf a' rf'.
Proof.
  intros I N Hs N' Hw. split; auto; [by eapply nsteps_inv|].
  rewrite Hw. split; [done|]. intros w H1 H2. rewrite (suffix_antisym _ _ H2 H1).
  exists a. split; [reflexivity|]. by apply node_disk.
Qed.

Lemma sim_core n a a' rf rf' rf'' :
  sim_to n a rf a' rf' -> same_core rf' rf'' -> sim_to n a rf a' rf''.
Proof.
  intros [S1 I1 N1 D1] Hc. split; auto; [by eapply node_ok_core|]. by rewrite (sc_wal _ _ Hc).
Qed.

(** No candidacy is started or continued in another round. *)
Definition quiet rf rf' : Prop :=
  customerId rf' = Candidate ->
  customerId rf = Candidate /\ term rf' = term rf /\ voteCount rf' = voteCount rf.

Lemma quiet_trans rf1 rf2 rf3 : quiet rf1 rf2 -> quiet rf2 rf3 -> quiet rf1 rf3.
Proof.
  unfold quiet. intros H1 H2 Hc. destruct (H2 Hc) as (? & ? & ?).
  destruct (H1 ltac:(done)) as (? & ? & ?). split_and!; [done|congruence|congruence].
Qed.

(** ** Facts of a running node *)

Lemma node_term a n rf : node_ok a n rf -> term rf = aterm a n.
Proof. intros N. apply (n_disk _ _ _ _ _ N). Qed.

Lemma node_log a n rf :
  node_ok a n rf -> logs rf = rep (alog a n) (snapshotIndex rf) /\
  0 <= snapshotIndex rf < zlen (alog a n).
Proof. intros N. split; [apply (d_logs _ _ _ _ _ (n_disk _ _ _ _ _ N))|apply (n_disk _ _ _ _ _ N)]. Qed.

Lemma node_lastIndex a n rf : node_ok a n rf -> lastLogIndex rf = zlen (alog a n) - 1.
Proof.
  intros N. destruct (node_log _ _ _ N) as [Hl Hs]. unfold lastLogIndex.
  rewrite Hl, zlen_rep by done. lia.
Qed.

Lemma node_lastTerm a n rf : node_ok a n rf -> lastLogTerm rf = Some (last_term (alog a n)).
Proof.
  intros N. destruct (node_log _ _ _ N) as [Hl Hs]. unfold lastLogTerm. rewrite Hl.
  by apply rep_last.
Qed.

Lemma node_logAt a n rf i :
  node_ok a n rf -> snapshotIndex rf <= i -> Term <$> logAt rf i = Term <$> (alog a n) @[i].
Proof.
  intros N Hi. destruct (node_log _ _ _ N) as [Hl Hs]. unfold logAt, relIdx. rewrite Hl.
  apply rep_term; lia.
Qed.

Lemma node_logAt_Some a n rf i :
  node_ok a n rf -> snapshotIndex rf <= i <= lastLogIndex rf ->
  exists e f, logAt rf i = Some e /\ (alog a n) @[i] = Some f /\ Term e = Term f.
Proof.
  intros N Hi. pose proof (node_logAt a n rf i N ltac:(lia)) as Ht.
  destruct (node_log _ _ _ N) as [Hl Hs]. rewrite (node_lastIndex _ _ _ N) in Hi.
  destruct (gidx_is_Some (alog a n) i ltac:(lia)) as [f Hf]. rewrite Hf in Ht. simpl in Ht.
  destruct (logAt rf i) as [e|]; simplify_eq/=. eauto.
Qed.

Lemma node_commit_len a n rf :
  inv a -> node_ok a n rf -> commitIndex rf < zlen (alog a n) /\
  committed a (aterm a n) (pre (alog a n) (commitIndex rf)).
Proof.
  intros I N. destruct (i_commit _ _ I n) as [Hlen Hc].
  pose proof (n_commit _ _ _ _ _ N). pose proof (n_snap _ _ _ _ _ N).
  destruct (node_log _ _ _ N) as [_ Hs]. split; [zlen_lia|]. unfold pre.
  by replace (Datatypes.S (Z.to_nat (commitIndex rf))) with (acommit a n) by lia.
Qed.

(** ** Terms *)

Lemma vote_fresh a n t : inv a -> aterm a n < t -> avote a (n, t) = None.
Proof.
  intros I Ht. destruct (avote a (n, t)) eqn:E; [|done].
  apply (i_vote _ _ I) in E. lia.
Qed.

Lemma stepDown_sim a n rf t :
  inv a -> node_ok a n rf -> term rf < t ->
  exists rf', stepDown rf t = Some rf' /\ sim_to n a rf (set_aterm n t a) rf' /\
    term rf' = t /\ customerId rf' = Follower.
Proof.
  intros I N Ht. pose proof (node_term _ _ _ N) as Htm. rewrite Htm in Ht.
  pose proof (ns_term n t a Ht) as Hs. destruct (nsteps_inv _ _ _ _ I Hs) as [I' Hle].
  eexists. split; [done|]. split; [|done].
  apply sim_push; auto; simpl; rewrite (n_wal _ _ _ _ _ N); [|done].
  destruct N as [H1 H2 H3 [D1 D2 D3 D4 D5 D6] H5 H6 H7 H8 H9].
  split; simpl; auto; try done.
  split; simpl; auto; rewrite ?fn_lookup_insert; auto.
  - by apply vote_fresh.
  - eapply committed_mono; eauto. simpl in D5. lia.
Qed.

Lemma adoptTerm_sim a n rf t :
  inv a -> node_ok a n rf -> exists rf' a',
  adoptTerm rf t = Some rf' /\ sim_to n a rf a' rf' /\ quiet rf rf' /\
  term rf' = Z.max (term rf) t /\ (term rf < t \/ rf' = rf /\ a' = a).
Proof.
  intros I N. unfold adoptTerm. dcase.
  - destruct (stepDown_sim a n rf t) as (rf' & -> & Hs & Ht & Hr); auto.
    exists rf', (set_aterm n t a). split_and!; auto; [|lia]. unfold quiet. congruence.
  - exists rf, a. split_and!; auto; [by apply sim_refl|done|lia].
Qed.

(** ** Candidacies *)

Lemma beginElection_sim a n rf :
  inv a -> node_ok a n rf -> n ∈ ids -> exists rf' a',
  beginElectionLocked rf = Some (mkRound (term rf') (zlen (alog a n) - 1) (last_term (alog a n)), rf') /\
  sim_to n a rf a' rf' /\ customerId rf' = Candidate /\ voteCount rf' = 1 /\
  term rf' = term rf + 1 /\ acand a' (n, term rf') = Some (alog a n) /\ me rf' = n /\ nodeIDs rf' = ids.
Proof.
  intros I N Hn. pose proof (node_term _ _ _ N) as Htm.
  assert (Hlt : aterm a n < aterm a n + 1) by lia.
  pose proof (ns_cand n _ a Hlt) as Hs. destruct (nsteps_inv _ _ _ _ I Hs) as [I' Hle].
  assert (Hn0 : n <> "") by congruence.
  set (rf' := resetElectionTimerLocked (W := Journal) (set_wal (W := Journal)
    (ps_SaveMeta (jcur (wal rf)) (term rf + 1) (me rf) :: wal rf)
    (set_voteCount 1 (set_voteFor (me rf) (set_leaderId "" (set_customerId Candidate
      (set_term (term rf + 1) rf))))))).
  assert (N' : node_ok (set_acand n (aterm a n + 1) (alog a n)
    (set_avote n (aterm a n + 1) n (set_aterm n (aterm a n + 1) a))) n rf').
  { destruct N as [H1 H2 H3 [D1 D2 D3 D4 D5 D6] H5 H6 H7 H8 H9]. subst rf'.
    split; simpl; auto; try done.
    - by rewrite H3.
    - split; simpl; auto; rewrite ?fn_lookup_insert; auto; [by rewrite Htm| |].
      + rewrite decide_False by congruence. congruence.
      + eapply committed_mono; eauto. lia.
    - intros _. rewrite Htm. split; simpl; rewrite ?fn_lookup_insert; try done.
      intros el Hel Hid. apply (i_lead _ _ I) in Hel as (Hel & _).
      apply (i_cand _ _ I) in Hel. rewrite Hid in Hel. lia. }
  exists rf', (set_acand n (aterm a n + 1) (alog a n)
    (set_avote n (aterm a n + 1) n (set_aterm n (aterm a n + 1) a))). split_and!; auto.
  - pose proof (node_lastTerm _ _ _ N') as Hlt'. pose proof (node_lastIndex _ _ _ N') as Hli'.
    unfold beginElectionLocked, walSaveMeta. cbn -[lastLogTerm lastLogIndex rf']. fold rf'.
    rewrite Hlt'. cbn -[lastLogTerm lastLogIndex rf']. by rewrite Hli'.
  - apply sim_push; auto. unfold rf'. simpl. by rewrite (n_wal _ _ _ _ _ N).
  - simpl. by rewrite Htm, fn_lookup_insert.
  - apply N.
  - apply N.
Qed.

(** The requests of a round say what the candidate's log is. *)
Lemma voteRequests_ok a n rf t l p :
  me rf = n -> nodeIDs rf = ids -> n ∈ ids -> acand a (n, t) = Some l ->
  p ∈ voteRequests rf (mkRound t (zlen l - 1) (last_term l)) -> packet_ok ids S a p.
Proof.
  intros Hme Hnd Hn Hc Hp. unfold voteRequests, sendRequestVotes in Hp.
  apply list_elem_of_fmap in Hp as ((id & args) & -> & Hp).
  apply list_elem_of_fmap in Hp as (id' & [= -> ->] & Hid).
  apply list_elem_of_filter in Hid as [Hne Hid]. simpl. rewrite Hnd, Hme in *.
  split_and!; auto. eauto.
Qed.

(** ** Votes *)

Lemma RequestVote_sim a n rf c args :
  inv a -> node_ok a n rf -> vreq_ok ids a c n args -> exists reply rf' a',
  RequestVote rf args = Some (reply, rf') /\ sim_to n a rf a' rf' /\ quiet rf rf' /\
  (rvr_VoteGranted reply = true -> avote a' (n, rv_Term args) = Some c).
Proof.
  intros I N (Hc & Hcn & Hcid & _ & cl & Hcl & Hli & Hlt). unfold RequestVote. dcase.
  { eexists _, rf, a. split; [done|]. split; [by apply sim_refl|]. done. }
  destruct (adoptTerm_sim a n rf (rv_Term args) I N) as (rf1 & a1 & -> & Hs1 & Hq1 & Ht1 & _).
  simpl. destruct Hs1 as [S1 I1 N1 D1] eqn:E. clear E.
  pose proof (node_term _ _ _ N1) as Htm. assert (Ht : aterm a1 n = rv_Term args) by lia.
  assert (Hcl1 : acand a1 (c, aterm a1 n) = Some cl).
  { rewrite Ht. eapply ale_cand; [|done]. by eapply nsteps_inv. }
  unfold grantVote. rewrite (node_lastTerm _ _ _ N1). cbn [mbind option_bind].
  destruct (decide _) as [[Hv Hok]|]; [|by eexists _, rf1, a1].
  assert (Hc0 : c <> "") by congruence. rewrite Hc in *.
  assert (Hup : up_to_date cl (alog a1 n)).
  { rewrite (node_lastIndex _ _ _ N1), Hli, Hlt in Hok. unfold up_to_date.
    apply orb_prop in Hok as [?%Z.ltb_lt|[?%Z.eqb_eq ?%Z.leb_le]%andb_prop]; [by left|right].
    split; [done|zlen_lia]. }
  assert (Hrole : customerId rf1 <> Candidate).
  { intros Hr. apply (n_cand _ _ _ _ _ N1) in Hr as [_ Hr _]. rewrite Htm in Hr.
    pose proof (d_vote _ _ _ _ _ (n_disk _ _ _ _ _ N1)) as Hd. rewrite Hr in Hd. simpl in Hd.
    destruct (decide _); simplify_eq. destruct Hv; congruence. }
  set (a2 := set_avote n (aterm a1 n) c a1).
  assert (Hs2 : nsteps n a1 a1 /\ avote a1 (n, aterm a1 n) = Some c \/ nsteps n a1 a2).
  { pose proof (d_vote _ _ _ _ _ (n_disk _ _ _ _ _ N1)) as Hd. simpl in Hd.
    destruct (decide (voteFor rf1 = "")) as [Hv0|Hv0].
    - right. by eapply ns_vote.
    - left. split; [reflexivity|]. destruct Hv; [done|congruence]. }
  assert (Hvote : exists a3, nsteps n a1 a3 /\ avote a3 (n, aterm a1 n) = Some c /\
     aterm a3 = aterm a1 /\ alog a3 = alog a1 /\ acommit a3 = acommit a1 /\ acand a3 = acand a1 /\
     alead a3 = alead a1 /\ aacc a3 = aacc a1).
  { destruct Hs2 as [[? ?]|?]; [by exists a1|]. exists a2. split; [done|]. simpl.
    by rewrite fn_lookup_insert. }
  destruct Hvote as (a3 & Hs3 & Hv3 & E1 & E2 & E3 & E4 & E5 & E6).
  destruct (nsteps_inv _ _ _ _ I1 Hs3) as [I3 Hle3].
  eexists _, _, a3. split; [done|]. split_and!.
  - eapply sim_trans; [by split|]. apply sim_push; auto; simpl; rewrite (n_wal _ _ _ _ _ N1); [|done].
    destruct N1 as [H1 H2 H3 [D1' D2' D3' D4' D5' D6'] H5 H6 H7 H8 H9].
    split; simpl; rewrite ?E1, ?E2, ?E3; auto; [|done|].
    + split; simpl; rewrite ?E1, ?E2; auto; [by rewrite Hv3, decide_False by done|].
      eapply committed_mono; eauto. lia.
    + intros Hr. destruct (H9 Hr) as [(el & L1 & L2 & L3) L4 L5 L6].
      split; simpl; rewrite ?E5, ?E2, ?E6; eauto.
  - eapply quiet_trans; [done|]. intros ?. done.
  - intros _. by rewrite <- Ht.
Qed.

(** ** Leadership transfer *)

Lemma TimeoutNow_sim a n rf args :
  inv a -> node_ok a n rf -> n ∈ ids -> exists reply round rf' a',
  TimeoutNow rf args = Some (reply, round, rf') /\ sim_to n a rf a' rf' /\ me rf' = n /\
  nodeIDs rf' = ids /\
  match round with
  | None => quiet rf rf'
  | Some r => term rf < term rf' /\ customerId rf' = Candidate /\ voteCount rf' = 1 /\
      exists l, r = mkRound (term rf') (zlen l - 1) (last_term l) /\ acand a' (n, term rf') = Some l
  end.
Proof.
  intros I N Hn. unfold TimeoutNow. dcase.
  { eexists _, None, rf, a. split; [done|]. split_and!; [by apply sim_refl|apply N|apply N|done]. }
  destruct (adoptTerm_sim a n rf (tn_Term args) I N) as (rf1 & a1 & -> & Hs1 & Hq1 & Ht1 & _).
  simpl. pose proof (st_node _ _ _ _ _ _ _ Hs1) as N1. pose proof (st_inv _ _ _ _ _ _ _ Hs1) as I1.
  destruct (decide (tn_LeaderId args <> leaderId rf1)).
  { eexists _, None, rf1, a1. split; [done|]. split_and!; [done|apply N1|apply N1|done]. }
  assert (Hstale : exists b, (if decide (tn_LastLogIndex args < snapshotIndex rf1 \/
      tn_LastLogIndex args <> lastLogIndex rf1) then Some true
    else e ← logAt rf1 (tn_LastLogIndex args); Some (bool_decide (Term e <> tn_LastLogTerm args)))
    = Some b).
  { dcase; [eauto|]. destruct (node_logAt_Some a1 n rf1 (tn_LastLogIndex args) N1) as (e & _ & -> & _);
      [lia|]. simpl. eauto. }
  destruct Hstale as [stale ->]. simpl. destruct stale.
  { eexists _, None, rf1, a1. split; [done|]. split_and!; [done|apply N1|apply N1|done]. }
  destruct (beginElection_sim a1 n rf1 I1 N1 Hn)
    as (rf2 & a2 & -> & Hs2 & Hr & Hv & Ht2 & Hc & Hme & Hnd). simpl.
  eexists _, (Some _), rf2, a2. split; [done|]. split_and!; auto; [by eapply sim_trans|lia|].
  exists (alog a1 n). done.
Qed.

(** ** Winning *)

(** The votes a candidate has counted are real and come from distinct nodes. *)
Definition counted a n rf (Q : list NodeID) : Prop :=
  NoDup Q /\ Q ⊆ ids /\ zlen Q = voteCount rf /\
  forall q, q ∈ Q -> avote a (q, term rf) = Some n.

Lemma mget_foldr (m : gmap NodeID Z) (k : Z) l id :
  mget (foldr (fun id m => <[id := k]> m) m l) id = if decide (id ∈ l) then k else mget m id.
Proof.
  induction l as [|x l IH]; simpl.
  - done.
  - unfold mget in *. destruct (decide (x = id)) as [->|Hne].
    + rewrite lookup_insert_eq, decide_True by set_solver. done.
    + rewrite lookup_insert_ne by done. rewrite IH.
      destruct (decide (id ∈ l)), (decide (id ∈ x :: l)); set_solver.
Qed.

Lemma onVoteReply_sim a n rf v args reply :
  inv a -> node_ok a n rf -> n ∈ ids -> vreq_ok ids a n v args ->
  (rvr_VoteGranted reply = true -> avote a (v, rv_Term args) = Some n) ->
  (customerId rf = Candidate -> term rf = rv_Term args -> exists Q, counted a n rf Q /\ v ∉ Q) ->
  exists rf' a', onVoteReply rf args reply = Some rf' /\ sim_to n a rf a' rf' /\
  (quiet rf rf' \/ customerId rf' = Candidate /\ customerId rf = Candidate /\
    term rf' = term rf /\ term rf = rv_Term args /\ voteCount rf' = voteCount rf + 1 /\
    rvr_VoteGranted reply = true).
Proof.
  intros I N Hn (Hc & Hcv & _ & Hv & cl & Hcl & _) Hg HQ. unfold onVoteReply. dcase.
  { destruct (stepDown_sim a n rf (rvr_Term reply)) as (rf' & -> & Hs & Ht & Hr); auto.
    eexists rf', _. split_and!; eauto. left. unfold quiet. congruence. }
  dcase; [exists rf, a; split_and!; [done|by apply sim_refl|by left]|].
  assert (Hgr : rvr_VoteGranted reply = true) by (destruct (rvr_VoteGranted reply); tauto).
  destruct (decide (customerId rf = Candidate)) as [Hr|]; [|tauto].
  destruct (decide (term rf = rv_Term args)) as [Ht|]; [|tauto].
  destruct (HQ Hr Ht) as (Q & (HQ1 & HQ2 & HQ3 & HQ4) & HvQ). specialize (Hg Hgr).
  pose proof (n_cand _ _ _ _ _ N Hr) as [C1 C2 C3]. pose proof (node_term _ _ _ N) as Htm.
  simpl. destruct (decide _) as [Hmaj|].
  2:{ eexists _, a. split; [done|]. split.
      - apply sim_mem; auto; [reflexivity|]. by apply (node_ok_core _ _ _ _ rf).
      - right. by split_and!. }
  assert (HV : majority ids (v :: Q)).
  { split_and!; [by constructor|set_solver|]. rewrite (n_nodes _ _ _ _ _ N) in Hmaj.
    rewrite zlen_cons. lia. }
  assert (HVv : forall q, q ∈ v :: Q -> avote a (q, aterm a n) = Some n).
  { rewrite <- Htm. intros q [->|?]%elem_of_cons; [by rewrite Ht|auto]. }
  assert (Hno : alead a (aterm a n) = None).
  { destruct (alead a (aterm a n)) as [el|] eqn:Hel; [|done]. rewrite <- Htm in Hel.
    destruct (C3 el Hel). rewrite Htm in Hel. by eapply leads_unique. }
  rewrite Htm in C1. pose proof (ns_elect n a _ Hno C1 HV HVv) as Hs.
  destruct (nsteps_inv _ _ _ _ I Hs) as [I' Hle].
  eexists _, _. split; [done|]. split; [|left; done]. apply sim_mem; [done|done|exact Hs| |done].
  pose proof (node_lastIndex _ _ _ N) as Hli. pose proof (node_log _ _ _ N) as [_ Hlen].
  destruct N as [H1 H2 H3 [D1 D2 D3 D4 D5 D6] H5 H6 H7 H8 H9].
  split; simpl; auto; [|done|].
  - split; simpl; auto. eapply committed_mono; eauto. lia.
  - intros _. split; simpl; rewrite ?Htm, ?fn_lookup_insert; eauto.
    + intros id Hid. rewrite mget_foldr, H2, decide_True by done. lia.
    + intros id Hid. rewrite mget_foldr, H2, decide_True by done.
      unfold lastLogIndex in *. simpl. lia.
Qed.

(** ** Restart *)

Lemma restart_sim a n (w : Journal) :
  inv a -> disk_ok a n (jcur w) -> exists rf a', MakeWithWAL n ids w = Some rf /\
  nsteps n a a' /\ node_ok a' n rf /\ customerId rf = Follower.
Proof.
  intros I D. set (k := Datatypes.S (Z.to_nat (ps_SnapshotIndex (jcur w)))).
  assert (Hs : nsteps n a (set_acommit n k a)).
  { apply ns_commit; [|apply D]. pose proof (d_idx _ _ _ _ _ D). unfold k. zlen_lia. }
  destruct (nsteps_inv _ _ _ _ I Hs) as [I' Hle].
  assert (Hrec : recovered (jcur w) (bool_decide (w <> [])) = jcur w).
  { destruct w; by rewrite ?bool_decide_eq_true_2, ?bool_decide_eq_false_2 by auto. }
  eexists _, _. split; [done|]. split; [exact Hs|]. split; [|done].
  simpl. rewrite Hrec. pose proof (d_idx _ _ _ _ _ D).
  split; simpl; auto; try done; unfold persisted; simpl.
  - by destruct (jcur w).
  - destruct D as [D1 D2 D3 D4 D5 D6]. split; simpl; auto.
  - rewrite fn_lookup_insert. unfold k. lia.
  - lia.
Qed.

End elect.
