(* ===== verification/RaftReplicate.v ===== *)
(** * Replication refines the protocol

    [Start], [startHeartbeat], [AppendEntriesHandler] (entries and snapshots),
    the commit rule of [sendAppendEntries], [Snapshot] and [sendApplyMsg]
    against [RaftSpec]. *)

From S2P Require Import Prelude Wal Raft RaftSpec RaftSpecInv RaftNet RaftRel RaftElect.

Lemma jAppend_suffix j es : j `suffix_of` jAppend j es.
Proof.
  revert j. induction es as [|f es IH]; intros j; simpl; [done|].
  etrans; [|apply IH]. by apply suffix_cons_r.
Qed.

(** The journals a multi-entry append goes through. *)
Lemma jAppend_between j es w :
  j `suffix_of` w -> w `suffix_of` jAppend j es ->
  exists k, (k <= length es)%nat /\ w = jAppend j (take k es).
Proof.
  revert j. induction es as [|e es IH]; intros j H1 H2; simpl in *.
  - exists 0%nat. split; [done|]. by apply suffix_antisym.
  - set (j1 := ps_AppendLog (jcur j) [e] :: j) in *.
    assert (Hj : j1 `suffix_of` jAppend j1 es) by apply jAppend_suffix.
    destruct (suffix_weak_total _ _ _ H2 Hj) as [Hw|Hw].
    + destruct (suffix_cons_cases _ _ _ H1 Hw) as [->| ->].
      * exists 0%nat. split; [lia|done].
      * exists 1%nat. split; [lia|]. by destruct es.
    + destruct (IH j1 Hw H2) as (k & Hk & ->). exists (S k). split; [lia|done].
Qed.

Section replicate.
Context (ids : list NodeID) (S : list (Z * list byte)).
Implicit Types (a : astate) (n v : NodeID) (rf : Raft Journal) (x l : list LogEntry).

Abbreviation inv := (inv ids).
Abbreviation astep := (astep ids).
Abbreviation committed := (committed ids).
Abbreviation nsteps := (nsteps ids).
Abbreviation node_ok := (node_ok ids S).
Abbreviation disk_ok := (disk_ok ids S).
Abbreviation sim_to := (sim_to ids S).

(** ** Leader: proposing and sending *)

Lemma lead_election a n rf :
  node_ok a n rf -> customerId rf = Leader ->
  exists el, alead a (aterm a n) = Some el /\ l_id el = n /\ alog a n = l_log el.
Proof.
  intros N Hr. rewrite <- (node_term _ _ _ _ _ N).
  destruct (le_lead _ _ _ _ (n_lead _ _ _ _ _ N Hr)) as (el & ? & ? & ?). eauto.
Qed.

Lemma Start_sim a n rf cmd :
  inv a -> node_ok a n rf -> exists i t b rf' a',
  Start rf cmd = Some (i, t, b, rf') /\ sim_to n a rf a' rf' /\ quiet rf rf'.
Proof.
  intros I N. unfold Start. dcase.
  { eexists _, _, _, rf, a. split; [done|]. split; [by apply sim_refl|done]. }
  assert (Hr : customerId rf = Leader) by (destruct (decide (customerId rf = Leader)); tauto).
  pose proof (node_term _ _ _ _ _ N) as Ht. pose proof (n_lead _ _ _ _ _ N Hr) as L.
  destruct (lead_election _ _ _ N Hr) as (el & Hel & Hid & Hlog).
  set (e := mkEntry cmd (term rf)).
  pose proof (ns_append ids n a el e Hel Hid Hlog Ht) as Hs.
  destruct (nsteps_inv _ _ _ _ I Hs) as [I' Hle].
  eexists _, _, _, _, _. split; [done|]. split; [|intros ?; done].
  apply sim_push; [done|done|exact Hs| |];
    simpl; rewrite (n_wal _ _ _ _ _ N); [|done].
  destruct N as [H1 H2 H3 [D1 D2 D3 D4 D5 D6] H5 H6 H7 H8 H9].
  split; simpl; auto; [|congruence|].
  - split; simpl; rewrite ?fn_lookup_insert; auto.
    + simpl in D3. by rewrite D3, rep_app by done.
    + rewrite zlen_app. pose proof (zlen_nonneg [e]). simpl in D4. lia.
    + simpl in D4, D5. rewrite (pre_prefix_eq (alog a n)); [by eapply committed_mono| |done].
      by apply prefix_app_r.
  - intros _. destruct L as [_ L2 L3 L4]. split; simpl; rewrite ?Ht, ?fn_lookup_insert; auto.
    + by eexists.
    + by rewrite length_app.
    + intros id Hid'. destruct (L3 id Hid') as [? Hm]. split; [done|]. intros Hp.
      pose proof (ale_acc _ _ Hle id (aterm a n)) as Ha. simpl in Ha.
      specialize (Hm Hp). rewrite Ht in Hm. lia.
Qed.

Lemma rep_drop l s i :
  0 <= s <= i -> i < zlen l -> drop (Z.to_nat (i - s + 1)) (rep l s) = drop (Z.to_nat (i + 1)) l.
Proof.
  intros Hs Hi. destruct (gidx_is_Some l s ltac:(lia)) as [g Hg].
  rewrite (rep_cons l s g) by (done || lia).
  replace (Z.to_nat (i - s + 1)) with (Datatypes.S (Z.to_nat (i - s))) by lia. simpl.
  rewrite drop_drop. f_equal. lia.
Qed.

(** Every request of a leader carries a prefix of its log, and the commit
    index it announces is covered by that prefix. *)
Lemma heartbeatArgs_ok a n rf id :
  inv a -> node_ok a n rf -> customerId rf = Leader -> id ∈ ids -> id <> n ->
  exists args x, heartbeatArgs rf id = Some args /\ ae_ok ids S a n id args x.
Proof.
  intros I N Hr Hid Hne. pose proof (node_term _ _ _ _ _ N) as Ht.
  destruct (lead_election _ _ _ N Hr) as (el & Hel & Hlid & Hlog).
  destruct (node_log _ _ _ _ _ N) as [Hl Hs]. pose proof (node_lastIndex _ _ _ _ _ N) as Hli.
  destruct (node_commit_len _ _ _ _ _ I N) as [Hcl Hcc].
  pose proof (le_next _ _ _ _ (n_lead _ _ _ _ _ N Hr) id Hid) as Hnext.
  destruct (gidx_is_Some (alog a n) (snapshotIndex rf) ltac:(lia)) as [e0 He0].
  assert (Hhd : (logs rf) @[0] = Some (sentinel (Term e0))).
  { rewrite Hl, (rep_cons _ _ e0) by (done || lia). done. }
  unfold heartbeatArgs. rewrite Hli, Hhd.
  set (p1 := if decide (zlen (alog a n) - 1 < mget (nextIndex rf) id - 1) then _ else _).
  assert (Hp1 : 0 <= p1 <= zlen (alog a n) - 1) by (unfold p1; dcase; lia).
  destruct (decide (p1 < snapshotIndex rf)) as [Hsn|Hsn]; simpl.
  - destruct (d_snap _ _ _ _ _ (n_disk _ _ _ _ _ N) ltac:(simpl; lia)) as (b & Hb & HbS).
    simpl in Hb, HbS. rewrite Hb, decide_False by (by intros [_ ?]). simpl.
    eexists _, (pre (alog a n) (snapshotIndex rf)). split; [done|].
    split; [done|]. split; simpl.
    + unfold ae_carries; simpl. split_and!; auto; [lia|by apply zlen_pre; lia| |].
      * rewrite <- (prefix_gidx_eq _ _ _ (pre_prefix (alog a n) (snapshotIndex rf))), He0;
          [done|]. rewrite zlen_pre; lia.
      * rewrite Ht. apply (n_disk _ _ _ _ _ N).
    + exists el. rewrite Ht. split_and!; auto. rewrite <- Hlog. apply pre_prefix.
  - destruct (node_logAt_Some _ _ a n rf p1 N ltac:(lia)) as (e & f & Hla & Hf & Hef).
    rewrite Hla. simpl.
    match goal with |- context [@decide ?P ?D] =>
      assert (Hent : (if @decide P D then gfrom (logs rf) (relIdx rf p1 + 1) else Some []) =
        Some (drop (Z.to_nat (p1 + 1)) (alog a n))) end.
    { unfold relIdx. rewrite Hl. dcase.
      - rewrite gfrom_Some by (rewrite zlen_rep; lia). by rewrite rep_drop by lia.
      - rewrite drop_ge; [done|]. assert (~ p1 < zlen (alog a n) - 1) by tauto. zlen_lia. }
    rewrite Hent. simpl. eexists _, (alog a n). split; [done|]. split; [done|]. split; simpl.
    + unfold ae_carries; simpl. pose proof (n_snap _ _ _ _ _ N). split_and!; auto; try lia; [zlen_lia| |].
      * rewrite Hf. simpl. congruence.
      * by rewrite Ht.
    + exists el. rewrite Ht, Hlog. done.
Qed.

(** ** Follower: entries *)

Lemma node_follower a n rf : node_ok a n rf -> node_ok a n (set_customerId Follower rf).
Proof. intros [H1 H2 H3 H4 H5 H6 H7 H8 H9]. by split. Qed.

(** Entries [j], [j+1], ... of [x] against the log. *)
Lemma matchEntries_spec a n rf x (j : nat) :
  node_ok a n rf -> snapshotIndex rf < Z.of_nat j ->
  exists i, matchEntries rf (Z.of_nat j) (drop j x) = Some i /\ (i <= length (drop j x))%nat /\
  (forall k, (k < i)%nat -> Term <$> x !! (j + k)%nat = Term <$> alog a n !! (j + k)%nat) /\
  ((i < length (drop j x))%nat ->
     Term <$> x !! (j + i)%nat <> Term <$> alog a n !! (j + i)%nat).
Proof.
  intros N. remember (drop j x) as es eqn:Ees. revert j Ees.
  induction es as [|e es IH]; intros j Ees Hj; simpl.
  { exists 0%nat. split_and!; auto; simpl; intros; lia. }
  assert (Hx : x !! j = Some e).
  { replace j with (j + 0)%nat by lia. by rewrite <- lookup_drop, <- Ees. }
  assert (Hes : es = drop (Datatypes.S j) x).
  { rewrite <- Nat.add_1_r, <- drop_drop, <- Ees. done. }
  pose proof (node_lastIndex _ _ _ _ _ N) as Hli. dcase.
  { exists 0%nat. split_and!; [done|lia|lia|]. intros _. rewrite Nat.add_0_r, Hx.
    rewrite (proj2 (lookup_ge_None (alog a n) j)) by zlen_lia. done. }
  destruct (node_logAt_Some _ _ a n rf (Z.of_nat j) N ltac:(lia)) as (m & f & Hm & Hf & Hmf).
  rewrite gidx_nat in Hf. rewrite Hm. simpl. dcase.
  { exists 0%nat. split_and!; [done|lia|lia|]. intros _. rewrite Nat.add_0_r, Hx, Hf. simpl.
    congruence. }
  destruct (IH (Datatypes.S j) Hes ltac:(lia)) as (i & Hi & Hle & Hlt & Hge).
  replace (Z.of_nat j + 1) with (Z.of_nat (Datatypes.S j)) by lia. rewrite Hi. simpl.
  exists (Datatypes.S i). split_and!; [done|lia| |].
  - intros [|k] Hk.
    + rewrite Nat.add_0_r, Hx, Hf. simpl. f_equal.
      destruct (decide (Term m = Term e)); [congruence|tauto].
    + replace (j + Datatypes.S k)%nat with (Datatypes.S j + k)%nat by lia. apply Hlt. lia.
  - intros Hk. replace (j + Datatypes.S i)%nat with (Datatypes.S j + i)%nat by lia. apply Hge. lia.
Qed.

(** Equal terms at the last compared index: the logs agree up to it. *)
Lemma agree_upto a x l (j : nat) :
  wf a x -> wf a l -> (0 < j)%nat -> (j <= length x)%nat ->
  Term <$> x !! (j - 1)%nat = Term <$> l !! (j - 1)%nat -> take j x = take j l.
Proof.
  intros Hx Hl Hj Hlen Ht.
  destruct (lookup_lt_is_Some_2 x (j - 1)%nat ltac:(lia)) as [e He]. rewrite He in Ht.
  destruct (l !! (j - 1)%nat) as [f|] eqn:Hf; simplify_eq/=.
  replace j with (Datatypes.S (j - 1)) by lia. by eapply wf_agree.
Qed.

Lemma take_agree x l (q m : nat) : take m x = take m l -> (q <= m)%nat -> take q x = take q l.
Proof.
  intros H Hq. replace q with (q `min` m)%nat by lia.
  by rewrite <- !take_take, H.
Qed.

(** What the follower ends up with: the prefix is held, nothing else is lost. *)
Lemma accepted a n el x :
  alead a (aterm a n) = Some el -> x `prefix_of` l_log el -> x <> [] ->
  exists a', nsteps n a a' /\ alog a' n = merge (alog a n) x /\
    aterm a' = aterm a /\ acommit a' = acommit a /\ avote a' = avote a /\
    (length x <= aacc a' (n, aterm a n))%nat.
Proof.
  intros Hel Hx Hne. eexists. split; [by eapply ns_accept|]. simpl.
  rewrite !fn_lookup_insert. split_and!; auto. lia.
Qed.

(** A change of the node's log that keeps what its snapshot covers. *)
Lemma disk_ok_log a a' n st l :
  ale a a' -> aterm a' = aterm a -> avote a' = avote a -> alog a' n = l ->
  disk_ok a n st -> take (Z.to_nat (ps_SnapshotIndex st + 1)) l =
    take (Z.to_nat (ps_SnapshotIndex st + 1)) (alog a n) ->
  ps_SnapshotIndex st < zlen l ->
  disk_ok a' n (mkPS (ps_Term st) (ps_Vote st) (rep l (ps_SnapshotIndex st))
    (ps_SnapshotIndex st) (ps_Snapshot st)).
Proof.
  intros Hle Ht Hv Hl [D1 D2 D3 D4 D5 D6] Htk Hlt.
  split; simpl; rewrite ?Ht, ?Hv, ?Hl; auto; [lia|].
  eapply committed_mono; [done|reflexivity|]. unfold pre in *.
  replace (Datatypes.S (Z.to_nat (ps_SnapshotIndex st)))
    with (Z.to_nat (ps_SnapshotIndex st + 1)) in * by lia. by rewrite Htk.
Qed.

(** The prefix the comparison has found, with the two ways it can end. *)
Lemma match_agree a n rf x prev es :
  inv a -> node_ok a n rf -> wf a x -> snapshotIndex rf <= prev ->
  zlen x = prev + 1 + zlen es -> es = drop (Z.to_nat (prev + 1)) x ->
  take (Z.to_nat (prev + 1)) x = take (Z.to_nat (prev + 1)) (alog a n) ->
  exists i, matchEntries rf (prev + 1) es = Some i /\
    let m := (Z.to_nat (prev + 1) + i)%nat in
    (m <= length x)%nat /\ take m x = take m (alog a n) /\ drop i es = drop m x /\
    ((i < length es)%nat /\ ~ x `prefix_of` alog a n /\
       (forall p, p `prefix_of` alog a n -> p `prefix_of` x -> p `prefix_of` take m x) \/
     ~ (i < length es)%nat /\ x `prefix_of` alog a n).
Proof.
  intros I N Hwx Hsn Hlen Hes Htk. set (j := Z.to_nat (prev + 1)) in *.
  destruct (node_log _ _ _ _ _ N) as [_ Hs].
  destruct (matchEntries_spec a n rf x j N ltac:(lia)) as (i & Hi & Hle & Hlt & Hge).
  rewrite <- Hes in *. replace (Z.of_nat j) with (prev + 1) in Hi by lia.
  exists i. split; [done|]. simpl.
  assert (Hagree : take (j + i) x = take (j + i) (alog a n)).
  { destruct i as [|i]; [by rewrite Nat.add_0_r|].
    apply (agree_upto a); auto; [apply I|lia|zlen_lia|].
    replace (j + Datatypes.S i - 1)%nat with (j + i)%nat by lia. apply Hlt. lia. }
  split_and!; [zlen_lia|done|by rewrite Hes, drop_drop|].
  destruct (decide (i < length es)%nat) as [Hc|Hc]; [left|right].
  - assert (Hcommon : forall p, p `prefix_of` alog a n -> p `prefix_of` x -> (length p <= j + i)%nat).
    { intros p H1 H2. destruct (decide (length p <= j + i)%nat) as [|Hgt]; [done|].
      destruct (Hge Hc). destruct (lookup_lt_is_Some_2 p (j + i)%nat ltac:(lia)) as [e He].
      by rewrite (prefix_lookup _ _ _ _ H1 He), (prefix_lookup _ _ _ _ H2 He). }
    split_and!; [done| |].
    + intros Hp. specialize (Hcommon x Hp ltac:(done)). zlen_lia.
    + intros p H1 H2. apply prefix_of_take; auto.
  - split; [done|]. exists (drop (j + i) (alog a n)).
    rewrite <- (take_drop (j + i) (alog a n)) at 1. rewrite <- Hagree.
    by rewrite firstn_all2 by zlen_lia.
Qed.

(** The durable state of [rf] with the log [y]. *)
Definition cutState rf (y : list LogEntry) : PersistState :=
  mkPS (term rf) (voteFor rf) (rep y (snapshotIndex rf)) (snapshotIndex rf) (snapshot rf).

Lemma cutState_ok a n rf x y m a1 :
  node_ok a n rf -> snapshotIndex rf < Z.of_nat m -> take m x = take m (alog a n) ->
  y `prefix_of` x -> (m <= length y)%nat -> ale a a1 -> aterm a1 = aterm a ->
  avote a1 = avote a -> alog a1 n = y -> disk_ok a1 n (cutState rf y).
Proof.
  intros N Hm Hagree Hy Hmy Hle Ht Hv Hl.
  eapply (disk_ok_log a a1 n (persisted rf)); eauto; [apply N| |simpl; zlen_lia]. simpl.
  apply (take_agree _ _ _ m); [|lia]. by rewrite <- Hagree, (prefix_take_eq y x m).
Qed.

Lemma jcur_cutState rf x m k j :
  snapshotIndex rf < Z.of_nat m -> 0 <= snapshotIndex rf -> (m <= length x)%nat ->
  jcur (jAppend (cutState rf (take m x) :: j) (take k (drop m x))) = cutState rf (take (m + k) x).
Proof.
  intros H1 H2 H3. rewrite jcur_jAppend. unfold cutState, ps_AppendLog; simpl. f_equal.
  rewrite <- rep_app by zlen_lia. by rewrite take_take_drop.
Qed.

(** Cutting at the conflict and appending entry by entry: each durable state on
    the way overwrites the log with a longer prefix of the leader's. *)
Lemma overwrite_durable a n rf el x m :
  inv a -> node_ok a n rf -> alead a (aterm a n) = Some el -> x `prefix_of` l_log el ->
  snapshotIndex rf < Z.of_nat m -> (m <= length x)%nat -> take m x = take m (alog a n) ->
  ~ x `prefix_of` alog a n ->
  (forall p, p `prefix_of` alog a n -> p `prefix_of` x -> p `prefix_of` take m x) ->
  durable ids S n a (wal rf) (jAppend (cutState rf (take m x) :: wal rf) (drop m x)).
Proof.
  intros I N Hel Hx Hsm Hm Hagree Hnx Hcommon. destruct (node_log _ _ _ _ _ N) as [_ Hs].
  set (j1 := cutState rf (take m x) :: wal rf).
  assert (Hj1 : wal rf `suffix_of` j1) by (by apply suffix_cons_r).
  assert (Hj2 : j1 `suffix_of` jAppend j1 (drop m x)) by apply jAppend_suffix.
  assert (Hstep : forall k, exists a', nsteps n a a' /\
    disk_ok a' n (cutState rf (take (m + k) x))).
  { intros k. set (y := take (m + k) x). assert (Hy : y `prefix_of` x) by apply prefix_take.
    assert (Hns : nsteps n a (set_alog n y a)).
    { eapply ns_overwrite; eauto. intros p Hp1 Hp2. etrans; [by apply Hcommon|].
      apply take_prefix_mono; [done|lia]. }
    exists (set_alog n y a). split; [done|]. apply (cutState_ok a n rf x y m); auto.
    - unfold y. rewrite length_take. lia.
    - by eapply nsteps_inv.
    - simpl. by rewrite fn_lookup_insert. }
  split; [by etrans|]. intros w H1 H2.
  destruct (suffix_weak_total _ _ _ H2 Hj2) as [Hw|Hw].
  - destruct (suffix_cons_cases _ _ _ H1 Hw) as [->| ->].
    + exists a. split; [reflexivity|by apply node_disk].
    + destruct (Hstep 0%nat) as (a' & ? & ?). rewrite Nat.add_0_r in *. by exists a'.
  - destruct (jAppend_between _ _ _ Hw H2) as (k & Hk & ->).
    unfold j1. rewrite jcur_cutState by (done || lia). apply Hstep.
Qed.

Lemma storeEntries_sim a n rf el x prev es :
  inv a -> node_ok a n rf -> customerId rf = Follower ->
  alead a (aterm a n) = Some el -> x `prefix_of` l_log el -> snapshotIndex rf <= prev ->
  zlen x = prev + 1 + zlen es -> es = drop (Z.to_nat (prev + 1)) x ->
  take (Z.to_nat (prev + 1)) x = take (Z.to_nat (prev + 1)) (alog a n) ->
  exists rf' a', storeEntries rf prev es = Some rf' /\ sim_to n a rf a' rf' /\
    x `prefix_of` alog a' n /\ (length x <= aacc a' (n, aterm a n))%nat /\
    aterm a' n = aterm a n /\ customerId rf' = Follower.
Proof.
  intros I N Hr Hel Hx Hsn Hlen Hes Htk. destruct (node_log _ _ _ _ _ N) as [Hl Hs].
  assert (Hx0 : x <> []) by (intros ->; pose proof (zlen_nonneg es); unfold zlen in Hlen; simpl in Hlen; lia).
  assert (Hwx : wf a x) by (eapply wf_prefix; [by eapply lead_wf|done|done]).
  destruct (match_agree a n rf x prev es) as (i & Hi & Hm & Hagree & Hdrop & Hcase); auto.
  set (m := (Z.to_nat (prev + 1) + i)%nat) in *.
  destruct (accepted a n el x Hel Hx Hx0) as (a' & Hns & Hlog' & Ht' & Hc' & Hv' & Hacc).
  destruct (nsteps_inv _ _ _ _ I Hns) as [I' Hle].
  unfold storeEntries. rewrite Hi. cbn [mbind option_bind]. unfold merge in Hlog'.
  destruct Hcase as [(Hc & Hnx & Hcommon)|(Hc & Hpx)].
  - rewrite decide_True by done. rewrite decide_False in Hlog' by done.
    assert (Hsm : snapshotIndex rf < Z.of_nat m) by lia.
    assert (Hml : Z.of_nat m <= zlen (alog a n)).
    { apply (f_equal length) in Hagree. rewrite !length_take in Hagree. zlen_lia. }
    replace (prev + 1 + Z.of_nat i) with (Z.of_nat m) by lia.
    assert (Hcut : gto (rep (alog a n) (snapshotIndex rf)) (Z.of_nat m - snapshotIndex rf) =
      Some (rep (take m x) (snapshotIndex rf))).
    { rewrite gto_Some by (rewrite zlen_rep; lia).
      rewrite rep_take by lia. by rewrite Nat2Z.id, Hagree. }
    unfold relIdx. rewrite Hl, Hcut. simpl. unfold ps_TruncateSuffix.
    rewrite (n_wal _ _ _ _ _ N). simpl. rewrite Hl, Hcut. simpl. fold (cutState rf (take m x)).
    rewrite Hdrop. eexists _, a'. split; [done|]. rewrite Hlog', Ht'. split_and!; auto.
    pose proof (jcur_cutState rf x m (length (drop m x)) (wal rf) Hsm ltac:(lia) Hm) as Hcur.
    rewrite firstn_all, length_drop, (firstn_all2 x (n := m + (length x - m))) in Hcur by lia.
    split; auto; [|by eapply overwrite_durable].
    destruct N as [H1 H2 H3 H4 H5 H6 H7 H8 H9].
    assert (Hrep : rep (take m x) (snapshotIndex rf) ++ drop m x = rep x (snapshotIndex rf)).
    { rewrite <- rep_app by zlen_lia. by rewrite take_drop. }
    split; simpl; rewrite ?Hc'; auto; try congruence.
    + rewrite Hcur. unfold persisted; simpl. by rewrite Hrep.
    + unfold persisted; simpl. rewrite Hrep. apply (cutState_ok a n rf x x m); auto. by split.
  - rewrite decide_False by done. rewrite decide_True in Hlog' by done.
    exists rf, a'. split; [done|]. rewrite Hlog', Ht'. split_and!; auto. apply sim_mem; auto.
    destruct N as [H1 H2 H3 [D1 D2 D3 D4 D5 D6] H5 H6 H7 H8 H9].
    split; rewrite ?Hc'; auto; [|congruence|congruence].
    split; rewrite ?Ht', ?Hlog', ?Hv'; auto. by eapply committed_mono.
Qed.

(** Raising the commit index of a node that does not change its log. *)
Lemma commit_sim a n rf i :
  inv a -> node_ok a n rf -> commitIndex rf <= i < zlen (alog a n) ->
  committed a (aterm a n) (pre (alog a n) i) ->
  sim_to n a rf (set_acommit n (Datatypes.S (Z.to_nat i)) a) (set_commitIndex i rf).
Proof.
  intros I N Hi Hc.
  assert (Hns : nsteps n a (set_acommit n (Datatypes.S (Z.to_nat i)) a)).
  { apply ns_commit; [|done]. destruct (node_log _ _ _ _ _ N) as [_ ?].
    pose proof (n_snap _ _ _ _ _ N). zlen_lia. }
  destruct (nsteps_inv _ _ _ _ I Hns) as [I' Hle].
  apply sim_mem; auto. destruct N as [H1 H2 H3 [D1 D2 D3 D4 D5 D6] H5 H6 H7 H8 H9].
  split; simpl; auto; try lia.
  - split; simpl; auto.
  - rewrite fn_lookup_insert. lia.
  - intros Hr. destruct (H8 Hr). by split.
  - intros Hr. destruct (H9 Hr). by split.
Qed.

Lemma conflictReply_total a n rf prev :
  node_ok a n rf -> snapshotIndex rf <= prev ->
  exists r, conflictReply rf prev = Some r /\ aer_Success r = false.
Proof.
  intros N Hp. unfold conflictReply. dcase; [eauto|].
  destruct (node_logAt_Some _ _ a n rf prev N ltac:(lia)) as (c & _ & -> & _). simpl.
  assert (Hscan : forall t k, Z.of_nat k <= prev - snapshotIndex rf -> is_Some (conflictScan rf t k)).
  { intros t k. induction k as [|k IH]; intros Hk; simpl; [eauto|].
    destruct (node_logAt_Some _ _ a n rf (snapshotIndex rf + Z.of_nat (Datatypes.S k)) N ltac:(lia))
      as (e & _ & He & _). rewrite He. simpl. dcase; [eauto|]. apply IH. lia. }
  destruct (Hscan (Term c) (Z.to_nat (prev - snapshotIndex rf)) ltac:(lia)) as [i ->]. simpl. eauto.
Qed.

Lemma replicate_sim a n rf (l : NodeID) args x :
  inv a -> node_ok a n rf -> customerId rf = Follower -> aterm a n = ae_Term args ->
  ae_Snapshot args = None -> ae_ok ids S a l n args x -> exists reply rf' a',
  replicate rf args = Some (reply, rf') /\ sim_to n a rf a' rf' /\ customerId rf' = Follower /\
  (aer_Success reply = true -> (length x <= aacc a' (n, ae_Term args))%nat).
Proof.
  intros I N Hr Ht Hsnap (_ & Hx & el & Hel & _ & Hxp). unfold ae_carries in Hx. rewrite Hsnap in Hx.
  destruct Hx as (Hp0 & Hlen & Hent & Hpt & Hlc & Hcc). unfold replicate. dcase.
  { eexists _, rf, a. split; [done|]. split; [by apply sim_refl|done]. }
  set (prev := ae_PrevLogIndex args) in *.
  pose proof (node_lastIndex _ _ _ _ _ N) as Hli. destruct (node_log _ _ _ _ _ N) as [_ Hs].
  assert (Hbad : exists b : bool, (if decide (lastLogIndex rf < prev) then Some true
    else e ← logAt rf prev; Some (bool_decide (Term e <> ae_PrevLogTerm args))) = Some b /\
    (b = false -> Term <$> (alog a n) @[prev] = Some (ae_PrevLogTerm args))).
  { dcase; [by exists true|].
    destruct (node_logAt_Some _ _ a n rf prev N ltac:(lia)) as (e & f & -> & -> & Hef). simpl.
    eexists. split; [done|]. intros Hb%bool_decide_eq_false_1. rewrite <- Hef. f_equal.
    by destruct (decide (Term e = ae_PrevLogTerm args)). }
  destruct Hbad as (bad & -> & Hok). cbn [mbind option_bind]. destruct bad.
  { destruct (conflictReply_total a n rf prev N ltac:(lia)) as (r & -> & Hf). simpl.
    eexists r, rf, a. split; [done|]. split; [by apply sim_refl|]. split; [done|]. congruence. }
  specialize (Hok eq_refl).
  assert (Hwx : wf a x).
  { eapply wf_prefix; [by eapply lead_wf|done|]. intros ->. zlen_lia. }
  assert (Htk : take (Z.to_nat (prev + 1)) x = take (Z.to_nat (prev + 1)) (alog a n)).
  { apply (agree_upto a); auto; [apply I|lia|zlen_lia|].
    replace (Z.to_nat (prev + 1) - 1)%nat with (Z.to_nat prev) by lia.
    unfold gidx in Hpt, Hok. rewrite decide_True in Hpt, Hok by lia. congruence. }
  rewrite <- Ht in Hel.
  destruct (storeEntries_sim a n rf el x prev (ae_Entries args))
    as (rf1 & a1 & -> & Hs1 & Hx1 & Hacc & Ht1 & Hr1); auto; [lia|]. cbn [mbind option_bind].
  pose proof (st_node _ _ _ _ _ _ _ Hs1) as N1. pose proof (st_inv _ _ _ _ _ _ _ Hs1) as I1.
  rewrite Ht in Hacc. dcase.
  2:{ by eexists _, rf1, a1. }
  assert (Hlast : ae_LeaderCommit args < zlen (alog a1 n)).
  { apply prefix_length in Hx1. zlen_lia. }
  rewrite (node_lastIndex _ _ _ _ _ N1), Z.min_l by lia.
  assert (Hs2 : sim_to n a1 rf1 (set_acommit n (Datatypes.S (Z.to_nat (ae_LeaderCommit args))) a1)
    (set_commitIndex (ae_LeaderCommit args) rf1)).
  { apply commit_sim; auto; [lia|]. rewrite (pre_prefix_eq x) by (done || lia).
    eapply committed_mono; [by eapply nsteps_inv, Hs1| |done]. lia. }
  eexists _, _, (set_acommit n _ a1). split; [done|]. split_and!; [|done|done].
  eapply sim_trans; [exact Hs1|]. eapply sim_core; [exact Hs2|by split].
Qed.

(** ** Follower: snapshots *)

(** A committed prefix of the leader's log that the node's own snapshot covers
    is a prefix of the node's log. *)
Lemma committed_covered a n rf T x :
  inv a -> node_ok a n rf -> committed a T x -> zlen x <= snapshotIndex rf + 1 ->
  x `prefix_of` alog a n.
Proof.
  intros I N Hc Hlen. destruct (node_log _ _ _ _ _ N) as [_ Hs].
  pose proof (d_committed _ _ _ _ _ (n_disk _ _ _ _ _ N)) as Hd. simpl in Hd.
  assert (Hpre : pre (alog a n) (snapshotIndex rf) `prefix_of` alog a n) by apply pre_prefix.
  destruct (committed_comparable _ _ _ _ _ _ I Hc Hd) as [Hp|Hp]; [by etrans|].
  etrans; [|exact Hpre]. rewrite (prefix_length_eq _ _ Hp); [done|].
  pose proof (zlen_pre (alog a n) (snapshotIndex rf) ltac:(lia)). zlen_lia.
Qed.

Lemma merge_prefix l x : x `prefix_of` merge l x.
Proof. unfold merge. by dcase. Qed.

(** The log an installed snapshot leaves. *)
Lemma installSnapshot_logs a n rf x i t :
  inv a -> node_ok a n rf -> wf a x -> snapshotIndex rf < i -> zlen x = i + 1 ->
  Term <$> x @[i] = Some t ->
  exists rest, (if decide (relIdx rf i < zlen (logs rf)) then
      e ← logAt rf i;
      if decide (Term e = t) then gfrom (logs rf) (relIdx rf i + 1) else Some []
    else Some []) = Some rest /\
  sentinel t :: rest = rep (merge (alog a n) x) i.
Proof.
  intros I N Hwx Hi Hlen Ht. destruct (node_log _ _ _ _ _ N) as [Hl Hs].
  destruct (x @[i]) as [e|] eqn:He; simplify_eq/=.
  assert (Hrx : [sentinel (Term e)] = rep x i).
  { rewrite (rep_cons x i e) by (done || lia). by rewrite drop_ge by zlen_lia. }
  assert (Hpx : x `prefix_of` alog a n -> (alog a n) @[i] = Some e) by (intros; by eapply prefix_gidx).
  unfold relIdx. rewrite Hl, zlen_rep by lia. dcase.
  - destruct (node_logAt_Some _ _ a n rf i N) as (f & g & -> & Hg & Hfg).
    { rewrite (node_lastIndex _ _ _ _ _ N). lia. }
    simpl. destruct (decide (Term f = Term e)) as [Heq|Hne].
    + rewrite gfrom_Some by (rewrite zlen_rep; lia). eexists. split; [done|].
      assert (Hp : x `prefix_of` alog a n).
      { apply prefix_take_iff. assert (take (length x) x = take (length x) (alog a n)) as <-.
        - apply gidx_Some in He as [_ He]. apply gidx_Some in Hg as [_ Hg].
          apply (agree_upto a); auto; [apply I|zlen_lia|].
          replace (length x - 1)%nat with (Z.to_nat i) by zlen_lia. rewrite He, Hg. simpl. congruence.
        - apply firstn_all. }
      unfold merge. rewrite decide_True by done. rewrite rep_cut; [done|lia|]. by rewrite (Hpx Hp).
    + exists []. split; [done|]. unfold merge. rewrite decide_False; [done|].
      intros Hp%Hpx. congruence.
  - exists []. split; [done|]. unfold merge. rewrite decide_False; [done|].
    intros Hp%Hpx%gidx_lt. lia.
Qed.

Lemma installSnapshot_sim a n rf (l : NodeID) args b x :
  inv a -> node_ok a n rf -> customerId rf = Follower -> aterm a n = ae_Term args ->
  ae_Snapshot args = Some b -> ae_ok ids S a l n args x -> exists reply rf' a',
  installSnapshot rf args b = Some (reply, rf') /\ sim_to n a rf a' rf' /\
  customerId rf' = Follower /\ (length x <= aacc a' (n, ae_Term args))%nat.
Proof.
  intros I N Hr Ht Hsnap (_ & Hx & el & Hel & _ & Hxp). unfold ae_carries in Hx. rewrite Hsnap in Hx.
  destruct Hx as (Hi0 & Hlen & Hst & Hcc & HS). set (i := ae_SnapshotIndex args) in *.
  assert (Hx0 : x <> []) by (intros ->; zlen_lia). rewrite <- Ht in Hel.
  assert (Hwx : wf a x) by (eapply wf_prefix; [by eapply lead_wf|done|done]).
  destruct (accepted a n el x Hel Hxp Hx0) as (a1 & Hns & Hlog1 & Ht1 & Hc1 & Hv1 & Hacc).
  destruct (nsteps_inv _ _ _ _ I Hns) as [I1 Hle]. rewrite Ht in Hacc.
  unfold installSnapshot. fold i. dcase.
  { assert (Hp : x `prefix_of` alog a n) by (eapply committed_covered; eauto; lia).
    unfold merge in Hlog1. rewrite decide_True in Hlog1 by done.
    eexists _, rf, a1. split; [done|]. split_and!; auto. apply sim_mem; auto.
    destruct N as [H1 H2 H3 [D1 D2 D3 D4 D5 D6] H5 H6 H7 H8 H9].
    split; rewrite ?Hc1; auto; [|congruence|congruence].
    split; rewrite ?Ht1, ?Hlog1, ?Hv1; auto. by eapply committed_mono. }
  destruct (installSnapshot_logs a n rf x i (ae_SnapshotTerm args)) as (rest & Hrest & Hrep); auto; [lia|].
  change (relIdx (set_snapshot (Some b) rf)) with (relIdx rf).
  change (logAt (set_snapshot (Some b) rf)) with (logAt rf).
  change (logs (set_snapshot (Some b) rf)) with (logs rf). rewrite Hrest. cbn -[Z.max].
  pose proof (merge_prefix (alog a n) x) as Hmp. set (m := merge (alog a n) x) in *.
  assert (Hpre : pre m i = x).
  { unfold pre. replace (Datatypes.S (Z.to_nat i)) with (length x) by zlen_lia. by apply prefix_take_iff. }
  assert (Hmi : i < zlen m) by (apply prefix_length in Hmp; zlen_lia).
  destruct (node_commit_len _ _ _ _ _ I N) as [Hcl _].
  set (c := Z.max (commitIndex rf) i).
  assert (Hns2 : nsteps n a1 (set_acommit n (Datatypes.S (Z.to_nat c)) a1)).
  { pose proof (n_commit _ _ _ _ _ N) as Hcm. pose proof (n_snap _ _ _ _ _ N) as Hsn.
    destruct (i_commit _ _ I1 n) as [Hcl1 Hcm1]. rewrite Hlog1, Hc1, Ht1 in *.
    unfold c. destruct (Z.max_spec (commitIndex rf) i) as [[Hlt ->]|[Hge ->]];
      apply ns_commit; rewrite ?Hlog1, ?Ht1.
    - zlen_lia.
    - fold (pre m i). rewrite Hpre, Ht. by eapply committed_mono.
    - destruct (node_log _ _ _ _ _ N). lia.
    - destruct (node_log _ _ _ _ _ N).
      by replace (Datatypes.S (Z.to_nat (commitIndex rf))) with (acommit a n) by lia. }
  destruct (nsteps_inv _ _ _ _ I1 Hns2) as [I2 Hle2].
  eexists _, _, (set_acommit n (Datatypes.S (Z.to_nat c)) a1). split; [done|]. split_and!; auto.
  apply sim_push; [done|done|by etrans| |]; simpl; rewrite (n_wal _ _ _ _ _ N); [|done].
  destruct N as [H1 H2 H3 [D1 D2 D3 D4 D5 D6] H5 H6 H7 H8 H9].
  split; simpl; auto; try lia; try congruence.
  - split; simpl; rewrite ?Ht1, ?Hlog1, ?Hv1; auto; [lia| |apply has_snap_intro; [lia|done]].
    rewrite Hpre, Ht. eapply committed_mono; [|reflexivity|done]. by etrans.
  - rewrite fn_lookup_insert. unfold c. lia.
Qed.

(** ** Follower: the handler *)

Lemma AppendEntries_sim a n rf (l : NodeID) args x :
  inv a -> node_ok a n rf -> ae_ok ids S a l n args x -> exists reply rf' a',
  AppendEntriesHandler rf args = Some (reply, rf') /\ sim_to n a rf a' rf' /\ quiet rf rf' /\
  (aer_Success reply = true -> (length x <= aacc a' (n, ae_Term args))%nat).
Proof.
  intros I N Hok. unfold AppendEntriesHandler. dcase.
  { eexists _, rf, a. split; [done|]. split; [by apply sim_refl|done]. }
  destruct (adoptTerm_sim _ _ a n rf (ae_Term args) I N) as (rf1 & a1 & -> & Hs1 & Hq1 & Ht1 & _).
  cbn [mbind option_bind]. pose proof (st_node _ _ _ _ _ _ _ Hs1) as N1.
  pose proof (st_inv _ _ _ _ _ _ _ Hs1) as I1.
  set (rf2 := resetElectionTimerLocked (set_leaderId (ae_LeaderId args) (set_customerId Follower rf1))).
  assert (Hs2 : sim_to n a1 rf1 a1 rf2).
  { eapply (sim_core _ _ _ _ _ _ (set_customerId Follower rf1)); [|by split].
    apply sim_mem; auto; [reflexivity|]. by apply node_follower. }
  pose proof (st_node _ _ _ _ _ _ _ Hs2) as N2.
  assert (Ht2 : aterm a1 n = ae_Term args) by (rewrite <- (node_term _ _ _ _ _ N1); lia).
  assert (Hok1 : ae_ok ids S a1 l n args x) by (eapply ae_ok_mono; [by eapply nsteps_inv, Hs1|done]).
  assert (Hs12 : sim_to n a rf a1 rf2) by (by eapply sim_trans).
  assert (Hq : forall rf', customerId rf' = Follower -> quiet rf rf') by (intros rf' ? ?; congruence).
  destruct (ae_Snapshot args) as [b|] eqn:Hsnap.
  - destruct (installSnapshot_sim a1 n rf2 l args b x) as (r & rf' & a' & -> & Hs3 & Hr & Ha); auto.
    exists r, rf', a'. split_and!; auto. by eapply sim_trans.
  - destruct (replicate_sim a1 n rf2 l args x) as (r & rf' & a' & -> & Hs3 & Hr & Ha); auto.
    exists r, rf', a'. split_and!; auto. by eapply sim_trans.
Qed.

(** ** Leader: committing *)

(** An index of the leader's term that a majority acknowledged is committed. *)
Lemma count_committed a n rf N e :
  node_ok a n rf -> n ∈ ids -> NoDup ids -> customerId rf = Leader -> 0 < N ->
  (alog a n) @[N] = Some e -> Term e = term rf -> zlen (nodeIDs rf) / 2 < replicaCount rf N ->
  committed a (aterm a n) (pre (alog a n) N).
Proof.
  intros No Hn Hnd Hr HN He Hte Hcnt. right. pose proof (node_term _ _ _ _ _ No) as Ht.
  destruct (lead_election _ _ _ No Hr) as (el & Hel & Hid & Hlog).
  pose proof (n_lead _ _ _ _ _ No Hr) as [_ L2 L3 _]. rewrite Ht in *.
  unfold replicaCount in Hcnt. rewrite (n_nodes _ _ _ _ _ No), (n_me _ _ _ _ _ No) in Hcnt.
  apply gidx_lt in He as Hlt. apply gidx_Some in He as [_ He].
  assert (Hsplit : pre (alog a n) N = take (Z.to_nat N) (alog a n) ++ [e])
    by (by apply take_S_r).
  exists (aterm a n), el, (n :: filter (fun id => id <> n /\ N <= mget (matchIndex rf) id) ids),
    (take (Z.to_nat N) (alog a n)), e.
  rewrite <- Hsplit, <- Hlog. split_and!; auto; [lia| |apply pre_prefix|].
  - split_and!; [| |by rewrite zlen_cons].
    2:{ intros q [->|Hq]%elem_of_cons; [done|]. by apply list_elem_of_filter in Hq as [_ ?]. }
    constructor; [|by apply NoDup_filter]. rewrite list_elem_of_filter. tauto.
  - intros q Hq. rewrite length_take_le by zlen_lia. apply elem_of_cons in Hq as [->|Hq].
    + rewrite L2. zlen_lia.
    + apply list_elem_of_filter in Hq as [[_ Hm] Hq]. destruct (L3 q Hq) as [_ Hm'].
      specialize (Hm' ltac:(lia)). lia.
Qed.

Lemma advanceCommit_sim a n rf N k :
  inv a -> node_ok a n rf -> n ∈ ids -> NoDup ids -> customerId rf = Leader ->
  commitIndex rf < N -> N + Z.of_nat k = zlen (alog a n) -> exists rf' a',
  advanceCommit rf N k = Some rf' /\ sim_to n a rf a' rf' /\ customerId rf' = Leader.
Proof.
  intros I No Hn Hnd. revert a rf N I No. induction k as [|k IH]; intros a rf N I No Hr Hc Hlen; simpl.
  { exists rf, a. split_and!; auto. by apply sim_refl. }
  destruct (node_log _ _ _ _ _ No) as [_ Hs]. pose proof (n_snap _ _ _ _ _ No) as Hsn.
  destruct (node_logAt_Some _ _ a n rf N No) as (e & f & He & Hf & Hef).
  { rewrite (node_lastIndex _ _ _ _ _ No). lia. }
  rewrite He. simpl. dcase; [apply IH; auto; lia|]. dcase; [|apply IH; auto; lia].
  assert (Hcm : committed a (aterm a n) (pre (alog a n) N)).
  { eapply count_committed; eauto; [lia|].
    destruct (decide (Term e = term rf)); [congruence|tauto]. }
  pose proof (commit_sim a n rf N I No ltac:(lia) Hcm) as Hs1.
  destruct (IH _ (set_commitIndex N rf) (N + 1) (st_inv _ _ _ _ _ _ _ Hs1) (st_node _ _ _ _ _ _ _ Hs1))
    as (rf' & a' & Hrf' & Hs2 & Hr'); simpl; auto; [lia|lia|].
  exists rf', a'. split_and!; auto. by eapply sim_trans.
Qed.

(** An acknowledgement raises what the leader knows of its follower. *)
Lemma match_node_ok a n rf (v : NodeID) newMatch :
  node_ok a n rf -> customerId rf = Leader -> newMatch < Z.of_nat (aacc a (v, term rf)) ->
  let rf1 := if decide (mget (matchIndex rf) v < newMatch)
    then set_matchIndex (<[v := newMatch]> (matchIndex rf)) rf else rf in
  node_ok a n (set_nextIndex (<[v := mget (matchIndex rf1) v + 1]> (nextIndex rf1)) rf1).
Proof.
  intros N Hr Hm. pose proof (n_lead _ _ _ _ _ N Hr) as [L1 L2 L3 L4].
  assert (Hmget : forall m k z (id : NodeID), mget (<[k := z]> m) id = if decide (k = id) then z else mget m id).
  { intros m k z id. unfold mget. destruct (decide (k = id)) as [->|].
    - by rewrite lookup_insert_eq.
    - by rewrite lookup_insert_ne. }
  destruct N as [H1 H2 H3 H4 H5 H6 H7 H8 H9].
  dcase; split; simpl; auto; try congruence; intros _; split; simpl; auto.
  - intros id Hid. rewrite Hmget. destruct (decide (v = id)) as [->|]; [|auto].
    destruct (L3 id Hid). lia.
  - intros id Hid. rewrite !Hmget. destruct (decide (v = id)) as [->|]; [|auto].
    rewrite decide_True by done. destruct (L3 id Hid). lia.
  - intros id Hid. rewrite Hmget. destruct (decide (v = id)) as [->|]; [|auto].
    destruct (L3 id Hid). lia.
Qed.

Lemma onAppendReply_sim a n rf (v : NodeID) args reply x :
  inv a -> node_ok a n rf -> n ∈ ids -> NoDup ids -> ae_ok ids S a n v args x ->
  (aer_Success reply = true -> (length x <= aacc a (v, ae_Term args))%nat) ->
  exists rf' a', onAppendReply rf v args reply = Some rf' /\ sim_to n a rf a' rf' /\ quiet rf rf'.
Proof.
  intros I N Hn Hnd (_ & Hx & _) Hacc. unfold onAppendReply. dcase.
  { destruct (stepDown_sim ids S a n rf (aer_Term reply)) as (rf' & -> & Hs & Ht & Hr); auto.
    eexists rf', _. split_and!; eauto. unfold quiet. congruence. }
  dcase; [exists rf, a; split_and!; [done|by apply sim_refl|done]|].
  destruct (decide (customerId rf = Leader)) as [Hr|]; [|tauto].
  destruct (decide (term rf = ae_Term args)) as [Ht|]; [|tauto].
  assert (Hq : forall rf', customerId rf' = Leader -> quiet rf rf') by (intros ? ? ?; congruence).
  destruct (aer_Success reply).
  - specialize (Hacc eq_refl). rewrite <- Ht in Hacc. set (newMatch := match ae_Snapshot args with
      | Some _ => ae_SnapshotIndex args
      | None => ae_PrevLogIndex args + zlen (ae_Entries args)
      end).
    assert (Hm : newMatch < Z.of_nat (aacc a (v, term rf))).
    { unfold newMatch, ae_carries in *. destruct (ae_Snapshot args); des; zlen_lia. }
    pose proof (match_node_ok a n rf v newMatch N Hr Hm) as N1. cbn zeta in N1.
    set (rf1 := if decide (mget (matchIndex rf) v < newMatch) then _ else rf) in *.
    set (rf2 := set_nextIndex _ rf1) in *.
    assert (Hr2 : customerId rf2 = Leader) by (unfold rf2, rf1; by dcase).
    assert (Hw2 : wal rf2 = wal rf) by (unfold rf2, rf1; by dcase).
    pose proof (node_lastIndex _ _ _ _ _ N1) as Hli.
    destruct (node_commit_len _ _ _ _ _ I N1) as [Hcl _].
    destruct (advanceCommit_sim a n rf2 (commitIndex rf2 + 1)
      (Z.to_nat (lastLogIndex rf2 - commitIndex rf2)) I N1 Hn Hnd Hr2 ltac:(lia) ltac:(lia))
      as (rf' & a' & -> & Hs & Hr').
    assert (Hs' : sim_to n a rf a' rf').
    { eapply sim_trans; [|exact Hs]. apply sim_mem; auto. reflexivity. }
    cbn [mbind option_bind]. dcase.
    + eexists _, a'. split_and!; [done| |by apply Hq]. eapply sim_core; [done|by split].
    + exists rf', a'. auto.
  - dcase; [exists rf, a; split_and!; [done|by apply sim_refl|done]|].
    eexists _, a. split; [done|]. split; [|by apply Hq].
    apply sim_mem; auto; [reflexivity|]. pose proof (n_lead _ _ _ _ _ N Hr) as [L1 L2 L3 L4].
    destruct N as [H1 H2 H3 H4 H5 H6 H7 H8 H9]. split; simpl; auto; [congruence|].
    intros _. split; simpl; auto. intros id Hid. unfold mget. destruct (decide (v = id)) as [->|].
    + rewrite lookup_insert_eq. simpl. dcase; lia.
    + rewrite lookup_insert_ne by done. by apply L4.
Qed.

(** ** The service: snapshots and deliveries *)

Lemma Snapshot_sim a n rf i b :
  inv a -> node_ok a n rf -> i <= appliedIndex rf -> (i, b) ∈ S -> exists rf',
  Snapshot rf i (Some b) = Some rf' /\ sim_to n a rf a rf' /\ quiet rf rf'.
Proof.
  intros I N Hi HS. unfold Snapshot. dcase; [exists rf; split_and!; [done|by apply sim_refl|done]|].
  destruct (node_log _ _ _ _ _ N) as [Hl Hs]. pose proof (node_lastIndex _ _ _ _ _ N) as Hli.
  destruct (node_commit_len _ _ _ _ _ I N) as [Hcl Hcc]. pose proof (n_applied _ _ _ _ _ N) as Hap.
  rewrite decide_False by lia.
  destruct (node_logAt_Some _ _ a n rf i N ltac:(lia)) as (e & f & -> & Hf & Hef).
  cbn [mbind option_bind]. unfold relIdx. rewrite Hl, gfrom_Some by (rewrite zlen_rep; lia).
  cbn [mbind option_bind]. rewrite rep_cut by (rewrite ?Hf; simpl; congruence || lia).
  assert (Hrep : rep (alog a n) i = sentinel (Term f) :: drop (Z.to_nat (i + 1)) (alog a n))
    by (apply rep_cons; [lia|done]).
  unfold walSaveSnapshot. simpl. rewrite Hrep. simpl. eexists. split; [done|].
  split; [|intros ?; done].
  apply sim_push; auto; [reflexivity| |]; simpl; rewrite (n_wal _ _ _ _ _ N); [|done].
  destruct N as [H1 H2 H3 [D1 D2 D3 D4 D5 D6] H5 H6 H7 H8 H9].
  split; simpl; auto; try lia.
  - split; simpl; auto; [lia| |apply has_snap_intro; [simpl in *; lia|done]]. eapply committed_prefix; [|exact Hcc]. apply pre_mono. lia.
  - intros Hr. destruct (H8 Hr). by split.
  - intros Hr. destruct (H9 Hr). by split.
Qed.

(** What a delivered message says: a committed command at its index, or a
    snapshot that some service took at its index. *)
Definition msg_ok a n (m : ApplyMsg) : Prop :=
  exists T x, T <= aterm a n /\ committed a T x /\
  if am_CommandValid m
  then exists e, x @[am_CommandIndex m] = Some e /\ am_Command m = Command e
  else exists b, am_Snapshot m = Some b /\ (am_SnapshotIndex m, b) ∈ S /\
         zlen x = am_SnapshotIndex m + 1.

Lemma msg_ok_mono a a' n m : ale a a' -> msg_ok a n m -> msg_ok a' n m.
Proof.
  intros Hle (T & x & HT & Hc & Hm). exists T, x. pose proof (ale_term _ _ Hle n).
  split_and!; [lia|by eapply committed_mono|done].
Qed.

Lemma sendApplyMsg_sim a n rf :
  inv a -> node_ok a n rf -> exists msgs rf',
  sendApplyMsg rf = Some (msgs, rf') /\ sim_to n a rf a rf' /\ quiet rf rf' /\
  (forall m, m ∈ msgs -> msg_ok a n m).
Proof.
  intros I N. unfold sendApplyMsg. destruct (dead rf).
  { eexists _, rf. split; [done|]. split_and!; [by apply sim_refl|done|]. intros m Hm. by apply elem_of_nil in Hm. }
  dcase.
  { eexists _, _. split; [done|]. split_and!; [|intros ?; done|intros m Hm; by apply elem_of_nil in Hm].
    eapply sim_core; [by apply sim_refl|by split]. }
  destruct (node_log _ _ _ _ _ N) as [Hl Hs]. destruct (node_commit_len _ _ _ _ _ I N) as [Hcl Hcc].
  pose proof (n_applied _ _ _ _ _ N) as Hap. pose proof (n_snap _ _ _ _ _ N) as Hsn.
  set (r := if decide _ then _ else _). destruct r as [snap start] eqn:Er. unfold r in Er.
  assert (Hstart : snapshotIndex rf < start <= commitIndex rf + 1) by (dcase; simplify_eq; lia).
  assert (Hsnap : forall b, snap = Some b -> (snapshotIndex rf, b) ∈ S).
  { intros b ->. dcase; simplify_eq.
    destruct (d_snap _ _ _ _ _ (n_disk _ _ _ _ _ N) ltac:(simpl; lia)) as (b' & ? & ?). simplify_eq/=.
    congruence. }
  destruct (gidx_is_Some (alog a n) (snapshotIndex rf) ltac:(lia)) as [e0 He0].
  assert (Hhd : (logs rf) @[0] = Some (sentinel (Term e0))).
  { rewrite Hl, (rep_cons _ _ e0) by (done || lia). done. }
  rewrite Hhd. cbn [mbind option_bind]. unfold relIdx.
  rewrite gslice_Some by (rewrite ?Hl, ?zlen_rep; lia). cbn [mbind option_bind].
  eexists _, _. split; [done|]. split_and!.
  - eapply (sim_core _ _ _ _ _ _ (set_appliedIndex (commitIndex rf) rf)); [|by split].
    apply sim_mem; auto; [reflexivity|]. destruct N as [H1 H2 H3 H4 H5 H6 H7 H8 H9].
    split; simpl; auto; [lia| |]; intros Hr; [destruct (H8 Hr)|destruct (H9 Hr)]; by split.
  - intros ?. done.
  - intros m [Hm|Hm]%elem_of_app.
    + destruct snap as [b|]; [|by apply elem_of_nil in Hm]. apply list_elem_of_singleton in Hm as ->.
      eexists _, _. split; [reflexivity|]. split; [apply (d_committed _ _ _ _ _ (n_disk _ _ _ _ _ N))|]. simpl.
      exists b. split_and!; auto. apply zlen_pre. lia.
    + eexists _, _. split; [reflexivity|]. split; [exact Hcc|]. apply elem_of_lookup_imap in Hm as (k & e & -> & He). simpl.
      exists e. split; [|done]. apply lookup_take_Some in He as [He Hk].
      rewrite lookup_drop in He.
      assert (Hi : (rep (alog a n) (snapshotIndex rf)) @[start + Z.of_nat k - snapshotIndex rf] = Some e).
      { apply gidx_Some. split; [lia|]. rewrite <- Hl, <- He. f_equal. lia. }
      rewrite rep_idx in Hi by lia.
      rewrite <- (prefix_gidx_eq _ _ _ (pre_prefix (alog a n) (commitIndex rf))), Hi; [done|].
      rewrite zlen_pre by lia. lia.
Qed.

End replicate.
