(* ===== verification/RaftRefine.v ===== *)
(** * The cluster refines the protocol

    [sim] relates a cluster of [RaftNet] to a state of [RaftSpec].  [exec_sim]
    puts the handlers together: no handler panics, each one refines abstract
    steps, and so does a crash in the middle of it.  [step_sim] is the forward
    simulation; the safety theorems of the cluster follow from it. *)

From S2P Require Import Prelude Wal Raft RaftSpec RaftSpecInv RaftNet RaftRel RaftElect RaftReplicate.

(** The vote RPC a packet belongs to: candidate, voter, term. *)
Definition vkey (p : packet) : option (NodeID * NodeID * Z) :=
  match p with
  | ReqVote c v args => Some (c, v, rv_Term args)
  | RepVote v c args _ => Some (c, v, rv_Term args)
  | _ => None
  end.

Abbreviation vkeys := (omap vkey).

Section refine.
Context (ids : list NodeID) (Hids : "" ∉ ids) (Hnd : NoDup ids).
Implicit Types (a : astate) (c : cluster) (n v : NodeID) (rf : Raft Journal).

Abbreviation inv := (inv ids).
Abbreviation astep := (astep ids).

(** ** Snapshots taken later do not matter *)

Section snaps.
Context (S S' : list (Z * list byte)) (HS : S ⊆ S').

Lemma node_ok_snaps a n rf : node_ok ids S a n rf -> node_ok ids S' a n rf.
Proof.
  intros [H1 H2 H3 [D1 D2 D3 D4 D5 D6] H5 H6 H7 H8 H9]. split; auto. split; auto.
  unfold has_snap in *. dcase; [|done]. destruct D6 as (b & ? & ?). eauto.
Qed.

Lemma packet_ok_snaps a p : packet_ok ids S a p -> packet_ok ids S' a p.
Proof.
  assert (Hae : forall l v args x, ae_ok ids S a l v args x -> ae_ok ids S' a l v args x).
  { intros l v args x (? & Hx & ?). split_and!; auto. unfold ae_carries in *.
    destruct (ae_Snapshot args); [|done]. des. split_and!; auto. }
  destruct p; simpl; auto; intros; des; eauto.
Qed.

Lemma msg_ok_snaps a n m : msg_ok ids S a n m -> msg_ok ids S' a n m.
Proof.
  intros (T & x & HT & Hc & Hm). exists T, x. split_and!; auto.
  destruct (am_CommandValid m); [done|]. des. eauto.
Qed.

End snaps.

(** ** The simulation relation *)

Record sim c a : Prop := {
  s_inv : inv a;
  s_node n : n ∈ ids -> node_ok ids (c_snaps c) a n (c_node c n);
  s_net p : p ∈ c_net c -> packet_ok ids (c_snaps c) a p;
  (* at most one packet per vote RPC, and none for the votes already counted *)
  s_keys : NoDup (vkeys (c_net c));
  s_votes n : n ∈ ids -> customerId (c_node c n) = Candidate ->
    exists Q, counted ids a n (c_node c n) Q /\
      forall q, q ∈ Q -> (n, q, term (c_node c n)) ∉ vkeys (c_net c);
  s_out n m : (n, m) ∈ c_out c -> msg_ok ids (c_snaps c) a n m
}.

(** What a section of code of node [n] does to the vote RPCs in flight. *)
Record votes_step n a' rf' (K K' : list (NodeID * NodeID * Z)) : Prop := {
  vs_nodup : NoDup K';
  vs_other m q t : m <> n -> (m, q, t) ∈ K' -> (m, q, t) ∈ K;
  vs_own : customerId rf' = Candidate ->
    exists Q, counted ids a' n rf' Q /\ forall q, q ∈ Q -> (n, q, term rf') ∉ K'
}.

Lemma counted_mono a a' n rf Q : ale a a' -> counted ids a n rf Q -> counted ids a' n rf Q.
Proof.
  intros Hle (? & ? & ? & Hv). split_and!; auto. intros q Hq. eapply ale_vote; eauto.
Qed.

Lemma submseteq_elem {A} (l k : list A) x : l ⊆+ k -> x ∈ l -> x ∈ k.
Proof. intros H Hx. by eapply elem_of_submseteq. Qed.

Lemma NoDup_submseteq_r {A} (l k : list A) : NoDup k -> l ⊆+ k -> NoDup l.
Proof.
  intros Hk [k' Hp]%submseteq_Permutation. rewrite Hp in Hk. by apply NoDup_app in Hk as [? _].
Qed.

Lemma votes_quiet c a n rf' a' K' :
  sim c a -> n ∈ ids -> ale a a' -> quiet (c_node c n) rf' -> K' ⊆+ vkeys (c_net c) ->
  votes_step n a' rf' (vkeys (c_net c)) K'.
Proof.
  intros Hsim Hn Hle Hq HK. split.
  - eapply NoDup_submseteq_r; [apply Hsim|done].
  - intros m q t _. by eapply submseteq_elem.
  - intros Hr. destruct (Hq Hr) as (Hr0 & Ht & Hv).
    destruct (s_votes _ _ Hsim n Hn Hr0) as (Q & HQ & HQK). exists Q. split.
    + apply (counted_mono a a' _ _ _ Hle) in HQ as (H1 & H2 & H3 & H4).
      unfold counted. rewrite Hv, Ht. done.
    + intros q Hqq HK'. rewrite Ht in HK'. eapply HQK; [done|]. by eapply submseteq_elem.
Qed.

(** A key in flight belongs to a candidacy of its candidate. *)
Lemma key_cand c a n q t :
  sim c a -> (n, q, t) ∈ vkeys (c_net c) -> n <> q /\ t <= aterm a n.
Proof.
  intros Hsim Hk. apply list_elem_of_omap in Hk as (p & Hp & Hk).
  apply (s_net _ _ Hsim) in Hp.
  assert (exists args, vreq_ok ids a n q args /\ rv_Term args = t) as (args & Hv & <-).
  { destruct p; simplify_eq/=; des; eauto. }
  destruct Hv as (? & ? & _ & _ & cl & Hcl & _). apply (i_cand _ _ (s_inv _ _ Hsim)) in Hcl. split; [done|lia].
Qed.

(** The packets of a new round. *)
Lemma vkeys_round rf round :
  vkeys (voteRequests rf round) =
  (fun v => (me rf, v, er_term round)) <$> filter (fun id => id <> me rf) (nodeIDs rf).
Proof.
  unfold voteRequests, sendRequestVotes.
  induction (filter (fun id => id <> me rf) (nodeIDs rf)) as [|x l IH]; simpl; [done|].
  f_equal. done.
Qed.

Lemma votes_round c a n rf' a' ps net :
  sim c a -> n ∈ ids -> ale a a' -> node_ok ids (c_snaps c) a' n rf' ->
  term (c_node c n) < term rf' -> customerId rf' = Candidate -> voteCount rf' = 1 ->
  vkeys ps = (fun v => (n, v, term rf')) <$> filter (fun id => id <> n) ids ->
  vkeys net ⊆+ vkeys (c_net c) -> votes_step n a' rf' (vkeys (c_net c)) (vkeys (ps ++ net)).
Proof.
  intros Hsim Hn Hle N' Ht Hr Hv Hps Hnet. rewrite omap_app, Hps.
  assert (Hfresh : forall q, (n, q, term rf') ∉ vkeys net).
  { intros q Hq. eapply submseteq_elem in Hq; [|done]. apply (key_cand _ _ _ _ _ Hsim) in Hq as [_ Hq].
    rewrite (node_term _ _ _ _ _ (s_node _ _ Hsim n Hn)) in Ht. lia. }
  split.
  - apply NoDup_app. split_and!.
    + apply NoDup_fmap; [intros ? ? ?; congruence|]. by apply NoDup_filter.
    + intros k Hk. apply list_elem_of_fmap in Hk as (q & -> & _). apply Hfresh.
    + eapply NoDup_submseteq_r; [apply Hsim|done].
  - intros m q t Hm [Hk|Hk]%elem_of_app; [|by eapply submseteq_elem].
    apply list_elem_of_fmap in Hk as (? & ? & _). congruence.
  - intros _. exists [n]. split.
    + split_and!; [apply NoDup_singleton|set_solver|by rewrite Hv|].
      intros q Hq. apply list_elem_of_singleton in Hq as ->. apply (n_cand _ _ _ _ _ N' Hr).
    + intros q Hq. apply list_elem_of_singleton in Hq as ->. intros [Hk|Hk]%elem_of_app; [|by eapply Hfresh].
      apply list_elem_of_fmap in Hk as (q & ? & Hq). apply list_elem_of_filter in Hq as [? _]. congruence.
Qed.

(** ** One section of code *)

Record exec_ok S' c a n (net : list packet) rf' ps (ms : list ApplyMsg) a' : Prop := {
  x_sim : sim_to ids S' n a (c_node c n) a' rf';
  x_net p : p ∈ ps -> packet_ok ids S' a' p;
  x_out m : m ∈ ms -> msg_ok ids S' a' n m;
  x_votes : votes_step n a' rf' (vkeys (c_net c)) (vkeys (ps ++ net))
}.

Lemma sim_ale S n a rf a' rf' : inv a -> sim_to ids S n a rf a' rf' -> ale a a'.
Proof. intros I H. by eapply nsteps_inv, H. Qed.

(** A section that sends nothing that concerns votes and delivers nothing. *)
Lemma exec_quiet S' c a n net rf' ps a' :
  sim c a -> n ∈ ids -> sim_to ids S' n a (c_node c n) a' rf' -> quiet (c_node c n) rf' ->
  (forall p, p ∈ ps -> packet_ok ids S' a' p) -> vkeys (ps ++ net) ⊆+ vkeys (c_net c) ->
  exec_ok S' c a n net rf' ps [] a'.
Proof.
  intros Hsim Hn Hs Hq Hps HK. split; auto.
  - intros m Hm. by apply elem_of_nil in Hm.
  - eapply votes_quiet; eauto. eapply sim_ale; [apply Hsim|done].
Qed.

(** A section that may start a new round. *)
Lemma exec_round c a n net rf' ps a' (round : option electionRound) :
  sim c a -> n ∈ ids -> sim_to ids (c_snaps c) n a (c_node c n) a' rf' ->
  me rf' = n -> nodeIDs rf' = ids ->
  match round with
  | None => quiet (c_node c n) rf'
  | Some r => term (c_node c n) < term rf' /\ customerId rf' = Candidate /\ voteCount rf' = 1 /\
      exists l, r = mkRound (term rf') (zlen l - 1) (last_term l) /\ acand a' (n, term rf') = Some l
  end ->
  (forall p, p ∈ ps -> packet_ok ids (c_snaps c) a' p) -> vkeys ps = [] ->
  vkeys net ⊆+ vkeys (c_net c) ->
  exec_ok (c_snaps c) c a n net rf' (ps ++ roundRequests rf' round) [] a'.
Proof.
  intros Hsim Hn Hs Hme Hnod Hr Hps Hk Hnet. pose proof (sim_ale _ _ _ _ _ _ (s_inv _ _ Hsim) Hs) as Hle.
  destruct round as [r|]; simpl.
  - destruct Hr as (Ht & Hc & Hv & l & -> & Hl). split; auto.
    + intros p [?|Hp]%elem_of_app; [auto|]. eapply voteRequests_ok; eauto.
    + intros m Hm. by apply elem_of_nil in Hm.
    + eapply votes_round; eauto; [apply Hs|]. by rewrite omap_app, Hk, vkeys_round, Hme, Hnod.
  - rewrite app_nil_r. apply exec_quiet; auto. by rewrite omap_app, Hk.
Qed.

(** The reply to a vote request. *)
Lemma recv_vote_reply c a n src args reply net :
  sim c a -> n ∈ ids -> c_net c ≡ₚ RepVote src n args reply :: net -> packet_ok ids (c_snaps c) a (RepVote src n args reply) ->
  exists rf' ps a', recv (c_node c n) (RepVote src n args reply) = Some (rf', ps) /\ exec_ok (c_snaps c) c a n net rf' ps [] a'.
Proof.
  intros Hsim Hn Hnet Hp. pose proof (s_node _ _ Hsim n Hn) as N. pose proof (s_inv _ _ Hsim) as I. simpl in Hp. simpl recv.
  assert (HK : vkeys (c_net c) ≡ₚ (n, src, rv_Term args) :: vkeys net) by (by rewrite Hnet).
  assert (HK0 : vkeys net ⊆+ vkeys (c_net c)) by (rewrite HK; by apply submseteq_cons).
  destruct Hp as [Hp Hg].
  assert (Hnodup : NoDup ((n, src, rv_Term args) :: vkeys net)) by (rewrite <- HK; apply Hsim).
  apply NoDup_cons in Hnodup as [Hkey Hnodup].
  destruct (onVoteReply_sim ids _ Hids a n (c_node c n) src args reply I N Hn Hp Hg)
    as (rf' & a' & -> & Hs & Hq).
  { intros Hr Ht. destruct (s_votes _ _ Hsim n Hn Hr) as (Q & HQ & HQK). exists Q. split; [done|].
    intros Hsrc. apply (HQK src Hsrc). rewrite HK, Ht. set_solver. }
  simpl. eexists rf', [], a'. split; [done|].
  destruct Hq as [Hq|(Hr' & Hr & Ht' & Ht & Hv & Hgr)].
  { apply exec_quiet; auto. intros q Hq'. by apply elem_of_nil in Hq'. }
  assert (Hle : ale a a') by (by eapply sim_ale). split; auto.
  + intros q Hq'. by apply elem_of_nil in Hq'.
  + intros m Hm. by apply elem_of_nil in Hm.
  + split; auto; [intros ? ? ? _; by eapply submseteq_elem|]. intros _.
    destruct (s_votes _ _ Hsim n Hn Hr) as (Q & HQ & HQK).
    apply (counted_mono _ a' _ _ _ Hle) in HQ as (Q1 & Q2 & Q3 & Q4).
    assert (HQsrc : src ∉ Q) by (intros Hsrc; apply (HQK src Hsrc); rewrite HK, Ht; set_solver).
    exists (src :: Q). rewrite Ht'. split.
    * destruct Hp as (_ & _ & _ & Hsrc & _). split_and!; [by constructor|set_solver|rewrite zlen_cons; lia|].
      intros q [->|Hq]%elem_of_cons; rewrite Ht'; [|auto]. rewrite Ht. eapply ale_vote; [done|auto].
    * intros q [->|Hq]%elem_of_cons; [by rewrite Ht|].
      intros Hk. eapply HQK; [exact Hq|]. by eapply submseteq_elem.
Qed.

Lemma recv_sim c a n p net :
  sim c a -> n ∈ ids -> dest p = n -> c_net c ≡ₚ p :: net -> exists rf' ps a',
  recv (c_node c n) p = Some (rf', ps) /\ exec_ok (c_snaps c) c a n net rf' ps [] a'.
Proof.
  intros Hsim Hn Hd Hnet. pose proof (s_node _ _ Hsim n Hn) as N. pose proof (s_inv _ _ Hsim) as I.
  assert (Hp : packet_ok ids (c_snaps c) a p).
  { apply (s_net _ _ Hsim). rewrite Hnet. set_solver. }
  assert (HK : vkeys (c_net c) ≡ₚ vkeys (p :: net)) by (by rewrite Hnet).
  assert (HK0 : vkeys net ⊆+ vkeys (c_net c)).
  { rewrite HK. simpl. destruct (vkey p); [by apply submseteq_cons|done]. }
  destruct p as [src dst args|src dst args reply|src dst args|src dst args reply|src dst args|src dst reply];
    simpl in Hd; subst dst; simpl in Hp; simpl recv.
  - destruct (RequestVote_sim ids _ Hids a n _ src args I N Hp) as (r & rf' & a' & -> & Hs & Hq & Hg).
    simpl. eexists rf', _, a'. split; [done|]. apply exec_quiet; auto.
    + intros q Hq'. apply list_elem_of_singleton in Hq' as ->. simpl. split; [|done].
      eapply vreq_ok_mono; [|done]. by eapply sim_ale.
    + simpl. by rewrite HK.
  - exact (recv_vote_reply c a n src args reply net Hsim Hn Hnet Hp).
  - destruct Hp as [x Hx].
    destruct (AppendEntries_sim ids _ a n (c_node c n) src args x I N Hx) as (r & rf' & a' & -> & Hs & Hq & Ha).
    simpl. eexists rf', _, a'. split; [done|]. apply exec_quiet; auto.
    intros q Hq'. apply list_elem_of_singleton in Hq' as ->. simpl. exists x. split; [|done].
    eapply ae_ok_mono; [|done]. by eapply sim_ale.
  - destruct Hp as (x & Hx & Ha).
    destruct (onAppendReply_sim ids _ a n (c_node c n) src args reply x I N Hn Hnd Hx Ha)
      as (rf' & a' & -> & Hs & Hq).
    simpl. eexists rf', [], a'. split; [done|]. apply exec_quiet; auto.
    intros q Hq'. by apply elem_of_nil in Hq'.
  - destruct (TimeoutNow_sim ids _ Hids a n (c_node c n) args I N Hn)
      as (r & round & rf' & a' & -> & Hs & Hme & Hnod & Hr).
    simpl. eexists rf', _, a'. split; [done|]. apply (exec_round _ _ _ _ _ [_]); auto.
    intros q Hq'. by apply list_elem_of_singleton in Hq' as ->.
  - destruct (adoptTerm_sim ids (c_snaps c) a n (c_node c n) (tnr_Term reply) I N)
      as (rf' & a' & -> & Hs & Hq & _).
    simpl. eexists rf', [], a'. split; [done|]. apply exec_quiet; auto.
    intros q Hq'. by apply elem_of_nil in Hq'.
Qed.

Lemma heartbeats_ok S c a n :
  sim c a -> n ∈ ids -> S = c_snaps c -> exists reqs, startHeartbeat (c_node c n) = Some reqs /\
  (forall p, p ∈ aeRequests (c_node c n) reqs -> packet_ok ids S a p) /\
  vkeys (aeRequests (c_node c n) reqs) = [].
Proof.
  intros Hsim Hn ->. pose proof (s_node _ _ Hsim n Hn) as N. unfold startHeartbeat.
  dcase; [|eexists; split; [done|]; split; [|done]; intros p Hp; by apply elem_of_nil in Hp].
  rewrite (n_me _ _ _ _ _ N), (n_nodes _ _ _ _ _ N).
  assert (Hl : forall l, l ⊆ ids -> exists reqs,
    mapM (fun id => args ← heartbeatArgs (c_node c n) id; Some (id, args)) (filter (fun id => id <> n) l)
      = Some reqs /\ forall id args, (id, args) ∈ reqs -> exists x, ae_ok ids (c_snaps c) a n id args x).
  { induction l as [|id l IH]; intros Hl; [by exists []; split; [|intros ? ? ?%elem_of_nil]|].
    destruct IH as (reqs & Hreqs & Hok); [set_solver|]. rewrite filter_cons. dcase; [|eauto].
    destruct (heartbeatArgs_ok ids (c_snaps c) a n (c_node c n) id) as (args & x & Ha & Hx); auto;
      [apply Hsim|set_solver|]. simpl. rewrite Ha. simpl.
    simpl in Hreqs. rewrite Hreqs. simpl. eexists. split; [done|].
    intros id' args' [?|?]%elem_of_cons; simplify_eq; eauto. }
  destruct (Hl ids) as (reqs & -> & Hok); [done|]. exists reqs. split; [done|].
  unfold aeRequests. split.
  - intros p Hp. apply list_elem_of_fmap in Hp as ((id & args) & -> & Hp).
    rewrite (n_me _ _ _ _ _ N). simpl. eauto.
  - clear. induction reqs as [|[] ? IH]; simpl; [done|]. apply IH.
Qed.

Lemma exec_sim c a n ev net :
  sim c a -> n ∈ ids -> ev_ok (c_node c n) ev -> takes ev (c_net c) net ->
  exists rf' ps ms a', exec (c_node c n) ev = Some (rf', ps, ms) /\
  exec_ok (new_snaps ev ++ c_snaps c) c a n net rf' ps ms a'.
Proof.
  intros Hsim Hn Hev Hnet. pose proof (s_node _ _ Hsim n Hn) as N. pose proof (s_inv _ _ Hsim) as I.
  assert (Hnil : forall S' (a' : astate) p, p ∈ [] -> packet_ok ids S' a' p)
    by (intros S' a' p Hp; by apply elem_of_nil in Hp).
  destruct ev as [g| |cmd| |i b| | |p]; simpl in Hnet, Hev; subst; cbn [new_snaps app exec].
  - unfold tickerFire. destruct (dead (c_node c n)).
    { eexists _, _, _, a. split; [done|]. apply exec_quiet; auto; [by apply sim_refl|done]. }
    dcase.
    { eexists _, _, _, a. split; [done|]. apply exec_quiet; auto; [by apply sim_refl|done]. }
    destruct (beginElection_sim ids _ Hids a n (c_node c n) I N Hn)
      as (rf' & a' & -> & Hs & Hr & Hv & Ht & Hc & Hme & Hnod).
    eexists _, _, _, a'. split; [done|].
    apply (exec_round _ _ _ _ _ [] a' (Some _)); auto. split_and!; auto; [lia|]. eauto.
  - destruct (heartbeats_ok _ c a n Hsim Hn eq_refl) as (reqs & -> & Hok & Hk).
    eexists _, _, _, a. split; [done|]. apply exec_quiet; auto; [by apply sim_refl|done|].
    by rewrite omap_app, Hk.
  - destruct (Start_sim ids _ a n (c_node c n) (Some cmd) I N) as (i & t & b & rf' & a' & -> & Hs & Hq).
    eexists _, _, _, a'. split; [done|]. apply exec_quiet; auto.
  - destruct (sendApplyMsg_sim ids _ a n (c_node c n) I N) as (ms & rf' & -> & Hs & Hq & Hm).
    eexists _, _, _, a. split; [done|]. split; auto. by eapply votes_quiet.
  - destruct Hev as [Hi Hb].
    assert (N' : node_ok ids ((i, b) :: c_snaps c) a n (c_node c n)) by (eapply node_ok_snaps; [|done]; set_solver).
    destruct (Snapshot_sim ids _ a n (c_node c n) i b I N' Hi) as (rf' & -> & Hs & Hq); [set_solver|].
    eexists _, _, _, a. split; [done|]. apply exec_quiet; auto.
  - assert (Ht : exists r, transferBegin (c_node c n) false = Some r).
    { unfold transferBegin. simpl. dcase; [eauto|]. dcase; [eauto|].
      rewrite (node_lastTerm _ _ _ _ _ N). simpl. eauto. }
    destruct Ht as [r ->]. eexists _, _, _, a. split; [done|].
    apply exec_quiet; auto; [by apply sim_refl|done| |].
    + destruct r as [|[target args]]; [auto|].
      intros p Hp. by apply list_elem_of_singleton in Hp as ->.
    + by destruct r as [|[target args]].
  - eexists _, _, _, a. split; [done|]. apply exec_quiet; auto.
    + eapply sim_core; [by apply sim_refl|]. unfold Kill. by destruct (dead _).
    + unfold Kill. by destruct (dead _).
  - destruct (recv_sim c a n p net) as (rf' & ps & a' & -> & Hx); auto.
    { rewrite Hev. apply (n_me _ _ _ _ _ N). }
    eexists _, _, _, a'. by split.
Qed.

(** ** Forward simulation *)

Lemma takes_net ev net net' p : takes ev net net' -> p ∈ net' -> p ∈ net.
Proof. destruct ev; simpl; intros H Hp; subst; auto. rewrite H. set_solver. Qed.

Lemma takes_keys ev net net' : takes ev net net' -> vkeys net' ⊆+ vkeys net.
Proof.
  destruct ev; simpl; intros H; subst; auto. rewrite H. simpl.
  destruct (vkey p); [by apply submseteq_cons|done].
Qed.

Lemma crash_sim c a n ev net rf ps ms (w : Journal) rf' :
  sim c a -> n ∈ ids -> ev_ok (c_node c n) ev -> takes ev (c_net c) net ->
  exec (c_node c n) ev = Some (rf, ps, ms) ->
  wal (c_node c n) `suffix_of` w -> w `suffix_of` wal rf -> MakeWithWAL n ids w = Some rf' ->
  exists a', rtc astep a a' /\
    sim (mkC (<[n := rf']> (c_node c)) net (c_out c) (new_snaps ev ++ c_snaps c)) a'.
Proof.
  intros Hsim Hn Hev Hnet Hex Hw1 Hw2 Hmk. pose proof (s_inv _ _ Hsim) as I.
  destruct (exec_sim c a n ev net Hsim Hn Hev Hnet) as (rf1 & ps1 & ms1 & a1 & Hex1 & Hx).
  rewrite Hex in Hex1. injection Hex1 as <- <- <-.
  destruct (st_durable _ _ _ _ _ _ _ (x_sim _ _ _ _ _ _ _ _ _ Hx)) as [_ Hdur].
  destruct (Hdur w Hw1 Hw2) as (a2 & Hs2 & Hd2). destruct (nsteps_inv _ _ _ _ I Hs2) as [I2 Hle2].
  destruct (restart_sim ids _ a2 n w I2 Hd2) as (rf2 & a3 & Hmk2 & Hs3 & N3 & Hr3).
  rewrite Hmk in Hmk2. injection Hmk2 as <-.
  destruct (nsteps_inv _ _ _ _ I2 Hs3) as [I3 Hle3].
  assert (Hs : nsteps ids n a a3) by (by etrans). destruct (nsteps_inv _ _ _ _ I Hs) as [_ Hle].
  set (S' := new_snaps ev ++ c_snaps c) in *. assert (HS : c_snaps c ⊆ S') by (unfold S'; set_solver).
  exists a3. split; [apply Hs|]. split; simpl; auto.
  - intros m Hm. kcase n m; [done|]. eapply node_ok_snaps; [done|].
    eapply node_ok_other; [|apply Hs|done|by apply Hsim]. congruence.
  - intros p Hp. eapply packet_ok_snaps; [done|]. eapply packet_ok_mono; [done|]. apply Hsim.
    by eapply takes_net.
  - eapply NoDup_submseteq_r; [apply Hsim|]. by eapply takes_keys.
  - intros m Hm. kcase n m; [congruence|]. intros Hr.
    destruct (s_votes _ _ Hsim m Hm Hr) as (Q & HQ & HQK). exists Q. split; [by eapply counted_mono|].
    intros q Hq Hk. eapply HQK; [done|]. eapply submseteq_elem; [by eapply takes_keys|done].
  - intros m msg Hm. eapply msg_ok_snaps; [done|]. eapply msg_ok_mono; [done|]. by apply Hsim.
Qed.

Lemma run_sim c a n ev net rf ps ms :
  sim c a -> n ∈ ids -> ev_ok (c_node c n) ev -> takes ev (c_net c) net ->
  exec (c_node c n) ev = Some (rf, ps, ms) ->
  exists a', rtc astep a a' /\
    sim (mkC (<[n := rf]> (c_node c)) (ps ++ net) (((fun m => (n, m)) <$> ms) ++ c_out c)
           (new_snaps ev ++ c_snaps c)) a'.
Proof.
  intros Hsim Hn Hev Hnet Hex. pose proof (s_inv _ _ Hsim) as I.
  destruct (exec_sim c a n ev net Hsim Hn Hev Hnet) as (rf1 & ps1 & ms1 & a' & Hex1 & Hx).
  rewrite Hex in Hex1. injection Hex1 as <- <- <-. destruct Hx as [[Hs I' N' _] Hps Hms [V1 V2 V3]].
  destruct (nsteps_inv _ _ _ _ I Hs) as [_ Hle].
  set (S' := new_snaps ev ++ c_snaps c) in *. assert (HS : c_snaps c ⊆ S') by (unfold S'; set_solver).
  exists a'. split; [apply Hs|]. split; simpl; auto.
  - intros m Hm. kcase n m; [done|]. eapply node_ok_snaps; [done|].
    eapply node_ok_other; [|apply Hs|done|by apply Hsim]. congruence.
  - intros p [Hp|Hp]%elem_of_app; [auto|]. eapply packet_ok_snaps; [done|].
    eapply packet_ok_mono; [done|]. apply Hsim. by eapply takes_net.
  - intros m Hm. kcase n m; [done|]. intros Hr.
    destruct (s_votes _ _ Hsim m Hm Hr) as (Q & HQ & HQK). exists Q. split; [by eapply counted_mono|].
    intros q Hq Hk. eapply HQK; [done|]. eapply V2; [|done]. congruence.
  - intros m msg [Hm|Hm]%elem_of_app.
    + apply list_elem_of_fmap in Hm as (msg' & [= -> ->] & Hm). auto.
    + eapply msg_ok_snaps; [done|]. eapply msg_ok_mono; [done|]. by apply Hsim.
Qed.

Lemma step_sim c c' a : sim c a -> cstep ids c c' -> exists a', rtc astep a a' /\ sim c' a'.
Proof.
  intros Hsim H. destruct H as [c n ev net rf ps ms Hn Hev Hnet Hex
    |c n ev net rf ps ms w rf' Hn Hev Hnet Hex Hw1 Hw2 Hmk|c p net Hnet].
  - by eapply run_sim.
  - by eapply crash_sim.
  - exists a. split; [done|]. destruct Hsim as [H1 H2 H3 H4 H5 H6].
    assert (HK : vkeys net ⊆+ vkeys (c_net c)).
    { rewrite Hnet. simpl. destruct (vkey p); [by apply submseteq_cons|done]. }
    split; simpl; auto.
    + intros q Hq. apply H3. rewrite Hnet. set_solver.
    + by eapply NoDup_submseteq_r.
    + intros n Hn Hr. destruct (H5 n Hn Hr) as (Q & ? & HQ). exists Q. split; [done|].
      intros q Hq Hk. eapply HQ; [done|]. by eapply submseteq_elem.
Qed.

Lemma init_sim c : cinit ids c -> sim c ainit.
Proof.
  intros (Hmk & Hnet & Hout & Hsn). split; rewrite ?Hnet, ?Hout, ?Hsn; simpl; auto.
  - apply ainit_inv.
  - intros n Hn. specialize (Hmk n Hn). injection Hmk as <-.
    split; simpl; auto; try done; try lia. split; simpl; auto; try done.
    by left.
  - intros p Hp. by apply elem_of_nil in Hp.
  - constructor.
  - intros n Hn. specialize (Hmk n Hn). by injection Hmk as <-.
  - intros n m Hm. by apply elem_of_nil in Hm.
Qed.

Lemma reach_sim c : creach ids c -> exists a, rtc astep ainit a /\ sim c a.
Proof.
  intros (c0 & Hi & Hr). apply init_sim in Hi.
  assert (Hgen : forall a0, sim c0 a0 -> exists a, rtc astep a0 a /\ sim c a).
  { clear Hi. induction Hr as [c|c c1 c2 Hs _ IH]; intros a0 Hsim; [by exists a0|].
    destruct (step_sim _ _ _ Hsim Hs) as (a1 & H1 & Hs1). destruct (IH a1 Hs1) as (a2 & H2 & Hs2).
    exists a2. split; [by etrans|done]. }
  auto.
Qed.

End refine.
