(* ===== verification/RaftSafety.v ===== *)
(** * What the Raft cluster guarantees

    The theorems of the cluster of [RaftNet], each with a witness on the run
    [demo] of [RaftDemo]. *)

From S2P Require Import Prelude Wal Raft RaftSpec RaftSpecInv RaftNet RaftRel RaftElect RaftReplicate RaftRefine RaftDemo.

(** The messages of one wake-up of the applier. *)
Lemma sendApplyMsg_shape {W} (rf rf' : Raft W) ms :
  sendApplyMsg rf = Some (ms, rf') -> dead rf = false ->
  appliedIndex rf <= commitIndex rf -> snapshotIndex rf <= commitIndex rf ->
  appliedIndex rf' = commitIndex rf /\
  exists snaps cmds, ms = snaps ++ cmds /\
    Forall (fun m => am_CommandValid m = true) cmds /\
    Forall (fun m => am_CommandValid m = false /\ am_SnapshotIndex m = snapshotIndex rf /\
                     appliedIndex rf < snapshotIndex rf) snaps /\
    (length snaps <= 1)%nat /\
    (am_CommandIndex <$> cmds) =
      (fun k => Z.max (appliedIndex rf) (snapshotIndex rf) + 1 + Z.of_nat k) <$>
      seq 0 (Z.to_nat (commitIndex rf - Z.max (appliedIndex rf) (snapshotIndex rf))).
Proof.
  unfold sendApplyMsg. intros H Hd Ha Hs. rewrite Hd in H. destruct (decide (commitIndex rf = appliedIndex rf)).
  { simplify_eq/=. split; [done|]. exists [], []. split_and!; auto.
    by replace (Z.to_nat _) with 0%nat by lia. }
  set (r := if decide (appliedIndex rf + 1 <= snapshotIndex rf) then _ else _) in H.
  destruct r as [snap start] eqn:Er. unfold r in Er.
  assert (Hst : start = Z.max (appliedIndex rf) (snapshotIndex rf) + 1 /\
    (snap <> None -> appliedIndex rf < snapshotIndex rf)).
  { destruct (decide (appliedIndex rf + 1 <= snapshotIndex rf)); simplify_eq;
      (split; [lia|intros ?; done || lia]). }
  destruct Hst as [-> Hsnap]. clear r Er.
  destruct ((logs rf) @[0]) as [s0|]; [|done]. cbn [mbind option_bind] in H.
  unfold gslice, relIdx in H. dcase; [|done]. simplify_eq/=. split; [done|].
  set (es := take _ _). eexists _, _. split; [done|]. split_and!.
  - apply Forall_forall. intros m Hm. by apply elem_of_lookup_imap in Hm as (k & e & -> & _).
  - destruct snap; simpl; [|constructor]. constructor; [|constructor]. split_and!; auto.
  - by destruct snap; simpl; lia.
  - assert (Hlen : length es = Z.to_nat (commitIndex rf - Z.max (appliedIndex rf) (snapshotIndex rf)))
      by (unfold es; zlen_lia).
    rewrite <- Hlen. apply list_eq. intros k. rewrite !list_lookup_fmap, list_lookup_imap.
    destruct (es !! k) eqn:Ek; simpl.
    + apply lookup_lt_Some in Ek. rewrite lookup_seq_lt by done. done.
    + apply lookup_ge_None in Ek. rewrite lookup_seq_ge by done. done.
Qed.

Section safety.
Context (ids : list NodeID) (Hids : "" ∉ ids) (Hnd : NoDup ids).
Implicit Types (c : cluster) (n : NodeID).

(** The abstract state behind a reachable cluster. *)
Lemma reach_abstract c : creach ids c -> exists a, sim ids c a.
Proof. intros H. destruct (reach_sim ids Hids Hnd c H) as (a & _ & ?). eauto. Qed.

Lemma committed_same a T1 T2 x y i e f :
  inv ids a -> committed ids a T1 x -> committed ids a T2 y ->
  x @[i] = Some e -> y @[i] = Some f -> e = f.
Proof.
  intros I Hx Hy He Hf. destruct (committed_comparable _ _ _ _ _ _ I Hx Hy) as [Hp|Hp].
  - rewrite (prefix_gidx _ _ _ _ Hp He) in Hf. congruence.
  - rewrite (prefix_gidx _ _ _ _ Hp Hf) in He. congruence.
Qed.

Lemma leader_election c a n :
  sim ids c a -> n ∈ ids -> customerId (c_node c n) = Leader ->
  exists el, alead a (term (c_node c n)) = Some el /\ l_id el = n /\ l_log el = alog a n.
Proof.
  intros Hsim Hn Hr. apply (le_lead _ _ _ _ (n_lead _ _ _ _ _ (s_node _ _ _ Hsim n Hn) Hr)).
Qed.

(** C1: state machine safety.  In every reachable state of the cluster, under
    message loss, reordering, snapshots and crashes between durable writes, any
    two commands ever delivered on [applyCh] for the same index, by any two
    nodes, are the same command. *)
Theorem state_machine_safety c n1 m1 n2 m2 :
  creach ids c -> (n1, m1) ∈ c_out c -> (n2, m2) ∈ c_out c ->
  am_CommandValid m1 = true -> am_CommandValid m2 = true ->
  am_CommandIndex m1 = am_CommandIndex m2 -> am_Command m1 = am_Command m2.
Proof.
  intros Hr H1 H2 V1 V2 Hi. destruct (reach_abstract c Hr) as (a & Hsim).
  destruct (s_out _ _ _ Hsim _ _ H1) as (T1 & x & _ & Hx & Hm1).
  destruct (s_out _ _ _ Hsim _ _ H2) as (T2 & y & _ & Hy & Hm2).
  rewrite V1 in Hm1. rewrite V2 in Hm2. destruct Hm1 as (e & He & ->), Hm2 as (f & Hf & ->).
  rewrite Hi in He. f_equal. eapply committed_same; [apply Hsim|exact Hx|exact Hy|done|done].
Qed.

(** C19: election safety.  Two nodes that are leaders in the same term are the
    same node. *)
Theorem election_safety c n1 n2 :
  creach ids c -> n1 ∈ ids -> n2 ∈ ids ->
  customerId (c_node c n1) = Leader -> customerId (c_node c n2) = Leader ->
  term (c_node c n1) = term (c_node c n2) -> n1 = n2.
Proof.
  intros Hr Hn1 Hn2 L1 L2 Ht. destruct (reach_abstract c Hr) as (a & Hsim).
  destruct (leader_election c a n1 Hsim Hn1 L1) as (el1 & H1 & <- & _).
  destruct (leader_election c a n2 Hsim Hn2 L2) as (el2 & H2 & <- & _). congruence.
Qed.

(** C31: log matching.  If two nodes hold entries of the same term at an index,
    their logs agree at every lower index that neither snapshot covers. *)
Theorem log_matching c n1 n2 i e1 e2 :
  creach ids c -> n1 ∈ ids -> n2 ∈ ids ->
  logAt (c_node c n1) i = Some e1 -> logAt (c_node c n2) i = Some e2 -> Term e1 = Term e2 ->
  forall j, snapshotIndex (c_node c n1) < j <= i -> snapshotIndex (c_node c n2) < j ->
  logAt (c_node c n1) j = logAt (c_node c n2) j.
Proof.
  intros Hr Hn1 Hn2 H1 H2 Ht j Hj1 Hj2. destruct (reach_abstract c Hr) as (a & Hsim).
  pose proof (s_node _ _ _ Hsim n1 Hn1) as N1. pose proof (s_node _ _ _ Hsim n2 Hn2) as N2.
  pose proof (node_logAt _ _ _ _ _ i N1 ltac:(lia)) as E1. rewrite H1 in E1.
  pose proof (node_logAt _ _ _ _ _ i N2 ltac:(lia)) as E2. rewrite H2 in E2.
  destruct (node_log _ _ _ _ _ N1) as [Hl1 Hs1], (node_log _ _ _ _ _ N2) as [Hl2 Hs2].
  destruct ((alog a n1) @[i]) as [f1|] eqn:F1, ((alog a n2) @[i]) as [f2|] eqn:F2; simplify_eq/=.
  apply gidx_Some in F1 as [_ F1], F2 as [_ F2].
  pose proof (i_log _ _ (s_inv _ _ _ Hsim)) as Hwf.
  assert (Hagree : pre (alog a n1) i = pre (alog a n2) i).
  { eapply (wf_agree a); [apply Hwf|apply Hwf|exact F1|exact F2|congruence]. }
  unfold logAt, relIdx. rewrite Hl1, Hl2, !rep_idx by lia. apply lookup_lt_Some in F1, F2.
  assert (0 <= i) by lia.
  rewrite (prefix_gidx_eq _ _ j (pre_prefix (alog a n1) i)) by (rewrite zlen_pre; zlen_lia).
  rewrite (prefix_gidx_eq _ _ j (pre_prefix (alog a n2) i)) by (rewrite zlen_pre; zlen_lia).
  by rewrite Hagree.
Qed.

(** C20: leader completeness.  A command delivered anywhere is in the log of
    every leader whose term is not older than the deliverer's: the leader's log
    reaches the index, and above its snapshot it holds that very command. *)
Theorem leader_has_committed c n m l :
  creach ids c -> (n, m) ∈ c_out c -> am_CommandValid m = true -> n ∈ ids -> l ∈ ids ->
  customerId (c_node c l) = Leader -> term (c_node c n) <= term (c_node c l) ->
  am_CommandIndex m <= lastLogIndex (c_node c l) /\
  (snapshotIndex (c_node c l) < am_CommandIndex m ->
     exists e, logAt (c_node c l) (am_CommandIndex m) = Some e /\ Command e = am_Command m).
Proof.
  intros Hr Hm V Hn Hl Hlead Ht. destruct (reach_abstract c Hr) as (a & Hsim).
  pose proof (s_node _ _ _ Hsim l Hl) as N. pose proof (s_node _ _ _ Hsim n Hn) as Nn.
  destruct (s_out _ _ _ Hsim _ _ Hm) as (T & x & HT & Hx & He). rewrite V in He.
  destruct He as (e & He & Hcmd). destruct (leader_election c a l Hsim Hl Hlead) as (el & Hel & _ & Hlog).
  rewrite (node_term _ _ _ _ _ Nn) in Ht.
  assert (Hp : x `prefix_of` alog a l).
  { rewrite <- Hlog. eapply committed_in_lead; [apply Hsim|exact Hx| |exact Hel]. lia. }
  apply (prefix_gidx _ _ _ _ Hp) in He. apply gidx_lt in He as Hlt.
  rewrite (node_lastIndex _ _ _ _ _ N). split; [lia|]. intros Hs. exists e. split; [|done].
  destruct (node_log _ _ _ _ _ N) as [Hll Hss]. unfold logAt, relIdx.
  by rewrite Hll, rep_idx by lia.
Qed.

(** C11: no panic.  In a reachable state, every timer, every received packet, and
    every call of the service that keeps its part of the contract, is handled without
    an index out of range, a failed slice or [log.Fatalf]: the handler always
    returns.  The service's part ([ev_ok]): it calls [Snapshot] only with an index it
    has been delivered and a snapshot that is not empty; beyond the log [Snapshot]
    itself calls [log.Fatalf]. *)
Theorem exec_never_panics c n ev net :
  creach ids c -> n ∈ ids -> ev_ok (c_node c n) ev -> takes ev (c_net c) net ->
  is_Some (exec (c_node c n) ev).
Proof.
  intros Hr Hn Hev Hnet. destruct (reach_abstract c Hr) as (a & Hsim).
  destruct (exec_sim ids Hids Hnd c a n ev net Hsim Hn Hev Hnet) as (rf & ps & ms & a' & -> & _). eauto.
Qed.

(** C32: terms and votes survive.  No step, crashes and restarts included, lowers
    a node's term, and a vote cast in a term is never changed or forgotten while
    the node is in that term. *)
Theorem term_and_vote_stable c c' n :
  creach ids c -> cstep ids c c' -> n ∈ ids ->
  term (c_node c n) <= term (c_node c' n) /\
  (term (c_node c' n) = term (c_node c n) -> voteFor (c_node c n) <> "" ->
   voteFor (c_node c' n) = voteFor (c_node c n)).
Proof.
  intros Hr Hstep Hn. destruct (reach_abstract c Hr) as (a & Hsim).
  destruct (step_sim ids Hids Hnd c c' a Hsim Hstep) as (a' & Hs & Hsim').
  destruct (asteps_inv ids a a' (s_inv _ _ _ Hsim) Hs) as [_ Hle].
  pose proof (s_node _ _ _ Hsim n Hn) as N. pose proof (s_node _ _ _ Hsim' n Hn) as N'.
  rewrite (node_term _ _ _ _ _ N), (node_term _ _ _ _ _ N'). split; [by apply ale_term|].
  intros Ht Hv. pose proof (d_vote _ _ _ _ _ (n_disk _ _ _ _ _ N)) as D.
  pose proof (d_vote _ _ _ _ _ (n_disk _ _ _ _ _ N')) as D'. simpl in D, D'.
  rewrite decide_False in D by done. apply (ale_vote _ _ Hle) in D. rewrite Ht, D in D'.
  by destruct (decide _); simplify_eq.
Qed.

(** Snapshot integrity.  A snapshot a node hands to its service was taken,
    at exactly that index, by a service of the cluster. *)
Theorem snapshot_integrity c n m :
  creach ids c -> (n, m) ∈ c_out c -> am_CommandValid m = false ->
  exists b, am_Snapshot m = Some b /\ (am_SnapshotIndex m, b) ∈ c_snaps c.
Proof.
  intros Hr Hm V. destruct (reach_abstract c Hr) as (a & Hsim).
  destruct (s_out _ _ _ Hsim _ _ Hm) as (T & x & _ & _ & Hx). rewrite V in Hx. des. eauto.
Qed.

(** C7: the code refines the protocol.  From related states, every step of the
    cluster (a handler, a lost packet, a crash between two durable writes) is
    matched by steps of the abstract protocol that reach a related state. *)
Theorem cluster_refines_protocol c c' a :
  sim ids c a -> cstep ids c c' -> exists a', rtc (astep ids) a a' /\ sim ids c' a'.
Proof. apply (step_sim ids Hids Hnd). Qed.

(** Gapless delivery.  In a reachable state the applier delivers at most one
    snapshot, and only one that covers the next index, followed by the commands
    at exactly the consecutive indices after what was applied or the snapshot,
    up to the commit index, which becomes the applied index. *)
Theorem delivery_in_order c n rf ps ms :
  creach ids c -> n ∈ ids -> dead (c_node c n) = false ->
  exec (c_node c n) EApply = Some (rf, ps, ms) ->
  let s := snapshotIndex (c_node c n) in
  appliedIndex rf = commitIndex (c_node c n) /\
  exists snaps cmds, ms = snaps ++ cmds /\
    Forall (fun m => am_CommandValid m = true) cmds /\
    Forall (fun m => am_CommandValid m = false /\ am_SnapshotIndex m = s /\
                     appliedIndex (c_node c n) < s) snaps /\
    (length snaps <= 1)%nat /\
    (am_CommandIndex <$> cmds) =
      (fun k => Z.max (appliedIndex (c_node c n)) s + 1 + Z.of_nat k) <$>
      seq 0 (Z.to_nat (commitIndex (c_node c n) - Z.max (appliedIndex (c_node c n)) s)).
Proof.
  intros Hr Hn Hd Hex s. destruct (reach_abstract c Hr) as (a & Hsim).
  pose proof (s_node _ _ _ Hsim n Hn) as N. pose proof (n_applied _ _ _ _ _ N) as Hap.
  pose proof (n_snap _ _ _ _ _ N) as Hsn. simpl in Hex.
  destruct (sendApplyMsg (c_node c n)) as [[ms' rf']|] eqn:E; simplify_eq/=.
  apply (sendApplyMsg_shape _ _ _ E); auto; lia.
Qed.

End safety.

(** ** Witnesses *)

Definition msg_b1 : ApplyMsg := commandMsg (mkEntry (Some cmd1) 1) 1.
Definition msg_b2 : ApplyMsg := commandMsg (mkEntry (Some cmd2) 1) 2.
Definition msg_snap : ApplyMsg := snapshotMsg [Byte.x09] 1 1.

Ltac demo_out i := apply (list_elem_of_lookup_2 _ i); vm_compute; reflexivity.
Ltac demo_in i := apply (list_elem_of_lookup_2 _ i); reflexivity.

Lemma state_machine_safety_witness :
  (("a", msg_b2) ∈ c_out demo) /\ (("c", msg_b2) ∈ c_out demo) /\
  am_Command msg_b2 = am_Command msg_b2.
Proof.
  assert (H1 : ("a", msg_b2) ∈ c_out demo) by demo_out 5%nat.
  assert (H2 : ("c", msg_b2) ∈ c_out demo) by demo_out 0%nat.
  split; [exact H1|]. split; [exact H2|].
  apply (state_machine_safety abc (proj1 abc_ok) (proj2 abc_ok) demo "a" msg_b2 "c" msg_b2
    demo_reach H1 H2); reflexivity.
Defined.

Lemma election_safety_witness : customerId (c_node demo "a") = Leader /\ "a" = "a".
Proof.
  assert (H : customerId (c_node demo "a") = Leader) by (vm_compute; reflexivity).
  split; [exact H|].
  assert (Hin : "a" ∈ abc) by demo_in 0%nat.
  apply (election_safety abc (proj1 abc_ok) (proj2 abc_ok) demo "a" "a" demo_reach Hin Hin H H).
  reflexivity.
Defined.

Lemma log_matching_witness : logAt (c_node demo "b") 2 = logAt (c_node demo "c") 2.
Proof.
  apply (log_matching abc (proj1 abc_ok) (proj2 abc_ok) demo "b" "c" 2
    (mkEntry (Some cmd2) 1) (mkEntry (Some cmd2) 1) demo_reach).
  - demo_in 1%nat.
  - demo_in 2%nat.
  - vm_compute. reflexivity.
  - vm_compute. reflexivity.
  - reflexivity.
  - vm_compute. split; [reflexivity|discriminate].
  - vm_compute. reflexivity.
Defined.

Lemma leader_has_committed_witness :
  2 <= lastLogIndex (c_node demo "a") /\
  (snapshotIndex (c_node demo "a") < 2 ->
   exists e, logAt (c_node demo "a") 2 = Some e /\ Command e = Some cmd2).
Proof.
  apply (leader_has_committed abc (proj1 abc_ok) (proj2 abc_ok) demo "c" msg_b2 "a" demo_reach).
  - demo_out 0%nat.
  - reflexivity.
  - demo_in 2%nat.
  - demo_in 0%nat.
  - vm_compute. reflexivity.
  - vm_compute. discriminate.
Defined.

Lemma exec_never_panics_witness : is_Some (exec (c_node demo "a") (ESnapshot 2 [Byte.x0a])).
Proof.
  apply (exec_never_panics abc (proj1 abc_ok) (proj2 abc_ok) demo "a" _ (c_net demo) demo_reach).
  - demo_in 0%nat.
  - split; [vm_compute; discriminate|discriminate].
  - reflexivity.
Defined.

(** The restart of node b, as a step. *)
Definition demo_crash : cluster := default demo (act abc demo (ACrash "b")).

Definition done_ok {A} (r : option A) : bool := match r with Some _ => true | None => false end.

Lemma demo_crash_step : cstep abc demo demo_crash.
Proof.
  assert (H : done_ok (act abc demo (ACrash "b")) = true) by (vm_compute; reflexivity).
  unfold demo_crash. destruct (act abc demo (ACrash "b")) as [c|] eqn:E; [|discriminate].
  by eapply act_step.
Qed.

Lemma term_and_vote_stable_witness :
  term (c_node demo "b") <= term (c_node demo_crash "b") /\
  voteFor (c_node demo_crash "b") = "a".
Proof.
  destruct (term_and_vote_stable abc (proj1 abc_ok) (proj2 abc_ok) demo demo_crash "b"
    demo_reach demo_crash_step) as [H1 H2].
  - demo_in 1%nat.
  - split; [exact H1|]. rewrite H2.
    + vm_compute. reflexivity.
    + vm_compute. reflexivity.
    + vm_compute. discriminate.
Defined.

Lemma snapshot_integrity_witness :
  exists b, am_Snapshot msg_snap = Some b /\ (1, b) ∈ c_snaps demo.
Proof.
  apply (snapshot_integrity abc (proj1 abc_ok) (proj2 abc_ok) demo "c" msg_snap demo_reach).
  - demo_out 1%nat.
  - reflexivity.
Defined.

Lemma cluster_refines_witness :
  exists c' a', act abc (c0 abc) (ADo "a" (ETimeout 0)) = Some c' /\
    rtc (astep abc) ainit a' /\ sim abc c' a'.
Proof.
  assert (H : done_ok (act abc (c0 abc) (ADo "a" (ETimeout 0))) = true) by (vm_compute; reflexivity).
  destruct (act abc (c0 abc) (ADo "a" (ETimeout 0))) as [c'|] eqn:E; [|discriminate].
  exists c'.
  destruct (cluster_refines_protocol abc (proj1 abc_ok) (proj2 abc_ok) (c0 abc) c' ainit
    (init_sim abc (c0 abc) (c0_init abc)) (act_step abc _ _ _ E)) as (a' & H1 & H2).
  exists a'. auto.
Defined.

Lemma delivery_in_order_witness :
  exists rf ps ms, exec (c_node demo_crash "b") EApply = Some (rf, ps, ms) /\
    appliedIndex rf = commitIndex (c_node demo_crash "b").
Proof.
  assert (H : done_ok (exec (c_node demo_crash "b") EApply) = true) by (vm_compute; reflexivity).
  destruct (exec (c_node demo_crash "b") EApply) as [[[rf ps] ms]|] eqn:E; [|discriminate].
  exists rf, ps, ms. split; [reflexivity|].
  apply (delivery_in_order abc (proj1 abc_ok) (proj2 abc_ok) demo_crash "b" rf ps ms);
    [|demo_in 1%nat|vm_compute; reflexivity|exact E].
  destruct demo_reach as (c & Hi & Hr). exists c. split; [exact Hi|].
  eapply rtc_r; [exact Hr|exact demo_crash_step].
Defined.
