(* ===== verification/Kv.v ===== *)
(** * The key/value service

    - [kvsrv1/rpc/rpc.go]: the requests, replies and errors of every key/value
      service of the repository;
    - [kvsrv1/server.go]: the single server, which is also the reference the
      replicated and the sharded services are compared with;
    - [models1/kv.go]: the model the linearizability checker runs, and the
      theorem that whatever the server does is accepted by it. *)

From stdpp Require Import sorting.
From S2P Require Import Prelude.

(** ** rpc.go

    [Err] is a string type with these constants; [ErrNil] is its zero value. *)
Inductive Err := OK | ErrNoKey | ErrVersion | ErrMaybe | ErrWrongLeader | ErrWrongGroup | ErrNil.

#[export] Instance Err_eq_dec : EqDecision Err.
Proof. solve_decision. Defined.

(** A [uint64]; [u64] is the wrap-around. *)
Definition Tversion := Z.
Definition u64 (z : Z) : Z := z mod 2 ^ 64.

Record PutArgs := mkPutArgs { put_Key : string; put_Value : string; put_Version : Tversion }.
Record PutReply := mkPutReply { putr_Err : Err }.
Record GetArgs := mkGetArgs { get_Key : string }.
Record GetReply := mkGetReply { getr_Value : string; getr_Version : Tversion; getr_Err : Err }.

#[export] Instance PutArgs_eq_dec : EqDecision PutArgs.
Proof. solve_decision. Defined.
#[export] Instance GetArgs_eq_dec : EqDecision GetArgs.
Proof. solve_decision. Defined.
#[export] Instance PutReply_eq_dec : EqDecision PutReply.
Proof. solve_decision. Defined.
#[export] Instance GetReply_eq_dec : EqDecision GetReply.
Proof. solve_decision. Defined.

Record kvEntry := mkKvEntry { value : string; version : Tversion }.

#[export] Instance kvEntry_eq_dec : EqDecision kvEntry.
Proof. solve_decision. Defined.

#[export] Program Instance kvEntry_countable : Countable kvEntry :=
  inj_countable' (fun e => (value e, version e)) (fun '(v, n) => mkKvEntry v n) _.
Next Obligation. by intros []. Qed.

Abbreviation KvMap := (gmap string kvEntry).

(** ** The single server *)

Module KvSrv.

Definition MakeKVServer : KvMap := ∅.

Definition Get (kvMap : KvMap) (args : GetArgs) : GetReply :=
  match kvMap !! get_Key args with
  | Some e => mkGetReply (value e) (version e) OK
  | None => mkGetReply "" 0 ErrNoKey
  end.

Definition Put (kvMap : KvMap) (args : PutArgs) : PutReply * KvMap :=
  match kvMap !! put_Key args with
  | Some e =>
      if decide (put_Version args = version e)
      then (mkPutReply OK,
            <[put_Key args := mkKvEntry (put_Value args) (u64 (version e + 1))]> kvMap)
      else (mkPutReply ErrVersion, kvMap)
  | None =>
      if decide (put_Version args = 0)
      then (mkPutReply OK, <[put_Key args := mkKvEntry (put_Value args) 1]> kvMap)
      else (mkPutReply ErrNoKey, kvMap)
  end.

End KvSrv.

(** Either request of the service, and its reply. *)
Inductive request := RGet (args : GetArgs) | RPut (args : PutArgs).
Inductive reply := RepGet (r : GetReply) | RepPut (r : PutReply).

#[export] Instance request_eq_dec : EqDecision request.
Proof. solve_decision. Defined.
#[export] Instance reply_eq_dec : EqDecision reply.
Proof. solve_decision. Defined.

Definition serve (m : KvMap) (r : request) : reply * KvMap :=
  match r with
  | RGet a => (RepGet (KvSrv.Get m a), m)
  | RPut a => let '(rep, m) := KvSrv.Put m a in (RepPut rep, m)
  end.

Definition req_key (r : request) : string :=
  match r with RGet a => get_Key a | RPut a => put_Key a end.

(** The current version of a key, 0 when it does not exist. *)
Definition ver_of (m : KvMap) (k : string) : Tversion :=
  match m !! k with Some e => version e | None => 0 end.

Definition val_of (m : KvMap) (k : string) : string :=
  match m !! k with Some e => value e | None => "" end.

(** A put of this version can no longer succeed. *)
Definition spent (m : KvMap) (p : PutArgs) : Prop :=
  exists e, m !! put_Key p = Some e /\ put_Version p < version e.

#[export] Instance spent_dec m p : Decision (spent m p).
Proof.
  destruct (m !! put_Key p) as [e|] eqn:E.
  - destruct (decide (put_Version p < version e)); [left|right]; unfold spent; [eauto|].
    intros (e' & He & ?). rewrite E in He. by simplify_eq.
  - right. intros (e & He & _). by rewrite E in He.
Defined.

(** Existing keys have versions in 1 .. n. *)
Definition vbound (n : Z) (m : KvMap) : Prop :=
  forall k e, m !! k = Some e -> 1 <= version e <= n.

Lemma serve_other m r k : k <> req_key r -> snd (serve m r) !! k = m !! k.
Proof.
  destruct r as [a|a]; simpl; [done|]. intros Hk. unfold KvSrv.Put.
  destruct (m !! put_Key a); dcase; simpl; by rewrite ?lookup_insert_ne by congruence.
Qed.

(** What a put does, by the outcome. *)
Lemma Put_cases m p :
  (fst (KvSrv.Put m p) = mkPutReply OK /\ ver_of m (put_Key p) = put_Version p /\
   snd (KvSrv.Put m p) =
     <[put_Key p := mkKvEntry (put_Value p)
        (match m !! put_Key p with Some e => u64 (version e + 1) | None => 1 end)]> m) \/
  (snd (KvSrv.Put m p) = m /\
   ((fst (KvSrv.Put m p) = mkPutReply ErrVersion /\
     exists e, m !! put_Key p = Some e /\ version e <> put_Version p) \/
    (fst (KvSrv.Put m p) = mkPutReply ErrNoKey /\ m !! put_Key p = None /\ put_Version p <> 0))).
Proof.
  unfold KvSrv.Put, ver_of. destruct (m !! put_Key p) as [e|] eqn:E; dcase; simpl.
  - by left.
  - right. split; [done|]. left. split; [done|]. exists e. split; [done|congruence].
  - by left.
  - right. split; [done|]. by right.
Qed.

Lemma vbound_step n m r : vbound n m -> 0 <= n -> n + 1 < 2 ^ 64 -> vbound (n + 1) (snd (serve m r)).
Proof.
  intros Hb Hn Hn' k e. destruct r as [a|p]; simpl.
  - intros He. apply Hb in He. lia.
  - pose proof (Put_cases m p) as Hc. destruct (KvSrv.Put m p) as [rep m']. simpl in *.
    destruct Hc as [(_ & _ & ->)|[-> _]]; [|intros He; apply Hb in He; lia].
    destruct (decide (k = put_Key p)) as [->|Hne];
      [rewrite lookup_insert_eq|rewrite lookup_insert_ne by done; intros He; apply Hb in He; lia].
    intros [= <-]. simpl. destruct (m !! put_Key p) as [e|] eqn:E; [|lia].
    apply Hb in E. unfold u64. rewrite Z.mod_small; lia.
Qed.

(** Without wrap-around, versions only grow and keys are never lost. *)
Lemma version_grows n m r k e :
  vbound n m -> n + 1 < 2 ^ 64 -> m !! k = Some e ->
  exists e', snd (serve m r) !! k = Some e' /\ version e <= version e' /\
    (version e' = version e -> e' = e).
Proof.
  intros Hb Hn Hk. destruct r as [a|p]; simpl; [eauto with lia|].
  pose proof (Put_cases m p) as Hc. destruct (KvSrv.Put m p) as [rep m']. simpl in *.
  destruct Hc as [(_ & Hv & ->)|[-> _]]; [|eauto with lia].
  destruct (decide (k = put_Key p)) as [->|Hne]; [rewrite lookup_insert_eq|rewrite lookup_insert_ne by done; eauto with lia].
  rewrite Hk. eexists. split; [done|]. simpl. apply Hb in Hk. unfold u64. rewrite Z.mod_small by lia. lia.
Qed.

Lemma spent_grows n m r p : vbound n m -> n + 1 < 2 ^ 64 -> spent m p -> spent (snd (serve m r)) p.
Proof.
  intros Hb Hn (e & He & Hlt). destruct (version_grows n m r _ e Hb Hn He) as (e' & ? & ? & _).
  exists e'. split; [done|lia].
Qed.

Lemma put_ok_spent n m p :
  vbound n m -> n + 1 < 2 ^ 64 -> fst (KvSrv.Put m p) = mkPutReply OK -> spent (snd (KvSrv.Put m p)) p.
Proof.
  intros Hb Hn Hok. destruct (Put_cases m p) as [(_ & Hv & ->)|[_ [[H _]|[H _]]]]; [|congruence..].
  eexists. rewrite lookup_insert_eq. split; [done|]. simpl. unfold ver_of in Hv.
  destruct (m !! put_Key p) as [e|] eqn:E; [|lia]. apply Hb in E. unfold u64. rewrite Z.mod_small; lia.
Qed.

Lemma spent_put m p : spent m p -> KvSrv.Put m p = (mkPutReply ErrVersion, m).
Proof.
  intros (e & He & Hlt). unfold KvSrv.Put. rewrite He, decide_False by lia. done.
Qed.

(** ** models1/kv.go

    The sequential model given to the linearizability checker. An operation has an
    input, an output, the times of its call and its return, and its client. *)

Module Models.

Record KvInput := mkIn { in_Op : Z; in_Key : string; in_Value : string; in_Version : Z }.
Record KvOutput := mkOut { out_Value : string; out_Version : Z; out_Err : Err }.
Record KvState := mkSt { st_Value : string; st_Version : Z }.
(** porcupine's, as the tests fill it in. *)
Record Operation := mkOp { Input : KvInput; Output : KvOutput; Call : Z; Return : Z; ClientId : Z }.

Definition str_le (a b : string) : Prop := String.leb a b = true.

#[export] Instance str_le_dec : RelDecision str_le.
Proof. intros a b. unfold str_le. apply _. Defined.

(** The map from keys to their operations, built in one pass. *)
Definition add_op (m : gmap string (list Operation)) (v : Operation) : gmap string (list Operation) :=
  <[in_Key (Input v) := default [] (m !! in_Key (Input v)) ++ [v]]> m.

Definition group (history : list Operation) : gmap string (list Operation) := foldl add_op ∅ history.

Definition Partition (history : list Operation) : list (list Operation) :=
  let m := group history in
  (fun k => default [] (m !! k)) <$> merge_sort str_le (elements (dom m)).

Definition Init : KvState := mkSt "" 0.

(** The error of [Step]'s default case is not a state: the old one is kept. *)
Definition Step (st : KvState) (inp : KvInput) (out : KvOutput) : bool * KvState :=
  if decide (in_Op inp = 0) then (bool_decide (out_Value out = st_Value st), st)
  else if decide (in_Op inp = 1) then
    if decide (st_Version st = in_Version inp)
    then (bool_decide (out_Err out = OK \/ out_Err out = ErrMaybe),
          mkSt (in_Value inp) (u64 (st_Version st + 1)))
    else (bool_decide (out_Err out = ErrVersion \/ out_Err out = ErrMaybe), st)
  else (false, st).

(** A sequential history is accepted when every step is. *)
Fixpoint accepts (st : KvState) (h : list Operation) : bool :=
  match h with
  | [] => true
  | op :: h => let '(ok, st) := Step st (Input op) (Output op) in ok && accepts st h
  end.

(** What the checker sees of a request and its reply. *)
Definition observed (cli call ret : Z) (r : request) (rep : reply) : Operation :=
  mkOp (match r with
        | RGet a => mkIn 0 (get_Key a) "" 0
        | RPut a => mkIn 1 (put_Key a) (put_Value a) (put_Version a)
        end)
       (match rep with
        | RepGet g => mkOut (getr_Value g) (getr_Version g) (getr_Err g)
        | RepPut p => mkOut "" 0 (putr_Err p)
        end) call ret cli.

Definition observe : request -> reply -> Operation := observed 0 0 0.

(** The requests as the server serves them, in order. *)
Fixpoint served (m : KvMap) (rs : list request) : list Operation :=
  match rs with
  | [] => []
  | r :: rs => let '(rep, m) := serve m r in observe r rep :: served m rs
  end.

Definition of_key (k : string) (h : list Operation) : list Operation :=
  filter (fun op => in_Key (Input op) = k) h.

Lemma group_lookup_aux h m k :
  default [] (foldl add_op m h !! k) = default [] (m !! k) ++ of_key k h.
Proof.
  revert m. induction h as [|v h IH]; intros m; simpl; [by rewrite app_nil_r|].
  rewrite IH. unfold of_key, add_op. rewrite filter_cons. dcase.
  - subst k. rewrite lookup_insert_eq. simpl. by rewrite <- app_assoc.
  - by rewrite lookup_insert_ne.
Qed.

Lemma group_lookup h k : default [] (group h !! k) = of_key k h.
Proof. unfold group. by rewrite group_lookup_aux, lookup_empty. Qed.

Lemma Partition_keys h part : part ∈ Partition h -> exists k, part = of_key k h.
Proof.
  unfold Partition. intros (k & -> & _)%list_elem_of_fmap. exists k. by rewrite group_lookup.
Qed.

Definition state_of (m : KvMap) (k : string) : KvState := mkSt (val_of m k) (ver_of m k).

Definition no_nokey (op : Operation) : Prop := in_Op (Input op) = 1 -> out_Err (Output op) <> ErrNoKey.

(** One request: the model accepts it and follows the server's state. *)
Lemma step_served m r :
  no_nokey (observe r (fst (serve m r))) ->
  Step (state_of m (req_key r)) (Input (observe r (fst (serve m r)))) (Output (observe r (fst (serve m r)))) =
  (true, state_of (snd (serve m r)) (req_key r)).
Proof.
  destruct r as [a|p]; simpl; unfold Step, state_of, val_of, ver_of; simpl.
  - intros _. unfold KvSrv.Get. destruct (m !! get_Key a); simpl; [by rewrite bool_decide_eq_true_2|done].
  - unfold KvSrv.Put, no_nokey. simpl. destruct (m !! put_Key p) as [e|] eqn:E; dcase; simpl.
    + intros _. rewrite decide_True, lookup_insert_eq by congruence. done.
    + intros _. rewrite decide_False, E by congruence. done.
    + intros _. rewrite decide_True, lookup_insert_eq by congruence. done.
    + by intros []; auto.
Qed.

Lemma served_of_key m rs k :
  Forall no_nokey (served m rs) -> accepts (state_of m k) (of_key k (served m rs)) = true.
Proof.
  revert m. induction rs as [|r rs IH]; intros m; simpl; [done|].
  pose proof (step_served m r) as Hs. pose proof (serve_other m r k) as Ho.
  destruct (serve m r) as [rep m'] eqn:E. simpl in *. intros [H1 H2]%Forall_cons.
  unfold of_key. rewrite filter_cons.
  assert (Hk : in_Key (Input (observe r rep)) = req_key r) by (by destruct r).
  rewrite Hk. dcase.
  - subst k. simpl. rewrite (Hs H1). simpl. by apply IH.
  - replace (state_of m k) with (state_of m' k); [by apply IH|].
    unfold state_of, val_of, ver_of. by rewrite Ho.
Qed.

(** The server implements the model of the linearizability checker.  Serve
    any sequence of requests from an empty store: every per-key history of the
    checker's [Partition] is accepted by [Step] from [Init], versions wrapping
    around at 64 bits on both sides.  The one reply the model has no case for is
    excluded: a put of a nonzero version on a missing key, answered [ErrNoKey]. *)
Theorem server_matches_model rs part :
  Forall no_nokey (served KvSrv.MakeKVServer rs) ->
  part ∈ Partition (served KvSrv.MakeKVServer rs) ->
  accepts Init part = true.
Proof.
  intros Hn (k & ->)%Partition_keys. by apply (served_of_key KvSrv.MakeKVServer).
Qed.

Definition demo_requests : list request :=
  [RGet (mkGetArgs "x"); RPut (mkPutArgs "x" "1" 0); RPut (mkPutArgs "y" "7" 0);
   RPut (mkPutArgs "x" "2" 0); RPut (mkPutArgs "x" "2" 1); RGet (mkGetArgs "x")].

#[export] Instance no_nokey_dec op : Decision (no_nokey op).
Proof. unfold no_nokey. apply _. Defined.

Lemma server_matches_model_witness :
  accepts Init (default [] (Partition (served KvSrv.MakeKVServer demo_requests) !! 0%nat)) = true /\
  length (default [] (Partition (served KvSrv.MakeKVServer demo_requests) !! 0%nat)) = 5%nat.
Proof.
  split; [|vm_compute; reflexivity].
  apply (server_matches_model demo_requests).
  - apply (bool_decide_unpack _). vm_compute. exact I.
  - apply (list_elem_of_lookup_2 _ 0%nat). vm_compute. reflexivity.
Defined.

(** Where model and server part.  The server answers a put of a nonzero
    version on a key it does not have with [ErrNoKey], as its comment says; the
    model admits only [ErrVersion] and [ErrMaybe] there and rejects the history. *)
Theorem model_rejects_nokey k v n :
  0 < n -> accepts Init (served KvSrv.MakeKVServer [RPut (mkPutArgs k v n)]) = false.
Proof.
  intros Hn. unfold KvSrv.MakeKVServer. simpl. unfold KvSrv.Put. simpl.
  rewrite lookup_empty, decide_False by lia. simpl. unfold Step. simpl.
  rewrite decide_False by lia. simpl. done.
Qed.

Lemma model_rejects_nokey_witness :
  accepts Init (served KvSrv.MakeKVServer [RPut (mkPutArgs "x" "1" 3)]) = false.
Proof. apply (model_rejects_nokey "x" "1" 3). lia. Defined.

End Models.
