(* ===== verification/KvClerk.v ===== *)
(** * Clerks over an unreliable network

    - [kvsrv1/client.go] and [kvraft1/client.go]: the retry loops of the clerks,
      as the decision taken each time a [Call] returns;
    - a system of client programs whose clerks talk to one key/value service
      over a network that loses and delays requests and replies: a request whose
      [Call] has already failed may still be executed later;
    - the abstract service, in which an operation takes effect atomically
      between its invocation and its return, and the theorem that the system
      refines it: retries never perform a put twice, and [ErrVersion],
      [ErrMaybe] and [OK] mean what the clerks' comments say. *)

From S2P Require Import Prelude Kv.

(** ** The clerks' code

    A clerk operation is a loop of [Call]s. [First] is the first [Call] of the
    operation, [Again] every later one.  When a [Call] returns, with a reply or
    with a failure ([None]), the loop returns ([inl]) or calls again ([inr]). *)
Inductive phase := First | Again.

Module KvSrvClerk.

Definition Get (reply : option GetReply) : option GetReply := reply.

Definition Put (ph : phase) (reply : option PutReply) : option Err :=
  match ph, reply with
  | First, Some r => Some (putr_Err r)
  | Again, Some r =>
      if decide (putr_Err r = ErrVersion) then Some ErrMaybe else Some (putr_Err r)
  | _, None => None
  end.

End KvSrvClerk.

Module KvRaftClerk.

(** The servers, and the index of the last known leader. *)
Record Clerk := mkClerk { servers : list string; leader : Z }.

Definition MakeClerk (servers : list string) (rand : Z) : option Clerk :=
  if decide (0 <= rand < zlen servers) then Some (mkClerk servers rand) else None.

Definition nextServer (ck : Clerk) : Clerk :=
  mkClerk (servers ck) ((leader ck + 1) mod zlen (servers ck)).

Definition Get (ck : Clerk) (reply : option GetReply) : GetReply * Clerk + Clerk :=
  match reply with
  | Some r => if decide (getr_Err r <> ErrWrongLeader) then inl (r, ck) else inr (nextServer ck)
  | None => inr (nextServer ck)
  end.

Definition Put (ck : Clerk) (ph : phase) (reply : option PutReply) : Err * Clerk + Clerk :=
  match ph, reply with
  | First, Some r =>
      if decide (putr_Err r <> ErrWrongLeader) then inl (putr_Err r, ck) else inr (nextServer ck)
  | Again, Some r =>
      if decide (putr_Err r = ErrVersion) then inl (ErrMaybe, ck)
      else if decide (putr_Err r <> ErrWrongLeader) then inl (putr_Err r, ck)
      else inr (nextServer ck)
  | _, None => inr (nextServer ck)
  end.

(** Failed attempts walk round the whole server list. *)
Lemma nextServer_iter ck n :
  0 <= leader ck < zlen (servers ck) ->
  leader (Nat.iter n nextServer ck) = (leader ck + Z.of_nat n) mod zlen (servers ck) /\
  servers (Nat.iter n nextServer ck) = servers ck.
Proof.
  intros Hl. induction n as [|n [IH IHs]]; simpl.
  - split; [|done]. rewrite Z.add_0_r, Z.mod_small; lia.
  - rewrite IHs. split; [|done]. rewrite IH, Zplus_mod_idemp_l. f_equal. lia.
Qed.

(** The replicated clerk tries everyone.  From any current leader guess,
    each server [j] of the list is the target of one of the next [len(servers)]
    attempts of a clerk that keeps being refused. *)
Theorem clerk_tries_every_server ck j :
  0 <= leader ck < zlen (servers ck) -> 0 <= j < zlen (servers ck) ->
  exists n, Z.of_nat n < zlen (servers ck) /\ leader (Nat.iter n nextServer ck) = j.
Proof.
  intros Hl Hj. exists (Z.to_nat ((j - leader ck) mod zlen (servers ck))).
  assert (0 < zlen (servers ck)) by lia.
  pose proof (Z.mod_pos_bound (j - leader ck) (zlen (servers ck)) ltac:(lia)) as Hb.
  split; [lia|]. destruct (nextServer_iter ck (Z.to_nat ((j - leader ck) mod zlen (servers ck))) Hl) as [-> _].
  rewrite Z2Nat.id by lia. rewrite Zplus_mod_idemp_r.
  replace (leader ck + (j - leader ck)) with j by lia. apply Z.mod_small; lia.
Qed.

Lemma clerk_tries_every_server_witness :
  exists n, Z.of_nat n < 3 /\ leader (Nat.iter n nextServer (mkClerk ["a"; "b"; "c"] 2)) = 1.
Proof.
  apply (clerk_tries_every_server (mkClerk ["a"; "b"; "c"] 2) 1); vm_compute; split; discriminate || reflexivity.
Defined.

End KvRaftClerk.

(** ** What a clerk promises

    [refuses]: the service may answer [ErrWrongLeader], and then the request may
    or may not be executed at some time. *)
Class ClerkCode (K : Type) := {
  refuses : bool;
  on_reply : K -> phase -> request -> option reply -> (reply * K) + K
}.

Definition wrongLeader (r : request) : reply :=
  match r with
  | RGet _ => RepGet (mkGetReply "" 0 ErrWrongLeader)
  | RPut _ => RepPut (mkPutReply ErrWrongLeader)
  end.

(** A reply a server gives to an executed request. *)
Definition answers (r : request) (rep : reply) : Prop :=
  match r, rep with
  | RGet _, RepGet g => getr_Err g = OK \/ getr_Err g = ErrNoKey
  | RPut _, RepPut p => putr_Err p = OK \/ putr_Err p = ErrVersion \/ putr_Err p = ErrNoKey
  | _, _ => False
  end.

(** What the caller is told: [ErrVersion] after a resend becomes [ErrMaybe]. *)
Definition told (ph : phase) (rep : reply) : reply :=
  match ph, rep with
  | Again, RepPut (mkPutReply ErrVersion) => RepPut (mkPutReply ErrMaybe)
  | _, _ => rep
  end.

Class LawfulClerk (K : Type) `{ClerkCode K} := {
  clerk_fail k ph r : exists k', on_reply k ph r None = inr k';
  clerk_refused k ph r : refuses = true -> exists k', on_reply k ph r (Some (wrongLeader r)) = inr k';
  clerk_answer k ph r rep : answers r rep -> exists k', on_reply k ph r (Some rep) = inl (told ph rep, k')
}.

Definition as_get (rep : reply) : option GetReply := match rep with RepGet g => Some g | _ => None end.
Definition as_put (rep : reply) : option PutReply := match rep with RepPut p => Some p | _ => None end.

#[export] Instance kvsrv_clerk : ClerkCode unit := {|
  refuses := false;
  on_reply _ ph r rep :=
    match r with
    | RGet _ => match KvSrvClerk.Get (rep ≫= as_get) with Some g => inl (RepGet g, tt) | None => inr tt end
    | RPut _ => match KvSrvClerk.Put ph (rep ≫= as_put) with
                | Some e => inl (RepPut (mkPutReply e), tt) | None => inr tt end
    end
|}.

#[export] Instance kvraft_clerk : ClerkCode KvRaftClerk.Clerk := {|
  refuses := true;
  on_reply ck ph r rep :=
    match r with
    | RGet _ => match KvRaftClerk.Get ck (rep ≫= as_get) with
                | inl (g, ck) => inl (RepGet g, ck) | inr ck => inr ck end
    | RPut _ => match KvRaftClerk.Put ck ph (rep ≫= as_put) with
                | inl (e, ck) => inl (RepPut (mkPutReply e), ck) | inr ck => inr ck end
    end
|}.

#[export] Instance kvsrv_lawful : LawfulClerk unit.
Proof.
  constructor.
  - intros [] [] []; simpl; eauto.
  - done.
  - intros [] ph r rep. destruct r, rep as [g|[e]]; simpl; try done; intros Ha.
    + exists tt. by destruct ph.
    + destruct Ha as [-> | [-> | ->]], ph; simpl; eauto.
Qed.

#[export] Instance kvraft_lawful : LawfulClerk KvRaftClerk.Clerk.
Proof.
  constructor.
  - intros ck [] []; simpl; eauto.
  - intros ck [] [] _; simpl; eauto.
  - intros ck ph r rep. destruct r, rep as [[v n e]|[e]]; simpl; try done; intros Ha.
    + exists ck. by destruct Ha as [->| ->], ph.
    + destruct Ha as [-> | [-> | ->]], ph; simpl; eauto.
Qed.

Lemma serve_answers m r : answers r (fst (serve m r)).
Proof.
  destruct r as [a|p]; simpl.
  - unfold KvSrv.Get. destruct (m !! get_Key a); simpl; auto.
  - pose proof (Put_cases m p) as Hc. destruct (KvSrv.Put m p) as [[e] m']. simpl in *.
    destruct Hc as [(? & _)|[_ [[? _]|[? _]]]]; simplify_eq; auto.
Qed.

(** ** The system

    Client [c] runs a program: [next c s] is the clerk operation it invokes in
    state [s], [resume c s rep] the state after the clerk returned [rep], [local]
    its own steps in between. *)

(** A clerk operation is invoked, or returns. *)
Inductive event := EvCall (c : nat) (r : request) | EvRet (c : nat) (r : request) (rep : reply).

Record client (S K : Type) := mkCl { app : S; clk : K; pend : option (phase * request * nat) }.
Arguments mkCl {S K}.
Arguments app {S K}.
Arguments clk {S K}.
Arguments pend {S K}.

Record sys (S K : Type) := mkSys {
  st : KvMap;
  cl : nat -> client S K;
  net : gmap nat request;   (* requests not executed yet *)
  reps : gmap nat reply;    (* replies of the executed ones *)
  fresh : nat;
  hist : list event         (* what the clients see *)
}.
Arguments mkSys {S K}.
Arguments st {S K}.
Arguments cl {S K}.
Arguments net {S K}.
Arguments reps {S K}.
Arguments fresh {S K}.
Arguments hist {S K}.

Record program (S : Type) := mkProg {
  next : nat -> S -> option request;
  resume : nat -> S -> reply -> S;
  local : nat -> S -> S -> Prop
}.
Arguments next {S}.
Arguments resume {S}.
Arguments local {S}.

Section system.
Context {S K : Type} `{LawfulClerk K} (P : program S).
Implicit Types (x : sys S K) (c id : nat) (r : request) (p : PutArgs).

(** Send [r] as a new request of client [c]. *)
Definition send x c (k : K) (ph : phase) r : sys S K :=
  mkSys (st x) (<[c := mkCl (app (cl x c)) k (Some (ph, r, fresh x))]> (cl x))
    (<[fresh x := r]> (net x)) (reps x) (fresh x + 1)
    (match ph with First => hist x ++ [EvCall c r] | Again => hist x end).

Definition exec x id r : sys S K :=
  let '(rep, m) := serve (st x) r in
  mkSys m (cl x) (delete id (net x)) (<[id := rep]> (reps x)) (fresh x) (hist x).

(** The [Call] of client [c] returns [o]. *)
Definition return_ x c ph r (o : option reply) : sys S K :=
  match on_reply (clk (cl x c)) ph r o with
  | inl (rep, k) =>
      mkSys (st x) (<[c := mkCl (resume P c (app (cl x c)) rep) k None]> (cl x)) (net x) (reps x) (fresh x)
        (hist x ++ [EvRet c r rep])
  | inr k => send x c k Again r
  end.

Definition received x id r (o : option reply) : Prop :=
  match o with
  | None => True
  | Some rep => reps x !! id = Some rep \/ (refuses = true /\ rep = wrongLeader r)
  end.

Inductive xstep : sys S K -> sys S K -> Prop :=
| X_local x c s' :
    pend (cl x c) = None -> local P c (app (cl x c)) s' ->
    xstep x (mkSys (st x) (<[c := mkCl s' (clk (cl x c)) None]> (cl x)) (net x) (reps x) (fresh x) (hist x))
| X_invoke x c r :
    pend (cl x c) = None -> next P c (app (cl x c)) = Some r ->
    xstep x (send x c (clk (cl x c)) First r)
| X_exec x id r : net x !! id = Some r -> xstep x (exec x id r)
| X_return x c ph r id o :
    pend (cl x c) = Some (ph, r, id) -> received x id r o -> xstep x (return_ x c ph r o)
| X_drop x id :
    xstep x (mkSys (st x) (cl x) (delete id (net x)) (reps x) (fresh x) (hist x)).

(** Nothing is in progress and the store is [m0]. *)
Definition xinit_at (m0 : KvMap) (s0 : nat -> S) x : Prop :=
  st x = m0 /\ net x = ∅ /\ reps x = ∅ /\ hist x = [] /\
  forall c, app (cl x c) = s0 c /\ pend (cl x c) = None.

Definition xinit (s0 : nat -> S) x : Prop := xinit_at KvSrv.MakeKVServer s0 x.

(** ** The abstract service

    An operation is pending, then it has taken effect ([ADone], with the reply),
    then it returns.  An operation without effect may be evaluated again.  The
    flag marks a put that was abandoned: a copy of it may still be executed
    later ([a_late]), which needs that its version has not passed yet. *)

Inductive aop := AIdle | APend (r : request) | ADone (r : request) (rep : reply) (left : bool).

Record asys := mkA {
  a_st : KvMap;
  a_app : nat -> S;
  a_op : nat -> aop;
  a_late : list PutArgs;
  a_hist : list event
}.

Definition put_ok : reply := RepPut (mkPutReply OK).

(** What may be returned for an operation: its reply; [ErrMaybe] in place of
    [OK] or [ErrVersion]; never [ErrVersion] for an abandoned put. *)
Definition weakens (left : bool) (rep rep' : reply) : Prop :=
  (rep' = rep /\ (left = true -> rep <> RepPut (mkPutReply ErrVersion))) \/
  (rep' = RepPut (mkPutReply ErrMaybe) /\
   (rep = put_ok \/ rep = RepPut (mkPutReply ErrVersion))).

(** No version is about to wrap around. *)
Definition nowrap (m : KvMap) : Prop := vbound (2 ^ 64 - 2) m.

(** The operation in progress has had no effect so far. *)
Definition unserved (o : aop) (r : request) (left : bool) : Prop :=
  (o = APend r /\ left = false) \/ (exists rep, o = ADone r rep left /\ rep <> put_ok).

Inductive astep : asys -> asys -> Prop :=
| A_local a c s' :
    a_op a c = AIdle -> local P c (a_app a c) s' ->
    astep a (mkA (a_st a) (<[c := s']> (a_app a)) (a_op a) (a_late a) (a_hist a))
| A_invoke a c r :
    a_op a c = AIdle -> next P c (a_app a c) = Some r ->
    astep a (mkA (a_st a) (a_app a) (<[c := APend r]> (a_op a)) (a_late a) (a_hist a ++ [EvCall c r]))
| A_serve a c r left :
    unserved (a_op a c) r left -> nowrap (a_st a) ->
    astep a (mkA (snd (serve (a_st a) r)) (a_app a)
               (<[c := ADone r (fst (serve (a_st a) r)) left]> (a_op a)) (a_late a) (a_hist a))
| A_abandon a c p rep left :
    a_op a c = ADone (RPut p) rep left -> rep <> put_ok -> ~ spent (a_st a) p ->
    astep a (mkA (a_st a) (a_app a) (<[c := ADone (RPut p) rep true]> (a_op a)) (p :: a_late a) (a_hist a))
| A_return a c r rep left rep' :
    a_op a c = ADone r rep left -> weakens left rep rep' ->
    astep a (mkA (a_st a) (<[c := resume P c (a_app a c) rep']> (a_app a))
               (<[c := AIdle]> (a_op a)) (a_late a) (a_hist a ++ [EvRet c r rep']))
| A_late a p :
    p ∈ a_late a -> nowrap (a_st a) -> astep a (mkA (snd (serve (a_st a) (RPut p))) (a_app a) (a_op a) (a_late a) (a_hist a)).

Definition a0_at (m0 : KvMap) (s0 : nat -> S) : asys := mkA m0 s0 (fun _ => AIdle) [] [].
Definition a0 (s0 : nat -> S) : asys := a0_at KvSrv.MakeKVServer s0.

(** ** The simulation *)

(** The operation of a client that waits in phase [ph] for request [id]. *)
Definition op_ok x (a : asys) c ph r id : Prop :=
  (a_op a c = APend r /\ reps x !! id = None) \/
  (exists rep left, a_op a c = ADone r rep left /\ answers r rep /\
     (forall rep', reps x !! id = Some rep' ->
        rep' = rep \/ (rep = put_ok /\ rep' = RepPut (mkPutReply ErrVersion))) /\
     (ph = First -> reps x !! id = Some rep) /\
     (forall p, r = RPut p -> rep = put_ok -> spent (st x) p) /\
     (left = true -> ph = Again /\ exists p, r = RPut p /\ p ∈ a_late a)).

Definition stale_ok x (a : asys) r : Prop :=
  match r with
  | RGet _ => True
  | RPut p => (exists c id, pend (cl x c) = Some (Again, RPut p, id)) \/
              spent (st x) p \/ p ∈ a_late a
  end.

Record R (n : Z) x (a : asys) : Prop := mkR {
  r_st : a_st a = st x;
  r_hist : a_hist a = hist x;
  r_n : 0 <= n;
  r_bound : vbound n (st x);
  r_net_lt id r : net x !! id = Some r -> (id < fresh x)%nat /\ reps x !! id = None;
  r_reps_lt id rep : reps x !! id = Some rep -> (id < fresh x)%nat;
  r_app c : a_app a c = app (cl x c);
  r_idle c : pend (cl x c) = None -> a_op a c = AIdle;
  r_wait c ph r id : pend (cl x c) = Some (ph, r, id) -> (id < fresh x)%nat /\ op_ok x a c ph r id;
  r_uniq c c' ph r ph' r' id :
    pend (cl x c) = Some (ph, r, id) -> pend (cl x c') = Some (ph', r', id) -> c = c';
  r_copy id r : net x !! id = Some r ->
    (exists c ph, pend (cl x c) = Some (ph, r, id)) \/
    ((forall c ph r', pend (cl x c) <> Some (ph, r', id)) /\ stale_ok x a r)
}.

Lemma op_ok_mono x x' (a a' : asys) c ph r id :
  op_ok x a c ph r id -> a_op a' c = a_op a c -> reps x' !! id = reps x !! id ->
  (forall p, spent (st x) p -> spent (st x') p) -> a_late a ⊆ a_late a' ->
  op_ok x' a' c ph r id.
Proof.
  intros [[Ho Hr]|(rep & left & Ho & Hans & Hrep & Hf & Hsp & Hl)] Eo Er Hs Hlate.
  - left. rewrite Eo, Er. auto.
  - right. exists rep, left. rewrite Eo, Er. split_and!; eauto.
    intros Hleft. destruct (Hl Hleft) as (? & p & ? & ?). split; [done|]. exists p. split; [done|]. by apply Hlate.
Qed.

Lemma stale_ok_mono x x' (a a' : asys) r :
  stale_ok x a r -> cl x' = cl x -> (forall p, spent (st x) p -> spent (st x') p) ->
  a_late a ⊆ a_late a' -> stale_ok x' a' r.
Proof.
  destruct r as [|p]; simpl; [done|]. intros [Hc|[Hs|Hl]] -> Hsp Hlate; eauto.
Qed.

Lemma vbound_mono n n' m : vbound n m -> n <= n' -> vbound n' m.
Proof. intros Hb Hn k e He. apply Hb in He. lia. Qed.

Lemma R_nowrap n x a : R n x a -> n + 1 < 2 ^ 64 -> nowrap (a_st a).
Proof. intros HR Hn. rewrite (r_st _ _ _ HR). eapply vbound_mono; [apply HR|lia]. Qed.

(** Executing a request, against abstract steps that reach [a']. *)
Lemma exec_R n x a a' id r :
  R n x a -> net x !! id = Some r -> n + 1 < 2 ^ 64 ->
  a_st a' = snd (serve (st x) r) -> a_hist a' = a_hist a -> a_app a' = a_app a -> a_late a ⊆ a_late a' ->
  (forall c, pend (cl x c) = None -> a_op a' c = AIdle) ->
  (forall c ph r' id', pend (cl x c) = Some (ph, r', id') -> op_ok (exec x id r) a' c ph r' id') ->
  R (n + 1) (exec x id r) a'.
Proof.
  intros HR Hnet Hn Est Ehist Eapp Hlate Hidle Hop.
  assert (Hsp : forall p, spent (st x) p -> spent (snd (serve (st x) r)) p).
  { intros p. apply (spent_grows n); [apply HR|done]. }
  pose proof (vbound_step n (st x) r (r_bound _ _ _ HR) (r_n _ _ _ HR) Hn) as Hb.
  unfold exec in *. destruct (serve (st x) r) as [rep m]. simpl in *.
  destruct (r_net_lt _ _ _ HR _ _ Hnet) as [Hlt Hnone].
  constructor; simpl; auto.
  - rewrite Ehist. apply HR.
  - destruct HR. lia.
  - intros id' r' [Hne Hl]%lookup_delete_Some. destruct (r_net_lt _ _ _ HR _ _ Hl).
    by rewrite lookup_insert_ne.
  - intros id' rep' Hl. destruct (decide (id = id')) as [<-|Hne]; [done|].
    rewrite lookup_insert_ne in Hl by done. by apply (r_reps_lt _ _ _ HR) in Hl.
  - intros c. rewrite Eapp. apply HR.
  - intros c ph r' id' Hp. split; [by apply (r_wait _ _ _ HR c ph r' id' Hp)|eauto].
  - apply HR.
  - intros id' r' [Hne Hl]%lookup_delete_Some. destruct (r_copy _ _ _ HR _ _ Hl) as [?|[? Hs]]; [auto|].
    right. split; [done|]. eapply stale_ok_mono; [exact Hs|done..].
Qed.

(** The other clients do not notice. *)
Lemma exec_others n x a a' id r c ph r' id' :
  R n x a -> n + 1 < 2 ^ 64 -> pend (cl x c) = Some (ph, r', id') -> id' <> id ->
  a_op a' c = a_op a c -> a_late a ⊆ a_late a' -> op_ok (exec x id r) a' c ph r' id'.
Proof.
  intros HR Hn Hp Hne Ho Hl. eapply op_ok_mono; [apply (r_wait _ _ _ HR _ _ _ _ Hp)|done| |..|done].
  - unfold exec. destruct (serve _ _). simpl. by rewrite lookup_insert_ne.
  - intros p Hs. pose proof (spent_grows n (st x) r p (r_bound _ _ _ HR) Hn Hs) as H'.
    unfold exec. by destruct (serve _ _).
Qed.

(** An operation whose put has succeeded is spent. *)
Lemma served_ok_spent n x a p :
  R n x a -> n + 1 < 2 ^ 64 -> fst (serve (st x) (RPut p)) = put_ok -> spent (snd (serve (st x) (RPut p))) p.
Proof.
  intros HR Hn. simpl. pose proof (put_ok_spent n (st x) p (r_bound _ _ _ HR) Hn) as Hs.
  destruct (KvSrv.Put (st x) p). simpl in *. unfold put_ok. intros [= ->]. auto.
Qed.

(** A request that executes without effect needs no abstract step. *)
Lemma exec_noeffect n x a id r :
  R n x a -> net x !! id = Some r -> n + 1 < 2 ^ 64 -> snd (serve (st x) r) = st x ->
  (forall c ph r', pend (cl x c) = Some (ph, r', id) -> op_ok (exec x id r) a c ph r' id) ->
  R (n + 1) (exec x id r) a.
Proof.
  intros HR Hnet Hn Hs Hc. eapply exec_R; [done..|by rewrite Hs; apply HR|done|done|done|apply HR|].
  intros c ph r' id' Hp. destruct (decide (id' = id)) as [->|Hne]; [by apply Hc|].
  by eapply exec_others.
Qed.

(** The execution is the effect of client [c]'s operation, and [id'] is the
    request the client waits for. *)
Lemma exec_serves n x a id r c ph id' left :
  R n x a -> net x !! id = Some r -> n + 1 < 2 ^ 64 ->
  pend (cl x c) = Some (ph, r, id') -> unserved (a_op a c) r left ->
  (left = true -> ph = Again /\ exists p, r = RPut p /\ p ∈ a_late a) ->
  (forall c', c' <> c -> forall ph r', pend (cl x c') <> Some (ph, r', id)) ->
  (id' = id \/ (ph = Again /\ reps x !! id' = None)) ->
  exists a', rtc astep a a' /\ R (n + 1) (exec x id r) a'.
Proof.
  intros HR Hnet Hn Hp Hu Hleft Hoth Hid.
  exists (mkA (snd (serve (a_st a) r)) (a_app a)
            (<[c := ADone r (fst (serve (a_st a) r)) left]> (a_op a)) (a_late a) (a_hist a)).
  split; [apply rtc_once, A_serve; by eauto using R_nowrap|].
  rewrite (r_st _ _ _ HR). eapply exec_R; simpl; [done..| |].
  - intros c' Hc'. destruct (decide (c = c')) as [<-|Hne]; [congruence|].
    rewrite fn_lookup_insert_ne by done. by apply HR.
  - intros c' ph' r' id'' Hp'. destruct (decide (c = c')) as [<-|Hne].
    + rewrite Hp in Hp'. simplify_eq. right. exists (fst (serve (st x) r')), left. simpl.
      rewrite fn_lookup_insert. split; [done|]. split; [apply serve_answers|].
      pose proof (served_ok_spent n x a) as Hs. unfold exec. destruct (serve (st x) r') as [rep m] eqn:E. simpl.
      split_and!.
      * intros rep'. destruct Hid as [->|[_ Hnone]]; [rewrite lookup_insert_eq; intros [=]; auto|].
        destruct (decide (id = id'')) as [<-|Hne]; [rewrite lookup_insert_eq; intros [=]; auto|].
        rewrite lookup_insert_ne by done. congruence.
      * intros ->. destruct Hid as [->|[? _]]; [by rewrite lookup_insert_eq|done].
      * intros p -> ->. specialize (Hs p HR Hn). rewrite E in Hs. by apply Hs.
      * done.
    + eapply exec_others; [done..| | |done].
      * intros ->. by eapply (Hoth c' (not_eq_sym Hne)).
      * simpl. by rewrite fn_lookup_insert_ne.
Qed.

Lemma abandon_R n x a c p rep left id :
  R n x a -> pend (cl x c) = Some (Again, RPut p, id) -> a_op a c = ADone (RPut p) rep left ->
  R n x (mkA (a_st a) (a_app a) (<[c := ADone (RPut p) rep true]> (a_op a)) (p :: a_late a) (a_hist a)).
Proof.
  intros HR Hp Ho. destruct HR. constructor; simpl; auto.
  - intros c' Hc'. destruct (decide (c = c')) as [<-|Hne]; [congruence|].
    rewrite fn_lookup_insert_ne by done. auto.
  - intros c' ph' r' id' Hp'. destruct (r_wait0 _ _ _ _ Hp') as [? Hop]. split; [done|].
    destruct (decide (c = c')) as [<-|Hne].
    + rewrite Hp in Hp'. simplify_eq. destruct Hop as [[? _]|(rep' & left' & Ho' & ? & ? & ? & ? & _)]; [congruence|].
      rewrite Ho in Ho'. simplify_eq. right. exists rep', true. simpl. rewrite fn_lookup_insert.
      split_and!; auto. intros _. split; [done|]. exists p. split; [done|]. apply list_elem_of_here.
    + eapply op_ok_mono; [exact Hop|simpl; by rewrite fn_lookup_insert_ne|done|done|].
      intros q. apply list_elem_of_further.
  - intros id' r' Hl. destruct (r_copy0 _ _ Hl) as [?|[? Hs]]; [auto|]. right. split; [done|].
    eapply stale_ok_mono; [exact Hs|done|done|]. intros q. apply list_elem_of_further.
Qed.

(** An abandoned copy is executed. *)
Lemma exec_late n x a id p :
  R n x a -> net x !! id = Some (RPut p) -> n + 1 < 2 ^ 64 -> p ∈ a_late a ->
  (forall c ph r', pend (cl x c) <> Some (ph, r', id)) ->
  exists a', rtc astep a a' /\ R (n + 1) (exec x id (RPut p)) a'.
Proof.
  intros HR Hnet Hn Hp Hst. eexists. split; [apply rtc_once, (A_late a p); by eauto using R_nowrap|].
  rewrite (r_st _ _ _ HR). eapply exec_R; simpl; [done..|apply HR|].
  intros c ph r' id' Hc. eapply exec_others; [done..| |done|done]. intros ->. by eapply Hst.
Qed.

Lemma xexec_sim n x a id r :
  R n x a -> net x !! id = Some r -> n + 1 < 2 ^ 64 ->
  exists a', rtc astep a a' /\ R (n + 1) (exec x id r) a'.
Proof.
  intros HR Hnet Hn. destruct (r_net_lt _ _ _ HR _ _ Hnet) as [_ Hnone].
  destruct (r_copy _ _ _ HR _ _ Hnet) as [(c & ph & Hp)|[Hst Hs]].
  - assert (Hoth : forall c', c' <> c -> forall ph' r', pend (cl x c') <> Some (ph', r', id)).
    { intros c' Hne ph' r' Hp'. apply Hne. by eapply (r_uniq _ _ _ HR). }
    destruct (r_wait _ _ _ HR _ _ _ _ Hp) as [_ [[Ho _]|(rep & left & Ho & Hans & Hrep & Hf & Hsp & Hl)]].
    { eapply (exec_serves n x a id r c ph id false); eauto; [by left|done]. }
    destruct (decide (rep = put_ok)) as [->|Hok].
    + destruct r as [|p]; [done|]. exists a. split; [done|]. pose proof (Hsp p eq_refl eq_refl) as Hsp'.
      eapply exec_noeffect; [done..|by simpl; rewrite spent_put|].
      intros c' ph' r' Hp'. assert (c' = c) as -> by (by eapply (r_uniq _ _ _ HR)).
      rewrite Hp in Hp'. simplify_eq. right. exists put_ok, left. unfold exec. simpl.
      rewrite spent_put by done. simpl. rewrite lookup_insert_eq. split_and!; eauto.
      * intros rep' [= <-]. auto.
      * intros ->. rewrite Hf in Hnone by done. done.
    + eapply (exec_serves n x a id r c ph id left); eauto. right. eauto.
  - assert (Hno : forall c ph r', pend (cl x c) = Some (ph, r', id) -> op_ok (exec x id r) a c ph r' id)
      by (intros ??? Hp; exfalso; by eapply Hst).
    destruct r as [g|p]; [exists a; split; [done|]; by apply exec_noeffect|].
    destruct (decide (spent (st x) p)) as [Hsp|Hnsp].
    { exists a. split; [done|]. apply exec_noeffect; auto. simpl. by rewrite spent_put. }
    destruct Hs as [(c & id' & Hp)|[?|Hl]]; [|done|by apply exec_late].
    destruct (r_wait _ _ _ HR _ _ _ _ Hp) as [_ [[Ho Hr]|(rep & left & Ho & Hans & Hrep & Hf & Hs & Hl)]].
    { eapply (exec_serves n x a id _ c Again id' false); eauto; [by left|done]. }
    assert (Hok : rep <> put_ok) by (intros ->; by eauto).
    destruct (reps x !! id') as [rep'|] eqn:Er.
    + destruct (exec_late n x (mkA (a_st a) (a_app a) (<[c := ADone (RPut p) rep true]> (a_op a)) (p :: a_late a) (a_hist a)) id p)
        as (a' & Hrtc & HR'); [by eapply abandon_R|done|done|apply list_elem_of_here|done|].
      exists a'. split; [|done]. eapply rtc_l; [|exact Hrtc]. eapply A_abandon; [exact Ho|done|].
      by rewrite (r_st _ _ _ HR).
    + eapply (exec_serves n x a id _ c Again id' left); eauto. right. eauto.
Qed.

(** Case on whether two clients coincide. *)
Ltac ccase c c' := kcase c c'; simplify_eq/=.

(** Client [c] sends a request, for a new operation or for the one in progress. *)
Lemma send_R n x (a a' : asys) c k ph r :
  R n x a -> a_st a' = a_st a -> a_hist a' = hist (send x c k ph r) -> a_late a' = a_late a -> a_app a' = a_app a ->
  (forall c', c' <> c -> a_op a' c' = a_op a c') ->
  op_ok (send x c k ph r) a' c ph r (fresh x) ->
  (forall ph' r' id', pend (cl x c) = Some (ph', r', id') -> r' = r /\ ph = Again) ->
  R n (send x c k ph r) a'.
Proof.
  intros HR Es Eh El Ea Ho Hop Hprev. unfold send in *.
  assert (Hlt : forall id rep, reps x !! id = Some rep -> (id < fresh x)%nat) by apply HR.
  constructor; simpl; rewrite ?Es, ?Ea; try apply HR.
  - done.
  - intros id r'. destruct (decide (id = fresh x)) as [->|Hne].
    + intros _. split; [lia|]. destruct (reps x !! fresh x) eqn:E; [|done]. apply Hlt in E. lia.
    + rewrite lookup_insert_ne by done. intros Hl. destruct (r_net_lt _ _ _ HR _ _ Hl). split; [lia|done].
  - intros id rep Hl. apply Hlt in Hl. lia.
  - intros c'. rewrite (r_app _ _ _ HR). ccase c c'; done.
  - intros c' Hc'. ccase c c'. rewrite Ho by done. by apply HR.
  - intros c' ph' r' id' Hp'. ccase c c'; [split; [lia|done]|].
    destruct (r_wait _ _ _ HR _ _ _ _ Hp') as [Hid' Hop']. split; [lia|].
    eapply op_ok_mono; [exact Hop'|by apply Ho|done|done|by rewrite El].
  - intros c1 c2 ph1 r1 ph2 r2 id H1 H2.
    assert (Hf : forall c' ph' r', pend (cl x c') = Some (ph', r', fresh x) -> False).
    { intros c' ph' r' Hp'. apply (r_wait _ _ _ HR) in Hp' as [? _]. lia. }
    destruct (decide (c = c1)) as [<-|], (decide (c = c2)) as [<-|]; fn_upd; simplify_eq/=;
      [done|exfalso; eauto|exfalso; eauto|by eapply (r_uniq _ _ _ HR)].
  - intros id r' Hl. destruct (decide (id = fresh x)) as [->|Hne].
    { rewrite lookup_insert_eq in Hl. simplify_eq. left. exists c, ph. by rewrite fn_lookup_insert. }
    rewrite lookup_insert_ne in Hl by done. destruct (r_copy _ _ _ HR _ _ Hl) as [(c' & ph' & Hp')|[Hst Hs]].
    + destruct (decide (c = c')) as [<-|Hcc].
      * right. destruct (Hprev _ _ _ Hp') as [-> ->]. split.
        -- intros c2 ph2 r2 H2. destruct (decide (c = c2)) as [<-|Hcc]; fn_upd; simplify_eq/=.
           by eapply Hcc, (r_uniq _ _ _ HR).
        -- destruct r as [|p]; simpl; [done|]. left. exists c, (fresh x). by rewrite fn_lookup_insert.
      * left. exists c', ph'. by rewrite fn_lookup_insert_ne.
    + right. split; [intros c2 ph2 r2 H2; ccase c c2; by eapply Hst|].
      destruct r' as [|p]; simpl in *; [done|]. rewrite El. destruct Hs as [(c2 & id2 & H2)|Hs]; [|by right].
      left. destruct (decide (c = c2)) as [<-|Hcc].
      * destruct (Hprev _ _ _ H2) as [<- ->]. exists c, (fresh x). by rewrite fn_lookup_insert.
      * exists c2, id2. by rewrite fn_lookup_insert_ne.
Qed.

(** The operation of client [c] returns; what is left of it in the network is
    harmless or abandoned. *)
Lemma finish_R n x a c k s ph r id rep :
  R n x a -> pend (cl x c) = Some (ph, r, id) -> net x !! id = None ->
  (ph = Again -> forall p, r = RPut p -> spent (st x) p \/ p ∈ a_late a) ->
  R n (mkSys (st x) (<[c := mkCl s k None]> (cl x)) (net x) (reps x) (fresh x) (hist x ++ [EvRet c r rep]))
    (mkA (a_st a) (<[c := s]> (a_app a)) (<[c := AIdle]> (a_op a)) (a_late a) (a_hist a ++ [EvRet c r rep])).
Proof.
  intros HR Hp Hnet Hleft. constructor; simpl; try apply HR.
  - by rewrite (r_hist _ _ _ HR).
  - intros c'. ccase c c'; [done|]. apply HR.
  - intros c' Hc'. ccase c c'; [done|]. by apply HR.
  - intros c' ph' r' id' Hp'. ccase c c'. destruct (r_wait _ _ _ HR _ _ _ _ Hp') as [? Hop]. split; [done|].
    eapply op_ok_mono; [exact Hop|simpl; by rewrite fn_lookup_insert_ne|done..].
  - intros c1 c2 ph1 r1 ph2 r2 id' H1 H2. 
    destruct (decide (c = c1)) as [<-|], (decide (c = c2)) as [<-|]; fn_upd; simplify_eq/=. by eapply (r_uniq _ _ _ HR).
  - intros id' r' Hl. destruct (r_copy _ _ _ HR _ _ Hl) as [(c' & ph' & Hp')|[Hst Hs]].
    + destruct (decide (c = c')) as [<-|Hne]; [congruence|]. left. exists c', ph'. by rewrite fn_lookup_insert_ne.
    + right. split; [intros c2 ph2 r2 H2; ccase c c2; by eapply Hst|].
      destruct r' as [|p]; simpl in *; [done|]. destruct Hs as [(c2 & id2 & H2)|Hs]; [|by right].
      destruct (decide (c = c2)) as [<-|Hne].
      * right. rewrite Hp in H2. simplify_eq. by apply Hleft.
      * left. exists c2, id2. by rewrite fn_lookup_insert_ne.
Qed.

Lemma told_weakens ph r rep rep' lf :
  answers r rep' -> (lf = true -> ph = Again) ->
  rep' = rep \/ (rep = put_ok /\ rep' = RepPut (mkPutReply ErrVersion) /\ ph = Again) ->
  weakens lf rep (told ph rep').
Proof.
  intros Ha Hl [->|(-> & -> & ->)]; [|right; simpl; auto].
  destruct ph; simpl; [left; split; [done|]; intros E; by specialize (Hl E)|].
  destruct r as [|p], rep as [g|[e]]; simpl in Ha; try done; [by left|].
  destruct Ha as [-> | [-> | ->]]; simpl; [by left|right; auto|by left].
Qed.

Lemma return_sim n x a c ph r id o :
  R n x a -> pend (cl x c) = Some (ph, r, id) -> received x id r o ->
  exists a', rtc astep a a' /\ R n (return_ x c ph r o) a'.
Proof.
  intros HR Hp Hrec. destruct (r_wait _ _ _ HR _ _ _ _ Hp) as [_ Hop].
  assert (Hagain : forall k, R n (send x c k Again r) a).
  { intros k. eapply send_R; [done|done|apply HR|done|done|done| |by intros; simplify_eq].
    assert (Hf : reps x !! fresh x = None).
    { destruct (reps x !! fresh x) eqn:E; [|done]. apply (r_reps_lt _ _ _ HR) in E. lia. }
    destruct Hop as [[Ho _]|(rep & lf & Ho & ? & _ & _ & ? & Hl)]; [left; simpl; auto|].
    right. exists rep, lf. simpl. rewrite Hf. split_and!; auto; try done.
    intros Hleft. split; [done|]. by apply Hl. }
  unfold return_. destruct o as [rep|].
  2: { destruct (clerk_fail (clk (cl x c)) ph r) as (k & ->). eauto using rtc_refl. }
  destruct Hrec as [Hrep|[Hrf ->]].
  2: { destruct (clerk_refused (clk (cl x c)) ph r Hrf) as (k & ->). eauto using rtc_refl. }
  destruct Hop as [[_ ?]|(rep0 & lf & Ho & Hans & Hr & Hf & Hsp & Hl)]; [congruence|].
  assert (Hans' : answers r rep).
  { destruct (Hr _ Hrep) as [->|[-> ->]]; [done|]. destruct r; simpl in *; auto. }
  destruct (clerk_answer (clk (cl x c)) ph r rep Hans') as (k & ->).
  assert (Hnet : net x !! id = None).
  { destruct (net x !! id) eqn:E; [|done]. destruct (r_net_lt _ _ _ HR _ _ E). congruence. }
  assert (Hw : forall l, (l = true -> ph = Again) -> weakens l rep0 (told ph rep)).
  { intros l Hlph. eapply told_weakens; [done|done|]. destruct (Hr _ Hrep) as [->|[-> ->]]; [by left|].
    right. destruct ph; [|done]. rewrite Hf in Hrep by done. done. }
  rewrite <- (r_app _ _ _ HR).
  assert (Hleave : (ph = Again -> forall p, r = RPut p -> spent (st x) p \/ p ∈ a_late a) \/
                   (ph = Again /\ exists p, r = RPut p /\ ~ spent (st x) p)).
  { destruct ph; [left; done|]. destruct r as [|p]; [left; done|].
    destruct (decide (spent (st x) p)); [left; intros _ q [= <-]; by left|right; eauto]. }
  destruct Hleave as [Hleave|(-> & p & -> & Hns)].
  - eexists. split; [apply rtc_once; eapply (A_return a c); [exact Ho|apply Hw]|].
    + intros E. by apply Hl.
    + by eapply finish_R.
  - assert (Hok : rep0 <> put_ok) by (intros ->; by eauto).
    eexists. split.
    + eapply rtc_l; [eapply (A_abandon a c); [exact Ho|done|by rewrite (r_st _ _ _ HR)]|].
      apply rtc_once. eapply (A_return _ c); simpl; [by rewrite fn_lookup_insert|by apply Hw].
    + eapply (finish_R n x (mkA _ _ _ (p :: a_late a) _)); [by eapply abandon_R|done|done|].
      intros _ q [= <-]. right. apply list_elem_of_here.
Qed.

Lemma xstep_sim n x x' a :
  R n x a -> xstep x x' -> n + 1 < 2 ^ 64 -> exists a', rtc astep a a' /\ R (n + 1) x' a'.
Proof.
  assert (Hmono : forall x a, R n x a -> R (n + 1) x a).
  { intros y b HR. pose proof (r_n _ _ _ HR). destruct HR; constructor; auto; [lia|].
    eapply vbound_mono; [done|lia]. }
  intros HR Hstep Hn. destruct Hstep as [x c s' Hp Hl|x c r Hp Hnx|x id r Hnet|x c ph r id o Hp Hrec|x id].
  - eexists. split.
    + apply rtc_once, (A_local a c s'); [by apply HR|by rewrite (r_app _ _ _ HR)].
    + apply Hmono. destruct HR. constructor; simpl; auto.
      * intros c'. ccase c c'; auto.
      * intros c' Hc'. ccase c c'; auto.
      * intros c' ph' r' id' Hp'. ccase c c'. destruct (r_wait0 _ _ _ _ Hp') as [? Hop]. split; [done|].
        by eapply op_ok_mono.
      * intros c1 c2 ph1 r1 ph2 r2 id' H1 H2.
        destruct (decide (c = c1)) as [<-|], (decide (c = c2)) as [<-|]; fn_upd; simplify_eq/=. eauto.
      * intros id' r' Hl'. destruct (r_copy0 _ _ Hl') as [(c' & ph' & Hp')|[Hst Hs]].
        -- left. exists c', ph'. rewrite fn_lookup_insert_ne by congruence. done.
        -- right. split; [intros c2 ph2 r2 H2; ccase c c2; by eapply Hst|].
           destruct r' as [|p]; simpl in *; [done|]. destruct Hs as [(c2 & id2 & H2)|Hs]; [|by right].
           left. exists c2, id2. rewrite fn_lookup_insert_ne by congruence. done.
  - eexists. split; [apply rtc_once, (A_invoke a c r); [by apply HR|by rewrite (r_app _ _ _ HR)]|].
    apply Hmono. eapply send_R; [done|done|simpl; by rewrite (r_hist _ _ _ HR)|done|done| | |congruence].
    + intros c' Hne. simpl. by rewrite fn_lookup_insert_ne.
    + left. simpl. rewrite fn_lookup_insert. split; [done|].
      destruct (reps x !! fresh x) eqn:E; [|done]. apply (r_reps_lt _ _ _ HR) in E. lia.
  - by apply xexec_sim.
  - destruct (return_sim n x a c ph r id o HR Hp Hrec) as (a' & ? & ?). eauto.
  - exists a. split; [done|]. apply Hmono. destruct HR. constructor; simpl; auto.
    + intros id' r' [_ Hl]%lookup_delete_Some. eauto.
    + intros id' r' [_ Hl]%lookup_delete_Some. eauto.
Qed.

Lemma steps_sim_at m0 b s0 x0 x n :
  xinit_at m0 s0 x0 -> vbound b m0 -> 0 <= b -> nsteps xstep n x0 x -> b + Z.of_nat n < 2 ^ 64 ->
  exists a, rtc astep (a0_at m0 s0) a /\ R (b + Z.of_nat n) x a.
Proof.
  intros Hi Hb Hb0 Hs. revert x Hs. induction n as [|n IH]; intros x Hs Hn.
  - inversion Hs; subst. destruct Hi as (Es & En & Er & Eh & Hc). exists (mkA (st x) s0 (fun _ => AIdle) [] []).
    split; [by rewrite Es|]. rewrite Z.add_0_r. constructor; simpl; auto.
    + by rewrite Es.
    + intros id r. by rewrite En, lookup_empty.
    + intros id rep. by rewrite Er, lookup_empty.
    + intros c. by destruct (Hc c).
    + intros c ph r id Hp. destruct (Hc c). congruence.
    + intros c c' ph r ph' r' id Hp. destruct (Hc c). congruence.
    + intros id r. by rewrite En, lookup_empty.
  - apply nsteps_inv_r in Hs as (y & Hs & Hstep). destruct (IH y Hs ltac:(lia)) as (a & Ha & HR).
    destruct (xstep_sim _ _ _ _ HR Hstep ltac:(lia)) as (a' & Ha' & HR').
    exists a'. split; [by etrans|]. by replace (b + Z.of_nat (Datatypes.S n)) with (b + Z.of_nat n + 1) by lia.
Qed.

Lemma steps_sim s0 x0 x n :
  xinit s0 x0 -> nsteps xstep n x0 x -> Z.of_nat n < 2 ^ 64 ->
  exists a, rtc astep (a0 s0) a /\ R (Z.of_nat n) x a.
Proof.
  intros Hi Hs Hn. apply (steps_sim_at KvSrv.MakeKVServer 0 s0 x0 x n Hi); [|done..].
  intros k e He. unfold KvSrv.MakeKVServer in He. by rewrite lookup_empty in He.
Qed.

(** C6: clerks turn an unreliable network into an atomic service.  However
    requests and replies are lost, delayed past the [Call] that sent them, or
    (for the replicated clerk) refused, every run shorter than 2^64 steps of
    clients with lawful clerks is a run of the abstract service: same store,
    same client states, same invocations and returns in the same order.  There each operation takes effect at one instant
    between its invocation and its return; a put is performed at most once; [OK]
    means it was, [ErrVersion] that it was not and never will be, [ErrMaybe]
    that it may have been. *)
Theorem clerks_refine_service s0 x0 x n :
  xinit s0 x0 -> nsteps xstep n x0 x -> Z.of_nat n < 2 ^ 64 ->
  exists a, rtc astep (a0 s0) a /\ a_st a = st x /\ a_hist a = hist x /\ forall c, a_app a c = app (cl x c).
Proof.
  intros Hi Hs Hn. destruct (steps_sim s0 x0 x n Hi Hs Hn) as (a & Ha & HR).
  exists a. split_and!; [done|apply HR|apply HR|apply HR].
Qed.

End system.

(** ** Schedules

    Runs from scripts: a client takes its [i]-th own step, calls, receives its
    reply or gives up waiting; request [id] is executed. *)
Section schedule.
Context {S K : Type} `{LawfulClerk K} (P : program S).
Context (own : nat -> S -> nat -> option S) (own_local : forall c s i s', own c s i = Some s' -> local P c s s').

Inductive act := Own (c i : nat) | Invoke (c : nat) | Exec (id : nat) | Receive (c : nat) | TimeOut (c : nat).

Definition perform (x : sys S K) (t : act) : option (sys S K) :=
  match t with
  | Own c i =>
      match pend (cl x c), own c (app (cl x c)) i with
      | None, Some s' => Some (mkSys (st x) (<[c := mkCl s' (clk (cl x c)) None]> (cl x)) (net x) (reps x) (fresh x) (hist x))
      | _, _ => None
      end
  | Invoke c =>
      match pend (cl x c), next P c (app (cl x c)) with None, Some r => Some (send x c (clk (cl x c)) First r) | _, _ => None end
  | Exec id => match net x !! id with Some r => Some (exec x id r) | None => None end
  | Receive c =>
      match pend (cl x c) with
      | Some (ph, r, id) => match reps x !! id with Some rep => Some (return_ P x c ph r (Some rep)) | None => None end
      | None => None
      end
  | TimeOut c => match pend (cl x c) with Some (ph, r, id) => Some (return_ P x c ph r None) | None => None end
  end.

Lemma performed_step x t x' : perform x t = Some x' -> xstep P x x'.
Proof using own_local.
  destruct t as [c i|c|id|c|c]; simpl; intros Hp.
  - destruct (pend (cl x c)) eqn:E1; [done|]. destruct (own c (app (cl x c)) i) as [s'|] eqn:E2; simplify_eq. apply X_local; eauto.
  - destruct (pend (cl x c)) eqn:E1; [done|]. destruct (next P c (app (cl x c))) eqn:E2; simplify_eq. by apply X_invoke.
  - destruct (net x !! id) eqn:E; simplify_eq. by apply X_exec.
  - destruct (pend (cl x c)) as [[[ph r] id]|] eqn:E; [|done]. destruct (reps x !! id) eqn:E2; simplify_eq.
    eapply X_return; [done|]. by left.
  - destruct (pend (cl x c)) as [[[ph r] id]|] eqn:E; simplify_eq. by eapply X_return.
Qed.

Fixpoint schedule (x : sys S K) (ts : list act) : option (sys S K) :=
  match ts with [] => Some x | t :: ts => x' ← perform x t; schedule x' ts end.

Lemma schedule_steps ts x x' : schedule x ts = Some x' -> nsteps (xstep P) (length ts) x x'.
Proof using own_local.
  revert x. induction ts as [|t ts IH]; intros x; simpl; [intros [= ->]; constructor|].
  destruct (perform x t) as [y|] eqn:E; [|done]. intros Hs. econstructor; [by apply (performed_step _ t)|by apply IH].
Qed.

End schedule.

(** ** A run

    A client that performs a list of operations and collects the replies. *)
Module ClerkDemo.

Definition batch : program (list request * list reply) := {|
  next _ s := head (fst s);
  resume _ s rep := (tail (fst s), snd s ++ [rep]);
  local _ _ _ := False
|}.

Definition put1 : request := RPut (mkPutArgs "x" "1" 0).
Definition s0 (c : nat) : list request * list reply :=
  if decide (c = 0%nat) then ([put1], []) else ([], []).
Definition ck : KvRaftClerk.Clerk := KvRaftClerk.mkClerk ["a"; "b"; "c"] 2.

(** The put is executed, its reply is lost, and the resend sees [ErrVersion]. *)
Definition x0 : sys (list request * list reply) KvRaftClerk.Clerk :=
  mkSys ∅ (fun c => mkCl (s0 c) ck None) ∅ ∅ 0 [].
Definition x1 := send x0 0 ck First put1.
Definition x2 := exec x1 0 put1.
Definition x3 := return_ batch x2 0 First put1 None.
Definition x4 := exec x3 1 put1.
Definition x5 := return_ batch x4 0 Again put1 (Some (RepPut (mkPutReply ErrVersion))).

Lemma x5_steps : nsteps (xstep batch) 5 x0 x5.
Proof.
  apply (nsteps_l _ _ _ x1); [by apply (X_invoke batch x0 0 put1)|].
  apply (nsteps_l _ _ _ x2); [by apply (X_exec batch x1 0 put1)|].
  apply (nsteps_l _ _ _ x3); [by eapply (X_return batch x2 0 First put1 0 None)|].
  apply (nsteps_l _ _ _ x4); [by apply (X_exec batch x3 1 put1)|].
  apply (nsteps_l _ _ _ x5); [|constructor].
  eapply (X_return batch x4 0 Again put1 1); [done|]. left. vm_compute. reflexivity.
Qed.

Lemma clerks_refine_service_witness :
  exists a, rtc (astep batch) (a0 s0) a /\ a_app a 0%nat = ([], [RepPut (mkPutReply ErrMaybe)]).
Proof.
  destruct (clerks_refine_service batch s0 x0 x5 5) as (a & Ha & Hst & _ & Happ).
  - split_and!; try reflexivity. intros c. split; reflexivity.
  - exact x5_steps.
  - lia.
  - exists a. split; [exact Ha|]. rewrite Happ. vm_compute. reflexivity.
Defined.

End ClerkDemo.
