(* ===== verification/Lock.v ===== *)
(** * The lock of kvsrv1/lock

    [Acquire] and [Release] as programs over a clerk, one [Get] or [Put] at a
    time, and mutual exclusion for any number of clients, whichever lawful clerk
    they use and whatever the network does. *)

From S2P Require Import Prelude Kv KvClerk.

(** A lock handle: the client's identity and the key of the lock. *)
Record Lock := mkLock { lk_id : string; lockname : string }.

(** Where a client is: outside; in [Acquire], about to read the lock, to write
    it at the version read, or to check after [ErrMaybe]; holding the lock; in
    [Release], about to read and to write. *)
Inductive lstate :=
| Out | AcqGet | AcqPut (v : Tversion) | AcqCheck | Held | RelGet | RelPut (v : Tversion).

(** The loop of [Acquire], at each return of the clerk. *)
Definition Acquire (lk : Lock) (s : lstate) (rep : reply) : lstate :=
  match s, rep with
  | AcqGet, RepGet (mkGetReply nowId v err) =>
      if decide (err = ErrNoKey \/ (err = OK /\ nowId = "")) then AcqPut v else AcqGet
  | AcqPut _, RepPut (mkPutReply err) =>
      if decide (err = OK) then Held
      else if decide (err = ErrMaybe) then AcqCheck else AcqGet
  | AcqCheck, RepGet (mkGetReply nowId _ err) =>
      if decide (err = OK /\ nowId = lk_id lk) then Held else AcqGet
  | _, _ => s
  end.

Definition Release (lk : Lock) (s : lstate) (rep : reply) : lstate :=
  match s, rep with
  | RelGet, RepGet (mkGetReply nowId v err) =>
      if decide (err = OK /\ nowId = lk_id lk) then RelPut v else Out
  | RelPut _, RepPut _ => Out
  | _, _ => s
  end.

Section lock.
Context (lks : nat -> Lock).

Definition lock_next (c : nat) (s : lstate) : option request :=
  match s with
  | AcqGet | AcqCheck | RelGet => Some (RGet (mkGetArgs (lockname (lks c))))
  | AcqPut v => Some (RPut (mkPutArgs (lockname (lks c)) (lk_id (lks c)) v))
  | RelPut v => Some (RPut (mkPutArgs (lockname (lks c)) "" v))
  | Out | Held => None
  end.

Definition lock_resume (c : nat) (s : lstate) (rep : reply) : lstate :=
  match s with
  | AcqGet | AcqPut _ | AcqCheck => Acquire (lks c) s rep
  | _ => Release (lks c) s rep
  end.

(** The application calls [Acquire] and [Release]. *)
Definition lock_local (_ : nat) (s s' : lstate) : Prop :=
  (s = Out /\ s' = AcqGet) \/ (s = Held /\ s' = RelGet).

Definition lock_program : program lstate := {|
  next := lock_next; resume := lock_resume; local := lock_local
|}.

(** ** The invariant *)

(** Identities are random strings of eight letters. *)
Context (Hid : forall c, lk_id (lks c) <> "")
        (Hdistinct : forall c c', lockname (lks c) = lockname (lks c') ->
                                  lk_id (lks c) = lk_id (lks c') -> c = c').

Implicit Types (m : KvMap) (c : nat) (a : @asys lstate).

Definition entry m c : option kvEntry := m !! lockname (lks c).

Definition holds m c (v : Tversion) : Prop := entry m c = Some (mkKvEntry (lk_id (lks c)) v).

(** A put at version [v] finds the lock free, or fails. *)
Definition free m c (v : Tversion) : Prop :=
  match entry m c with
  | None => v = 0
  | Some e => v <= version e /\ (version e = v -> value e = "")
  end.

Definition passed m c (v : Tversion) : Prop := exists e, entry m c = Some e /\ v < version e.

(** What a client may conclude from a [Get] that has been served. *)
Definition got m c (g : GetReply) : Prop :=
  (getr_Err g = OK -> getr_Value g = lk_id (lks c) -> holds m c (getr_Version g)) /\
  (getr_Err g = ErrNoKey \/ (getr_Err g = OK /\ getr_Value g = "") -> free m c (getr_Version g)).

Definition getting m c (o : aop) : Prop :=
  let r := RGet (mkGetArgs (lockname (lks c))) in
  o = AIdle \/ o = APend r \/ (exists g lf, o = ADone r (RepGet g) lf /\ got m c g).

Definition Jc m c (s : lstate) (o : aop) : Prop :=
  match s with
  | Out => o = AIdle
  | Held => o = AIdle /\ exists v, holds m c v
  | AcqGet | AcqCheck => getting m c o
  | RelGet => getting m c o /\ exists v, holds m c v
  | AcqPut v =>
      let r := RPut (mkPutArgs (lockname (lks c)) (lk_id (lks c)) v) in
      ((o = AIdle \/ o = APend r) /\ free m c v) \/
      (exists lf, o = ADone r put_ok lf /\ exists v', holds m c v') \/
      (exists lf, o = ADone r (RepPut (mkPutReply ErrVersion)) lf /\ passed m c v)
  | RelPut v =>
      let r := RPut (mkPutArgs (lockname (lks c)) "" v) in
      ((o = AIdle \/ o = APend r) /\ holds m c v) \/ (exists lf, o = ADone r put_ok lf)
  end.

Definition J a : Prop := a_late a = [] /\ forall c, Jc (a_st a) c (a_app a c) (a_op a c).

(** How the store may change under client [c]: not at its lock, or to a higher
    version while the client does not hold it. *)
Definition moves m m' c : Prop :=
  entry m' c = entry m c \/
  ((forall v, ~ holds m c v) /\ exists e', entry m' c = Some e' /\
     match entry m c with Some e => version e < version e' | None => 0 < version e' end).

Lemma free_moves m m' c v : moves m m' c -> free m c v -> free m' c v.
Proof.
  unfold free. intros [->|(_ & e' & -> & He)]; [done|]. destruct (entry m c) as [e|].
  - intros [? _]. split; lia.
  - intros ->. split; lia.
Qed.

Lemma holds_moves m m' c v : moves m m' c -> holds m c v -> holds m' c v.
Proof. intros [E|(Hn & _)] H; [unfold holds; by rewrite E|by destruct (Hn v)]. Qed.

Lemma passed_moves m m' c v : moves m m' c -> passed m c v -> passed m' c v.
Proof.
  unfold passed. intros [->|(_ & e' & -> & He)] (e & Ee & Hlt); [eauto|]. rewrite Ee in He. exists e'. split; [done|lia].
Qed.

Lemma getting_moves m m' c o : moves m m' c -> getting m c o -> getting m' c o.
Proof.
  intros Hm [?|[?|(g & lf & -> & Hg1 & Hg2)]]; [by left|by right; left|]. right; right. exists g, lf.
  split; [done|]. split; eauto using holds_moves, free_moves.
Qed.

Lemma Jc_moves m m' c s o : moves m m' c -> Jc m c s o -> Jc m' c s o.
Proof.
  intros Hm. destruct s; simpl; try done.
  - eauto using getting_moves.
  - intros [[? ?]|[(lf & ? & v' & ?)|(lf & ? & ?)]]; [left|right; left|right; right];
      eauto 6 using free_moves, holds_moves, passed_moves.
  - eauto using getting_moves.
  - intros (? & v & ?). eauto using holds_moves.
  - intros (? & v & ?). eauto using holds_moves, getting_moves.
  - intros [[? ?]|?]; [left|by right]. eauto using holds_moves.
Qed.

Lemma moves_refl m c : moves m m c.
Proof. by left. Qed.

(** A put that finds the lock free or held by its own client disturbs nobody. *)
Lemma put_moves m c c' p :
  nowrap m -> put_Key p = lockname (lks c) -> c <> c' ->
  (free m c (put_Version p) \/ holds m c (put_Version p)) ->
  moves m (snd (KvSrv.Put m p)) c'.
Proof.
  intros Hw Hk Hne Hp. destruct (Put_cases m p) as [(_ & Hv & ->)|[-> _]]; [|by left].
  unfold moves, entry. destruct (decide (lockname (lks c') = lockname (lks c))) as [E|E].
  2: { left. rewrite lookup_insert_ne by congruence. done. }
  right. rewrite E, Hk in *. rewrite lookup_insert_eq. unfold ver_of in Hv. split.
  - intros v Hh. unfold holds, entry in *. rewrite E in Hh. unfold free, entry in Hp. rewrite Hh in *. simpl in *.
    destruct Hp as [[_ Hp]|Hp]; [by eapply (Hid c'), Hp|]. simplify_eq. apply Hne. by apply Hdistinct.
  - eexists. split; [done|]. simpl. destruct (m !! lockname (lks c)) as [e|] eqn:Ee; [|lia].
    apply Hw in Ee. unfold u64. rewrite Z.mod_small; lia.
Qed.

(** The request a client has in progress. *)
Lemma Jc_request m c s o r lf :
  Jc m c s o -> unserved o r lf -> lock_next c s = Some r.
Proof.
  intros HJ [[-> _]|(rep & -> & Hne)]; destruct s; simpl in *; unfold getting in *;
    repeat match goal with
    | H : _ \/ _ |- _ => destruct H
    | H : _ /\ _ |- _ => destruct H
    | H : exists _, _ |- _ => destruct H
    end; by simplify_eq.
Qed.

Lemma got_served m c : nowrap m -> got m c (KvSrv.Get m (mkGetArgs (lockname (lks c)))).
Proof.
  intros Hw. unfold KvSrv.Get, got, free, holds, entry. simpl.
  destruct (m !! lockname (lks c)) as [[val v]|] eqn:E; simpl; [|split; [done|done]].
  split; [by intros _ ->|]. intros [?|[_ ->]]; [done|]. split; [lia|done].
Qed.

(** Serving a client's request keeps every client's part of the invariant. *)
Lemma serve_J m c s o r lf :
  nowrap m -> Jc m c s o -> unserved o r lf ->
  (forall c', c <> c' -> moves m (snd (serve m r)) c') /\
  Jc (snd (serve m r)) c s (ADone r (fst (serve m r)) lf).
Proof.
  intros Hw HJ Hu. pose proof (Jc_request _ _ _ _ _ _ HJ Hu) as Hn.
  assert (Hget : r = RGet (mkGetArgs (lockname (lks c))) ->
    (forall c', c <> c' -> moves m (snd (serve m r)) c') /\
    getting (snd (serve m r)) c (ADone r (fst (serve m r)) lf) /\ snd (serve m r) = m).
  { intros ->. simpl. split; [by left|]. split; [|done]. right; right. eexists _, lf.
    split; [done|]. by apply got_served. }
  destruct s as [| |v| | | |v]; simpl in Hn; simplify_eq.
  - by destruct (Hget eq_refl) as (? & ? & _).
  - set (p := mkPutArgs _ _ _) in *. simpl in HJ.
    assert (Hf : free m c v).
    { destruct Hu as [[-> _]|(rep & -> & Hne)]; destruct HJ as [[[?|?] ?]|[(lf' & ? & _)|(lf' & ? & e & He & Hlt)]];
        simplify_eq; try done. unfold free. rewrite He. split; lia. }
    pose proof (put_moves m c) as Hm. pose proof (Put_cases m p) as Hc.
    simpl. destruct (KvSrv.Put m p) as [rep m'] eqn:E. simpl in *. split.
    { intros c' Hne. specialize (Hm c' p Hw eq_refl Hne (or_introl Hf)). by rewrite E in Hm. }
    right. destruct Hc as [(-> & _ & ->)|[-> [(-> & e & He & Hne)|(-> & He & Hne)]]].
    + left. exists lf. split; [done|]. unfold holds, entry. rewrite lookup_insert_eq. eauto.
    + right. exists lf. split; [done|]. exists e. split; [done|]. unfold free, entry in Hf. rewrite He in Hf. lia.
    + unfold free, entry in Hf. rewrite He in Hf. done.
  - by destruct (Hget eq_refl) as (? & ? & _).
  - destruct (Hget eq_refl) as (? & ? & E). split; [done|]. split; [done|]. rewrite E. apply HJ.
  - set (p := mkPutArgs _ _ _) in *. simpl in HJ.
    assert (Hh : holds m c v).
    { destruct Hu as [[-> _]|(rep & -> & Hne)]; destruct HJ as [[[?|?] ?]|(lf' & ?)]; by simplify_eq. }
    pose proof (put_moves m c) as Hm. pose proof (Put_cases m p) as Hc.
    simpl. destruct (KvSrv.Put m p) as [rep m'] eqn:E. simpl in *. split.
    { intros c' Hne. specialize (Hm c' p Hw eq_refl Hne (or_intror Hh)). by rewrite E in Hm. }
    right. exists lf. destruct Hc as [(-> & _)|[_ [(_ & e & He & Hne)|(_ & He & Hne)]]]; [done|..].
    + unfold holds, entry in Hh. rewrite Hh in He. by simplify_eq.
    + unfold holds, entry in Hh. congruence.
Qed.

(** Returning to the program. *)
Lemma return_J m c s r rep lf rep' :
  Jc m c s (ADone r rep lf) -> weakens lf rep rep' -> Jc m c (lock_resume c s rep') AIdle.
Proof.
  intros HJ Hw.
  assert (Hget : getting m c (ADone r rep lf) -> exists g, rep' = RepGet g /\ got m c g).
  { intros [?|[?|(g & lf' & ? & Hg)]]; simplify_eq. destruct Hw as [[-> _]|[_ [?|?]]]; [|done..]. eauto. }
  assert (Hidle : getting m c AIdle) by (by left).
  destruct s as [| |v| | | |v]; simpl in HJ.
  - done.
  - destruct (Hget HJ) as ([nowId v err] & -> & Hg). simpl. dcase; simpl; [|done].
    left. split; [by left|]. by apply Hg.
  - destruct HJ as [[[?|?] ?]|[(lf' & ? & Hh)|(lf' & ? & Hp)]]; simplify_eq;
      destruct Hw as [[-> _]|[-> _]]; simpl; auto.
  - destruct (Hget HJ) as ([nowId v err] & -> & Hg). simpl. dcase; simpl; [des|done].
    split; [done|]. exists v. by apply Hg.
  - by destruct HJ.
  - destruct HJ as [HJ _]. destruct (Hget HJ) as ([nowId v err] & -> & Hg). simpl. dcase; simpl; [des|done].
    left. split; [by left|]. by apply Hg.
  - destruct HJ as [[[?|?] ?]|(lf' & ?)]; simplify_eq. destruct Hw as [[-> _]|[-> _]]; done.
Qed.

(** A lock client's put is never left behind in the network. *)
Lemma no_abandon m c s p rep lf :
  Jc m c s (ADone (RPut p) rep lf) -> rep <> put_ok -> ~ spent m p -> False.
Proof.
  intros HJ Hne Hsp.
  assert (Hg : getting m c (ADone (RPut p) rep lf) -> False) by (intros [?|[?|(? & ? & ? & _)]]; done).
  destruct s; simpl in HJ; try done; try (by apply Hg); try (by apply Hg, HJ).
  - destruct HJ as [[[?|?] _]|[(? & ? & _)|(? & ? & e & He & Hlt)]]; simplify_eq.
    apply Hsp. exists e. auto.
  - by destruct HJ.
  - destruct HJ as [[[?|?] _]|(? & ?)]; by simplify_eq.
Qed.

Lemma J_step a a' : J a -> astep lock_program a a' -> J a'.
Proof.
  intros [Hl HJ] Hstep.
  destruct Hstep as [a c s' Ho Hloc|a c r Ho Hn|a c r lf Hu Hw|a c p rep lf Ho Hne Hsp|a c r rep lf rep' Ho Hwk|a p Hp Hw];
    (split; [simpl; try done|]; simpl).
  - intros c'. specialize (HJ c'). kcase c c'; [|done]. rewrite Ho in *.
    destruct Hloc as [[E ->]|[E ->]]; rewrite E in HJ; simpl in *; [by left|]. destruct HJ. split; [by left|done].
  - intros c'. specialize (HJ c'). kcase c c'; [|done]. rewrite Ho in HJ.
    destruct (a_app a c') as [| |v| | | |v] eqn:E; simpl in *; simplify_eq; unfold getting in *.
    + right; by left.
    + left. destruct HJ as [[_ ?]|[(? & ? & _)|(? & ? & _)]]; [auto|done|done].
    + right; by left.
    + destruct HJ. split; [right; by left|done].
    + left. destruct HJ as [[_ ?]|(? & ?)]; [auto|done].
  - destruct (serve_J (a_st a) c _ _ r lf Hw (HJ c) Hu) as [Hm Hc].
    intros c'. destruct (decide (c = c')) as [<-|Hne]; fn_upd; [done|]. eapply Jc_moves; [by apply Hm|apply HJ].
  - specialize (HJ c). rewrite Ho in HJ. by destruct (no_abandon _ _ _ _ _ _ HJ).
  - specialize (HJ c). rewrite Ho in HJ. by destruct (no_abandon _ _ _ _ _ _ HJ).
  - intros c'. specialize (HJ c'). kcase c c'; [|done]. rewrite Ho in HJ. by eapply return_J.
  - rewrite Hl in Hp. by apply not_elem_of_nil in Hp.
Qed.

Lemma lock_J s0 a : (forall c, s0 c = Out) -> rtc (astep lock_program) (a0 s0) a -> J a.
Proof.
  intros H0 Hr. assert (HJ : J (a0 s0)) by (split; [done|]; intros c; simpl; by rewrite H0).
  induction Hr as [|a a' a'' Hs _ IH]; [done|]. by eapply IH, J_step.
Qed.

(** C10: mutual exclusion.  Any number of clients acquire and release locks, with
    any lawful clerk, over a network that loses and delays messages; in every
    state reached in fewer than 2^64 steps two clients that hold the same lock
    are the same client.  In particular an [ErrMaybe] in [Acquire] never leads
    to two owners. *)
Theorem lock_mutual_exclusion {K} `{LawfulClerk K} (x0 x : sys lstate K) n c c' :
  xinit (fun _ => Out) x0 -> nsteps (xstep lock_program) n x0 x -> Z.of_nat n < 2 ^ 64 ->
  app (cl x c) = Held -> app (cl x c') = Held -> lockname (lks c) = lockname (lks c') -> c = c'.
Proof.
  intros Hi Hs Hn Hc Hc' El. destruct (steps_sim lock_program _ x0 x n Hi Hs Hn) as (a & Ha & HR).
  destruct (lock_J _ a (fun _ => eq_refl) Ha) as [_ HJ].
  pose proof (HJ c) as H1. pose proof (HJ c') as H2.
  rewrite (r_app _ _ _ HR) in H1, H2. rewrite Hc in H1. rewrite Hc' in H2. simpl in *.
  destruct H1 as (_ & v & H1), H2 as (_ & v' & H2). apply Hdistinct; [done|].
  unfold holds, entry in *. rewrite El in H1. congruence.
Qed.

End lock.

(** ** A run

    Client 0 acquires the lock although the reply to its [Put] is lost. *)
Module LockDemo.

Definition lks (c : nat) : Lock := mkLock (String.append "id" (pretty.pretty c)) "l".

Definition get_l : request := RGet (mkGetArgs "l").
Definition put_l : request := RPut (mkPutArgs "l" "id0" 0).
Definition P := lock_program lks.

Definition x0 : sys lstate unit := mkSys ∅ (fun _ => mkCl Out tt None) ∅ ∅ 0 [].
Definition x1 : sys lstate unit := mkSys ∅ (<[0%nat := mkCl AcqGet tt None]> (cl x0)) ∅ ∅ 0 [].
Definition x2 := send x1 0 tt First get_l.
Definition x3 := exec x2 0 get_l.
Definition x4 := return_ P x3 0 First get_l (reps x3 !! 0%nat).
Definition x5 := send x4 0 tt First put_l.
Definition x6 := exec x5 1 put_l.
Definition x7 := return_ P x6 0 First put_l None.
Definition x8 := exec x7 2 put_l.
Definition x9 := return_ P x8 0 Again put_l (reps x8 !! 2%nat).
Definition x10 := send x9 0 tt First get_l.
Definition x11 := exec x10 3 get_l.
Definition x12 := return_ P x11 0 First get_l (reps x11 !! 3%nat).

Ltac next_step y := apply (nsteps_l _ _ _ y).

Lemma x12_steps : nsteps (xstep P) 12 x0 x12.
Proof.
  next_step x1; [apply (X_local P x0 0 AcqGet); [done|by left]|].
  next_step x2; [by apply (X_invoke P x1 0 get_l)|].
  next_step x3; [by apply (X_exec P x2 0 get_l)|].
  next_step x4; [eapply (X_return P x3 0 First get_l 0); [vm_compute; reflexivity|vm_compute; by left]|].
  next_step x5; [by apply (X_invoke P x4 0 put_l)|].
  next_step x6; [by apply (X_exec P x5 1 put_l)|].
  next_step x7; [by eapply (X_return P x6 0 First put_l 1 None)|].
  next_step x8; [by apply (X_exec P x7 2 put_l)|].
  next_step x9; [eapply (X_return P x8 0 Again put_l 2); [vm_compute; reflexivity|vm_compute; by left]|].
  next_step x10; [by apply (X_invoke P x9 0 get_l)|].
  next_step x11; [by apply (X_exec P x10 3 get_l)|].
  next_step x12; [eapply (X_return P x11 0 First get_l 3); [vm_compute; reflexivity|vm_compute; by left]|].
  constructor.
Qed.

Lemma lock_mutual_exclusion_witness : app (cl x12 0) = Held /\ 0%nat = 0%nat.
Proof.
  assert (Hh : app (cl x12 0) = Held) by (vm_compute; reflexivity).
  split; [exact Hh|].
  refine (lock_mutual_exclusion lks _ _ x0 x12 12 0 0 _ x12_steps _ Hh Hh eq_refl).
  - intros c. done.
  - intros c c' _ E. unfold lks in E. simpl in E. apply (inj (String.append "id")) in E.
    by apply (inj pretty.pretty) in E.
  - split_and!; try reflexivity. intros c. split; reflexivity.
  - lia.
Defined.

End LockDemo.
