(* ===== verification/Workload.v ===== *)
(** * The workload of the key/value tests

    [kvtest1/kvtest.go]: the clients that race to put to one key ([OnePut],
    [OneClientPut]), reading and writing entries as JSON ([GetJson], [PutJson]),
    and the check of the outcome ([CheckPutConcurrent]).

    The clients are programs over a clerk, as in [Lock]; they run concurrently over
    a network that loses and delays messages.  The theorem is that no client ever
    fails the test on the way, and that the check passes: the version of the key
    is between the number of puts that returned OK and that number and the number
    of those that returned ErrMaybe. *)

From S2P Require Import Prelude Kv KvClerk.

Record EntryV := mkEntryV { Id : nat; V : Tversion }.

(** Where a client is in [OneClientPut]: at the select; in [OnePut], before the
    put and, with its error, before the get; back; or in [Fatalf]. *)
Inductive wphase := WTop | WPut | WGet (err : Err) | WDone | WFatal.

#[export] Instance wphase_eq_dec : EqDecision wphase.
Proof. solve_decision. Defined.

(** [w_ver] is [verm[k]], and [ver] in [OnePut]; the other two are the result. *)
Record wstate := mkWs { w_ph : wphase; w_ver : Tversion; Nok : Z; Nmaybe : Z }.

Record ClntRes := mkClntRes { res_Nok : Z; res_Nmaybe : Z }.

Definition set_ph (s : wstate) (ph : wphase) : wstate := mkWs ph (w_ver s) (Nok s) (Nmaybe s).

(** [ts.PutJson] and [ts.GetJson], with [encoding/json] on the type of the value;
    [None] is [Fatalf]. *)
Definition PutJson {T} (Marshal : T -> string) (key : string) (v : T) (ver : Tversion) : PutArgs := mkPutArgs key (Marshal v) ver.

Definition GetJson {T} (Unmarshal : string -> option T) (g : GetReply) : option (T * Tversion) :=
  if decide (getr_Err g = OK) then e ← Unmarshal (getr_Value g); Some (e, getr_Version g) else None.

Section workload.
(* encoding/json on an [EntryV] *)
Context (Marshal : EntryV -> string) (Unmarshal : string -> option EntryV).
(* [ka[0]] *)
Context (key : string).

Definition OnePut_args (me : nat) (ver : Tversion) : PutArgs := PutJson Marshal key (mkEntryV me ver) ver.

(** [OnePut] when its put returns, *)
Definition OnePut_put (s : wstate) (err : Err) : wstate :=
  if decide (err = OK \/ err = ErrVersion \/ err = ErrMaybe) then set_ph s (WGet err) else set_ph s WFatal.

(** and when its get returns, with the counting of [OneClientPut]. *)
Definition OnePut_get (me : nat) (s : wstate) (err : Err) (g : GetReply) : wstate :=
  match GetJson Unmarshal g with
  | None => set_ph s WFatal
  | Some (e, ver0) =>
      if decide ((err = OK /\ ver0 = u64 (w_ver s + 1)) /\ (Id e <> me /\ V e <> w_ver s)) then set_ph s WFatal
      else if decide (err = OK) then mkWs WTop ver0 (Nok s + 1) (Nmaybe s)
      else if decide (err = ErrMaybe) then mkWs WTop ver0 (Nok s) (Nmaybe s + 1)
      else mkWs WPut ver0 (Nok s) (Nmaybe s)
  end.

Definition OneClientPut_next (c : nat) (s : wstate) : option request :=
  match w_ph s with
  | WPut => Some (RPut (OnePut_args c (w_ver s)))
  | WGet _ => Some (RGet (mkGetArgs key))
  | _ => None
  end.

Definition OneClientPut_resume (c : nat) (s : wstate) (rep : reply) : wstate :=
  match w_ph s, rep with
  | WPut, RepPut p => OnePut_put s (putr_Err p)
  | WGet err, RepGet g => OnePut_get c s err g
  | _, _ => s
  end.

(** The select: another put, or the signal that the test is over. *)
Definition OneClientPut_local (_ : nat) (s s' : wstate) : Prop :=
  w_ph s = WTop /\ (s' = set_ph s WPut \/ s' = set_ph s WDone).

Definition OneClientPut : program wstate := {|
  next := OneClientPut_next; resume := OneClientPut_resume; local := OneClientPut_local
|}.

(** [n] clients are spawned. *)
Definition spawned (n : nat) (c : nat) : wstate := mkWs (if (c <? n)%nat then WTop else WDone) 0 0 0.

(** [None] is [Fatalf]; [g] is what the clerk's [Get] returns.  The conversions
    are those of an int to a version. *)
Definition CheckPutConcurrent (g : GetReply) (rs : list ClntRes) (res : ClntRes) (reliable : bool) : option ClntRes :=
  '(_, ver0) ← GetJson Unmarshal g;
  let res := foldl (fun res r => mkClntRes (res_Nok res + res_Nok r) (res_Nmaybe res + res_Nmaybe r)) res rs in
  if reliable then if decide (ver0 <> u64 (res_Nok res)) then None else Some res
  else if decide (ver0 > u64 (res_Nok res + res_Nmaybe res)) then None else Some res.

(** ** The invariant *)

Context (Unmarshal_Marshal : forall e, Unmarshal (Marshal e) = Some e).
Context (n : nat).

Implicit Types (m : KvMap) (c : nat) (s : wstate) (o : aop) (a : @asys wstate) (oks maybes : nat -> list Z).

Definition cur m : Z := ver_of m key.

Definition put_req c s : request := RPut (OnePut_args c (w_ver s)).
Definition get_req : request := RGet (mkGetArgs key).

(** The put of [c] that is in progress has taken effect. *)
Definition winning c s o : Prop := w_ph s = WPut /\ exists lf, o = ADone (put_req c s) put_ok lf.

(** [c] has put, and if nobody has put after it the entry is its own. *)
Definition won m c s : Prop :=
  is_Some (m !! key) /\ w_ver s < cur m /\ (cur m = w_ver s + 1 -> val_of m key = Marshal (mkEntryV c (w_ver s))).

Definition good_get m c s (err : Err) (g : GetReply) : Prop :=
  getr_Err g = OK /\ (1 <= getr_Version g < 2 ^ 64 /\ getr_Version g <= cur m) /\
  exists e, getr_Value g = Marshal e /\ (err = OK -> getr_Version g = w_ver s + 1 -> Id e = c).

Definition client_inv m c s o : Prop :=
  (0 <= w_ver s < 2 ^ 64 /\ w_ver s <= cur m) /\ ((w_ver s = 0 /\ Nok s = 0 /\ Nmaybe s = 0) \/ is_Some (m !! key)) /\
  match w_ph s with
  | WTop | WDone => o = AIdle
  | WFatal => False
  | WPut =>
      o = AIdle \/ o = APend (put_req c s) \/ (exists lf, o = ADone (put_req c s) put_ok lf /\ won m c s) \/
      (exists lf, o = ADone (put_req c s) (RepPut (mkPutReply ErrVersion)) lf /\ is_Some (m !! key) /\ w_ver s < cur m)
  | WGet err =>
      (err = OK \/ err = ErrVersion \/ err = ErrMaybe) /\ is_Some (m !! key) /\ (err = OK -> won m c s) /\
      (o = AIdle \/ o = APend get_req \/ exists g lf, o = ADone get_req (RepGet g) lf /\ good_get m c s err g)
  end.

(** [oks] and [maybes]: the versions of the puts that have returned so. *)
Definition counted oks maybes c s : Prop :=
  Z.of_nat (length (oks c)) = Nok s + (if decide (w_ph s = WGet OK) then 1 else 0) /\
  Z.of_nat (length (maybes c)) = Nmaybe s + (if decide (w_ph s = WGet ErrMaybe) then 1 else 0).

Definition wins oks a c (v : Z) : Prop := v ∈ oks c \/ (winning c (a_app a c) (a_op a c) /\ w_ver (a_app a c) = v).

Definition accounts oks maybes a c (v : Z) : Prop := wins oks a c v \/ v ∈ maybes c.

Record winv oks maybes a : Prop := {
  w_entry e : a_st a !! key = Some e -> (exists ev, value e = Marshal ev) /\ 1 <= version e < 2 ^ 64;
  w_client c : client_inv (a_st a) c (a_app a c) (a_op a c);
  w_counted c : counted oks maybes c (a_app a c);
  w_cover v : 0 <= v < cur (a_st a) -> exists c, accounts oks maybes a c v;
  w_late : a_late a = [];
  w_won c v : wins oks a c v -> 0 <= v < cur (a_st a);
  w_once c c' v : wins oks a c v -> wins oks a c' v -> c = c';
  w_nodup c : NoDup (oks c) /\ (winning c (a_app a c) (a_op a c) -> w_ver (a_app a c) ∉ oks c);
  w_others c : (n <= c)%nat -> w_ph (a_app a c) = WDone /\ oks c = [] /\ maybes c = []
}.

(** ** The store *)

(** The store after a put to the key, or after nothing. *)
Definition grown m m' : Prop :=
  m' = m \/ (cur m < cur m' /\ is_Some (m' !! key)).

Lemma cur_grown m m' : grown m m' -> cur m <= cur m'.
Proof. intros [->|[? _]]; lia. Qed.

Lemma won_grown m m' c s : grown m m' -> won m c s -> won m' c s.
Proof. intros [->|[Hlt Hs]] (H1 & H2 & H3); [done|]. split_and!; [done|lia|lia]. Qed.

Lemma some_grown m m' : grown m m' -> is_Some (m !! key) -> is_Some (m' !! key).
Proof. by intros [->|[_ ?]]. Qed.

Lemma client_grown m m' c s o : grown m m' -> client_inv m c s o -> client_inv m' c s o.
Proof.
  intros Hg ([H1 H1'] & H2 & H3). pose proof (cur_grown _ _ Hg) as Hle. split; [lia|]. split; [destruct H2; eauto using some_grown|].
  destruct (w_ph s) as [| |err| |]; try done.
  - destruct H3 as [?|[?|[(lf & ? & ?)|(lf & ? & ? & ?)]]]; eauto 8 using won_grown.
    right. right. right. exists lf. split_and!; eauto using some_grown. lia.
  - destruct H3 as (? & ? & ? & H4). split_and!; eauto using won_grown, some_grown.
    destruct H4 as [?|[?|(g & lf & ? & ? & ? & ?)]]; auto. right. right. exists g, lf. split; [done|]. split_and!; done || lia.
Qed.

Lemma cur_Some m e : m !! key = Some e -> cur m = version e.
Proof. intros H. unfold cur, ver_of. by rewrite H. Qed.

(** What a put to the key does. *)
Lemma put_key m p : nowrap m -> put_Key p = key ->
  (fst (serve m (RPut p)) = put_ok /\ cur m = put_Version p /\
     snd (serve m (RPut p)) !! key = Some (mkKvEntry (put_Value p) (cur m + 1)) /\ 0 <= cur m <= 2 ^ 64 - 2) \/
  (snd (serve m (RPut p)) = m /\
    (fst (serve m (RPut p)) = RepPut (mkPutReply ErrVersion) /\ is_Some (m !! key) /\ cur m <> put_Version p \/
     fst (serve m (RPut p)) = RepPut (mkPutReply ErrNoKey) /\ m !! key = None /\ put_Version p <> 0)).
Proof.
  intros Hw Hk. pose proof (Put_cases m p) as Hc. unfold serve. destruct (KvSrv.Put m p) as [rep m'] eqn:E. simpl in *. rewrite Hk in Hc.
  destruct Hc as [(-> & Hv & ->)|[-> [(-> & e & He & Hne)|(-> & Hn & Hv)]]];
    [left|right; split; [done|]; left; rewrite (cur_Some _ _ He); eauto|right; eauto].
  split_and!; [done|done| |..]; unfold cur, ver_of in *; rewrite ?lookup_insert_eq; destruct (m !! key) as [e|] eqn:Em; try lia; try done.
  - apply Hw in Em. unfold u64. rewrite Z.mod_small by lia. done.
  - apply Hw in Em. lia.
  - apply Hw in Em. lia.
Qed.

Lemma put_grown m p : nowrap m -> put_Key p = key -> grown m (snd (serve m (RPut p))).
Proof.
  intros Hw Hk. destruct (put_key m p Hw Hk) as [(_ & _ & He & _)|[-> _]]; [right|by left].
  rewrite (cur_Some _ _ He), He. simpl. split; [lia|done].
Qed.

(** ** One client moves

    What has to be shown of a step of client [c]. *)

Record moves oks maybes a oks' maybes' a' c : Prop := {
  m_out : (n <= c)%nat -> w_ph (a_app a' c) = WDone /\ oks' c = [] /\ maybes' c = [];
  m_others c' : c' <> c -> a_app a' c' = a_app a c' /\ a_op a' c' = a_op a c' /\ oks' c' = oks c' /\ maybes' c' = maybes c';
  m_entry e : a_st a' !! key = Some e -> (exists ev, value e = Marshal ev) /\ 1 <= version e < 2 ^ 64;
  m_grown : grown (a_st a) (a_st a');
  m_next : cur (a_st a') <= cur (a_st a) + 1;
  m_client : client_inv (a_st a') c (a_app a' c) (a_op a' c);
  m_counted : counted oks' maybes' c (a_app a' c);
  m_owns v : accounts oks maybes a c v -> accounts oks' maybes' a' c v;
  m_new : cur (a_st a) < cur (a_st a') -> accounts oks' maybes' a' c (cur (a_st a));
  m_wins v : wins oks' a' c v -> wins oks a c v \/ (v = cur (a_st a) /\ cur (a_st a) < cur (a_st a'));
  m_nodup : NoDup (oks' c) /\ (winning c (a_app a' c) (a_op a' c) -> w_ver (a_app a' c) ∉ oks' c);
  m_late : a_late a' = a_late a
}.

Lemma wins_other oks maybes a oks' maybes' a' c c' v : moves oks maybes a oks' maybes' a' c -> c' <> c ->
  (wins oks' a' c' v <-> wins oks a c' v) /\ (accounts oks' maybes' a' c' v <-> accounts oks maybes a c' v).
Proof.
  intros Hm Hne. destruct (m_others _ _ _ _ _ _ _ Hm c' Hne) as (Ha & Ho & Hk & Hy). unfold accounts, wins. by rewrite Ha, Ho, Hk, Hy.
Qed.

Lemma winv_cur oks maybes a : winv oks maybes a -> 0 <= cur (a_st a).
Proof.
  intros H. unfold cur, ver_of. destruct (a_st a !! key) as [e|] eqn:E; [|lia]. destruct (w_entry _ _ _ H e E). lia.
Qed.

Lemma owns_moves oks maybes a oks' maybes' a' c c' v : moves oks maybes a oks' maybes' a' c ->
  accounts oks maybes a c' v -> accounts oks' maybes' a' c' v.
Proof.
  intros Hm Ho. destruct (decide (c' = c)) as [->|Hne]; [by apply (m_owns _ _ _ _ _ _ _ Hm)|].
  by apply (wins_other _ _ _ _ _ _ _ _ v Hm Hne).
Qed.

Lemma wins_moves oks maybes a oks' maybes' a' c c' v : moves oks maybes a oks' maybes' a' c -> wins oks' a' c' v ->
  wins oks a c' v \/ (c' = c /\ v = cur (a_st a) /\ cur (a_st a) < cur (a_st a')).
Proof.
  intros Hm Hv. destruct (decide (c' = c)) as [->|Hne]; [destruct (m_wins _ _ _ _ _ _ _ Hm v Hv); auto|].
  left. by apply (wins_other _ _ _ _ _ _ _ _ v Hm Hne).
Qed.

Lemma winv_moves oks maybes a oks' maybes' a' c : winv oks maybes a -> moves oks maybes a oks' maybes' a' c -> winv oks' maybes' a'.
Proof.
  intros H Hm. pose proof (cur_grown _ _ (m_grown _ _ _ _ _ _ _ Hm)) as Hcur. pose proof (winv_cur _ _ _ H) as Hpos.
  split.
  - apply (m_entry _ _ _ _ _ _ _ Hm).
  - intros c'. destruct (decide (c' = c)) as [->|Hne]; [apply (m_client _ _ _ _ _ _ _ Hm)|].
    destruct (m_others _ _ _ _ _ _ _ Hm c' Hne) as (-> & -> & _). eapply client_grown; [apply (m_grown _ _ _ _ _ _ _ Hm)|apply (w_client _ _ _ H)].
  - intros c'. destruct (decide (c' = c)) as [->|Hne]; [apply (m_counted _ _ _ _ _ _ _ Hm)|].
    destruct (m_others _ _ _ _ _ _ _ Hm c' Hne) as (-> & _ & Hk & Hy). unfold counted. rewrite Hk, Hy. apply (w_counted _ _ _ H).
  - intros v Hv. destruct (decide (v < cur (a_st a))) as [Hlt|Hge].
    + destruct (w_cover _ _ _ H v ltac:(lia)) as [c' Ho]. exists c'. by eapply owns_moves.
    + pose proof (m_next _ _ _ _ _ _ _ Hm). assert (v = cur (a_st a)) as -> by lia. exists c. apply (m_new _ _ _ _ _ _ _ Hm). lia.
  - rewrite (m_late _ _ _ _ _ _ _ Hm). apply (w_late _ _ _ H).
  - intros c' v Hv. destruct (wins_moves _ _ _ _ _ _ _ c' v Hm Hv) as [Hw|(_ & -> & ?)]; [|lia]. pose proof (w_won _ _ _ H c' v Hw). lia.
  - intros c1 c2 v H1 H2.
    destruct (wins_moves _ _ _ _ _ _ _ c1 v Hm H1) as [Hw1|(Hc1 & Hv1 & ?)], (wins_moves _ _ _ _ _ _ _ c2 v Hm H2) as [Hw2|(Hc2 & Hv2 & ?)].
    + by eapply (w_once _ _ _ H).
    + pose proof (w_won _ _ _ H c1 _ Hw1). lia.
    + pose proof (w_won _ _ _ H c2 _ Hw2). lia.
    + congruence.
  - intros c'. destruct (decide (c' = c)) as [->|Hne]; [apply (m_nodup _ _ _ _ _ _ _ Hm)|].
    destruct (m_others _ _ _ _ _ _ _ Hm c' Hne) as (-> & -> & -> & _). apply (w_nodup _ _ _ H).
  - intros c' Hc'. destruct (decide (c' = c)) as [->|Hne]; [by apply (m_out _ _ _ _ _ _ _ Hm)|].
    destruct (m_others _ _ _ _ _ _ _ Hm c' Hne) as (-> & _ & -> & ->). by apply (w_others _ _ _ H).
Qed.

(** [a'] is [a] but for the client [c]. *)
Definition only c a a' : Prop := forall c', c' <> c -> a_app a' c' = a_app a c' /\ a_op a' c' = a_op a c'.

Lemma active oks maybes a c : winv oks maybes a -> w_ph (a_app a c) <> WDone -> (c < n)%nat.
Proof. intros H Hd. destruct (decide (n <= c)%nat) as [Hge|]; [|lia]. by destruct (w_others _ _ _ H c Hge). Qed.

(** A step that changes neither the store nor the lists of versions. *)
Lemma moves_quiet oks maybes a a' c : winv oks maybes a -> only c a a' -> a_st a' = a_st a ->
  w_ph (a_app a c) <> WDone -> ~ winning c (a_app a c) (a_op a c) -> ~ winning c (a_app a' c) (a_op a' c) ->
  client_inv (a_st a) c (a_app a' c) (a_op a' c) -> counted oks maybes c (a_app a' c) ->
  a_late a' = a_late a ->
  moves oks maybes a oks maybes a' c.
Proof.
  intros H Ho Hst Hd Hw Hw' Hc Hn Hl. split; rewrite ?Hst; try done.
  - pose proof (active _ _ _ _ H Hd). lia.
  - intros c' Hne. by destruct (Ho c' Hne).
  - apply (w_entry _ _ _ H).
  - by left.
  - lia.
  - unfold accounts, wins. tauto.
  - lia.
  - unfold wins. tauto.
  - split; [apply (w_nodup _ _ _ H)|done].
Qed.

Lemma not_winning_idle c s : ~ winning c s AIdle.
Proof. intros (_ & lf & ?). done. Qed.

Lemma step_local oks maybes a c s' h : winv oks maybes a -> a_op a c = AIdle -> OneClientPut_local c (a_app a c) s' ->
  moves oks maybes a oks maybes (mkA (a_st a) (<[c := s']> (a_app a)) (a_op a) (a_late a) h) c.
Proof.
  intros H Hop (Hph & Hs). pose proof (w_client _ _ _ H c) as (Hv & Hk & _). pose proof (w_counted _ _ _ H c) as Hn.
  apply moves_quiet; simpl; fn_upd; try done.
  - intros c' Hne. simpl. by fn_upd.
  - by rewrite Hph.
  - rewrite Hop. apply not_winning_idle.
  - rewrite Hop. apply not_winning_idle.
  - rewrite Hop. destruct Hs as [->| ->]; (split; [done|]); (split; [done|]); simpl; auto.
  - unfold counted in *. rewrite Hph in Hn. destruct Hs as [->| ->]; simpl; done.
Qed.

Lemma step_invoke oks maybes a c r h : winv oks maybes a -> a_op a c = AIdle -> OneClientPut_next c (a_app a c) = Some r ->
  moves oks maybes a oks maybes (mkA (a_st a) (a_app a) (<[c := APend r]> (a_op a)) (a_late a) h) c.
Proof.
  intros H Hop Hnx. pose proof (w_client _ _ _ H c) as (Hv & Hk & Hc). unfold OneClientPut_next in Hnx.
  apply moves_quiet; simpl; fn_upd; try done.
  - intros c' Hne. simpl. by fn_upd.
  - intros Hph. by rewrite Hph in Hnx.
  - rewrite Hop. apply not_winning_idle.
  - intros (_ & lf & ?). done.
  - split; [done|]. split; [done|]. destruct (w_ph (a_app a c)) as [| |err| |]; simplify_eq; [right; by left|].
    destruct Hc as (? & ? & ? & _). split_and!; try done. right. by left.
  - apply (w_counted _ _ _ H).
Qed.

(** A put that had no effect will never have one. *)
Lemma put_spent oks maybes a c p rep lf : winv oks maybes a -> a_op a c = ADone (RPut p) rep lf -> rep <> put_ok -> spent (a_st a) p.
Proof.
  intros H Hop Hne. pose proof (w_client _ _ _ H c) as (Hv & Hk & Hc). rewrite Hop in Hc. destruct (w_ph (a_app a c)) as [| |err| |]; try done.
  - destruct Hc as [?|[?|[(? & ? & _)|(? & ? & [e He] & Hlt)]]]; simplify_eq. rewrite (cur_Some _ _ He) in Hlt. exists e. auto.
  - by destruct Hc as (_ & _ & _ & [?|[?|(g & lf' & ? & _)]]).
Qed.

(** What a client waits for. *)
Lemma unserved_req oks maybes a c r lf : winv oks maybes a -> unserved (a_op a c) r lf ->
  ~ winning c (a_app a c) (a_op a c) /\
  ((w_ph (a_app a c) = WPut /\ r = put_req c (a_app a c)) \/ (exists err, w_ph (a_app a c) = WGet err /\ r = get_req)).
Proof.
  intros H Hu. pose proof (w_client _ _ _ H c) as (_ & _ & Hc). split_and!.
  - intros (_ & lf' & Ho). destruct Hu as [[Hu _]|(rep & Hu & Hne)]; congruence.
  - destruct (w_ph (a_app a c)) as [| |err| |]; [| | | |done]; destruct Hu as [[Hu ->]|(rep & Hu & Hne)]; rewrite Hu in Hc; try done.
    + left. split; [done|]. by destruct Hc as [?|[?|[(? & ? & _)|(? & ? & ?)]]]; simplify_eq.
    + left. split; [done|]. by destruct Hc as [?|[?|[(? & ? & _)|(? & ? & ?)]]]; simplify_eq.
    + right. exists err. split; [done|]. by destruct Hc as (_ & _ & _ & [?|[?|(g & lf' & ? & _)]]); simplify_eq.
    + right. exists err. split; [done|]. by destruct Hc as (_ & _ & _ & [?|[?|(g & lf' & ? & _)]]); simplify_eq.
Qed.

Lemma get_good m c s err : (forall e, m !! key = Some e -> (exists ev, value e = Marshal ev) /\ 1 <= version e < 2 ^ 64) ->
  is_Some (m !! key) -> (err = OK -> won m c s) -> good_get m c s err (KvSrv.Get m (mkGetArgs key)).
Proof.
  intros He [e Hk] Hw. destruct (He e Hk) as [[ev Hev] Hb]. unfold KvSrv.Get, good_get. simpl. rewrite Hk. simpl.
  split; [done|]. split; [rewrite (cur_Some _ _ Hk); lia|]. destruct (decide (err = OK /\ version e = w_ver s + 1)) as [[Ho Hv]|Hn].
  - destruct (Hw Ho) as (_ & _ & Hval). rewrite (cur_Some _ _ Hk) in Hval. unfold val_of in Hval. rewrite Hk in Hval.
    exists (mkEntryV c (w_ver s)). by rewrite Hval.
  - exists ev. split; [done|]. intros ? ?. tauto.
Qed.

Lemma step_serve_get oks maybes a c lf err h : winv oks maybes a -> unserved (a_op a c) get_req lf -> w_ph (a_app a c) = WGet err ->
  moves oks maybes a oks maybes
    (mkA (snd (serve (a_st a) get_req)) (a_app a) (<[c := ADone get_req (fst (serve (a_st a) get_req)) lf]> (a_op a)) (a_late a) h) c.
Proof.
  intros H Hu Hph. destruct (unserved_req _ _ _ _ _ _ H Hu) as (Hw & _). pose proof (w_client _ _ _ H c) as (Hv & Hk & Hc).
  rewrite Hph in Hc. destruct Hc as (He & Hs & Hwon & _).
  apply moves_quiet; simpl; fn_upd; try done.
  - intros c' Hne. simpl. by fn_upd.
  - by rewrite Hph.
  - intros (Hp & _). congruence.
  - split; [done|]. split; [done|]. rewrite Hph. split_and!; try done. right. right. eexists _, _. split; [done|].
    apply get_good; [apply (w_entry _ _ _ H)|done..].
  - apply (w_counted _ _ _ H).
Qed.

Lemma step_serve_put oks maybes a c lf h : let r := put_req c (a_app a c) in
  winv oks maybes a -> unserved (a_op a c) r lf -> w_ph (a_app a c) = WPut -> nowrap (a_st a) ->
  moves oks maybes a oks maybes
    (mkA (snd (serve (a_st a) r)) (a_app a) (<[c := ADone r (fst (serve (a_st a) r)) lf]> (a_op a)) (a_late a) h) c.
Proof.
  intros r H Hu Hph Hnw. destruct (unserved_req _ _ _ _ _ _ H Hu) as (Hw & _). pose proof (w_client _ _ _ H c) as (Hv & Hk & _).
  pose proof (active _ _ _ c H ltac:(by rewrite Hph)) as Hact. pose proof (put_grown (a_st a) (OnePut_args c (w_ver (a_app a c))) Hnw eq_refl) as Hg.
  pose proof (put_key (a_st a) (OnePut_args c (w_ver (a_app a c))) Hnw eq_refl) as Hkey. fold (put_req c (a_app a c)) r in Hg, Hkey.
  destruct (serve (a_st a) r) as [rep m'] eqn:Es. simpl in Hg, Hkey.
  destruct Hkey as [(-> & Hcur & Hput & Hb)|(-> & Hrep)].
  - pose proof (cur_Some _ _ Hput) as Hcur'. simpl in Hcur'.
    assert (Hwin : winning c (a_app a c) (ADone (put_req c (a_app a c)) put_ok lf)) by (split; [done|eauto]).
    split; simpl; fn_upd; try done.
    + lia.
    + intros c' Hne. by fn_upd.
    + intros e. rewrite Hput. intros [= <-]. simpl. split; [eauto|lia].
    + lia.
    + split; [simpl in Hcur; lia|]. split; [right; by rewrite Hput|]. rewrite Hph. right. right. left. exists lf. split; [done|].
      simpl in Hcur. split; [by rewrite Hput|]. split; [lia|]. intros _. unfold val_of. rewrite Hput. simpl. done.
    + apply (w_counted _ _ _ H).
    + unfold accounts, wins. simpl. fn_upd. intros v [[?|[? _]]|?]; auto. done.
    + intros _. left. right. simpl. fn_upd. split; [done|]. by rewrite Hcur.
    + unfold wins. simpl. fn_upd. intros v [?|[_ <-]]; [by left; left|]. right. simpl in Hcur. split; [done|]. lia.
    + destruct (w_nodup _ _ _ H c) as [Hd _]. split; [done|]. intros _ Hin.
      pose proof (w_won _ _ _ H c _ (or_introl Hin)). simpl in Hcur. lia.
  - apply moves_quiet; simpl; fn_upd; try done.
    + intros c' Hne. simpl. by fn_upd.
    + by rewrite Hph.
    + intros (_ & lf' & ?). destruct Hrep as [[? _]|[? _]]; unfold put_ok in *; congruence.
    + split; [done|]. split; [done|]. rewrite Hph. right. right. right. exists lf.
      destruct Hrep as [(-> & ? & ?)|(_ & Hn & Hz)]; [split_and!; [done..|simpl in *; lia]|]. destruct Hk as [[? _]|[e He]]; [done|]. congruence.
    + apply (w_counted _ _ _ H).
Qed.

(** ** A return *)

Definition returned a c s' h : @asys wstate := mkA (a_st a) (<[c := s']> (a_app a)) (<[c := AIdle]> (a_op a)) (a_late a) h.

Lemma return_ok oks maybes a c lf h : winv oks maybes a -> w_ph (a_app a c) = WPut -> a_op a c = ADone (put_req c (a_app a c)) put_ok lf ->
  moves oks maybes a (<[c := w_ver (a_app a c) :: oks c]> oks) maybes (returned a c (set_ph (a_app a c) (WGet OK)) h) c.
Proof.
  intros H Hph Hop. pose proof (active _ _ _ c H ltac:(by rewrite Hph)) as Hact. pose proof (w_client _ _ _ H c) as (Hv & Hk & Hc).
  assert (Hwin : winning c (a_app a c) (a_op a c)) by (split; [done|eauto]).
  rewrite Hph, Hop in Hc. destruct Hc as [?|[?|[(lf' & _ & Hwon)|(? & ? & ?)]]]; [done..| |by simplify_eq].
  pose proof (w_counted _ _ _ H c) as Hn. unfold counted in Hn. rewrite Hph in Hn. destruct (w_nodup _ _ _ H c) as [Hd Hni].
  split; simpl; fn_upd; try done; try lia.
  - intros c' Hne. by fn_upd.
  - apply (w_entry _ _ _ H).
  - by left.
  - split; [done|]. split; [done|]. simpl. split_and!; [by left|apply Hwon|done|by left].
  - unfold counted. fn_upd. simpl in *. lia.
  - unfold accounts, wins. simpl. fn_upd. intros v [[?|[_ <-]]|?]; [left; left; by right|left; left; by left|by right].
  - unfold wins. simpl. fn_upd. intros v [[->|?]%elem_of_cons|[(Hp & _) _]]; [left; by right|left; by left|done].
  - split; [apply NoDup_cons; auto|]. intros (Hp & _). done.
Qed.

Lemma return_maybe oks maybes a c rep lf h : winv oks maybes a -> w_ph (a_app a c) = WPut -> a_op a c = ADone (put_req c (a_app a c)) rep lf ->
  moves oks maybes a oks (<[c := w_ver (a_app a c) :: maybes c]> maybes) (returned a c (set_ph (a_app a c) (WGet ErrMaybe)) h) c.
Proof.
  intros H Hph Hop. pose proof (active _ _ _ c H ltac:(by rewrite Hph)) as Hact. pose proof (w_client _ _ _ H c) as (Hv & Hk & Hc).
  pose proof (w_counted _ _ _ H c) as Hn. unfold counted in Hn. rewrite Hph in Hn. destruct (w_nodup _ _ _ H c) as [Hd Hni].
  assert (Hs : is_Some (a_st a !! key)).
  { rewrite Hph, Hop in Hc. destruct Hc as [?|[?|[(lf' & _ & Hwon)|(? & ? & ? & _)]]]; [done..| |done]. apply Hwon. }
  split; simpl; fn_upd; try done; try lia.
  - intros c' Hne. by fn_upd.
  - apply (w_entry _ _ _ H).
  - by left.
  - split; [done|]. split; [done|]. simpl. split_and!; [by right; right|done|done|by left].
  - unfold counted. fn_upd. simpl in *. lia.
  - unfold accounts, wins. simpl. fn_upd. intros v [[?|[_ <-]]|?]; [by left; left|right; by left|right; by right].
  - unfold wins. simpl. fn_upd. intros v [?|[(Hp & _) _]]; [left; by left|done].
  - split; [done|]. intros (Hp & _). done.
Qed.

Lemma return_version oks maybes a c h : winv oks maybes a -> w_ph (a_app a c) = WPut ->
  a_op a c = ADone (put_req c (a_app a c)) (RepPut (mkPutReply ErrVersion)) false ->
  moves oks maybes a oks maybes (returned a c (set_ph (a_app a c) (WGet ErrVersion)) h) c.
Proof.
  intros H Hph Hop. pose proof (w_client _ _ _ H c) as (Hv & Hk & Hc). pose proof (w_counted _ _ _ H c) as Hn.
  apply moves_quiet; simpl; fn_upd; try done.
  - intros c' Hne. simpl. by fn_upd.
  - by rewrite Hph.
  - rewrite Hop. intros (_ & lf & ?). by simplify_eq.
  - apply not_winning_idle.
  - split; [done|]. split; [done|]. simpl. split_and!; [by right; left| |done|by left].
    rewrite Hph, Hop in Hc. destruct Hc as [?|[?|[(lf' & ? & Hwon)|(? & ? & ? & _)]]]; by simplify_eq.
  - unfold counted in *. rewrite Hph in Hn. simpl in *. done.
Qed.

Lemma return_get oks maybes a c err g lf h : winv oks maybes a -> w_ph (a_app a c) = WGet err -> a_op a c = ADone get_req (RepGet g) lf ->
  moves oks maybes a oks maybes (returned a c (OnePut_get c (a_app a c) err g) h) c.
Proof.
  intros H Hph Hop. pose proof (w_client _ _ _ H c) as (Hv & Hk & Hc). pose proof (w_counted _ _ _ H c) as Hn.
  rewrite Hph, Hop in Hc. destruct Hc as (He & Hs & _ & [?|[?|(g' & lf' & ? & Hg)]]); [done..|]. simplify_eq.
  destruct Hg as (Hok & Hb & e & Hval & Hid). set (s' := OnePut_get c (a_app a c) err g').
  assert (Hs' : s' = if decide (err = OK) then mkWs WTop (getr_Version g') (Nok (a_app a c) + 1) (Nmaybe (a_app a c))
      else if decide (err = ErrMaybe) then mkWs WTop (getr_Version g') (Nok (a_app a c)) (Nmaybe (a_app a c) + 1)
      else mkWs WPut (getr_Version g') (Nok (a_app a c)) (Nmaybe (a_app a c))).
  { unfold s', OnePut_get, GetJson. rewrite decide_True by done. rewrite Hval, Unmarshal_Marshal. simpl. rewrite decide_False; [done|].
    intros [[-> Hu] [Hne _]]. apply Hne, Hid; [done|]. rewrite Hu. unfold u64 in *.
    destruct (decide (w_ver (a_app a c) + 1 = 2 ^ 64)) as [Heq|]; [|rewrite Z.mod_small; lia].
    rewrite Heq, Z_mod_same_full in Hu. lia. }
  clearbody s'. apply moves_quiet; simpl; fn_upd; try done.
  - intros c' Hne. simpl. by fn_upd.
  - by rewrite Hph.
  - intros (Hp & _). congruence.
  - apply not_winning_idle.
  - rewrite Hs'. repeat case_decide; (split; [simpl; lia|]); (split; [by right|]); simpl; auto.
  - unfold counted in *. rewrite Hph in Hn. rewrite Hs'. destruct He as [->|[->| ->]]; simpl in *; lia.
Qed.

(** ** Every run *)

Lemma weakens_put lf (rep rep' : reply) : weakens lf rep rep' -> rep = put_ok \/ rep = RepPut (mkPutReply ErrVersion) ->
  (rep = put_ok /\ rep' = put_ok) \/ (rep' = RepPut (mkPutReply ErrMaybe)) \/
  (lf = false /\ rep = RepPut (mkPutReply ErrVersion) /\ rep' = RepPut (mkPutReply ErrVersion)).
Proof.
  intros [[-> Hl]|[-> _]] [->| ->]; [by left| |by right; left..]. right. right. destruct lf; [|done]. by destruct (Hl eq_refl).
Qed.

Lemma step_return oks maybes a c r rep lf rep' h : winv oks maybes a -> a_op a c = ADone r rep lf -> weakens lf rep rep' ->
  exists oks' maybes', moves oks maybes a oks' maybes' (returned a c (OneClientPut_resume c (a_app a c) rep') h) c.
Proof.
  intros H Hop Hwk. pose proof (w_client _ _ _ H c) as (_ & _ & Hc). unfold OneClientPut_resume.
  destruct (w_ph (a_app a c)) as [| |err| |] eqn:Hph; [by rewrite Hop in Hc| | |by rewrite Hop in Hc|done].
  - assert (Hr : r = put_req c (a_app a c) /\ (rep = put_ok \/ rep = RepPut (mkPutReply ErrVersion))).
    { destruct Hc as [Hc|[Hc|[(lf' & Hc & _)|(lf' & Hc & _)]]]; rewrite Hc in Hop; simplify_eq; auto. }
    destruct Hr as [-> Hr]. destruct (weakens_put _ _ _ Hwk Hr) as [[-> ->]|[->|(-> & -> & ->)]]; simpl.
    + eexists _, _. by eapply return_ok.
    + eexists _, _. by eapply return_maybe.
    + eexists _, _. by eapply return_version.
  - destruct Hc as (_ & _ & _ & [Hc|[Hc|(g & lf' & Hc & _)]]); rewrite Hc in Hop; simplify_eq.
    destruct Hwk as [[-> _]|[_ [?|?]]]; [|done..]. eexists _, _. by eapply return_get.
Qed.

Lemma winv_astep oks maybes a a' : winv oks maybes a -> astep OneClientPut a a' -> exists oks' maybes', winv oks' maybes' a'.
Proof.
  intros H Hs. destruct Hs as [a c s' Ho Hl|a c r Ho Hx|a c r lf Hu Hw|a c p rep lf Ho Hne Hsp|a c r rep lf rep' Ho Hwk|a p Hp Hw].
  - exists oks, maybes. eapply winv_moves; [done|]. by apply step_local.
  - exists oks, maybes. eapply winv_moves; [done|]. by apply step_invoke.
  - exists oks, maybes. eapply winv_moves; [done|]. destruct (unserved_req _ _ _ _ _ _ H Hu) as (_ & [[Hph ->]|(err & Hph & ->)]).
    + by apply step_serve_put.
    + by eapply step_serve_get.
  - destruct Hsp. by eapply put_spent.
  - destruct (step_return _ _ _ _ _ _ _ _ (a_hist a ++ [EvRet c r rep']) H Ho Hwk) as (oks' & maybes' & Hm). exists oks', maybes'. by eapply winv_moves.
  - rewrite (w_late _ _ _ H) in Hp. by apply not_elem_of_nil in Hp.
Qed.

Lemma winv_init : winv (fun _ => []) (fun _ => []) (a0 (spawned n)).
Proof.
  assert (Hcur : cur KvSrv.MakeKVServer = 0) by (unfold cur, ver_of, KvSrv.MakeKVServer; by rewrite lookup_empty).
  split; simpl.
  - intros e. unfold KvSrv.MakeKVServer. by rewrite lookup_empty.
  - intros c. unfold client_inv, spawned. simpl. split; [rewrite Hcur; lia|]. split; [by left|]. by destruct (c <? n)%nat.
  - intros c. unfold counted, spawned. simpl. by destruct (c <? n)%nat.
  - intros v. rewrite Hcur. lia.
  - done.
  - intros c v [Hv|[Hw _]]; [by apply not_elem_of_nil in Hv|]. by apply not_winning_idle in Hw.
  - intros c c' v [Hv|[Hw _]]; [by apply not_elem_of_nil in Hv|]. by apply not_winning_idle in Hw.
  - intros c. split; [constructor|]. intros Hw. by apply not_winning_idle in Hw.
  - intros c Hc. unfold spawned. simpl. by destruct (Nat.ltb_ge c n) as [_ ->].
Qed.

Lemma winv_reach a : rtc (astep OneClientPut) (a0 (spawned n)) a -> exists oks maybes, winv oks maybes a.
Proof.
  intros Hr. assert (H : exists oks maybes, winv oks maybes (a0 (spawned n))) by (eexists _, _; apply winv_init).
  induction Hr as [|a a' a'' Hs _ IH]; [done|]. destruct H as (oks & maybes & H). eapply IH, winv_astep; done.
Qed.

(** ** Counting *)

Definition results (x : nat -> wstate) : list ClntRes := (fun c => mkClntRes (Nok (x c)) (Nmaybe (x c))) <$> seq 0 n.

Definition total (rs : list ClntRes) : ClntRes :=
  foldl (fun res r => mkClntRes (res_Nok res + res_Nok r) (res_Nmaybe res + res_Nmaybe r)) (mkClntRes 0 0) rs.

Lemma total_from rs res :
  foldl (fun res r => mkClntRes (res_Nok res + res_Nok r) (res_Nmaybe res + res_Nmaybe r)) res rs
  = mkClntRes (res_Nok res + res_Nok (total rs)) (res_Nmaybe res + res_Nmaybe (total rs)).
Proof.
  unfold total. revert res. induction rs as [|r rs IH]; intros [x y]; simpl; [f_equal; lia|].
  rewrite (IH (mkClntRes (x + res_Nok r) _)), (IH (mkClntRes (0 + res_Nok r) _)). simpl. f_equal; lia.
Qed.

(** Lists of versions, one per client, against the counters. *)
Lemma total_lengths (f g : nat -> list Z) (x : nat -> wstate) cs :
  (forall c, c ∈ cs -> Z.of_nat (length (f c)) = Nok (x c) /\ Z.of_nat (length (g c)) = Nmaybe (x c)) ->
  total ((fun c => mkClntRes (Nok (x c)) (Nmaybe (x c))) <$> cs)
  = mkClntRes (zlen (cs ≫= f)) (zlen (cs ≫= g)).
Proof.
  intros H. induction cs as [|c cs IH]; [done|]. rewrite fmap_cons, !bind_cons. unfold total at 1. simpl.
  rewrite total_from, IH by set_solver. destruct (H c ltac:(set_solver)) as [<- <-]. unfold zlen. rewrite !length_app. simpl. f_equal; lia.
Qed.

(** A client that is done has no put in progress. *)
Lemma done_owns oks maybes a c v : w_ph (a_app a c) = WDone -> accounts oks maybes a c v <-> v ∈ oks c ++ maybes c.
Proof. intros Hd. unfold accounts, wins, winning. rewrite Hd, elem_of_app. naive_solver. Qed.

Lemma NoDup_bind_disjoint (f : nat -> list Z) cs :
  NoDup cs -> (forall c, NoDup (f c)) -> (forall c c' v, v ∈ f c -> v ∈ f c' -> c = c') -> NoDup (cs ≫= f).
Proof.
  intros Hcs Hf Hd. induction Hcs as [|c cs Hc _ IH]; [constructor|]. rewrite bind_cons. apply NoDup_app. split_and!; [done| |done].
  intros v Hv (c' & Hv' & Hc')%list_elem_of_bind. by rewrite (Hd c c' v Hv Hv') in Hc.
Qed.

Lemma sub_length (l k : list Z) : NoDup l -> l ⊆ k -> zlen l <= zlen k.
Proof. intros Hn Hs. unfold zlen. pose proof (submseteq_length _ _ (NoDup_submseteq _ _ Hn Hs)). lia. Qed.

Lemma winv_total oks maybes a : winv oks maybes a -> (forall c, w_ph (a_app a c) = WDone) ->
  let t := total (results (a_app a)) in res_Nok t <= cur (a_st a) <= res_Nok t + res_Nmaybe t.
Proof.
  intros H Hd t. pose proof (winv_cur _ _ _ H) as Hpos.
  assert (Ht : t = mkClntRes (zlen (seq 0 n ≫= oks)) (zlen (seq 0 n ≫= maybes))).
  { apply total_lengths. intros c _. destruct (w_counted _ _ _ H c) as [-> ->]. rewrite Hd. simpl. lia. }
  assert (Hin : forall f : nat -> list Z, (forall c, (n <= c)%nat -> f c = []) -> forall c v, v ∈ f c -> v ∈ seq 0 n ≫= f).
  { intros f Hf c v Hv. apply list_elem_of_bind. exists c. split; [done|]. apply elem_of_seq.
    destruct (decide (n <= c)%nat) as [Hc|]; [|lia]. rewrite (Hf c Hc) in Hv. by apply not_elem_of_nil in Hv. }
  assert (Hlen : zlen (seqZ 0 (cur (a_st a))) = cur (a_st a)) by (unfold zlen; rewrite length_seqZ; lia).
  rewrite Ht. simpl. rewrite <- Hlen. split.
  - apply sub_length.
    + apply NoDup_bind_disjoint; [apply NoDup_seq|intros c; apply (w_nodup _ _ _ H)|]. intros c c' v Hv Hv'. eapply (w_once _ _ _ H); by left.
    + intros v (c & Hv & _)%list_elem_of_bind. apply elem_of_seqZ. pose proof (w_won _ _ _ H c v (or_introl Hv)). lia.
  - unfold zlen at 2 3. rewrite <- Nat2Z.inj_add, <- length_app. apply sub_length; [apply NoDup_seqZ|].
    intros v Hv%elem_of_seqZ. destruct (w_cover _ _ _ H v ltac:(lia)) as [c Ho%done_owns]; [|done].
    rewrite elem_of_app in *. destruct Ho as [Hv'|Hv']; [left|right]; eapply Hin; eauto; intros c' Hc'; by apply (w_others _ _ _ H).
Qed.

Lemma total_zero rs : Forall (fun r => r = mkClntRes 0 0) rs -> total rs = mkClntRes 0 0.
Proof. unfold total. induction 1 as [|r rs -> _ IH]; done. Qed.

(** A client that has put has seen the key. *)
Lemma winv_key oks maybes a : winv oks maybes a -> total (results (a_app a)) <> mkClntRes 0 0 -> is_Some (a_st a !! key).
Proof.
  intros H Ht. destruct (a_st a !! key) eqn:E; [done|]. destruct Ht. apply total_zero, Forall_fmap, Forall_forall. intros c _. simpl.
  pose proof (w_client _ _ _ H c) as (_ & [(_ & -> & ->)|Hs] & _); [done|]. rewrite E in Hs. by destruct Hs.
Qed.

(** ** The test passes *)

Definition finished (x : nat -> wstate) : Prop := forall c, w_ph (x c) = WDone.

(** The put test on one key.  [n] clients put to one key with [OneClientPut], each with a
    lawful clerk over a network that loses, delays and repeats requests; a put
    whose [Call] failed may be executed at any later time.  In every state
    reached in fewer than 2^64 steps no client has failed the test (no [Fatalf]
    in [OnePut], [GetJson]).  When all clients are done and one of them has put,
    the check of [CheckPutConcurrent] on the value then in the store passes: the
    version of the key is between the number of puts that returned OK and that
    number and the number of those that returned [ErrMaybe], and it is the
    number of OKs when no put returned [ErrMaybe], as when the network is
    reliable. *)
Theorem put_test_passes {K} `{LawfulClerk K} (x0 x : sys wstate K) k (reliable : bool) :
  xinit (spawned n) x0 -> nsteps (xstep OneClientPut) k x0 x -> Z.of_nat k < 2 ^ 64 ->
  let cs c := app (cl x c) in let t := total (results cs) in
  (forall c, w_ph (cs c) <> WFatal) /\
  (finished cs -> 0 < res_Nok t + res_Nmaybe t < 2 ^ 64 -> (reliable = true -> res_Nmaybe t = 0) ->
   res_Nok t <= ver_of (st x) key /\
   CheckPutConcurrent (KvSrv.Get (st x) (mkGetArgs key)) (results cs) (mkClntRes 0 0) reliable = Some t).
Proof.
  intros Hi Hs Hk cs t. destruct (steps_sim OneClientPut _ x0 x k Hi Hs Hk) as (a & Ha & HR).
  destruct (winv_reach a Ha) as (oks & maybes & HI).
  assert (Hcs : forall c, a_app a c = cs c) by (intros c; apply (r_app _ _ _ HR)).
  split.
  { intros c Hf. pose proof (w_client _ _ _ HI c) as (_ & _ & Hc). by rewrite Hcs, Hf in Hc. }
  intros Hfin Hpos Hrel.
  assert (Hres : results (a_app a) = results cs) by (apply list_fmap_ext; intros ? c _; by rewrite Hcs).
  pose proof (winv_total _ _ _ HI ltac:(intros c; rewrite Hcs; apply Hfin)) as Hb. cbv zeta in Hb. rewrite Hres in Hb. fold t in Hb.
  destruct (winv_key _ _ _ HI) as [e He]; [rewrite Hres; fold t; intros Ht; rewrite Ht in Hpos; simpl in Hpos; lia|].
  destruct (w_entry _ _ _ HI e He) as [[ev Hev] Hver]. rewrite (cur_Some _ _ He) in Hb. rewrite (r_st _ _ _ HR) in He.
  unfold ver_of. rewrite He. split; [lia|]. unfold CheckPutConcurrent, GetJson, KvSrv.Get. simpl. rewrite He. simpl.
  rewrite Hev, Unmarshal_Marshal. simpl. fold (total (results cs)). fold t. unfold u64. destruct reliable.
  - rewrite (Hrel eq_refl) in *. rewrite Z.mod_small by lia. rewrite decide_False by lia. done.
  - rewrite Z.mod_small by lia. rewrite decide_False by lia. done.
Qed.

End workload.

(** ** A run

    Two clients; the reply to the first put is lost, so it returns [ErrMaybe]; the
    put of the other client returns [ErrVersion] and, sent again with the version
    it reads, OK. *)
Module WorkloadDemo.

(** Entries as strings of digits. *)
Fixpoint bits (p : positive) : string :=
  match p with
  | xH => EmptyString
  | xO p => String.String Ascii.zero (bits p)
  | xI p => String.String Ascii.one (bits p)
  end.

Fixpoint of_bits (s : string) : positive :=
  match s with
  | EmptyString => xH
  | String.String ch s => if Ascii.eqb ch Ascii.one then xI (of_bits s) else xO (of_bits s)
  end.

Lemma of_bits_bits p : of_bits (bits p) = p.
Proof. induction p as [p IH|p IH|]; simpl; rewrite ?IH; reflexivity. Qed.

Definition Marshal (e : EntryV) : string := bits (encode (Id e, V e)).
Definition Unmarshal (s : string) : option EntryV := '(i, v) ← decode (of_bits s); Some (mkEntryV i v).

Lemma Unmarshal_Marshal e : Unmarshal (Marshal e) = Some e.
Proof. unfold Unmarshal, Marshal. rewrite of_bits_bits, decode_encode. by destruct e. Qed.

Definition P : program wstate := OneClientPut Marshal Unmarshal "k".

(** The own steps of a client: it starts a put, or it stops. *)
Definition own (_ : nat) (s : wstate) (i : nat) : option wstate :=
  match w_ph s, i with WTop, 0%nat => Some (set_ph s WPut) | WTop, 1%nat => Some (set_ph s WDone) | _, _ => None end.

Lemma own_local c s i s' : own c s i = Some s' -> local P c s s'.
Proof. unfold own. destruct (w_ph s) eqn:E; [|done..]. destruct i as [|[|i]]; [..|done]; intros [= <-]; split; auto. Qed.

Definition x0 : sys wstate unit := mkSys KvSrv.MakeKVServer (fun c => mkCl (spawned 2 c) tt None) ∅ ∅ 0 [].

Definition acts : list act :=
  [Own 0 0; Invoke 0; Exec 0; TimeOut 0; Exec 1; Receive 0; Invoke 0; Exec 2; Receive 0; Own 0 1;
   Own 1 0; Invoke 1; Exec 3; Receive 1; Invoke 1; Exec 4; Receive 1;
   Invoke 1; Exec 5; Receive 1; Invoke 1; Exec 6; Receive 1; Own 1 1]%nat.

Definition x24 : sys wstate unit := default x0 (schedule P own x0 acts).

Lemma put_test_passes_witness :
  1 <= ver_of (st x24) "k" /\
  CheckPutConcurrent Unmarshal (KvSrv.Get (st x24) (mkGetArgs "k")) (results 2 (fun c => app (cl x24 c))) (mkClntRes 0 0) false
    = Some (mkClntRes 1 1).
Proof.
  assert (Hs : nsteps (xstep P) 24 x0 x24) by (apply (schedule_steps P own own_local acts); vm_compute; reflexivity).
  refine (proj2 (put_test_passes Marshal Unmarshal "k" Unmarshal_Marshal 2 x0 x24 24 false _ Hs _) _ _ _).
  - split_and!; try reflexivity. intros c. split; reflexivity.
  - lia.
  - intros [|[|c]]; vm_compute; reflexivity.
  - vm_compute. split; reflexivity.
  - discriminate.
Defined.

End WorkloadDemo.
