(* ===== verification/RandomKeys.v ===== *)
(** * The put workload on several keys

    [OneClientPut] of [kvtest1/kvtest.go] in full: a client keeps a version for
    each key and puts to the first one, or, with [randomkeys], to one drawn at
    random.

    Seen at one key, the clients do what the clients of [Workload] do there, and
    stand still while they are busy elsewhere: the system on several keys is
    simulated at each of them, and the theorems of [Workload] hold for each. *)

From S2P Require Import Prelude Kv KvClerk Workload.

(** [k_key] is [k], [verm] the versions of the keys; the rest is [OnePut]'s state
    and the result. *)
Record kstate := mkKs { k_key : string; k_ws : wstate; verm : gmap string Tversion }.

Definition sum_over {A} (f : A -> Z) (l : list A) : Z := foldr (fun x acc => f x + acc) 0 l.

Lemma sum_over_le {A} (f g : A -> Z) l : (forall x, x ∈ l -> f x <= g x) -> sum_over f l <= sum_over g l.
Proof. induction l as [|x l IH]; intros H; simpl; [lia|]. specialize (IH ltac:(set_solver)). specialize (H x ltac:(by left)). lia. Qed.

Lemma sum_over_add {A} (f g : A -> Z) l : sum_over (fun x => f x + g x) l = sum_over f l + sum_over g l.
Proof. induction l as [|x l IH]; simpl; [done|]. rewrite IH. lia. Qed.

Lemma sum_over_zero {A} (l : list A) : sum_over (fun _ => 0) l = 0.
Proof. by induction l. Qed.

Lemma sum_over_swap {A B} (f : A -> B -> Z) l k :
  sum_over (fun x => sum_over (fun y => f x y) k) l = sum_over (fun y => sum_over (fun x => f x y) l) k.
Proof. induction l as [|x l IH]; simpl; [by rewrite sum_over_zero|]. by rewrite IH, <- sum_over_add. Qed.

Lemma sum_over_member {A} (f : A -> Z) l x : (forall y, 0 <= f y) -> x ∈ l -> f x <= sum_over f l.
Proof.
  intros Hf. induction l as [|y l IH]; [by intros ?%elem_of_nil|]. simpl.
  assert (0 <= sum_over f l) by (clear -Hf; induction l as [|z l IH]; simpl; [|specialize (Hf z)]; lia).
  intros [->|Hx]%elem_of_cons; [lia|]. specialize (IH Hx). specialize (Hf y). lia.
Qed.

Lemma sum_over_nonzero {A} (f : A -> Z) l : sum_over f l <> 0 -> exists x, x ∈ l /\ f x <> 0.
Proof.
  induction l as [|x l IH]; simpl; [done|]. intros H. destruct (decide (f x = 0)) as [Hz|]; [|exists x; split; [by left|done]].
  destruct IH as (y & Hy & ?); [lia|]. exists y. split; [by right|done].
Qed.

Lemma total_sum (x : nat -> wstate) cs :
  total ((fun c => mkClntRes (Nok (x c)) (Nmaybe (x c))) <$> cs) = mkClntRes (sum_over (fun c => Nok (x c)) cs) (sum_over (fun c => Nmaybe (x c)) cs).
Proof. induction cs as [|c cs IH]; [done|]. rewrite fmap_cons. unfold total at 1. simpl. rewrite total_from, IH. done. Qed.

Section keys.
Context (Marshal : EntryV -> string) (Unmarshal : string -> option EntryV).
Context (ka : list string) (randomkeys : bool).

Implicit Types (s : kstate) (c : nat).

(** [verm[k]], zero for a key that is not there. *)
Definition ver_at s (k : string) : Tversion := default 0 (verm s !! k).

Definition keys_next (c : nat) (s : kstate) : option request := OneClientPut_next Marshal (k_key s) c (k_ws s).

(** When [OnePut] has returned, [verm[k]] is set. *)
Definition keys_resume (c : nat) (s : kstate) (rep : reply) : kstate :=
  let ws := OneClientPut_resume Unmarshal c (k_ws s) rep in
  mkKs (k_key s) ws (if decide (w_ph ws = WTop) then <[k_key s := w_ver ws]> (verm s) else verm s).

(** The key of the next put. *)
Definition drawn (k : string) : Prop := if randomkeys then k ∈ ka else head ka = Some k.

(** The select: the test is over, or another put. *)
Definition keys_local (_ : nat) (s s' : kstate) : Prop :=
  w_ph (k_ws s) = WTop /\
  (s' = mkKs (k_key s) (set_ph (k_ws s) WDone) (verm s) \/
   exists k, drawn k /\ s' = mkKs k (mkWs WPut (ver_at s k) (Nok (k_ws s)) (Nmaybe (k_ws s))) (verm s)).

Definition OneClientPut_keys : program kstate := {| next := keys_next; resume := keys_resume; local := keys_local |}.

Definition keys_spawned (n : nat) (c : nat) : kstate := mkKs "" (spawned n c) (list_to_map ((fun k => (k, 0)) <$> ka)).

(** ** One key of a store *)

Definition at_key (k : string) (m : KvMap) : KvMap := match m !! k with Some e => {[k := e]} | None => ∅ end.

Lemma at_key_eq k m : at_key k m !! k = m !! k.
Proof. unfold at_key. destruct (m !! k); [apply lookup_singleton_eq|apply lookup_empty]. Qed.

Lemma at_key_ext k m m' : m !! k = m' !! k -> at_key k m = at_key k m'.
Proof. unfold at_key. by intros ->. Qed.

Lemma at_key_nowrap k m : nowrap m -> nowrap (at_key k m).
Proof.
  intros Hw k' e He. unfold at_key in He. destruct (m !! k) eqn:E; [|by rewrite lookup_empty in He].
  apply lookup_singleton_Some in He as [<- <-]. by eapply Hw.
Qed.

Lemma at_key_spent k m p : put_Key p = k -> spent (at_key k m) p -> spent m p.
Proof. intros Hk (e & He & Hv). exists e. split; [|done]. by rewrite Hk, at_key_eq, <- Hk in He. Qed.

(** Requests to another key leave this one alone; a request to it needs no other. *)
Lemma serve_away k m r : req_key r <> k -> at_key k (snd (serve m r)) = at_key k m.
Proof. intros Hk. apply at_key_ext, serve_other. congruence. Qed.

Lemma serve_at k m r : req_key r = k -> fst (serve (at_key k m) r) = fst (serve m r) /\ snd (serve (at_key k m) r) = at_key k (snd (serve m r)).
Proof.
  intros Hk. destruct r as [g|p]; simpl in *.
  - unfold KvSrv.Get. by rewrite Hk, at_key_eq.
  - unfold KvSrv.Put. rewrite Hk, at_key_eq. destruct (m !! k) as [e|] eqn:E; case_decide; simpl; (split; [done|]); try done; unfold at_key;
      rewrite ?lookup_insert_eq, ?E; try done; by rewrite insert_singleton_eq.
Qed.

(** ** What a client looks like at a key *)

Definition in_put (ph : wphase) : bool := match ph with WPut | WGet _ | WFatal => true | _ => false end.
Definition busy (k : string) s : bool := bool_decide (k_key s = k) && in_put (w_ph (k_ws s)).

Implicit Types (a : @asys kstate) (b : @asys wstate).

Definition looks (k : string) s (o : aop) (w : wstate) (o' : aop) : Prop :=
  if busy k s then w_ph w = w_ph (k_ws s) /\ w_ver w = w_ver (k_ws s) /\ o' = o
  else w_ph w = (if decide (w_ph (k_ws s) = WDone) then WDone else WTop) /\ w_ver w = ver_at s k /\ o' = AIdle.

Record sees (k : string) a b : Prop := {
  se_st : a_st b = at_key k (a_st a);
  se_cl c : looks k (a_app a c) (a_op a c) (a_app b c) (a_op b c)
}.

(** An operation in progress is one of the put that the client is at. *)
Definition op_here s (o : aop) : Prop :=
  match o with AIdle => True | APend r | ADone r _ _ => in_put (w_ph (k_ws s)) = true /\ req_key r = k_key s end.

Lemma sum_over_ext (f g : string -> Z) (l : list string) : (forall k, k ∈ l -> f k = g k) -> sum_over f l = sum_over g l.
Proof. induction l as [|k l IH]; intros H; simpl; [done|]. rewrite (H k), IH; [done|set_solver|by left]. Qed.

Lemma sum_over_one (f g : string -> Z) k0 d (l : list string) : NoDup l -> k0 ∈ l -> g k0 = f k0 + d -> (forall k, k <> k0 -> g k = f k) -> sum_over g l = sum_over f l + d.
Proof.
  intros Hnd Hin H0 Hk. induction Hnd as [|k l Hni _ IH]; [by apply elem_of_nil in Hin|]. simpl.
  apply elem_of_cons in Hin as [->|Hin].
  - rewrite (sum_over_ext g f l); [lia|]. intros k' Hk'. apply Hk. by intros ->.
  - rewrite IH, (Hk k) by (done || by intros ->). lia.
Qed.

Context (n : nat).
Abbreviation single k := (OneClientPut Marshal Unmarshal k).

Record ginv (F : string -> @asys wstate) a : Prop := {
  gi_run k : k ∈ ka -> rtc (astep (single k)) (a0 (spawned n)) (F k);
  gi_sees k : k ∈ ka -> sees k a (F k);
  gi_late : a_late a = [];
  gi_op c : op_here (a_app a c) (a_op a c);
  gi_key c : in_put (w_ph (k_ws (a_app a c))) = true -> k_key (a_app a c) ∈ ka;
  gi_ok c : Nok (k_ws (a_app a c)) = sum_over (fun k => Nok (a_app (F k) c)) ka;
  gi_may c : Nmaybe (k_ws (a_app a c)) = sum_over (fun k => Nmaybe (a_app (F k) c)) ka
}.

(** ** Every step is one at a key *)

Context (Hka : NoDup ka).

(** A step of client [c] at [k0]. *)
Lemma ginv_move F a a' k0 b' c d e :
  ginv F a -> k0 ∈ ka -> astep (single k0) (F k0) b' -> a_late a' = [] ->
  (forall c', c' <> c -> a_app a' c' = a_app a c' /\ a_op a' c' = a_op a c' /\ a_app b' c' = a_app (F k0) c' /\ a_op b' c' = a_op (F k0) c') ->
  a_st b' = at_key k0 (a_st a') -> (forall k, k <> k0 -> at_key k (a_st a') = at_key k (a_st a)) ->
  looks k0 (a_app a' c) (a_op a' c) (a_app b' c) (a_op b' c) ->
  (forall k w o, k <> k0 -> looks k (a_app a c) (a_op a c) w o -> looks k (a_app a' c) (a_op a' c) w o) ->
  op_here (a_app a' c) (a_op a' c) -> k_key (a_app a' c) ∈ ka ->
  Nok (k_ws (a_app a' c)) = Nok (k_ws (a_app a c)) + d /\ Nok (a_app b' c) = Nok (a_app (F k0) c) + d ->
  Nmaybe (k_ws (a_app a' c)) = Nmaybe (k_ws (a_app a c)) + e /\ Nmaybe (a_app b' c) = Nmaybe (a_app (F k0) c) + e ->
  ginv (<[k0 := b']> F) a'.
Proof.
  intros G Hk Hb Hl Ho Hst Hst' Hlk Hlk' Hop Hkey [Hd1 Hd2] [He1 He2]. split.
  - intros k Hin. destruct (decide (k = k0)) as [->|Hne]; fn_upd; [|by apply (gi_run _ _ G)]. eapply rtc_r; [by apply (gi_run _ _ G)|done].
  - intros k Hin. pose proof (gi_sees _ _ G k Hin) as [S1 S2]. destruct (decide (k = k0)) as [->|Hne]; fn_upd; (split; [|intros c'; destruct (decide (c' = c)) as [->|Hc]]).
    + done.
    + done.
    + destruct (Ho c' Hc) as (-> & -> & -> & ->). apply S2.
    + by rewrite Hst'.
    + by apply Hlk'.
    + destruct (Ho c' Hc) as (-> & -> & _). apply S2.
  - done.
  - intros c'. destruct (decide (c' = c)) as [->|Hc]; [done|]. destruct (Ho c' Hc) as (-> & -> & _). apply (gi_op _ _ G).
  - intros c'. destruct (decide (c' = c)) as [->|Hc]; [done|]. destruct (Ho c' Hc) as (-> & _). apply (gi_key _ _ G).
  - intros c'. destruct (decide (c' = c)) as [->|Hc].
    + rewrite Hd1, (gi_ok _ _ G). symmetry. apply (sum_over_one _ _ k0); [done..| |]; [by fn_upd|]. intros k Hne. by fn_upd.
    + destruct (Ho c' Hc) as (-> & _ & E & _). rewrite (gi_ok _ _ G). apply sum_over_ext. intros k _.
      destruct (decide (k = k0)) as [->|Hne]; fn_upd; [by rewrite E|done].
  - intros c'. destruct (decide (c' = c)) as [->|Hc].
    + rewrite He1, (gi_may _ _ G). symmetry. apply (sum_over_one _ _ k0); [done..| |]; [by fn_upd|]. intros k Hne. by fn_upd.
    + destruct (Ho c' Hc) as (-> & _ & E & _). rewrite (gi_may _ _ G). apply sum_over_ext. intros k _.
      destruct (decide (k = k0)) as [->|Hne]; fn_upd; [by rewrite E|done].
Qed.

Lemma looks_busy k s o w o' : looks k s o w o' -> k_key s = k -> in_put (w_ph (k_ws s)) = true ->
  w_ph w = w_ph (k_ws s) /\ w_ver w = w_ver (k_ws s) /\ o' = o.
Proof. unfold looks, busy. intros H Hk Hp. by rewrite bool_decide_true, Hp in H. Qed.

(** Away from its key a client does not change during a put. *)
Lemma looks_away k k0 s s' o o' w o1 : k <> k0 -> k_key s = k0 -> k_key s' = k0 -> w_ph (k_ws s) <> WDone -> w_ph (k_ws s') <> WDone ->
  ver_at s' k = ver_at s k -> looks k s o w o1 -> looks k s' o' w o1.
Proof.
  unfold looks, busy. intros Hne Hk Hk' Hd Hd' Hv. rewrite Hk, Hk', bool_decide_false by done. simpl. rewrite Hv, !decide_False by done. done.
Qed.

Lemma next_here s c r : keys_next c s = Some r -> in_put (w_ph (k_ws s)) = true /\ req_key r = k_key s.
Proof. unfold keys_next, OneClientPut_next. destruct (w_ph (k_ws s)); intros; simplify_eq/=; done. Qed.

Lemma next_same k c w1 w2 : w_ph w1 = w_ph w2 -> w_ver w1 = w_ver w2 -> OneClientPut_next Marshal k c w1 = OneClientPut_next Marshal k c w2.
Proof. unfold OneClientPut_next. by intros -> ->. Qed.

(** The counters do not influence [OnePut]. *)
Lemma resume_same c rep w1 w2 : w_ph w1 = w_ph w2 -> w_ver w1 = w_ver w2 ->
  exists d e, let w1' := OneClientPut_resume Unmarshal c w1 rep in let w2' := OneClientPut_resume Unmarshal c w2 rep in
    w_ph w1' = w_ph w2' /\ w_ver w1' = w_ver w2' /\ (Nok w1' = Nok w1 + d /\ Nok w2' = Nok w2 + d) /\
    (Nmaybe w1' = Nmaybe w1 + e /\ Nmaybe w2' = Nmaybe w2 + e).
Proof.
  destruct w1 as [ph v n1 m1], w2 as [ph2 v2 n2 m2]. simpl. intros <- <-.
  assert (Hz : forall x, x = x + 0) by lia. unfold OneClientPut_resume, OnePut_put, OnePut_get, set_ph. simpl.
  destruct ph; try (exists 0, 0; split_and!; done); destruct rep; try (exists 0, 0; split_and!; done).
  - case_decide; exists 0, 0; split_and!; done.
  - destruct (GetJson Unmarshal _) as [[en ver0]|]; [|exists 0, 0; split_and!; done].
    case_decide; [exists 0, 0; split_and!; done|]. case_decide; [exists 1, 0; split_and!; done|].
    case_decide; [exists 0, 1; split_and!; done|]. exists 0, 0; split_and!; done.
Qed.

Lemma resume_not_done c rep w : in_put (w_ph w) = true -> w_ph (OneClientPut_resume Unmarshal c w rep) <> WDone.
Proof.
  unfold OneClientPut_resume, OnePut_put, OnePut_get. destruct (w_ph w) eqn:E; try done; intros _; destruct rep; try (by rewrite E);
    repeat case_match; done.
Qed.

Lemma drawn_in k : drawn k -> k ∈ ka.
Proof. unfold drawn. destruct randomkeys; [done|]. destruct ka; intros; simplify_eq/=. by left. Qed.

(** A client stops at all keys at once. *)
Lemma ginv_stop F a c : ginv F a -> a_op a c = AIdle -> w_ph (k_ws (a_app a c)) = WTop ->
  ginv (fun k => mkA (a_st (F k)) (<[c := set_ph (a_app (F k) c) WDone]> (a_app (F k))) (a_op (F k)) (a_late (F k)) (a_hist (F k)))
    (mkA (a_st a) (<[c := mkKs (k_key (a_app a c)) (set_ph (k_ws (a_app a c)) WDone) (verm (a_app a c))]> (a_app a)) (a_op a) (a_late a) (a_hist a)).
Proof.
  intros G Ho Hph. assert (Hf : forall k, busy k (a_app a c) = false) by (intros k; unfold busy; rewrite Hph; simpl; by rewrite andb_false_r).
  assert (Hf' : forall k, busy k (mkKs (k_key (a_app a c)) (set_ph (k_ws (a_app a c)) WDone) (verm (a_app a c))) = false)
    by (intros k; unfold busy; simpl; by rewrite andb_false_r).
  split; simpl.
  - intros k Hk. eapply rtc_r; [by apply (gi_run _ _ G)|]. pose proof (se_cl _ _ _ (gi_sees _ _ G k Hk) c) as H. unfold looks in H. rewrite Hf, Hph in H.
    destruct H as (Hp & _ & Hi). by apply A_local; [|split; [|right]].
  - intros k Hk. destruct (gi_sees _ _ G k Hk) as [S1 S2]. split; [done|]. intros c'. simpl. destruct (decide (c' = c)) as [->|Hne]; fn_upd; [|apply S2].
    specialize (S2 c). unfold looks in *. rewrite Hf in S2. rewrite Hf'. simpl. destruct S2 as (_ & ? & ?). done.
  - apply (gi_late _ _ G).
  - intros c'. destruct (decide (c' = c)) as [->|Hne]; fn_upd; [by rewrite Ho|apply (gi_op _ _ G)].
  - intros c'. destruct (decide (c' = c)) as [->|Hne]; fn_upd; [done|apply (gi_key _ _ G)].
  - intros c'. destruct (decide (c' = c)) as [->|Hne]; fn_upd; simpl; rewrite (gi_ok _ _ G); apply sum_over_ext; intros k _; by fn_upd.
  - intros c'. destruct (decide (c' = c)) as [->|Hne]; fn_upd; simpl; rewrite (gi_may _ _ G); apply sum_over_ext; intros k _; by fn_upd.
Qed.

Context (Unmarshal_Marshal : forall e, Unmarshal (Marshal e) = Some e).

Lemma ginv_local F a c s' : ginv F a -> a_op a c = AIdle -> keys_local c (a_app a c) s' ->
  exists F', ginv F' (mkA (a_st a) (<[c := s']> (a_app a)) (a_op a) (a_late a) (a_hist a)).
Proof.
  intros G Ho (Hph & [->|(k0 & Hk%drawn_in & ->)]); [eexists; by apply ginv_stop|].
  assert (Hf : forall k, busy k (a_app a c) = false) by (intros k; unfold busy; rewrite Hph; simpl; by rewrite andb_false_r).
  pose proof (gi_sees _ _ G k0 Hk) as [S1 S2]. pose proof (S2 c) as S2c. unfold looks in S2c. rewrite Hf, Hph in S2c. destruct S2c as (Hp & Hv & Hi).
  eexists. eapply (ginv_move F a _ k0 (mkA (a_st (F k0)) (<[c := set_ph (a_app (F k0) c) WPut]> (a_app (F k0))) (a_op (F k0)) (a_late (F k0)) (a_hist (F k0))) c 0 0);
    simpl; fn_upd; simpl; try done; try lia.
  - apply A_local; [done|]. split; [done|by left].
  - apply (gi_late _ _ G).
  - intros c' Hne. by fn_upd.
  - unfold looks, busy. simpl. rewrite bool_decide_true by done. simpl. by rewrite Ho, Hi.
  - intros k w o Hne. unfold looks. rewrite Hf, Hph. unfold busy. simpl. by rewrite bool_decide_false.
  - by rewrite Ho.
Qed.

Lemma ginv_invoke F a c r h : ginv F a -> a_op a c = AIdle -> keys_next c (a_app a c) = Some r ->
  exists F', ginv F' (mkA (a_st a) (a_app a) (<[c := APend r]> (a_op a)) (a_late a) h).
Proof.
  intros G Ho Hr. destruct (next_here _ _ _ Hr) as [Hin Hrk]. pose proof (gi_key _ _ G c Hin) as Hk. set (k0 := k_key (a_app a c)) in *.
  pose proof (gi_sees _ _ G k0 Hk) as [S1 S2]. destruct (looks_busy _ _ _ _ _ (S2 c) eq_refl Hin) as (Hp & Hv & Hi).
  eexists. eapply (ginv_move F a _ k0 (mkA (a_st (F k0)) (a_app (F k0)) (<[c := APend r]> (a_op (F k0))) (a_late (F k0)) _) c 0 0);
    simpl; fn_upd; simpl; try done; try lia.
  - apply A_invoke; [congruence|]. simpl. rewrite (next_same k0 c _ (k_ws (a_app a c))) by done. exact Hr.
  - apply (gi_late _ _ G).
  - intros c' Hne. by fn_upd.
  - unfold looks, busy. by rewrite bool_decide_true, Hin.
  - intros k w o Hne. unfold looks, busy. by rewrite bool_decide_false by (fold k0; done).
Qed.

Lemma ginv_serve F a c r lf : ginv F a -> unserved (a_op a c) r lf -> nowrap (a_st a) ->
  exists F', ginv F' (mkA (snd (serve (a_st a) r)) (a_app a) (<[c := ADone r (fst (serve (a_st a) r)) lf]> (a_op a)) (a_late a) (a_hist a)).
Proof.
  intros G Hu Hw. assert (Hh : in_put (w_ph (k_ws (a_app a c))) = true /\ req_key r = k_key (a_app a c)).
  { pose proof (gi_op _ _ G c) as Hop. by destruct Hu as [[Hu _]|(rep & Hu & _)]; rewrite Hu in Hop. }
  destruct Hh as [Hin Hrk]. pose proof (gi_key _ _ G c Hin) as Hk. set (k0 := k_key (a_app a c)) in *.
  pose proof (gi_sees _ _ G k0 Hk) as [S1 S2]. destruct (looks_busy _ _ _ _ _ (S2 c) eq_refl Hin) as (Hp & Hv & Hi).
  destruct (serve_at k0 (a_st a) r Hrk) as [E1 E2]. rewrite <- S1 in E1, E2.
  eexists. eapply (ginv_move F a _ k0 (mkA (snd (serve (a_st (F k0)) r)) (a_app (F k0)) (<[c := ADone r (fst (serve (a_st (F k0)) r)) lf]> (a_op (F k0))) (a_late (F k0)) _) c 0 0);
    simpl; fn_upd; simpl; try done; try lia.
  - apply A_serve; [by rewrite Hi|]. rewrite S1. by apply at_key_nowrap.
  - apply (gi_late _ _ G).
  - intros c' Hne. by fn_upd.
  - intros k Hne. apply serve_away. congruence.
  - unfold looks, busy. rewrite bool_decide_true, Hin by done. simpl. by rewrite E1.
  - intros k w o Hne. unfold looks, busy. by rewrite bool_decide_false by (fold k0; done).
Qed.

Lemma ginv_return F a c r rep lf rep' h : ginv F a -> a_op a c = ADone r rep lf -> weakens lf rep rep' ->
  exists F', ginv F' (mkA (a_st a) (<[c := keys_resume c (a_app a c) rep']> (a_app a)) (<[c := AIdle]> (a_op a)) (a_late a) h).
Proof.
  intros G Hop Hwk. pose proof (gi_op _ _ G c) as Hh. rewrite Hop in Hh. destruct Hh as [Hin Hrk].
  pose proof (gi_key _ _ G c Hin) as Hk. set (k0 := k_key (a_app a c)) in *.
  pose proof (gi_sees _ _ G k0 Hk) as [S1 S2]. destruct (looks_busy _ _ _ _ _ (S2 c) eq_refl Hin) as (Hp & Hv & Hi).
  destruct (resume_same c rep' (k_ws (a_app a c)) (a_app (F k0) c)) as (d & e & R1 & R2 & R3 & R4); [done..|].
  pose proof (resume_not_done c rep' _ Hin) as Hnd.
  eexists. eapply (ginv_move F a _ k0 (mkA (a_st (F k0)) (<[c := OneClientPut_resume Unmarshal c (a_app (F k0) c) rep']> (a_app (F k0)))
    (<[c := AIdle]> (a_op (F k0))) (a_late (F k0)) _) c d e); simpl; fn_upd; simpl; try done.
  - apply (A_return (single k0) (F k0) c r rep lf rep'); [by rewrite Hi|done].
  - apply (gi_late _ _ G).
  - intros c' Hne. by fn_upd.
  - unfold looks, busy, ver_at. simpl. rewrite bool_decide_true by done. simpl. rewrite <- R1, <- R2.
    destruct (w_ph (OneClientPut_resume _ _ (k_ws (a_app a c)) _)) eqn:E; simpl; try done.
    fold k0. by rewrite lookup_insert_eq.
  - intros k w o Hne Hl. eapply looks_away; [..|exact Hl]; try done.
    + intros E. by rewrite E in Hin.
    + unfold ver_at. simpl. case_decide; [|done]. fold k0. by rewrite lookup_insert_ne.
Qed.

Lemma ginv_step F a a' : ginv F a -> astep OneClientPut_keys a a' -> exists F', ginv F' a'.
Proof.
  intros G Hs. destruct Hs as [a c s' Ho Hl|a c r Ho Hx|a c r lf Hu Hw|a c p rep lf Ho Hne Hsp|a c r rep lf rep' Ho Hwk|a p Hp Hw].
  - by apply (ginv_local F a c).
  - by apply (ginv_invoke F a c).
  - by apply (ginv_serve F a c).
  - exfalso. pose proof (gi_op _ _ G c) as Hh. rewrite Ho in Hh. destruct Hh as [Hin Hrk]. pose proof (gi_key _ _ G c Hin) as Hk.
    pose proof (gi_sees _ _ G _ Hk) as [S1 S2]. destruct (looks_busy _ _ _ _ _ (S2 c) eq_refl Hin) as (_ & _ & Hi).
    destruct (winv_reach Marshal Unmarshal _ Unmarshal_Marshal n _ (gi_run _ _ G _ Hk)) as (oks & maybes & HI).
    apply Hsp, (at_key_spent (k_key (a_app a c))); [done|]. rewrite <- S1. eapply put_spent; [exact HI|rewrite Hi; exact Ho|done].
  - by eapply ginv_return.
  - rewrite (gi_late _ _ G) in Hp. by apply elem_of_nil in Hp.
Qed.

Lemma ginv_init : ginv (fun _ => a0 (spawned n)) (a0 (keys_spawned n)).
Proof.
  assert (Hph : forall c, w_ph (spawned n c) = WTop \/ w_ph (spawned n c) = WDone) by (intros c; unfold spawned; destruct (c <? n)%nat; auto).
  split; simpl; try done.
  - intros k Hk. split; simpl; [unfold at_key, KvSrv.MakeKVServer; by rewrite lookup_empty|]. intros c. unfold looks, busy.
    assert (Hz : ver_at (keys_spawned n c) k = 0).
    { unfold ver_at, keys_spawned. simpl. destruct (_ !! k) eqn:E; [|done]. apply elem_of_list_to_map_2, list_elem_of_fmap in E as (? & ? & _). by simplify_eq. }
    rewrite Hz. unfold keys_spawned. simpl k_ws. simpl k_key. destruct (Hph c) as [E|E]; rewrite E; simpl; rewrite andb_false_r; unfold spawned in *; by rewrite <- E.
  - intros c Hin. change (in_put (w_ph (spawned n c)) = true) in Hin. destruct (Hph c) as [E|E]; by rewrite E in Hin.
  - intros c. by rewrite sum_over_zero.
  - intros c. by rewrite sum_over_zero.
Qed.

Lemma ginv_reach a : rtc (astep OneClientPut_keys) (a0 (keys_spawned n)) a -> exists F, ginv F a.
Proof.
  intros Hr. assert (H : exists F, ginv F (a0 (keys_spawned n))) by (eexists; apply ginv_init).
  induction Hr as [|a a' a'' Hs _ IH]; [done|]. destruct H as (F & G). by eapply IH, ginv_step.
Qed.

(** ** The test *)

Definition oks_at F (k : string) : Z := sum_over (fun c => Nok (a_app (F k : @asys wstate) c)) (seq 0 n).
Definition maybes_at F (k : string) : Z := sum_over (fun c => Nmaybe (a_app (F k : @asys wstate) c)) (seq 0 n).

Lemma ginv_winv F a k : ginv F a -> k ∈ ka -> exists oks maybes, winv Marshal k n oks maybes (F k).
Proof. intros G Hin. apply (winv_reach Marshal Unmarshal k Unmarshal_Marshal n), (gi_run _ _ G k Hin). Qed.

Lemma ginv_st F a k : ginv F a -> k ∈ ka -> a_st (F k) !! k = a_st a !! k.
Proof. intros G Hin. by rewrite (se_st _ _ _ (gi_sees _ _ G k Hin)), at_key_eq. Qed.

Lemma ginv_no_fatal F a c : ginv F a -> w_ph (k_ws (a_app a c)) <> WFatal.
Proof.
  intros G Hf. assert (Hin : in_put (w_ph (k_ws (a_app a c))) = true) by (by rewrite Hf).
  pose proof (gi_key _ _ G c Hin) as Hk. destruct (ginv_winv _ _ _ G Hk) as (oks & maybes & HW).
  destruct (looks_busy _ _ _ _ _ (se_cl _ _ _ (gi_sees _ _ G _ Hk) c) eq_refl Hin) as (Hp & _).
  pose proof (w_client _ _ _ _ _ _ HW c) as (_ & _ & Hc). by rewrite Hp, Hf in Hc.
Qed.

(** The counters at a key, when all clients are done. *)
Lemma ginv_key F a k : ginv F a -> (forall c, w_ph (k_ws (a_app a c)) = WDone) -> k ∈ ka ->
  oks_at F k <= ver_of (a_st a) k <= oks_at F k + maybes_at F k /\
  (oks_at F k + maybes_at F k <> 0 -> is_Some (a_st a !! k)) /\
  forall en, a_st a !! k = Some en -> exists ev, value en = Marshal ev.
Proof.
  intros G Hfin Hin. destruct (ginv_winv _ _ _ G Hin) as (oks & maybes & HW). pose proof (ginv_st _ _ _ G Hin) as Hst.
  assert (Hd : forall c, w_ph (a_app (F k) c) = WDone).
  { intros c. pose proof (se_cl _ _ _ (gi_sees _ _ G k Hin) c) as Hl. unfold looks, busy in Hl. rewrite Hfin in Hl. simpl in Hl.
    rewrite andb_false_r in Hl. by destruct Hl. }
  pose proof (winv_total Marshal Unmarshal k Unmarshal_Marshal n _ _ _ HW Hd) as Hb. cbv zeta in Hb.
  unfold results in Hb. rewrite total_sum in Hb. unfold cur, ver_of in *. rewrite Hst in Hb. split_and!; [apply Hb|apply Hb|..].
  - intros Hnz. rewrite <- Hst. apply (winv_key _ _ _ _ _ _ HW). unfold results. rewrite total_sum. intros [= E1 E2]. unfold oks_at, maybes_at in Hnz. lia.
  - intros en Hen. rewrite <- Hst in Hen. by destruct (w_entry _ _ _ _ _ _ HW en Hen).
Qed.

Lemma ginv_total F a : ginv F a ->
  total (results n (fun c => k_ws (a_app a c))) = mkClntRes (sum_over (oks_at F) ka) (sum_over (maybes_at F) ka).
Proof.
  intros G. unfold results, oks_at, maybes_at. rewrite (total_sum (fun c => k_ws (a_app a c))).
  rewrite <- (sum_over_swap (fun c k => Nok (a_app (F k) c))), <- (sum_over_swap (fun c k => Nmaybe (a_app (F k) c))). f_equal.
  - clear -G. induction (seq 0 n) as [|c l IH]; simpl; [done|]. by rewrite (gi_ok _ _ G), IH.
  - clear -G. induction (seq 0 n) as [|c l IH]; simpl; [done|]. by rewrite (gi_may _ _ G), IH.
Qed.

(** C21: the put test.  [n] clients put with [OneClientPut] to the first of the keys or,
    with [randomkeys], to any of them, each with a lawful clerk over a network that
    loses, delays and repeats requests; a put whose [Call] failed may be executed
    at any later time.  In every state reached in fewer than 2^64 steps no client
    has failed the test (no [Fatalf] in [OnePut], [GetJson]).  When all clients are
    done, the versions of the keys together are between the number of puts that
    returned OK and that number and the number of those that returned [ErrMaybe];
    some key exists if anybody has put; and [CheckPutConcurrent] passes on every
    key that exists, also in its strict form if there is only one key and no put
    returned [ErrMaybe], as when the network is reliable. *)
Theorem keys_test_passes {K} `{LawfulClerk K} (x0 x : sys kstate K) steps :
  xinit (keys_spawned n) x0 -> nsteps (xstep OneClientPut_keys) steps x0 x -> Z.of_nat steps < 2 ^ 64 ->
  let cs c := k_ws (app (cl x c)) in let t := total (results n cs) in
  (forall c, w_ph (cs c) <> WFatal) /\
  (finished cs -> res_Nok t + res_Nmaybe t < 2 ^ 64 ->
   res_Nok t <= sum_over (ver_of (st x)) ka <= res_Nok t + res_Nmaybe t /\
   (0 < res_Nok t + res_Nmaybe t -> exists k, k ∈ ka /\ is_Some (st x !! k)) /\
   forall k reliable, k ∈ ka -> is_Some (st x !! k) -> (reliable = true -> ka = [k] /\ res_Nmaybe t = 0) ->
     CheckPutConcurrent Unmarshal (KvSrv.Get (st x) (mkGetArgs k)) (results n cs) (mkClntRes 0 0) reliable = Some t).
Proof.
  intros Hi Hs Hk cs t. destruct (steps_sim OneClientPut_keys _ x0 x steps Hi Hs Hk) as (a & Ha & HR).
  destruct (ginv_reach a Ha) as (F & G). assert (Hcs : forall c, k_ws (a_app a c) = cs c) by (intros c; unfold cs; by rewrite (r_app _ _ _ HR)).
  split; [intros c; rewrite <- Hcs; by eapply ginv_no_fatal|]. intros Hfin Hlt.
  assert (Ht : t = mkClntRes (sum_over (oks_at F) ka) (sum_over (maybes_at F) ka)).
  { rewrite <- (ginv_total F a G). unfold t, results. f_equal. apply list_fmap_ext. intros ? c _. by rewrite Hcs. }
  pose proof (fun k => ginv_key F a k G ltac:(intros c; rewrite Hcs; apply Hfin)) as Hb. rewrite (r_st _ _ _ HR) in Hb.
  assert (Hsum : sum_over (oks_at F) ka <= sum_over (ver_of (st x)) ka <= sum_over (oks_at F) ka + sum_over (maybes_at F) ka).
  { split; [apply sum_over_le; intros k Hin; by apply Hb|]. rewrite <- sum_over_add. apply sum_over_le. intros k Hin. by apply Hb. }
  split; [rewrite Ht; exact Hsum|]. split.
  { rewrite Ht. simpl. rewrite <- sum_over_add. intros Hpos. destruct (sum_over_nonzero (fun k => oks_at F k + maybes_at F k) ka) as (k & Hin & Hnz); [lia|].
    exists k. split; [done|]. by apply (Hb k Hin). }
  intros k reliable Hin [en Hen] Hrel. destruct (Hb k Hin) as (_ & _ & Hval). destruct (Hval en Hen) as [ev Hev].
  assert (Hpos : forall k', 0 <= ver_of (st x) k').
  { intros k'. unfold ver_of. destruct (st x !! k') as [e'|] eqn:E; [|lia]. apply (r_bound _ _ _ HR) in E. lia. }
  pose proof (sum_over_member (ver_of (st x)) ka k Hpos Hin) as Hm. assert (Hv : ver_of (st x) k = version en) by (unfold ver_of; by rewrite Hen).
  pose proof (Hpos k). unfold CheckPutConcurrent, GetJson, KvSrv.Get. simpl. rewrite Hen. simpl. rewrite Hev, Unmarshal_Marshal. simpl.
  fold (total (results n cs)). fold t. rewrite Ht in *. unfold u64. destruct reliable; simpl in *.
  - destruct (Hrel eq_refl) as [Hone Hz]. rewrite Hone in *. cbn [sum_over foldr] in *. rewrite Z.mod_small by lia. rewrite decide_False by lia. done.
  - rewrite Z.mod_small by lia. rewrite decide_False by lia. done.
Qed.

End keys.

(** ** A run

    Two clients on two keys: the reply to the first put of client 0 is lost, so it
    returns [ErrMaybe]; it puts to the other key too; client 1 finds the version
    of the first key advanced and puts again. *)
Module KeysDemo.
Import WorkloadDemo.

Definition keys : list string := ["k0"; "k1"].
Definition P : program kstate := OneClientPut_keys Marshal Unmarshal keys true.

(** The own steps of a client: it stops, or it puts to a key. *)
Definition own (_ : nat) (s : kstate) (i : nat) : option kstate :=
  if decide (w_ph (k_ws s) = WTop) then
    match i with
    | O => Some (mkKs (k_key s) (set_ph (k_ws s) WDone) (verm s))
    | S i => k ← keys !! i; Some (mkKs k (mkWs WPut (ver_at s k) (Nok (k_ws s)) (Nmaybe (k_ws s))) (verm s))
    end
  else None.

Lemma keys_own_local c s i s' : own c s i = Some s' -> local P c s s'.
Proof.
  unfold own. case_decide as Hph; [|done]. destruct i as [|i]; [intros [= <-]; split; auto|].
  destruct (keys !! i) as [k|] eqn:Hk; intros; simplify_eq/=. split; [done|]. right. exists k. split; [|done]. by eapply list_elem_of_lookup_2.
Qed.

Definition x0 : sys kstate unit := mkSys KvSrv.MakeKVServer (fun c => mkCl (keys_spawned keys 2 c) tt None) ∅ ∅ 0 [].

Definition acts : list act :=
  [Own 0 1; Invoke 0; Exec 0; TimeOut 0; Exec 1; Receive 0; Invoke 0; Exec 2; Receive 0;
   Own 0 2; Invoke 0; Exec 3; Receive 0; Invoke 0; Exec 4; Receive 0; Own 0 0;
   Own 1 1; Invoke 1; Exec 5; Receive 1; Invoke 1; Exec 6; Receive 1;
   Invoke 1; Exec 7; Receive 1; Invoke 1; Exec 8; Receive 1; Own 1 0]%nat.

Definition x31 : sys kstate unit := default x0 (schedule P own x0 acts).

Lemma keys_test_passes_witness :
  ver_of (st x31) "k0" = 2 /\ ver_of (st x31) "k1" = 1 /\
  CheckPutConcurrent Unmarshal (KvSrv.Get (st x31) (mkGetArgs "k0")) (results 2 (fun c => k_ws (app (cl x31 c)))) (mkClntRes 0 0) false
    = Some (mkClntRes 2 1).
Proof.
  assert (Hs : nsteps (xstep P) 31 x0 x31) by (apply (schedule_steps P own keys_own_local acts); vm_compute; reflexivity).
  split; [vm_compute; reflexivity|]. split; [vm_compute; reflexivity|].
  refine (proj2 (proj2 (proj2 (keys_test_passes Marshal Unmarshal keys true 2 _ Unmarshal_Marshal x0 x31 31 _ Hs _) _ _)) "k0" false _ _ _).
  - apply (bool_decide_unpack _). vm_compute. exact I.
  - split_and!; try reflexivity. intros c. split; reflexivity.
  - lia.
  - intros [|[|c]]; vm_compute; reflexivity.
  - vm_compute. reflexivity.
  - left.
  - vm_compute. eexists. reflexivity.
  - discriminate.
Defined.

End KeysDemo.
