(* ===== verification/Appends.v ===== *)
(** * The append workload of the key/value tests

    [kvtest1/kvtest.go]: clients that append their entries to a list kept under one
    key ([OneClientAppend]: read, append, put with the version read, and again when
    the version has passed) and the check of the list at the end ([CheckAppends]).

    The theorem is what the comment of [OneClientAppend] says of the value, and
    that the check passes: each client has entries with increasing numbers, some
    may have been skipped, and no more were skipped than puts returned
    [ErrMaybe]. *)

From S2P Require Import Prelude Kv KvClerk Workload.

(** [entry] and [EntryN]. *)
Record EntryN := mkEntryN { En_Id : Z; En_N : Z }.

(** Where a client is in [OneClientAppend]: at the select; before [GetJson]; before
    [PutJson] of the list at a version; back; or in [Fatalf]. *)
Inductive pphase := PTop | PGet | PPut (es : list EntryN) (ver : Tversion) | PStop | PFatal.

(** [p_oks] are the numbers of the entries whose put returned OK; the program does
    not look at them. *)
Record pstate := mkPs { p_ph : pphase; p_i : Z; nok : Z; nmay : Z; p_oks : list Z }.

Definition set_pph (s : pstate) (ph : pphase) : pstate := mkPs ph (p_i s) (nok s) (nmay s) (p_oks s).

(** ** The check *)

(** One entry of the list; [None] is [Fatalf]. *)
Definition check_entry (ms : gmap Z Z * gmap Z Z) (e : EntryN) : option (gmap Z Z * gmap Z Z) :=
  let '(expect, skipped) := ms in
  let x := default 0 (expect !! En_Id e) in
  if decide (x > En_N e) then None
  else if decide (x = En_N e) then Some (<[En_Id e := x + 1]> expect, skipped)
  else Some (<[En_Id e := En_N e + 1]> expect, <[En_Id e := default 0 (skipped !! En_Id e) + (En_N e - x)]> skipped).

Fixpoint check_entries (ms : gmap Z Z * gmap Z Z) (es : list EntryN) : option (gmap Z Z * gmap Z Z) :=
  match es with [] => Some ms | e :: es => ms ← check_entry ms e; check_entries ms es end.

Definition zeros (nclnt : nat) : gmap Z Z := list_to_map ((fun i => (Z.of_nat i, 0)) <$> seq 0 nclnt).

(** The two conditions on one client; an index out of range panics. *)
Definition check_client (skipped : gmap Z Z) (rs : list ClntRes) (c n : Z) : bool :=
  match rs @[ c ] with
  | None => false
  | Some r =>
      if decide (default 0 (skipped !! c) > res_Nmaybe r) then false
      else if decide (n > res_Nok r + res_Nmaybe r) then false else true
  end.

(** [false] when it fails the test. *)
Definition CheckAppends (es : list EntryN) (nclnt : nat) (rs : list ClntRes) (ver : Tversion) : bool :=
  match check_entries (zeros nclnt, zeros nclnt) es with
  | None => false
  | Some (expect, skipped) =>
      if decide (zlen es + 1 <> i64 ver) then false
      else forallb (fun '(c, n) => check_client skipped rs c n) (map_to_list expect)
  end.

(** ** What the list of entries looks like *)

(** One more than the last number of client [c], and how many entries it has. *)
Definition upto (c : Z) (es : list EntryN) : Z := foldl (fun x e => if decide (En_Id e = c) then En_N e + 1 else x) 0 es.
Definition count (c : Z) (es : list EntryN) : Z := foldl (fun x e => if decide (En_Id e = c) then x + 1 else x) 0 es.

Lemma upto_snoc c es e : upto c (es ++ [e]) = if decide (En_Id e = c) then En_N e + 1 else upto c es.
Proof. unfold upto. by rewrite foldl_app. Qed.

Lemma count_snoc c es e : count c (es ++ [e]) = if decide (En_Id e = c) then count c es + 1 else count c es.
Proof. unfold count. by rewrite foldl_app. Qed.

(** Every client's numbers increase. *)
Inductive increasing (nclnt : nat) : list EntryN -> Prop :=
| increasing_nil : increasing nclnt []
| increasing_snoc es e : increasing nclnt es -> 0 <= En_Id e < Z.of_nat nclnt -> upto (En_Id e) es <= En_N e -> increasing nclnt (es ++ [e]).

Lemma check_entries_snoc ms es e : check_entries ms (es ++ [e]) = (ms' ← check_entries ms es; check_entry ms' e).
Proof.
  revert ms. induction es as [|e' es IH]; intros ms; simpl; [by destruct (check_entry ms e)|]. destruct (check_entry ms e'); [apply IH|done].
Qed.

Lemma zeros_lookup nclnt c : default 0 (zeros nclnt !! c) = 0.
Proof.
  destruct (zeros nclnt !! c) as [z|] eqn:E; [|done]. simpl. apply elem_of_list_to_map_2, list_elem_of_fmap in E as (i & Hi & _). by simplify_eq.
Qed.

Lemma zeros_dom nclnt c : is_Some (zeros nclnt !! c) -> 0 <= c < Z.of_nat nclnt.
Proof. intros [z (i & Hi & Hs)%elem_of_list_to_map_2%list_elem_of_fmap]. apply elem_of_seq in Hs. simplify_eq. lia. Qed.

(** What the loop over the entries computes. *)
Lemma check_entries_increasing nclnt es : increasing nclnt es ->
  exists expect skipped, check_entries (zeros nclnt, zeros nclnt) es = Some (expect, skipped) /\
    forall c, default 0 (expect !! c) = upto c es /\ default 0 (skipped !! c) = upto c es - count c es /\
      (is_Some (expect !! c) -> 0 <= c < Z.of_nat nclnt).
Proof.
  induction 1 as [|es e _ (expect & skipped & Hc & Hin) Hid Hn].
  - exists (zeros nclnt), (zeros nclnt). split; [done|]. intros c. rewrite !zeros_lookup. split_and!; [done..|apply zeros_dom].
  - rewrite check_entries_snoc, Hc. simpl. destruct (Hin (En_Id e)) as (Hx & Hy & _). rewrite Hx. rewrite decide_False by lia.
    case_decide as Heq; eexists _, _; (split; [done|]); intros c; rewrite upto_snoc, count_snoc; destruct (Hin c) as (Hcx & Hcy & Hdom);
      (case_decide as Hc'; [subst c; rewrite ?lookup_insert_eq; simpl; rewrite ?Hy; split_and!; [lia|lia|done]|
        rewrite ?lookup_insert_ne by done; done]).
Qed.

Section appends.
(* encoding/json on a slice of entries *)
Context (Marshal : list EntryN -> string) (Unmarshal : string -> option (list EntryN)).

Definition OneClientAppend_next (c : nat) (s : pstate) : option request :=
  match p_ph s with
  | PGet => Some (RGet (mkGetArgs "k"))
  | PPut es ver => Some (RPut (PutJson Marshal "k" es ver))
  | _ => None
  end.

Definition OneClientAppend_resume (me : nat) (s : pstate) (rep : reply) : pstate :=
  match p_ph s, rep with
  | PGet, RepGet g =>
      match GetJson Unmarshal g with
      | None => set_pph s PFatal
      | Some (es, ver) => set_pph s (PPut (es ++ [mkEntryN (Z.of_nat me) (p_i s)]) ver)
      end
  | PPut _ _, RepPut p =>
      if decide (putr_Err p = OK) then mkPs PTop (p_i s + 1) (nok s + 1) (nmay s) (p_i s :: p_oks s)
      else if decide (putr_Err p = ErrMaybe) then mkPs PTop (p_i s + 1) (nok s) (nmay s + 1) (p_oks s)
      else set_pph s PGet
  | _, _ => s
  end.

(** The select. *)
Definition OneClientAppend_local (_ : nat) (s s' : pstate) : Prop :=
  p_ph s = PTop /\ (s' = set_pph s PGet \/ s' = set_pph s PStop).

Definition OneClientAppend : program pstate := {|
  next := OneClientAppend_next; resume := OneClientAppend_resume; local := OneClientAppend_local
|}.

Context (n : nat).

(** [n] clients are spawned, on a store in which the list is empty. *)
Definition appenders (c : nat) : pstate := mkPs (if (c <? n)%nat then PTop else PStop) 0 0 0 [].
Definition empty_list : KvMap := {[ "k" := mkKvEntry (Marshal []) 1 ]}.

(** ** The invariant *)

Context (Unmarshal_Marshal : forall es, Unmarshal (Marshal es) = Some es).
Implicit Types (m : KvMap) (c : nat) (s : pstate) (o : aop) (es : list EntryN).

Definition list_is m es : Prop := m !! "k" = Some (mkKvEntry (Marshal es) (zlen es + 1)) /\ increasing n es.

(** The client has made [j] attempts, [k] of which, the ones with the numbers [l],
    returned OK. *)
Definition entries_ok es c (j k : Z) (l : list Z) : Prop :=
  upto (Z.of_nat c) es <= j /\ k <= count (Z.of_nat c) es /\ forall i, i ∈ l -> mkEntryN (Z.of_nat c) i ∈ es.

(** A list that was read: it is the list, unless the version has passed. *)
Definition snapshot es (old : list EntryN) : Prop := zlen old <= zlen es /\ (zlen old = zlen es -> old = es).

Definition Pc es c s o : Prop :=
  (p_i s = nok s + nmay s /\ nok s = zlen (p_oks s)) /\
  match p_ph s with
  | PFatal => False
  | PTop | PStop => o = AIdle /\ entries_ok es c (p_i s) (nok s) (p_oks s)
  | PGet =>
      entries_ok es c (p_i s) (nok s) (p_oks s) /\
      (o = AIdle \/ o = APend (RGet (mkGetArgs "k")) \/
       exists old lf, o = ADone (RGet (mkGetArgs "k")) (RepGet (mkGetReply (Marshal old) (zlen old + 1) OK)) lf /\ snapshot es old)
  | PPut es' ver =>
      exists old, es' = old ++ [mkEntryN (Z.of_nat c) (p_i s)] /\ ver = zlen old + 1 /\ snapshot es old /\
      let r := RPut (PutJson Marshal "k" es' ver) in
      ((o = AIdle \/ o = APend r) /\ entries_ok es c (p_i s) (nok s) (p_oks s)) \/
      (exists lf, o = ADone r (RepPut (mkPutReply ErrVersion)) lf /\ zlen old < zlen es /\ entries_ok es c (p_i s) (nok s) (p_oks s)) \/
      (exists lf, o = ADone r put_ok lf /\ zlen old < zlen es /\ entries_ok es c (p_i s + 1) (nok s + 1) (p_i s :: p_oks s))
  end.

Definition P (a : @asys pstate) : Prop :=
  a_late a = [] /\ (forall c, (n <= c)%nat -> p_ph (a_app a c) = PStop) /\
  exists es, list_is (a_st a) es /\ forall c, Pc es c (a_app a c) (a_op a c).

(** The list grows by an entry of another client. *)
Definition extends es es' c : Prop :=
  es' = es \/ exists e, es' = es ++ [e] /\ En_Id e <> Z.of_nat c.

Lemma snapshot_extends es es' c old : extends es es' c -> snapshot es old -> snapshot es' old.
Proof.
  intros [->|(e & -> & _)]; [done|]. intros [Hle _]. unfold snapshot, zlen in *. rewrite length_app. simpl. split; lia.
Qed.

Lemma zlen_extends es es' c : extends es es' c -> zlen es <= zlen es'.
Proof. intros [->|(e & -> & _)]; [lia|]. unfold zlen. rewrite length_app. lia. Qed.

Lemma entries_extends es es' c j k l : extends es es' c -> entries_ok es c j k l -> entries_ok es' c j k l.
Proof.
  intros [->|(e & -> & Hne)]; [done|]. unfold entries_ok. rewrite upto_snoc, count_snoc, !decide_False by done.
  intros (? & ? & Hin). split_and!; [done..|]. intros i Hi. apply elem_of_app. auto.
Qed.

Lemma Pc_extends es es' c s o : extends es es' c -> Pc es c s o -> Pc es' c s o.
Proof.
  intros Hx [Hi Hp]. split; [done|]. pose proof (zlen_extends _ _ _ Hx) as Hl. destruct (p_ph s) as [| |es1 ver| |]; try done.
  - destruct Hp. eauto using entries_extends.
  - destruct Hp as [He [?|[?|(old & lf & ? & ?)]]]; split; eauto 7 using entries_extends, snapshot_extends.
  - destruct Hp as (old & ? & ? & ? & Hp). exists old. split_and!; eauto using snapshot_extends.
    destruct Hp as [[? ?]|[(lf & ? & ? & ?)|(lf & ? & ? & ?)]]; [left|right; left; exists lf|right; right; exists lf];
      split_and!; eauto using entries_extends; lia.
  - destruct Hp. eauto using entries_extends.
Qed.

(** ** The steps *)

Lemma entries_weaken es c j k l j' k' l' : entries_ok es c j k l -> j <= j' -> k' <= k -> l' ⊆ l -> entries_ok es c j' k' l'.
Proof. intros (? & ? & ?) ? ? ?. split_and!; [lia..|auto]. Qed.

Lemma entries_won es c j k l : entries_ok es c j k l -> entries_ok (es ++ [mkEntryN (Z.of_nat c) j]) c (j + 1) (k + 1) (j :: l).
Proof.
  intros (? & ? & Hin). unfold entries_ok. rewrite upto_snoc, count_snoc. simpl. rewrite !decide_True by done.
  split_and!; [lia..|]. intros i [->|Hi]%elem_of_cons; apply elem_of_app; [right; by left|left; auto].
Qed.

Lemma unserved_get es c s r lf o : Pc es c s o -> unserved o r lf -> p_ph s = PGet -> r = RGet (mkGetArgs "k").
Proof.
  intros [_ Hp] Hu Hph. rewrite Hph in Hp. destruct Hp as [_ Hp].
  destruct Hu as [[Hu _]|(rep & Hu & _)]; destruct Hp as [?|[?|(? & ? & ? & _)]]; congruence.
Qed.

Lemma unserved_put es c s r lf o es1 ver : Pc es c s o -> unserved o r lf -> p_ph s = PPut es1 ver ->
  r = RPut (PutJson Marshal "k" es1 ver) /\ entries_ok es c (p_i s) (nok s) (p_oks s).
Proof.
  intros [_ Hp] Hu Hph. rewrite Hph in Hp. destruct Hp as (old & _ & _ & _ & Hp).
  destruct Hu as [[Hu _]|(rep & Hu & Hne)]; destruct Hp as [[[?|?] ?]|[(? & ? & _ & ?)|(? & ? & _ & _)]]; simplify_eq; split; congruence || done.
Qed.

(** Executing the put of a client whose snapshot is [old]. *)
Lemma put_list m es old e : list_is m es -> nowrap m -> snapshot es old -> 0 <= En_Id e < Z.of_nat n -> upto (En_Id e) es <= En_N e ->
  let sv := serve m (RPut (PutJson Marshal "k" (old ++ [e]) (zlen old + 1))) in
  (old = es /\ fst sv = put_ok /\ list_is (snd sv) (es ++ [e])) \/
  (zlen old < zlen es /\ fst sv = RepPut (mkPutReply ErrVersion) /\ snd sv = m).
Proof.
  intros [Hm Hinc] Hnw [Hle Heq] Hid Hup. simpl. unfold KvSrv.Put. simpl. rewrite Hm. simpl.
  destruct (decide (zlen es = zlen old)) as [Hz|Hz].
  - left. rewrite (Heq ltac:(done)). rewrite decide_True by done. simpl. split_and!; [done..|]. split; [|by constructor].
    rewrite lookup_insert_eq. do 2 f_equal. unfold u64. apply Hnw in Hm. simpl in Hm. unfold zlen in *. rewrite length_app. simpl.
    rewrite Z.mod_small; lia.
  - right. rewrite decide_False by lia. simpl. split_and!; [lia|done..].
Qed.

Lemma serve_P m es c s o r lf : list_is m es -> nowrap m -> Pc es c s o -> (c < n)%nat -> unserved o r lf ->
  exists es', list_is (snd (serve m r)) es' /\ (forall c', c' <> c -> extends es es' c') /\ Pc es' c s (ADone r (fst (serve m r)) lf).
Proof.
  intros Hm Hnw HP Hc Hu. pose proof HP as [Hi Hp]. destruct (p_ph s) as [| |es1 ver| |] eqn:Hph.
  - destruct Hp as [-> _]. destruct Hu as [[? _]|(? & ? & _)]; done.
  - rewrite (unserved_get _ _ _ _ _ _ HP Hu Hph). exists es. split; [done|]. split; [by left|]. split; [done|]. rewrite Hph.
    destruct Hp as [He _]. split; [done|]. right. right. exists es, lf. simpl. unfold KvSrv.Get. simpl. destruct Hm as [-> _]. by split.
  - destruct (unserved_put _ _ _ _ _ _ _ _ HP Hu Hph) as [-> He]. destruct Hp as (old & -> & -> & Hs & _).
    destruct (put_list m es old (mkEntryN (Z.of_nat c) (p_i s)) Hm Hnw Hs) as [(-> & -> & Hm')|(Hlt & -> & ->)]; [simpl; lia|apply He|..].
    + eexists. split; [done|]. split; [intros c' Hne; right; eexists; split; [done|simpl; lia]|]. split; [done|]. rewrite Hph.
      exists es. split_and!; try done; [|right; right; exists lf; split_and!; [done| |by apply entries_won]].
      * unfold snapshot, zlen. rewrite length_app. simpl. lia.
      * unfold zlen. rewrite length_app. simpl. lia.
    + exists es. split; [done|]. split; [by left|]. split; [done|]. rewrite Hph. exists old. split_and!; try done. right. left. by exists lf.
  - destruct Hp as [-> _]. destruct Hu as [[? _]|(? & ? & _)]; done.
  - done.
Qed.

Lemma return_P es c s r rep lf rep' : Pc es c s (ADone r rep lf) -> weakens lf rep rep' ->
  Pc es c (OneClientAppend_resume c s rep') AIdle.
Proof.
  intros [Hi Hp] Hw. unfold OneClientAppend_resume. destruct (p_ph s) as [| |es1 ver| |] eqn:Hph.
  - by destruct Hp.
  - destruct Hp as [He [?|[?|(old & lf' & ? & Hs)]]]; simplify_eq. destruct Hw as [[-> _]|[_ [?|?]]]; [|done..].
    unfold GetJson. simpl. rewrite Unmarshal_Marshal. simpl. split; [done|]. simpl. exists old. split_and!; auto.
  - destruct Hp as (old & -> & -> & Hs & [[[?|?] _]|[(lf' & ? & _ & He)|(lf' & ? & _ & He)]]); simplify_eq;
      destruct Hw as [[-> _]|[-> _]]; (split; simpl; [rewrite ?zlen_cons; lia|]).
    + split; [done|by left].
    + split; [done|]. eapply entries_weaken; [done|lia|lia|set_solver].
    + by split.
    + split; [done|]. eapply entries_weaken; [done|lia|lia|set_solver].
  - by destruct Hp.
  - done.
Qed.

Lemma no_abandon_P m es c s p rep lf : list_is m es -> Pc es c s (ADone (RPut p) rep lf) -> rep <> put_ok -> spent m p.
Proof.
  intros [Hm _] [_ Hp] Hne. destruct (p_ph s) as [| |es1 ver| |] eqn:Hph.
  - by destruct Hp.
  - by destruct Hp as [_ [?|[?|(? & ? & ? & _)]]].
  - destruct Hp as (old & -> & -> & _ & [[[?|?] _]|[(lf' & ? & Hlt & _)|(lf' & ? & _)]]); simplify_eq.
    eexists. split; [done|]. simpl. lia.
  - by destruct Hp.
  - done.
Qed.

Lemma active_P a c : P a -> a_op a c <> AIdle \/ p_ph (a_app a c) <> PStop -> (c < n)%nat.
Proof.
  intros (_ & Hout & es & _ & HP) Hc. destruct (decide (n <= c)%nat) as [Hge|]; [|lia]. pose proof (Hout c Hge) as Hph.
  destruct (HP c) as [_ Hp]. rewrite Hph in Hp. destruct Hp, Hc; done.
Qed.

(** A step of client [c]. *)
Lemma P_moves (a a' : @asys pstate) c es es' : P a -> (c < n)%nat -> a_late a' = a_late a ->
  (forall c', c' <> c -> a_app a' c' = a_app a c' /\ a_op a' c' = a_op a c') -> (forall c', Pc es c' (a_app a c') (a_op a c')) ->
  list_is (a_st a') es' -> (forall c', c' <> c -> extends es es' c') -> Pc es' c (a_app a' c) (a_op a' c) -> P a'.
Proof.
  intros (Hl & Hout & _) Hc Hlate Ho HP Hm Hx HP'. split; [by rewrite Hlate|]. split.
  - intros c' Hc'. destruct (Ho c' ltac:(lia)) as [-> _]. auto.
  - exists es'. split; [done|]. intros c'. destruct (decide (c' = c)) as [->|Hne]; [done|].
    destruct (Ho c' Hne) as [-> ->]. eapply Pc_extends; [by apply Hx|apply HP].
Qed.

Lemma invoke_P es c s r : Pc es c s AIdle -> OneClientAppend_next c s = Some r -> Pc es c s (APend r).
Proof.
  intros [Hi Hp] Hn. unfold OneClientAppend_next in Hn. split; [done|]. destruct (p_ph s) as [| |es1 ver| |]; simplify_eq.
  - destruct Hp. auto.
  - destruct Hp as (old & ? & ? & ? & [[_ ?]|[(? & ? & _)|(? & ? & _)]]); [|done..]. exists old. split_and!; auto.
Qed.

Lemma P_step (a a' : @asys pstate) : P a -> astep OneClientAppend a a' -> P a'.
Proof.
  intros Ha Hs. pose proof Ha as (Hl & Hout & es & Hm & HP). assert (Hsame : forall c', extends es es c') by (by left).
  destruct Hs as [a c s' Ho [Hph Hloc]|a c r Ho Hn|a c r lf Hu Hw|a c p rep lf Ho Hne Hsp|a c r rep lf rep' Ho Hwk|a p Hp Hw].
  - apply (P_moves a _ c es es); try done; [apply (active_P a); [done|right; by rewrite Hph]|intros c' Hc'; simpl; by fn_upd|].
    simpl. fn_upd. specialize (HP c). rewrite Ho in *. destruct HP as [Hi Hp]. rewrite Hph in Hp. destruct Hp as [_ He].
    destruct Hloc as [->| ->]; (split; [done|]); simpl; auto.
  - apply (P_moves a _ c es es); try done; [apply (active_P a); [done|right; intros Hph]|intros c' Hc'; simpl; by fn_upd|].
    + simpl in Hn. unfold OneClientAppend_next in Hn. by rewrite Hph in Hn.
    + simpl. fn_upd. apply invoke_P; [|done]. rewrite <- Ho. apply HP.
  - assert (Hc : (c < n)%nat). { apply (active_P a); [done|]. left. destruct Hu as [[-> _]|(? & -> & _)]; done. }
    destruct (serve_P _ _ _ _ _ _ _ Hm Hw (HP c) Hc Hu) as (es' & Hm' & Hx & HP').
    apply (P_moves a _ c es es'); try done; [intros c' Hc'; simpl; by fn_upd|]. simpl. by fn_upd.
  - destruct Hsp. specialize (HP c). rewrite Ho in HP. by eapply no_abandon_P.
  - apply (P_moves a _ c es es); try done; [apply (active_P a); [done|left; by rewrite Ho]|intros c' Hc'; simpl; by fn_upd|].
    simpl. fn_upd. specialize (HP c). rewrite Ho in HP. by eapply return_P.
  - rewrite Hl in Hp. by apply not_elem_of_nil in Hp.
Qed.

Lemma P_reach a : rtc (astep OneClientAppend) (a0_at empty_list appenders) a -> P a.
Proof.
  intros Hr. assert (H0 : P (a0_at empty_list appenders)).
  { split; [done|]. split; [intros c Hc; unfold appenders; simpl; by destruct (Nat.ltb_ge c n) as [_ ->]|].
    exists []. split; [split; [done|constructor]|]. intros c. unfold Pc, appenders, entries_ok. simpl.
    destruct (c <? n)%nat; split_and!; try done; intros i Hi; by apply elem_of_nil in Hi. }
  induction Hr as [|a a' a'' Hs _ IH]; [done|]. by eapply IH, P_step.
Qed.

(** ** The check passes *)

Definition append_results (x : nat -> pstate) : list ClntRes := (fun c => mkClntRes (nok (x c)) (nmay (x c))) <$> seq 0 n.

Lemma results_lookup x (c : Z) : 0 <= c < Z.of_nat n ->
  (append_results x) @[ c ] = Some (mkClntRes (nok (x (Z.to_nat c))) (nmay (x (Z.to_nat c)))).
Proof.
  intros Hc. unfold gidx, append_results. rewrite decide_True by lia. rewrite list_lookup_fmap, lookup_seq_lt by lia. done.
Qed.

Lemma check_passes es x : increasing n es -> zlen es + 1 < 2 ^ 63 ->
  (forall c, (c < n)%nat -> entries_ok es c (nok (x c) + nmay (x c)) (nok (x c)) (p_oks (x c))) ->
  CheckAppends es n (append_results x) (zlen es + 1) = true.
Proof.
  intros Hinc Hb Hx. unfold CheckAppends. destruct (check_entries_increasing n es Hinc) as (expect & skipped & -> & Hin).
  rewrite decide_False.
  2:{ intros Hne. apply Hne. unfold i64. pose proof (zlen_nonneg es). rewrite Z.mod_small; lia. }
  apply forallb_forall. intros [c k] Hk%list_elem_of_In%elem_of_map_to_list. destruct (Hin c) as (He & Hs & Hd).
  rewrite Hk in He, Hd. simpl in He. specialize (Hd ltac:(done)). unfold check_client. rewrite results_lookup by done. simpl.
  destruct (Hx (Z.to_nat c) ltac:(lia)) as (Hu & Hc & _). rewrite Z2Nat.id in Hu, Hc by lia. rewrite Hs.
  rewrite !decide_False by lia. done.
Qed.

(** Whatever a client is doing. *)
Lemma Pc_entries es c s o : Pc es c s o -> exists j, entries_ok es c j (nok s) (p_oks s).
Proof.
  intros [_ Hp]. destruct (p_ph s); [by destruct Hp; eauto|by destruct Hp; eauto| |by destruct Hp; eauto|done].
  destruct Hp as (old & _ & _ & _ & [[_ ?]|[(? & _ & _ & ?)|(? & _ & _ & He)]]); [by eauto..|].
  exists (p_i s + 1). eapply entries_weaken; [exact He|lia|lia|set_solver].
Qed.

(** C22: the append test.  [n] clients append to one list with [OneClientAppend],
    each with a lawful clerk over a network that loses, delays and repeats
    requests.  In every state reached no client has failed the test; the value
    under the key is always a list of entries in which each client's numbers
    increase, as long as its version says; every append that returned OK, known by
    its client and number, is in it, and as many have returned OK as the client has
    counted; and when the clients are done [CheckAppends] passes on it. *)
Theorem append_test_passes {K} `{LawfulClerk K} (x0 x : sys pstate K) k :
  xinit_at empty_list appenders x0 -> nsteps (xstep OneClientAppend) k x0 x -> Z.of_nat k < 2 ^ 63 - 2 ->
  let cs c := app (cl x c) in
  (forall c, p_ph (cs c) <> PFatal) /\
  exists es ver, GetJson Unmarshal (KvSrv.Get (st x) (mkGetArgs "k")) = Some (es, ver) /\ ver = zlen es + 1 /\ increasing n es /\
    (forall c i, i ∈ p_oks (cs c) -> mkEntryN (Z.of_nat c) i ∈ es) /\
    (forall c, nok (cs c) = zlen (p_oks (cs c)) /\ nok (cs c) <= count (Z.of_nat c) es) /\
    ((forall c, p_ph (cs c) = PStop) -> CheckAppends es n (append_results cs) ver = true).
Proof.
  intros Hi Hs Hk cs.
  destruct (steps_sim_at OneClientAppend empty_list 1 appenders x0 x k Hi) as (a & Ha & HR); [|lia|done|lia|].
  { intros key e. unfold empty_list. intros [<- <-]%lookup_singleton_Some. simpl. lia. }
  destruct (P_reach a Ha) as (_ & _ & es & [Hm Hinc] & HP).
  assert (Hcs : forall c, Pc es c (cs c) (a_op a c)) by (intros c; unfold cs; rewrite <- (r_app _ _ _ HR); apply HP).
  assert (Hlen : zlen es + 1 <= 1 + Z.of_nat k).
  { rewrite (r_st _ _ _ HR) in Hm. apply (r_bound _ _ _ HR) in Hm. simpl in Hm. lia. }
  rewrite (r_st _ _ _ HR) in Hm. split; [intros c Hf; destruct (Hcs c) as [_ Hp]; by rewrite Hf in Hp|].
  exists es, (zlen es + 1). unfold GetJson, KvSrv.Get. simpl. rewrite Hm. simpl. rewrite Unmarshal_Marshal. simpl.
  split_and!; try done.
  - intros c i Hin. by destruct (Pc_entries _ _ _ _ (Hcs c)) as (j & _ & _ & Hall); auto.
  - intros c. destruct (Hcs c) as [[_ ?] _]. by destruct (Pc_entries _ _ _ _ (Hcs c)) as (j & _ & ? & _).
  - intros Hfin. apply check_passes; [done|lia|]. intros c _. destruct (Hcs c) as [[<- _] Hp]. rewrite (Hfin c) in Hp. apply Hp.
Qed.

End appends.

(** ** A run

    Two clients; the reply to the first append is lost and the appends of the two
    race. *)
Module AppendsDemo.

#[local] Instance EntryN_eq_dec : EqDecision EntryN.
Proof. solve_decision. Defined.

#[local] Program Instance EntryN_countable : Countable EntryN :=
  inj_countable' (fun e => (En_Id e, En_N e)) (fun p => mkEntryN (fst p) (snd p)) _.
Next Obligation. by intros []. Qed.

Definition Marshal (es : list EntryN) : string := WorkloadDemo.bits (encode es).
Definition Unmarshal (s : string) : option (list EntryN) := decode (WorkloadDemo.of_bits s).

Lemma list_Unmarshal es : Unmarshal (Marshal es) = Some es.
Proof. unfold Unmarshal, Marshal. by rewrite WorkloadDemo.of_bits_bits, decode_encode. Qed.

Definition Pa : program pstate := OneClientAppend Marshal Unmarshal.

Definition own (_ : nat) (s : pstate) (i : nat) : option pstate :=
  match p_ph s, i with PTop, 0%nat => Some (set_pph s PGet) | PTop, 1%nat => Some (set_pph s PStop) | _, _ => None end.

Lemma pown_local c s i s' : own c s i = Some s' -> local Pa c s s'.
Proof. unfold own. destruct (p_ph s) eqn:E; [|done..]. destruct i as [|[|i]]; [..|done]; intros [= <-]; split; auto. Qed.

Definition x0 : sys pstate unit := mkSys (empty_list Marshal) (fun c => mkCl (appenders 2 c) tt None) ∅ ∅ 0 [].

Definition acts : list act :=
  [Own 0 0; Invoke 0; Exec 0; Receive 0; Own 1 0; Invoke 1; Exec 1; Receive 1;
   Invoke 0; Exec 2; TimeOut 0; Exec 3; Receive 0; Own 0 1;
   Invoke 1; Exec 4; Receive 1; Invoke 1; Exec 5; Receive 1; Invoke 1; Exec 6; Receive 1; Own 1 1]%nat.

Definition x24 : sys pstate unit := default x0 (schedule Pa own x0 acts).

Lemma append_test_passes_witness :
  exists es ver, GetJson Unmarshal (KvSrv.Get (st x24) (mkGetArgs "k")) = Some (es, ver) /\
    CheckAppends es 2 (append_results 2 (fun c => app (cl x24 c))) ver = true.
Proof.
  assert (Hs : nsteps (xstep Pa) 24 x0 x24) by (apply (schedule_steps Pa own pown_local acts); vm_compute; reflexivity).
  destruct (append_test_passes Marshal Unmarshal 2 list_Unmarshal x0 x24 24) as (_ & es & ver & Hg & _ & _ & _ & _ & Hc).
  - split_and!; try reflexivity. intros c. split; reflexivity.
  - exact Hs.
  - lia.
  - exists es, ver. split; [exact Hg|]. apply Hc. intros [|[|c]]; vm_compute; reflexivity.
Defined.

End AppendsDemo.
