(* ===== verification/Spread.v ===== *)
(** * Puts and checked gets of the key/value tests

    [kvtest1/kvtest.go]: [CheckGet], [PutAtLeastOnce] ("assumes different ck's put
    to different keys"), [MakeKeys] and [SpreadPutsSize], which puts to many keys
    once and then checks them all, whatever its puts returned.

    Both run as programs over a clerk; the theorems say that they never fail the
    test, and what is in the store when they return. *)

From stdpp Require Import pretty.
From S2P Require Import Prelude Kv KvClerk.

(** [true]: as expected; otherwise [Fatalf]. *)
Definition CheckGet (g : GetReply) (value : string) (version : Tversion) : bool :=
  bool_decide (getr_Err g = OK /\ ~ (getr_Value g <> value \/ getr_Version g <> version)).

(** ** Clients that own their keys

    Shared by the two programs: an operation of a client concerns only its keys. *)

(** An entry with no wrap-around ahead is put. *)
Lemma put_current m p : nowrap m -> ver_of m (put_Key p) = put_Version p ->
  fst (serve m (RPut p)) = put_ok /\
  snd (serve m (RPut p)) !! put_Key p = Some (mkKvEntry (put_Value p) (put_Version p + 1)) /\ 0 <= put_Version p < 2 ^ 64 - 1.
Proof.
  intros Hw Hv. pose proof (Put_cases m p) as Hc. unfold serve. destruct (KvSrv.Put m p) as [rep m'] eqn:E. simpl in *.
  unfold ver_of in Hv. destruct Hc as [(-> & _ & ->)|[_ [(_ & e & He & Hne)|(_ & Hn & Hne)]]].
  - rewrite lookup_insert_eq. destruct (m !! put_Key p) as [e|] eqn:Em.
    + apply Hw in Em. unfold u64. rewrite Z.mod_small by lia. rewrite Hv. split_and!; [done..|lia|lia].
    + rewrite <- Hv. split_and!; [done..|lia|lia].
  - rewrite He in Hv. done.
  - rewrite Hn in Hv. congruence.
Qed.

Lemma ver_of_Some m k e : m !! k = Some e -> ver_of m k = version e.
Proof. intros H. unfold ver_of. by rewrite H. Qed.

(** ** PutAtLeastOnce *)

Inductive ophase := OPut | OBack | OFatal.

Record ostate := mkOs { o_ph : ophase; o_ver : Tversion }.

Section at_least_once.
(* the key and the value of each client's put *)
Context (keys values : nat -> string).

(** One iteration of the loop, when [ts.Put] returns. *)
Definition PutAtLeastOnce_body (s : ostate) (err : Err) : ostate :=
  if decide (err = OK) then mkOs OBack (u64 (o_ver s + 1))
  else if decide (err = ErrMaybe \/ err = ErrVersion) then mkOs OPut (u64 (o_ver s + 1))
  else if decide (o_ver s <> 0) then mkOs OFatal (o_ver s) else mkOs OPut (o_ver s).

Definition once_req (c : nat) (s : ostate) : request := RPut (mkPutArgs (keys c) (values c) (o_ver s)).

Definition PutAtLeastOnce : program ostate := {|
  next c s := match o_ph s with OPut => Some (once_req c s) | _ => None end;
  resume _ s rep := match o_ph s, rep with OPut, RepPut p => PutAtLeastOnce_body s (putr_Err p) | _, _ => s end;
  local _ _ _ := False
|}.

Context (keys_inj : forall c c', keys c = keys c' -> c = c').
Implicit Types (m : KvMap) (c : nat) (s : ostate) (o : aop).

Definition Oc m c s o : Prop :=
  match o_ph s with
  | OFatal => False
  | OBack => o = AIdle /\ m !! keys c = Some (mkKvEntry (values c) (o_ver s))
  | OPut =>
      ((o = AIdle \/ o = APend (once_req c s)) /\ ver_of m (keys c) = o_ver s) \/
      (exists lf, o = ADone (once_req c s) put_ok lf /\ m !! keys c = Some (mkKvEntry (values c) (o_ver s + 1)) /\ 0 <= o_ver s < 2 ^ 64 - 1)
  end.

Definition O (a : @asys ostate) : Prop := a_late a = [] /\ forall c, Oc (a_st a) c (a_app a c) (a_op a c).

Lemma Oc_other m m' c s o : m' !! keys c = m !! keys c -> Oc m c s o -> Oc m' c s o.
Proof. intros Hm. unfold Oc, ver_of. by rewrite Hm. Qed.

Lemma unserved_once m c s o r lf : Oc m c s o -> unserved o r lf ->
  o_ph s = OPut /\ r = once_req c s /\ ver_of m (keys c) = o_ver s.
Proof.
  unfold Oc. intros HO Hu. destruct (o_ph s); [|by destruct HO as [-> _]; destruct Hu as [[? _]|(? & ? & _)]|done].
  destruct Hu as [[Hu _]|(rep & Hu & Hne)]; destruct HO as [[[?|?] ?]|(? & ? & _)]; simplify_eq; done.
Qed.

Lemma done_once m c s r rep lf : Oc m c s (ADone r rep lf) -> rep = put_ok.
Proof. unfold Oc. destruct (o_ph s); [|by intros [? _]|done]. intros [[[?|?] _]|(lf' & ? & _)]; by simplify_eq. Qed.

Lemma return_once m c s r rep lf rep' : Oc m c s (ADone r rep lf) -> weakens lf rep rep' ->
  Oc m c (resume PutAtLeastOnce c s rep') AIdle.
Proof.
  unfold Oc. intros HO Hw. simpl. destruct (o_ph s) eqn:Hph; [|by destruct HO|done].
  destruct HO as [[[?|?] _]|(lf' & ? & Hm & Hb)]; simplify_eq. unfold PutAtLeastOnce_body.
  destruct Hw as [[-> _]|[-> _]]; simpl; unfold u64; rewrite Z.mod_small by lia; [done|].
  left. split; [by left|]. by rewrite (ver_of_Some _ _ _ Hm).
Qed.

Lemma O_step (a a' : @asys ostate) : O a -> astep PutAtLeastOnce a a' -> O a'.
Proof.
  intros [Hl HO] Hs.
  destruct Hs as [a c s' Ho Hloc|a c r Ho Hn|a c r lf Hu Hw|a c p rep lf Ho Hne Hsp|a c r rep lf rep' Ho Hwk|a p Hp Hw];
    (split; [simpl; try done|]; simpl).
  - done.
  - intros c'. specialize (HO c'). kcase c c'; [|done]. unfold Oc in *. rewrite Ho in HO. simpl in Hn. destruct (o_ph (a_app a c')); simplify_eq.
    destruct HO as [[_ ?]|(? & ? & _)]; [auto|done].
  - destruct (unserved_once _ _ _ _ _ _ (HO c) Hu) as (Hph & -> & Hv). intros c'. destruct (decide (c' = c)) as [->|Hne]; fn_upd.
    + destruct (put_current (a_st a) (mkPutArgs (keys c) (values c) (o_ver (a_app a c))) Hw Hv) as (Hr & Hm & Hb).
      unfold once_req. rewrite Hr. unfold Oc. rewrite Hph. right. by exists lf.
    + eapply Oc_other; [|apply HO]. apply serve_other. simpl. intros E. by apply keys_inj in E.
  - specialize (HO c). rewrite Ho in HO. by apply done_once in HO.
  - specialize (HO c). rewrite Ho in HO. by apply done_once in HO.
  - intros c'. specialize (HO c'). kcase c c'; [|done]. rewrite Ho in HO. by eapply return_once.
  - rewrite Hl in Hp. by apply not_elem_of_nil in Hp.
Qed.

Lemma O_reach m0 (s0 : nat -> ostate) a : (forall c, o_ph (s0 c) = OPut /\ ver_of m0 (keys c) = o_ver (s0 c)) ->
  rtc (astep PutAtLeastOnce) (a0_at m0 s0) a -> O a.
Proof.
  intros H0 Hr. assert (HO : O (a0_at m0 s0)).
  { split; [done|]. intros c. destruct (H0 c) as [Hph Hv]. unfold Oc. simpl. rewrite Hph. auto. }
  induction Hr as [|a a' a'' Hs _ IH]; [done|]. by eapply IH, O_step.
Qed.

(** Each client puts its own key, from the version the key has.  However often the
    put is repeated, none fails the test, and once it returns a version, the store
    has the value at exactly this version, so that [CheckGet] succeeds. *)
Theorem put_at_least_once {K} `{LawfulClerk K} m0 b (s0 : nat -> ostate) (x0 x : sys ostate K) k c :
  xinit_at m0 s0 x0 -> vbound b m0 -> 0 <= b -> (forall c, o_ph (s0 c) = OPut /\ ver_of m0 (keys c) = o_ver (s0 c)) ->
  nsteps (xstep PutAtLeastOnce) k x0 x -> b + Z.of_nat k < 2 ^ 64 ->
  let s := app (cl x c) in
  o_ph s <> OFatal /\ (o_ph s = OBack -> CheckGet (KvSrv.Get (st x) (mkGetArgs (keys c))) (values c) (o_ver s) = true).
Proof.
  intros Hi Hb Hb0 H0' Hs Hk s. destruct (steps_sim_at PutAtLeastOnce m0 b s0 x0 x k Hi Hb Hb0 Hs Hk) as (a & Ha & HR).
  destruct (O_reach m0 s0 a H0' Ha) as [_ HO]. specialize (HO c). rewrite (r_app _ _ _ HR), (r_st _ _ _ HR) in HO. fold s in HO.
  unfold Oc in HO. split; [intros Hf; by rewrite Hf in HO|]. intros Hback. rewrite Hback in HO. destruct HO as [_ HO].
  unfold CheckGet, KvSrv.Get. simpl. rewrite HO. simpl. apply bool_decide_eq_true_2. split; [done|]. tauto.
Qed.

End at_least_once.

(** [PutAtLeastOnceJson], on what its puts return: it puts with version 0, whatever
    [ver] is, and counts the [ErrMaybe]s.  [None]: it is still in the loop. *)
Fixpoint PutAtLeastOnceJson (ver : Tversion) (errs : list Err) : option Tversion :=
  match errs with
  | [] => None
  | err :: errs => if decide (err <> ErrMaybe) then Some ver else PutAtLeastOnceJson (u64 (ver + 1)) errs
  end.

(** On a key the service does not have, whose one successful put is then at version
    1, what it returns need not be the version of the key: when the first put
    returns OK it is the version before it. *)
Theorem put_json_returns_old m key value : m !! key = None ->
  let '(rep, m') := KvSrv.Put m (mkPutArgs key value 0) in
  PutAtLeastOnceJson 0 [putr_Err rep] = Some 0 /\ ver_of m' key = 1.
Proof. intros Hk. unfold KvSrv.Put. simpl. rewrite Hk. simpl. unfold ver_of. by rewrite lookup_insert_eq. Qed.

(** ** SpreadPutsSize *)

Definition MakeKeys (n : nat) : list string := (fun i => "k" +:+ pretty (Z.of_nat i))%string <$> seq 0 n.

Lemma MakeKeys_lookup n i : (i < n)%nat -> MakeKeys n !! i = Some ("k" +:+ pretty (Z.of_nat i))%string.
Proof. intros Hi. unfold MakeKeys. by rewrite list_lookup_fmap, lookup_seq_lt by done. Qed.

Lemma MakeKeys_NoDup n : NoDup (MakeKeys n).
Proof.
  apply NoDup_fmap_2; [|apply NoDup_seq]. intros i j E. apply (inj (String.append "k")) in E. apply (inj pretty) in E. lia.
Qed.

(** Before the put and before the check of the [i]-th key, back, or in [Fatalf]. *)
Inductive sphase := SPut (i : nat) | SGet (i : nat) | SBack | SFatal.

Section spread.
(* the random values *)
Context (va : list string).
Definition nk : nat := length va.
Definition ka : list string := MakeKeys nk.

(** [ka[i]] and [va[i]]; [i] is in range. *)
Definition key_at (i : nat) : string := default "" (ka !! i).
Definition val_at (i : nat) : string := default "" (va !! i).

(** At the head of a loop. *)
Definition put_loop (i : nat) : sphase :=
  if (i <? nk)%nat then SPut i else if (0 <? nk)%nat then SGet 0 else SBack.
Definition get_loop (i : nat) : sphase := if (i <? nk)%nat then SGet i else SBack.

Definition SpreadPutsSize_next (s : sphase) : option request :=
  match s with
  | SPut i => Some (RPut (mkPutArgs (key_at i) (val_at i) 0))
  | SGet i => Some (RGet (mkGetArgs (key_at i)))
  | _ => None
  end.

Definition SpreadPutsSize_resume (s : sphase) (rep : reply) : sphase :=
  match s, rep with
  | SPut i, RepPut _ => put_loop (i + 1)
  | SGet i, RepGet g => if CheckGet g (val_at i) 1 then get_loop (i + 1) else SFatal
  | _, _ => s
  end.

Definition SpreadPutsSize : program sphase := {|
  next _ := SpreadPutsSize_next; resume _ := SpreadPutsSize_resume; local _ _ _ := False
|}.

(** One client runs it. *)
Definition spreader (c : nat) : sphase := if (c =? 0)%nat then put_loop 0 else SBack.

(** ** The invariant *)

Implicit Types (m : KvMap) (i j : nat) (o : aop).

(** The first [i] keys are there. *)
Definition spread_to m i : Prop :=
  forall j, (j < nk)%nat -> m !! key_at j = if (j <? i)%nat then Some (mkKvEntry (val_at j) 1) else None.

Definition spread_op m (s : sphase) o : Prop :=
  match s with
  | SPut i =>
      (i < nk)%nat /\
      (((o = AIdle \/ exists r, SpreadPutsSize_next s = Some r /\ o = APend r) /\ spread_to m i) \/
       (exists r lf, SpreadPutsSize_next s = Some r /\ o = ADone r put_ok lf /\ spread_to m (i + 1)))
  | SGet i =>
      (i < nk)%nat /\ spread_to m nk /\
      (o = AIdle \/ exists r, SpreadPutsSize_next s = Some r /\
        (o = APend r \/ exists lf, o = ADone r (RepGet (mkGetReply (val_at i) 1 OK)) lf))
  | SBack => o = AIdle /\ spread_to m nk
  | SFatal => False
  end.

Definition spread_inv (a : @asys sphase) : Prop :=
  a_late a = [] /\ spread_op (a_st a) (a_app a 0%nat) (a_op a 0%nat) /\
  forall c, c <> 0%nat -> a_app a c = SBack /\ a_op a c = AIdle.

Lemma key_at_inj i j : (i < nk)%nat -> (j < nk)%nat -> key_at i = key_at j -> i = j.
Proof.
  intros Hi Hj. unfold key_at, ka. rewrite !MakeKeys_lookup by done. simpl. intros E.
  apply (NoDup_lookup _ _ _ _ (MakeKeys_NoDup nk) (MakeKeys_lookup nk i Hi)). by rewrite MakeKeys_lookup, E.
Qed.

Lemma put_loop_inv m i : spread_to m i -> (i <= nk)%nat -> spread_op m (put_loop i) AIdle.
Proof.
  intros Hm Hi. unfold put_loop. destruct (Nat.ltb_spec i nk) as [Hlt|Hge]; [split; [done|]; left; auto|].
  assert (i = nk) as -> by lia. destruct (Nat.ltb_spec 0 nk) as [Hn|Hn]; simpl; auto.
Qed.

Lemma get_loop_inv m i : spread_to m nk -> spread_op m (get_loop i) AIdle.
Proof. intros Hm. unfold get_loop. destruct (Nat.ltb_spec i nk) as [Hlt|Hge]; simpl; auto. Qed.

Lemma serve_spread_put m i : spread_to m i -> (i < nk)%nat -> nowrap m ->
  let r := RPut (mkPutArgs (key_at i) (val_at i) 0) in fst (serve m r) = put_ok /\ spread_to (snd (serve m r)) (i + 1).
Proof.
  intros Hm Hi Hw r. destruct (put_current m (mkPutArgs (key_at i) (val_at i) 0) Hw) as (Hr & Hput & _).
  { unfold ver_of. simpl. by rewrite (Hm i Hi), Nat.ltb_irrefl. }
  split; [done|]. intros j Hj. destruct (decide (j = i)) as [->|Hne].
  - cbn [put_Key] in Hput. unfold r. rewrite Hput. simpl. by destruct (Nat.ltb_spec i (i + 1)); [|lia].
  - unfold r. rewrite serve_other by (simpl; intros E; by apply key_at_inj in E). rewrite (Hm j Hj).
    destruct (Nat.ltb_spec j i), (Nat.ltb_spec j (i + 1)); done || lia.
Qed.

Lemma serve_spread m s o r lf : spread_op m s o -> nowrap m -> unserved o r lf ->
  spread_op (snd (serve m r)) s (ADone r (fst (serve m r)) lf).
Proof.
  intros Hop Hw Hu. destruct s as [i|i| |]; simpl in Hop.
  - destruct Hop as [Hi [[[?|(r' & [= <-] & ?)] Hm]|(r' & lf' & _ & ? & _)]]; destruct Hu as [[Hu _]|(rep & Hu & Hne)]; simplify_eq.
    destruct (serve_spread_put m i Hm Hi Hw) as [Hr Hm']. rewrite Hr. split; [done|]. right. by eexists _, _.
  - destruct Hop as (Hi & Hm & [?|(r' & [= <-] & Hr)]); [by destruct Hu as [[? _]|(? & ? & _)]; simplify_eq|].
    assert (r = RGet (mkGetArgs (key_at i))) as ->.
    { destruct Hu as [[Hu _]|(rep & Hu & Hne)]; destruct Hr as [?|(lf' & ?)]; by simplify_eq. }
    simpl. split; [done|]. split; [done|]. right. eexists. split; [done|]. right. exists lf. unfold KvSrv.Get. simpl.
    rewrite (Hm i Hi). by destruct (Nat.ltb_spec i nk); [|lia].
  - destruct Hop as [-> _]. by destruct Hu as [[? _]|(? & ? & _)].
  - done.
Qed.

Lemma return_spread m s r rep lf rep' : spread_op m s (ADone r rep lf) -> weakens lf rep rep' ->
  spread_op m (SpreadPutsSize_resume s rep') AIdle.
Proof.
  intros Hop Hw. destruct s as [i|i| |]; simpl in Hop.
  - destruct Hop as [Hi [[[?|(r' & _ & ?)] _]|(r' & lf' & _ & ? & Hm)]]; simplify_eq.
    destruct Hw as [[-> _]|[-> _]]; simpl; apply put_loop_inv; done || lia.
  - destruct Hop as (Hi & Hm & [?|(r' & _ & [?|(lf' & ?)])]); simplify_eq. destruct Hw as [[-> _]|[_ [?|?]]]; [|done..]. simpl.
    unfold CheckGet. rewrite bool_decide_eq_true_2; [by apply get_loop_inv|]. simpl. split; [done|tauto].
  - by destruct Hop.
  - done.
Qed.

Lemma put_op_ok m s p rep lf : spread_op m s (ADone (RPut p) rep lf) -> rep = put_ok.
Proof.
  destruct s as [i|i| |]; simpl; [| |by intros [? _]|done].
  - intros [Hi [[[?|(r' & _ & ?)] _]|(r' & lf' & _ & ? & Hm)]]; by simplify_eq.
  - intros (Hi & Hm & [?|(r' & [= <-] & [?|(lf' & ?)])]); by simplify_eq.
Qed.

Lemma spread_step (a a' : @asys sphase) : spread_inv a -> astep SpreadPutsSize a a' -> spread_inv a'.
Proof.
  intros (Hl & Hop & Hout) Hs.
  assert (Hc : forall c, a_op a c <> AIdle \/ SpreadPutsSize_next (a_app a c) <> None -> c = 0%nat).
  { intros c Hc. destruct (decide (c = 0%nat)) as [|Hne]; [done|]. destruct (Hout c Hne) as [Ha Ho]. rewrite Ha, Ho in Hc. by destruct Hc. }
  destruct Hs as [a c s' Ho Hloc|a c r Ho Hn|a c r lf Hu Hw|a c p rep lf Ho Hne Hsp|a c r rep lf rep' Ho Hwk|a p Hp Hw]; simpl in *.
  - done.
  - assert (c = 0%nat) as -> by (apply Hc; right; by rewrite Hn). split; [done|]. simpl. fn_upd. split; [|intros c' Hne; by fn_upd; apply Hout].
    rewrite Ho in Hop. destruct (a_app a 0%nat) as [i|i| |]; simpl in *; simplify_eq.
    + destruct Hop as [Hi [[_ Hm]|(? & ? & _ & ? & _)]]; [|done]. split; [done|]. left. eauto.
    + destruct Hop as (Hi & Hm & _). split; [done|]. split; [done|]. right. eauto.
  - assert (c = 0%nat) as -> by (apply Hc; left; destruct Hu as [[-> _]|(? & -> & _)]; done). split; [done|]. simpl. fn_upd.
    split; [by apply (serve_spread (a_st a) _ (a_op a 0%nat))|intros c' Hne; by fn_upd; apply Hout].
  - assert (c = 0%nat) as -> by (apply Hc; left; by rewrite Ho). rewrite Ho in Hop. by apply put_op_ok in Hop.
  - assert (c = 0%nat) as -> by (apply Hc; left; by rewrite Ho). split; [done|]. simpl. fn_upd. rewrite Ho in Hop.
    split; [by eapply return_spread|intros c' Hne; by fn_upd; apply Hout].
  - rewrite Hl in Hp. by apply not_elem_of_nil in Hp.
Qed.

Lemma spread_reach a : rtc (astep SpreadPutsSize) (a0 spreader) a -> spread_inv a.
Proof.
  intros Ha. assert (H1 : spread_inv (a0 spreader)).
  { split; [done|]. split; [|intros [|c]; done]. simpl. apply put_loop_inv; [|lia]. intros j Hj. unfold KvSrv.MakeKVServer.
    by rewrite lookup_empty. }
  induction Ha as [|a a' a'' Hs _ IH]; [done|]. by eapply IH, spread_step.
Qed.

(** On a fresh service, whatever the network does to its requests, the client that
    puts every key once and checks them never fails the test; when it is back all
    keys have their values at version 1. *)
Theorem spread_puts_pass {K} `{LawfulClerk K} (x0 x : sys sphase K) k :
  xinit spreader x0 -> nsteps (xstep SpreadPutsSize) k x0 x -> Z.of_nat k < 2 ^ 64 ->
  app (cl x 0%nat) <> SFatal /\
  (app (cl x 0%nat) = SBack -> forall i, (i < length va)%nat -> CheckGet (KvSrv.Get (st x) (mkGetArgs (key_at i))) (val_at i) 1 = true).
Proof.
  intros Hi Hs Hk. destruct (steps_sim SpreadPutsSize _ x0 x k Hi Hs Hk) as (a & Ha & HR).
  destruct (spread_reach a Ha) as (_ & Hop & _). rewrite (r_app _ _ _ HR), (r_st _ _ _ HR) in Hop.
  split; [intros Hf; by rewrite Hf in Hop|]. intros Hb i Hlt. rewrite Hb in Hop. destruct Hop as [_ Hm].
  unfold CheckGet, KvSrv.Get. simpl. rewrite (Hm i Hlt). destruct (Nat.ltb_spec i nk) as [_|Hge]; [|unfold nk in Hge; lia]. simpl.
  apply bool_decide_eq_true_2. split; [done|tauto].
Qed.

End spread.
