(* ===== verification/Porcupine.v ===== *)
(** * The histories of the key/value tests

    [kvtest1/porcupine.go]: the log of operations ([OpLog]), the [Get] and [Put] of
    the tests that time a clerk's operation and log it, and [checkPorcupine], which
    gives the log to the linearizability checker with the model of
    [models1/kv.go].

    The checker itself is a library: a parameter that reports [Illegal] only for a
    history that is not linearizable.  The theorem is that clients with lawful
    clerks over an unreliable network produce linearizable histories. *)

From S2P Require Import Prelude Kv KvClerk Lock Workload Spread.
Import Models.

(** ** The log *)

Record OpLog := mkOpLog { operations : list Operation }.

Definition Len (log : OpLog) : Z := zlen (operations log).
Definition Append (log : OpLog) (op : Operation) : OpLog := mkOpLog (operations log ++ [op]).
Definition Read (log : OpLog) : list Operation := operations log.

(** [Get] and [Put], when the clerk has returned; [start] and [end_] are the times
    read before and after. *)
Definition Get (log : OpLog) (cli : Z) (key : string) (start end_ : Z) (g : GetReply) : OpLog :=
  Append log (mkOp (mkIn 0 key "" 0) (mkOut (getr_Value g) (getr_Version g) (getr_Err g)) start end_ cli).

Definition Put (log : OpLog) (cli : Z) (key value : string) (version : Tversion) (start end_ : Z) (err : Err) : OpLog :=
  Append log (mkOp (mkIn 1 key value version) (mkOut "" 0 err) start end_ cli).

(** A clerk operation returns. *)
Definition logged (log : OpLog) (cli start end_ : Z) (r : request) (rep : reply) : OpLog :=
  match r, rep with
  | RGet a, RepGet g => Get log cli (get_Key a) start end_ g
  | RPut p, RepPut q => Put log cli (put_Key p) (put_Value p) (put_Version p) start end_ (putr_Err q)
  | _, _ => Append log (observed cli start end_ r rep)
  end.

Lemma logged_observed log cli start end_ r rep :
  logged log cli start end_ r rep = Append log (observed cli start end_ r rep).
Proof. by destruct r, rep. Qed.

(** ** Linearizable *)

(** The model runs through a sequence of operations. *)
Definition run (s : KvState) (ops : list Operation) : option KvState :=
  foldl (fun o op => s ← o; let '(ok, s) := Step s (Input op) (Output op) in if (ok : bool) then Some s else None) (Some s) ops.

(** No operation is put before one that had returned before it was called. *)
Fixpoint real_time (ops : list Operation) : Prop :=
  match ops with
  | [] => True
  | p :: ops => Forall (fun q => ~ Return q < Call p) ops /\ real_time ops
  end.

Definition linearizable (history : list Operation) : Prop :=
  forall part, part ∈ Partition history -> exists ops, ops ≡ₚ part /\ real_time ops /\ accepts Init ops = true.

Lemma run_None ops :
  foldl (fun o op => s ← o; let '(ok, s) := Step s (Input op) (Output op) in if (ok : bool) then Some s else None) None ops = None.
Proof. by induction ops. Qed.

Lemma run_cons s op ops : run s (op :: ops) =
  let '(ok, s') := Step s (Input op) (Output op) in if (ok : bool) then run s' ops else None.
Proof. unfold run. simpl. destruct (Step s (Input op) (Output op)) as [[] s']; [done|apply run_None]. Qed.

Lemma run_app s ops ops' : run s (ops ++ ops') = (s' ← run s ops; run s' ops').
Proof.
  revert s. induction ops as [|op ops IH]; intros s; [done|]. rewrite <- app_comm_cons, !run_cons.
  destruct (Step s (Input op) (Output op)) as [[] s']; [apply IH|done].
Qed.

Lemma run_accepts s ops s' : run s ops = Some s' -> accepts s ops = true.
Proof.
  revert s. induction ops as [|op ops IH]; intros s; [done|]. rewrite run_cons. simpl.
  destruct (Step s (Input op) (Output op)) as [[] s1]; [apply IH|done].
Qed.

Lemma real_time_filter (P : Operation -> Prop) `{!forall op, Decision (P op)} ops : real_time ops -> real_time (filter P ops).
Proof.
  induction ops as [|p ops IH]; simpl; [done|]. intros [Hp Ho]. rewrite filter_cons. case_decide; [|by apply IH].
  split; [|by apply IH]. apply Forall_forall. intros q Hq%list_elem_of_filter. destruct Hq as [_ Hq]. by rewrite Forall_forall in Hp; apply Hp.
Qed.

(** ** Recording a run

    The times are read before the clerk is called and after it has returned, on a
    monotonic clock: [before i] and [after i] when the call or the return is the
    [i]-th event. *)
Section record.
Context (before after : nat -> Z) (before_after : forall i j, (i <= j)%nat -> before i <= after j).
Implicit Types (c : nat) (r : request) (h : list event).

Record recorder := mkRec { r_now : nat; starts : nat -> Z; r_log : OpLog }.

Definition on_event (s : recorder) (e : event) : recorder :=
  match e with
  | EvCall c r => mkRec (r_now s + 1) (<[c := before (r_now s)]> (starts s)) (r_log s)
  | EvRet c r rep => mkRec (r_now s + 1) (starts s) (logged (r_log s) (Z.of_nat c) (starts s c) (after (r_now s)) r rep)
  end.

Definition recorded h : recorder := foldl on_event (mkRec 0 (fun _ => 0) (mkOpLog [])) h.

Definition oplog h : list Operation := Read (r_log (recorded h)).

Lemma recorded_snoc h e : recorded (h ++ [e]) = on_event (recorded h) e.
Proof. unfold recorded. by rewrite foldl_app. Qed.

Lemma recorded_now h : r_now (recorded h) = length h.
Proof. induction h as [|e h IH] using rev_ind; [done|]. rewrite recorded_snoc, length_app. destruct e; simpl; lia. Qed.

Lemma oplog_ret h c r rep :
  oplog (h ++ [EvRet c r rep]) = oplog h ++ [observed (Z.of_nat c) (starts (recorded h) c) (after (length h)) r rep].
Proof. unfold oplog. rewrite recorded_snoc. simpl. by rewrite logged_observed, recorded_now. Qed.

(** ** The linearization, as it grows

    Its items are the operations that have taken effect; those of operations that
    have not returned yet lack their final output and time. *)

Record item := mkItem { it_c : nat; it_op : Operation; it_done : bool }.
Implicit Types (L : list item) (op : nat -> aop) (m : KvMap).

Fixpoint rt L : Prop :=
  match L with
  | [] => True
  | p :: L => Forall (fun q => it_done q = true -> ~ Return (it_op q) < Call (it_op p)) L /\ rt L
  end.

Definition undone c L : list item := filter (fun it => it_done it = false /\ it_c it = c) L.

(** The model has a case for the reply. *)
Definition modelled r rep : Prop := no_nokey (observe r rep).

#[export] Instance modelled_dec r rep : Decision (modelled r rep).
Proof. unfold modelled. apply _. Defined.

(** The item of the operation in progress. *)
Definition in_progress h c (o : aop) : list item :=
  match o with
  | ADone r rep _ =>
      if decide (modelled r rep) then [mkItem c (observed (Z.of_nat c) (starts (recorded h) c) 0 r rep) false] else []
  | _ => []
  end.

Record LI m op h L : Prop := {
  l_done : it_op <$> filter (fun it => it_done it = true) L ≡ₚ oplog h;
  l_undone c : undone c L = in_progress h c (op c);
  l_answers c r rep lf : op c = ADone r rep lf -> answers r rep;
  l_order : rt L;
  l_calls it : it ∈ L -> exists i, (i < length h)%nat /\ Call (it_op it) = before i;
  l_starts c : op c <> AIdle -> exists i, (i < length h)%nat /\ starts (recorded h) c = before i;
  l_legal k : run Init (of_key k (it_op <$> L)) = Some (state_of m k)
}.

Lemma rt_app L L' : rt (L ++ L') <->
  rt L /\ rt L' /\ Forall (fun p => Forall (fun q => it_done q = true -> ~ Return (it_op q) < Call (it_op p)) L') L.
Proof. induction L as [|p L IH]; simpl; [rewrite Forall_nil; tauto|]. rewrite Forall_app, Forall_cons, IH. tauto. Qed.

Lemma undone_app c L L' : undone c (L ++ L') = undone c L ++ undone c L'.
Proof. apply filter_app. Qed.

(** The one item of a client whose operation is in progress. *)
Lemma undone_split c L it : undone c L = [it] -> exists L1 L2, L = L1 ++ it :: L2 /\ undone c L1 = [] /\ undone c L2 = [] /\
  it_done it = false /\ it_c it = c.
Proof.
  induction L as [|x L IH]; [done|]. unfold undone. rewrite filter_cons. case_decide as Hx.
  - intros [= -> Hn]. exists [], L. destruct Hx. done.
  - intros Hu. destruct (IH Hu) as (L1 & L2 & -> & H1 & H2 & H3). exists (x :: L1), L2. split; [done|]. split; [|done].
    unfold undone. by rewrite filter_cons, decide_False.
Qed.

Lemma undone_other c c' it : it_c it <> c' -> undone c' [it] = [].
Proof. intros Hne. unfold undone. rewrite filter_cons, decide_False by tauto. done. Qed.

Lemma undone_done c it : it_done it = true -> undone c [it] = [].
Proof. intros Hd. unfold undone. rewrite filter_cons, decide_False; [done|]. rewrite Hd. by intros [? _]. Qed.

Lemma undone_hole c L1 it L2 : it_c it <> c -> undone c (L1 ++ it :: L2) = undone c (L1 ++ L2).
Proof. intros Hne. rewrite cons_middle, !undone_app, undone_other by done. done. Qed.

(** *** Steps *)

Lemma of_key_app k (ops ops' : list Operation) : of_key k (ops ++ ops') = of_key k ops ++ of_key k ops'.
Proof. apply filter_app. Qed.

Lemma of_key_one k (o : Operation) : of_key k [o] = if decide (in_Key (Input o) = k) then [o] else [].
Proof. unfold of_key. rewrite filter_cons. by case_decide. Qed.

(** Two items that the model does not tell apart in the middle of a run. *)
Lemma run_swap (k : string) (ops1 ops2 : list Operation) (os os' : list Operation) s :
  (forall s1 s2, run s1 (of_key k os) = Some s2 -> run s1 (of_key k os') = Some s2) ->
  run Init (of_key k (ops1 ++ os ++ ops2)) = Some s -> run Init (of_key k (ops1 ++ os' ++ ops2)) = Some s.
Proof.
  intros Hs. rewrite !of_key_app, !run_app. destruct (run Init (of_key k ops1)) as [s1|]; [simpl|done].
  rewrite !run_app. destruct (run s1 (of_key k os)) as [s2|] eqn:E; [simpl|done]. by rewrite (Hs _ _ E).
Qed.

(** What the model makes of an operation with this reply. *)
Definition mstep (s : KvState) r rep : bool * KvState := Step s (Input (observe r rep)) (Output (observe r rep)).

Lemma run_one (k : string) s (cli t t' : Z) r rep : run s (of_key k [observed cli t t' r rep]) =
  if decide (req_key r = k) then if fst (mstep s r rep) then Some (snd (mstep s r rep)) else None else Some s.
Proof.
  rewrite of_key_one. replace (in_Key (Input (observed cli t t' r rep))) with (req_key r) by (by destruct r).
  case_decide; [|done]. rewrite run_cons. unfold mstep, observe. destruct (Step s _ _) as [ok s'] eqn:E.
  replace (Step s (Input (observed cli t t' r rep)) (Output (observed cli t t' r rep))) with (ok, s') by (by rewrite <- E).
  by destruct ok.
Qed.

Lemma mstep_noeffect s r rep : answers r rep -> rep <> put_ok -> fst (mstep s r rep) = true -> snd (mstep s r rep) = s.
Proof.
  intros Ha Hne. destruct r as [g|p], rep as [rg|[e]]; simpl in Ha; try done. unfold mstep, Step. simpl.
  case_decide; simpl; [|done]. intros Hb%bool_decide_eq_true. destruct Hb as [->| ->]; [done|]. by destruct Ha as [?|[?|?]].
Qed.

Lemma mstep_weakens lf s r rep rep' : answers r rep -> weakens lf rep rep' -> fst (mstep s r rep) = true -> mstep s r rep' = mstep s r rep.
Proof.
  intros Ha [[-> _]|[-> Hw]]; [done|]. destruct r as [g|p], rep as [rg|[e]]; simpl in Ha; try done; [by destruct Hw|].
  unfold mstep, Step. simpl. case_decide; simpl; intros Hb%bool_decide_eq_true.
  - destruct Hb as [->| ->]; reflexivity.
  - destruct Hb as [->| ->]; reflexivity.
Qed.

Lemma LI_ext m op op' h L : (forall c, op' c = op c) -> LI m op h L -> LI m op' h L.
Proof. intros He []. split; try done; intros c; rewrite He; eauto. Qed.

(** An operation that had no effect is taken back. *)
Lemma LI_drop m op h L c r rep lf : LI m op h L -> op c = ADone r rep lf -> rep <> put_ok ->
  exists L', LI m (<[c := APend r]> op) h L'.
Proof.
  intros H Hop Hne. pose proof (l_undone _ _ _ _ H c) as Hu. rewrite Hop in Hu. simpl in Hu. case_decide as Hmod.
  2:{ exists L. destruct H. split; try done; intros c'; (destruct (decide (c' = c)) as [->|Hc]; fn_upd; [|eauto]); [done|done|].
      intros _. apply l_starts0. by rewrite Hop. }
  destruct (undone_split _ _ _ Hu) as (L1 & L2 & -> & Hu1 & Hu2 & Hd & Hc). exists (L1 ++ L2). split.
  - rewrite <- (l_done _ _ _ _ H), !filter_app, filter_cons, decide_False by (by rewrite Hd). done.
  - intros c'. destruct (decide (c' = c)) as [->|Hne']; fn_upd; [by rewrite undone_app, Hu1, Hu2|].
    rewrite <- (l_undone _ _ _ _ H c'). symmetry. apply undone_hole. congruence.
  - intros c' r' rep' lf' Ho. destruct (decide (c' = c)) as [->|Hne']; fn_upd; [done|]. by eapply (l_answers _ _ _ _ H).
  - pose proof (l_order _ _ _ _ H) as Ho. apply rt_app in Ho as (Ho1 & [_ Ho2] & Ho3). apply rt_app. split_and!; [done..|].
    eapply Forall_impl; [exact Ho3|]. intros p Hp. by inversion Hp.
  - intros it Hit. apply (l_calls _ _ _ _ H). set_solver.
  - intros c' Hc'. apply (l_starts _ _ _ _ H). destruct (decide (c' = c)) as [->|Hne']; fn_upd; [by rewrite Hop|done].
  - intros k. pose proof (l_legal _ _ _ _ H k) as Hl. rewrite !fmap_app in *. cbn [fmap list_fmap] in Hl.
    rewrite (cons_middle _ _ (it_op <$> L2)) in Hl. apply (run_swap k _ _ _ [] _) in Hl; [done|].
    intros s1 s2. cbn [it_op]. rewrite run_one. case_decide; [|done]. destruct (fst (mstep s1 r rep)) eqn:Es; [|done].
    rewrite mstep_noeffect; try done. by eapply (l_answers _ _ _ _ H).
Qed.

Lemma unmodelled_quiet m r : ~ modelled r (fst (serve m r)) -> snd (serve m r) = m.
Proof.
  destruct r as [g|p]; [done|]. pose proof (Put_cases m p) as Hc. unfold modelled, no_nokey. simpl.
  destruct (KvSrv.Put m p) as [rep m']. simpl in *. intros Hn. destruct Hc as [(-> & _)|[? _]]; [|done]. by destruct Hn.
Qed.

(** An operation takes effect. *)
Lemma LI_serve m op h L c r lf : LI m op h L -> op c = APend r ->
  exists L', LI (snd (serve m r)) (<[c := ADone r (fst (serve m r)) lf]> op) h L'.
Proof.
  intros H Hop. destruct (l_starts _ _ _ _ H c) as (i & Hi & Hst); [by rewrite Hop|].
  pose proof (l_undone _ _ _ _ H c) as Hu. rewrite Hop in Hu. simpl in Hu.
  assert (Hans : forall c' r' rep' lf', <[c := ADone r (fst (serve m r)) lf]> op c' = ADone r' rep' lf' -> answers r' rep').
  { intros c' r' rep' lf' Ho. destruct (decide (c' = c)) as [->|Hne']; fn_upd; [simplify_eq; apply serve_answers|]. by eapply (l_answers _ _ _ _ H). }
  assert (Hsts : forall c', <[c := ADone r (fst (serve m r)) lf]> op c' <> AIdle -> exists i, (i < length h)%nat /\ starts (recorded h) c' = before i).
  { intros c' Hc'. apply (l_starts _ _ _ _ H). destruct (decide (c' = c)) as [->|Hne']; fn_upd; [by rewrite Hop|done]. }
  destruct (decide (modelled r (fst (serve m r)))) as [Hm|Hm].
  2:{ exists L. rewrite (unmodelled_quiet m r Hm). split; try apply H; try done. intros c'.
      destruct (decide (c' = c)) as [->|Hne]; fn_upd; [simpl; by rewrite decide_False|apply (l_undone _ _ _ _ H)]. }
  set (it := mkItem c (observed (Z.of_nat c) (starts (recorded h) c) 0 r (fst (serve m r))) false). exists (L ++ [it]). split; try done.
  - rewrite <- (l_done _ _ _ _ H), filter_app, filter_cons, decide_False, app_nil_r by done. done.
  - intros c'. rewrite undone_app. destruct (decide (c' = c)) as [->|Hne]; fn_upd.
    + rewrite Hu. simpl. rewrite decide_True by done. unfold undone. by rewrite filter_cons, decide_True.
    + rewrite undone_other, app_nil_r by (simpl; congruence). apply (l_undone _ _ _ _ H).
  - apply rt_app. split; [apply (l_order _ _ _ _ H)|]. split; [done|]. apply Forall_true. intros p. by constructor.
  - intros it' [Hit|Hit]%elem_of_app; [by apply (l_calls _ _ _ _ H)|]. apply list_elem_of_singleton in Hit as ->. simpl. eauto.
  - intros k. rewrite fmap_app, of_key_app, run_app, (l_legal _ _ _ _ H k). simpl. rewrite run_one. case_decide as Hk.
    + subst k. unfold mstep. rewrite step_served by done. done.
    + unfold state_of, val_of, ver_of. by rewrite serve_other.
Qed.

(** An operation returns. *)
Lemma LI_return m op h L c r rep lf rep' : LI m op h L -> op c = ADone r rep lf -> weakens lf rep rep' -> modelled r rep' ->
  exists L', LI m (<[c := AIdle]> op) (h ++ [EvRet c r rep']) L'.
Proof.
  intros H Hop Hw Hmod'. pose proof (l_answers _ _ _ _ H c _ _ _ Hop) as Ha.
  assert (Hmod : modelled r rep).
  { destruct Hw as [[-> _]|[_ [->| ->]]]; [done|..]; destruct r; done. }
  pose proof (l_undone _ _ _ _ H c) as Hu. rewrite Hop in Hu. simpl in Hu. rewrite decide_True in Hu by done.
  destruct (undone_split _ _ _ Hu) as (L1 & L2 & -> & Hu1 & Hu2 & _ & _).
  set (start := starts (recorded h) c) in *. set (it := mkItem c (observed (Z.of_nat c) start 0 r rep) false) in *.
  set (it' := mkItem c (observed (Z.of_nat c) start (after (length h)) r rep') true). exists (L1 ++ it' :: L2).
  assert (Hlen : forall i, (i < length h)%nat -> (i < length (h ++ [EvRet c r rep']))%nat) by (intros; rewrite length_app; lia).
  assert (Hrec : forall c', starts (recorded (h ++ [EvRet c r rep'])) c' = starts (recorded h) c') by (intros; by rewrite recorded_snoc).
  split.
  - rewrite oplog_ret, <- (l_done _ _ _ _ H), !filter_app, !filter_cons. rewrite decide_True, decide_False by done.
    rewrite !fmap_app, fmap_cons, <- app_assoc. apply Permutation_app_head. simpl. by rewrite Permutation_cons_append.
  - intros c'. destruct (decide (c' = c)) as [->|Hne]; fn_upd.
    + by rewrite cons_middle, !undone_app, Hu1, Hu2, undone_done.
    + rewrite undone_hole by (simpl; congruence). pose proof (l_undone _ _ _ _ H c') as Hc'. rewrite undone_hole in Hc' by (simpl; congruence).
      rewrite Hc'. unfold in_progress. by rewrite Hrec.
  - intros c' r1 rep1 lf1 Ho. destruct (decide (c' = c)) as [->|Hne']; fn_upd; [done|]. by eapply (l_answers _ _ _ _ H).
  - pose proof (l_order _ _ _ _ H) as Ho. apply rt_app in Ho as (Ho1 & [Ho2 Ho2'] & Ho3). apply rt_app. split_and!; [done|by split|].
    rewrite Forall_forall in *. intros p Hp. specialize (Ho3 p Hp). inversion Ho3; subst. constructor; [|done]. intros _. simpl.
    destruct (l_calls _ _ _ _ H p) as (i & Hi & ->); [set_solver|]. pose proof (before_after i (length h) ltac:(lia)). lia.
  - intros x Hx. assert (Hx' : x = it' \/ x ∈ L1 ++ it :: L2) by set_solver. destruct Hx' as [->|Hx'].
    + destruct (l_starts _ _ _ _ H c) as (i & Hi & Hst); [by rewrite Hop|]. simpl. eauto.
    + destruct (l_calls _ _ _ _ H x Hx') as (i & Hi & Hc). eauto.
  - intros c' Hc'. destruct (decide (c' = c)) as [->|Hne']; fn_upd; [done|].
    destruct (l_starts _ _ _ _ H c' Hc') as (i & Hi & Hst). rewrite Hrec. eauto.
  - intros k. pose proof (l_legal _ _ _ _ H k) as Hl. rewrite fmap_app, fmap_cons in *.
    
    eapply (run_swap k _ _ [it_op it] [it_op it']); [|exact Hl].
    intros s1 s2. cbn [it_op it it']. rewrite !run_one. case_decide; [|done]. destruct (fst (mstep s1 r rep)) eqn:Es; [|done].
    by rewrite (mstep_weakens lf s1 r rep rep' Ha Hw Es), Es.
Qed.

(** An operation is invoked. *)
Lemma LI_invoke m op h L c r : LI m op h L -> op c = AIdle -> LI m (<[c := APend r]> op) (h ++ [EvCall c r]) L.
Proof.
  intros H Hop. assert (Hlen : forall i, (i < length h)%nat -> (i < length (h ++ [EvCall c r]))%nat) by (intros; rewrite length_app; lia).
  assert (Hrec : forall c', c' <> c -> starts (recorded (h ++ [EvCall c r])) c' = starts (recorded h) c').
  { intros c' Hne. rewrite recorded_snoc. simpl. by fn_upd. }
  split; try apply H.
  - rewrite (l_done _ _ _ _ H). unfold oplog. by rewrite recorded_snoc.
  - intros c'. rewrite (l_undone _ _ _ _ H c'). destruct (decide (c' = c)) as [->|Hne]; fn_upd; [by rewrite Hop|].
    unfold in_progress. by rewrite Hrec.
  - intros c' r1 rep1 lf1 Ho. destruct (decide (c' = c)) as [->|Hne']; fn_upd; [done|]. by eapply (l_answers _ _ _ _ H).
  - intros it Hit. destruct (l_calls _ _ _ _ H it Hit) as (i & Hi & Hc). eauto.
  - intros c' Hc'. destruct (decide (c' = c)) as [->|Hne'].
    + exists (length h). split; [rewrite length_app; simpl; lia|]. rewrite recorded_snoc. simpl. fn_upd. by rewrite recorded_now.
    + fn_upd. destruct (l_starts _ _ _ _ H c' Hc') as (i & Hi & Hst). rewrite Hrec by done. eauto.
Qed.

(** *** Runs *)

(** A program whose puts never stay behind in the network with their version still
    to come. *)
Class LateFree {S} (P : program S) (s0 : nat -> S) := late_free a : rtc (astep P) (a0 s0) a -> a_late a = [].

Context {S : Type} (P : program S) (s0 : nat -> S).

Lemma LI_init : LI KvSrv.MakeKVServer (fun _ => AIdle) [] [].
Proof.
  split; try done. - intros it Hit. by apply not_elem_of_nil in Hit.
Qed.

Lemma oplog_step (a a' : @asys S) : astep P a a' -> exists ops, oplog (a_hist a') = oplog (a_hist a) ++ ops.
Proof.
  intros Hs. destruct Hs; simpl; try (exists []; by rewrite app_nil_r).
  - exists []. unfold oplog. by rewrite recorded_snoc, app_nil_r.
  - rewrite oplog_ret. by eexists.
Qed.

Lemma LI_step (a a' : @asys S) L : LI (a_st a) (a_op a) (a_hist a) L -> astep P a a' -> a_late a' = [] ->
  Forall no_nokey (oplog (a_hist a')) -> exists L', LI (a_st a') (a_op a') (a_hist a') L'.
Proof.
  intros H Hs Hl Hn. destruct Hs as [a c s' Ho Hloc|a c r Ho Hx|a c r lf Hu Hw|a c p rep lf Ho Hne Hsp|a c r rep lf rep' Ho Hwk|a p Hp Hw]; simpl in *.
  - by exists L.
  - exists L. by apply LI_invoke.
  - destruct Hu as [[Hu ->]|(rep & Hu & Hne)]; [by eapply LI_serve|].
    destruct (LI_drop _ _ _ _ _ _ _ _ H Hu Hne) as (L' & H'). destruct (LI_serve _ _ _ _ c r lf H') as (L'' & H''); [by fn_upd|].
    exists L''. eapply LI_ext; [|exact H'']. intros c'. destruct (decide (c' = c)) as [->|Hc]; by fn_upd.
  - done.
  - eapply LI_return; [done..|]. rewrite oplog_ret in Hn. apply Forall_app in Hn as [_ Hn]. inversion Hn; subst. by destruct r, rep'.
  - rewrite Hl in Hp. by apply not_elem_of_nil in Hp.
Qed.

Lemma LI_reach `{!LateFree P s0} (a : @asys S) : rtc (astep P) (a0 s0) a -> Forall no_nokey (oplog (a_hist a)) ->
  exists L, LI (a_st a) (a_op a) (a_hist a) L.
Proof.
  intros Hr. revert a Hr. apply (rtc_ind_r (fun a => Forall no_nokey (oplog (a_hist a)) -> exists L, LI (a_st a) (a_op a) (a_hist a) L)).
  - intros _. exists []. apply LI_init.
  - intros a a' Hr Hs IH Hn. destruct (oplog_step _ _ Hs) as [ops Hops]. destruct IH as [L HL].
    { rewrite Hops in Hn. by apply Forall_app in Hn as [? _]. }
    eapply LI_step; [done..| |done]. apply late_free. by eapply rtc_r.
Qed.

Lemma all_done (L : list item) : (forall c, undone c L = []) -> Forall (fun it => it_done it = true) L.
Proof.
  intros Hu. apply Forall_forall. intros it Hit. destruct (it_done it) eqn:E; [done|]. exfalso.
  apply (not_elem_of_nil it). rewrite <- (Hu (it_c it)). unfold undone. apply list_elem_of_filter. done.
Qed.

Lemma filter_done (L : list item) : Forall (fun it => it_done it = true) L -> filter (fun it => it_done it = true) L = L.
Proof. induction 1 as [|it L Hd _ IH]; [done|]. by rewrite filter_cons, decide_True, IH. Qed.

Lemma rt_real_time (L : list item) : Forall (fun it => it_done it = true) L -> rt L -> real_time (it_op <$> L).
Proof.
  induction 1 as [|it L Hd Hall IH]; [done|]. intros [Hf Hr]. rewrite fmap_cons. split; [|by apply IH].
  apply Forall_fmap. rewrite Forall_forall in *. intros q Hq. simpl. auto.
Qed.

(** C9: the histories of the tests are linearizable.  Any number of clients, each
    with a lawful clerk, over a network that loses, delays and repeats requests, run
    a program of which no put can stay behind in the network with its version still
    to come ([LateFree]; the instances below show it for the lock, the concurrent put
    test, [PutAtLeastOnce] and [SpreadPutsSize]; without it the claim is false, see
    [Ahead]).  Each operation is timed and logged as [kvtest1/porcupine.go] does.
    When no operation is in progress, and no logged put was answered [ErrNoKey], for
    which the model has no case, the log is linearizable for the model of
    [models1/kv.go]: for each key there is an order of its operations that respects
    real time and that the model accepts. *)
Theorem history_linearizable `{!LateFree P s0} {K} `{LawfulClerk K} (x0 x : sys S K) k :
  xinit s0 x0 -> nsteps (xstep P) k x0 x -> Z.of_nat k < 2 ^ 64 ->
  (forall c, pend (cl x c) = None) -> Forall no_nokey (oplog (hist x)) -> linearizable (oplog (hist x)).
Proof.
  intros Hi Hs Hk Hidle Hn part (key & ->)%Partition_keys.
  destruct (steps_sim P s0 x0 x k Hi Hs Hk) as (a & Ha & HR). rewrite <- (r_hist _ _ _ HR) in *.
  destruct (LI_reach a Ha Hn) as (L & HL). assert (Hd : Forall (fun it => it_done it = true) L).
  { apply all_done. intros c. rewrite (l_undone _ _ _ _ HL), (r_idle _ _ _ HR) by done. done. }
  exists (of_key key (it_op <$> L)). split_and!.
  - unfold of_key. by rewrite <- (l_done _ _ _ _ HL), filter_done.
  - apply real_time_filter, rt_real_time; [done|apply (l_order _ _ _ _ HL)].
  - by eapply run_accepts, (l_legal _ _ _ _ HL).
Qed.

End record.

(** ** The programs of the tests *)

#[export] Instance lock_late_free (lks : nat -> Lock) (Hid : forall c, lk_id (lks c) <> "")
  (Hdistinct : forall c c', lockname (lks c) = lockname (lks c') -> lk_id (lks c) = lk_id (lks c') -> c = c') :
  LateFree (lock_program lks) (fun _ => Out).
Proof. intros a Ha. by destruct (lock_J lks Hid Hdistinct (fun _ => Out) a (fun _ => eq_refl) Ha). Qed.

#[export] Instance put_late_free Marshal Unmarshal key n (HM : forall e, Unmarshal (Marshal e) = Some e) :
  LateFree (OneClientPut Marshal Unmarshal key) (spawned n).
Proof. intros a Ha. destruct (winv_reach Marshal Unmarshal key HM n a Ha) as (oks & maybes & H). apply (w_late _ _ _ _ _ _ H). Qed.

#[export] Instance once_late_free keys values (Hinj : forall c c', keys c = keys c' -> c = c') :
  LateFree (PutAtLeastOnce keys values) (fun _ => mkOs OPut 0).
Proof.
  intros a Ha. destruct (O_reach keys values Hinj KvSrv.MakeKVServer (fun _ => mkOs OPut 0) a) as [Hl _]; [|done|done].
  intros c. split; [done|]. unfold ver_of, KvSrv.MakeKVServer. by rewrite lookup_empty.
Qed.

#[export] Instance spread_late_free va : LateFree (SpreadPutsSize va) (spreader va).
Proof. intros a Ha. by destruct (spread_reach va a Ha). Qed.

(** ** checkPorcupine *)

Inductive CheckResult := Ok | Illegal | Unknown.

Section check.
(* porcupine.CheckOperationsVerbose with the model of models1/kv.go *)
Context (CheckOperations : list Operation -> CheckResult).

(** Does the test fail, and with which last annotation is a history visualized?
    [enabled] is VIS_ENABLE, [opened] that the file could be opened or created,
    [finalized] what [GetAnnotationFinalized] returns. *)
Definition checkPorcupine (opLog : OpLog) (enabled : string) (opened finalized : bool) : bool * option string :=
  match CheckOperations (Read opLog) with
  | Illegal => (true, if opened then if decide (enabled <> "never") then Some "test failed" else None else None)
  | _ => (false, if decide (enabled = "always" /\ finalized = true) then if opened then Some "test passed" else None else None)
  end.

(* an illegal history is not linearizable *)
Context (Illegal_sound : forall history, CheckOperations history = Illegal -> ~ linearizable history).

(** The check at the end of a test passes on a linearizable log. *)
Lemma checkPorcupine_passes log enabled opened finalized :
  linearizable (Read log) -> fst (checkPorcupine log enabled opened finalized) = false.
Proof.
  intros Hl. unfold checkPorcupine. destruct (CheckOperations (Read log)) eqn:E; [done| |done]. by apply Illegal_sound in E.
Qed.

End check.

(** ** A run: the two clients of [WorkloadDemo]. *)
Module PorcupineDemo.

Definition before (i : nat) : Z := 2 * Z.of_nat i.
Definition after (i : nat) : Z := 2 * Z.of_nat i + 1.

Definition history : list Operation := oplog before after (hist WorkloadDemo.x24).

Lemma history_linearizable_witness : linearizable history /\ length history = 6%nat.
Proof.
  split; [|vm_compute; reflexivity].
  assert (Hs : nsteps (xstep WorkloadDemo.P) 24 WorkloadDemo.x0 WorkloadDemo.x24)
    by (apply (schedule_steps WorkloadDemo.P WorkloadDemo.own WorkloadDemo.own_local WorkloadDemo.acts); vm_compute; reflexivity).
  refine (history_linearizable before after _ WorkloadDemo.P (spawned 2) WorkloadDemo.x0 WorkloadDemo.x24 24 _ Hs _ _ _).
  - unfold before, after. lia.
  - apply put_late_free, WorkloadDemo.Unmarshal_Marshal.
  - split_and!; try reflexivity. intros c. split; reflexivity.
  - lia.
  - intros [|[|c]]; vm_compute; reflexivity.
  - apply (bool_decide_unpack _). vm_compute. exact I.
Defined.

End PorcupineDemo.

(** ** Puts ahead of time

    Why programs have to be [LateFree].  Client 0 puts a version that the key has not
    reached; its first request is delayed, the second one is answered [ErrVersion],
    and the clerk returns [ErrMaybe].  The delayed request is executed after client 1
    has put the version before: a put takes effect after it has returned. *)
Module Ahead.

#[export] Instance real_time_dec ops : Decision (real_time ops).
Proof. induction ops as [|p ops IH]; simpl; apply _. Defined.

(** Linearizability by trying every order. *)
Definition orders (history : list Operation) : bool :=
  forallb (fun part => existsb (fun ops => bool_decide (real_time ops) && accepts Init ops) (permutations part)) (Partition history).

Lemma linearizable_orders history : linearizable history -> orders history = true.
Proof.
  intros H. apply forallb_forall. intros part Hp%list_elem_of_In. destruct (H part Hp) as (ops & Hperm & Hr & Ha).
  apply existsb_exists. exists ops. split; [|rewrite Ha, andb_true_r; by apply bool_decide_eq_true_2].
  apply list_elem_of_In. by apply permutations_Permutation.
Qed.

Definition put (v : string) (ver : Tversion) : request := RPut (mkPutArgs "x" v ver).

Definition clients (c : nat) : list request * list reply :=
  match c with
  | 0%nat => ([put "b" 2], [])
  | 1%nat => ([put "a" 0; put "c" 1; RGet (mkGetArgs "x")], [])
  | _ => ([], [])
  end.

Definition x0 : sys (list request * list reply) unit := mkSys KvSrv.MakeKVServer (fun c => mkCl (clients c) tt None) ∅ ∅ 0 [].

Definition acts : list act :=
  [Invoke 1; Exec 0; Receive 1; Invoke 0; TimeOut 0; Exec 2; Receive 0;
   Invoke 1; Exec 3; Receive 1; Exec 1; Invoke 1; Exec 4; Receive 1]%nat.

Definition x14 : sys (list request * list reply) unit := default x0 (schedule ClerkDemo.batch (fun _ _ _ => None) x0 acts).

(** A run of lawful clerks, all of whose operations have returned, with replies that
    the model knows, and a history that is not linearizable. *)
Theorem ahead_not_linearizable : exists x : sys (list request * list reply) unit,
  xinit clients x0 /\ nsteps (xstep ClerkDemo.batch) 14 x0 x /\ (forall c, pend (cl x c) = None) /\
  Forall no_nokey (oplog PorcupineDemo.before PorcupineDemo.after (hist x)) /\
  ~ linearizable (oplog PorcupineDemo.before PorcupineDemo.after (hist x)).
Proof.
  exists x14. split_and!.
  - split_and!; try reflexivity. intros c. split; reflexivity.
  - refine (schedule_steps (K := unit) ClerkDemo.batch (fun _ _ _ => None) _ acts x0 x14 _); [done|]. vm_compute. reflexivity.
  - intros [|[|c]]; vm_compute; reflexivity.
  - apply (bool_decide_unpack _). vm_compute. exact I.
  - intros H%linearizable_orders. revert H. vm_compute. discriminate.
Qed.

End Ahead.
