(* ===== verification/Rsm.v ===== *)
(** * The replicated state machine layer

    [kvraft1/rsm/rsm.go]: operations wrapped into [Op]s and replicated as opaque
    bytes ([encodeOp], [decodeOp]); [Submit], split at the points where its
    goroutine waits; the body of the [readApplyCh] loop.  Go channels are cells
    of a heap: a buffered channel of capacity one is open, with or without a
    value, or closed. Sending on a closed channel, closing twice and sending to
    a full channel with the lock held are failures ([None]).

    [kvraft1/rsm/server.go]: the counter service the tests replicate. *)

From S2P Require Import Prelude Gob Wal Raft RaftNet RaftDemo Kv.

Record Op (Req : Type) := mkOp { Opcommad : Req; HashNum : Z }.
Arguments mkOp {Req}.
Arguments Opcommad {Req}.
Arguments HashNum {Req}.

#[export] Instance Op_eq_dec {Req} `{EqDecision Req} : EqDecision (Op Req).
Proof. solve_decision. Defined.

#[export] Program Instance Op_countable {Req} `{Countable Req} : Countable (Op Req) :=
  inj_countable' (fun o => (Opcommad o, HashNum o)) (fun '(r, h) => mkOp r h) _.
Next Obligation. intros ??? []. done. Qed.

Section codec.
Context {Req : Type} `{!Gob (Op Req)}.

Definition encodeOp (op : Op Req) : list byte := gob_enc op.

(** [None] is the panic. *)
Definition decodeOp (data : list byte) : option (Op Req) := gob_decode data.

Lemma decode_encode_op op : decodeOp (encodeOp op) = Some op.
Proof. apply gob_roundtrip. Qed.

End codec.

(** The service.  [DoOp] is given the Raft index of the operation; it stops the
    process on an operation of the wrong type, as [Restore] does on bytes it
    cannot decode. *)
Class StateMachine (S Req Res : Type) := {
  DoOp : S -> Z -> Req -> option (Res * S);
  sm_Snapshot : S -> list byte;
  sm_Restore : S -> list byte -> option S
}.
#[export] Hint Mode StateMachine ! - - : typeclass_instances.

Inductive chan (Res : Type) := Open (buf : option Res) | Closed.
Arguments Open {Res}.
Arguments Closed {Res}.

Record RSM (S Res : Type) := mkRSM {
  maxraftstate : Z;
  sm : S;
  chMap : gmap Z nat;
  hashNumMap : gmap Z Z;
  chans : gmap nat (chan Res);
  nextChan : nat
}.
Arguments mkRSM {S Res}.
Arguments maxraftstate {S Res}.
Arguments sm {S Res}.
Arguments chMap {S Res}.
Arguments hashNumMap {S Res}.
Arguments chans {S Res}.
Arguments nextChan {S Res}.

(** What a waiting [Submit] keeps on its stack. *)
Record ticket := mkTicket { tk_logId : Z; tk_term : Z; tk_ch : nat; tk_hash : Z }.

(** The three cases of the [select]. *)
Inductive wake := WRecv | WPoll | WTimeout.

Section rsm.
Context {W : Type} `{!WAL W} {S Req Res : Type} `{!StateMachine S Req Res} `{!Gob (Op Req)}.
Implicit Types (r : RSM S Res) (rf : Raft W).

Definition MakeRSM (limit : Z) (s : S) : RSM S Res := mkRSM limit s ∅ ∅ ∅ 0.

Definition set_chan (ch : nat) (v : chan Res) r : RSM S Res :=
  mkRSM (maxraftstate r) (sm r) (chMap r) (hashNumMap r) (<[ch := v]> (chans r)) (nextChan r).

Definition set_sm (s : S) r : RSM S Res :=
  mkRSM (maxraftstate r) s (chMap r) (hashNumMap r) (chans r) (nextChan r).

(** [ch <- v] *)
Definition chan_send (ch : nat) (v : Res) r : option (RSM S Res) :=
  match chans r !! ch with Some (Open None) => Some (set_chan ch (Open (Some v)) r) | _ => None end.

(** [close(ch)] *)
Definition chan_close (ch : nat) r : option (RSM S Res) :=
  match chans r !! ch with Some (Open _) => Some (set_chan ch Closed r) | _ => None end.

(** [delete(rsm.chMap, logId); delete(rsm.hashNumMap, logId)] *)
Definition forget (logId : Z) r : RSM S Res :=
  mkRSM (maxraftstate r) (sm r) (delete logId (chMap r)) (delete logId (hashNumMap r))
    (chans r) (nextChan r).

(** [rsm.hashNumMap[logId] = hashNum; rsm.chMap[logId] = ch], for a new channel. *)
Definition register (logId hashNum : Z) r : RSM S Res :=
  mkRSM (maxraftstate r) (sm r) (<[logId := nextChan r]> (chMap r))
    (<[logId := hashNum]> (hashNumMap r)) (<[nextChan r := Open None]> (chans r)) (nextChan r + 1).

(** [Submit] up to the [select] loop.  Raft may change between [GetState], at
    [rf0], and the locked section, at [rf]. *)
Definition Submit rf0 rf r (hashNum : Z) (req : Req) : option ((Err + ticket) * Raft W * RSM S Res) :=
  if snd (GetState rf0) then
    '(logId, t, ok, rf) ← Start rf (Some (encodeOp (mkOp req hashNum)));
    if negb ok then Some (inl ErrWrongLeader, rf, r)
    else
      r1 ← (match chMap r !! logId with Some oldCh => chan_close oldCh r | None => Some r end);
      Some (inr (mkTicket logId t (nextChan r1) hashNum), rf, register logId hashNum r1)
  else Some (inl ErrWrongLeader, rf, r).

(** One round of the [select] loop: it stays blocked (outer [None]), goes round
    again (inner [None]) or returns. *)
Definition Submit_wait rf r (tk : ticket) (w : wake) : option (option (Err * option Res) * RSM S Res) :=
  match w with
  | WRecv =>
      match chans r !! tk_ch tk with
      | Some (Open (Some res)) => Some (Some (OK, Some res), set_chan (tk_ch tk) (Open None) r)
      | Some Closed => Some (Some (ErrWrongLeader, None), r)
      | _ => None
      end
  | WPoll =>
      let '(newTerm, rfIsLeader) := GetState rf in
      if decide (rfIsLeader = false \/ newTerm <> tk_term tk)
      then Some (Some (ErrWrongLeader, None), forget (tk_logId tk) r)
      else Some (None, r)
  | WTimeout => Some (Some (ErrWrongLeader, None), forget (tk_logId tk) r)
  end.

(** The waiter of an applied operation, if there is one, gets its result. *)
Definition answer r (index : Z) (op : Op Req) (res : Res) : option (RSM S Res) :=
  match chMap r !! index with
  | Some ch =>
      if decide (hashNumMap r !! index = Some (HashNum op)) then chan_send ch res r else chan_close ch r
  | None => Some r
  end.

(** The body of [readApplyCh]: the new state, and the arguments of [rf.Snapshot]
    when it is called. *)
Definition readApplyCh rf r (msg : ApplyMsg) : option (RSM S Res * option (Z * list byte)) :=
  if am_CommandValid msg then
    data ← am_Command msg;
    op ← decodeOp data;
    '(res, s) ← DoOp (sm r) (am_CommandIndex msg) (Opcommad op);
    r ← answer (set_sm s r) (am_CommandIndex msg) op res;
    let r := forget (am_CommandIndex msg) r in
    Some (r, if decide (maxraftstate r <> -1 /\ maxraftstate r < PersistBytes rf)
             then Some (am_CommandIndex msg, sm_Snapshot (sm r)) else None)
  else if am_SnapshotValid msg then
    data ← am_Snapshot msg; s ← sm_Restore (sm r) data; Some (set_sm s r, None)
  else Some (r, None).

(** ** Channels are used safely *)

(** The channel of every registered index is open and empty, and belongs to that
    index only. *)
Record rsm_ok r : Prop := {
  ro_open i ch : chMap r !! i = Some ch -> chans r !! ch = Some (Open None) /\ (ch < nextChan r)%nat;
  ro_inj i j ch : chMap r !! i = Some ch -> chMap r !! j = Some ch -> i = j;
  ro_chans ch v : chans r !! ch = Some v -> (ch < nextChan r)%nat
}.

Lemma MakeRSM_ok limit s : rsm_ok (MakeRSM limit s).
Proof. by split. Qed.

Lemma forget_ok i r : rsm_ok r -> rsm_ok (forget i r).
Proof.
  intros [H1 H2 H3]. split; simpl; [| |done].
  - intros j ch [_ Hj]%lookup_delete_Some. eauto.
  - intros j k ch [_ Hj]%lookup_delete_Some [_ Hk]%lookup_delete_Some. eauto.
Qed.

(** Any use of the channel of index [i], once the index is forgotten. *)
Lemma set_forget_ok i ch v r : rsm_ok r -> chMap r !! i = Some ch -> rsm_ok (forget i (set_chan ch v r)).
Proof.
  intros [H1 H2 H3] Hi. split; simpl.
  - intros j ch' [Hne Hj]%lookup_delete_Some. destruct (decide (ch = ch')) as [<-|Hc]; [by destruct Hne; eauto|].
    rewrite lookup_insert_ne by done. eauto.
  - intros j k ch' [_ Hj]%lookup_delete_Some [_ Hk]%lookup_delete_Some. eauto.
  - intros ch' v' [[<- _]|[_ ?]]%lookup_insert_Some; [by destruct (H1 _ _ Hi)|eauto].
Qed.

Lemma register_ok i h r : rsm_ok (forget i r) -> rsm_ok (register i h r).
Proof.
  intros [H1 H2 H3]. simpl in *.
  assert (Hlt : forall j ch, j <> i -> chMap r !! j = Some ch ->
    chans r !! ch = Some (Open None) /\ (ch < nextChan r)%nat).
  { intros j ch Hne Hj. apply (H1 j). by rewrite lookup_delete_ne. }
  split; simpl.
  - intros j ch [[<- <-]|[Hne Hj]]%lookup_insert_Some; [rewrite lookup_insert_eq; split; [done|lia]|].
    destruct (Hlt j ch (not_eq_sym Hne) Hj). rewrite lookup_insert_ne by lia. split; [done|lia].
  - intros j k ch [[<- <-]|[Hne Hj]]%lookup_insert_Some [[<- E]|[Hne' Hk]]%lookup_insert_Some; auto.
    + apply Hlt in Hk; [lia|congruence].
    + apply Hlt in Hj; [lia|congruence].
    + apply (H2 j k ch); rewrite lookup_delete_ne; done.
  - intros ch v [[<- _]|[_ Hv]]%lookup_insert_Some; [lia|]. apply H3 in Hv. lia.
Qed.

Lemma Submit_ok rf0 rf r hash req x :
  rsm_ok r -> Start rf (Some (encodeOp (mkOp req hash))) = Some x ->
  exists o rf' r', Submit rf0 rf r hash req = Some (o, rf', r') /\ rsm_ok r'.
Proof.
  intros Hr Hs. destruct x as [[[logId t] ok] rf']. unfold Submit. destruct (snd (GetState rf0)); [|eauto 6].
  rewrite Hs. simpl. destruct ok; simpl; [|eauto 6].
  destruct (chMap r !! logId) as [ch|] eqn:E; simpl.
  - unfold chan_close. rewrite (proj1 (ro_open _ Hr _ _ E)). simpl. eexists _, _, _. split; [done|].
    by apply register_ok, set_forget_ok.
  - eexists _, _, _. split; [done|]. by apply register_ok, forget_ok.
Qed.

(** What the applier leaves behind for a command. *)
Lemma answer_cases r i op res :
  rsm_ok r ->
  exists r', answer r i op res = Some r' /\ rsm_ok (forget i r') /\
    (r' = r /\ chMap r !! i = None \/
     exists ch, chMap r !! i = Some ch /\
       (r' = set_chan ch (Open (Some res)) r /\ hashNumMap r !! i = Some (HashNum op) \/
        r' = set_chan ch Closed r)).
Proof.
  intros Hr. unfold answer. destruct (chMap r !! i) as [ch|] eqn:E.
  - unfold chan_send, chan_close. rewrite (proj1 (ro_open _ Hr _ _ E)).
    dcase; eexists; (split; [done|]); (split; [by apply set_forget_ok|]); eauto 6.
  - exists r. split; [done|]. split; [by apply forget_ok|auto].
Qed.

Lemma readApplyCh_command rf r msg data op res s :
  rsm_ok r -> am_CommandValid msg = true -> am_Command msg = Some data -> decodeOp data = Some op ->
  DoOp (sm r) (am_CommandIndex msg) (Opcommad op) = Some (res, s) ->
  exists r' snap, readApplyCh rf r msg = Some (forget (am_CommandIndex msg) r', snap) /\
    answer (set_sm s r) (am_CommandIndex msg) op res = Some r' /\
    rsm_ok (forget (am_CommandIndex msg) r').
Proof.
  intros Hr Hv Hd Ho Hdo. unfold readApplyCh. rewrite Hv, Hd. simpl. rewrite Ho. simpl. rewrite Hdo. simpl.
  assert (Hs : rsm_ok (set_sm s r)) by (by destruct Hr).
  destruct (answer_cases (set_sm s r) (am_CommandIndex msg) op res Hs) as (r' & -> & Hok & _).
  simpl. eauto.
Qed.

Lemma Submit_wait_ok rf r tk w o r' : rsm_ok r -> Submit_wait rf r tk w = Some (o, r') -> rsm_ok r'.
Proof.
  intros Hr Hw. destruct w; simpl in Hw.
  - destruct (chans r !! tk_ch tk) as [[[res|]|]|] eqn:E; simplify_eq; [|done].
    destruct Hr as [H1 H2 H3]. split; simpl; [|done|].
    + intros i ch Hi. destruct (decide (tk_ch tk = ch)) as [<-|Hne]; [|rewrite lookup_insert_ne by done; eauto].
      rewrite lookup_insert_eq. split; [done|eauto].
    + intros ch v [[<- _]|[_ ?]]%lookup_insert_Some; eauto.
  - destruct (GetState rf) as [t b]. dcase; simplify_eq; [by apply forget_ok|done].
  - simplify_eq. by apply forget_ok.
Qed.

(** C33: the channels of the replication layer are used safely.  With every
    registered channel open and empty, [Submit] never closes a channel twice and
    fails only if [Raft.Start] does, the applier never blocks or panics on a
    channel and fails only on bytes that do not decode or an operation the
    service rejects, and both keep the channels that way. *)
Theorem rsm_channels_safe rf0 rf r hash req msg :
  rsm_ok r ->
  (forall x, Start rf (Some (encodeOp (mkOp req hash))) = Some x -> exists o rf' r',
     Submit rf0 rf r hash req = Some (o, rf', r') /\ rsm_ok r') /\
  (forall data op x, am_CommandValid msg = true -> am_Command msg = Some data -> decodeOp data = Some op ->
     DoOp (sm r) (am_CommandIndex msg) (Opcommad op) = Some x ->
     exists r' snap, readApplyCh rf r msg = Some (r', snap) /\ rsm_ok r') /\
  (forall tk w o r', Submit_wait rf r tk w = Some (o, r') -> rsm_ok r').
Proof.
  intros Hr. split_and!.
  - intros x Hs. by eapply Submit_ok.
  - intros data op [res s] Hv Hd Ho Hdo.
    destruct (readApplyCh_command rf r msg data op res s Hr Hv Hd Ho Hdo) as (r' & snap & ? & _ & ?). eauto.
  - intros tk w o r'. by apply Submit_wait_ok.
Qed.

(** ** A replica's clients get the right answers *)

Record rstate := mkRS {
  rs_rsm : RSM S Res;
  rs_waiting : list ticket;
  rs_applied : list (Z * Op Req * Res);   (* what [DoOp] returned, by index *)
  rs_answered : list (ticket * Res)       (* the [Submit]s that returned [OK] *)
}.

Definition applied_by (s : S) (msg : ApplyMsg) : list (Z * Op Req * Res) :=
  if am_CommandValid msg then
    match am_Command msg ≫= decodeOp with
    | Some op => match DoOp s (am_CommandIndex msg) (Opcommad op) with
                 | Some (res, _) => [(am_CommandIndex msg, op, res)] | None => [] end
    | None => []
    end
  else [].

(** Calls of [Submit], wake-ups of waiting ones and applied messages, in any
    order, whatever Raft's state is at each of them. *)
Inductive rstep : rstate -> rstate -> Prop :=
| RS_submit x rf0 rf hash req tk rf' r' :
    Submit rf0 rf (rs_rsm x) hash req = Some (inr tk, rf', r') ->
    rstep x (mkRS r' (tk :: rs_waiting x) (rs_applied x) (rs_answered x))
| RS_refuse x rf0 rf hash req e rf' r' :
    Submit rf0 rf (rs_rsm x) hash req = Some (inl e, rf', r') ->
    rstep x (mkRS r' (rs_waiting x) (rs_applied x) (rs_answered x))
| RS_again x rf tk w r' :
    tk ∈ rs_waiting x -> Submit_wait rf (rs_rsm x) tk w = Some (None, r') ->
    rstep x (mkRS r' (rs_waiting x) (rs_applied x) (rs_answered x))
| RS_return x rf tk w waiting e res r' :
    rs_waiting x ≡ₚ tk :: waiting -> Submit_wait rf (rs_rsm x) tk w = Some (Some (e, res), r') ->
    rstep x (mkRS r' waiting (rs_applied x)
               (match res with Some v => [(tk, v)] | None => [] end ++ rs_answered x))
| RS_apply x rf msg r' snap :
    readApplyCh rf (rs_rsm x) msg = Some (r', snap) ->
    rstep x (mkRS r' (rs_waiting x) (applied_by (sm (rs_rsm x)) msg ++ rs_applied x) (rs_answered x)).

Definition rinit (limit : Z) (s : S) : rstate := mkRS (MakeRSM limit s) [] [] [].

Definition justified (x : rstate) (tk : ticket) (res : Res) : Prop :=
  exists op, (tk_logId tk, op, res) ∈ rs_applied x /\ HashNum op = tk_hash tk.

(** A waiting ticket and its channel. *)
Record tk_ok (x : rstate) (tk : ticket) : Prop := {
  to_ch : (tk_ch tk < nextChan (rs_rsm x))%nat;
  to_map i : chMap (rs_rsm x) !! i = Some (tk_ch tk) ->
    i = tk_logId tk /\ hashNumMap (rs_rsm x) !! i = Some (tk_hash tk);
  to_val res : chans (rs_rsm x) !! tk_ch tk = Some (Open (Some res)) -> justified x tk res
}.

Record rinv (x : rstate) : Prop := {
  ri_ok : rsm_ok (rs_rsm x);
  ri_nodup : NoDup (tk_ch <$> rs_waiting x);
  ri_tk tk : tk ∈ rs_waiting x -> tk_ok x tk;
  ri_got tk res : (tk, res) ∈ rs_answered x -> justified x tk res
}.

Lemma justified_mono x x' tk res :
  rs_applied x ⊆ rs_applied x' -> justified x tk res -> justified x' tk res.
Proof. intros Hs (op & Hop & ?). exists op. auto. Qed.

(** A ticket that neither gets a value nor a registration. *)
Lemma tk_ok_mono x x' tk :
  tk_ok x tk -> (nextChan (rs_rsm x) <= nextChan (rs_rsm x'))%nat -> rs_applied x ⊆ rs_applied x' ->
  (forall i, chMap (rs_rsm x') !! i = Some (tk_ch tk) ->
     chMap (rs_rsm x) !! i = Some (tk_ch tk) /\
     hashNumMap (rs_rsm x') !! i = hashNumMap (rs_rsm x) !! i) ->
  (forall res, chans (rs_rsm x') !! tk_ch tk = Some (Open (Some res)) ->
     chans (rs_rsm x) !! tk_ch tk = Some (Open (Some res))) ->
  tk_ok x' tk.
Proof.
  intros [H1 H2 H3] Hn Ha Hm Hc. split; [lia| |].
  - intros i Hi. destruct (Hm i Hi) as [Hi' ->]. auto.
  - intros res Hres. eapply justified_mono; eauto.
Qed.

Lemma rinv_submit x rf0 rf hash req tk rf' r' :
  rinv x -> Submit rf0 rf (rs_rsm x) hash req = Some (inr tk, rf', r') ->
  rinv (mkRS r' (tk :: rs_waiting x) (rs_applied x) (rs_answered x)).
Proof.
  intros [Hok Hnd Htk Hgot] Hs. pose proof (Submit_ok rf0 rf (rs_rsm x) hash req) as Hok'.
  unfold Submit in Hs, Hok'. destruct (snd (GetState rf0)); [|done].
  destruct (Start rf _) as [[[[logId t] ok] rf1]|]; [|done]. simpl in *.
  destruct (Hok' _ Hok eq_refl) as (o & ? & ? & E & Hok''). clear Hok'. destruct ok; simpl in *; [|done].
  destruct (match chMap (rs_rsm x) !! logId with
            | Some oldCh => chan_close oldCh (rs_rsm x) | None => Some (rs_rsm x) end) as [r1|] eqn:Em;
    simplify_eq/=.
  assert (Hr1 : nextChan r1 = nextChan (rs_rsm x) /\ chMap r1 = chMap (rs_rsm x) /\
    hashNumMap r1 = hashNumMap (rs_rsm x) /\
    forall ch res, chans r1 !! ch = Some (Open (Some res)) -> chans (rs_rsm x) !! ch = Some (Open (Some res))).
  { destruct (chMap (rs_rsm x) !! logId) as [old|]; [|by simplify_eq].
    unfold chan_close in Em. destruct (chans (rs_rsm x) !! old) as [[buf|]|]; simplify_eq/=.
    split_and!; auto. intros ch res [[_ ?]|[_ ?]]%lookup_insert_Some; done. }
  destruct Hr1 as (En & Ec & Eh & Hch). rewrite ?En in *.
  assert (Hlt : forall tk', tk' ∈ rs_waiting x -> (tk_ch tk' < nextChan (rs_rsm x))%nat) by (intros; by apply Htk).
  split; simpl; [done| | |].
  - constructor; [|done]. intros (tk' & E & Hin)%list_elem_of_fmap. apply Hlt in Hin. lia.
  - intros tk' [->|Hin]%elem_of_cons.
    + split; simpl; rewrite ?En; [lia| |by rewrite lookup_insert_eq].
      intros i [[<- _]|[Hne Hi]]%lookup_insert_Some; [by rewrite lookup_insert_eq|].
      rewrite Ec in Hi. apply (ro_open _ Hok) in Hi as [_ ?]. lia.
    + pose proof (Hlt _ Hin). eapply tk_ok_mono; [by apply Htk|simpl; lia|done|..]; simpl; rewrite ?En, ?Ec, ?Eh.
      * intros i [[_ ?]|[Hne Hi]]%lookup_insert_Some; [lia|]. by rewrite lookup_insert_ne.
      * intros res. rewrite lookup_insert_ne by lia. apply Hch.
  - intros tk' res Hin. destruct (Hgot _ _ Hin) as (op & ? & ?). by exists op.
Qed.

Lemma rinv_apply x rf msg r' snap :
  rinv x -> readApplyCh rf (rs_rsm x) msg = Some (r', snap) ->
  rinv (mkRS r' (rs_waiting x) (applied_by (sm (rs_rsm x)) msg ++ rs_applied x) (rs_answered x)).
Proof.
  intros [Hok Hnd Htk Hgot] Ha.
  assert (Hsub : rs_applied x ⊆ applied_by (sm (rs_rsm x)) msg ++ rs_applied x) by set_solver.
  assert (Hgot' : forall r tk res, (tk, res) ∈ rs_answered x ->
    justified (mkRS r (rs_waiting x) (applied_by (sm (rs_rsm x)) msg ++ rs_applied x) (rs_answered x)) tk res).
  { intros r tk res Hin. eapply justified_mono; [exact Hsub|auto]. }
  destruct (am_CommandValid msg) eqn:Hv.
  2: { assert (Hr' : exists s, r' = set_sm s (rs_rsm x)).
       { unfold readApplyCh in Ha. rewrite Hv in Ha. destruct (am_SnapshotValid msg).
         - destruct (am_Snapshot msg); [|done]. simpl in Ha. destruct (sm_Restore _ _); simplify_eq/=. eauto.
         - simplify_eq. exists (sm (rs_rsm x)). by destruct (rs_rsm x). }
       destruct Hr' as [s ->]. split; simpl; auto; [by destruct Hok|].
       intros tk Hin. by eapply tk_ok_mono; [by apply Htk|simpl..]. }
  destruct (am_Command msg) as [data|] eqn:Hd; [|by unfold readApplyCh in Ha; rewrite Hv, Hd in Ha].
  destruct (decodeOp data) as [op|] eqn:Ho;
    [|unfold readApplyCh in Ha; rewrite Hv, Hd in Ha; simpl in Ha; by rewrite Ho in Ha].
  set (i := am_CommandIndex msg) in *.
  destruct (DoOp (sm (rs_rsm x)) i (Opcommad op)) as [[res s]|] eqn:Hdo;
    [|unfold readApplyCh in Ha; rewrite Hv, Hd in Ha; simpl in Ha; rewrite Ho in Ha; simpl in Ha; by fold i in Ha; rewrite Hdo in Ha].
  destruct (readApplyCh_command rf (rs_rsm x) msg data op res s Hok Hv Hd Ho Hdo) as (r1 & snap' & Ha' & Han & Hok').
  rewrite Ha in Ha'. simplify_eq. fold i in Han, Hok' |- *.
  assert (Happ : applied_by (sm (rs_rsm x)) msg = [(i, op, res)]).
  { unfold applied_by. rewrite Hd, Hv. simpl. rewrite Ho. fold i. by rewrite Hdo. }
  rewrite Happ in *. split; simpl; auto. intros tk Hin.
  destruct (answer_cases (set_sm s (rs_rsm x)) i op res)
    as (r2 & E2 & _ & Hcase); [by destruct Hok|]. rewrite Han in E2. simplify_eq/=.
  assert (Hmap : forall m (h : gmap Z Z) j, delete i m !! j = Some (tk_ch tk) ->
    (m : gmap Z nat) !! j = Some (tk_ch tk) /\ delete i h !! j = h !! j).
  { intros m h j [Hne Hj]%lookup_delete_Some. by rewrite lookup_delete_ne. }
  destruct Hcase as [[-> _]|(ch & Hch & [[-> Hh]| ->])].
  - eapply tk_ok_mono; [by apply Htk|simpl; auto..].
  - destruct (decide (tk_ch tk = ch)) as [<-|Hne].
    + pose proof (Htk _ Hin) as [T1 T2 T3]. destruct (T2 i Hch) as [Ei Et]. split; simpl; auto.
      * intros j Hj. destruct (Hmap _ (hashNumMap (rs_rsm x)) _ Hj) as [Hj' ->]. auto.
      * rewrite lookup_insert_eq. intros res' [= <-]. exists op. rewrite <- Ei. split; [set_solver|congruence].
    + eapply tk_ok_mono; [by apply Htk|simpl; auto..]. intros res'. by rewrite lookup_insert_ne.
  - eapply tk_ok_mono; [by apply Htk|simpl; auto..].
    intros res' [[_ ?]|[_ ?]]%lookup_insert_Some; done.
Qed.

Lemma rinv_return x rf tk w waiting e res r' :
  rinv x -> rs_waiting x ≡ₚ tk :: waiting ->
  Submit_wait rf (rs_rsm x) tk w = Some (Some (e, res), r') ->
  rinv (mkRS r' waiting (rs_applied x) (match res with Some v => [(tk, v)] | None => [] end ++ rs_answered x)).
Proof.
  intros [Hok Hnd Htk Hgot] Hp Hw. pose proof (Submit_wait_ok _ _ _ _ _ _ Hok Hw) as Hok'.
  assert (Hsub : forall tk', tk' ∈ waiting -> tk_ok x tk' /\ tk_ch tk' <> tk_ch tk).
  { intros tk' Hin. split; [apply Htk; rewrite Hp; set_solver|]. rewrite Hp in Hnd. simpl in Hnd.
    apply NoDup_cons in Hnd as [Hni _]. intros E. apply Hni. rewrite <- E. apply list_elem_of_fmap. eauto. }
  assert (Hnd' : NoDup (tk_ch <$> waiting)) by (rewrite Hp in Hnd; by apply NoDup_cons in Hnd as [_ ?]).
  assert (Htk0 : tk_ok x tk) by (apply Htk; rewrite Hp; set_solver).
  assert (Hforget : forall tk' i, tk_ok x tk' ->
    tk_ok (mkRS (forget i (rs_rsm x)) waiting (rs_applied x) (rs_answered x)) tk').
  { intros tk' i T. eapply tk_ok_mono; [exact T|simpl; auto..].
    intros j [Hne Hj]%lookup_delete_Some. by rewrite lookup_delete_ne. }
  destruct w; simpl in Hw.
  - destruct (chans (rs_rsm x) !! tk_ch tk) as [[[v|]|]|] eqn:E; simplify_eq/=.
    + split; simpl; auto.
      * intros tk' Hin. destruct (Hsub _ Hin) as [T Hne]. eapply tk_ok_mono; [exact T|simpl; auto..].
        intros res. by rewrite lookup_insert_ne.
      * intros tk' res [?|Hin]%elem_of_cons; [simplify_eq; by apply Htk0|by apply Hgot].
    + split; simpl; auto. intros tk' Hin. eapply tk_ok_mono; [by apply Hsub|simpl; auto..].
  - destruct (GetState rf) as [t b]. dcase; simplify_eq/=. split; simpl; auto.
    intros tk' Hin. by apply Hforget, Hsub.
  - simplify_eq/=. split; simpl; auto. intros tk' Hin. by apply Hforget, Hsub.
Qed.

Lemma rinv_step x x' : rinv x -> rstep x x' -> rinv x'.
Proof.
  intros HI Hs.
  destruct Hs as [x rf0 rf hash req tk rf' r' Hs|x rf0 rf hash req e rf' r' Hs|x rf tk w r' Hin Hw
    |x rf tk w waiting e res r' Hp Hw|x rf msg r' snap Ha].
  - by eapply rinv_submit.
  - assert (r' = rs_rsm x) as ->; [|by destruct x, HI].
    unfold Submit in Hs. destruct (snd (GetState rf0)); [|by simplify_eq].
    destruct (Start rf _) as [[[[? ?] ok] ?]|]; [|done]. simpl in Hs. destruct ok; simpl in Hs; [|by simplify_eq].
    by destruct (match chMap (rs_rsm x) !! _ with Some _ => _ | None => _ end).
  - assert (r' = rs_rsm x) as ->; [|by destruct x, HI].
    destruct w; simpl in Hw; [by destruct (chans (rs_rsm x) !! tk_ch tk) as [[[]|]|]| |done].
    destruct (GetState rf). by dcase; simplify_eq.
  - by eapply rinv_return.
  - by eapply rinv_apply.
Qed.

(** C25: a client is answered with the result of its own operation.  In any
    interleaving of submissions, polls, timeouts, applied messages and
    snapshots, under any behaviour of Raft, a [Submit] that returned [OK] with a
    result was assigned an index at which an operation with the very [HashNum]
    of this [Submit] was applied, and the result is what [DoOp] returned there. *)
Theorem submit_returns_its_result limit s x tk res :
  rtc rstep (rinit limit s) x -> (tk, res) ∈ rs_answered x ->
  exists op, (tk_logId tk, op, res) ∈ rs_applied x /\ HashNum op = tk_hash tk.
Proof.
  intros Hr Hin. assert (HI : rinv (rinit limit s)).
  { split; simpl; [apply MakeRSM_ok|apply NoDup_nil_2| |].
    - intros t Ht. by apply elem_of_nil in Ht.
    - intros t v Ht. by apply elem_of_nil in Ht. }
  assert (HI' : rinv x) by (induction Hr; eauto using rinv_step).
  by apply (ri_got _ HI').
Qed.

End rsm.

(** ** The counter service *)

Module RsmSrv.

Inductive request := Inc | Null | Dec.
Inductive response := IncRep (N : Z) | NullRep.

#[export] Instance request_eq_dec : EqDecision request.
Proof. solve_decision. Defined.
#[export] Instance request_countable : Countable request.
Proof.
  refine (inj_countable' (fun r => match r with Inc => 0%nat | Null => 1%nat | Dec => 2%nat end)
    (fun n => match n with 0%nat => Inc | 1%nat => Null | _ => Dec end) _).
  by intros [].
Defined.

Section srv.
Context `{!Gob Z}.

(** [log.Fatalf] on anything but [Inc] and [Null]. *)
Definition DoOp (counter : Z) (_ : Z) (req : request) : option (response * Z) :=
  match req with
  | Inc => Some (IncRep (counter + 1), counter + 1)
  | Null => Some (NullRep, counter)
  | Dec => None
  end.

Definition Snapshot (counter : Z) : list byte := gob_enc counter.

Definition Restore (_ : Z) (data : list byte) : option Z := gob_decode data.

#[export] Instance counter_sm : StateMachine Z request response := {|
  Rsm.DoOp := DoOp; sm_Snapshot := Snapshot; sm_Restore := Restore
|}.

End srv.
End RsmSrv.

(** ** A run on the leader of [RaftDemo] *)

Module RsmDemo.
Import RsmSrv.

#[local] Instance Z_gob : Gob Z := bit_gob.
#[local] Instance op_gob : Gob (Op request) := bit_gob.

Definition leader : Raft Journal := c_node demo "a".
Definition r0 : RSM Z response := MakeRSM 1000 0.
Definition tk : ticket := mkTicket 3 (term leader) 0 7.
Definition msg : ApplyMsg := commandMsg (mkEntry (Some (encodeOp (mkOp Inc 7))) 1) 3.
Definition r1 : RSM Z response := register 3 7 r0.
Definition r2 : RSM Z response := forget 3 (set_chan 0 (Open (Some (IncRep 1))) (set_sm 1 r1)).
Definition x3 : rstate :=
  mkRS (set_chan 0 (Open None) r2) [] [(3, mkOp Inc 7, IncRep 1)] [(tk, IncRep 1)].

Lemma submit_run : exists rf', Submit leader leader r0 7 Inc = Some (inr tk, rf', r1).
Proof. eexists. vm_compute. reflexivity. Qed.

Lemma r0_ok : rsm_ok r0.
Proof. apply MakeRSM_ok. Qed.

Lemma rsm_channels_safe_witness :
  (exists o rf' r', Submit leader leader r0 7 Inc = Some (o, rf', r') /\ rsm_ok r') /\
  (exists r' snap, readApplyCh leader r0 msg = Some (r', snap) /\ rsm_ok r').
Proof.
  destruct (rsm_channels_safe leader leader r0 7 Inc msg r0_ok) as (H1 & H2 & _).
  split.
  - destruct submit_run as (rf' & E). unfold Submit in E.
    destruct (Start leader (Some (encodeOp (mkOp Inc 7)))) as [x|] eqn:Es.
    + exact (H1 x eq_refl).
    + exfalso. destruct (snd (GetState leader)) eqn:El; [discriminate E|]. vm_compute in El. discriminate El.
  - apply (H2 (encodeOp (mkOp Inc 7)) (mkOp Inc 7) (IncRep 1, 1)); [reflexivity|reflexivity|vm_compute; reflexivity..].
Defined.

Lemma x3_reach : rtc (rstep (W := Journal)) (rinit 1000 0) x3.
Proof.
  destruct submit_run as (rf' & E).
  eapply rtc_l; [exact (RS_submit (rinit 1000 0) leader leader 7 Inc tk rf' r1 E)|].
  eapply rtc_l; [apply (RS_apply _ leader msg r2 None); vm_compute; reflexivity|].
  apply rtc_once.
  apply (RS_return (mkRS r2 [tk] [(3, mkOp Inc 7, IncRep 1)] []) leader tk WRecv [] OK (Some (IncRep 1)));
    [reflexivity|vm_compute; reflexivity].
Qed.

Lemma submit_returns_its_result_witness :
  exists op, (3, op, IncRep 1) ∈ rs_applied x3 /\ HashNum op = 7.
Proof.
  apply (submit_returns_its_result (W := Journal) 1000 0 x3 tk (IncRep 1)).
  - exact x3_reach.
  - apply list_elem_of_here.
Defined.

End RsmDemo.
