(* ===== verification/KvStore.v ===== *)
(** * The replicated key/value server and its stores

    - [kvraft1/kvstore.go]: the [KVStore] interface as a class with its laws, and
      the in-memory [mapStore];
    - [kvraft1/pebblestore/pebblestore.go]: the store on a pebble database, over
      interfaces of what it uses of pebble and of archive/tar; the directories it
      changes are a state, and [Restore] goes through the calls of the operating
      system one by one, so that a crash can come after any of them;
    - [kvraft1/server.go]: [KVServer.DoOp] and the RPC handlers, over any store;
      how the two servers start, on entries that may be applied before the snapshot
      is restored; recovery of a durable store by replay, with the apply index as a
      guard. *)

From Stdlib Require Import Strings.Byte.
From S2P Require Import Prelude Gob Kv Rsm.

(** ** The interface *)

Class KVStore (S : Type) := {
  store_Get : S -> string -> option (string * Tversion * bool);   (* [None]: panic *)
  store_Put : S -> Z -> string -> string -> Tversion -> S;
  AppliedIndex : S -> Z;
  store_Snapshot : S -> list byte;
  store_Restore : S -> list byte -> option S
}.
#[export] Hint Mode KVStore ! : typeclass_instances.

(** A Go [int] that is not negative. *)
Definition int_ok (i : Z) : Prop := 0 <= i < 2 ^ 63.

(** [kv_holds s m a]: the store has contents [m] and apply index [a];
    [kv_dedup]: it keeps an apply index. *)
Class LawfulKVStore (S : Type) `{KVStore S} := {
  kv_holds : S -> KvMap -> Z -> Prop;
  kv_dedup : bool;
  kv_Get s m a k : kv_holds s m a ->
    store_Get s k = Some (match m !! k with Some e => (value e, version e, true) | None => ("", 0, false) end);
  kv_Put s m a i k v n : kv_holds s m a -> int_ok i ->
    kv_holds (store_Put s i k v n) (<[k := mkKvEntry v n]> m) (if kv_dedup then i else a);
  kv_Applied s m a : kv_holds s m a -> AppliedIndex s = a;
  kv_Snapshot s m a s0 : kv_holds s m a ->
    exists s', store_Restore s0 (store_Snapshot s) = Some s' /\ kv_holds s' m a
}.

(** ** The in-memory store *)

Section mapstore.
Context `{!Gob KvMap}.

Record mapStore := mkMapStore { ms_m : KvMap }.

Definition newMapStore : mapStore := mkMapStore ∅.

Definition ms_Get (s : mapStore) (key : string) : option (string * Tversion * bool) :=
  Some (match ms_m s !! key with
        | Some e => (value e, version e, true)
        | None => ("", 0, false)
        end).

Definition ms_Put (s : mapStore) (_ : Z) (key value : string) (version : Tversion) : mapStore :=
  mkMapStore (<[key := mkKvEntry value version]> (ms_m s)).

Definition ms_AppliedIndex (s : mapStore) : Z := -1.

Definition ms_Snapshot (s : mapStore) : list byte := gob_enc (ms_m s).

Definition ms_Restore (_ : mapStore) (data : list byte) : option mapStore :=
  mkMapStore <$> gob_decode data.

#[export] Instance mapStore_store : KVStore mapStore := {|
  store_Get := ms_Get; store_Put := ms_Put; AppliedIndex := ms_AppliedIndex;
  store_Snapshot := ms_Snapshot; store_Restore := ms_Restore
|}.

#[export] Program Instance mapStore_lawful : LawfulKVStore mapStore := {|
  kv_holds s m a := ms_m s = m /\ a = -1;
  kv_dedup := false
|}.
Next Obligation. by intros s m a k [<- _]. Qed.
Next Obligation. by intros s m a i k v n [<- ->] _. Qed.
Next Obligation. by intros s m a [_ ->]. Qed.
Next Obligation.
  intros s m a s0 [<- ->]. exists s. simpl. unfold ms_Restore, ms_Snapshot. rewrite gob_roundtrip. by destruct s.
Qed.

End mapstore.

(** ** The store on pebble

    What is used of a pebble database: point reads, an atomically committed
    and synced batch of writes, a checkpoint directory and opening a directory.
    A directory is its files in the order [filepath.Walk] visits them, each with
    its path below the directory.  The laws are pebble's documented behaviour of
    a batch, of a synced commit, of a checkpoint and of a new directory. *)

Abbreviation files := (list (string * list byte)).

Class PebbleDB (D : Type) := {
  db_Get : D -> list byte -> option (list byte);
  db_Commit : D -> list (list byte * list byte) -> D;
  db_files : D -> files;                (* the directory of an open database *)
  db_Checkpoint : D -> files;
  db_Open : files -> D;
  db_Get_Commit_one d k v k' :
    db_Get (db_Commit d [(k, v)]) k' = if decide (k' = k) then Some v else db_Get d k';
  db_Commit_app d b1 b2 : forall k, db_Get (db_Commit d (b1 ++ b2)) k = db_Get (db_Commit (db_Commit d b1) b2) k;
  db_Open_files d k : db_Get (db_Open (db_files d)) k = db_Get d k;
  db_Open_Checkpoint d k : db_Get (db_Open (db_Checkpoint d)) k = db_Get d k;
  db_Open_new k : db_Get (db_Open []) k = None;
  db_Checkpoint_names d : NoDup (db_Checkpoint d).*1
}.
#[export] Hint Mode PebbleDB ! : typeclass_instances.

(** What is used of archive/tar: a writer appends a header with the contents of
    the file, and a trailer when it is closed; a reader gives the next header,
    [io.EOF] (inner [None]) or an error (outer [None]). *)
Class Tar := {
  tw_file : string -> list byte -> list byte;
  tw_close : list byte;
  tr_next : list byte -> option (option (string * list byte * list byte));
  tar_next n b rest : tr_next (tw_file n b ++ rest) = Some (Some (n, b, rest));
  tar_eof : tr_next tw_close = Some None;
  tw_file_nonempty n b : tw_file n b <> []
}.

(** The directories below the parent of the store's, and code that changes them
    call by call: the states a crash can leave behind, the state at the end, and
    the result, [None] when [must] panics. *)
Abbreviation disk := (gmap string files).
Definition io (A : Type) : Type := disk -> list disk * disk * option A.

#[export] Instance io_ret : MRet io := fun A x k => ([], k, Some x).
#[export] Instance io_bind : MBind io := fun A B f m k =>
  let '(ks, k, r) := m k in
  match r with
  | None => (ks, k, None)
  | Some x => let '(ks', k', r') := f x k in (ks ++ ks', k', r')
  end.

(** One call of the operating system that succeeds. *)
Definition os_call (f : disk -> disk) : io unit := fun k => ([f k], f k, Some tt).
Definition panic {A} : io A := fun k => ([], k, None).

Definition RemoveAll (dir : string) : io unit := os_call (delete dir).
Definition MkdirAll (dir : string) : io unit :=
  os_call (fun k => match k !! dir with Some _ => k | None => <[dir := []]> k end).
Definition Rename (src dst : string) : io unit := fun k =>
  match k !! src, default [] (k !! dst) with
  | Some d, [] => os_call (fun k => <[dst := d]> (delete src k)) k
  | _, _ => panic k
  end.

(** [os.Create] and the copy: a file that exists is overwritten. *)
Definition put_file (d : files) (name : string) (b : list byte) : files :=
  match list_find (fun e => e.1 = name) d with
  | Some (i, _) => <[i := (name, b)]> d
  | None => d ++ [(name, b)]
  end.
Definition write_file (dir name : string) (b : list byte) : io unit :=
  os_call (fun k => <[dir := put_file (default [] (k !! dir)) name b]> k).

Lemma put_file_new d name b : name ∉ d.*1 -> put_file d name b = d ++ [(name, b)].
Proof.
  intros Hn. unfold put_file. destruct (list_find _ d) as [[i e]|] eqn:E; [|done]. exfalso.
  apply list_find_Some in E as (He & Hf & _). apply Hn, list_elem_of_fmap. exists e. split; [done|].
  by eapply list_elem_of_lookup_2.
Qed.

Module Pebble.
Section pebble.
Context {D : Type} `{!PebbleDB D} `{!Gob kvEntry} {TarPkg : Tar}.

(** The store, with the disk it is on. *)
Record Store := mkStore { dir : string; sdisk : disk; db : D }.

Definition appliedKey : list byte := [Byte.x00].
Definition userKey (k : string) : list byte := Byte.x01 :: String.list_byte_of_string k.

Definition encodeEntry (e : kvEntry) : list byte := gob_enc e.
(** [None] is the panic of [must]. *)
Definition decodeEntry (b : list byte) : option kvEntry := gob_decode b.

(** Eight bytes, big-endian; back through a [uint64] to an [int]. *)
Definition encodeIndex (i : Z) : list byte := put_u32 (Z.shiftr i 32) ++ put_u32 i.
Definition decodeIndex (b : list byte) : Z :=
  let u := default 0 (get_u32 b) * 2 ^ 32 + default 0 (get_u32 (drop 4 b)) in
  if decide (u < 2 ^ 63) then u else u - 2 ^ 64.

Definition Get (s : Store) (key : string) : option (string * Tversion * bool) :=
  match db_Get (db s) (userKey key) with
  | None => Some ("", 0, false)
  | Some v => e ← decodeEntry v; Some (value e, version e, true)
  end.

Definition Put (s : Store) (index : Z) (key value : string) (version : Tversion) : Store :=
  let db := db_Commit (db s) [(userKey key, encodeEntry (mkKvEntry value version));
                              (appliedKey, encodeIndex index)] in
  mkStore (dir s) (<[dir s := db_files db]> (sdisk s)) db.

Definition AppliedIndex (s : Store) : Z :=
  match db_Get (db s) appliedKey with None => 0 | Some v => decodeIndex v end.

(** [pebble.Open]: a directory that does not exist is a new database. *)
Definition pebble_Open (dir : string) : io D := fun k =>
  let db := db_Open (default [] (k !! dir)) in
  let k := <[dir := db_files db]> k in
  ([k], k, Some db).

Definition Open (dir : string) : io Store := fun k =>
  let '(ks, k, r) := pebble_Open dir k in (ks, k, mkStore dir k <$> r).

(** The archive of the files of a directory, in the order of the walk. *)
Definition tarDir (d : files) : list byte :=
  foldr (fun e out => tw_file e.1 e.2 ++ out) tw_close d.

(** The loop over the archive; the outer [option] is fuel that has run out. *)
Fixpoint untarLoop (fuel : nat) (data : list byte) (dir : string) (k : disk)
    : option (list disk * disk * option unit) :=
  match fuel with
  | O => None
  | S fuel =>
      match tr_next data with
      | None => Some (panic k)
      | Some None => Some ([], k, Some tt)
      | Some (Some (name, b, rest)) =>
          let '(ks, k, _) := write_file dir name b k in
          '(ks', k', r) ← untarLoop fuel rest dir k;
          Some (ks ++ ks', k', r)
      end
  end.

(** The default is never taken on an archive: [untarDir_tarDir]. *)
Definition untarFiles (data : list byte) (dir : string) : io unit := fun k =>
  default (panic k) (untarLoop (S (length data)) data dir k).

Definition untarDir (data : list byte) (dir : string) : io unit :=
  _ ← MkdirAll dir;
  untarFiles data dir.

(** The temporary directory of the checkpoint is removed again. *)
Definition Snapshot (s : Store) : list byte := tarDir (db_Checkpoint (db s)).

Definition Restore (s : Store) (data : list byte) : io D :=
  let newDir := (dir s +:+ ".restore")%string in
  _ ← RemoveAll newDir;
  _ ← untarDir data newDir;
  _ ← os_call (fun k => k);                       (* s.db.Close() *)
  _ ← RemoveAll (dir s);
  _ ← Rename newDir (dir s);
  pebble_Open (dir s).

Definition Restore_store (s : Store) (data : list byte) : option Store :=
  let '(_, k, r) := Restore s data (sdisk s) in mkStore (dir s) k <$> r.

#[global] Instance pebble_store : KVStore Store := {|
  store_Get := Get; store_Put := Put; KvStore.AppliedIndex := AppliedIndex;
  store_Snapshot := Snapshot; store_Restore := Restore_store
|}.

Lemma decode_encode_index i : int_ok i -> decodeIndex (encodeIndex i) = i.
Proof.
  intros [H0 H1]. unfold decodeIndex, encodeIndex. rewrite get_put_u32.
  rewrite drop_app_length' by done. rewrite <- (app_nil_r (put_u32 i)), get_put_u32. simpl default.
  rewrite Z.shiftr_div_pow2 by lia.
  rewrite (Z.mod_small (i / 2 ^ 32)) by (split; [apply Z.div_pos; lia|apply Z.div_lt_upper_bound; lia]).
  pose proof (Z.div_mod i (2 ^ 32) ltac:(lia)). rewrite decide_True by lia. lia.
Qed.

Lemma userKey_inj k k' : userKey k = userKey k' -> k = k'.
Proof.
  unfold userKey. intros [= E]. rewrite <- (String.string_of_list_byte_of_string k), E.
  apply String.string_of_list_byte_of_string.
Qed.

(** The contents of a database, and of the one the directory of the store holds. *)
Record dholds (d : D) (m : KvMap) (a : Z) : Prop := {
  dh_get k : db_Get d (userKey k) = encodeEntry <$> m !! k;
  dh_idx : (db_Get d appliedKey = None /\ a = 0) \/
           (db_Get d appliedKey = Some (encodeIndex a) /\ int_ok a)
}.

Record pholds (s : Store) (m : KvMap) (a : Z) : Prop := {
  ph_db : dholds (db s) m a;
  ph_disk : sdisk s !! dir s = Some (db_files (db s))
}.

Lemma dholds_ext d d' m a : (forall k, db_Get d' k = db_Get d k) -> dholds d m a -> dholds d' m a.
Proof. intros E [H1 H2]. split; [intros k|]; rewrite E; auto. Qed.

Lemma dholds_new : dholds (db_Open []) ∅ 0.
Proof. split; [intros k; by rewrite db_Open_new|left; by rewrite db_Open_new]. Qed.

(** ** Unpacking an archive *)

Lemma length_tarDir d : (length d <= length (tarDir d))%nat.
Proof.
  induction d as [|[n b] d IH]; simpl; [lia|]. rewrite length_app.
  pose proof (tw_file_nonempty n b) as Hne. destruct (tw_file n b); [done|]. simpl. lia.
Qed.

(** The files arrive one by one; nothing but the target directory changes. *)
Lemma untarLoop_tarDir d : forall fuel dir k d0,
  (length d < fuel)%nat -> k !! dir = Some d0 -> NoDup (d0 ++ d).*1 ->
  exists ks, untarLoop fuel (tarDir d) dir k = Some (ks, <[dir := d0 ++ d]> k, Some tt) /\
    Forall (fun k' => forall p, p <> dir -> k' !! p = k !! p) ks.
Proof.
  induction d as [|[n b] d IH]; intros fuel dir k d0 Hf Hk Hnd;
    (destruct fuel as [|fuel]; [simpl in Hf; lia|]); simpl.
  - rewrite tar_eof, app_nil_r. exists []. split; [|done]. by rewrite insert_id.
  - rewrite tar_next. simpl.
    assert (Hn : n ∉ d0.*1).
    { rewrite fmap_app in Hnd. apply NoDup_app in Hnd as (_ & Hd & _). intros Hin. apply (Hd n Hin). by left. }
    rewrite Hk. simpl. rewrite put_file_new by done. fold (tarDir d).
    destruct (IH fuel dir (<[dir := d0 ++ [(n, b)]]> k) (d0 ++ [(n, b)])) as (ks & -> & Hks).
    { simpl in Hf. lia. }
    { apply lookup_insert_eq. }
    { by rewrite <- app_assoc. }
    simpl. eexists. rewrite insert_insert_eq, <- app_assoc. split; [done|].
    constructor; [intros p Hp; by rewrite lookup_insert_ne|].
    eapply Forall_impl; [exact Hks|]. intros k' Hk' p Hp. rewrite (Hk' p Hp). by rewrite lookup_insert_ne.
Qed.

Lemma untarDir_tarDir d dir k :
  NoDup d.*1 -> k !! dir = None ->
  exists ks, untarDir (tarDir d) dir k = (ks, <[dir := d]> k, Some tt) /\
    Forall (fun k' => forall p, p <> dir -> k' !! p = k !! p) ks.
Proof.
  intros Hnd Hk. unfold untarDir, untarFiles, MkdirAll, os_call, mbind, io_bind. rewrite Hk.
  destruct (untarLoop_tarDir d (S (length (tarDir d))) dir (<[dir := []]> k) []) as (ks & -> & Hks).
  { pose proof (length_tarDir d). lia. }
  { apply lookup_insert_eq. }
  { done. }
  simpl. eexists. rewrite insert_insert_eq. split; [done|].
  constructor; [intros p Hp; by rewrite lookup_insert_ne|].
  eapply Forall_impl; [exact Hks|]. intros k' Hk' p Hp. rewrite (Hk' p Hp). by rewrite lookup_insert_ne.
Qed.

Lemma restore_ne dir : (dir +:+ ".restore")%string <> dir.
Proof.
  intros H. apply (f_equal String.length) in H. revert H. induction dir as [|c dir IH]; simpl; [done|]. intros [= H]. auto.
Qed.

(** [Restore], call by call: until the old directory is removed nothing there
    has changed; then there is none; then there is the new one. *)
Lemma Restore_runs s (d : D) :
  exists ks1 k2 k3 k4,
    Restore s (tarDir (db_Checkpoint d)) (sdisk s) =
      (ks1 ++ [k2; k3; k4], k4, Some (db_Open (db_Checkpoint d))) /\
    Forall (fun k => k !! dir s = sdisk s !! dir s) ks1 /\
    k2 !! dir s = None /\ k3 !! dir s = Some (db_Checkpoint d) /\
    k4 !! dir s = Some (db_files (db_Open (D := D) (db_Checkpoint d))).
Proof.
  pose proof (restore_ne (dir s)) as Hne. unfold Restore.
  set (nd := (dir s +:+ ".restore")%string) in *. set (f := db_Checkpoint d).
  destruct (untarDir_tarDir f nd (delete nd (sdisk s))) as (ks & Hu & Hks).
  { apply db_Checkpoint_names. }
  { apply lookup_delete_eq. }
  unfold mbind, io_bind, RemoveAll, os_call, Rename, pebble_Open. rewrite Hu.
  rewrite insert_delete_eq. rewrite lookup_delete_ne by done. rewrite lookup_insert_eq.
  rewrite lookup_delete_eq. simpl. rewrite lookup_insert_eq. simpl.
  eexists (delete nd (sdisk s) :: ks ++ [<[nd := f]> (sdisk s)]), _, _, _. split_and!.
  - simpl. rewrite <- !app_assoc. simpl. done.
  - constructor; [by rewrite lookup_delete_ne|]. apply Forall_app. split.
    + eapply Forall_impl; [exact Hks|]. intros k Hk. rewrite (Hk _ (not_eq_sym Hne)). by rewrite lookup_delete_ne.
    + constructor; [|done]. by rewrite lookup_insert_ne.
  - apply lookup_delete_eq.
  - apply lookup_insert_eq.
  - apply lookup_insert_eq.
Qed.

#[global] Program Instance pebble_lawful : LawfulKVStore Store := {|
  kv_holds := pholds;
  kv_dedup := true
|}.
Next Obligation.
  intros s m a k [[Hg _] _]. simpl. unfold Get. rewrite Hg. destruct (m !! k) as [e|]; [|done]. simpl.
  unfold decodeEntry, encodeEntry. by rewrite gob_roundtrip.
Qed.
Next Obligation.
  intros s m a i k v n [[Hg _] _] Hi. simpl. unfold Put.
  set (b1 := (userKey k, encodeEntry (mkKvEntry v n))). set (b2 := (appliedKey, encodeIndex i)).
  pose proof (db_Commit_app (db s) [b1] [b2]) as Hc. simpl in Hc.
  pose proof (db_Get_Commit_one (D := D)) as Hone. split; simpl; [|apply lookup_insert_eq]. split.
  - intros k'. rewrite Hc. unfold b2. rewrite Hone, decide_False by done. unfold b1. rewrite Hone.
    destruct (decide (k' = k)) as [->|Hne].
    + by rewrite decide_True, lookup_insert_eq.
    + rewrite decide_False, lookup_insert_ne by (congruence || (intros E; by apply userKey_inj in E)). apply Hg.
  - right. rewrite Hc. unfold b2. by rewrite Hone, decide_True.
Qed.
Next Obligation.
  intros s m a [[_ [[H ->]|[H Hi]]] _]; simpl; unfold AppliedIndex; rewrite H; [done|]. by apply decode_encode_index.
Qed.
Next Obligation.
  intros s m a s0 [Hd _]. simpl. unfold Restore_store, Snapshot.
  destruct (Restore_runs s0 (db s)) as (ks1 & k2 & k3 & k4 & -> & _ & _ & _ & H4). simpl.
  eexists. split; [done|]. split; [|done]. simpl. eapply dholds_ext; [|exact Hd]. apply db_Open_Checkpoint.
Qed.

(** What a process finds that opens the directory after a crash. *)
Definition reopened (s : Store) (k : disk) (m : KvMap) (a : Z) : Prop :=
  exists s', (Open (dir s) k).2 = Some s' /\ pholds s' m a.

Lemma reopen_ok s k f m a :
  default [] (k !! dir s) = f -> dholds (db_Open f) m a -> reopened s k m a.
Proof.
  intros Hf Hd. unfold reopened, Open, pebble_Open. rewrite Hf. simpl. eexists. split; [done|].
  split; [done|]. simpl. apply lookup_insert_eq.
Qed.

(** C12: replacing the database is not atomic, and this is all that can go wrong.  A
    store restores the snapshot of another one.  Without a crash the store ends
    with the snapshot's contents.  With a crash between any two of the calls that
    [Restore] makes (a crash inside [os.RemoveAll], which may leave a part of the old
    directory, is not considered), the process that opens the directory next finds
    the old contents, the snapshot's, or an empty database; and there is a point,
    between removing the old directory and renaming the new one, where it finds an
    empty database, whatever both stores held. *)
Theorem restore_crash_points s m a s2 m2 a2 :
  pholds s m a -> pholds s2 m2 a2 ->
  let '(ks, k, r) := Restore s (Snapshot s2) (sdisk s) in
  (exists d, r = Some d /\ dholds d m2 a2 /\ reopened s k m2 a2) /\
  Forall (fun k => reopened s k m a \/ reopened s k ∅ 0 \/ reopened s k m2 a2) ks /\
  Exists (fun k => reopened s k ∅ 0) ks.
Proof.
  intros [Hd Hdisk] [Hd2 _]. unfold Snapshot.
  destruct (Restore_runs s (db s2)) as (ks1 & k2 & k3 & k4 & -> & H1 & H2 & H3 & H4).
  assert (Hnew : dholds (db_Open (db_Checkpoint (db s2))) m2 a2)
    by (eapply dholds_ext; [|exact Hd2]; apply db_Open_Checkpoint).
  assert (Hk2 : reopened s k2 ∅ 0) by (eapply reopen_ok; [by rewrite H2|apply dholds_new]).
  assert (Hk4 : reopened s k4 m2 a2).
  { eapply reopen_ok; [by rewrite H4|]. eapply dholds_ext; [|exact Hnew]. apply db_Open_files. }
  split; [eauto|]. split.
  - apply Forall_app. split.
    + eapply Forall_impl; [exact H1|]. intros k Hk. left. eapply reopen_ok; [by rewrite Hk, Hdisk|].
      eapply dholds_ext; [|exact Hd]. apply db_Open_files.
    + constructor; [auto|]. constructor; [right; right; by eapply reopen_ok; [by rewrite H3|]|].
      by constructor; [auto|].
  - apply Exists_app. right. by left.
Qed.

End pebble.
Arguments Store : clear implicits.
End Pebble.

(** ** KVServer *)

Section server.
Context {S : Type} `{!KVStore S}.

Definition doGet (store : S) (args : GetArgs) : option GetReply :=
  '(value, version, ok) ← store_Get store (get_Key args);
  Some (if ok : bool then mkGetReply value version OK else mkGetReply "" 0 ErrNoKey).

Definition doPut (store : S) (index : Z) (args : PutArgs) : option (PutReply * S) :=
  '(_, version, ok) ← store_Get store (put_Key args);
  Some (if ok : bool then
          if decide (put_Version args = version)
          then (mkPutReply OK, store_Put store index (put_Key args) (put_Value args) (u64 (version + 1)))
          else (mkPutReply ErrVersion, store)
        else if decide (put_Version args = 0)
        then (mkPutReply OK, store_Put store index (put_Key args) (put_Value args) 1)
        else (mkPutReply ErrNoKey, store)).

(** The inner [option] is Go's [any]: nil for an operation that is skipped. *)
Definition DoOp (store : S) (index : Z) (req : request) : option (option reply * S) :=
  if decide (index <= AppliedIndex store) then Some (None, store)
  else match req with
       | RGet r => rep ← doGet store r; Some (Some (RepGet rep), store)
       | RPut r => '(rep, store) ← doPut store index r; Some (Some (RepPut rep), store)
       end.

#[export] Instance kv_sm : StateMachine S request (option reply) := {|
  Rsm.DoOp := DoOp; sm_Snapshot := store_Snapshot; sm_Restore := store_Restore
|}.

(** The RPC handlers, after [Submit] has returned; a result of the wrong type
    fails the type assertion. *)
Definition Get (err : Err) (res : option reply) : option GetReply :=
  if decide (err <> OK) then Some (mkGetReply "" 0 err)
  else match res with Some (RepGet r) => Some r | _ => None end.

Definition Put (err : Err) (res : option reply) : option PutReply :=
  if decide (err <> OK) then Some (mkPutReply err)
  else match res with Some (RepPut r) => Some (mkPutReply (putr_Err r)) | _ => None end.

Context `{!LawfulKVStore S}.

(** A put that succeeds. *)
Definition put_succeeds (m : KvMap) (r : request) : bool :=
  bool_decide (fst (serve m r) = RepPut (mkPutReply OK)).

(** One operation beyond the apply index, on every branch. *)
Lemma DoOp_fresh s m a i r :
  kv_holds s m a -> a < i -> int_ok i ->
  exists s', DoOp s i r = Some (Some (fst (serve m r)), s') /\
    kv_holds s' (snd (serve m r)) (if kv_dedup && put_succeeds m r then i else a) /\
    (put_succeeds m r = false -> s' = s).
Proof.
  intros Hs Hai Hi. unfold DoOp. rewrite (kv_Applied _ _ _ Hs), decide_False by lia.
  pose proof (fun k => kv_Get _ _ _ k Hs) as Hget. pose proof (fun k v n => kv_Put _ _ _ i k v n Hs Hi) as Hput.
  destruct r as [g|p]; simpl; unfold put_succeeds.
  - unfold doGet. rewrite Hget. simpl. rewrite andb_false_r. exists s. split; [|done].
    unfold KvSrv.Get. by destruct (m !! get_Key g).
  - unfold doPut. rewrite Hget. simpl. unfold KvSrv.Put.
    destruct (m !! put_Key p) as [e|]; simpl; (dcase; simpl; (eexists; split; [done|])); simpl;
      rewrite ?andb_true_r, ?andb_false_r; (split; [auto|done]).
Qed.

(** Applying the entries [rs] of the log from index [i] on. *)
Fixpoint apply_from (s : S) (i : Z) (rs : list request) : option S :=
  match rs with
  | [] => Some s
  | r :: rs => '(_, s) ← DoOp s i r; apply_from s (i + 1) rs
  end.

(** The store a server starts with, given the persisted snapshot.  The labrpc
    server has a new [mapStore] and calls [MakeRSM], whose goroutine applies what
    Raft delivers from index [i] on; some of it, [early], may reach the store
    before the snapshot is restored, and [later] afterwards ([Service.start] has
    the same race in the whole system).  The gRPC server takes the store it is
    given as it is. *)
Definition StartKVServer (newStore : S) (snapshot : list byte) (i : Z) (early later : list request) : option S :=
  s ← apply_from newStore i early;
  s ← (if decide (0 < zlen snapshot) then store_Restore s snapshot else Some s);
  apply_from s (i + zlen early) later.

Definition StartKVServerGrpc (store : S) (i : Z) (entries : list request) : option S :=
  apply_from store i entries.

(** The reference: contents and index of the last successful put. *)
Fixpoint replay (m : KvMap) (a i : Z) (rs : list request) : KvMap * Z :=
  match rs with
  | [] => (m, a)
  | r :: rs => replay (snd (serve m r)) (if kv_dedup && put_succeeds m r then i else a) (i + 1) rs
  end.

Lemma replay_app m a i rs1 rs2 :
  replay m a i (rs1 ++ rs2) =
  replay (fst (replay m a i rs1)) (snd (replay m a i rs1)) (i + zlen rs1) rs2.
Proof.
  revert m a i. induction rs1 as [|r rs1 IH]; intros m a i; simpl; [by rewrite Z.add_0_r|].
  rewrite IH, zlen_cons. f_equal. lia.
Qed.

Lemma replay_index m a i rs : a < i -> a <= snd (replay m a i rs) < i + zlen rs.
Proof.
  revert m a i. induction rs as [|r rs IH]; intros m a i Ha; simpl; [change (zlen []) with 0; lia|].
  rewrite zlen_cons. destruct (kv_dedup && put_succeeds m r);
    [pose proof (IH (snd (serve m r)) i (i + 1) ltac:(lia))|pose proof (IH (snd (serve m r)) a (i + 1) ltac:(lia))]; lia.
Qed.

Lemma apply_from_app s i rs1 rs2 :
  apply_from s i (rs1 ++ rs2) = apply_from s i rs1 ≫= fun s => apply_from s (i + zlen rs1) rs2.
Proof.
  revert s i. induction rs1 as [|r rs1 IH]; intros s i; simpl; [by rewrite Z.add_0_r|].
  rewrite zlen_cons. destruct (DoOp s i r) as [[? s1]|]; simpl; [|done].
  rewrite IH. destruct (apply_from s1 (i + 1) rs1); simpl; [f_equal; lia|done].
Qed.

(** Fresh entries. *)
Lemma apply_fresh s m a i rs :
  kv_holds s m a -> a < i -> 0 <= i -> i + zlen rs <= 2 ^ 63 ->
  exists s', apply_from s i rs = Some s' /\
    kv_holds s' (fst (replay m a i rs)) (snd (replay m a i rs)).
Proof.
  revert s m a i. induction rs as [|r rs IH]; intros s m a i Hs Ha Hi Hb; simpl; [eauto|].
  rewrite zlen_cons in Hb. pose proof (zlen_nonneg rs).
  destruct (DoOp_fresh s m a i r Hs Ha) as (s' & -> & Hs' & _); [split; lia|]. simpl.
  apply IH; [done| |lia|lia]. destruct (kv_dedup && put_succeeds m r); lia.
Qed.

Lemma put_fails_noeffect m r : put_succeeds m r = false -> snd (serve m r) = m.
Proof.
  destruct r as [g|p]; simpl; [done|]. unfold put_succeeds. simpl.
  destruct (Put_cases m p) as [(H & _ & _)|[H _]]; destruct (KvSrv.Put m p) as [rep m']; simpl in *; subst; done.
Qed.

(** No successful put among the entries: nothing has happened. *)
Lemma replay_quiet m a i rs :
  kv_dedup = true -> snd (replay m a i rs) < i -> replay m a i rs = (m, a).
Proof.
  intros Hd. revert i. induction rs as [|r rs IH]; intros i Hq; simpl in *; [done|].
  rewrite Hd in *. simpl in *. destruct (put_succeeds m r) eqn:E.
  - pose proof (replay_index (snd (serve m r)) i (i + 1) rs ltac:(lia)). lia.
  - rewrite (put_fails_noeffect _ _ E) in *. apply IH. lia.
Qed.

(** Entries the store already holds are skipped, or have no effect again. *)
Lemma apply_again s m a i rs :
  kv_dedup = true -> a < i -> 0 <= i -> i + zlen rs <= 2 ^ 63 ->
  kv_holds s (fst (replay m a i rs)) (snd (replay m a i rs)) -> apply_from s i rs = Some s.
Proof.
  intros Hd. revert m a i. induction rs as [|r rs IH]; intros m a i Ha Hi Hb Hs; [done|].
  rewrite zlen_cons in Hb. pose proof (zlen_nonneg rs). cbn [apply_from].
  assert (Hrest : apply_from s (i + 1) rs = Some s).
  { simpl in Hs. eapply IH; [| | |exact Hs]; [|lia|lia]. destruct (kv_dedup && put_succeeds m r); lia. }
  destruct (decide (snd (replay m a i (r :: rs)) < i)) as [Hlt|Hge].
  - rewrite (replay_quiet m a i (r :: rs) Hd Hlt) in Hs.
    assert (Hf : put_succeeds m r = false).
    { simpl in Hlt. rewrite Hd in Hlt. destruct (put_succeeds m r); [|done]. simpl in Hlt.
      pose proof (replay_index (snd (serve m r)) i (i + 1) rs ltac:(lia)). lia. }
    destruct (DoOp_fresh s m a i r Hs Ha) as (s' & -> & _ & Hsame); [split; lia|]. simpl. by rewrite (Hsame Hf).
  - unfold DoOp at 1. rewrite (kv_Applied _ _ _ Hs), decide_True by lia. done.
Qed.

(** C24: crash recovery of a store with an apply index.  Let a store that started
    empty have applied the entries [p ++ q] of the log.  After a restart Raft
    delivers again from any earlier point, [q], and then goes on with [t].  The
    replayed entries change nothing, and the store ends with exactly the
    contents of applying [p ++ q ++ t] once. *)
Theorem durable_store_recovers s0 s p q t :
  kv_dedup = true -> kv_holds s0 ∅ 0 -> 1 + zlen (p ++ q ++ t) <= 2 ^ 63 ->
  apply_from s0 1 (p ++ q) = Some s ->
  exists s', apply_from s (1 + zlen p) (q ++ t) = Some s' /\ apply_from s (1 + zlen p) q = Some s /\
    kv_holds s' (fst (replay ∅ 0 1 (p ++ q ++ t))) (snd (replay ∅ 0 1 (p ++ q ++ t))).
Proof.
  intros Hd H0 Hb Ha. rewrite !zlen_app in Hb.
  pose proof (zlen_nonneg p). pose proof (zlen_nonneg q). pose proof (zlen_nonneg t).
  destruct (apply_fresh s0 ∅ 0 1 (p ++ q) H0) as (s1 & E & Hs); [lia|lia|rewrite zlen_app; lia|].
  rewrite Ha in E. simplify_eq.
  assert (Hq : apply_from s1 (1 + zlen p) q = Some s1).
  { rewrite replay_app in Hs. eapply apply_again; [done| | |lia|exact Hs];
      [|lia]. pose proof (replay_index ∅ 0 1 p ltac:(lia)). lia. }
  destruct (apply_fresh s1 _ _ (1 + zlen (p ++ q)) t Hs) as (s2 & E2 & Hs2).
  { apply replay_index. lia. }
  { rewrite zlen_app. lia. }
  { rewrite zlen_app. lia. }
  exists s2. split_and!; [|done|].
  - rewrite apply_from_app, Hq. simpl. rewrite <- E2. f_equal. rewrite zlen_app. lia.
  - rewrite app_assoc, replay_app. exact Hs2.
Qed.

(** C30: the replicated server computes what the single server computes.  Over
    any store, an operation beyond the apply index returns the reply of
    [kvsrv1]'s server on the store's contents, on every branch, and leaves the
    contents that server would have; the apply index advances exactly on a
    successful put. An operation at or below the apply index is skipped. *)
Theorem kvserver_implements_server s m a i r :
  kv_holds s m a -> int_ok i ->
  (a < i -> exists s', DoOp s i r = Some (Some (fst (serve m r)), s') /\
     kv_holds s' (snd (serve m r)) (if kv_dedup && put_succeeds m r then i else a)) /\
  (i <= a -> DoOp s i r = Some (None, s)).
Proof.
  intros Hs Hi. split.
  - intros Ha. destruct (DoOp_fresh s m a i r Hs Ha Hi) as (s' & ? & ? & _). eauto.
  - intros Ha. unfold DoOp. by rewrite (kv_Applied _ _ _ Hs), decide_True.
Qed.

End server.

(** ** Concrete stores *)

Module StoreDemo.

Abbreviation D := (gmap (list byte) (list byte)).

#[export] Program Instance map_db : PebbleDB D := {|
  db_Get d k := d !! k;
  db_Commit d b := foldl (fun d '(k, v) => <[k := v]> d) d b;
  db_files d := [("000001.sst", bit_enc d)];
  db_Checkpoint d := [("000001.sst", bit_enc d)];
  db_Open dir := match dir with (_, b) :: _ => from_option fst ∅ (bit_dec b) | [] => ∅ end
|}.
Next Obligation.
  intros d k v k'. simpl. destruct (decide (k' = k)) as [->|Hne];
    [by rewrite lookup_insert_eq|by rewrite lookup_insert_ne].
Qed.
Next Obligation. intros d b1 b2 k. simpl. by rewrite foldl_app. Qed.
Next Obligation. intros d k. simpl. rewrite <- (app_nil_r (bit_enc d)), bit_stream. done. Qed.
Next Obligation. intros d k. simpl. rewrite <- (app_nil_r (bit_enc d)), bit_stream. done. Qed.
Next Obligation. done. Qed.
Next Obligation. intros d. simpl. apply NoDup_singleton. Qed.

Definition bit_next (b : list byte) : option (option (string * list byte * list byte)) :=
  match b with
  | Byte.x00 :: _ => Some None
  | Byte.x01 :: b => '(e, rest) ← bit_dec (A := string * list byte) b; Some (Some (e, rest))
  | _ => None
  end.

#[export] Program Instance bit_tar : Tar := {|
  tw_file n b := Byte.x01 :: bit_enc (n, b);
  tw_close := [Byte.x00];
  tr_next := bit_next
|}.
Next Obligation. intros n b rest. cbn [app bit_next]. by rewrite bit_stream. Qed.
Next Obligation. done. Qed.
Next Obligation. done. Qed.

#[local] Instance entry_gob : Gob kvEntry := bit_gob.
#[local] Instance map_gob : Gob KvMap := bit_gob.

(** A store in a new directory. *)
Definition fresh : Pebble.Store D :=
  Pebble.mkStore "kv" {["kv" := db_files (∅ : D)]} ∅.

Example fresh_opened : (Pebble.Open "kv" ∅).2 = Some fresh.
Proof. reflexivity. Qed.

Lemma fresh_holds : kv_holds fresh ∅ 0.
Proof. split; [|done]. split; simpl; [intros k; by rewrite !lookup_empty|by left]. Qed.

Definition log1 : list request := [RPut (mkPutArgs "x" "1" 0)].
Definition log2 : list request := [RGet (mkGetArgs "x"); RPut (mkPutArgs "x" "9" 7)].
Definition log3 : list request := [RPut (mkPutArgs "x" "2" 1)].

Definition after2 : Pebble.Store D := default fresh (apply_from fresh 1 (log1 ++ log2)).

Lemma after2_ok : apply_from fresh 1 (log1 ++ log2) = Some after2.
Proof.
  assert (H : match apply_from fresh 1 (log1 ++ log2) with Some _ => true | None => false end = true)
    by (vm_compute; reflexivity).
  unfold after2. by destruct (apply_from fresh 1 (log1 ++ log2)).
Qed.

Lemma durable_store_recovers_witness :
  exists s', apply_from after2 2 (log2 ++ log3) = Some s' /\ apply_from after2 2 log2 = Some after2 /\
    kv_holds s' {["x" := mkKvEntry "2" 2]} 4.
Proof.
  destruct (durable_store_recovers fresh after2 log1 log2 log3) as (s' & H1 & H2 & H3).
  - reflexivity.
  - exact fresh_holds.
  - vm_compute. discriminate.
  - exact after2_ok.
  - assert (E : replay (S := Pebble.Store D) ∅ 0 1 (log1 ++ log2 ++ log3) = ({["x" := mkKvEntry "2" 2]}, 4))
      by (vm_compute; reflexivity).
    rewrite E in H3. exists s'. split; [exact H1|]. split; [exact H2|exact H3].
Defined.

Definition put_x : request := RPut (mkPutArgs "x" "1" 0).

Lemma kvserver_implements_server_witness :
  exists s', DoOp newMapStore 5 put_x = Some (Some (RepPut (mkPutReply OK)), s') /\
    kv_holds s' {["x" := mkKvEntry "1" 1]} (-1).
Proof.
  assert (H0 : kv_holds newMapStore ∅ (-1)) by (split; reflexivity).
  assert (H5 : int_ok 5) by (split; lia).
  destruct (kvserver_implements_server newMapStore ∅ (-1) 5 put_x H0 H5) as [H _].
  destruct (H ltac:(lia)) as (s' & H1 & H2). exists s'.
  assert (E : serve ∅ put_x = (RepPut (mkPutReply OK), {["x" := mkKvEntry "1" 1]})) by (vm_compute; reflexivity).
  rewrite E in H1, H2. split; [exact H1|exact H2].
Defined.

(** A server with one key restores the snapshot of one with another. *)
Definition old : Pebble.Store D := default fresh (apply_from fresh 1 [RPut (mkPutArgs "o" "0" 0)]).
Definition new : Pebble.Store D := default fresh (apply_from fresh 1 [RPut (mkPutArgs "x" "1" 0)]).

Lemma one_put_holds k v :
  kv_holds (default fresh (apply_from fresh 1 [RPut (mkPutArgs k v 0)])) {[k := mkKvEntry v 1]} 1.
Proof.
  destruct (apply_fresh fresh ∅ 0 1 [RPut (mkPutArgs k v 0)] fresh_holds) as (s' & -> & H); done.
Qed.

Lemma restore_crash_points_witness :
  Exists (fun k => Pebble.reopened old k ∅ 0) (Pebble.Restore old (Pebble.Snapshot new) (Pebble.sdisk old)).1.1.
Proof.
  pose proof (Pebble.restore_crash_points old {["o" := mkKvEntry "0" 1]} 1 new {["x" := mkKvEntry "1" 1]} 1
    (one_put_holds "o" "0") (one_put_holds "x" "1")) as H.
  destruct (Pebble.Restore old (Pebble.Snapshot new) (Pebble.sdisk old)) as [[ks k] r]. exact (proj2 (proj2 H)).
Defined.

(** Three ways to start on a snapshot of index 1 and a log that goes on with
    index 2.  The gRPC server does not restore: when the process died after Raft
    had persisted an installed snapshot and before the store was replaced, the
    write of index 1 is missing.  The labrpc server restores; it has both writes
    if the restore comes before the first entry, and loses the write of index 2
    if that is applied first. *)
Theorem restart_orders :
  let log := [RPut (mkPutArgs "x" "1" 0); RPut (mkPutArgs "y" "2" 0)] in
  let snapshot := from_option store_Snapshot [] (apply_from newMapStore 1 (take 1 log)) in
  let grpc := StartKVServerGrpc fresh 2 (drop 1 log) in
  let restored := StartKVServer newMapStore snapshot 2 [] (drop 1 log) in
  let raced := StartKVServer newMapStore snapshot 2 (drop 1 log) [] in
  (s ← grpc; store_Get s "x") = Some ("", 0, false) /\
  (s ← restored; store_Get s "x") = Some ("1", 1, true) /\
  (s ← restored; store_Get s "y") = Some ("2", 1, true) /\
  (s ← raced; store_Get s "y") = Some ("", 0, false).
Proof. split_and!; vm_compute; reflexivity. Qed.

End StoreDemo.
