(* ===== verification/Service.v ===== *)
(** * A replicated service

    A cluster of [RaftNet] with the replication layer of [Rsm] and a service on
    every node: the messages Raft delivers are applied one by one, snapshots are
    taken when the log is too long and handed back to Raft, clients submit
    operations, nodes crash and restart.

    The theorem is what the whole stack is for: there is one sequence of
    operations, and the state of every replica is the result of applying a
    prefix of it.  It holds for services that restore Raft's snapshot before they
    start the applier, as [StartServerShardGrp] does, and for every service as
    long as no snapshots are taken.  The other two orders in the repository, with
    snapshots, break it: [late_restore_loses_a_put] for [StartKVServer], and
    [RsmTest.unrestored_counter] for the server of the rsm tests. *)

From S2P Require Import Prelude Gob Wal Raft RaftSpec RaftSpecInv RaftNet RaftRel RaftElect RaftReplicate RaftRefine RaftDemo Kv Rsm KvStore.

(** ** Only the applier moves the applied index *)

Section applied.
Context {W : Type} `{!WAL W}.
Implicit Types rf : Raft W.

Lemma walSaveMeta_applied rf rf' : walSaveMeta rf = Some rf' -> appliedIndex rf' = appliedIndex rf.
Proof. unfold walSaveMeta. intros H. by simplify_option_eq. Qed.

Lemma walSaveSnapshot_applied rf rf' : walSaveSnapshot rf = Some rf' -> appliedIndex rf' = appliedIndex rf.
Proof. unfold walSaveSnapshot. intros H. by simplify_option_eq. Qed.

Lemma stepDown_applied rf t rf' : stepDown rf t = Some rf' -> appliedIndex rf' = appliedIndex rf.
Proof. unfold stepDown. by intros ->%walSaveMeta_applied. Qed.

Lemma adoptTerm_applied rf t rf' : adoptTerm rf t = Some rf' -> appliedIndex rf' = appliedIndex rf.
Proof. unfold adoptTerm. dcase; [apply stepDown_applied|by intros [= ->]]. Qed.

Lemma beginElection_applied rf round rf' :
  beginElectionLocked rf = Some (round, rf') -> appliedIndex rf' = appliedIndex rf.
Proof.
  unfold beginElectionLocked. destruct (walSaveMeta _) as [rf1|] eqn:E; [|done]. simpl.
  apply walSaveMeta_applied in E. destruct (lastLogTerm _); [|done]. simpl. by intros [= _ <-].
Qed.

Lemma RequestVote_applied rf args rep rf' :
  RequestVote rf args = Some (rep, rf') -> appliedIndex rf' = appliedIndex rf.
Proof.
  unfold RequestVote, grantVote. dcase; [by intros [= _ <-]|].
  destruct (adoptTerm rf (rv_Term args)) as [rf1|] eqn:E; [|done]. simpl. apply adoptTerm_applied in E as <-.
  destruct (lastLogTerm rf1); [|done]. simpl. dcase; [|by intros [= _ <-]].
  destruct (walSaveMeta _) as [rf2|] eqn:E; [|done]. simpl. apply walSaveMeta_applied in E. by intros [= _ <-].
Qed.

Lemma installSnapshot_applied rf args b rep rf' :
  installSnapshot rf args b = Some (rep, rf') -> appliedIndex rf' = appliedIndex rf.
Proof.
  unfold installSnapshot. dcase; [by intros [= _ <-]|].
  match goal with |- (?m ≫= _) = _ -> _ => destruct m as [rest|]; [|done] end. simpl.
  destruct (walSaveSnapshot _) as [rf1|] eqn:E; [|done]. simpl. apply walSaveSnapshot_applied in E.
  by intros [= _ <-].
Qed.

Lemma replicate_applied rf args rep rf' :
  replicate rf args = Some (rep, rf') -> appliedIndex rf' = appliedIndex rf.
Proof.
  unfold replicate. dcase; [by intros [= _ <-]|].
  match goal with |- (?m ≫= _) = _ -> _ => destruct m as [bad|]; [|done] end. simpl.
  destruct bad; [destruct (conflictReply rf _); [|done]; by intros [= _ <-]|].
  assert (Hst : forall rf1, storeEntries rf (ae_PrevLogIndex args) (ae_Entries args) = Some rf1 ->
    appliedIndex rf1 = appliedIndex rf).
  { unfold storeEntries. intros rf1 H. by simplify_option_eq. }
  destruct (storeEntries rf _ _) as [rf1|]; [|done]. specialize (Hst rf1 eq_refl). simpl.
  dcase; by intros [= _ <-].
Qed.

Lemma AppendEntries_applied rf args rep rf' :
  AppendEntriesHandler rf args = Some (rep, rf') -> appliedIndex rf' = appliedIndex rf.
Proof.
  unfold AppendEntriesHandler. dcase; [by intros [= _ <-]|].
  destruct (adoptTerm rf _) as [rf1|] eqn:E; [|done]. simpl. apply adoptTerm_applied in E as <-.
  destruct (ae_Snapshot args); [by intros ->%installSnapshot_applied|by intros ->%replicate_applied].
Qed.

Lemma advanceCommit_applied rf N k rf' : advanceCommit rf N k = Some rf' -> appliedIndex rf' = appliedIndex rf.
Proof.
  revert rf N. induction k as [|k IH]; intros rf N; simpl; [by intros [= ->]|].
  destruct (logAt rf N); [|done]. simpl. dcase; [apply IH|]. dcase; [|apply IH]. by intros ->%IH.
Qed.

Lemma onAppendReply_applied rf s args rep rf' :
  onAppendReply rf s args rep = Some rf' -> appliedIndex rf' = appliedIndex rf.
Proof.
  unfold onAppendReply. dcase; [apply stepDown_applied|]. dcase; [by intros [= ->]|].
  destruct (aer_Success rep).
  - match goal with |- (advanceCommit ?r ?n ?k ≫= _) = _ -> _ =>
      destruct (advanceCommit r n k) as [rf1|] eqn:E; [|done] end.
    apply advanceCommit_applied in E. simpl in *.
    assert (E' : appliedIndex rf1 = appliedIndex rf) by (rewrite E; by dcase).
    dcase; by intros [= <-].
  - dcase; by intros [= <-].
Qed.

Lemma onVoteReply_applied rf args rep rf' :
  onVoteReply rf args rep = Some rf' -> appliedIndex rf' = appliedIndex rf.
Proof.
  unfold onVoteReply. dcase; [apply stepDown_applied|]. dcase; [by intros [= ->]|].
  dcase; by intros [= <-].
Qed.

Lemma TimeoutNow_applied rf args rep round rf' :
  TimeoutNow rf args = Some (rep, round, rf') -> appliedIndex rf' = appliedIndex rf.
Proof.
  unfold TimeoutNow. dcase; [by intros [= _ _ <-]|].
  destruct (adoptTerm rf _) as [rf1|] eqn:E; [|done]. simpl. apply adoptTerm_applied in E as <-.
  dcase; [by intros [= _ _ <-]|].
  match goal with |- (?m ≫= _) = _ -> _ => destruct m as [[]|]; [| |done] end; simpl; [by intros [= _ _ <-]|].
  destruct (beginElectionLocked rf1) as [[r rf2]|] eqn:E; [|done]. simpl. apply beginElection_applied in E.
  by intros [= _ _ <-].
Qed.

Lemma Start_applied rf cmd i t ok rf' : Start rf cmd = Some (i, t, ok, rf') -> appliedIndex rf' = appliedIndex rf.
Proof.
  unfold Start. dcase; [by intros [= _ _ _ <-]|]. destruct (AppendLog _ _); [|done]. simpl. by intros [= _ _ _ <-].
Qed.

Lemma exec_applied rf ev rf' ps ms :
  exec rf ev = Some (rf', ps, ms) -> ev <> EApply -> appliedIndex rf' = appliedIndex rf /\ ms = [].
Proof.
  intros H Hev. destruct ev as [g| |cmd| |i b| | |p]; simpl in H; try done.
  - unfold tickerFire in H. destruct (dead rf); [by simplify_eq/=|]. dcase; [by simplify_eq/=|].
    destruct (beginElectionLocked rf) as [[r rf1]|] eqn:E; simplify_eq/=. by apply beginElection_applied in E.
  - by destruct (startHeartbeat rf); simplify_eq/=.
  - destruct (Start rf _) as [[[[? ?] ?] rf1]|] eqn:E; simplify_eq/=. by apply Start_applied in E.
  - destruct (Snapshot rf i _) as [rf1|] eqn:E; simplify_eq/=. split; [|done]. unfold Snapshot in E.
    dcase; [by simplify_eq|]. dcase; [done|]. destruct (logAt rf i); [|done]. simpl in E.
    destruct (gfrom _ _); [|done]. simpl in E. by apply walSaveSnapshot_applied in E.
  - match type of H with (?m ≫= _) = _ => destruct m end; by simplify_eq/=.
  - simplify_eq. unfold Kill. by destruct (dead rf).
  - destruct p as [? ? a|? ? a r|? ? a|? ? a r|? ? a|? ? r]; simpl in H.
    + destruct (RequestVote rf a) as [[? ?]|] eqn:E; simplify_eq/=. by apply RequestVote_applied in E.
    + destruct (onVoteReply rf a r) as [?|] eqn:E; simplify_eq/=. by apply onVoteReply_applied in E.
    + destruct (AppendEntriesHandler rf a) as [[? ?]|] eqn:E; simplify_eq/=. by apply AppendEntries_applied in E.
    + destruct (onAppendReply rf _ a r) as [?|] eqn:E; simplify_eq/=. by apply onAppendReply_applied in E.
    + destruct (TimeoutNow rf a) as [[[? ?] ?]|] eqn:E; simplify_eq/=. by apply TimeoutNow_applied in E.
    + destruct (adoptTerm rf _) as [?|] eqn:E; simplify_eq/=. by apply adoptTerm_applied in E.
Qed.

End applied.

(** ** The replicated system *)

(** A replica: the replication layer with its service, the messages Raft has
    delivered and the loop has not read yet, the index of the last one read, the
    call of [rf.Snapshot] that is due before the next one, and the call of
    [Restore] that the goroutine that started the server has yet to make. *)
Record replica (S Res : Type) := mkRep {
  rp_rsm : RSM S Res;
  rp_box : list ApplyMsg;
  rp_at : Z;
  rp_todo : option (Z * list byte);
  rp_restore : option (list byte)
}.
Arguments mkRep {S Res}.
Arguments rp_rsm {S Res}.
Arguments rp_box {S Res}.
Arguments rp_at {S Res}.
Arguments rp_todo {S Res}.
Arguments rp_restore {S Res}.

(** How a server is started on what its node has persisted:
    - [RestoreThenRSM]: [StartServerShardGrp] of shardkv1/shardgrp/server.go
      restores the snapshot, if there is one, and then calls [MakeRSM], which
      starts [readApplyCh];
    - [RSMThenRestore]: [StartKVServer] of kvraft1/server.go calls [MakeRSM]
      first, so that the restore races with [readApplyCh];
    - [NoRestore]: [newRSMSrv] of kvraft1/rsm/server.go never restores. *)
Inductive startup := RestoreThenRSM | RSMThenRestore | NoRestore.
#[export] Instance startup_eq_dec : EqDecision startup.
Proof. solve_decision. Defined.

Record world (S Res : Type) := mkW { w_c : cluster; w_rp : NodeID -> replica S Res }.
Arguments mkW {S Res}.
Arguments w_c {S Res}.
Arguments w_rp {S Res}.

(** What a service promises to the replication layer. *)
Class LawfulSM (S Req Res : Type) `{StateMachine S Req Res} := {
  sm_Restore_Snapshot (s s0 : S) : sm_Restore s0 (sm_Snapshot s) = Some s;
  sm_Snapshot_nonempty (s : S) : sm_Snapshot s <> []
}.

Section world.
Context (ids : list NodeID) (Hids : "" ∉ ids) (Hnd : NoDup ids).
Context {S Req Res : Type} `{!StateMachine S Req Res} `{!Gob (Op Req)} (sm0 : S) (limit : Z) (how : startup).
Implicit Types (w : world S Res) (n : NodeID) (c : cluster).

(** The index a message stands for. *)
Definition msg_index (m : ApplyMsg) : Z :=
  if am_CommandValid m then am_CommandIndex m else am_SnapshotIndex m.

(** The server of a restarted node, up to the point where the applier runs: the
    state of its service, and the restore that is still to come. *)
Definition start (snap : option (list byte)) : option (S * option (list byte)) :=
  let data := default [] snap in
  match how with
  | RestoreThenRSM =>
      s ← (if decide (0 < zlen data) then sm_Restore sm0 data else Some sm0);
      Some (s, None)
  | RSMThenRestore => Some (sm0, if decide (0 < zlen data) then Some data else None)
  | NoRestore => Some (sm0, None)
  end.

Definition with_node c n rf ps net out snaps : cluster :=
  mkC (<[n := rf]> (c_node c)) (ps ++ net) out snaps.

(** The events of a node that neither its clients nor its service cause. *)
Definition own_event (ev : event) : Prop :=
  match ev with EStart _ | ESnapshot _ _ => False | _ => True end.

Inductive wstep : world S Res -> world S Res -> Prop :=
(* Raft: timers, packets, delivery *)
| W_raft w n ev net rf ps ms :
    n ∈ ids -> own_event ev -> ev_ok (c_node (w_c w) n) ev -> takes ev (c_net (w_c w)) net ->
    exec (c_node (w_c w) n) ev = Some (rf, ps, ms) ->
    wstep w (mkW (with_node (w_c w) n rf ps net (((fun m => (n, m)) <$> ms) ++ c_out (w_c w)) (c_snaps (w_c w)))
               (<[n := mkRep (rp_rsm (w_rp w n)) (rp_box (w_rp w n) ++ ms) (rp_at (w_rp w n)) (rp_todo (w_rp w n))
                        (rp_restore (w_rp w n))]>
                  (w_rp w)))
(* a client's [Submit] *)
| W_submit w n rf0 hash req o rf r' :
    n ∈ ids ->
    Submit rf0 (c_node (w_c w) n) (rp_rsm (w_rp w n)) hash req = Some (o, rf, r') ->
    wstep w (mkW (with_node (w_c w) n rf [] (c_net (w_c w)) (c_out (w_c w)) (c_snaps (w_c w)))
               (<[n := mkRep r' (rp_box (w_rp w n)) (rp_at (w_rp w n)) (rp_todo (w_rp w n))
                        (rp_restore (w_rp w n))]> (w_rp w)))
| W_wait w n tk wk o r' :
    n ∈ ids ->
    Submit_wait (c_node (w_c w) n) (rp_rsm (w_rp w n)) tk wk = Some (o, r') ->
    wstep w (mkW (w_c w)
               (<[n := mkRep r' (rp_box (w_rp w n)) (rp_at (w_rp w n)) (rp_todo (w_rp w n))
                        (rp_restore (w_rp w n))]> (w_rp w)))
(* one round of [readApplyCh] *)
| W_apply w n m rest r' todo :
    n ∈ ids -> rp_todo (w_rp w n) = None -> rp_box (w_rp w n) = m :: rest ->
    readApplyCh (c_node (w_c w) n) (rp_rsm (w_rp w n)) m = Some (r', todo) ->
    wstep w (mkW (w_c w) (<[n := mkRep r' rest (msg_index m) todo (rp_restore (w_rp w n))]> (w_rp w)))
(* [rf.Snapshot], called at the end of the round *)
| W_snapshot w n i b rf :
    n ∈ ids -> rp_todo (w_rp w n) = Some (i, b) ->
    Snapshot (c_node (w_c w) n) i (Some b) = Some rf ->
    wstep w (mkW (with_node (w_c w) n rf [] (c_net (w_c w)) (c_out (w_c w)) ((i, b) :: c_snaps (w_c w)))
               (<[n := mkRep (rp_rsm (w_rp w n)) (rp_box (w_rp w n)) (rp_at (w_rp w n)) None (rp_restore (w_rp w n))]> (w_rp w)))
(* a crash while Raft handles [ev], and the restart *)
| W_crash w n ev net rf ps ms (j : Journal) rf' s later :
    n ∈ ids -> (own_event ev \/ (exists cmd, ev = EStart cmd) \/
                exists i b, ev = ESnapshot i b /\ rp_todo (w_rp w n) = Some (i, b)) ->
    (own_event ev -> ev_ok (c_node (w_c w) n) ev) -> takes ev (c_net (w_c w)) net ->
    exec (c_node (w_c w) n) ev = Some (rf, ps, ms) ->
    wal (c_node (w_c w) n) `suffix_of` j -> j `suffix_of` wal rf ->
    MakeWithWAL n ids j = Some rf' -> start (snapshot rf') = Some (s, later) ->
    wstep w (mkW (with_node (w_c w) n rf' [] net (c_out (w_c w)) (new_snaps ev ++ c_snaps (w_c w)))
               (<[n := mkRep (MakeRSM limit s) [] (snapshotIndex rf') None later]> (w_rp w)))
(* the restore of a server that started its applier first *)
| W_restore w n data s :
    n ∈ ids -> rp_restore (w_rp w n) = Some data -> sm_Restore (sm (rp_rsm (w_rp w n))) data = Some s ->
    wstep w (mkW (w_c w)
               (<[n := mkRep (set_sm s (rp_rsm (w_rp w n))) (rp_box (w_rp w n)) (rp_at (w_rp w n))
                        (rp_todo (w_rp w n)) None]> (w_rp w)))
| W_drop w p net :
    c_net (w_c w) ≡ₚ p :: net ->
    wstep w (mkW (mkC (c_node (w_c w)) net (c_out (w_c w)) (c_snaps (w_c w))) (w_rp w)).

Definition winit w : Prop :=
  cinit ids (w_c w) /\ forall n, n ∈ ids -> w_rp w n = mkRep (MakeRSM limit sm0) [] 0 None None.

Definition wreach w : Prop := exists w0, winit w0 /\ rtc wstep w0 w.

(** ** The state after a sequence of commands *)

Fixpoint run_cmds (s : S) (i : Z) (cmds : list (option (list byte))) : option S :=
  match cmds with
  | [] => Some s
  | cmd :: cmds =>
      data ← cmd; op ← decodeOp data;
      '(_, s) ← Rsm.DoOp s i (Opcommad op);
      run_cmds s (i + 1) cmds
  end.

Lemma run_cmds_app s i l1 l2 :
  run_cmds s i (l1 ++ l2) = run_cmds s i l1 ≫= fun s => run_cmds s (i + zlen l1) l2.
Proof.
  revert s i. induction l1 as [|cmd l1 IH]; intros s i; simpl; [by rewrite Z.add_0_r|].
  destruct cmd as [data|]; [|done]. simpl. destruct (decodeOp data) as [op|]; [|done]. simpl.
  destruct (Rsm.DoOp s i (Opcommad op)) as [[? s']|]; [|done]. simpl. rewrite IH, zlen_cons.
  destruct (run_cmds s' (i + 1) l1); simpl; [f_equal; lia|done].
Qed.

(** [s] is the state after the first [k] committed commands. *)
Definition state_ok (a : astate) (k : Z) (s : S) : Prop :=
  exists T x, committed ids a T x /\ zlen x = k + 1 /\ run_cmds sm0 1 (Command <$> drop 1 x) = Some s.

Definition cmd_ok (a : astate) (i : Z) (cmd : option (list byte)) : Prop :=
  exists T x e, committed ids a T x /\ x @[i] = Some e /\ Command e = cmd.

Fixpoint box_ok (snaps : list (Z * list byte)) (a : astate) (k : Z) (box : list ApplyMsg) (upto : Z) : Prop :=
  match box with
  | [] => k = upto
  | m :: box =>
      k < msg_index m /\ box_ok snaps a (msg_index m) box upto /\
      if am_CommandValid m
      then am_CommandIndex m = k + 1 /\ cmd_ok a (am_CommandIndex m) (am_Command m)
      else am_SnapshotValid m = true /\
           exists b, am_Snapshot m = Some b /\ (am_SnapshotIndex m, b) ∈ snaps
  end.

Record rep_ok (snaps : list (Z * list byte)) (a : astate) (rf : Raft Journal) (p : replica S Res) : Prop := {
  rk_at : 0 <= rp_at p;
  rk_state : state_ok a (rp_at p) (sm (rp_rsm p));
  rk_box : box_ok snaps a (rp_at p) (rp_box p) (appliedIndex rf);
  rk_todo i b : rp_todo p = Some (i, b) -> i = rp_at p /\ b = sm_Snapshot (sm (rp_rsm p));
  rk_restore : rp_restore p = None;
  rk_quiet : how <> RestoreThenRSM -> maxraftstate (rp_rsm p) = -1 /\ rp_todo p = None
}.

Record winv w (a : astate) : Prop := {
  wi_sim : sim ids (w_c w) a;
  wi_rep n : n ∈ ids -> rep_ok (c_snaps (w_c w)) a (c_node (w_c w) n) (w_rp w n);
  wi_snaps i b : (i, b) ∈ c_snaps (w_c w) -> 0 <= i /\ exists s, b = sm_Snapshot s /\ state_ok a i s;
  wi_none : how <> RestoreThenRSM -> c_snaps (w_c w) = []
}.

(** ** Monotonicity *)

Lemma state_ok_mono a a' k s : ale a a' -> state_ok a k s -> state_ok a' k s.
Proof. intros Hle (T & x & Hc & ?). exists T, x. split; [|done]. by eapply committed_mono. Qed.

Lemma cmd_ok_mono a a' i cmd : ale a a' -> cmd_ok a i cmd -> cmd_ok a' i cmd.
Proof. intros Hle (T & x & e & Hc & ?). exists T, x, e. split; [|done]. by eapply committed_mono. Qed.

Lemma box_ok_mono snaps snaps' a a' k box upto :
  ale a a' -> snaps ⊆ snaps' -> box_ok snaps a k box upto -> box_ok snaps' a' k box upto.
Proof.
  intros Hle Hs. revert k. induction box as [|m box IH]; intros k; simpl; [done|].
  intros (Hk & Hb & Hm). split_and!; [done|by apply IH|].
  destruct (am_CommandValid m); des; eauto using cmd_ok_mono.
Qed.

Lemma box_ok_app snaps a k box1 mid box2 upto :
  box_ok snaps a k box1 mid -> box_ok snaps a mid box2 upto -> box_ok snaps a k (box1 ++ box2) upto.
Proof.
  revert k. induction box1 as [|m box1 IH]; intros k; simpl; [by intros ->|].
  intros (? & ? & ?) ?. auto.
Qed.

Lemma box_ok_le snaps a k box upto : box_ok snaps a k box upto -> k <= upto.
Proof.
  revert k. induction box as [|m box IH]; intros k; simpl; [lia|]. intros (? & H & _). apply IH in H. lia.
Qed.

Lemma rep_ok_mono snaps snaps' a a' rf rf' p :
  ale a a' -> snaps ⊆ snaps' -> appliedIndex rf' = appliedIndex rf ->
  rep_ok snaps a rf p -> rep_ok snaps' a' rf' p.
Proof.
  intros Hle Hs Ha [H1 H2 H3 H4 H5 H6]. split; auto; [by eapply state_ok_mono|]. rewrite Ha. by eapply box_ok_mono.
Qed.

(** ** Steps *)

(** The next committed command takes the state one index further. *)
Lemma state_next a k s data op res s' :
  inv ids a -> 0 <= k -> state_ok a k s -> cmd_ok a (k + 1) (Some data) -> decodeOp data = Some op ->
  Rsm.DoOp s (k + 1) (Opcommad op) = Some (res, s') -> state_ok a (k + 1) s'.
Proof.
  intros I Hk (T & x & Hx & Hl & Hr) (T' & y & e & Hy & He & Hc) Ho Hd.
  assert (Hy' : committed ids a T' (take (length x + 1) y))
    by (eapply committed_prefix; [apply prefix_take|exact Hy]).
  apply gidx_Some in He as [_ He]. pose proof (lookup_lt_Some _ _ _ He) as Hlt.
  assert (Hlx : length x = Z.to_nat (k + 1)) by (unfold zlen in Hl; lia).
  assert (Hp : x `prefix_of` take (length x + 1) y).
  { destruct (committed_comparable _ _ _ _ _ _ I Hx Hy') as [?|Hp]; [done|].
    apply prefix_length in Hp. rewrite length_take in Hp. lia. }
  assert (Heq : take (length x + 1) y = x ++ [e]).
  { destruct Hp as [z Hz]. rewrite Hz. f_equal.
    assert (Hlz : length z = 1%nat).
    { apply (f_equal length) in Hz. rewrite length_take, length_app in Hz. lia. }
    destruct z as [|e' [|]]; try done. f_equal.
    assert (Hin : take (length x + 1) y !! length x = Some e) by (rewrite lookup_take_lt by lia; by rewrite Hlx).
    rewrite Hz, lookup_app_r, Nat.sub_diag in Hin by lia. simpl in Hin. congruence. }
  exists T', (x ++ [e]). rewrite <- Heq at 1. split_and!; [done|rewrite zlen_app; change (zlen [e]) with 1; lia|].
  rewrite drop_app_le by lia. rewrite fmap_app, run_cmds_app, Hr. simpl.
  rewrite Hc. simpl. rewrite Ho. simpl.
  replace (1 + zlen (Command <$> drop 1 x)) with (k + 1) by (unfold zlen; rewrite length_fmap, length_drop; lia).
  by rewrite Hd.
Qed.

Lemma imap_box snaps a entries start :
  (forall i e, entries !! i = Some e -> cmd_ok a (start + Z.of_nat i) (Command e)) ->
  box_ok snaps a (start - 1) (imap (fun i e => commandMsg e (start + Z.of_nat i)) entries)
    (start - 1 + zlen entries).
Proof.
  revert start. induction entries as [|e entries IH]; intros start He; simpl; [change (zlen []) with 0; lia|].
  rewrite zlen_cons. unfold msg_index. simpl. split_and!; [lia| |lia|].
  - rewrite (imap_ext _ (fun i e => commandMsg e (start + 1 + Z.of_nat i))).
    2: { intros i e' _. simpl. f_equal. lia. }
    replace (start + Z.of_nat 0) with (start + 1 - 1) by lia.
    replace (start - 1 + (1 + zlen entries)) with (start + 1 - 1 + zlen entries) by lia.
    apply IH. intros i e' Hi. replace (start + 1 + Z.of_nat i) with (start + Z.of_nat (Datatypes.S i)) by lia. by apply He.
  - apply (He 0%nat e). done.
Qed.

(** What the applier delivers continues the box. *)
Lemma deliver_box snaps a0 a n rf ms rf' :
  node_ok ids snaps a0 n rf -> sendApplyMsg rf = Some (ms, rf') ->
  (forall m, m ∈ ms -> msg_ok ids snaps a n m) -> box_ok snaps a (appliedIndex rf) ms (appliedIndex rf').
Proof.
  intros N Hs Hm. unfold sendApplyMsg in Hs. destruct (dead rf); [by simplify_eq|].
  dcase; [by simplify_eq|].
  pose proof (n_applied _ _ _ _ _ N) as Ha. pose proof (n_snap _ _ _ _ _ N) as Hsn.
  pose proof (d_snap _ _ _ _ _ (n_disk _ _ _ _ _ N)) as Hsnap. simpl in Hsnap.
  assert (Hcmd : forall (start : Z) (entries : list LogEntry) pre, ms = pre ++ imap (fun i e => commandMsg e (start + Z.of_nat i)) entries ->
    forall i e, entries !! i = Some e -> cmd_ok a (start + Z.of_nat i) (Command e)).
  { intros start entries pre -> i e Hi. destruct (Hm (commandMsg e (start + Z.of_nat i))) as (T & x & _ & Hx & He).
    - apply elem_of_app. right. apply elem_of_lookup_imap. eauto.
    - simpl in He. destruct He as (e' & He' & Hc). exists T, x, e'. auto. }
  destruct (decide (appliedIndex rf + 1 <= snapshotIndex rf)) as [Hlt|Hge].
  - destruct (Hsnap ltac:(lia)) as (b & Hb & HbS). rewrite Hb in Hs.
    destruct ((logs rf) @[0]) as [s0|]; [|done]. cbn [mbind option_bind] in Hs.
    unfold gslice in Hs. dcase; [|done]. cbn [mbind option_bind] in Hs. simplify_eq/=.
    unfold relIdx in *. set (es := take _ _) in *.
    assert (Hes : zlen es = commitIndex rf - snapshotIndex rf) by (unfold es; zlen_lia).
    unfold msg_index. simpl. split_and!; [lia| |done|eauto].
    replace (commitIndex rf) with (snapshotIndex rf + 1 - 1 + zlen es) by lia.
    replace (snapshotIndex rf) with (snapshotIndex rf + 1 - 1) at 1 by lia.
    apply imap_box. by apply (Hcmd _ es [snapshotMsg b (Term s0) (snapshotIndex rf)]).
  - destruct ((logs rf) @[0]) as [s0|]; [|done]. cbn [mbind option_bind] in Hs.
    unfold gslice in Hs. dcase; [|done]. cbn [mbind option_bind] in Hs. simplify_eq/=.
    unfold relIdx in *. set (es := take _ _) in *.
    assert (Hes : zlen es = commitIndex rf - appliedIndex rf) by (unfold es; zlen_lia).
    replace (commitIndex rf) with (appliedIndex rf + 1 - 1 + zlen es) by lia.
    replace (appliedIndex rf) with (appliedIndex rf + 1 - 1) at 1 by lia.
    apply imap_box. by apply (Hcmd _ es []).
Qed.

Lemma cstep_ale c c' a : sim ids c a -> cstep ids c c' -> exists a', sim ids c' a' /\ ale a a'.
Proof.
  intros Hsim Hs. destruct (step_sim ids Hids Hnd c c' a Hsim Hs) as (a' & Hr & Hsim').
  exists a'. split; [done|]. by apply (asteps_inv ids a a' (s_inv _ _ _ Hsim)).
Qed.

(** The relation looks at the nodes one by one. *)
Lemma sim_ext c c' a :
  sim ids c a -> (forall n, c_node c' n = c_node c n) -> c_net c' = c_net c -> c_out c' = c_out c ->
  c_snaps c' = c_snaps c -> sim ids c' a.
Proof.
  intros [H1 H2 H3 H4 H5 H6] En E1 E2 E3. split; rewrite ?E1, ?E2, ?E3; auto.
  - intros n Hn. rewrite En. auto.
  - intros n Hn. rewrite En. auto.
Qed.

Lemma ale_refl a : ale a a.
Proof. reflexivity. Qed.

(** A step of node [n] that leaves the other replicas alone. *)
Lemma winv_node w a a' c' n p' :
  winv w a -> n ∈ ids -> sim ids c' a' -> ale a a' ->
  (forall m, m <> n -> c_node c' m = c_node (w_c w) m) ->
  c_snaps (w_c w) ⊆ c_snaps c' ->
  (forall i b, (i, b) ∈ c_snaps c' -> (i, b) ∈ c_snaps (w_c w) \/ (0 <= i /\ exists s, b = sm_Snapshot s /\ state_ok a i s)) ->
  (how <> RestoreThenRSM -> c_snaps (w_c w) = [] -> c_snaps c' = []) ->
  rep_ok (c_snaps c') a' (c_node c' n) p' ->
  winv (mkW c' (<[n := p']> (w_rp w))) a'.
Proof.
  intros [Hsim Hrep Hsnaps Hnone] Hn Hsim' Hle Hoth Hsub Hnew Hquiet Hp. split; simpl; [done| | |by auto].
  - intros m Hm. destruct (decide (n = m)) as [<-|Hne]; fn_upd; [done|].
    eapply rep_ok_mono; [exact Hle|exact Hsub| |by apply Hrep]. by rewrite Hoth.
  - intros i b Hib. assert (Hok : 0 <= i /\ exists s, b = sm_Snapshot s /\ state_ok a i s)
      by (destruct (Hnew _ _ Hib); [by apply Hsnaps|done]).
    destruct Hok as (? & s & ? & ?). split; [done|]. exists s. split; [done|]. by eapply state_ok_mono.
Qed.

Context `{!LawfulSM S Req Res}.

(** The restore comes first, or there is never anything to restore. *)
Context (Hstart : how = RestoreThenRSM \/ limit = -1).

(** The replica of a restarted node. *)
Lemma start_ok snaps a n rf s later :
  (forall i b, (i, b) ∈ snaps -> 0 <= i /\ exists s, b = sm_Snapshot s /\ state_ok a i s) ->
  (how <> RestoreThenRSM -> snaps = []) ->
  node_ok ids snaps a n rf -> appliedIndex rf = snapshotIndex rf -> start (snapshot rf) = Some (s, later) ->
  rep_ok snaps a rf (mkRep (MakeRSM limit s) [] (snapshotIndex rf) None later).
Proof.
  intros Hsn Hnone N Ha Hrs. pose proof (d_idx _ _ _ _ _ (n_disk _ _ _ _ _ N)) as Hi. simpl in Hi.
  pose proof (d_has_snap _ _ _ _ _ (n_disk _ _ _ _ _ N)) as Hs. simpl in Hs.
  assert (Hst : state_ok a (snapshotIndex rf) s /\ later = None).
  { unfold has_snap in Hs. unfold start in Hrs. destruct (decide (0 < snapshotIndex rf)) as [Hpos|Hz].
    - destruct Hs as (b & Hb & HbS). rewrite Hb in Hrs. simpl in Hrs.
      destruct (decide (how = RestoreThenRSM)) as [Hh|Hh]; [|by rewrite (Hnone Hh) in HbS; apply elem_of_nil in HbS].
      rewrite Hh in Hrs. destruct (Hsn _ _ HbS) as (_ & s' & -> & Hst). pose proof (sm_Snapshot_nonempty s') as Hne.
      rewrite decide_True in Hrs by (destruct (sm_Snapshot s'); [done|]; rewrite zlen_cons; pose proof (zlen_nonneg l); lia).
      rewrite sm_Restore_Snapshot in Hrs. by simplify_eq/=.
    - rewrite Hs in Hrs. assert (s = sm0 /\ later = None) as [-> ->] by (by destruct how; simplify_eq/=).
      split; [|done]. exists 0, [sentinel 0]. split_and!; [by left| |done].
      change (zlen [sentinel 0]) with 1. lia. }
  destruct Hst as [Hst ->]. split; simpl; [lia|done|done|done|done|].
  intros Hh. destruct Hstart; [done|]. done.
Qed.

(** Without snapshots the loop never asks for one. *)
Lemma readApplyCh_quiet (rf : Raft Journal) (r : RSM S Res) m r' todo :
  readApplyCh rf r m = Some (r', todo) ->
  maxraftstate r' = maxraftstate r /\ (maxraftstate r = -1 -> todo = None).
Proof.
  unfold readApplyCh. destruct (am_CommandValid m).
  - destruct (am_Command m) as [data|]; [|done]. simpl. destruct (decodeOp data) as [op|]; [|done]. simpl.
    destruct (Rsm.DoOp (sm r) _ _) as [[res s']|]; [|done]. simpl.
    destruct (answer _ _ _ _) as [r1|] eqn:Han; [|done]. simpl. intros [= <- <-]. simpl.
    assert (Hm : maxraftstate r1 = maxraftstate r).
    { unfold answer, chan_send, chan_close in Han. by repeat case_match; simplify_eq/=. }
    split; [done|]. intros Hl. rewrite decide_False; [done|]. rewrite Hm, Hl. tauto.
  - destruct (am_SnapshotValid m); [|by intros [= <- <-]]. destruct (am_Snapshot m); [|done]. simpl.
    destruct (sm_Restore _ _); [|done]. by intros [= <- <-].
Qed.

(** One message of the box is applied. *)
Lemma apply_ok snaps a rf p m rest r' todo :
  inv ids a -> (forall i b, (i, b) ∈ snaps -> 0 <= i /\ exists s, b = sm_Snapshot s /\ state_ok a i s) ->
  rep_ok snaps a rf p -> rp_box p = m :: rest -> readApplyCh rf (rp_rsm p) m = Some (r', todo) ->
  rep_ok snaps a rf (mkRep r' rest (msg_index m) todo (rp_restore p)).
Proof.
  intros I Hsn [H1 H2 H3 _ H5 H6] Hb Ha. destruct (readApplyCh_quiet _ _ _ _ _ Ha) as [Hm1 Hm2].
  assert (Hq : how <> RestoreThenRSM -> maxraftstate r' = -1 /\ todo = None)
    by (intros Hh; destruct (H6 Hh); rewrite Hm1; auto).
  clear Hm1 Hm2 H6. rewrite Hb in H3. simpl in H3. destruct H3 as (Hlt & Hbox & Hm).
  unfold readApplyCh in Ha. unfold msg_index in *. destruct (am_CommandValid m) eqn:Hv.
  - destruct Hm as [Hi Hc]. destruct (am_Command m) as [data|]; [|done]. simpl in Ha.
    destruct (decodeOp data) as [op|] eqn:Ho; [|done]. simpl in Ha.
    destruct (Rsm.DoOp (sm (rp_rsm p)) (am_CommandIndex m) (Opcommad op)) as [[res s']|] eqn:Hd; [|done]. simpl in Ha.
    destruct (answer _ _ _ _) as [r1|] eqn:Han; [|done]. simpl in Ha. simplify_eq.
    assert (Hsm : sm r1 = s').
    { unfold answer, chan_send, chan_close in Han. by repeat case_match; simplify_eq/=. }
    split; simpl; [lia| |done| |done|done].
    + rewrite Hsm, Hi. rewrite Hi in Hc, Hd. by eapply state_next.
    + intros i b Htd. dcase; by simplify_eq.
  - destruct Hm as (Hsv & b & Hb' & HbS). rewrite Hsv, Hb' in Ha. simpl in Ha.
    destruct (Hsn _ _ HbS) as (? & s' & -> & Hst). rewrite sm_Restore_Snapshot in Ha. simplify_eq/=.
    by split.
Qed.

Lemma rep_ok_sm snaps a rf p r' :
  sm r' = sm (rp_rsm p) -> maxraftstate r' = maxraftstate (rp_rsm p) -> rep_ok snaps a rf p ->
  rep_ok snaps a rf (mkRep r' (rp_box p) (rp_at p) (rp_todo p) (rp_restore p)).
Proof. intros E E' [H1 H2 H3 H4 H5 H6]. split; simpl; rewrite ?E, ?E'; auto. Qed.

Lemma Submit_shape (rf0 rf rf' : Raft Journal) (r r' : RSM S Res) hash (req : Req) o :
  Submit rf0 rf r hash req = Some (o, rf', r') ->
  (sm r' = sm r /\ maxraftstate r' = maxraftstate r) /\ (rf' = rf \/ exists i t ok, Start rf (Some (encodeOp (mkOp req hash))) = Some (i, t, ok, rf')).
Proof.
  unfold Submit. intros H. destruct (snd (GetState rf0)); [|simplify_eq; auto].
  destruct (Start rf _) as [[[[i t] ok] rf1]|] eqn:E; [|done]. simpl in H. destruct ok; simpl in H.
  - match type of H with (?m ≫= _) = _ => destruct m as [r1|] eqn:Em; [|done] end. simplify_eq/=.
    split; [|eauto]. destruct (chMap r !! i); [|by simplify_eq]. unfold chan_close in Em.
    by repeat case_match; simplify_eq.
  - simplify_eq. split; [done|eauto].
Qed.

(** The snapshot that is due is one Raft may be given. *)
Lemma todo_ok w a n i b :
  winv w a -> n ∈ ids -> rp_todo (w_rp w n) = Some (i, b) ->
  ev_ok (c_node (w_c w) n) (ESnapshot i b) /\ 0 <= i /\ exists s, b = sm_Snapshot s /\ state_ok a i s.
Proof.
  intros HW Hn Ht. destruct (wi_rep _ _ HW n Hn) as [H1 H2 H3 H4 _ _]. destruct (H4 _ _ Ht) as [-> ->].
  apply box_ok_le in H3. split; [split; [exact H3|apply sm_Snapshot_nonempty]|]. split; [done|]. eauto.
Qed.

Lemma raft_step_ok w a n ev net rf ps ms :
  winv w a -> n ∈ ids -> own_event ev -> ev_ok (c_node (w_c w) n) ev -> takes ev (c_net (w_c w)) net ->
  exec (c_node (w_c w) n) ev = Some (rf, ps, ms) ->
  exists a', winv (mkW (with_node (w_c w) n rf ps net (((fun m => (n, m)) <$> ms) ++ c_out (w_c w)) (c_snaps (w_c w)))
    (<[n := mkRep (rp_rsm (w_rp w n)) (rp_box (w_rp w n) ++ ms) (rp_at (w_rp w n)) (rp_todo (w_rp w n))
                        (rp_restore (w_rp w n))]> (w_rp w))) a'.
Proof.
  intros HW Hn Hown Hev Hnet Hex. pose proof HW as [Hsim Hrep Hsnaps Hnone].
  assert (Hstep : cstep ids (w_c w) (with_node (w_c w) n rf ps net (((fun m => (n, m)) <$> ms) ++ c_out (w_c w)) (c_snaps (w_c w)))).
  { pose proof (C_exec ids (w_c w) n ev net rf ps ms Hn Hev Hnet Hex) as Hc. by destruct ev. }
  destruct (cstep_ale _ _ _ Hsim Hstep) as (a' & Hsim' & Hle). exists a'.
  destruct (rep_ok_mono (c_snaps (w_c w)) (c_snaps (w_c w)) a a' (c_node (w_c w) n) (c_node (w_c w) n) (w_rp w n) Hle)
    as [R1 R2 R3 R4 R5 R6]; [done|done|by apply Hrep|].
  eapply winv_node; [done..| |done|by left|done|].
  { intros m' Hne. simpl. by rewrite fn_lookup_insert_ne. }
  simpl. rewrite fn_lookup_insert. split; simpl; auto. eapply box_ok_app; [exact R3|].
  assert (Hcase : ev = EApply \/ ev <> EApply) by (destruct ev; auto).
  destruct Hcase as [->|Hne].
  - simpl in Hex. destruct (sendApplyMsg (c_node (w_c w) n)) as [[ms' rf']|] eqn:E; simplify_eq/=.
    eapply (deliver_box _ a _ n); [by apply Hsim|exact E|].
    intros m Hm. apply (s_out _ _ _ Hsim'). simpl. apply elem_of_app. left. apply list_elem_of_fmap. eauto.
  - by destruct (exec_applied _ _ _ _ _ Hex Hne) as [-> ->].
Qed.

Lemma submit_step_ok w a n rf0 hash req o rf r' :
  winv w a -> n ∈ ids -> Submit rf0 (c_node (w_c w) n) (rp_rsm (w_rp w n)) hash req = Some (o, rf, r') ->
  exists a', winv (mkW (with_node (w_c w) n rf [] (c_net (w_c w)) (c_out (w_c w)) (c_snaps (w_c w)))
    (<[n := mkRep r' (rp_box (w_rp w n)) (rp_at (w_rp w n)) (rp_todo (w_rp w n))
                        (rp_restore (w_rp w n))]> (w_rp w))) a'.
Proof.
  intros HW Hn Hsub. pose proof HW as [Hsim Hrep Hsnaps Hnone].
  destruct (Submit_shape _ _ _ _ _ _ _ _ Hsub) as [Hsm Hrf].
  set (c' := with_node _ _ _ _ _ _ _).
  assert (Hs : exists a', sim ids c' a' /\ ale a a' /\ appliedIndex rf = appliedIndex (c_node (w_c w) n)).
  { destruct Hrf as [->|(i & t & ok & Hst)].
    - exists a. split_and!; [|apply ale_refl|done]. eapply sim_ext; [exact Hsim|..]; try done.
      intros m. unfold c', with_node. simpl. destruct (decide (n = m)) as [<-|]; by fn_upd.
    - destruct (cstep_ale (w_c w) c' a Hsim) as (a' & ? & ?).
      + apply (C_exec ids (w_c w) n (EStart (encodeOp (mkOp req hash))) (c_net (w_c w)) rf [] []); [done..|].
        simpl. by rewrite Hst.
      + exists a'. split_and!; [done|done|]. by apply Start_applied in Hst. }
  destruct Hs as (a' & Hsim' & Hle & Hap). exists a'.
  eapply winv_node; [done..| |done|by left|done|].
  { intros m' Hne. simpl. by rewrite fn_lookup_insert_ne. }
  simpl. rewrite fn_lookup_insert. apply rep_ok_sm; [apply Hsm|apply Hsm|]. eapply rep_ok_mono; [exact Hle|done|exact Hap|by apply Hrep].
Qed.

Lemma crash_step_ok w a n ev net rf ps ms (j : Journal) rf' s later :
  winv w a -> n ∈ ids ->
  (own_event ev \/ (exists cmd, ev = EStart cmd) \/ exists i b, ev = ESnapshot i b /\ rp_todo (w_rp w n) = Some (i, b)) ->
  (own_event ev -> ev_ok (c_node (w_c w) n) ev) -> takes ev (c_net (w_c w)) net ->
  exec (c_node (w_c w) n) ev = Some (rf, ps, ms) ->
  wal (c_node (w_c w) n) `suffix_of` j -> j `suffix_of` wal rf ->
  MakeWithWAL n ids j = Some rf' -> start (snapshot rf') = Some (s, later) ->
  exists a', winv (mkW (with_node (w_c w) n rf' [] net (c_out (w_c w)) (new_snaps ev ++ c_snaps (w_c w)))
    (<[n := mkRep (MakeRSM limit s) [] (snapshotIndex rf') None later]> (w_rp w))) a'.
Proof.
  intros HW Hn Hkind Hev Hnet Hex Hj1 Hj2 Hmk Hrs. pose proof HW as [Hsim Hrep Hsnaps Hnone].
  assert (Hev' : ev_ok (c_node (w_c w) n) ev /\
    forall i b, (i, b) ∈ new_snaps ev -> 0 <= i /\ exists s, b = sm_Snapshot s /\ state_ok a i s).
  { destruct Hkind as [Ho|[(cmd & ->)|(i & b & -> & Ht)]].
    - split; [auto|]. intros i b Hib. by destruct ev; simpl in *; try done; apply elem_of_nil in Hib.
    - split; [done|]. intros i b Hib. by apply elem_of_nil in Hib.
    - destruct (todo_ok _ _ _ _ _ HW Hn Ht) as (H1 & H2). split; [done|]. simpl.
      intros i' b' [= -> ->]%list_elem_of_singleton. done. }
  destruct Hev' as [Hev' Hnew].
  destruct (cstep_ale _ _ _ Hsim (C_crash ids (w_c w) n ev net rf ps ms j rf' Hn Hev' Hnet Hex Hj1 Hj2 Hmk))
    as (a' & Hsim' & Hle). exists a'.
  assert (Hall : forall i b, (i, b) ∈ new_snaps ev ++ c_snaps (w_c w) ->
    0 <= i /\ exists s, b = sm_Snapshot s /\ state_ok a i s).
  { intros i b [?|?]%elem_of_app; auto. }
  assert (Hnil : how <> RestoreThenRSM -> new_snaps ev = []).
  { intros Hh. destruct Hkind as [Ho|[(cmd & ->)|(i & b & -> & Ht)]]; [by destruct ev|done|].
    destruct (rk_quiet _ _ _ _ (Hrep n Hn) Hh). congruence. }
  eapply winv_node; [done..| | | | |].
  - intros m' Hne. simpl. by rewrite fn_lookup_insert_ne.
  - simpl. set_solver.
  - simpl. intros i b Hib. right. auto.
  - intros Hh ->. simpl. rewrite app_nil_r. by apply Hnil.
  - simpl. rewrite fn_lookup_insert. apply (start_ok _ _ n).
    + intros i b Hib. destruct (Hall i b Hib) as (? & s' & ? & ?). split; [done|]. exists s'.
      split; [done|]. by eapply state_ok_mono.
    + intros Hh. rewrite (Hnone Hh), app_nil_r. by apply Hnil.
    + pose proof (s_node _ _ _ Hsim' n Hn) as N. simpl in N. by rewrite fn_lookup_insert in N.
    + unfold MakeWithWAL in Hmk. destruct (Load j) as [[st0 ok]|]; [|done]. simpl in Hmk. by simplify_eq/=.
    + done.
Qed.

Lemma winv_step w w' a : winv w a -> wstep w w' -> exists a', winv w' a'.
Proof.
  intros HW Hs. pose proof HW as [Hsim Hrep Hsnaps Hnone].
  destruct Hs as [w n ev net rf ps ms Hn Hown Hev Hnet Hex|w n rf0 hash req o rf r' Hn Hsub
    |w n tk wk o r' Hn Hwt|w n m rest r' todo Hn Htd Hbox Hap|w n i b rf Hn Htd Hsn
    |w n ev net rf ps ms j rf' s later Hn Hkind Hev Hnet Hex Hj1 Hj2 Hmk Hrs|w n data s Hn Hrs Hr|w p net Hnet].
  - by eapply raft_step_ok.
  - by eapply submit_step_ok.
  - exists a. eapply winv_node; [done..|by apply ale_refl|done|done|by left|done|]. apply rep_ok_sm; [| |by apply Hrep].
    all: destruct wk; simpl in Hwt; by repeat case_match; simplify_eq.
  - exists a. eapply winv_node; [done..|by apply ale_refl|done|done|by left|done|]. simpl.
    eapply apply_ok; eauto. apply Hsim.
  - destruct (todo_ok _ _ _ _ _ HW Hn Htd) as (Hev & H1 & H2).
    destruct (cstep_ale (w_c w) (with_node (w_c w) n rf [] (c_net (w_c w)) (c_out (w_c w)) ((i, b) :: c_snaps (w_c w))) a Hsim)
      as (a' & Hsim' & Hle).
    { apply (C_exec ids (w_c w) n (ESnapshot i b) (c_net (w_c w)) rf [] []); [done..|]. simpl. by rewrite Hsn. }
    assert (Hap : appliedIndex rf = appliedIndex (c_node (w_c w) n)).
    { eapply (exec_applied _ (ESnapshot i b) rf [] []); [|done]. simpl. by rewrite Hsn. }
    exists a'. eapply winv_node; [done..| | | | |].
    + intros m' Hne. simpl. by rewrite fn_lookup_insert_ne.
    + simpl. set_solver.
    + simpl. intros i' b' [[= -> ->]|?]%elem_of_cons; auto.
    + intros Hh. destruct (rk_quiet _ _ _ _ (Hrep n Hn) Hh). congruence.
    + simpl. rewrite fn_lookup_insert.
      destruct (rep_ok_mono (c_snaps (w_c w)) ((i, b) :: c_snaps (w_c w)) a a' _ rf (w_rp w n) Hle ltac:(set_solver) Hap (Hrep n Hn))
        as [R1 R2 R3 R4 R5 R6]. split; simpl; [done..|]. intros Hh. by destruct (R6 Hh).
  - by eapply crash_step_ok.
  - pose proof (rk_restore _ _ _ _ (Hrep n Hn)). congruence.
  - destruct (cstep_ale _ _ _ Hsim (C_drop ids (w_c w) p net Hnet)) as (a' & Hsim' & Hle). exists a'.
    split; simpl; [done| | |done].
    + intros n Hn. eapply rep_ok_mono; [exact Hle|done|done|by apply Hrep].
    + intros i b Hib. destruct (Hsnaps _ _ Hib) as (? & s' & ? & ?). split; [done|]. exists s'.
      split; [done|]. by eapply state_ok_mono.
Qed.

Lemma winit_inv w : winit w -> winv w ainit.
Proof.
  intros [Hc Hr]. pose proof (init_sim ids _ Hc) as Hsim. destruct Hc as (Hmk & _ & _ & Hsn). split; [done| | |done].
  - intros n Hn. rewrite (Hr n Hn). split; simpl; [lia| | |done|done|by destruct Hstart].
    + exists 0, [sentinel 0]. split_and!; [by left|done|done].
    + specialize (Hmk n Hn). by injection Hmk as <-.
  - rewrite Hsn. intros i b Hib. by apply elem_of_nil in Hib.
Qed.

Lemma wreach_inv w : wreach w -> exists a, winv w a.
Proof.
  intros (w0 & Hi & Hr). apply winit_inv in Hi.
  assert (Hgen : forall a0, winv w0 a0 -> exists a, winv w a).
  { clear Hi. induction Hr as [w|w1 w2 w3 Hs _ IH]; intros a0 HW; [eauto|].
    destruct (winv_step _ _ _ HW Hs) as (a1 & HW1). eauto. }
  eauto.
Qed.

(** The states of any of the nodes come from prefixes of one committed log. *)
Lemma common_log w a l :
  winv w a -> l ⊆ ids -> exists T x, committed ids a T x /\ forall n, n ∈ l -> exists y,
    y `prefix_of` x /\ zlen y = rp_at (w_rp w n) + 1 /\
    run_cmds sm0 1 (Command <$> drop 1 y) = Some (sm (rp_rsm (w_rp w n))).
Proof.
  intros HW. pose proof (s_inv _ _ _ (wi_sim _ _ HW)) as I. induction l as [|n l IH]; intros Hsub.
  - exists 0, []. split; [left; apply prefix_nil|]. intros n Hn. by apply elem_of_nil in Hn.
  - destruct IH as (T & x & Hx & Hp); [set_solver|].
    destruct (rk_state _ _ _ _ (wi_rep _ _ HW n (Hsub n (list_elem_of_here _ _)))) as (T' & y & Hy & Hly & Hry).
    destruct (committed_comparable _ _ _ _ _ _ I Hx Hy) as [Hxy|Hxy].
    + exists T', y. split; [done|]. intros m [->|Hm]%elem_of_cons; [eauto|].
      destruct (Hp m Hm) as (z & ? & ?). exists z. split; [by etrans|done].
    + exists T, x. split; [done|]. intros m [->|Hm]%elem_of_cons; [eauto|]. auto.
Qed.

(** One sequence of commands explains the state of every replica. *)
Lemma one_log w :
  wreach w ->
  exists L, forall n, n ∈ ids ->
    0 <= rp_at (w_rp w n) <= zlen L /\
    run_cmds sm0 1 (take (Z.to_nat (rp_at (w_rp w n))) L) = Some (sm (rp_rsm (w_rp w n))).
Proof.
  intros Hr. destruct (wreach_inv w Hr) as (a & HW).
  destruct (common_log w a ids HW) as (T & x & _ & Hx); [done|].
  exists (Command <$> drop 1 x). intros n Hn.
  destruct (Hx n Hn) as (y & [z ->] & Hly & Hry). pose proof (rk_at _ _ _ _ (wi_rep _ _ HW n Hn)).
  assert (Hd : drop 1 (y ++ z) = drop 1 y ++ z) by (apply drop_app_le; zlen_lia).
  rewrite Hd, fmap_app. split; [rewrite zlen_app; unfold zlen at 1; rewrite length_fmap; zlen_lia|].
  rewrite take_app_length'; [done|]. rewrite length_fmap. zlen_lia.
Qed.

(** C2: replicated state machine.  Take a service that restores Raft's snapshot
    before its applier starts, as the servers of shard groups do, or any service
    when no snapshots are taken ([maxraftstate] is -1).  In every reachable state
    of the whole system, with clients, crashes, restarts, snapshots taken and
    installed and message loss, there is one sequence of commands such that the
    service of every node is in the state reached from the initial one by exactly
    the first [rp_at] commands of that sequence, for the index [rp_at] it has
    applied. *)
Theorem replicas_apply_one_log w :
  wreach w ->
  exists L, forall n, n ∈ ids ->
    0 <= rp_at (w_rp w n) <= zlen L /\
    run_cmds sm0 1 (take (Z.to_nat (rp_at (w_rp w n))) L) = Some (sm (rp_rsm (w_rp w n))).
Proof. apply one_log. Qed.

End world.


(** The key/value service on the in-memory store. *)
#[export] Instance mapStore_sm `{!Gob KvMap} : LawfulSM mapStore request (option reply).
Proof.
  constructor.
  - intros s s0. simpl. unfold ms_Restore, ms_Snapshot. rewrite gob_roundtrip. by destruct s.
  - intros s. apply gob_nonempty.
Qed.

(** ** Running a script

    The steps of [wstep] as a function of a list of actions. *)
Module Script.

Inductive action (Req : Type) :=
| ADo (n : NodeID) (ev : event)
| ADeliver (i : nat)
| ASubmit (n : NodeID) (hash : Z) (req : Req)
| AApply (n : NodeID)
| ASnap (n : NodeID)
| ACrash (n : NodeID)
| ARestore (n : NodeID)
| ADrop (i : nat).
Arguments ADo {Req}.
Arguments ADeliver {Req}.
Arguments ASubmit {Req}.
Arguments AApply {Req}.
Arguments ASnap {Req}.
Arguments ACrash {Req}.
Arguments ARestore {Req}.
Arguments ADrop {Req}.

Section script.
Context {S Req Res : Type} `{!StateMachine S Req Res} `{!Gob (Op Req)} (sm0 : S) (limit : Z) (how : startup).
Abbreviation World := (world S Res).

Definition in_abc (n : NodeID) : bool := bool_decide (n ∈ abc).

Definition raft (w : World) (n : NodeID) (ev : event) (net : list packet) : option World :=
  '(rf, ps, ms) ← exec (c_node (w_c w) n) ev;
  Some (mkW (with_node (w_c w) n rf ps net (((fun m => (n, m)) <$> ms) ++ c_out (w_c w)) (c_snaps (w_c w)))
          (<[n := mkRep (rp_rsm (w_rp w n)) (rp_box (w_rp w n) ++ ms) (rp_at (w_rp w n)) (rp_todo (w_rp w n))
                    (rp_restore (w_rp w n))]> (w_rp w))).

Definition timer (ev : event) : bool :=
  match ev with ETimeout _ | EHeartbeat | EApply => true | _ => false end.

Definition act (w : World) (x : action Req) : option World :=
  match x with
  | ADo n ev => if in_abc n && timer ev then raft w n ev (c_net (w_c w)) else None
  | ADeliver i =>
      p ← c_net (w_c w) !! i;
      if in_abc (dest p) && bool_decide (dest p = me (c_node (w_c w) (dest p)))
      then raft w (dest p) (ERecv p) (delete i (c_net (w_c w))) else None
  | ASubmit n hash req =>
      if in_abc n then
        '(o, rf, r) ← Submit (c_node (w_c w) n) (c_node (w_c w) n) (rp_rsm (w_rp w n)) hash req;
        Some (mkW (with_node (w_c w) n rf [] (c_net (w_c w)) (c_out (w_c w)) (c_snaps (w_c w)))
                (<[n := mkRep r (rp_box (w_rp w n)) (rp_at (w_rp w n)) (rp_todo (w_rp w n))
                          (rp_restore (w_rp w n))]> (w_rp w)))
      else None
  | AApply n =>
      if in_abc n then
        match rp_todo (w_rp w n), rp_box (w_rp w n) with
        | None, m :: rest =>
            '(r, todo) ← readApplyCh (c_node (w_c w) n) (rp_rsm (w_rp w n)) m;
            Some (mkW (w_c w) (<[n := mkRep r rest (msg_index m) todo (rp_restore (w_rp w n))]> (w_rp w)))
        | _, _ => None
        end
      else None
  | ASnap n =>
      if in_abc n then
        '(i, b) ← rp_todo (w_rp w n);
        rf ← Snapshot (c_node (w_c w) n) i (Some b);
        Some (mkW (with_node (w_c w) n rf [] (c_net (w_c w)) (c_out (w_c w)) ((i, b) :: c_snaps (w_c w)))
                (<[n := mkRep (rp_rsm (w_rp w n)) (rp_box (w_rp w n)) (rp_at (w_rp w n)) None
                          (rp_restore (w_rp w n))]> (w_rp w)))
      else None
  | ACrash n =>
      if in_abc n then
        rf ← MakeWithWAL n abc (wal (c_node (w_c w) n));
        '(s, later) ← start sm0 how (snapshot rf);
        Some (mkW (with_node (w_c w) n rf [] (c_net (w_c w)) (c_out (w_c w)) (c_snaps (w_c w)))
                (<[n := mkRep (MakeRSM limit s) [] (snapshotIndex rf) None later]> (w_rp w)))
      else None
  | ARestore n =>
      if in_abc n then
        data ← rp_restore (w_rp w n);
        s ← sm_Restore (sm (rp_rsm (w_rp w n))) data;
        Some (mkW (w_c w)
                (<[n := mkRep (set_sm s (rp_rsm (w_rp w n))) (rp_box (w_rp w n)) (rp_at (w_rp w n))
                          (rp_todo (w_rp w n)) None]> (w_rp w)))
      else None
  | ADrop i =>
      p ← c_net (w_c w) !! i;
      Some (mkW (mkC (c_node (w_c w)) (delete i (c_net (w_c w))) (c_out (w_c w)) (c_snaps (w_c w))) (w_rp w))
  end.

Fixpoint run (w : World) (xs : list (action Req)) : option World :=
  match xs with [] => Some w | x :: xs => w ← act w x; run w xs end.

Lemma in_abc_elem n : in_abc n = true -> n ∈ abc.
Proof. apply bool_decide_eq_true_1. Qed.

Lemma raft_step w n ev net w' :
  n ∈ abc -> own_event ev -> ev_ok (c_node (w_c w) n) ev -> takes ev (c_net (w_c w)) net ->
  raft w n ev net = Some w' -> wstep abc sm0 limit how w w'.
Proof.
  intros Hn Ho He Ht H. unfold raft in H. destruct (exec _ _) as [[[rf ps] ms]|] eqn:E; simplify_eq/=.
  by eapply W_raft.
Qed.

Lemma script_step w x w' : act w x = Some w' -> wstep abc sm0 limit how w w'.
Proof.
  destruct x as [n ev|i|n hash req|n|n|n|n|i]; cbn [act].
  - destruct (in_abc n) eqn:En; [|done]. destruct (timer ev) eqn:Et; [|done]. intros H.
    apply (raft_step w n ev (c_net (w_c w))); auto using in_abc_elem; by destruct ev.
  - destruct (c_net (w_c w) !! i) as [p|] eqn:E; [|done]. simpl. destruct (in_abc (dest p)) eqn:En; [|done].
    destruct (bool_decide (dest p = me (c_node (w_c w) (dest p)))) eqn:Ed; [|done]. apply bool_decide_eq_true_1 in Ed.
    intros H. apply (raft_step w (dest p) (ERecv p) (delete i (c_net (w_c w)))); auto using in_abc_elem; simpl; [done|].
    by apply lookup_delete_Permutation.
  - destruct (in_abc n) eqn:En; [|done]. destruct (Submit _ _ _ _ _) as [[[o rf] r]|] eqn:E; [|done].
    intros [= <-]. eapply W_submit; eauto using in_abc_elem.
  - destruct (in_abc n) eqn:En; [|done]. destruct (rp_todo (w_rp w n)) eqn:Et; [done|].
    destruct (rp_box (w_rp w n)) as [|m rest] eqn:Eb; [done|].
    destruct (readApplyCh _ _ m) as [[r todo]|] eqn:E; [|done]. intros [= <-]. eapply W_apply; eauto using in_abc_elem.
  - destruct (in_abc n) eqn:En; [|done]. destruct (rp_todo (w_rp w n)) as [[j b]|] eqn:Et; [|done]. simpl.
    destruct (Snapshot _ _ _) as [rf|] eqn:E; [|done]. intros [= <-]. eapply W_snapshot; eauto using in_abc_elem.
  - destruct (in_abc n) eqn:En; [|done].
    destruct (MakeWithWAL n abc (wal (c_node (w_c w) n))) as [rf|] eqn:E; cbn [mbind option_bind]; [|done].
    destruct (start sm0 how (snapshot rf)) as [[s later]|] eqn:Es; cbn [mbind option_bind]; [|done]. intros [= <-].
    eapply (W_crash abc sm0 limit how w n EKill _ _ _ _ (wal (c_node (w_c w) n))); simpl; eauto using in_abc_elem; try done.
    unfold Kill. by destruct (dead _).
  - destruct (in_abc n) eqn:En; [|done]. destruct (rp_restore (w_rp w n)) as [data|] eqn:Et; [|done]. simpl.
    destruct (sm_Restore _ _) as [s|] eqn:E; [|done]. intros [= <-]. eapply W_restore; eauto using in_abc_elem.
  - destruct (c_net (w_c w) !! i) as [p|] eqn:E; simpl; [|done]. intros [= <-].
    eapply W_drop. by apply lookup_delete_Permutation.
Qed.

Definition w0 : World := mkW (c0 abc) (fun _ => mkRep (MakeRSM limit sm0) [] 0 None None).

Lemma script_reach xs w : run w0 xs = Some w -> wreach abc sm0 limit how w.
Proof.
  intros H. exists w0. split; [split; [apply c0_init|done]|].
  revert H. generalize w0 as v. induction xs as [|x xs IH]; intros v H; simpl in H; simplify_eq; [done|].
  destruct (act v x) as [v1|] eqn:E; [|done]. eapply rtc_l; [by eapply script_step|]. by apply IH.
Qed.

(** The world after a script, if it can be run. *)
Definition after (xs : list (action Req)) : World := default w0 (run w0 xs).

Lemma script_after_reach xs :
  match run w0 xs with Some _ => true | None => false end = true -> wreach abc sm0 limit how (after xs).
Proof. unfold after. destruct (run w0 xs) as [w|] eqn:E; [|done]. intros _. by eapply script_reach. Qed.

(** "a" is elected, serves two operations, snapshotting after each, and brings
    "c", cut off so far, up to date by its snapshot. *)
Definition two_ops (r1 r2 : Req) : list (action Req) :=
  [ADo "a" (ETimeout 0); ADeliver 0; ADeliver 0; ADrop 0; ASubmit "a" 11 r1; ASubmit "a" 12 r2;
   ADo "a" EHeartbeat; ADeliver 0; ADeliver 0; ADrop 0;
   ADo "a" EApply; AApply "a"; ASnap "a"; AApply "a"; ASnap "a";
   ADo "a" EHeartbeat; ADeliver 1; ADeliver 0; ADrop 0;
   ADo "c" EApply; AApply "c"].

(** "c" crashes and restarts; then a third operation is committed, and both "a"
    and "c" apply it. *)
Definition third_op (r3 : Req) : list (action Req) :=
  [ACrash "c"; ASubmit "a" 13 r3; ADo "a" EHeartbeat; ADrop 0; ADeliver 0; ADeliver 0;
   ADo "a" EApply; AApply "a"; ADo "a" EHeartbeat; ADrop 0; ADeliver 0; ADo "c" EApply; AApply "c"].

End script.
End Script.

(** ** Runs *)
Module ServiceDemo.
Import StoreDemo Script.

#[local] Instance map_gob : Gob KvMap := bit_gob.

#[local] Instance request_countable : Countable request.
Proof.
  refine (inj_countable' (fun r => match r with
      | RGet g => inl (get_Key g) | RPut p => inr (put_Key p, put_Value p, put_Version p) end)
    (fun x => match x with inl k => RGet (mkGetArgs k) | inr (k, v, n) => RPut (mkPutArgs k v n) end) _).
  by intros [[]|[]].
Defined.

#[local] Instance op_gob : Gob (Op request) := bit_gob.

Definition put (k v : string) (n : Z) : request := RPut (mkPutArgs k v n).

(** Nodes, the index applied and the store. *)
Definition view (w : world mapStore (option reply)) : list (Z * list (string * kvEntry)) :=
  (fun n => (rp_at (w_rp w n), map_to_list (ms_m (sm (rp_rsm (w_rp w n)))))) <$> abc.

Definition script : list (action request) := two_ops (put "x" "1" 0) (put "x" "2" 1) ++ [ACrash "b"].

Definition wdemo : world mapStore (option reply) := after newMapStore 0 RestoreThenRSM script.

Lemma wdemo_view : view wdemo = [(2, [("x", mkKvEntry "2" 2)]); (0, []); (2, [("x", mkKvEntry "2" 2)])].
Proof. vm_compute. reflexivity. Qed.

Lemma wdemo_reach : wreach abc newMapStore 0 RestoreThenRSM wdemo.
Proof. apply script_after_reach. vm_compute. reflexivity. Qed.

Lemma replicas_apply_one_log_witness :
  exists L,
    run_cmds newMapStore 1 (take 2 L) = Some (mkMapStore {["x" := mkKvEntry "2" 2]}) /\
    run_cmds newMapStore 1 (take 0 L) = Some (sm (rp_rsm (w_rp wdemo "b"))).
Proof.
  destruct (replicas_apply_one_log abc (proj1 abc_ok) (proj2 abc_ok) newMapStore 0 RestoreThenRSM
    (or_introl eq_refl) wdemo wdemo_reach) as (L & HL).
  exists L.
  assert (Hc : "c" ∈ abc) by (apply (list_elem_of_lookup_2 _ 2%nat); reflexivity).
  assert (Hb : "b" ∈ abc) by (apply (list_elem_of_lookup_2 _ 1%nat); reflexivity).
  destruct (HL "c" Hc) as [_ H1]. destruct (HL "b" Hb) as [_ H2].
  assert (E1 : rp_at (w_rp wdemo "c") = 2) by (vm_compute; reflexivity).
  assert (E2 : rp_at (w_rp wdemo "b") = 0) by (vm_compute; reflexivity).
  assert (E3 : sm (rp_rsm (w_rp wdemo "c")) = mkMapStore {["x" := mkKvEntry "2" 2]}) by (vm_compute; reflexivity).
  rewrite E1, E3 in H1. rewrite E2 in H2. split; [exact H1|exact H2].
Defined.

Definition three_puts (last : list (action request)) : list (action request) :=
  two_ops (put "x" "1" 0) (put "x" "2" 1) ++ third_op (put "y" "3" 0) ++ last.

(** Restored first: the replica that crashed ends with both keys, as "a" has. *)
Example early_restore_keeps_all :
  view (after newMapStore 0 RestoreThenRSM (three_puts [])) =
  [(3, [("y", mkKvEntry "3" 1); ("x", mkKvEntry "2" 2)]); (0, []);
   (3, [("y", mkKvEntry "3" 1); ("x", mkKvEntry "2" 2)])].
Proof. vm_compute. reflexivity. Qed.

Definition wlate : world mapStore (option reply) :=
  after newMapStore 0 RSMThenRestore (three_puts [ARestore "c"]).

(** The order of [StartKVServer] loses a put.  Servers that start their applier
    and then restore the snapshot reach a state in which two replicas have
    applied the same three commands and hold different contents: the put of "y",
    applied by the restarted one before its restore, is gone there. *)
Theorem late_restore_loses_a_put :
  wreach abc newMapStore 0 RSMThenRestore wlate /\
  rp_at (w_rp wlate "a") = 3 /\ rp_at (w_rp wlate "c") = 3 /\
  ms_m (sm (rp_rsm (w_rp wlate "a"))) = {["x" := mkKvEntry "2" 2; "y" := mkKvEntry "3" 1]} /\
  ms_m (sm (rp_rsm (w_rp wlate "c"))) = {["x" := mkKvEntry "2" 2]}.
Proof.
  split; [apply script_after_reach; vm_compute; reflexivity|]. split_and!; vm_compute; reflexivity.
Qed.

End ServiceDemo.
