(* ===== verification/RsmTest.v ===== *)
(** * The tests of the replicated state machine

    [kvraft1/rsm/test.go] and [kvraft1/rsm/proxy.go]: the driver that submits an
    operation to whichever server is the leader ([onePartition]), and the check of
    the counters ([checkCounter], [countValue]); the counter service itself is in
    [Rsm], its replication in [Service].

    What the servers answer is an argument; the loop against the clock ends when its
    rounds do. *)

From S2P Require Import Prelude Gob Wal Raft RaftNet RaftDemo Kv Rsm Service.
Import RsmSrv.

Definition NSRV : Z := 3.

(** ** The drivers *)

(** A nil partition is everybody. *)
Definition inPartition (s : Z) (p : option (list Z)) : bool :=
  match p with None => true | Some p => bool_decide (s ∈ p) end.

(** [RSMproxy.Submit]: a call that fails leaves the empty reply. *)
Definition proxy_Submit (answer : option (Err * option response)) : Err * option response := default (ErrNil, None) answer.

(** A server as the driver finds it when its turn comes. *)
Record view := mkView { v_connected : bool; v_rsm : bool; v_answer : option (Err * option response) }.

(** The inner loop, [k] servers from [index] on.  [None] is [log.Fatalf] or an index
    out of range; a result comes with the new [ts.leader]. *)
Fixpoint sweep (srvs : list view) (p : option (list Z)) (k : nat) (index : Z) : option (option (Z * option response)) :=
  match k with
  | O => Some None
  | S k =>
      if decide (index >= NSRV) then None
      else
        let next := sweep srvs p k (Z.rem (index + 1) (zlen srvs)) in
        if decide (index <> -1) then
          v ← srvs @[index];
          if v_connected v && v_rsm v && inPartition index p then
            let '(err, rep) := proxy_Submit (v_answer v) in
            if decide (err = OK) then Some (Some (index, rep)) else next
          else next
        else next
  end.

(** The outer loop: a round is the leader that is read and the servers. *)
Fixpoint onePartition (p : option (list Z)) (rounds : list (Z * list view)) : option (option (Z * option response)) :=
  match rounds with
  | [] => Some None
  | (leader, srvs) :: rounds =>
      r ← sweep srvs p (length srvs) leader;
      match r with Some x => Some (Some x) | None => onePartition p rounds end
  end.

(** A nil result counts as 0; a result of another type panics. *)
Definition oneInc (rounds : list (Z * list view)) : option Z :=
  match onePartition None rounds with
  | Some (Some (_, Some (IncRep N))) => Some N
  | Some (Some (_, None)) | Some None => Some 0
  | _ => None
  end.

Definition countValue (v : Z) (counters : list Z) : Z := zlen (filter (fun c => c = v) counters).

(** [iters]: the counters of the servers at each iteration; 30 of them at most. *)
Definition checkCounter (v nsrv : Z) (iters : list (list Z)) : bool :=
  existsb (fun cs => bool_decide (countValue v cs >= nsrv)) (take 30 iters).

(** ** What the drivers do *)

(** The server can be asked, and says yes. *)
Definition accepts (srvs : list view) (p : option (list Z)) (i : Z) (rep : option response) : Prop :=
  exists v, srvs @[i] = Some v /\ v_connected v = true /\ v_rsm v = true /\ inPartition i p = true /\ v_answer v = Some (OK, rep).

Lemma sweep_spec srvs p : zlen srvs = NSRV -> forall k index, 0 <= index < NSRV ->
  exists r, sweep srvs p k index = Some r /\
    match r with
    | Some (i, rep) => 0 <= i < NSRV /\ accepts srvs p i rep
    | None => forall j rep, (j < k)%nat -> ~ accepts srvs p ((index + Z.of_nat j) mod NSRV) rep
    end.
Proof.
  intros Hl. induction k as [|k IH]; intros index Hi; simpl; [exists None; split; [done|]; intros; lia|].
  rewrite decide_False by lia. rewrite decide_True by lia. destruct (gidx_is_Some srvs index) as [v Hv]; [lia|]. rewrite Hv. simpl.
  assert (Hn : 0 <= Z.rem (index + 1) (zlen srvs) < NSRV /\ Z.rem (index + 1) (zlen srvs) = (index + 1) mod NSRV).
  { rewrite Hl. unfold NSRV in *. rewrite Z.rem_mod_nonneg by lia. split; [apply Z.mod_pos_bound; lia|done]. }
  destruct Hn as [Hn1 Hn2]. destruct (IH _ Hn1) as (r & Hr & Hspec).
  assert (Hlater : match r with None => ~ (exists rep, accepts srvs p index rep) ->
      forall j rep, (j < S k)%nat -> ~ accepts srvs p ((index + Z.of_nat j) mod NSRV) rep | _ => True end).
  { destruct r; [done|]. intros Hno [|j] rep Hj; [rewrite Z.add_0_r, Z.mod_small by lia; intros ?; apply Hno; eauto|].
    specialize (Hspec j rep ltac:(lia)). rewrite Hn2 in Hspec.
    replace ((index + Z.of_nat (S j)) mod NSRV) with (((index + 1) mod NSRV + Z.of_nat j) mod NSRV); [done|].
    rewrite Zplus_mod_idemp_l. f_equal. lia. }
  assert (Hgo : ~ (exists rep, accepts srvs p index rep) -> exists r0, sweep srvs p k (Z.rem (index + 1) (zlen srvs)) = Some r0 /\
      match r0 with
      | Some (i, rep) => 0 <= i < NSRV /\ accepts srvs p i rep
      | None => forall j rep, (j < S k)%nat -> ~ accepts srvs p ((index + Z.of_nat j) mod NSRV) rep
      end).
  { intros Hno. exists r. split; [done|]. destruct r as [[]|]; [done|]. by apply Hlater. }
  destruct (v_connected v && v_rsm v && inPartition index p) eqn:Hc.
  - apply andb_prop in Hc as [[Hc1 Hc2]%andb_prop Hc3]. unfold proxy_Submit. destruct (v_answer v) as [[e rep]|] eqn:Ha; simpl.
    + destruct (decide (e = OK)) as [->|Hne].
      * exists (Some (index, rep)). split; [done|]. split; [done|]. exists v. done.
      * apply Hgo. intros (rep' & v' & Hv' & _ & _ & _ & Ha'). simplify_eq.
    + apply Hgo. intros (rep' & v' & Hv' & _ & _ & _ & Ha'). simplify_eq.
  - apply Hgo. intros (rep' & v' & Hv' & H1 & H2 & H3 & _). simplify_eq. by rewrite H1, H2, H3 in Hc.
Qed.

(** [onePartition] works with whatever leader it remembers: it never fails; a result
    is the answer OK of a connected server of the partition; and it gives up only if
    in every round every such server refused. *)
Theorem onePartition_asks_all p rounds :
  Forall (fun '(leader, srvs) => 0 <= leader < NSRV /\ zlen srvs = NSRV) rounds ->
  match onePartition p rounds with
  | None => False
  | Some (Some (i, rep)) => 0 <= i < NSRV /\ exists rd, rd ∈ rounds /\ accepts rd.2 p i rep
  | Some None => forall rd i rep, rd ∈ rounds -> 0 <= i < NSRV -> ~ accepts rd.2 p i rep
  end.
Proof.
  induction 1 as [|[leader srvs] rounds [Hl Hn] _ IH]; simpl; [by intros ? ? ? ?%elem_of_nil|].
  assert (length srvs = 3%nat) as Hlen by (unfold zlen, NSRV in Hn; lia).
  destruct (sweep_spec srvs p Hn (length srvs) leader Hl) as (r & -> & Hr). simpl. destruct r as [[i rep]|].
  - destruct Hr as [? ?]. split; [done|]. exists (leader, srvs). split; [by left|done].
  - destruct (onePartition p rounds) as [[[i rep]|]|]; [|..|done].
    + destruct IH as (? & rd & ? & ?). split; [done|]. exists rd. split; [by right|done].
    + intros rd i rep [->|Hrd]%elem_of_cons Hi; [|by apply IH]. simpl. unfold NSRV in *.
      set (j := Z.to_nat ((i - leader) mod 3)). pose proof (Z.mod_pos_bound (i - leader) 3 ltac:(lia)).
      specialize (Hr j rep ltac:(lia)). replace ((leader + Z.of_nat j) mod 3) with i in Hr; [done|].
      unfold j. rewrite Z2Nat.id by lia. rewrite Zplus_mod_idemp_r. replace (leader + (i - leader)) with i by lia. by rewrite Z.mod_small.
Qed.

(** ** What the counters mean *)

Section counters.
Context `{!Gob Z} `{!Gob (Op request)}.

#[export] Instance counter_lawful : LawfulSM Z request response.
Proof. split; [intros s s0; apply gob_roundtrip|intros s; apply gob_nonempty]. Qed.

(** The increments among the commands of a log. *)
Definition isInc (c : option (list byte)) : bool :=
  match c ≫= decodeOp with Some op => bool_decide (Opcommad op = Inc) | None => false end.

Definition incs (L : list (option (list byte))) : Z := zlen (filter (fun c => isInc c = true) L).

Lemma run_cmds_incs L : forall s i s', run_cmds s i L = Some s' -> s' = s + incs L.
Proof.
  unfold incs. induction L as [|c L IH]; intros s i s' H; simplify_eq/=; [unfold zlen; simpl; lia|].
  destruct c as [data|]; [|done]. simpl in H. destruct (decodeOp data) as [op|] eqn:Hd; [|done]. simpl in H.
  assert (Hi : isInc (Some data) = bool_decide (Opcommad op = Inc)) by (unfold isInc; simpl; by rewrite Hd).
  destruct (Opcommad op) eqn:Ho; simplify_eq/=; apply IH in H.
  - rewrite filter_cons_True by (rewrite Hi; done). rewrite zlen_cons. lia.
  - rewrite filter_cons_False by (rewrite Hi; done). done.
Qed.

Lemma incs_take_mono L i j : (i <= j)%nat -> incs (take i L) <= incs (take j L).
Proof.
  intros Hij. destruct (take_prefix_mono L L i j (reflexivity L) Hij) as [k ->]. unfold incs. rewrite filter_app. zlen_lia.
Qed.

(** Counters count.  The server of the tests, [newRSMSrv], never restores a
    snapshot when it starts ([NoRestore]); as long as none are taken there is one
    sequence of commands such that in every reachable state of the whole system
    the counter of every server is the number of increments among the commands it
    has applied.  So servers that have applied equally many agree, a server that
    is ahead has the larger counter, and no [Dec] has been executed anywhere. *)
Theorem counters_count_incs (ids : list NodeID) (w : world Z response) :
  "" ∉ ids -> NoDup ids -> wreach ids 0 (-1) NoRestore w ->
  exists L, (forall n, n ∈ ids -> 0 <= rp_at (w_rp w n) <= zlen L /\ sm (rp_rsm (w_rp w n)) = incs (take (Z.to_nat (rp_at (w_rp w n))) L)) /\
    forall n m, n ∈ ids -> m ∈ ids -> rp_at (w_rp w n) <= rp_at (w_rp w m) -> sm (rp_rsm (w_rp w n)) <= sm (rp_rsm (w_rp w m)).
Proof.
  intros Hids Hnd Hr. destruct (one_log ids Hids Hnd 0 (-1) NoRestore (or_intror eq_refl) w Hr) as [L HL].
  assert (Hc : forall n, n ∈ ids -> 0 <= rp_at (w_rp w n) <= zlen L /\ sm (rp_rsm (w_rp w n)) = incs (take (Z.to_nat (rp_at (w_rp w n))) L)).
  { intros n Hn. destruct (HL n Hn) as [Hat Hrun]. split; [done|]. apply run_cmds_incs in Hrun. lia. }
  exists L. split; [done|]. intros n m Hn Hm Hle. destruct (Hc n Hn) as [? ->], (Hc m Hm) as [? ->]. apply incs_take_mono. lia.
Qed.

End counters.

Module CounterDemo.
#[local] Instance Z_gob : Gob Z := bit_gob.
#[local] Instance op_gob : Gob (Op request) := bit_gob.

Definition wlost : world Z response :=
  Script.after 0 0 NoRestore (Script.two_ops Inc Inc ++ Script.third_op Inc).

(** With snapshots, a server of the rsm tests that restarts loses its count.  Two
    servers have applied the same three increments; the one that was restarted
    from a snapshot of two of them counts one. *)
Theorem unrestored_counter :
  wreach abc 0 0 NoRestore wlost /\
  rp_at (w_rp wlost "a") = 3 /\ sm (rp_rsm (w_rp wlost "a")) = 3 /\
  rp_at (w_rp wlost "c") = 3 /\ sm (rp_rsm (w_rp wlost "c")) = 1.
Proof.
  split; [apply Script.script_after_reach; vm_compute; reflexivity|]. split_and!; vm_compute; reflexivity.
Qed.

End CounterDemo.

(** ** A driver that finds the new leader *)

Definition some_views : list view :=
  [mkView true true (Some (ErrWrongLeader, None)); mkView false true None; mkView true true (Some (OK, Some (IncRep 4)))].

Example onePartition_asks_all_witness : onePartition (Some [0; 2]) [(0, some_views)] = Some (Some (2, Some (IncRep 4))) /\
  exists rd, rd ∈ [(0, some_views)] /\ accepts rd.2 (Some [0; 2]) 2 (Some (IncRep 4)).
Proof.
  assert (H : onePartition (Some [0; 2]) [(0, some_views)] = Some (Some (2, Some (IncRep 4)))) by (vm_compute; reflexivity).
  split; [exact H|]. pose proof (onePartition_asks_all (Some [0; 2]) [(0, some_views)]) as Hall. rewrite H in Hall. apply Hall.
  repeat constructor; vm_compute; congruence.
Defined.
