(* ===== verification/RaftTest.v ===== *)
(** * The test server and the tester's checks

    [raft1/server.go]: the service that the Raft tests run on every node, with
    and without snapshots; [raft1/test.go]: the tester's record of what every
    server applied, and its checks; [raft1/proxy.go] and [raft1/adapter.go]: the
    calls between them and the identities of the nodes.

    The cluster is the one of [RaftNet].  The theorem is that on it no check of
    the tester ever fails. *)

From stdpp Require Import pretty.
From S2P Require Import Prelude Gob Wal Raft RaftSpec RaftSpecInv RaftNet RaftRel RaftElect RaftReplicate RaftRefine RaftDemo RaftSafety Kv Rsm KvStore Service.

(** ** GetState tells the truth

    [GetState] compares [leaderId] with [me]: it is never equal on a node that is
    not the leader. *)

Section truthful.
Context {W : Type} `{!WAL W}.
Implicit Types rf : Raft W.

Definition truthful rf : Prop := leaderId rf = me rf -> me rf = "" \/ customerId rf = Leader.

(** A step that keeps the identity, and the truth. *)
Definition keeps rf rf' : Prop := me rf' = me rf /\ (truthful rf -> truthful rf').

Lemma keeps_refl rf : keeps rf rf.
Proof. by split. Qed.

Lemma keeps_trans rf1 rf2 rf3 : keeps rf1 rf2 -> keeps rf2 rf3 -> keeps rf1 rf3.
Proof. unfold keeps. naive_solver congruence. Qed.

Lemma keeps_same rf rf' : me rf' = me rf -> leaderId rf' = leaderId rf -> customerId rf' = customerId rf -> keeps rf rf'.
Proof. intros E1 E2 E3. split; [done|]. unfold truthful. by rewrite E1, E2, E3. Qed.

Lemma keeps_none rf rf' : me rf' = me rf -> leaderId rf' = "" -> keeps rf rf'.
Proof. intros E1 E2. split; [done|]. unfold truthful. rewrite E2. auto. Qed.

Lemma keeps_leader rf rf' : me rf' = me rf -> customerId rf' = Leader -> keeps rf rf'.
Proof. intros E1 E2. split; [done|]. unfold truthful. auto. Qed.

Hint Resolve keeps_refl : core.

Lemma walSaveMeta_keeps rf rf' : walSaveMeta rf = Some rf' -> keeps rf rf'.
Proof. unfold walSaveMeta. intros H. simplify_option_eq. by apply keeps_same. Qed.

Lemma walSaveSnapshot_keeps rf rf' : walSaveSnapshot rf = Some rf' -> keeps rf rf'.
Proof. unfold walSaveSnapshot. intros H. simplify_option_eq. by apply keeps_same. Qed.

Lemma stepDown_keeps rf t rf' : stepDown rf t = Some rf' -> keeps rf rf'.
Proof. unfold stepDown, walSaveMeta. intros H. simplify_option_eq. by apply keeps_none. Qed.

Lemma adoptTerm_keeps rf t rf' : adoptTerm rf t = Some rf' -> keeps rf rf'.
Proof. unfold adoptTerm. dcase; [apply stepDown_keeps|by intros [= ->]]. Qed.

Lemma beginElection_keeps rf round rf' : beginElectionLocked rf = Some (round, rf') -> keeps rf rf'.
Proof.
  unfold beginElectionLocked, walSaveMeta. intros H. destruct (SaveMeta _ _ _); [|done]. simpl in H.
  destruct (lastLogTerm _); [|done]. simpl in H. simplify_eq. by apply keeps_none.
Qed.

Lemma RequestVote_keeps rf args rep rf' : RequestVote rf args = Some (rep, rf') -> keeps rf rf'.
Proof.
  unfold RequestVote, grantVote. dcase; [by intros [= _ <-]|].
  destruct (adoptTerm rf (rv_Term args)) as [rf1|] eqn:E; [|done]. simpl. apply adoptTerm_keeps in E.
  destruct (lastLogTerm rf1); [|done]. simpl. dcase; [|by intros [= _ <-]].
  destruct (walSaveMeta _) as [rf2|] eqn:E2; [|done]. simpl. intros [= _ <-].
  apply (keeps_trans _ rf1); [done|]. unfold walSaveMeta in E2. simplify_option_eq. by apply keeps_same.
Qed.

Lemma AppendEntries_keeps rf args rep rf' : AppendEntriesHandler rf args = Some (rep, rf') ->
  ae_LeaderId args <> me rf -> keeps rf rf'.
Proof.
  unfold AppendEntriesHandler. dcase; [by intros [= _ <-]|].
  destruct (adoptTerm rf _) as [rf1|] eqn:E; [|done]. simpl. apply adoptTerm_keeps in E as [Em _].
  set (rf2 := resetElectionTimerLocked _). intros H Hne.
  assert (Hk : me rf' = me rf2 /\ leaderId rf' = leaderId rf2).
  { destruct (ae_Snapshot args).
    - unfold installSnapshot, walSaveSnapshot in H. dcase; simplify_option_eq; done.
    - unfold replicate, storeEntries in H. simplify_option_eq; repeat case_match; simplify_option_eq; done. }
  destruct Hk as [E1 E2]. split; [by rewrite E1|]. intros _ E3. rewrite E1, E2 in E3. simpl in E3. congruence.
Qed.

Lemma advanceCommit_keeps rf N k rf' : advanceCommit rf N k = Some rf' -> keeps rf rf'.
Proof.
  revert rf N. induction k as [|k IH]; intros rf N; simpl; [by intros [= ->]|].
  destruct (logAt rf N); [|done]. simpl. dcase; [apply IH|]. dcase; [|apply IH]. intros H%IH.
  by eapply keeps_trans; [|exact H].
Qed.

Lemma onAppendReply_keeps rf s args rep rf' : onAppendReply rf s args rep = Some rf' -> keeps rf rf'.
Proof.
  unfold onAppendReply. dcase; [apply stepDown_keeps|]. dcase; [by intros [= ->]|].
  destruct (aer_Success rep).
  - match goal with |- (advanceCommit ?r ?n ?k ≫= _) = _ -> _ =>
      destruct (advanceCommit r n k) as [rf1|] eqn:E; [|done] end.
    apply advanceCommit_keeps in E. intros H. eapply keeps_trans; [|eapply keeps_trans; [exact E|]].
    + dcase; by apply keeps_same.
    + simpl in H. dcase; simplify_eq; by apply keeps_same.
  - dcase; intros [= <-]; by apply keeps_same.
Qed.

Lemma onVoteReply_keeps rf args rep rf' : onVoteReply rf args rep = Some rf' -> keeps rf rf'.
Proof.
  unfold onVoteReply. dcase; [apply stepDown_keeps|]. dcase; [by intros [= ->]|].
  dcase; intros [= <-]; [by apply keeps_leader|by apply keeps_same].
Qed.

Lemma TimeoutNow_keeps rf args rep round rf' : TimeoutNow rf args = Some (rep, round, rf') -> keeps rf rf'.
Proof.
  unfold TimeoutNow. dcase; [by intros [= _ _ <-]|].
  destruct (adoptTerm rf _) as [rf1|] eqn:E; [|done]. simpl. apply adoptTerm_keeps in E.
  dcase; [by intros [= _ _ <-]|].
  match goal with |- (?m ≫= _) = _ -> _ => destruct m as [[]|]; [| |done] end; simpl; [by intros [= _ _ <-]|].
  destruct (beginElectionLocked rf1) as [[r rf2]|] eqn:E2; [|done]. simpl. apply beginElection_keeps in E2.
  intros [= _ _ <-]. by eapply keeps_trans.
Qed.

(** A request to append names its sender as the leader. *)
Definition names_sender (p : packet) : Prop :=
  match p with ReqAE src dst args => ae_LeaderId args = src | _ => True end.

Lemma roundRequests_names rf round : Forall names_sender (roundRequests rf round).
Proof. destruct round; [|constructor]. apply Forall_fmap, Forall_true. by intros [id args]. Qed.

Lemma aeRequests_names rf reqs : startHeartbeat rf = Some reqs -> Forall names_sender (aeRequests rf reqs).
Proof.
  unfold startHeartbeat, aeRequests. dcase; [|by intros [= <-]]. intros H. apply Forall_fmap, Forall_forall.
  intros [id args] Hin. simpl. apply mapM_Some_1 in H. apply list_elem_of_lookup in Hin as [i Hi].
  destruct (Forall2_lookup_r _ _ _ _ _ H Hi) as (id' & _ & Ha). unfold heartbeatArgs in Ha.
  repeat (match type of Ha with context [?m ≫= _] => destruct m eqn:? end; simplify_eq/=; try done).
  all: repeat case_match; simplify_option_eq; done.
Qed.

Lemma exec_keeps rf ev rf' ps ms : exec rf ev = Some (rf', ps, ms) ->
  (forall src dst args, ev = ERecv (ReqAE src dst args) -> ae_LeaderId args <> me rf) ->
  keeps rf rf' /\ Forall names_sender ps.
Proof.
  intros H Hl. destruct ev as [g| |cmd| |i b| | |p]; simpl in H.
  - destruct (tickerFire rf g) as [[round rf1]|] eqn:E; simplify_eq/=. split; [|apply roundRequests_names].
    unfold tickerFire in E. destruct (dead rf); [by simplify_eq|]. dcase; [by simplify_eq|].
    destruct (beginElectionLocked rf) as [[r rf1]|] eqn:E1; simplify_eq/=. by eapply beginElection_keeps.
  - destruct (startHeartbeat rf) eqn:E; simplify_eq/=. split; [done|by apply aeRequests_names].
  - destruct (Start rf _) as [[[[? ?] ?] rf1]|] eqn:E; simplify_eq/=. split; [|constructor]. unfold Start in E.
    dcase; [by simplify_eq|]. destruct (AppendLog _ _); simplify_eq/=. by apply keeps_same.
  - destruct (sendApplyMsg rf) as [[msgs rf1]|] eqn:E; simplify_eq/=. split; [|constructor]. unfold sendApplyMsg in E.
    repeat case_match; simplify_option_eq; by apply keeps_same.
  - destruct (Snapshot rf i _) as [rf1|] eqn:E; simplify_eq/=. split; [|constructor]. unfold Snapshot in E.
    dcase; [by simplify_eq|]. dcase; [done|]. destruct (logAt rf i); [|done]. simpl in E.
    destruct (gfrom _ _); [|done]. simpl in E. apply walSaveSnapshot_keeps in E. by eapply keeps_trans; [|exact E].
  - match type of H with (?m ≫= _) = _ => destruct m as [[|[id args]]|] end; simplify_eq/=; (split; [apply keeps_refl|repeat constructor]).
  - simplify_eq. split; [|constructor]. unfold Kill. destruct (dead rf); [done|by apply keeps_same].
  - destruct p as [? ? a|? ? a r|? ? a|? ? a r|? ? a|? ? r]; simpl in H.
    + destruct (RequestVote rf a) as [[? ?]|] eqn:E; simplify_eq/=. split; [by eapply RequestVote_keeps|by repeat constructor].
    + destruct (onVoteReply rf a r) as [?|] eqn:E; simplify_eq/=. split; [by eapply onVoteReply_keeps|constructor].
    + destruct (AppendEntriesHandler rf a) as [[? ?]|] eqn:E; simplify_eq/=.
      split; [by eapply AppendEntries_keeps, (Hl _ _ _ eq_refl)|by repeat constructor].
    + destruct (onAppendReply rf _ a r) as [?|] eqn:E; simplify_eq/=. split; [by eapply onAppendReply_keeps|constructor].
    + destruct (TimeoutNow rf a) as [[[? ?] ?]|] eqn:E; simplify_eq/=. split; [by eapply TimeoutNow_keeps|].
      constructor; [done|apply roundRequests_names].
    + destruct (adoptTerm rf _) eqn:E; simplify_eq/=. split; [by eapply adoptTerm_keeps|constructor].
Qed.

End truthful.

(** ** The tester *)

(** A command is any value, here its bytes; [None] is nil. *)
Abbreviation cmd := (option (list byte)).

(** The error messages of the tester and of the servers; "" is [None]. *)
Inductive applyError := CommitMismatch | OutOfOrder | NilSnapshot | BadSnapshot | WrongSnapshotIndex.

(** The tester's copy of what every server applied, and the error it reported. *)
Record Test := mkTest {
  ts_logs : NodeID -> gmap Z cmd;
  ts_applyErr : NodeID -> option applyError;
  ts_maxIndex : Z
}.

Section tester.
Context (srvs : list NodeID).

Definition CheckLogs (ts : Test) (i : NodeID) (m : ApplyMsg) : option applyError * bool * Test :=
  let v := am_Command m in
  let index := am_CommandIndex m in
  let differs j := match ts_logs ts j !! index with Some old => bool_decide (old <> v) | None => false end in
  let err_msg := if existsb differs srvs then Some CommitMismatch else None in
  let prevok := bool_decide (is_Some (ts_logs ts i !! (index - 1))) in
  (err_msg, prevok,
   mkTest (<[i := <[index := v]> (ts_logs ts i)]> (ts_logs ts)) (ts_applyErr ts) (Z.max index (ts_maxIndex ts))).

Definition IngestLog (ts : Test) (i : NodeID) (xlog : gmap Z cmd) : Test :=
  mkTest (<[i := xlog]> (ts_logs ts)) (ts_applyErr ts) (ts_maxIndex ts).

Definition ApplyErr (ts : Test) (i : NodeID) (err : applyError) : Test :=
  mkTest (ts_logs ts) (<[i := Some err]> (ts_applyErr ts)) (ts_maxIndex ts).

(** The loop of [nCommitted]; [None] is a failed test. *)
Fixpoint nCommitted_loop (ts : Test) (index : Z) (count : Z) (c : cmd) (l : list NodeID) : option (Z * cmd) :=
  match l with
  | [] => Some (count, c)
  | j :: l =>
      match ts_applyErr ts j with
      | Some _ => None
      | None =>
          match ts_logs ts j !! index with
          | Some c1 => if decide (0 < count /\ c <> c1) then None else nCommitted_loop ts index (count + 1) c1 l
          | None => nCommitted_loop ts index count c l
          end
      end
  end.

Definition nCommitted (ts : Test) (index : Z) : option (Z * cmd) := nCommitted_loop ts index 0 None srvs.

(** One iteration of [checkOneLeader], given the answers of [GetState] of the
    connected servers: a failed test, or the leader of the last term that has
    one, if there is a leader. *)
Definition leaders (answers : list (NodeID * (Z * bool))) : gmap Z (list NodeID) :=
  foldl (fun m '(i, (t, leader)) => if (leader : bool) then <[t := default [] (m !! t) ++ [i]]> m else m) ∅ answers.

Definition checkOneLeader (answers : list (NodeID * (Z * bool))) : option (option NodeID) :=
  let m := leaders answers in
  if existsb (fun '(_, l) => bool_decide (1 < length l)%nat) (map_to_list m) then None
  else
    let lastTermWithLeader := foldr (fun t acc => Z.max t acc) (-1) (elements (dom m)) in
    Some (m !! lastTermWithLeader ≫= head).

(** ** The server *)

Record rfsrv := mkRfsrv { rs_lastApplied : Z; rs_log : gmap Z cmd }.

Definition SnapShotInterval : Z := 10.

Context `{!Gob Z} `{!Gob (list cmd)}.

(** The log of a slice: [log[j] = xlog[j]]. *)
Definition logOf (xlog : list cmd) : gmap Z cmd := list_to_map (imap (fun j v => (Z.of_nat j, v)) xlog).

Definition ingestSnap (rs : rfsrv) (snapshot : option (list byte)) (index : Z) : option applyError * rfsrv :=
  match snapshot with
  | None => (Some NilSnapshot, rs)
  | Some b =>
      match ('(lastIncludedIndex, r) ← gob_dec b; '(xlog, _) ← gob_dec r; Some (lastIncludedIndex, xlog)) with
      | None => (Some BadSnapshot, rs)
      | Some (lastIncludedIndex, xlog) =>
          if decide (index <> -1 /\ index <> lastIncludedIndex) then (Some WrongSnapshotIndex, rs)
          else (None, mkRfsrv lastIncludedIndex (logOf xlog))
      end
  end.

(** The snapshot of a log up to [index]. *)
Definition takeSnap (log : gmap Z cmd) (index : Z) : list byte :=
  let xlog := (fun j : nat => default None (log !! Z.of_nat j)) <$> seq 0 (Z.to_nat (index + 1)) in
  gob_enc index ++ gob_enc xlog.

Definition report (ts : Test) (i : NodeID) (err : option applyError) : Test :=
  match err with Some e => ApplyErr ts i e | None => ts end.

(** One message in [applierSnap]; the snapshot is the call of [rf.Snapshot]. *)
Definition applierSnap (me : NodeID) (rs : rfsrv) (ts : Test) (m : ApplyMsg) : rfsrv * Test * option (Z * list byte) :=
  if am_SnapshotValid m then
    let '(err_msg, rs) := ingestSnap rs (am_Snapshot m) (am_SnapshotIndex m) in
    let ts := IngestLog ts me (rs_log rs) in
    (rs, report ts me err_msg, None)
  else if am_CommandValid m then
    let index := am_CommandIndex m in
    let '(err_msg, ts) :=
      (if decide (index <> rs_lastApplied rs + 1) then (Some OutOfOrder, ts)
       else
         let '(err_msg, prevok, ts) := CheckLogs ts me m in
         (if decide (1 < index /\ prevok = false) then Some OutOfOrder else err_msg, ts)) in
    let rs := mkRfsrv index (<[index := am_Command m]> (rs_log rs)) in
    let snap := if decide ((index + 1) mod SnapShotInterval = 0) then Some (index, takeSnap (rs_log rs) index) else None in
    (rs, report ts me err_msg, snap)
  else (rs, ts, None).

(** One message in [applier]. *)
Definition applier (me : NodeID) (ts : Test) (m : ApplyMsg) : Test :=
  if am_CommandValid m then
    let '(err_msg, prevok, ts) := CheckLogs ts me m in
    report ts me (if decide (1 < am_CommandIndex m /\ prevok = false) then Some OutOfOrder else err_msg)
  else ts.

(** [newRfsrv] with the snapshot that the persister holds; [None] is
    [log.Fatalf]. *)
Definition newRfsrv (snapshot : bool) (me : NodeID) (ts : Test) (sn : option (list byte)) : option (rfsrv * Test) :=
  let rs := mkRfsrv 0 ∅ in
  if snapshot && bool_decide (0 < zlen (default [] sn)) then
    match ingestSnap rs sn (-1) with
    | (Some _, _) => None
    | (None, rs) => Some (rs, IngestLog ts me (rs_log rs))
    end
  else Some (rs, ts).

End tester.

(** [MakeFromLabrpc]: the identity of the node at an index. *)
Definition labrpcIDs (n : nat) : list NodeID := (fun i : nat => ("n" +:+ pretty i)%string) <$> seq 0 n.

Lemma labrpcIDs_ok n : ("" ∉ labrpcIDs n) /\ NoDup (labrpcIDs n).
Proof.
  unfold labrpcIDs. split.
  - intros (i & H & _)%list_elem_of_fmap. discriminate.
  - apply NoDup_fmap_2; [|apply NoDup_seq]. intros i j H%(inj (String.app _)). by apply (inj pretty) in H.
Qed.

(** ** The system under test *)

(** A server: its state, the messages that Raft has put on [applyCh], the index
    of the last one it has read, and the call of [rf.Snapshot] that is due. *)
Record server := mkSrv { sv_rs : rfsrv; sv_box : list ApplyMsg; sv_at : Z; sv_todo : option (Z * list byte) }.

(** The cluster, the servers, the tester, and the answers that the tester has got
    from [GetState]. *)
Record tworld := mkT { t_c : cluster; t_sv : NodeID -> server; t_ts : Test; t_obs : list (NodeID * (Z * bool)) }.

Section system.
Context (ids : list NodeID) (Hids : "" ∉ ids) (Hnd : NoDup ids).
Context `{!Gob Z} `{!Gob (list cmd)} (snapshots : bool).
Implicit Types (w : tworld) (n : NodeID) (a : astate).

(** One message of the channel, with or without snapshots. *)
Definition handle n (s : server) (ts : Test) (m : ApplyMsg) : rfsrv * Test * option (Z * list byte) :=
  if snapshots then applierSnap ids n (sv_rs s) ts m else (sv_rs s, applier ids n ts m, None).

Inductive tstep : tworld -> tworld -> Prop :=
| T_raft w n ev net rf ps ms :
    n ∈ ids -> own_event ev -> ev_ok (c_node (t_c w) n) ev -> takes ev (c_net (t_c w)) net ->
    exec (c_node (t_c w) n) ev = Some (rf, ps, ms) ->
    tstep w (mkT (with_node (t_c w) n rf ps net (((fun m => (n, m)) <$> ms) ++ c_out (t_c w)) (c_snaps (t_c w)))
               (<[n := mkSrv (sv_rs (t_sv w n)) (sv_box (t_sv w n) ++ ms) (sv_at (t_sv w n)) (sv_todo (t_sv w n))]> (t_sv w))
               (t_ts w) (t_obs w))
(* [rfsrv.Start] *)
| T_start w n command rf ps ms :
    n ∈ ids -> exec (c_node (t_c w) n) (EStart command) = Some (rf, ps, ms) ->
    tstep w (mkT (with_node (t_c w) n rf ps (c_net (t_c w)) (((fun m => (n, m)) <$> ms) ++ c_out (t_c w)) (c_snaps (t_c w)))
               (t_sv w) (t_ts w) (t_obs w))
(* one message of [applier] or [applierSnap] *)
| T_apply w n m rest rs ts todo :
    n ∈ ids -> sv_todo (t_sv w n) = None -> sv_box (t_sv w n) = m :: rest ->
    handle n (t_sv w n) (t_ts w) m = (rs, ts, todo) ->
    tstep w (mkT (t_c w) (<[n := mkSrv rs rest (msg_index m) todo]> (t_sv w)) ts (t_obs w))
| T_snapshot w n i b rf :
    n ∈ ids -> sv_todo (t_sv w n) = Some (i, b) ->
    Snapshot (c_node (t_c w) n) i (Some b) = Some rf ->
    tstep w (mkT (with_node (t_c w) n rf [] (c_net (t_c w)) (c_out (t_c w)) ((i, b) :: c_snaps (t_c w)))
               (<[n := mkSrv (sv_rs (t_sv w n)) (sv_box (t_sv w n)) (sv_at (t_sv w n)) None]> (t_sv w)) (t_ts w) (t_obs w))
(* the process dies while Raft handles [ev], perhaps in the middle of a message,
   and a new one starts on the same persister *)
| T_crash w n ev net rf ps ms (j : Journal) rf' ts ts' rs :
    n ∈ ids -> (own_event ev \/ (exists command, ev = EStart command) \/
                exists i b, ev = ESnapshot i b /\ sv_todo (t_sv w n) = Some (i, b)) ->
    (own_event ev -> ev_ok (c_node (t_c w) n) ev) -> takes ev (c_net (t_c w)) net ->
    exec (c_node (t_c w) n) ev = Some (rf, ps, ms) ->
    wal (c_node (t_c w) n) `suffix_of` j -> j `suffix_of` wal rf ->
    MakeWithWAL n ids j = Some rf' ->
    (ts = t_ts w \/ exists m rest rs' todo, sv_todo (t_sv w n) = None /\ sv_box (t_sv w n) = m :: rest /\
                      handle n (t_sv w n) (t_ts w) m = (rs', ts, todo)) ->
    newRfsrv snapshots n ts (snapshot rf') = Some (rs, ts') ->
    tstep w (mkT (with_node (t_c w) n rf' [] net (c_out (t_c w)) (new_snaps ev ++ c_snaps (t_c w)))
               (<[n := mkSrv rs [] (snapshotIndex rf') None]> (t_sv w)) ts' (t_obs w))
| T_drop w p net :
    c_net (t_c w) ≡ₚ p :: net ->
    tstep w (mkT (mkC (c_node (t_c w)) net (c_out (t_c w)) (c_snaps (t_c w))) (t_sv w) (t_ts w) (t_obs w))
| T_getstate w n :
    n ∈ ids -> tstep w (mkT (t_c w) (t_sv w) (t_ts w) ((n, GetState (c_node (t_c w) n)) :: t_obs w)).

Definition tinit w : Prop :=
  cinit ids (t_c w) /\ (forall n, n ∈ ids -> t_sv w n = mkSrv (mkRfsrv 0 ∅) [] 0 None) /\
  (forall n, ts_logs (t_ts w) n = ∅) /\ (forall n, ts_applyErr (t_ts w) n = None) /\ t_obs w = [].

Definition treach w : Prop := exists w0, tinit w0 /\ rtc tstep w0 w.

(** *** The invariant *)

(** Everything a log holds was committed. *)
Definition log_ok a (l : gmap Z cmd) : Prop :=
  forall i v, l !! i = Some v -> (i = 0 /\ v = None) \/ (1 <= i /\ cmd_ok ids a i v).

Definition full (l : gmap Z cmd) (k : Z) : Prop := forall i, 1 <= i <= k -> is_Some (l !! i).

Definition snap_ok a (i : Z) (b : list byte) : Prop :=
  0 <= i /\ exists xlog, b = gob_enc i ++ gob_enc xlog /\ zlen xlog = i + 1 /\ log_ok a (logOf xlog).

Record srv_ok (snaps : list (Z * list byte)) a (rf : Raft Journal) (s : server) (tl : gmap Z cmd) : Prop := {
  so_at : 0 <= sv_at s;
  so_box : box_ok ids snaps a (sv_at s) (sv_box s) (appliedIndex rf);
  so_tester : log_ok a tl /\ full tl (sv_at s);
  so_log : snapshots = true -> rs_lastApplied (sv_rs s) = sv_at s /\ log_ok a (rs_log (sv_rs s)) /\ full (rs_log (sv_rs s)) (sv_at s);
  so_kind : Forall (fun m => am_CommandValid m = true -> am_SnapshotValid m = false) (sv_box s);
  so_todo i b : sv_todo s = Some (i, b) -> snapshots = true /\ i = sv_at s /\ snap_ok a i b
}.

Record tinv w a : Prop := {
  ti_sim : sim ids (t_c w) a;
  ti_net : Forall names_sender (c_net (t_c w));
  ti_true n : n ∈ ids -> truthful (c_node (t_c w) n);
  ti_srv n : n ∈ ids -> srv_ok (c_snaps (t_c w)) a (c_node (t_c w) n) (t_sv w n) (ts_logs (t_ts w) n);
  ti_snaps i b : (i, b) ∈ c_snaps (t_c w) -> snap_ok a i b;
  ti_mode : snapshots = false -> c_snaps (t_c w) = [];
  ti_err n : ts_applyErr (t_ts w) n = None;
  ti_obs n t : (n, (t, true)) ∈ t_obs w -> exists el, alead a t = Some el /\ l_id el = n
}.

Lemma log_ok_mono a a' l : ale a a' -> log_ok a l -> log_ok a' l.
Proof. intros Hle H i v [?|[? ?]]%H; [by left|]. right. split; [done|]. by eapply cmd_ok_mono. Qed.

Lemma snap_ok_mono a a' i b : ale a a' -> snap_ok a i b -> snap_ok a' i b.
Proof. intros Hle (? & xlog & ? & ? & ?). split; [done|]. exists xlog. eauto using log_ok_mono. Qed.

Lemma srv_ok_mono snaps snaps' a a' rf rf' s tl :
  ale a a' -> snaps ⊆ snaps' -> appliedIndex rf' = appliedIndex rf -> srv_ok snaps a rf s tl -> srv_ok snaps' a' rf' s tl.
Proof.
  intros Hle Hs Ha [H1 H2 [H3 H3'] H4 Hk H5]. split; [done| | | |done|].
  - rewrite Ha. by eapply box_ok_mono.
  - eauto using log_ok_mono.
  - intros E. destruct (H4 E) as (? & ? & ?). eauto using log_ok_mono.
  - intros i b E. destruct (H5 i b E) as (? & ? & ?). eauto using snap_ok_mono.
Qed.

Lemma cmd_unique a i v v' : inv ids a -> cmd_ok ids a i v -> cmd_ok ids a i v' -> v = v'.
Proof.
  intros I (T & x & e & Hx & He & <-) (T' & x' & e' & Hx' & He' & <-). by rewrite (committed_same ids a T T' x x' i e e').
Qed.

Lemma log_ok_insert a l i v : log_ok a l -> 1 <= i -> cmd_ok ids a i v -> log_ok a (<[i := v]> l).
Proof. intros Hl Hi Hv j u [[<- <-]|[_ H]]%lookup_insert_Some; [by right|by apply Hl]. Qed.

Lemma full_insert l k v : full l k -> full (<[k + 1 := v]> l) (k + 1).
Proof.
  intros Hl i Hi. destruct (decide (i = k + 1)) as [->|]; [by rewrite lookup_insert_eq|].
  rewrite lookup_insert_ne by done. apply Hl. lia.
Qed.

Lemma full_mono l k k' : k' <= k -> full l k -> full l k'.
Proof. intros Hk Hl i Hi. apply Hl. lia. Qed.

(** *** Snapshots *)

Lemma logOf_lookup xlog i v : logOf xlog !! i = Some v <-> 0 <= i /\ xlog !! Z.to_nat i = Some v.
Proof.
  unfold logOf. rewrite <- elem_of_list_to_map.
  - rewrite elem_of_lookup_imap. split.
    + intros (j & y & [= -> ->] & Hj). split; [lia|by rewrite Nat2Z.id].
    + intros [Hi Hx]. exists (Z.to_nat i), v. by rewrite Z2Nat.id.
  - rewrite fmap_imap. apply NoDup_alt. intros j k i'. rewrite !list_lookup_imap.
    destruct (xlog !! j), (xlog !! k); simpl; try done. intros [= <-] [=]. lia.
Qed.

Lemma takeSnap_ok a log index : 0 <= index -> log_ok a log -> full log index -> snap_ok a index (takeSnap log index).
Proof.
  intros Hi Hl Hf. split; [done|]. eexists. split; [done|]. split; [unfold zlen; rewrite length_fmap, length_seq; lia|].
  intros i v [Hi0 Hx]%logOf_lookup. apply list_lookup_fmap_Some in Hx as (j & -> & Hj). apply lookup_seq in Hj as [-> Hj].
  simpl. rewrite Z2Nat.id by done. destruct (decide (i = 0)) as [->|].
  - left. split; [done|]. destruct (log !! 0) as [v|] eqn:E; [|done]. apply Hl in E as [[_ ->]|[? _]]; [done|lia].
  - destruct (Hf i) as [v E]; [lia|]. rewrite E. simpl. by apply Hl.
Qed.

Lemma ingestSnap_ok a rs i b index : snap_ok a i b -> index = -1 \/ index = i ->
  exists l, ingestSnap rs (Some b) index = (None, mkRfsrv i l) /\ log_ok a l /\ full l i.
Proof.
  intros (Hi & xlog & -> & Hlen & Hl) Hx. exists (logOf xlog). split_and!; [|done|].
  - unfold ingestSnap. rewrite gob_stream. simpl. rewrite <- (app_nil_r (gob_enc xlog)), gob_stream. simpl.
    rewrite decide_False; [done|]. lia.
  - intros k Hk. destruct (lookup_lt_is_Some_2 xlog (Z.to_nat k)) as [v Hv]; [unfold zlen in Hlen; lia|].
    exists v. apply logOf_lookup. split; [lia|done].
Qed.

Lemma snap_nonempty a i b : snap_ok a i b -> b <> [].
Proof. intros (_ & xlog & -> & _) [H _]%app_eq_nil. by apply gob_nonempty in H. Qed.

(** *** A message *)

Lemma CheckLogs_ok w a n m : tinv w a -> n ∈ ids -> 1 <= am_CommandIndex m -> cmd_ok ids a (am_CommandIndex m) (am_Command m) ->
  CheckLogs ids (t_ts w) n m =
  (None, bool_decide (is_Some (ts_logs (t_ts w) n !! (am_CommandIndex m - 1))),
   mkTest (<[n := <[am_CommandIndex m := am_Command m]> (ts_logs (t_ts w) n)]> (ts_logs (t_ts w))) (ts_applyErr (t_ts w))
     (Z.max (am_CommandIndex m) (ts_maxIndex (t_ts w)))).
Proof.
  intros HI Hn Hi Hc. unfold CheckLogs. replace (existsb _ ids) with false; [done|]. symmetry. apply not_true_is_false.
  intros (j & Hj & Hd)%existsb_exists. apply list_elem_of_In in Hj.
  destruct (ts_logs (t_ts w) j !! am_CommandIndex m) as [old|] eqn:E; [|done]. apply bool_decide_eq_true in Hd. apply Hd.
  destruct (so_tester _ _ _ _ _ (ti_srv _ _ HI j Hj)) as [Hl _]. apply Hl in E as [[? _]|[_ E]]; [lia|].
  apply (cmd_unique a (am_CommandIndex m)); [apply HI|done|done].
Qed.

(** What a message does to the tester: no error, and only this server's log. *)
Definition touches n (ts ts' : Test) : Prop :=
  ts_applyErr ts' = ts_applyErr ts /\ forall j, j <> n -> ts_logs ts' j = ts_logs ts j.

Lemma handle_command w a n m rest : tinv w a -> n ∈ ids -> sv_box (t_sv w n) = m :: rest -> am_CommandValid m = true ->
  am_SnapshotValid m = false ->
  exists rs ts todo, handle n (t_sv w n) (t_ts w) m = (rs, ts, todo) /\ touches n (t_ts w) ts /\
    srv_ok (c_snaps (t_c w)) a (c_node (t_c w) n) (mkSrv rs rest (msg_index m) todo) (ts_logs ts n).
Proof.
  intros HI Hn Hb Hv Hs. pose proof (ti_srv _ _ HI n Hn) as [H1 H2 [H3 H3'] H4 Hk _]. rewrite Hb in H2, Hk. apply Forall_cons in Hk as [_ Hk]. simpl in H2.
  rewrite Hv in H2. destruct H2 as (Hlt & Hbox & Hi & Hc). set (k := sv_at (t_sv w n)) in *.
  assert (Hck := CheckLogs_ok w a n m HI Hn ltac:(lia) Hc).
  assert (Hprev : ~ (1 < am_CommandIndex m /\ bool_decide (is_Some (ts_logs (t_ts w) n !! (am_CommandIndex m - 1))) = false)).
  { intros [Hg Hp%bool_decide_eq_false]. apply Hp, H3'. lia. }
  assert (Htl : log_ok a (<[am_CommandIndex m := am_Command m]> (ts_logs (t_ts w) n)) /\
                full (<[am_CommandIndex m := am_Command m]> (ts_logs (t_ts w) n)) (am_CommandIndex m)).
  { split; [apply log_ok_insert; [done|lia|done]|]. rewrite Hi. by apply full_insert. }
  unfold handle, applier, applierSnap. destruct snapshots eqn:Hsn.
  - destruct (H4 eq_refl) as (Hl & Hrl & Hrf). rewrite Hs, Hv. rewrite decide_False by (rewrite Hl; lia). rewrite Hck. simpl.
    rewrite decide_False by done. eexists _, _, _. split; [done|]. split; [split; [done|]; intros j Hj; simpl; by rewrite fn_lookup_insert_ne|].
    assert (Hlog : log_ok a (<[am_CommandIndex m := am_Command m]> (rs_log (sv_rs (t_sv w n)))) /\
                   full (<[am_CommandIndex m := am_Command m]> (rs_log (sv_rs (t_sv w n)))) (am_CommandIndex m)).
    { split; [apply log_ok_insert; [done|lia|done]|]. rewrite Hi. by apply full_insert. }
    unfold msg_index in *. rewrite Hv in *. split; simpl; rewrite ?fn_lookup_insert; [lia|done|done|done|done|].
    intros i b Htd. case_decide; simplify_eq. split_and!; [done|done|]. apply takeSnap_ok; [lia|apply Hlog..].
  - rewrite Hv, Hck. simpl. rewrite decide_False by done. simpl. eexists _, _, _. split; [done|].
    split; [split; [done|]; intros j Hj; simpl; by rewrite fn_lookup_insert_ne|].
    unfold msg_index in *. rewrite Hv in *. split; simpl; rewrite ?fn_lookup_insert; [lia|done|done|by rewrite Hsn|done|done].
Qed.

Lemma handle_snapshot w a n m rest : tinv w a -> n ∈ ids -> sv_box (t_sv w n) = m :: rest -> am_CommandValid m = false ->
  exists rs ts todo, handle n (t_sv w n) (t_ts w) m = (rs, ts, todo) /\ touches n (t_ts w) ts /\
    srv_ok (c_snaps (t_c w)) a (c_node (t_c w) n) (mkSrv rs rest (msg_index m) todo) (ts_logs ts n).
Proof.
  intros HI Hn Hb Hv. pose proof (ti_srv _ _ HI n Hn) as [H1 H2 _ _ Hk _]. rewrite Hb in H2, Hk. apply Forall_cons in Hk as [_ Hk]. simpl in H2.
  rewrite Hv in H2. destruct H2 as (Hlt & Hbox & Hsv & b & Hm & Hin). unfold handle, applierSnap. destruct snapshots eqn:Hsn.
  - rewrite Hsv, Hm. destruct (ingestSnap_ok a (sv_rs (t_sv w n)) (am_SnapshotIndex m) b (am_SnapshotIndex m))
      as (l & -> & Hl & Hf); [by apply (ti_snaps _ _ HI)|by right|].
    eexists _, _, _. split; [done|]. split; [split; [done|]; intros j Hj; simpl; by rewrite fn_lookup_insert_ne|].
    unfold msg_index in *. rewrite Hv in *. split; simpl; rewrite ?fn_lookup_insert; [lia|done|done|done|done|done].
  - exfalso. pose proof (ti_mode _ _ HI Hsn) as Hno. rewrite Hno in Hin. by apply elem_of_nil in Hin.
Qed.

Lemma handle_ok w a n m rest : tinv w a -> n ∈ ids -> sv_box (t_sv w n) = m :: rest ->
  exists rs ts todo, handle n (t_sv w n) (t_ts w) m = (rs, ts, todo) /\ touches n (t_ts w) ts /\
    srv_ok (c_snaps (t_c w)) a (c_node (t_c w) n) (mkSrv rs rest (msg_index m) todo) (ts_logs ts n).
Proof.
  intros HI Hn Hb. pose proof (so_kind _ _ _ _ _ (ti_srv _ _ HI n Hn)) as Hk. rewrite Hb in Hk. apply Forall_cons in Hk as [Hk _].
  destruct (am_CommandValid m) eqn:E; [apply (handle_command w a); auto|by apply (handle_snapshot w a)].
Qed.

(** *** Steps *)

Lemma obs_mono a a' (obs : list (NodeID * (Z * bool))) : ale a a' ->
  (forall n t, (n, (t, true)) ∈ obs -> exists el, alead a t = Some el /\ l_id el = n) ->
  forall n t, (n, (t, true)) ∈ obs -> exists el, alead a' t = Some el /\ l_id el = n.
Proof.
  intros Hle H n t Hin. destruct (H n t Hin) as (el & Hel & <-).
  destruct (ale_lead _ _ Hle _ _ Hel) as (el' & ? & ? & _). exists el'. split; [done|congruence].
Qed.

(** A step at node [n] that leaves the other servers alone. *)
Lemma tinv_node w a a' c' n s' ts' :
  tinv w a -> n ∈ ids -> sim ids c' a' -> ale a a' -> Forall names_sender (c_net c') ->
  (forall m, m <> n -> c_node c' m = c_node (t_c w) m) -> truthful (c_node c' n) ->
  c_snaps (t_c w) ⊆ c_snaps c' ->
  (forall i b, (i, b) ∈ c_snaps c' -> (i, b) ∈ c_snaps (t_c w) \/ (snapshots = true /\ snap_ok a i b)) ->
  touches n (t_ts w) ts' -> srv_ok (c_snaps c') a' (c_node c' n) s' (ts_logs ts' n) ->
  tinv (mkT c' (<[n := s']> (t_sv w)) ts' (t_obs w)) a'.
Proof.
  intros HI Hn Hsim Hle Hnet Hoth Htr Hsub Hnew [Herr Hlogs] Hs. split; simpl; [done|done| | | | | |].
  - intros m Hm. destruct (decide (m = n)) as [->|Hne]; [done|]. rewrite Hoth by done. by apply (ti_true _ _ HI).
  - intros m Hm. destruct (decide (n = m)) as [<-|Hne]; fn_upd; [done|]. rewrite Hlogs by done.
    eapply srv_ok_mono; [exact Hle|exact Hsub| |by apply HI]. by rewrite Hoth.
  - intros i b [Hin|[_ Hok]]%Hnew; eapply snap_ok_mono; [exact Hle| |exact Hle|exact Hok]. by apply (ti_snaps _ _ HI).
  - intros Hm. destruct (c_snaps c') as [|[i b] l] eqn:E; [done|]. exfalso.
    destruct (Hnew i b) as [Hin|[? _]]; [by left| |congruence]. rewrite (ti_mode _ _ HI Hm) in Hin. by apply elem_of_nil in Hin.
  - intros m. rewrite Herr. apply HI.
  - eapply obs_mono; [exact Hle|apply HI].
Qed.

Lemma touches_refl n ts : touches n ts ts.
Proof. by split. Qed.

(** What Raft's own code does on a node: the identity, the truth, the packets. *)
Lemma exec_truthful w a n ev net rf ps ms : tinv w a -> n ∈ ids -> ev_ok (c_node (t_c w) n) ev -> takes ev (c_net (t_c w)) net ->
  exec (c_node (t_c w) n) ev = Some (rf, ps, ms) -> truthful rf /\ Forall names_sender (ps ++ net) /\ Forall names_sender net.
Proof.
  intros HI Hn Hev Hnet Hex. destruct (exec_keeps _ _ _ _ _ Hex) as [[_ Hk] Hps].
  - intros src dst args ->. simpl in Hev, Hnet.
    assert (Hin : ReqAE src dst args ∈ c_net (t_c w)) by (rewrite Hnet; by left).
    destruct (s_net _ _ _ (ti_sim _ _ HI) _ Hin) as (x & Hne & _). rewrite <- Hev.
    pose proof (ti_net _ _ HI) as Hf. rewrite Forall_forall in Hf. specialize (Hf _ Hin). simpl in Hf. by rewrite Hf.
  - assert (Hn' : Forall names_sender net).
    { pose proof (ti_net _ _ HI) as Hf. destruct ev; simpl in Hnet; subst; try done. rewrite Hnet in Hf. by inversion Hf. }
    split_and!; [by apply Hk, HI|by apply Forall_app|done].
Qed.

(** The messages of the applier. *)
Lemma sendApplyMsg_kind (rf rf' : Raft Journal) ms : sendApplyMsg rf = Some (ms, rf') ->
  Forall (fun m => am_CommandValid m = true -> am_SnapshotValid m = false) ms.
Proof.
  unfold sendApplyMsg. intros H. repeat case_match; simplify_option_eq; try constructor; try done.
  all: apply Forall_forall; intros m (k & e & -> & _)%elem_of_lookup_imap; done.
Qed.

Lemma exec_kind (rf rf' : Raft Journal) ev ps ms : exec rf ev = Some (rf', ps, ms) ->
  Forall (fun m => am_CommandValid m = true -> am_SnapshotValid m = false) ms.
Proof.
  intros H. assert (ev = EApply \/ ev <> EApply) as [->|Hne] by (destruct ev; auto).
  - simpl in H. destruct (sendApplyMsg rf) as [[ms' rf1]|] eqn:E; simplify_eq/=. by eapply sendApplyMsg_kind.
  - by destruct (exec_applied _ _ _ _ _ H Hne) as [_ ->].
Qed.

Lemma t_raft_ok w a n ev net rf ps ms :
  tinv w a -> n ∈ ids -> own_event ev -> ev_ok (c_node (t_c w) n) ev -> takes ev (c_net (t_c w)) net ->
  exec (c_node (t_c w) n) ev = Some (rf, ps, ms) ->
  exists a', ale a a' /\ tinv (mkT (with_node (t_c w) n rf ps net (((fun m => (n, m)) <$> ms) ++ c_out (t_c w)) (c_snaps (t_c w)))
    (<[n := mkSrv (sv_rs (t_sv w n)) (sv_box (t_sv w n) ++ ms) (sv_at (t_sv w n)) (sv_todo (t_sv w n))]> (t_sv w))
    (t_ts w) (t_obs w)) a'.
Proof.
  intros HI Hn Hown Hev Hnet Hex. pose proof (ti_sim _ _ HI) as Hsim.
  assert (Hstep : cstep ids (t_c w) (with_node (t_c w) n rf ps net (((fun m => (n, m)) <$> ms) ++ c_out (t_c w)) (c_snaps (t_c w)))).
  { pose proof (C_exec ids (t_c w) n ev net rf ps ms Hn Hev Hnet Hex) as Hc. by destruct ev. }
  destruct (cstep_ale ids Hids Hnd _ _ _ Hsim Hstep) as (a' & Hsim' & Hle). exists a'. split; [exact Hle|].
  destruct (exec_truthful w a n ev net rf ps ms HI Hn Hev Hnet Hex) as (Htr & Hps & _).
  destruct (srv_ok_mono (c_snaps (t_c w)) (c_snaps (t_c w)) a a' (c_node (t_c w) n) (c_node (t_c w) n) (t_sv w n) _ Hle ltac:(done) eq_refl
    (ti_srv _ _ HI n Hn)) as [R1 R2 R3 R4 R5 R6].
  eapply tinv_node; [done..| | |done|by left|apply touches_refl|].
  { intros m' Hne. simpl. by rewrite fn_lookup_insert_ne. }
  { simpl. by rewrite fn_lookup_insert. }
  simpl. rewrite fn_lookup_insert. split; simpl; auto; [|apply Forall_app; split; [done|by eapply exec_kind]].
  eapply box_ok_app; [exact R2|]. assert (ev = EApply \/ ev <> EApply) as [->|Hne] by (destruct ev; auto).
  - simpl in Hex. destruct (sendApplyMsg (c_node (t_c w) n)) as [[ms' rf']|] eqn:E; simplify_eq/=.
    eapply (deliver_box _ _ a _ n); [by apply Hsim|exact E|].
    intros m Hm. apply (s_out _ _ _ Hsim'). simpl. apply elem_of_app. left. apply list_elem_of_fmap. eauto.
  - by destruct (exec_applied _ _ _ _ _ Hex Hne) as [-> ->].
Qed.

Lemma t_start_ok w a n command rf ps ms :
  tinv w a -> n ∈ ids -> exec (c_node (t_c w) n) (EStart command) = Some (rf, ps, ms) ->
  exists a', ale a a' /\ tinv (mkT (with_node (t_c w) n rf ps (c_net (t_c w)) (((fun m => (n, m)) <$> ms) ++ c_out (t_c w)) (c_snaps (t_c w)))
    (t_sv w) (t_ts w) (t_obs w)) a'.
Proof.
  intros HI Hn Hex. destruct (exec_truthful w a n (EStart command) (c_net (t_c w)) rf ps ms HI Hn) as (Htr & Hps & _); [done..|].
  destruct (cstep_ale ids Hids Hnd _ _ _ (ti_sim _ _ HI) (C_exec ids (t_c w) n (EStart command) (c_net (t_c w)) rf ps ms Hn I eq_refl Hex))
    as (a' & Hsim' & Hle). exists a'. split; [exact Hle|].
  destruct (exec_applied _ _ _ _ _ Hex) as [Hap _]; [done|].
  pose proof (tinv_node w a a' _ n (t_sv w n) (t_ts w) HI Hn Hsim' Hle Hps) as HT. simpl in HT.
  assert (H : tinv (mkT (with_node (t_c w) n rf ps (c_net (t_c w)) (((fun m => (n, m)) <$> ms) ++ c_out (t_c w)) (c_snaps (t_c w)))
    (<[n := t_sv w n]> (t_sv w)) (t_ts w) (t_obs w)) a').
  { apply HT; [| |done|by left|apply touches_refl|].
    - intros m' Hne. by rewrite fn_lookup_insert_ne.
    - by rewrite fn_lookup_insert.
    - rewrite fn_lookup_insert. eapply srv_ok_mono; [exact Hle|done|exact Hap|by apply HI]. }
  destruct H as [H1 H2 H3 H4 H5 H6 H7 H8]. split; simpl in *; auto. intros m Hm. specialize (H4 m Hm).
  destruct (decide (n = m)) as [<-|]; by fn_upd.
Qed.

(** The due snapshot is one that Raft may be given. *)
Lemma t_todo_ok w a n i b : tinv w a -> n ∈ ids -> sv_todo (t_sv w n) = Some (i, b) ->
  ev_ok (c_node (t_c w) n) (ESnapshot i b) /\ snapshots = true /\ snap_ok a i b.
Proof.
  intros HI Hn Ht. destruct (ti_srv _ _ HI n Hn) as [H1 H2 _ _ _ H6]. destruct (H6 i b Ht) as (? & -> & Hok).
  apply box_ok_le in H2. split; [split; [done|by eapply snap_nonempty]|done].
Qed.

Lemma t_snapshot_ok w a n i b rf :
  tinv w a -> n ∈ ids -> sv_todo (t_sv w n) = Some (i, b) -> Snapshot (c_node (t_c w) n) i (Some b) = Some rf ->
  exists a', ale a a' /\ tinv (mkT (with_node (t_c w) n rf [] (c_net (t_c w)) (c_out (t_c w)) ((i, b) :: c_snaps (t_c w)))
    (<[n := mkSrv (sv_rs (t_sv w n)) (sv_box (t_sv w n)) (sv_at (t_sv w n)) None]> (t_sv w)) (t_ts w) (t_obs w)) a'.
Proof.
  intros HI Hn Ht Hs. destruct (t_todo_ok w a n i b HI Hn Ht) as (Hev & Hm & Hok).
  assert (Hex : exec (c_node (t_c w) n) (ESnapshot i b) = Some (rf, [], [])) by (simpl; by rewrite Hs).
  destruct (exec_truthful w a n (ESnapshot i b) (c_net (t_c w)) rf [] [] HI Hn Hev eq_refl Hex) as (Htr & Hps & _).
  destruct (cstep_ale ids Hids Hnd _ _ _ (ti_sim _ _ HI) (C_exec ids (t_c w) n (ESnapshot i b) (c_net (t_c w)) rf [] [] Hn Hev eq_refl Hex))
    as (a' & Hsim' & Hle). exists a'. split; [exact Hle|]. destruct (exec_applied _ _ _ _ _ Hex) as [Hap _]; [done|].
  eapply tinv_node; [done..| | | | |apply touches_refl|].
  - intros m' Hne. simpl. by rewrite fn_lookup_insert_ne.
  - simpl. by rewrite fn_lookup_insert.
  - simpl. set_solver.
  - simpl. intros i' b' [[= -> ->]|?]%elem_of_cons; auto.
  - simpl. rewrite fn_lookup_insert.
    destruct (srv_ok_mono (c_snaps (t_c w)) ((i, b) :: c_snaps (t_c w)) a a' _ rf (t_sv w n) _ Hle ltac:(set_solver) Hap (ti_srv _ _ HI n Hn))
      as [R1 R2 R3 R4 R5 R6]. by split.
Qed.

(** A server that starts, with the persisted snapshot or without one. *)
Lemma newRfsrv_ok a n rf snaps ts rs ts' :
  (forall i b, (i, b) ∈ snaps -> snap_ok a i b) -> (snapshots = false -> snaps = []) ->
  node_ok ids snaps a n rf -> appliedIndex rf = snapshotIndex rf -> log_ok a (ts_logs ts n) ->
  newRfsrv snapshots n ts (snapshot rf) = Some (rs, ts') ->
  touches n ts ts' /\ srv_ok snaps a rf (mkSrv rs [] (snapshotIndex rf) None) (ts_logs ts' n).
Proof.
  intros Hsn Hmode N Ha Hl Hnew. pose proof (d_idx _ _ _ _ _ (n_disk _ _ _ _ _ N)) as Hi. simpl in Hi.
  pose proof (d_has_snap _ _ _ _ _ (n_disk _ _ _ _ _ N)) as Hs. simpl in Hs. unfold has_snap in Hs.
  unfold newRfsrv in Hnew. destruct (decide (0 < snapshotIndex rf)) as [Hpos|Hz].
  - destruct Hs as (b & Hb & HbS). rewrite Hb in Hnew. pose proof (Hsn _ _ HbS) as Hok.
    destruct (ingestSnap_ok a (mkRfsrv 0 ∅) _ b (-1) Hok) as (l & E & Hlo & Hf); [by left|]. rewrite E in Hnew. simpl in Hnew.
    destruct snapshots eqn:Hm; [|rewrite (Hmode eq_refl) in HbS; by apply elem_of_nil in HbS].
    pose proof (snap_nonempty _ _ _ Hok) as Hne. rewrite bool_decide_eq_true_2 in Hnew.
    2: { destruct b as [|x b]; [done|]. rewrite zlen_cons. pose proof (zlen_nonneg b). lia. }
    simplify_eq/=. split.
    + split; [done|]. intros j Hj. simpl. by rewrite fn_lookup_insert_ne.
    + split; simpl; rewrite ?fn_lookup_insert; [lia|done|done|done|constructor|done].
  - rewrite Hs in Hnew. simpl in Hnew. rewrite andb_false_r in Hnew. simplify_eq/=. split; [apply touches_refl|].
    assert (snapshotIndex rf = 0) as E by lia. split; simpl; rewrite ?E; [lia|lia| | |constructor|done].
    + split; [done|]. intros i Hi'. lia.
    + intros _. split_and!; [done| |]; [intros i v Hx; by rewrite lookup_empty in Hx|intros i Hi'; lia].
Qed.

Lemma touches_trans n ts1 ts2 ts3 : touches n ts1 ts2 -> touches n ts2 ts3 -> touches n ts1 ts3.
Proof. intros [E1 H1] [E2 H2]. split; [congruence|]. intros j Hj. by rewrite H2, H1. Qed.

(** A message that was cut short by a crash has done no harm to the tester. *)
Lemma cut_short_ok w a n ts : tinv w a -> n ∈ ids ->
  (ts = t_ts w \/ exists m rest rs' todo, sv_todo (t_sv w n) = None /\ sv_box (t_sv w n) = m :: rest /\
     handle n (t_sv w n) (t_ts w) m = (rs', ts, todo)) ->
  touches n (t_ts w) ts /\ log_ok a (ts_logs ts n).
Proof.
  intros HI Hn [->|(m & rest & rs' & todo & _ & Hb & Hh)].
  - split; [apply touches_refl|]. apply (so_tester _ _ _ _ _ (ti_srv _ _ HI n Hn)).
  - destruct (handle_ok w a n m rest HI Hn Hb) as (rs & ts0 & todo0 & Hh' & Ht & Hs). rewrite Hh in Hh'. simplify_eq.
    split; [done|]. apply (so_tester _ _ _ _ _ Hs).
Qed.

Lemma t_crash_ok w a n ev net rf ps ms (j : Journal) rf' ts ts' rs :
  tinv w a -> n ∈ ids ->
  (own_event ev \/ (exists command, ev = EStart command) \/ exists i b, ev = ESnapshot i b /\ sv_todo (t_sv w n) = Some (i, b)) ->
  (own_event ev -> ev_ok (c_node (t_c w) n) ev) -> takes ev (c_net (t_c w)) net ->
  exec (c_node (t_c w) n) ev = Some (rf, ps, ms) ->
  wal (c_node (t_c w) n) `suffix_of` j -> j `suffix_of` wal rf -> MakeWithWAL n ids j = Some rf' ->
  touches n (t_ts w) ts /\ log_ok a (ts_logs ts n) ->
  newRfsrv snapshots n ts (snapshot rf') = Some (rs, ts') ->
  exists a', ale a a' /\ tinv (mkT (with_node (t_c w) n rf' [] net (c_out (t_c w)) (new_snaps ev ++ c_snaps (t_c w)))
    (<[n := mkSrv rs [] (snapshotIndex rf') None]> (t_sv w)) ts' (t_obs w)) a'.
Proof.
  intros HI Hn Hkind Hev Hnet Hex Hj1 Hj2 Hmk [Hts Hlog] Hnew.
  assert (Hev' : ev_ok (c_node (t_c w) n) ev /\ forall i b, (i, b) ∈ new_snaps ev -> snapshots = true /\ snap_ok a i b).
  { destruct Hkind as [Ho|[(cmd & ->)|(i & b & -> & Ht)]].
    - split; [auto|]. intros i b Hib. by destruct ev; simpl in *; try done; apply elem_of_nil in Hib.
    - split; [done|]. intros i b Hib. by apply elem_of_nil in Hib.
    - destruct (t_todo_ok w a n i b HI Hn Ht) as (H1 & H2). split; [done|]. simpl.
      by intros i' b' [= -> ->]%list_elem_of_singleton. }
  destruct Hev' as [Hev' Hadd].
  destruct (exec_truthful w a n ev net rf ps ms HI Hn Hev' Hnet Hex) as (_ & _ & Hps).
  destruct (cstep_ale ids Hids Hnd _ _ _ (ti_sim _ _ HI) (C_crash ids (t_c w) n ev net rf ps ms j rf' Hn Hev' Hnet Hex Hj1 Hj2 Hmk))
    as (a' & Hsim' & Hle). exists a'. split; [exact Hle|].
  assert (Hmk' : leaderId rf' = "" /\ appliedIndex rf' = snapshotIndex rf').
  { unfold MakeWithWAL in Hmk. destruct (Load j) as [[st0 ok]|]; [|done]. simpl in Hmk. by simplify_eq/=. }
  destruct Hmk' as [Hlid Hap].
  assert (N : node_ok ids (new_snaps ev ++ c_snaps (t_c w)) a' n rf')
    by (pose proof (s_node _ _ _ Hsim' n Hn) as N; simpl in N; by rewrite fn_lookup_insert in N).
  destruct (newRfsrv_ok a' n rf' (new_snaps ev ++ c_snaps (t_c w)) ts rs ts') as [Ht' Hs]; [| |exact N|exact Hap| |exact Hnew|].
  - intros i b [Hin|Hin]%elem_of_app; eapply snap_ok_mono; [exact Hle|by apply Hadd|exact Hle|by apply (ti_snaps _ _ HI)].
  - intros Hm. rewrite (ti_mode _ _ HI Hm), app_nil_r. destruct (new_snaps ev) as [|[i b] l]; [done|].
    destruct (Hadd i b) as [? _]; [by left|congruence].
  - by eapply log_ok_mono.
  - eapply tinv_node; [done..| | | | |by eapply touches_trans|].
    + intros m' Hne. simpl. by rewrite fn_lookup_insert_ne.
    + simpl. rewrite fn_lookup_insert. unfold truthful. rewrite Hlid. auto.
    + simpl. set_solver.
    + simpl. intros i b [?|?]%elem_of_app; auto.
    + simpl. by rewrite fn_lookup_insert.
Qed.

Lemma tinv_step w w' a : tinv w a -> tstep w w' -> exists a', ale a a' /\ tinv w' a'.
Proof.
  intros HI Hst. destruct Hst as [w n ev net rf ps ms Hn Hown Hev Hnet Hex|w n command rf ps ms Hn Hex
    |w n m rest rs ts todo Hn Htd Hb Hh|w n i b rf Hn Htd Hs
    |w n ev net rf ps ms j rf' ts ts' rs Hn Hkind Hev Hnet Hex Hj1 Hj2 Hmk Hts Hnew|w p net Hnet|w n Hn].
  - by eapply t_raft_ok.
  - by eapply t_start_ok.
  - exists a. split; [apply ale_refl|]. destruct (handle_ok w a n m rest HI Hn Hb) as (rs' & ts' & todo' & Hh' & Ht & Hs). rewrite Hh in Hh'. simplify_eq.
    eapply tinv_node; [done|done|apply HI|apply ale_refl|apply HI|done|by apply HI|done|by left|done|done].
  - by eapply t_snapshot_ok.
  - eapply t_crash_ok; eauto. by apply cut_short_ok.
  - destruct (cstep_ale ids Hids Hnd _ _ _ (ti_sim _ _ HI) (C_drop ids (t_c w) p net Hnet)) as (a' & Hsim' & Hle). exists a'. split; [exact Hle|].
    split; simpl; [done| |apply HI| | |apply HI|apply HI|eapply obs_mono; [exact Hle|apply HI]].
    + pose proof (ti_net _ _ HI) as Hf. rewrite Hnet in Hf. by inversion Hf.
    + intros n Hn. eapply srv_ok_mono; [exact Hle|done|done|by apply HI].
    + intros i b Hin. eapply snap_ok_mono; [exact Hle|]. by apply (ti_snaps _ _ HI).
  - exists a. split; [apply ale_refl|]. split; simpl; [apply HI..|]. intros m t [E|Hin]%elem_of_cons; [|by apply (ti_obs _ _ HI)].
    injection E as -> -> Hl. symmetry in Hl. apply bool_decide_eq_true in Hl.
    pose proof (n_me _ _ _ _ _ (s_node _ _ _ (ti_sim _ _ HI) n Hn)) as Hme.
    destruct (ti_true _ _ HI n Hn Hl) as [E|HL]; [exfalso; rewrite Hme in E; by subst|].
    destruct (leader_election ids (t_c w) a n (ti_sim _ _ HI) Hn HL) as (el & ? & ? & _). eauto.
Qed.

Lemma tinv_run w w' a : tinv w a -> rtc tstep w w' -> exists a', ale a a' /\ tinv w' a'.
Proof.
  intros HI Hr. revert a HI. induction Hr as [w|w1 w2 w3 Hs _ IH]; intros a HI; [exists a; split; [apply ale_refl|done]|].
  destruct (tinv_step _ _ _ HI Hs) as (a1 & Hle1 & HI1). destruct (IH a1 HI1) as (a2 & Hle2 & HI2). exists a2. split; [by etrans|done].
Qed.

Lemma treach_inv w : treach w -> exists a, tinv w a.
Proof.
  intros (w0 & (Hc & Hsv & Hlogs & Herr & Hobs) & Hr). assert (H0 : tinv w0 ainit).
  { pose proof (init_sim ids _ Hc) as Hsim. destruct Hc as (Hmk & Hnet & _ & Hsn). split.
    - done.
    - rewrite Hnet. constructor.
    - intros n Hn. specialize (Hmk n Hn). injection Hmk as <-. unfold truthful. simpl. auto.
    - intros n Hn. rewrite Hsv, Hlogs by done. split; simpl; [lia| | | |constructor|done].
      + specialize (Hmk n Hn). by injection Hmk as <-.
      + split; [intros i v Hx; by rewrite lookup_empty in Hx|intros i Hi; lia].
      + intros _. split_and!; [done| |]; [intros i v Hx; by rewrite lookup_empty in Hx|intros i Hi; lia].
    - rewrite Hsn. intros i b Hib. by apply elem_of_nil in Hib.
    - done.
    - done.
    - rewrite Hobs. intros n t Hin. by apply elem_of_nil in Hin. }
  destruct (tinv_run _ _ _ H0 Hr) as (a & _ & HI). eauto.
Qed.

(** *** The checks *)

Lemma leaders_lookup answers t :
  default [] (leaders answers !! t) = (filter (fun x : NodeID * (Z * bool) => x.2 = (t, true)) answers).*1.
Proof.
  unfold leaders. induction answers as [|[i [t' l]] answers IH] using rev_ind; [done|].
  rewrite foldl_app, filter_app, fmap_app. simpl. rewrite filter_cons, filter_nil. simpl. destruct l.
  - destruct (decide (t' = t)) as [->|Hne].
    + rewrite lookup_insert_eq. simpl. rewrite IH. by rewrite decide_True.
    + rewrite lookup_insert_ne, IH by done. rewrite decide_False by naive_solver. by rewrite app_nil_r.
  - rewrite IH. rewrite decide_False by naive_solver. by rewrite app_nil_r.
Qed.

Lemma one_leader_per_term w a answers t l : tinv w a -> answers ⊆ t_obs w -> NoDup answers.*1 ->
  leaders answers !! t = Some l -> (length l <= 1)%nat.
Proof.
  intros HI Hsub Hd Hl. pose proof (leaders_lookup answers t) as E. rewrite Hl in E. simpl in E.
  assert (HN : NoDup l).
  { rewrite E. eapply sublist_NoDup; [exact Hd|]. apply fmap_sublist. apply sublist_filter. }
  assert (Hall : forall i, i ∈ l -> exists el, alead a t = Some el /\ l_id el = i).
  { intros i Hi. rewrite E in Hi. apply list_elem_of_fmap in Hi as ([i' [t' b]] & -> & Hf).
    apply list_elem_of_filter in Hf as [[= -> ->] Hin]. by apply (ti_obs _ _ HI), Hsub. }
  destruct l as [|i [|i' l]]; simpl; [lia|lia|]. exfalso. apply NoDup_cons in HN as [HN _].
  destruct (Hall i) as (el & H1 & <-); [by left|]. destruct (Hall i') as (el' & H2 & E2); [by right; left|].
  apply HN. rewrite <- E2. replace el' with el by congruence. by left.
Qed.

Lemma nCommitted_loop_ok (ts : Test) index l count c :
  (forall j, ts_applyErr ts j = None) ->
  (forall j v, j ∈ l -> ts_logs ts j !! index = Some v -> 0 < count -> v = c) ->
  (forall j v j' v', j ∈ l -> j' ∈ l -> ts_logs ts j !! index = Some v -> ts_logs ts j' !! index = Some v' -> v = v') ->
  0 <= count -> is_Some (nCommitted_loop ts index count c l).
Proof.
  intros Herr. revert count c. induction l as [|j l IH]; intros count c Hc Hu Hp; simpl; [done|]. rewrite Herr.
  destruct (ts_logs ts j !! index) as [v|] eqn:E.
  - rewrite decide_False. 2: { intros [H1 H2]. apply H2. symmetry. by apply (Hc j v); [left|..]. }
    apply IH; [|intros j1 v1 j2 v2 H1 H2; apply (Hu j1 v1 j2 v2); by right|lia]. intros j' v' Hj' E' _.
    by apply (Hu j' v' j v); [right|left|..].
  - apply IH; [|intros j1 v1 j2 v2 H1 H2; apply (Hu j1 v1 j2 v2); by right|done]. intros j' v' Hj' E' Hpos. by apply (Hc j' v'); [right|..].
Qed.

Lemma committed_agree w index : treach w -> is_Some (nCommitted ids (t_ts w) index).
Proof.
  intros Hr. destruct (treach_inv w Hr) as (a & HI). apply nCommitted_loop_ok; [apply HI|lia| |lia]. intros j v j' v' Hj Hj' E E'.
  apply (proj1 (so_tester _ _ _ _ _ (ti_srv _ _ HI j Hj))) in E as [[-> ->]|[Hi E]];
    apply (proj1 (so_tester _ _ _ _ _ (ti_srv _ _ HI j' Hj'))) in E' as [[? ->]|[? E']]; [done|lia|lia|].
  by apply (cmd_unique a index); [apply HI|..].
Qed.

Lemma answers_one_leader w answers : treach w -> answers ⊆ t_obs w -> NoDup answers.*1 -> is_Some (checkOneLeader answers).
Proof.
  intros Hr Hsub Hd. destruct (treach_inv w Hr) as (a & HI). unfold checkOneLeader. destruct (existsb _ _) eqn:E; [|eauto]. exfalso.
  apply existsb_exists in E as ([t l] & Hin & Hlen%bool_decide_eq_true). apply list_elem_of_In, elem_of_map_to_list in Hin.
  pose proof (one_leader_per_term w a answers t l HI Hsub Hd Hin). lia.
Qed.

(** C3: No check of the Raft tests fails.  Whatever the network, the crashes in the
    middle of anything, the restarts and the snapshots: no server ever reports an
    error (a command applied out of order, a different command at an index that
    some server has applied, a snapshot that does not decode or is not the one
    announced); [nCommitted] finds equal commands at every index; among the
    answers of [GetState] that the tester has collected, at any times, there are
    never two leaders of a term; and a server can be started again. *)
Theorem raft_tests_pass w :
  treach w ->
  (forall n, ts_applyErr (t_ts w) n = None) /\
  (forall index, is_Some (nCommitted ids (t_ts w) index)) /\
  (forall answers, answers ⊆ t_obs w -> NoDup answers.*1 -> is_Some (checkOneLeader answers)) /\
  (forall n, n ∈ ids -> is_Some (newRfsrv snapshots n (t_ts w) (snapshot (c_node (t_c w) n)))).
Proof.
  intros Hr. destruct (treach_inv w Hr) as (a & HI). split_and!.
  - apply HI.
  - intros index. by apply committed_agree.
  - intros answers. by apply answers_one_leader.
  - intros n Hn. unfold newRfsrv. destruct (snapshots && _) eqn:E; [|eauto].
    pose proof (d_has_snap _ _ _ _ _ (n_disk _ _ _ _ _ (s_node _ _ _ (ti_sim _ _ HI) n Hn))) as Hs. simpl in Hs. unfold has_snap in Hs.
    destruct (decide (0 < snapshotIndex (c_node (t_c w) n))) as [Hpos|Hz]; [|rewrite Hs in E; simpl in E; by rewrite andb_false_r in E].
    destruct Hs as (b & Hb & HbS). rewrite Hb.
    destruct (ingestSnap_ok a (mkRfsrv 0 ∅) _ b (-1) (ti_snaps _ _ HI _ _ HbS)) as (l & E' & _); [by left|]. rewrite E'. eauto.
Qed.

End system.

(** ** A test run

    Three servers with snapshots: "n0" is elected, applies nine commands and
    takes a snapshot; "n2", cut off so far, gets the snapshot; "n0" crashes and
    starts again from its own. *)
Module TestDemo.

#[export] Instance gob_index : Gob Z := bit_gob.
#[export] Instance gob_xlog : Gob (list cmd) := bit_gob.

Definition nodes : list NodeID := labrpcIDs 3.

Inductive action := ADo (n : NodeID) (ev : event) | ADeliver (i : nat) | AStart (n : NodeID) (c : list byte)
                  | AApply (n : NodeID) | ASnap (n : NodeID) | ACrash (n : NodeID) | ADrop (i : nat) | AAsk (n : NodeID).

Definition member (n : NodeID) : bool := bool_decide (n ∈ nodes).

Definition raft (w : tworld) (n : NodeID) (ev : event) (net : list packet) : option tworld :=
  '(rf, ps, ms) ← exec (c_node (t_c w) n) ev;
  Some (mkT (with_node (t_c w) n rf ps net (((fun m => (n, m)) <$> ms) ++ c_out (t_c w)) (c_snaps (t_c w)))
          (<[n := mkSrv (sv_rs (t_sv w n)) (sv_box (t_sv w n) ++ ms) (sv_at (t_sv w n)) (sv_todo (t_sv w n))]> (t_sv w))
          (t_ts w) (t_obs w)).

Definition perform (w : tworld) (x : action) : option tworld :=
  match x with
  | ADo n ev => if member n && Script.timer ev then raft w n ev (c_net (t_c w)) else None
  | ADeliver i =>
      p ← c_net (t_c w) !! i;
      if member (dest p) && bool_decide (dest p = me (c_node (t_c w) (dest p)))
      then raft w (dest p) (ERecv p) (delete i (c_net (t_c w))) else None
  | AStart n c =>
      if member n then
        '(rf, ps, ms) ← exec (c_node (t_c w) n) (EStart c);
        Some (mkT (with_node (t_c w) n rf ps (c_net (t_c w)) (((fun m => (n, m)) <$> ms) ++ c_out (t_c w)) (c_snaps (t_c w)))
                (t_sv w) (t_ts w) (t_obs w))
      else None
  | AApply n =>
      if member n then
        match sv_todo (t_sv w n), sv_box (t_sv w n) with
        | None, m :: rest =>
            let '(rs, ts, todo) := handle nodes true n (t_sv w n) (t_ts w) m in
            Some (mkT (t_c w) (<[n := mkSrv rs rest (msg_index m) todo]> (t_sv w)) ts (t_obs w))
        | _, _ => None
        end
      else None
  | ASnap n =>
      if member n then
        '(i, b) ← sv_todo (t_sv w n);
        rf ← Snapshot (c_node (t_c w) n) i (Some b);
        Some (mkT (with_node (t_c w) n rf [] (c_net (t_c w)) (c_out (t_c w)) ((i, b) :: c_snaps (t_c w)))
                (<[n := mkSrv (sv_rs (t_sv w n)) (sv_box (t_sv w n)) (sv_at (t_sv w n)) None]> (t_sv w)) (t_ts w) (t_obs w))
      else None
  | ACrash n =>
      if member n then
        rf ← MakeWithWAL n nodes (wal (c_node (t_c w) n));
        '(rs, ts) ← newRfsrv true n (t_ts w) (snapshot rf);
        Some (mkT (with_node (t_c w) n rf [] (c_net (t_c w)) (c_out (t_c w)) (c_snaps (t_c w)))
                (<[n := mkSrv rs [] (snapshotIndex rf) None]> (t_sv w)) ts (t_obs w))
      else None
  | ADrop i =>
      p ← c_net (t_c w) !! i;
      Some (mkT (mkC (c_node (t_c w)) (delete i (c_net (t_c w))) (c_out (t_c w)) (c_snaps (t_c w))) (t_sv w) (t_ts w) (t_obs w))
  | AAsk n =>
      if member n then Some (mkT (t_c w) (t_sv w) (t_ts w) ((n, GetState (c_node (t_c w) n)) :: t_obs w)) else None
  end.

Fixpoint performs (w : tworld) (xs : list action) : option tworld :=
  match xs with [] => Some w | x :: xs => w ← perform w x; performs w xs end.

Lemma raft_tstep w n ev net w' : n ∈ nodes -> own_event ev -> ev_ok (c_node (t_c w) n) ev ->
  takes ev (c_net (t_c w)) net -> raft w n ev net = Some w' -> tstep nodes true w w'.
Proof.
  intros Hn Ho He Ht H. unfold raft in H. destruct (exec _ _) as [[[rf ps] ms]|] eqn:E; simplify_eq/=. by eapply T_raft.
Qed.

Lemma perform_tstep w x w' : perform w x = Some w' -> tstep nodes true w w'.
Proof.
  assert (Hin : forall n, member n = true -> n ∈ nodes) by (intros n; apply bool_decide_eq_true_1).
  destruct x as [n ev|i|n c|n|n|n|i|n]; cbn [perform].
  - destruct (member n) eqn:En; [|done]. destruct (Script.timer ev) eqn:Et; [|done]. intros H.
    apply (raft_tstep w n ev (c_net (t_c w))); auto; by destruct ev.
  - destruct (c_net (t_c w) !! i) as [p|] eqn:E; [|done]. simpl. destruct (member (dest p)) eqn:En; [|done].
    destruct (bool_decide (dest p = me (c_node (t_c w) (dest p)))) eqn:Ed; [|done]. apply bool_decide_eq_true_1 in Ed.
    intros H. apply (raft_tstep w (dest p) (ERecv p) (delete i (c_net (t_c w)))); auto; simpl; [done|].
    by apply lookup_delete_Permutation.
  - destruct (member n) eqn:En; [|done]. destruct (exec _ _) as [[[rf ps] ms]|] eqn:E; cbn [mbind option_bind]; [|done].
    intros [= <-]. eapply T_start; eauto.
  - destruct (member n) eqn:En; [|done]. destruct (sv_todo (t_sv w n)) eqn:Et; [done|].
    destruct (sv_box (t_sv w n)) as [|m rest] eqn:Eb; [done|].
    destruct (handle nodes true n (t_sv w n) (t_ts w) m) as [[rs ts] todo] eqn:E. intros [= <-]. eapply T_apply; eauto.
  - destruct (member n) eqn:En; [|done]. destruct (sv_todo (t_sv w n)) as [[j b]|] eqn:Et; [|done]. simpl.
    destruct (Snapshot _ _ _) as [rf|] eqn:E; [|done]. intros [= <-]. eapply T_snapshot; eauto.
  - destruct (member n) eqn:En; [|done].
    destruct (MakeWithWAL n nodes (wal (c_node (t_c w) n))) as [rf|] eqn:E; cbn [mbind option_bind]; [|done].
    destruct (newRfsrv true n (t_ts w) (snapshot rf)) as [[rs ts]|] eqn:Es; cbn [mbind option_bind]; [|done]. intros [= <-].
    eapply (T_crash nodes true w n EKill _ _ _ _ (wal (c_node (t_c w) n)) _ (t_ts w)); simpl; eauto; try done.
    unfold Kill. by destruct (dead _).
  - destruct (c_net (t_c w) !! i) as [p|] eqn:E; simpl; [|done]. intros [= <-].
    eapply T_drop. by apply lookup_delete_Permutation.
  - destruct (member n) eqn:En; [|done]. intros [= <-]. apply T_getstate. auto.
Qed.

Definition t0 : tworld := mkT (c0 nodes) (fun _ => mkSrv (mkRfsrv 0 ∅) [] 0 None) (mkTest (fun _ => ∅) (fun _ => None) 0) [].

Lemma performs_run xs v w : performs v xs = Some w -> rtc (tstep nodes true) v w.
Proof.
  revert v. induction xs as [|x xs IH]; intros v H; simpl in H; simplify_eq; [done|].
  destruct (perform v x) as [v1|] eqn:E; [|done]. eapply rtc_l; [by eapply perform_tstep|]. by apply IH.
Qed.

Lemma performs_reach xs w : performs t0 xs = Some w -> treach nodes true w.
Proof. intros H%performs_run. exists t0. split; [split_and!; [apply c0_init|done..]|done]. Qed.

Definition commands : list action := (fun b => AStart "n0" [b]) <$> [Byte.x01; Byte.x02; Byte.x03; Byte.x04; Byte.x05; Byte.x06; Byte.x07; Byte.x08; Byte.x09].

Definition script : list action :=
  [ADo "n0" (ETimeout 0); ADeliver 0; ADeliver 0; ADrop 0; AAsk "n0"; AAsk "n1"] ++ commands ++
  [ADo "n0" EHeartbeat; ADeliver 0; ADeliver 0; ADrop 0; ADo "n0" EApply] ++ repeat (AApply "n0") 9 ++ [ASnap "n0"] ++
  [ADo "n0" EHeartbeat; ADeliver 1; ADeliver 0; ADrop 0; ADo "n2" EApply; AApply "n2"; ACrash "n0"; AAsk "n0"].

Definition final : tworld := default t0 (performs t0 script).

Lemma final_reach : treach nodes true final.
Proof.
  assert (H : match performs t0 script with Some _ => true | None => false end = true) by (vm_compute; reflexivity).
  unfold final. destruct (performs t0 script) as [w|] eqn:E; [|discriminate]. by eapply performs_reach.
Qed.

Example raft_tests_pass_witness :
  nCommitted nodes (t_ts final) 9 = Some (2, Some [Byte.x09]) /\ ts_applyErr (t_ts final) "n0" = None /\
  is_Some (checkOneLeader [("n0", (1, true)); ("n1", (1, false))]).
Proof.
  destruct (raft_tests_pass nodes (proj1 (labrpcIDs_ok 3)) (proj2 (labrpcIDs_ok 3)) true final final_reach) as (H1 & _ & H3 & _).
  split; [vm_compute; reflexivity|]. split; [apply H1|]. apply H3.
  - assert (E : t_obs final = [("n0", (1, false)); ("n1", (1, false)); ("n0", (1, true))]) by (vm_compute; reflexivity).
    rewrite E. intros x. rewrite !elem_of_cons. tauto.
  - apply (bool_decide_eq_true_1 _). vm_compute. reflexivity.
Defined.

End TestDemo.
