(* ===== verification/RaftOne.v ===== *)
(** * The drivers of the Raft tests

    [raft1/test.go]: [one], which has a command agreed on, [wait], [checkTerms],
    [checkNoLeader] and [checkNoAgreement].

    A driver runs beside the cluster of [RaftTest]: what it sees at each moment, the
    answers of the servers and the tester's record of what was applied, is an
    argument here; loops that run against the clock end when the observations do.
    The theorems: a driver never fails on an inconsistency, and the agreement it
    reports is real and permanent. *)

From S2P Require Import Prelude Gob Wal Raft RaftSpec RaftSpecInv RaftNet RaftRel RaftElect RaftReplicate RaftRefine RaftDemo RaftSafety Kv Rsm KvStore Service RaftTest.

(** ** The drivers *)

(** A failed check of [nCommitted]; or another [Fatalf] of the driver itself. *)
Inductive outcome (A : Type) := Returns (x : A) | Inconsistent | GivesUp.
Arguments Returns {A}.
Arguments Inconsistent {A}.
Arguments GivesUp {A}.

Section drivers.
Context (srvs : list NodeID).

(** The servers are asked in turn, from the one after [starts], until one takes the
    command: [answers i] is what [Start] of server [i] returns, [None] when it is
    not connected or not running. *)
Fixpoint try_starts (k : nat) (starts : nat) (answers : nat -> option (Z * Z * bool)) : nat * Z :=
  match k with
  | O => (starts, -1)
  | S k =>
      let starts := ((starts + 1) mod length srvs)%nat in
      match answers starts with
      | Some (index1, _, true) => (starts, index1)
      | _ => try_starts k starts answers
      end
  end.

(** The two seconds in which agreement is polled for; [None] when they are over. *)
Fixpoint poll (index expectedServers : Z) (c : cmd) (polls : list Test) : outcome (option Z) :=
  match polls with
  | [] => Returns None
  | ts :: polls =>
      match nCommitted srvs ts index with
      | None => Inconsistent
      | Some (nd, cmd1) =>
          if decide ((nd > 0 /\ nd >= expectedServers) /\ cmd1 = c) then Returns (Some index)
          else poll index expectedServers c polls
      end
  end.

(** What [one] sees in an iteration of its loop. *)
Record attempt := mkAttempt { rd_answers : nat -> option (Z * Z * bool); rd_polls : list Test }.

Fixpoint one_loop (c : cmd) (expectedServers : Z) (retry : bool) (finished : bool) (starts : nat) (rounds : list attempt) : outcome Z :=
  match rounds with
  | [] => if finished then Returns (-1) else GivesUp
  | rd :: rounds =>
      let '(starts, index) := try_starts (length srvs) starts (rd_answers rd) in
      if decide (index <> -1) then
        match poll index expectedServers c (rd_polls rd) with
        | Returns (Some i) => Returns i
        | Returns None => if retry then one_loop c expectedServers retry finished starts rounds else GivesUp
        | Inconsistent => Inconsistent
        | GivesUp => GivesUp
        end
      else one_loop c expectedServers retry finished starts rounds
  end.

Definition one (c : cmd) (expectedServers : Z) (retry finished : bool) (rounds : list attempt) : outcome Z :=
  one_loop c expectedServers retry finished 0 rounds.

(** The loop of [wait]; an iteration sees the tester's record and, when that is not
    enough, the terms of the servers.  [Some true]: someone has moved on. *)
Fixpoint wait_loop (index n startTerm : Z) (iters : list (Test * list Z)) : option bool :=
  match iters with
  | [] => Some false
  | (ts, terms) :: iters =>
      '(nd, _) ← nCommitted srvs ts index;
      if decide (nd >= n) then Some false
      else if decide (startTerm > -1) then
        if existsb (fun t => bool_decide (t > startTerm)) terms then Some true else wait_loop index n startTerm iters
      else wait_loop index n startTerm iters
  end.

(** [Returns None] is the -1 of a test that can no longer win. *)
Definition wait (index n startTerm : Z) (iters : list (Test * list Z)) (last : Test) : outcome (option cmd) :=
  match wait_loop index n startTerm (take 30 iters) with
  | None => Inconsistent
  | Some true => Returns None
  | Some false =>
      match nCommitted srvs last index with
      | None => Inconsistent
      | Some (nd, c) => if decide (nd < n) then GivesUp else Returns (Some c)
      end
  end.

Definition checkNoAgreement (ts : Test) (index : Z) : outcome unit :=
  match nCommitted srvs ts index with
  | None => Inconsistent
  | Some (n, _) => if decide (n > 0) then GivesUp else Returns tt
  end.

(** [GetState] of the connected servers. *)
Fixpoint checkTerms_loop (term : Z) (answers : list (Z * bool)) : outcome Z :=
  match answers with
  | [] => Returns term
  | (xterm, _) :: answers =>
      if decide (term = -1) then checkTerms_loop xterm answers
      else if decide (term <> xterm) then GivesUp
      else checkTerms_loop term answers
  end.

Definition checkTerms (answers : list (Z * bool)) : outcome Z := checkTerms_loop (-1) answers.

Definition checkNoLeader (answers : list (Z * bool)) : outcome unit := if existsb snd answers then GivesUp else Returns tt.

(** [checkOneLeader]: up to ten iterations over the answers of the connected
    servers.  Two leaders of a term are [Inconsistent]. *)
Fixpoint findLeader (iters : list (list (NodeID * (Z * bool)))) : outcome NodeID :=
  match iters with
  | [] => GivesUp
  | answers :: iters =>
      match checkOneLeader answers with
      | None => Inconsistent
      | Some (Some i) => Returns i
      | Some None => findLeader iters
      end
  end.

Definition findLeader10 (iters : list (list (NodeID * (Z * bool)))) : outcome NodeID := findLeader (take 10 iters).

(** The index that [one] polls for in each iteration, -1 when no server took the
    command. *)
Fixpoint indices (starts : nat) (rounds : list attempt) : list Z :=
  match rounds with
  | [] => []
  | rd :: rounds =>
      let '(starts, index) := try_starts (length srvs) starts (rd_answers rd) in
      index :: indices starts rounds
  end.

(** ** What they compute *)

Definition takes_it (answers : nat -> option (Z * Z * bool)) (i : nat) : Prop := exists x t, answers i = Some (x, t, true).

Lemma try_starts_spec k starts answers : (0 < length srvs)%nat ->
  let '(s, index) := try_starts k starts answers in
  (exists t, answers s = Some (index, t, true)) \/
  (index = -1 /\ forall j, (1 <= j <= k)%nat -> ~ takes_it answers ((starts + j) mod length srvs)%nat).
Proof.
  intros Hn. revert starts. induction k as [|k IH]; intros starts; simpl; [right; split; [done|lia]|].
  set (s1 := ((starts + 1) mod length srvs)%nat).
  assert (Hgo : ~ takes_it answers s1 ->
    let '(s, index) := try_starts k s1 answers in
    (exists t, answers s = Some (index, t, true)) \/
    (index = -1 /\ forall j, (1 <= j <= S k)%nat -> ~ takes_it answers ((starts + j) mod length srvs)%nat)).
  { intros Hno. specialize (IH s1). destruct (try_starts k s1 answers) as [s index]. destruct IH as [IH|[-> IH]]; [by left|right].
    split; [done|]. intros j Hj. destruct (decide (j = 1%nat)) as [->|Hne]; [done|]. specialize (IH (j - 1)%nat ltac:(lia)).
    unfold s1 in IH. rewrite Nat.Div0.add_mod_idemp_l in IH. by replace (starts + j)%nat with (starts + 1 + (j - 1))%nat by lia. }
  destruct (answers s1) as [[[x t] [|]]|] eqn:E; [left; by exists t|..]; apply Hgo; unfold takes_it; rewrite E; intros (? & ? & ?); done.
Qed.

(** Every server is asked in an attempt: one that takes the command is found. *)
Lemma round_finds starts answers s' : (starts < length srvs)%nat -> (s' < length srvs)%nat -> takes_it answers s' ->
  exists s index t, try_starts (length srvs) starts answers = (s, index) /\ answers s = Some (index, t, true).
Proof.
  intros Hs Hs' Ht. pose proof (try_starts_spec (length srvs) starts answers ltac:(lia)) as H.
  destruct (try_starts _ _ _) as [s index]. destruct H as [[t H]|[_ H]]; [eauto|exfalso].
  destruct (decide (starts < s')%nat) as [Hlt|Hge].
  - apply (H (s' - starts)%nat ltac:(lia)). replace (starts + (s' - starts))%nat with s' by lia. by rewrite Nat.mod_small.
  - apply (H (s' + length srvs - starts)%nat ltac:(lia)). replace (starts + (s' + length srvs - starts))%nat with (s' + 1 * length srvs)%nat by lia.
    by rewrite Nat.Div0.mod_add, Nat.mod_small.
Qed.

(** The servers that have applied something at an index, in the tester's record. *)
Definition applied (ts : Test) (index : Z) : list NodeID := filter (fun j => is_Some (ts_logs ts j !! index)) srvs.

Lemma nCommitted_loop_counts ts index l count c nd c' : 0 <= count -> nCommitted_loop ts index count c l = Some (nd, c') ->
  nd = count + zlen (filter (fun j => is_Some (ts_logs ts j !! index)) l) /\ (0 < count -> c' = c) /\
  (forall j v, j ∈ l -> ts_logs ts j !! index = Some v -> v = c').
Proof.
  revert count c. induction l as [|j l IH]; intros count c Hc; simpl.
  - intros [= <- <-]. unfold zlen. simpl. split_and!; [lia|done|]. intros j v Hj. by apply not_elem_of_nil in Hj.
  - destruct (ts_applyErr ts j); [done|]. rewrite filter_cons. destruct (ts_logs ts j !! index) as [c1|] eqn:E.
    + case_decide as Hd; [done|]. intros H. destruct (IH (count + 1) c1 ltac:(lia) H) as (-> & H1 & H2). rewrite decide_True by done.
      specialize (H1 ltac:(lia)). subst c1. unfold zlen. simpl. split_and!; [lia|intros Hp; destruct (decide (c = c')); [done|by destruct Hd]|].
      intros j' v [->|Hj]%elem_of_cons Hv; [congruence|by eapply H2].
    + intros H. destruct (IH _ _ Hc H) as (-> & H1 & H2). rewrite decide_False by (by intros [? ?]). split_and!; [done|done|].
      intros j' v [->|Hj]%elem_of_cons Hv; [congruence|by eapply H2].
Qed.

Lemma nCommitted_counts ts index nd c : nCommitted srvs ts index = Some (nd, c) ->
  nd = zlen (applied ts index) /\ forall j v, j ∈ srvs -> ts_logs ts j !! index = Some v -> v = c.
Proof. intros H. destruct (nCommitted_loop_counts ts index srvs 0 None nd c ltac:(done) H) as (-> & _ & H2). split; [done|exact H2]. Qed.

(** Agreement of [k] servers on a command. *)
Definition agreed (ts : Test) (index : Z) (k : Z) (c : cmd) : Prop :=
  exists js, NoDup js /\ js ⊆ srvs /\ k <= zlen js /\ forall j, j ∈ js -> ts_logs ts j !! index = Some c.

Lemma nCommitted_agreed ts index nd c k : NoDup srvs -> nCommitted srvs ts index = Some (nd, c) -> k <= nd -> agreed ts index k c.
Proof.
  intros Hnd H Hk. destruct (nCommitted_counts _ _ _ _ H) as [-> Hall]. exists (applied ts index). unfold applied in *. split_and!.
  - by apply NoDup_filter.
  - intros j [_ Hj]%list_elem_of_filter. done.
  - done.
  - intros j [[v Hv] Hj]%list_elem_of_filter. by rewrite Hv, (Hall j v Hj Hv).
Qed.

(** [checkTerms] passes exactly when the servers agree on the term. *)
Lemma checkTerms_spec answers t : answers <> [] -> Forall (fun x => fst x <> -1) answers ->
  checkTerms answers = Returns t <-> Forall (fun x => fst x = t) answers.
Proof.
  intros Hne Ht. assert (Hloop : forall term l, term <> -1 -> Forall (fun x => fst x <> -1) l ->
    checkTerms_loop term l = Returns t <-> term = t /\ Forall (fun x : Z * bool => fst x = t) l).
  { intros term l Hterm. induction 1 as [|[x b] l Hx Hl IH]; simpl; [rewrite Forall_nil; naive_solver|].
    rewrite decide_False by done. rewrite Forall_cons. simpl. case_decide as Hd; [naive_solver congruence|].
    rewrite IH. naive_solver congruence. }
  destruct answers as [|[x b] answers]; [done|]. apply Forall_cons in Ht as [Hx Ht]. unfold checkTerms. simpl.
  rewrite Hloop, Forall_cons by done. done.
Qed.

End drivers.

(** ** What an agreement means *)

Section system.
Context (ids : list NodeID) (Hids : "" ∉ ids) (Hnd : NoDup ids).
Context `{!Gob Z} `{!Gob (list cmd)} (snapshots : bool).
Implicit Types (w : tworld) (ts : Test) (c : cmd) (index k : Z).

(** A moment of a run. *)
Definition seen ts : Prop := exists w, treach ids snapshots w /\ t_ts w = ts.

(** In the whole future of [w] nothing but [c] is applied at [index]. *)
Definition settled w index c : Prop :=
  forall w' j v, rtc (tstep ids snapshots) w w' -> j ∈ ids -> ts_logs (t_ts w') j !! index = Some v -> v = c.

Lemma logs_agree w w' j j' index c v : treach ids snapshots w -> rtc (tstep ids snapshots) w w' -> j ∈ ids -> j' ∈ ids ->
  ts_logs (t_ts w) j !! index = Some c -> ts_logs (t_ts w') j' !! index = Some v -> v = c.
Proof.
  intros Hr Hrun Hj Hj' Hc Hv. destruct (treach_inv ids Hids Hnd snapshots w Hr) as (a & HI).
  destruct (tinv_run ids Hids Hnd snapshots w w' a HI Hrun) as (a' & Hle & HI').
  apply (log_ok_mono ids a a' _ Hle (proj1 (so_tester _ _ _ _ _ _ _ (ti_srv _ _ _ _ HI j Hj)))) in Hc.
  apply (proj1 (so_tester _ _ _ _ _ _ _ (ti_srv _ _ _ _ HI' j' Hj'))) in Hv.
  destruct Hc as [[-> ->]|[? Hc]], Hv as [[? ->]|[? Hv]]; [done|lia|lia|]. by apply (cmd_unique ids a' index); [apply HI'|..].
Qed.

Lemma agreed_settled w index k c : treach ids snapshots w -> agreed ids (t_ts w) index k c -> 0 < k -> settled w index c.
Proof.
  intros Hr (js & _ & Hsub & Hk & Hall) Hpos w' j v Hrun Hj Hv. destruct js as [|j0 js]; [unfold zlen in Hk; simpl in Hk; lia|].
  eapply (logs_agree w w' j0 j); [done..|apply Hsub; by left|done|apply Hall; by left|done].
Qed.

Lemma seen_consistent ts index : seen ts -> is_Some (nCommitted ids ts index).
Proof. intros (w & Hr & <-). exact (committed_agree ids Hids Hnd snapshots w index Hr). Qed.

(** A moment [v] at which [k] servers have applied [c], and after which no server
    applies anything else there. *)
Definition agreement_at v index k c : Prop :=
  treach ids snapshots v /\ agreed ids (t_ts v) index k c /\ settled v index c.

Lemma nCommitted_real v index nd c k : treach ids snapshots v -> nCommitted ids (t_ts v) index = Some (nd, c) -> 0 < nd -> k <= nd ->
  agreement_at v index k c.
Proof.
  intros Hr Hn Hpos Hk. split_and!; [done|by eapply nCommitted_agreed|].
  eapply (agreed_settled v index nd); [done|by eapply nCommitted_agreed|done].
Qed.

(** A run of the system from [w] to [w'] on which the driver made the
    observations [obs], in that order. *)
Fixpoint watched w (obs : list Test) w' : Prop :=
  match obs with
  | [] => rtc (tstep ids snapshots) w w'
  | ts :: obs => exists v, rtc (tstep ids snapshots) w v /\ t_ts v = ts /\ watched v obs w'
  end.

Lemma watched_rtc w obs w' : watched w obs w' -> rtc (tstep ids snapshots) w w'.
Proof. revert w. induction obs as [|ts obs IH]; intros w; simpl; [done|]. intros (v & ? & _ & ?). etrans; eauto. Qed.

Lemma watched_app w obs1 obs2 w' : watched w (obs1 ++ obs2) w' -> exists v, watched w obs1 v /\ watched v obs2 w'.
Proof.
  revert w. induction obs1 as [|ts obs1 IH]; intros w; simpl; [intros H; by exists w|].
  intros (v & Hv & Ht & H). destruct (IH _ H) as (u & ? & ?). exists u. split; [by exists v|done].
Qed.

Lemma watched_seen w obs w' ts : treach ids snapshots w -> watched w obs w' -> ts ∈ obs ->
  exists v, treach ids snapshots v /\ rtc (tstep ids snapshots) w v /\ rtc (tstep ids snapshots) v w' /\ t_ts v = ts.
Proof.
  revert w. induction obs as [|ts' obs IH]; intros w Hr Hw Hts; [by apply not_elem_of_nil in Hts|].
  destruct Hw as (v & Hv & <- & Hw). assert (Hrv : treach ids snapshots v) by (destruct Hr as (w0 & ? & ?); exists w0; split; [done|by etrans]).
  apply elem_of_cons in Hts as [->|Hts].
  - exists v. split_and!; try done. by eapply watched_rtc.
  - destruct (IH v Hrv Hw Hts) as (u & ? & ? & ? & ?). exists u. split_and!; try done. by etrans.
Qed.

(** An observation that ends the polling for [c] at [index]. *)
Definition shows expectedServers c index ts : Prop :=
  exists nd, nCommitted ids ts index = Some (nd, c) /\ nd > 0 /\ nd >= expectedServers.

Lemma poll_spec index k c polls : Forall seen polls ->
  (poll ids index k c polls = Returns None /\ Forall (fun ts => ~ shows k c index ts) polls) \/
  (poll ids index k c polls = Returns (Some index) /\ Exists (shows k c index) polls).
Proof.
  induction 1 as [|ts polls Hs _ IH]; simpl; [by left|]. destruct (seen_consistent ts index Hs) as [[nd c1] Hn]. rewrite Hn.
  case_decide as Hd.
  - right. destruct Hd as [[? ?] ->]. split; [done|]. left. by exists nd.
  - destruct IH as [[-> IH]|[-> IH]]; [left|right]; (split; [done|]); [constructor; [|done]|by right].
    intros (nd' & Hn' & ? & ?). apply Hd. simplify_eq. done.
Qed.

(** Iteration [k] of [one], from [starts] on, sees agreement on [c] at [index]. *)
Definition iteration_shows (starts : nat) (rounds : list attempt) expectedServers c (k : nat) index : Prop :=
  exists rd, rounds !! k = Some rd /\ indices ids starts rounds !! k = Some index /\ index <> -1 /\
    Exists (shows expectedServers c index) (rd_polls rd).

Lemma shows_later starts rd rounds s index e c (n : nat) i :
  try_starts ids (length ids) starts (rd_answers rd) = (s, index) ->
  iteration_shows starts (rd :: rounds) e c (S n) i <-> iteration_shows s rounds e c n i.
Proof. intros E. unfold iteration_shows. simpl. by rewrite E. Qed.

Lemma shows_first starts rd rounds s index e c i :
  try_starts ids (length ids) starts (rd_answers rd) = (s, index) ->
  iteration_shows starts (rd :: rounds) e c 0 i <-> i = index /\ index <> -1 /\ Exists (shows e c index) (rd_polls rd).
Proof.
  intros E. unfold iteration_shows. simpl. rewrite E. simpl. split.
  - intros (? & [= <-] & [= <-] & ? & ?). done.
  - intros (-> & ? & ?). exists rd. done.
Qed.

(** What [one] decides, in terms of its observations. *)
Lemma one_loop_spec c e retry finished rounds : Forall (fun rd => Forall seen (rd_polls rd)) rounds -> forall starts,
  match one_loop ids c e retry finished starts rounds with
  | Returns i => (i = -1 /\ finished = true /\ forall (n : nat) j, ~ iteration_shows starts rounds e c n j) \/
      exists n : nat, iteration_shows starts rounds e c n i
  | Inconsistent => False
  | GivesUp => (finished = false \/ retry = false) /\ (retry = true -> forall (n : nat) j, ~ iteration_shows starts rounds e c n j)
  end.
Proof.
  induction 1 as [|rd rounds Hrd _ IH]; intros starts; simpl.
  { assert (Hno : forall (n : nat) j, ~ iteration_shows starts [] e c n j) by (intros k j (? & ? & _); done).
    destruct finished; [by left|]. split; [by left|done]. }
  destruct (try_starts ids (length ids) starts (rd_answers rd)) as [s index] eqn:E. specialize (IH s).
  assert (Hgo : ~ (index <> -1 /\ Exists (shows e c index) (rd_polls rd)) ->
    match one_loop ids c e retry finished s rounds with
    | Returns i => (i = -1 /\ finished = true /\ forall (n : nat) j, ~ iteration_shows starts (rd :: rounds) e c n j) \/
        exists n : nat, iteration_shows starts (rd :: rounds) e c n i
    | Inconsistent => False
    | GivesUp => (finished = false \/ retry = false) /\ (retry = true -> forall (n : nat) j, ~ iteration_shows starts (rd :: rounds) e c n j)
    end).
  { intros Hno. assert (Hall : (forall (n : nat) j, ~ iteration_shows s rounds e c n j) -> forall (n : nat) j, ~ iteration_shows starts (rd :: rounds) e c n j).
    { intros H [|k] j; [rewrite (shows_first _ _ _ _ _ _ _ _ E); tauto|rewrite (shows_later _ _ _ _ _ _ _ _ _ E); auto]. }
    destruct (one_loop ids c e retry finished s rounds) as [i| |]; [|done|naive_solver].
    destruct IH as [(-> & ? & ?)|(k & Hk)]; [left; auto|right; exists (S k)]. by rewrite (shows_later _ _ _ _ _ _ _ _ _ E). }
  case_decide as Hix; [|apply Hgo; tauto].
  destruct (poll_spec index e c (rd_polls rd) Hrd) as [[-> Hno]|[-> Hex]].
  - apply Forall_Exists_neg in Hno. destruct retry; [apply Hgo; tauto|]. split; [by right|done].
  - right. exists 0%nat. rewrite (shows_first _ _ _ _ _ _ _ _ E). done.
Qed.

Lemma index_taken starts rounds (n : nat) i : ids <> [] -> indices ids starts rounds !! n = Some i -> i <> -1 ->
  exists rd s t, rounds !! n = Some rd /\ rd_answers rd s = Some (i, t, true).
Proof.
  intros Hne. revert starts n. induction rounds as [|rd rounds IH]; intros starts n; simpl; [done|].
  pose proof (try_starts_spec ids (length ids) starts (rd_answers rd)) as Ht.
  destruct (try_starts ids (length ids) starts (rd_answers rd)) as [s index]. destruct n as [|n]; simpl; [|apply IH].
  intros [= <-] Hi. destruct Ht as [[t Ht]|[? _]]; [by destruct ids; simpl; [|lia]|by eexists rd, s, t|done].
Qed.

(** C23: What the tests call agreement is agreement.  [one] runs beside the cluster,
    on a run with crashes, restarts, snapshots and any network, and polls the
    tester's record in order as the run goes on.  It never finds servers that
    applied different commands.  An index it returns was given by the [Start] of a
    server that took the command in some iteration, and one of the polls of that
    iteration, at a moment of the run, showed at least the expected number of
    servers to have applied the command there; from that moment on no server ever
    applies another one at that index.  It returns -1 only when the test has been
    told to finish and gives up only when its time is over or it may not retry;
    with retries, neither happens after a poll that showed the agreement. *)
Theorem one_agrees w w' c expectedServers retry finished rounds :
  ids <> [] -> treach ids snapshots w -> watched w (rounds ≫= rd_polls) w' ->
  match one ids c expectedServers retry finished rounds with
  | Returns i =>
      (i = -1 /\ finished = true /\ forall (n : nat) j, ~ iteration_shows 0 rounds expectedServers c n j) \/
      exists (n : nat) rd s t v, rounds !! n = Some rd /\ indices ids 0 rounds !! n = Some i /\
        rd_answers rd s = Some (i, t, true) /\ t_ts v ∈ rd_polls rd /\
        rtc (tstep ids snapshots) w v /\ rtc (tstep ids snapshots) v w' /\ agreement_at v i expectedServers c
  | Inconsistent => False
  | GivesUp => (finished = false \/ retry = false) /\
      (retry = true -> forall (n : nat) j, ~ iteration_shows 0 rounds expectedServers c n j)
  end.
Proof.
  intros Hne Hr Hw.
  assert (Hobs : forall rd ts, rd ∈ rounds -> ts ∈ rd_polls rd -> exists v, treach ids snapshots v /\
    rtc (tstep ids snapshots) w v /\ rtc (tstep ids snapshots) v w' /\ t_ts v = ts).
  { intros rd ts Hrd Hts. apply (watched_seen w (rounds ≫= rd_polls)); [done..|]. apply list_elem_of_bind. eauto. }
  assert (Hseen : Forall (fun rd => Forall seen (rd_polls rd)) rounds).
  { apply Forall_forall. intros rd Hrd. apply Forall_forall. intros ts Hts.
    destruct (Hobs rd ts Hrd Hts) as (v & ? & _ & _ & ?). by exists v. }
  pose proof (one_loop_spec c expectedServers retry finished rounds Hseen 0) as H. unfold one.
  destruct (one_loop ids c expectedServers retry finished 0 rounds) as [i| |]; [|done..].
  destruct H as [?|(k & rd & Hrd & Hix & Hi & Hex)]; [by left|right].
  apply Exists_exists in Hex as (ts & Hts & nd & Hn & Hpos & Hge).
  destruct (index_taken 0 rounds k i Hne Hix Hi) as (rd' & s & t & Hrd' & Ha). simplify_eq.
  destruct (Hobs rd ts) as (v & Hrv & ? & ? & <-); [by eapply list_elem_of_lookup_2|done|].
  exists k, rd, s, t, v. split_and!; try done. eapply nCommitted_real; [done..|lia|lia].
Qed.

Lemma foldr_max_spec ks : let T := foldr (fun t acc => Z.max t acc) (-1) ks in
  (forall t, t ∈ ks -> t <= T) /\ (T = -1 \/ T ∈ ks).
Proof.
  simpl. induction ks as [|k ks [IH1 IH2]]; simpl; [split; [by intros t ?%elem_of_nil|by left]|]. split.
  - intros t [->|Ht%IH1]%elem_of_cons; lia.
  - destruct (Z.max_spec k (foldr (fun t acc => Z.max t acc) (-1) ks)) as [[? ->]|[? ->]].
    + destruct IH2; [by left|right; by right].
    + right. by left.
Qed.

Lemma leaders_elem answers n t : (n, (t, true)) ∈ answers <-> exists l, leaders answers !! t = Some l /\ n ∈ l.
Proof.
  pose proof (leaders_lookup answers t) as E.
  assert (Hin : n ∈ default [] (leaders answers !! t) <-> (n, (t, true)) ∈ answers).
  { rewrite E, list_elem_of_fmap. setoid_rewrite list_elem_of_filter. split.
    - intros ([n' [t' b]] & -> & [= -> ->] & H). done.
    - intros H. by exists (n, (t, true)). }
  rewrite <- Hin. destruct (leaders answers !! t) as [l|]; simpl; [naive_solver|]. split; [by intros ?%elem_of_nil|by intros (? & ? & _)].
Qed.

Lemma leaders_nonempty answers t : leaders answers !! t <> Some [].
Proof.
  unfold leaders. induction answers as [|[i [t' l]] answers IH] using rev_ind; [done|]. rewrite foldl_app. simpl. destruct l; [|done].
  intros [[_ H]|[_ H]]%lookup_insert_Some; [by destruct (default _ _)|done].
Qed.

(** One iteration: the leader of the last term, if any answer names a leader. *)
Lemma one_iteration answers : (forall n t, (n, (t, true)) ∈ answers -> 0 < t) ->
  match checkOneLeader answers with
  | Some (Some n) => exists t, (n, (t, true)) ∈ answers /\ forall n' t', (n', (t', true)) ∈ answers -> t' <= t
  | Some None => forall n t, (n, (t, true)) ∉ answers
  | None => True
  end.
Proof.
  intros Hpos. unfold checkOneLeader. destruct (existsb _ _); [done|].
  destruct (foldr_max_spec (elements (dom (leaders answers)))) as [Hmax Hin]. set (T := foldr _ _ _) in *.
  assert (Hle : forall n t, (n, (t, true)) ∈ answers -> t <= T).
  { intros n t (l & Hl & _)%leaders_elem. apply Hmax, elem_of_elements, elem_of_dom. eauto. }
  destruct (leaders answers !! T) as [[|n l]|] eqn:HT; simpl.
  - by destruct (leaders_nonempty answers T).
  - exists T. split; [apply leaders_elem; exists (n :: l); split; [done|by left]|done].
  - intros n t H. specialize (Hle n t H). pose proof (Hpos n t H). destruct Hin as [?|Hin]; [lia|].
    apply elem_of_elements, elem_of_dom in Hin as [l Hl]. congruence.
Qed.

(** [checkOneLeader] never finds two leaders of a term; what it returns was a leader
    when it was asked, and no later term had one among the servers that were asked
    with it; and it fails only if nobody it asked was a leader. *)
Theorem leader_found w iters : treach ids snapshots w -> Forall (fun ans => ans ⊆ t_obs w /\ NoDup ans.*1) iters ->
  match findLeader10 iters with
  | Returns n => exists ans t, ans ∈ iters /\ (n, (t, true)) ∈ ans /\ forall n' t', (n', (t', true)) ∈ ans -> t' <= t
  | Inconsistent => False
  | GivesUp => forall ans n t, ans ∈ take 10 iters -> (n, (t, true)) ∉ ans
  end.
Proof.
  intros Hr Hall. pose proof (fun answers => answers_one_leader ids Hids Hnd snapshots w answers Hr) as Hone.
  destruct (treach_inv ids Hids Hnd snapshots w Hr) as (a & HI).
  assert (Hpos : forall ans, ans ⊆ t_obs w -> forall n t, (n, (t, true)) ∈ ans -> 0 < t).
  { intros ans Hsub n t Hin%Hsub%(ti_obs _ _ _ _ HI). destruct Hin as (el & Hel & _).
    pose proof (s_inv _ _ _ (ti_sim _ _ _ _ HI)) as I. destruct (i_lead _ _ I t el Hel) as (Hc & _). by apply (i_cand _ _ I) in Hc as [[? _] _]. }
  apply (Forall_take _ 10%nat) in Hall. unfold findLeader10. assert (Hw : take 10 iters ⊆ iters) by (apply subseteq_take).
  induction Hall as [|ans l [Hsub Hd] _ IH]; simpl; [by intros ? ? ? ?%elem_of_nil|].
  destruct (Hone ans Hsub Hd) as [r Hc]. pose proof (one_iteration ans (Hpos ans Hsub)) as Hit. rewrite Hc in *. destruct r as [n|].
  - destruct Hit as (t & ? & ?). exists ans, t. split; [apply Hw; by left|done].
  - assert (Hl : l ⊆ iters) by (intros x Hx; apply Hw; by right). specialize (IH Hl). destruct (findLeader l); [done..|].
    intros ans' n t [->|Hin]%elem_of_cons; [apply Hit|by apply (IH ans')].
Qed.

Lemma wait_loop_consistent index k startTerm iters : Forall (fun it => seen (fst it)) iters -> is_Some (wait_loop ids index k startTerm iters).
Proof.
  induction 1 as [|[ts terms] iters Hs _ IH]; simpl; [done|]. simpl in Hs. destruct (seen_consistent ts index Hs) as [[nd c1] ->]. simpl.
  repeat case_decide; try done. by destruct (existsb _ _).
Qed.

Lemma wait_moved_on index k startTerm iters : wait_loop ids index k startTerm iters = Some true ->
  startTerm > -1 /\ exists it t, it ∈ iters /\ t ∈ snd it /\ t > startTerm.
Proof.
  induction iters as [|[ts terms] iters IH]; simpl; [done|]. destruct (nCommitted ids ts index) as [[nd c]|]; [simpl|done].
  assert (Hrec : wait_loop ids index k startTerm iters = Some true ->
    startTerm > -1 /\ exists it t, it ∈ (ts, terms) :: iters /\ t ∈ snd it /\ t > startTerm).
  { intros H. destruct (IH H) as (? & it & t & Hin & ? & ?). split; [done|]. exists it, t. split; [by right|done]. }
  case_decide; [done|]. case_decide; [|done]. destruct (existsb _ terms) eqn:E; [|done]. intros _. split; [done|].
  apply existsb_exists in E as (t & Ht & Hgt%bool_decide_eq_true). exists (ts, terms), t. split; [by left|]. by rewrite <- list_elem_of_In in Ht.
Qed.

Lemma agreed_counts ts index k c nd c' : agreed ids ts index k c -> nCommitted ids ts index = Some (nd, c') -> k <= nd.
Proof.
  intros (js & Hjs & Hsub & Hk & Hall) H. destruct (nCommitted_counts _ _ _ _ _ H) as [-> _]. etrans; [exact Hk|]. unfold zlen.
  pose proof (submseteq_length js (applied ids ts index)) as Hl. apply inj_le, Hl, NoDup_submseteq; [done|].
  intros j Hj. apply list_elem_of_filter. split; [rewrite (Hall j Hj); eauto|by apply Hsub].
Qed.

(** So is what [wait] returns; it returns -1 only when a server has gone to a later
    term, and fails only when too few servers have applied anything there. *)
Theorem wait_agrees index k startTerm iters last :
  Forall (fun it => seen (fst it)) iters -> seen last -> 0 < k ->
  match wait ids index k startTerm iters last with
  | Returns (Some c) => exists v, t_ts v = last /\ agreement_at v index k c
  | Returns None => startTerm > -1 /\ exists it t, it ∈ iters /\ t ∈ snd it /\ t > startTerm
  | Inconsistent => False
  | GivesUp => forall c, ~ agreed ids last index k c
  end.
Proof.
  intros Hi Hl Hk. unfold wait. assert (Ht : Forall (fun it : Test * list Z => seen (fst it)) (take 30 iters)) by (by apply Forall_take).
  destruct (wait_loop_consistent index k startTerm _ Ht) as [[|] E]; rewrite E.
  - destruct (wait_moved_on _ _ _ _ E) as (? & it & t & Hin & ? & ?). split; [done|]. exists it, t. split; [|done].
    by apply (subseteq_take 30 iters).
  - destruct (seen_consistent last index Hl) as [[nd c] Hn]. rewrite Hn. case_decide as Hd.
    + intros c' Hag. pose proof (agreed_counts _ _ _ _ _ _ Hag Hn). lia.
    + destruct Hl as (v & Hrv & <-). exists v. split; [done|]. eapply nCommitted_real; [done..|lia|lia].
Qed.

End system.

(** ** A run: in the final state of [TestDemo] two servers have applied the ninth
    command. *)
Module OneDemo.
Import TestDemo.

(** The second server is not the leader, the third not connected, the first takes
    the command. *)
Definition ninth : attempt :=
  mkAttempt (fun i => match i with 0%nat => Some (9, 1, true) | 1%nat => Some (-1, 1, false) | _ => None end) [t_ts t0; t_ts final].

Lemma t0_final : rtc (tstep nodes true) t0 final.
Proof.
  assert (H : match performs t0 script with Some _ => true | None => false end = true)
    by (vm_compute; reflexivity).
  unfold final. destruct (performs t0 script) as [w|] eqn:E; [|done]. by eapply performs_run.
Qed.

Lemma one_agrees_witness :
  one nodes (Some [Byte.x09]) 2 true false [ninth] = Returns 9 /\
  exists v, agreement_at nodes true v 9 2 (Some [Byte.x09]).
Proof.
  assert (H : one nodes (Some [Byte.x09]) 2 true false [ninth] = Returns 9) by (vm_compute; reflexivity).
  split; [exact H|].
  pose proof (one_agrees nodes (proj1 (labrpcIDs_ok 3)) (proj2 (labrpcIDs_ok 3)) true t0 final (Some [Byte.x09]) 2 true false [ninth]) as Hone.
  rewrite H in Hone. destruct Hone as [[Hf _]|(k & rd & s & t & v & _ & _ & _ & _ & _ & _ & Hr)];
    [discriminate| | |discriminate|exists v; exact Hr].
  - apply (performs_reach [] t0). reflexivity.
  - exists t0. split; [apply rtc_refl|]. split; [reflexivity|]. exists final. split; [exact t0_final|]. split; [reflexivity|apply rtc_refl].
Defined.

End OneDemo.
