(* ===== verification/Labrpc.v ===== *)
(** * The simulated network

    [labrpc/labrpc.go]: client ends, the network that loses, delays and fails
    their calls, and the servers with their services and methods.

    A call is the goroutine of its [processReq] and the goroutine that runs its
    handler; both move in steps, interleaved with every other call and with the
    operations that reconfigure the network.  The outcomes of the random numbers
    are choices; a delay is a step that may come at any time.  A handler runs in
    one step on the state of the receivers of its server. *)

From Stdlib Require Import Ascii.
From S2P Require Import Prelude Gob.

Record reqMsg := mkReq { endname : string; svcMeth : string; args : list byte }.
Record replyMsg := mkRep { ok : bool; reply : list byte }.

Definition failed : replyMsg := mkRep false [].

(** ** Servers *)

Section servers.
Context {S : Type}.

(** A method on encoded arguments; [None] is [log.Fatalf]. *)
Definition method : Type := S -> list byte -> option (S * list byte).

(** What [reflect] says of a method of the receiver. *)
Record reflMethod := mkRefl {
  m_name : string;
  m_exported : bool;
  m_numIn : nat;
  m_replyIsPtr : bool;
  m_numOut : nat;
  m_call : method
}.

Record Service := mkService { sv_name : string; methods : gmap string method }.

Definition suitable (m : reflMethod) : bool :=
  m_exported m && bool_decide (m_numIn m = 3%nat) && m_replyIsPtr m && bool_decide (m_numOut m = 0%nat).

Definition MakeService (name : string) (rcvr : list reflMethod) : Service :=
  mkService name (foldl (fun ms m => if suitable m then <[m_name m := m_call m]> ms else ms) ∅ rcvr).

Definition Fdispatch : Type := S -> string -> list byte -> option (S * (list byte * bool)).

Record Server := mkServer {
  services : gmap string Service;
  count : Z;
  dispatchf : option Fdispatch;
  rcvrs : S
}.

Definition MakeServer (s : S) : Server := mkServer ∅ 0 None s.

Definition SetDispatch (rs : Server) (f : Fdispatch) : Server := mkServer (services rs) (count rs) (Some f) (rcvrs rs).

Definition AddService (rs : Server) (svc : Service) : Server :=
  mkServer (<[sv_name svc := svc]> (services rs)) (count rs) (dispatchf rs) (rcvrs rs).

(** What comes before and after the last dot. *)
Fixpoint splitLast (s : string) : option (string * string) :=
  match s with
  | EmptyString => None
  | String c s =>
      match splitLast s with
      | Some (a, b) => Some (String c a, b)
      | None => if decide (c = "."%char) then Some ("", s) else None
      end
  end.

Definition Service_dispatch (svc : Service) (s : S) (methname : string) (req : reqMsg) : option (S * replyMsg) :=
  f ← methods svc !! methname;
  '(s, out) ← f s (args req);
  Some (s, mkRep true out).

(** A name without a dot is sliced out of range; an unknown service or method is
    fatal. *)
Definition dispatch (rs : Server) (req : reqMsg) : option (Server * replyMsg) :=
  '(serviceName, methodName) ← splitLast (svcMeth req);
  let rs := mkServer (services rs) (count rs + 1) (dispatchf rs) (rcvrs rs) in
  match dispatchf rs with
  | Some f =>
      '(s, (rep, ok)) ← f (rcvrs rs) (svcMeth req) (args req);
      Some (mkServer (services rs) (count rs) (dispatchf rs) s, mkRep ok rep)
  | None =>
      service ← services rs !! serviceName;
      '(s, rep) ← Service_dispatch service (rcvrs rs) methodName req;
      Some (mkServer (services rs) (count rs) (dispatchf rs) s, rep)
  end.

(** A typed handler as a method: decode, call, encode. *)
Definition handler {A R} `{!Gob A} `{!Gob R} (f : S -> A -> S * R) : method := fun s b =>
  a ← gob_decode b;
  let '(s, r) := f s a in Some (s, gob_enc r).

End servers.
Arguments reflMethod : clear implicits.
Arguments Service : clear implicits.
Arguments Server : clear implicits.

(** [Marshall] and [Unmarshall]; a decoding error is fatal. *)
Definition Marshall {A} `{!Gob A} (a : A) : list byte := gob_enc a.
Definition Unmarshall {A} `{!Gob A} (b : list byte) : option A := gob_decode b.

(** ** The network *)

(** A server is known by its address, a number here; a nil pointer is [None]. *)
Record Network := mkNet {
  reliable : bool;
  longDelays : bool;
  longReordering : bool;
  ends : gset string;
  enabled : gmap string bool;
  servers : gmap string (option nat);
  connections : gmap string (option string);
  closed : bool;
  rpcs : Z;
  bytes : Z
}.

Definition MakeNetwork : Network := mkNet true false false ∅ ∅ ∅ ∅ false 0 0.

(** Closing a closed channel panics. *)
Definition Cleanup (n : Network) : option Network :=
  if closed n then None
  else Some (mkNet (reliable n) (longDelays n) (longReordering n) (ends n) (enabled n) (servers n) (connections n) true (rpcs n) (bytes n)).

Definition Reliable (yes : bool) (n : Network) : Network :=
  mkNet yes (longDelays n) (longReordering n) (ends n) (enabled n) (servers n) (connections n) (closed n) (rpcs n) (bytes n).

Definition LongReordering (yes : bool) (n : Network) : Network :=
  mkNet (reliable n) (longDelays n) yes (ends n) (enabled n) (servers n) (connections n) (closed n) (rpcs n) (bytes n).

Definition LongDelays (yes : bool) (n : Network) : Network :=
  mkNet (reliable n) yes (longReordering n) (ends n) (enabled n) (servers n) (connections n) (closed n) (rpcs n) (bytes n).

Definition MakeEnd (e : string) (n : Network) : option Network :=
  if decide (e ∈ ends n) then None
  else Some (mkNet (reliable n) (longDelays n) (longReordering n) ({[e]} ∪ ends n) (<[e := false]> (enabled n))
               (servers n) (<[e := None]> (connections n)) (closed n) (rpcs n) (bytes n)).

Definition DeleteEnd (e : string) (n : Network) : option Network :=
  if decide (e ∈ ends n)
  then Some (mkNet (reliable n) (longDelays n) (longReordering n) (ends n ∖ {[e]}) (delete e (enabled n))
               (servers n) (delete e (connections n)) (closed n) (rpcs n) (bytes n))
  else None.

Definition AddServer (sn : string) (rs : nat) (n : Network) : Network :=
  mkNet (reliable n) (longDelays n) (longReordering n) (ends n) (enabled n) (<[sn := Some rs]> (servers n))
    (connections n) (closed n) (rpcs n) (bytes n).

Definition DeleteServer (sn : string) (n : Network) : Network :=
  mkNet (reliable n) (longDelays n) (longReordering n) (ends n) (enabled n) (<[sn := None]> (servers n))
    (connections n) (closed n) (rpcs n) (bytes n).

Definition Connect (e sn : string) (n : Network) : Network :=
  mkNet (reliable n) (longDelays n) (longReordering n) (ends n) (enabled n) (servers n)
    (<[e := Some sn]> (connections n)) (closed n) (rpcs n) (bytes n).

Definition Enable (e : string) (yes : bool) (n : Network) : Network :=
  mkNet (reliable n) (longDelays n) (longReordering n) (ends n) (<[e := yes]> (enabled n)) (servers n)
    (connections n) (closed n) (rpcs n) (bytes n).

(** The statistics: an accepted request, a delivered reply. *)
Definition countReq (len : Z) (n : Network) : Network :=
  mkNet (reliable n) (longDelays n) (longReordering n) (ends n) (enabled n) (servers n) (connections n) (closed n)
    (i32 (rpcs n + 1)) (i64 (bytes n + len)).

Definition countReply (len : Z) (n : Network) : Network :=
  mkNet (reliable n) (longDelays n) (longReordering n) (ends n) (enabled n) (servers n) (connections n) (closed n)
    (rpcs n) (i64 (bytes n + len)).

Definition isEnabled (n : Network) (e : string) : bool := default false (enabled n !! e).

(** The pointer [rn.servers[sn]]. *)
Definition serverAt (n : Network) (sn : string) : option nat := servers n !! sn ≫= id.

Definition readEndnameInfo (n : Network) (e : string) : bool * option string * option nat * bool * bool :=
  let servername := connections n !! e ≫= id in
  (isEnabled n e, servername, servername ≫= serverAt n, reliable n, longReordering n).

Definition isServerDead (n : Network) (e sn : string) (srv : nat) : bool :=
  negb (isEnabled n e) || bool_decide (serverAt n sn <> Some srv).

(** ** Calls *)

(** Where [processReq] was sent to, and the settings it read. *)
Record route := mkRoute { r_sn : string; r_srv : nat; r_reliable : bool; r_longReordering : bool }.

Inductive phase :=
| Sending                              (* e.ch <- req *)
| Started                              (* processReq begins *)
| Failing                              (* the simulated timeout *)
| Chosen (rt : route)                  (* before the request may be dropped *)
| Waiting (rt : route)                 (* the loop on ech and the timer *)
| Replied (rt : route) (r : replyMsg)  (* replyOK *)
| Dead                                 (* serverDead in the loop *)
| Delayed (r : replyMsg)               (* AfterFunc with the reply *)
| Returned (r : replyMsg).

(** The goroutine of the handler: it runs, offers its reply on [ech], ends. *)
Inductive hphase := HNone | HRun (sn : string) (srv : nat) | HDone (r : replyMsg) | HEnd.

Record call := mkCall { c_req : reqMsg; c_ph : phase; c_h : hphase }.

(** The random outcome of a step, or the timer of the waiting loop. *)
Inductive choice := Deliver | Drop | Delay | Poll.

(** One step of [processReq]. *)
Definition processReq (n : Network) (x : choice) (c : call) : option (Network * call) :=
  let e := endname (c_req c) in
  let at_ ph := mkCall (c_req c) ph (c_h c) in
  match c_ph c with
  | Started =>
      match readEndnameInfo n e with
      | (true, Some sn, Some srv, rel, lr) => Some (n, at_ (Chosen (mkRoute sn srv rel lr)))
      | _ => Some (n, at_ Failing)
      end
  | Failing => Some (n, at_ (Returned failed))
  | Chosen rt =>
      match x with
      | Drop => if r_reliable rt then None else Some (n, at_ (Returned failed))
      | Deliver => Some (n, mkCall (c_req c) (Waiting rt) (HRun (r_sn rt) (r_srv rt)))
      | _ => None
      end
  | Waiting rt =>
      match x, c_h c with
      | Deliver, HDone r => Some (n, mkCall (c_req c) (Replied rt r) HEnd)
      | Poll, _ => Some (n, at_ (if isServerDead n e (r_sn rt) (r_srv rt) then Dead else Waiting rt))
      | _, _ => None
      end
  | Dead => Some (n, at_ (Returned failed))
  | Replied rt r =>
      if isServerDead n e (r_sn rt) (r_srv rt) then Some (n, at_ (Returned failed))
      else match x with
           | Drop => if r_reliable rt then None else Some (n, at_ (Returned failed))
           | Delay => if r_longReordering rt then Some (n, at_ (Delayed r)) else None
           | Deliver => Some (countReply (zlen (reply r)) n, at_ (Returned r))
           | Poll => None
           end
  | Delayed r => Some (countReply (zlen (reply r)) n, at_ (Returned r))
  | Sending | Returned _ => None
  end.

(** ** The system *)

Section system.
Context {S : Type}.

(** What happened: a call was made, its handler ran at the server [srv] named
    [sn], which the network then had under that name or not, and it returned. *)
Inductive event :=
| ECall (id : nat) (req : reqMsg)
| EExec (id : nat) (sn : string) (srv : nat) (alive : bool) (r : replyMsg)
| EReturn (id : nat) (r : replyMsg).

Record world := mkW {
  net : Network;
  objs : gmap nat (Server S);
  calls : gmap nat call;
  hist : list event
}.

(** The reconfigurations of the network.  The callers of [AddServer] pass a server
    they have just made, see [W_add]. *)
Inductive admin : Network -> Network -> Prop :=
| Ad_reliable b n : admin n (Reliable b n)
| Ad_reordering b n : admin n (LongReordering b n)
| Ad_delays b n : admin n (LongDelays b n)
| Ad_make e n n' : MakeEnd e n = Some n' -> admin n n'
| Ad_delete e n n' : DeleteEnd e n = Some n' -> admin n n'
| Ad_remove sn n : admin n (DeleteServer sn n)
| Ad_connect e sn n : admin n (Connect e sn n)
| Ad_enable e b n : admin n (Enable e b n)
| Ad_cleanup n n' : Cleanup n = Some n' -> admin n n'.

Definition returned (id : nat) (ph : phase) : list event :=
  match ph with Returned r => [EReturn id r] | _ => [] end.

Definition set_call (w : world) (n : Network) (id : nat) (c : call) (evs : list event) : world :=
  mkW n (objs w) (<[id := c]> (calls w)) (hist w ++ evs).

Inductive step : world -> world -> Prop :=
| W_call w id req :
    calls w !! id = None ->
    step w (set_call w (net w) id (mkCall req Sending HNone) [ECall id req])
| W_accept w id c :
    calls w !! id = Some c -> c_ph c = Sending ->
    step w (set_call w (countReq (zlen (args (c_req c))) (net w)) id (mkCall (c_req c) Started (c_h c)) [])
| W_destroyed w id c :
    calls w !! id = Some c -> c_ph c = Sending -> closed (net w) = true ->
    step w (set_call w (net w) id (mkCall (c_req c) (Returned failed) (c_h c)) [EReturn id failed])
| W_process w id c x n' c' :
    calls w !! id = Some c -> processReq (net w) x c = Some (n', c') ->
    step w (set_call w n' id c' (returned id (c_ph c')))
| W_exec w id c sn srv rs rs' r :
    calls w !! id = Some c -> c_h c = HRun sn srv ->
    objs w !! srv = Some rs -> dispatch rs (c_req c) = Some (rs', r) ->
    step w (mkW (net w) (<[srv := rs']> (objs w)) (<[id := mkCall (c_req c) (c_ph c) (HDone r)]> (calls w))
              (hist w ++ [EExec id sn srv (bool_decide (serverAt (net w) sn = Some srv)) r]))
| W_drain w id c r :
    calls w !! id = Some c -> c_h c = HDone r -> c_ph c = Dead \/ c_ph c = Returned failed ->
    step w (set_call w (net w) id (mkCall (c_req c) (c_ph c) HEnd) [])
| W_admin w n' : admin (net w) n' -> step w (mkW n' (objs w) (calls w) (hist w))
| W_add w sn k rs :
    objs w !! k = None ->
    step w (mkW (AddServer sn k (net w)) (<[k := rs]> (objs w)) (calls w) (hist w)).

Definition init : world := mkW MakeNetwork ∅ ∅ [].

Definition reach (w : world) : Prop := rtc step init w.

(** *** What a history may contain *)

Definition event_id (ev : event) : nat :=
  match ev with ECall id _ | EExec id _ _ _ _ | EReturn id _ => id end.

(** What must have happened before an event. *)
Definition allowed (h : list event) (ev : event) : Prop :=
  match ev with
  | ECall id _ => forall ev, ev ∈ h -> event_id ev <> id
  | EExec id _ _ _ _ =>
      (exists req, ECall id req ∈ h) /\ (forall sn srv al r, EExec id sn srv al r ∉ h)
  | EReturn id r =>
      (exists req, ECall id req ∈ h) /\ (forall r', EReturn id r' ∉ h) /\
      (ok r = true -> exists sn srv, EExec id sn srv true r ∈ h)
  end.

Definition ordered (h : list event) : Prop := forall h1 ev h2, h = h1 ++ ev :: h2 -> allowed h1 ev.

Lemma ordered_snoc h ev : ordered h -> allowed h ev -> ordered (h ++ [ev]).
Proof.
  intros Ho Ha h1 ev' h2 E. destruct h2 as [|e' h2 _] using rev_ind.
  - by apply app_inj_tail in E as [-> ->].
  - rewrite app_comm_cons, app_assoc in E. apply app_inj_tail in E as [-> _]. by apply (Ho h1 ev' h2).
Qed.

Lemma ordered_app h evs : ordered h -> (forall ev, evs = [ev] -> allowed h ev) -> (length evs <= 1)%nat -> ordered (h ++ evs).
Proof.
  intros Ho Ha Hl. destruct evs as [|ev [|]]; [by rewrite app_nil_r| |simpl in Hl; lia]. by apply ordered_snoc, Ha.
Qed.

(** *** The invariant of a call *)

Definition no_exec (h : list event) (id : nat) : Prop := forall sn srv al r, EExec id sn srv al r ∉ h.
Definition no_return (h : list event) (id : nat) : Prop := forall r, EReturn id r ∉ h.

(** The handler of [id] ran and replied [r], and it ran at a server that the
    network had unless the server is gone. *)
Definition ran (n : Network) (h : list event) (id : nat) (rt : route) (r : replyMsg) : Prop :=
  exists al, EExec id (r_sn rt) (r_srv rt) al r ∈ h /\ (al = false -> serverAt n (r_sn rt) <> Some (r_srv rt)).

Definition call_ok (n : Network) (h : list event) (id : nat) (c : call) : Prop :=
  match c_h c with
  | HNone =>
      no_exec h id /\ (c_ph c = Sending \/ c_ph c = Started \/ c_ph c = Failing \/ (exists rt, c_ph c = Chosen rt) \/
                       c_ph c = Returned failed)
  | HRun sn srv =>
      no_exec h id /\ ((exists rt, c_ph c = Waiting rt /\ r_sn rt = sn /\ r_srv rt = srv) \/ c_ph c = Dead \/ c_ph c = Returned failed)
  | HDone r => (exists rt, c_ph c = Waiting rt /\ ran n h id rt r) \/ c_ph c = Dead \/ c_ph c = Returned failed
  | HEnd =>
      (exists rt r, c_ph c = Replied rt r /\ ran n h id rt r) \/ c_ph c = Dead \/ c_ph c = Returned failed \/
      (exists sn srv r, (c_ph c = Delayed r \/ c_ph c = Returned r) /\ EExec id sn srv true r ∈ h)
  end.

Record inv (w : world) : Prop := {
  i_ordered : ordered (hist w);
  i_made id : calls w !! id = None -> forall ev, ev ∈ hist w -> event_id ev <> id;
  i_call id c : calls w !! id = Some c -> exists req, ECall id req ∈ hist w;
  i_ret id c : calls w !! id = Some c -> (forall r, c_ph c <> Returned r) -> no_return (hist w) id;
  i_ok id c : calls w !! id = Some c -> call_ok (net w) (hist w) id c;
  i_objs sn srv : serverAt (net w) sn = Some srv -> is_Some (objs w !! srv);
  i_route id c rt : calls w !! id = Some c -> c_ph c = Waiting rt \/ c_ph c = Chosen rt \/ (exists r, c_ph c = Replied rt r) ->
    is_Some (objs w !! r_srv rt)
}.

(** The servers of [n'] that were known before were there before. *)
Definition no_revival (w : world) (n' : Network) : Prop :=
  forall sn srv, is_Some (objs w !! srv) -> serverAt n' sn = Some srv -> serverAt (net w) sn = Some srv.

Definition only_about (id : nat) (evs : list event) : Prop := forall ev, ev ∈ evs -> event_id ev = id.

Lemma ran_mono w n' evs id rt r : no_revival w n' -> is_Some (objs w !! r_srv rt) ->
  ran (net w) (hist w) id rt r -> ran n' (hist w ++ evs) id rt r.
Proof.
  intros Hn Ho (al & Hin & Hal). exists al. split; [apply elem_of_app; by left|].
  intros Hf Hs. apply (Hal Hf). by apply Hn.
Qed.

Lemma call_ok_mono w n' evs id id' c : inv w -> calls w !! id' = Some c -> id' <> id -> only_about id evs ->
  no_revival w n' -> call_ok n' (hist w ++ evs) id' c.
Proof.
  intros Hi Hc Hne Ha Hn. pose proof (i_ok w Hi id' c Hc) as Hok. pose proof (i_route w Hi id' c) as Hrt.
  assert (Hx : forall h, no_exec h id' -> no_exec (h ++ evs) id').
  { intros h Hh sn srv al r [?|Hin%Ha]%elem_of_app; [by eapply Hh|by simpl in Hin]. }
  unfold call_ok in *. destruct (c_h c); [naive_solver..| |].
  - destruct Hok as [(rt & Hp & Hr)|?]; [|by right]. left. exists rt. split; [done|].
    apply ran_mono; [done| |done]. apply Hrt; auto.
  - destruct Hok as [(rt & r & Hp & Hr)|[?|[?|(sn & srv & r & Hp & Hr)]]]; [|naive_solver..|].
    + left. exists rt, r. split; [done|]. apply ran_mono; [done| |done]. apply Hrt; eauto.
    + do 3 right. exists sn, srv, r. split; [done|]. apply elem_of_app. by left.
Qed.

(** Steps of one call. *)
Lemma inv_set w n' objs' id c' evs :
  inv w -> only_about id evs -> (length evs <= 1)%nat -> (forall ev, evs = [ev] -> allowed (hist w) ev) ->
  no_revival w n' -> (forall sn srv, serverAt n' sn = Some srv -> is_Some (objs' !! srv)) ->
  (forall k, is_Some (objs w !! k) -> is_Some (objs' !! k)) ->
  (exists req, ECall id req ∈ hist w ++ evs) ->
  call_ok n' (hist w ++ evs) id c' ->
  ((forall r, c_ph c' <> Returned r) -> no_return (hist w ++ evs) id) ->
  (forall rt, c_ph c' = Waiting rt \/ c_ph c' = Chosen rt \/ (exists r, c_ph c' = Replied rt r) -> is_Some (objs' !! r_srv rt)) ->
  inv (mkW n' objs' (<[id := c']> (calls w)) (hist w ++ evs)).
Proof.
  intros Hi Ha Hl Hal Hn Hs Hobj Hcall Hok Hret Hrt. split; simpl.
  - apply ordered_app; [apply Hi|done..].
  - intros id' Hid' ev [Hin|Hin]%elem_of_app; apply lookup_insert_None in Hid' as [Hid' Hne].
    + by apply (i_made w Hi id').
    + rewrite (Ha ev Hin). by intros ->.
  - intros id' c [[-> ->]|[Hne Hc]]%lookup_insert_Some; [done|].
    destruct (i_call w Hi id' c Hc) as [req ?]. exists req. apply elem_of_app. by left.
  - intros id' c [[-> ->]|[Hne Hc]]%lookup_insert_Some; [done|]. intros Hr r [Hin|Hin]%elem_of_app.
    + by eapply (i_ret w Hi id' c Hc Hr).
    + apply Ha in Hin. by simpl in Hin.
  - intros id' c [[-> ->]|[Hne Hc]]%lookup_insert_Some; [done|]. by apply (call_ok_mono w n' evs id).
  - exact Hs.
  - intros id' c rt [[-> ->]|[Hne Hc]]%lookup_insert_Some H; [by apply Hrt|]. apply Hobj. by apply (i_route w Hi id' c rt).
Qed.

(** Steps that change the network only. *)
Lemma inv_net w n' objs' :
  inv w -> no_revival w n' -> (forall sn srv, serverAt n' sn = Some srv -> is_Some (objs' !! srv)) ->
  (forall k, is_Some (objs w !! k) -> is_Some (objs' !! k)) -> inv (mkW n' objs' (calls w) (hist w)).
Proof.
  intros Hi Hn Hs Hobj. split; simpl; [apply Hi..| |exact Hs|].
  - intros id c Hc. rewrite <- (app_nil_r (hist w)). apply (call_ok_mono w n' [] (1 + id)); [done|done|lia| |done].
    by intros ev ?%elem_of_nil.
  - intros id c rt Hc H. apply Hobj. by apply (i_route w Hi id c rt).
Qed.

Lemma admin_servers n n' sn srv : admin n n' -> serverAt n' sn = Some srv -> serverAt n sn = Some srv.
Proof.
  unfold serverAt. intros H. destruct H as [| | |e n n' E|e n n' E|sn' n| | |n n' E]; simpl; try done;
    try (unfold MakeEnd, DeleteEnd, Cleanup in E; case_match; simplify_eq/=; done).
  destruct (decide (sn' = sn)) as [->|]; [by rewrite lookup_insert_eq|by rewrite lookup_insert_ne].
Qed.

Lemma processReq_servers n x c n' c' : processReq n x c = Some (n', c') -> servers n' = servers n /\ c_req c' = c_req c.
Proof. unfold processReq. intros H. repeat case_match; simplify_eq/=; done. Qed.

Lemma alive_ran n h id e rt r : ran n h id rt r -> isServerDead n e (r_sn rt) (r_srv rt) = false ->
  EExec id (r_sn rt) (r_srv rt) true r ∈ h.
Proof.
  intros (al & Hin & Hal) Hd. destruct al; [done|]. exfalso. apply (Hal eq_refl).
  unfold isServerDead in Hd. apply orb_false_iff in Hd as [_ Hd%bool_decide_eq_false]. by apply dec_stable.
Qed.

(** What a step of [processReq] does to the call. *)
Ltac call_case := simplify_eq; unfold call_ok in *; simpl in *; split_and!; naive_solver.

Lemma process_ok w id c x n' c' : inv w -> calls w !! id = Some c -> processReq (net w) x c = Some (n', c') ->
  call_ok (net w) (hist w) id c' /\ (forall r, c_ph c <> Returned r) /\
  (forall r, c_ph c' = Returned r -> ok r = true -> exists sn srv, EExec id sn srv true r ∈ hist w) /\
  (forall rt, c_ph c' = Waiting rt \/ c_ph c' = Chosen rt \/ (exists r, c_ph c' = Replied rt r) -> is_Some (objs w !! r_srv rt)).
Proof.
  intros Hi Hc Hp. pose proof (i_ok w Hi id c Hc) as Hok. pose proof (fun rt => i_route w Hi id c rt Hc) as Hrt.
  unfold processReq in Hp. destruct c as [req ph h]. cbn [c_req c_ph c_h] in *. destruct ph as [| | |rt|rt|rt r| |r|r]; [done|..|done].
  - destruct (readEndnameInfo _ _) as [[[[en sn] srv] rel] lr] eqn:E.
    assert (Hc' : c' = mkCall req Failing h \/
      exists sn' srv', c' = mkCall req (Chosen (mkRoute sn' srv' rel lr)) h /\ serverAt (net w) sn' = Some srv').
    { destruct en, sn as [sn|], srv as [srv|]; simplify_eq; auto.
      right. exists sn, srv. split; [done|]. unfold readEndnameInfo in E. injection E as _ E1 E2 _ _. by rewrite E1 in E2. }
    destruct Hc' as [->|(sn' & srv' & -> & Hs)]; [destruct h; call_case|].
    pose proof (i_objs w Hi sn' srv' Hs). destruct h; call_case.
  - destruct h; call_case.
  - assert (h = HNone) as -> by (unfold call_ok in Hok; destruct h; naive_solver). destruct x; try done; [call_case|]. destruct (r_reliable rt); call_case.
  - destruct x; try done; [destruct h; call_case|]. destruct (isServerDead _ _ _ _), h; call_case.
  - assert (h = HEnd) as -> by (unfold call_ok in Hok; destruct h; naive_solver).
    assert (Hran : ran (net w) (hist w) id rt r) by (unfold call_ok in Hok; naive_solver).
    destruct (isServerDead _ _ _ _) eqn:Hd; [call_case|]. apply (alive_ran _ _ _ (endname req)) in Hran; [|done].
    destruct x; try done; [call_case| |]; case_match; call_case.
  - destruct h; call_case.
  - destruct h; call_case.
Qed.

Lemma call_ok_app n h id c evs : call_ok n h id c -> (forall sn srv al r, EExec id sn srv al r ∉ evs) ->
  call_ok n (h ++ evs) id c.
Proof.
  intros Hok Hx. unfold call_ok, ran, no_exec in *. destruct (c_h c); setoid_rewrite elem_of_app; naive_solver.
Qed.

Lemma call_ok_net n n' h id c : servers n' = servers n -> call_ok n h id c -> call_ok n' h id c.
Proof. unfold call_ok, ran, serverAt. by intros ->. Qed.

Lemma inv_call w n' id c' evs :
  inv w -> servers n' = servers (net w) -> only_about id evs -> (length evs <= 1)%nat ->
  (forall ev, evs = [ev] -> allowed (hist w) ev) -> (exists req, ECall id req ∈ hist w ++ evs) ->
  call_ok (net w) (hist w ++ evs) id c' -> ((forall r, c_ph c' <> Returned r) -> no_return (hist w ++ evs) id) ->
  (forall rt, c_ph c' = Waiting rt \/ c_ph c' = Chosen rt \/ (exists r, c_ph c' = Replied rt r) -> is_Some (objs w !! r_srv rt)) ->
  inv (set_call w n' id c' evs).
Proof.
  intros Hi Hs Ha Hl Hal Hcall Hok Hret Hrt.
  apply inv_set; [done..| | |done|done|by apply (call_ok_net (net w))|done|done].
  - intros sn srv _. unfold serverAt. by rewrite Hs.
  - intros sn srv. unfold serverAt. rewrite Hs. apply (i_objs w Hi).
Qed.

(** A step that may be the return of a call that has not returned. *)
Lemma inv_returns w n' id c c' : inv w -> calls w !! id = Some c -> servers n' = servers (net w) ->
  (forall r, c_ph c <> Returned r) -> call_ok (net w) (hist w) id c' ->
  (forall r, c_ph c' = Returned r -> ok r = true -> exists sn srv, EExec id sn srv true r ∈ hist w) ->
  (forall rt, c_ph c' = Waiting rt \/ c_ph c' = Chosen rt \/ (exists r, c_ph c' = Replied rt r) -> is_Some (objs w !! r_srv rt)) ->
  inv (set_call w n' id c' (returned id (c_ph c'))).
Proof.
  intros Hi Hc Hs Hnr Hok Hret Hrt. pose proof (i_ret w Hi id c Hc Hnr) as Hno. destruct (i_call w Hi id c Hc) as [req Hreq].
  apply inv_call; [done..| | | | | | |done].
  - intros ev. destruct (c_ph c'); simpl; intros Hin; try by apply elem_of_nil in Hin. by apply list_elem_of_singleton in Hin as ->.
  - destruct (c_ph c'); simpl; lia.
  - intros ev. destruct (c_ph c') eqn:E; simpl; try done. intros [= <-]. simpl. split_and!; [by exists req|done|by apply Hret].
  - exists req. apply elem_of_app. by left.
  - apply call_ok_app; [done|]. intros sn srv al r. destruct (c_ph c'); simpl; set_solver.
  - intros Hn r [?|Hin]%elem_of_app; [by apply (Hno r)|]. destruct (c_ph c'); simpl in Hin; try by apply elem_of_nil in Hin. by eapply Hn.
Qed.

(** The handler runs. *)
Lemma inv_exec w id c sn srv rs rs' r : inv w -> calls w !! id = Some c -> c_h c = HRun sn srv ->
  objs w !! srv = Some rs -> dispatch rs (c_req c) = Some (rs', r) ->
  inv (mkW (net w) (<[srv := rs']> (objs w)) (<[id := mkCall (c_req c) (c_ph c) (HDone r)]> (calls w))
         (hist w ++ [EExec id sn srv (bool_decide (serverAt (net w) sn = Some srv)) r])).
Proof.
  intros Hi Hc Hh Ho Hd.
  pose proof (i_ok w Hi id c Hc) as Hok. unfold call_ok in Hok. rewrite Hh in Hok. destruct Hok as [Hne Hph].
  destruct (i_call w Hi id c Hc) as [req Hreq].
  assert (Hobj : forall k, is_Some (objs w !! k) -> is_Some (<[srv := rs']> (objs w) !! k)).
  { intros k Hk. rewrite lookup_insert_is_Some'. by right. }
  apply inv_set; [done| |simpl; lia| |by intros ???| |done| | | |].
  - by intros ev ->%list_elem_of_singleton.
  - intros ev [= <-]. simpl. split; [by exists req|done].
  - intros sn' srv' H%(i_objs w Hi). by apply Hobj.
  - exists req. apply elem_of_app. by left.
  - unfold call_ok. simpl. destruct Hph as [(rt & Hp & <- & <-)|?]; [|auto]. left. exists rt. split; [done|].
    eexists. split; [apply elem_of_app; right; by left|]. by intros ?%bool_decide_eq_false.
  - intros Hn r' [Hin|Hin%list_elem_of_singleton]%elem_of_app; [|done]. by eapply (i_ret w Hi id c Hc Hn).
  - intros rt H. apply Hobj. by apply (i_route w Hi id c rt Hc).
Qed.

Lemma inv_step w w' : inv w -> step w w' -> inv w'.
Proof.
  intros Hi Hst. destruct Hst as [w id req Hc|w id c Hc Hp|w id c Hc Hp Hcl|w id c x n' c' Hc Hp|w id c sn srv rs rs' r Hc Hh Ho Hd
    |w id c r Hc Hh Hp|w n' Ha|w sn k rs Hk].
  - pose proof (i_made w Hi id Hc) as Hm. apply inv_call; simpl; [done|done| |lia| | | | |naive_solver].
    + by intros ev ->%list_elem_of_singleton.
    + by intros ev [= <-].
    + exists req. apply elem_of_app. right. by left.
    + unfold call_ok. simpl. split; [|auto]. intros sn srv al r [Hin%Hm|Hin%list_elem_of_singleton]%elem_of_app; done.
    + intros _ r [Hin%Hm|Hin%list_elem_of_singleton]%elem_of_app; done.
  - pose proof (i_ok w Hi id c Hc) as Hok. apply (inv_returns w _ id c (mkCall (c_req c) Started (c_h c))); simpl; [done..| | |done|naive_solver].
    + by rewrite Hp.
    + unfold call_ok in *. simpl. rewrite Hp in Hok. destruct (c_h c); naive_solver.
  - pose proof (i_ok w Hi id c Hc) as Hok. apply (inv_returns w _ id c (mkCall (c_req c) (Returned failed) (c_h c))); simpl; [done..| | | |naive_solver].
    + by rewrite Hp.
    + unfold call_ok in *. simpl. rewrite Hp in Hok. destruct (c_h c); naive_solver.
    + by intros r [= <-].
  - destruct (process_ok w id c x n' c' Hi Hc Hp) as (Hok & Hnr & Hret & Hrt). apply processReq_servers in Hp as [Hs _].
    by apply (inv_returns w n' id c c').
  - by apply (inv_exec w id c sn srv rs rs' r).
  - pose proof (i_ok w Hi id c Hc) as Hok. destruct (i_call w Hi id c Hc) as [req Hreq].
    apply inv_call; simpl; [done|done|by intros ev ?%elem_of_nil|lia|done| | | |]; rewrite ?app_nil_r.
    + by exists req.
    + unfold call_ok in *. simpl. rewrite Hh in Hok. naive_solver.
    + intros Hn. by apply (i_ret w Hi id c Hc Hn).
    + intros rt. apply (i_route w Hi id c rt Hc).
  - apply inv_net; [done| | |done].
    + intros sn srv _ H. by apply (admin_servers _ n').
    + intros sn srv H%(admin_servers _ _ _ _ Ha). by apply (i_objs w Hi sn).
  - assert (Hs : forall sn' srv, serverAt (AddServer sn k (net w)) sn' = Some srv -> srv = k \/ serverAt (net w) sn' = Some srv).
    { intros sn' srv. unfold serverAt. simpl. destruct (decide (sn = sn')) as [->|].
      - rewrite lookup_insert_eq. intros [= <-]. by left.
      - rewrite lookup_insert_ne by done. by right. }
    apply inv_net; [done| | |].
    + intros sn' srv [rs0 Hrs] [->|?]%Hs; [congruence|done].
    + intros sn' srv [->|H]%Hs; [by rewrite lookup_insert_eq|]. rewrite lookup_insert_is_Some'. right. by apply (i_objs w Hi sn').
    + intros k' ?. rewrite lookup_insert_is_Some'. by right.
Qed.

Lemma init_inv : inv init.
Proof. split; simpl; try done; [intros h1 ev h2 H; by destruct h1|by intros ? _ ? ?%elem_of_nil]. Qed.

Lemma rtc_inv w w' : inv w -> rtc step w w' -> inv w'.
Proof. intros Hi H. induction H; eauto using inv_step. Qed.

Lemma reach_inv w : reach w -> inv w.
Proof. unfold reach. intros H. apply (rtc_inv init); [apply init_inv|done]. Qed.

Lemma ordered_once h h1 ev h2 ev' : ordered h -> h = h1 ++ ev :: h2 -> ev' ∈ h2 -> exists h3, ev ∈ h3 /\ allowed h3 ev'.
Proof.
  intros Ho -> (a & b & ->)%list_elem_of_split. exists (h1 ++ ev :: a). split; [set_solver|].
  apply (Ho _ _ b). by rewrite <- app_assoc.
Qed.

(** C13: The network runs the handler of a call at most once, and returns a call
    once.  A handler runs after the call was made.  A call that returns true
    returns the reply of its handler, which ran before, and ran while the server
    was still there: no reply reaches a client from a server that was deleted
    before it handled the request. *)
Theorem labrpc_at_most_once (w : world) (id : nat) : reach w ->
  (forall h1 sn srv al r h2, hist w = h1 ++ EExec id sn srv al r :: h2 ->
     (exists req, ECall id req ∈ h1) /\ no_exec h1 id /\ no_exec h2 id) /\
  (forall h1 r h2, hist w = h1 ++ EReturn id r :: h2 ->
     no_return h1 id /\ no_return h2 id /\ (ok r = true -> exists sn srv, EExec id sn srv true r ∈ h1)).
Proof.
  intros Hi%reach_inv%i_ordered. split.
  - intros h1 sn srv al r h2 E. destruct (Hi _ _ _ E) as [? ?]. split_and!; [done|done|].
    intros sn' srv' al' r' Hin. destruct (ordered_once _ _ _ _ _ Hi E Hin) as (h3 & ? & _ & Hno). by eapply Hno.
  - intros h1 r h2 E. destruct (Hi _ _ _ E) as (? & ? & ?). split_and!; [done| |done].
    intros r' Hin. destruct (ordered_once _ _ _ _ _ Hi E Hin) as (h3 & ? & _ & Hno & _). by eapply Hno.
Qed.

(** *** Calls on a connection that works *)

Section steady.
Context (e sn : string) (srv : nat).

Record steady (n : Network) : Prop := {
  s_reliable : reliable n = true;
  s_open : closed n = false;
  s_enabled : isEnabled n e = true;
  s_connected : connections n !! e = Some (Some sn);
  s_server : serverAt n sn = Some srv
}.

Definition sstep (w w' : world) : Prop := step w w' /\ steady (net w) /\ steady (net w').

Definition good_route (rt : route) : Prop := r_sn rt = sn /\ r_srv rt = srv /\ r_reliable rt = true.

(** A call that was made while the connection worked. *)
Definition served (h : list event) (id : nat) (ph : phase) : Prop :=
  match ph with
  | Failing | Dead => False
  | Chosen rt | Waiting rt | Replied rt _ => good_route rt
  | Delayed r | Returned r => EExec id sn srv true r ∈ h
  | Sending | Started => True
  end.

Lemma steady_alive n : steady n -> isServerDead n e sn srv = false.
Proof. intros Hs. unfold isServerDead. rewrite (s_enabled n Hs), (s_server n Hs). by rewrite bool_decide_eq_false_2 by naive_solver. Qed.

Lemma served_process w id c x n' c' : inv w -> steady (net w) -> calls w !! id = Some c -> endname (c_req c) = e ->
  served (hist w) id (c_ph c) -> processReq (net w) x c = Some (n', c') -> served (hist w) id (c_ph c').
Proof.
  intros Hi Hs Hc He Hv Hp. pose proof (i_ok w Hi id c Hc) as Hok. unfold processReq in Hp. destruct c as [req ph h].
  cbn [c_req c_ph c_h] in *. rewrite He in Hp. destruct ph as [| | |rt|rt|rt r| |r|r]; try done.
  - unfold readEndnameInfo in Hp. rewrite (s_enabled _ Hs), (s_connected _ Hs) in Hp. simpl in Hp.
    rewrite (s_server _ Hs), (s_reliable _ Hs) in Hp. by simplify_eq/=.
  - destruct Hv as (? & ? & Hr). rewrite Hr in Hp. destruct x; by simplify_eq/=.
  - destruct Hv as (H1 & H2 & Hr). rewrite H1, H2, (steady_alive _ Hs) in Hp. destruct x, h; by simplify_eq/=.
  - destruct Hv as (H1 & H2 & Hr). rewrite H1, H2, (steady_alive _ Hs), Hr in Hp.
    assert (Hran : ran (net w) (hist w) id rt r) by (unfold call_ok in Hok; destruct h; naive_solver).
    apply (alive_ran _ _ _ e) in Hran; [|rewrite H1, H2; by apply steady_alive]. rewrite H1, H2 in Hran.
    destruct x; [..|done]; simplify_eq/=; [done|]. destruct (r_longReordering rt); by simplify_eq/=.
  - by simplify_eq/=.
Qed.

Lemma served_mono h h' id ph : h ⊆ h' -> served h id ph -> served h' id ph.
Proof. intros Hh. destruct ph; simpl; auto. Qed.

(** Every call on the end that was made after [w0] is served. *)
Definition all_served (w0 w : world) : Prop := forall id c,
  calls w0 !! id = None -> calls w !! id = Some c -> endname (c_req c) = e -> served (hist w) id (c_ph c).

Lemma all_served_set w0 w n' id c' evs : all_served w0 w ->
  (calls w0 !! id = None -> endname (c_req c') = e -> served (hist w) id (c_ph c')) ->
  all_served w0 (set_call w n' id c' evs).
Proof.
  intros Hw Hc id' c Hn H He. simpl in *. apply lookup_insert_Some in H as [[-> ->]|[_ H]].
  - apply (served_mono (hist w)); [set_solver|auto].
  - apply (served_mono (hist w)); [set_solver|eauto].
Qed.

Lemma all_served_step w0 w w' : inv w -> all_served w0 w -> sstep w w' -> all_served w0 w'.
Proof.
  intros Hi Hw (Hst & Hs & _). destruct Hst as [w id req Hc|w id c Hc Hp|w id c Hc Hp Hcl|w id c x n' c' Hc Hp
    |w id c sn' srv' rs rs' r Hc Hh Ho Hd|w id c r Hc Hh Hp|w n' Ha|w sn' k rs Hk].
  - by apply all_served_set.
  - by apply all_served_set.
  - by rewrite (s_open _ Hs) in Hcl.
  - apply all_served_set; [done|]. pose proof (processReq_servers _ _ _ _ _ Hp) as [_ Hreq]. rewrite Hreq. intros Hn He.
    by apply (served_process w id c x n' c'), Hp; eauto.
  - intros id' c' Hn H He. simpl in *. apply (served_mono (hist w)); [set_solver|].
    apply lookup_insert_Some in H as [[-> <-]|[_ H]]; simpl; eauto.
  - apply all_served_set; [done|]. simpl. eauto.
  - exact Hw.
  - exact Hw.
Qed.

Lemma all_served_rtc w0 w1 w : all_served w0 w1 -> inv w1 -> rtc sstep w1 w -> all_served w0 w /\ inv w.
Proof.
  intros Hs Hi H. induction H as [w|w1 w2 w3 H12 H IH]; [done|].
  apply IH; [by eapply all_served_step|by destruct H12; eauto using inv_step].
Qed.

Lemma all_served_path w0 w : inv w0 -> rtc sstep w0 w -> all_served w0 w /\ inv w.
Proof. intros Hi. apply all_served_rtc; [|done]. intros id c ? ?. congruence. Qed.

(** *** Progress *)

Lemma steady_counters n n' : steady n -> reliable n' = reliable n -> closed n' = closed n -> enabled n' = enabled n ->
  connections n' = connections n -> servers n' = servers n -> steady n'.
Proof. intros [] ? ? He Hc Hs. split; unfold isEnabled, serverAt in *; congruence. Qed.

(** The call can run to its end: [w'] is a world further on, in which it has. *)
Definition finishes (w : world) (id : nat) : Prop := exists w' r, rtc sstep w w' /\ EReturn id r ∈ hist w'.

Lemma finishes_step w w' id : sstep w w' -> finishes w' id -> finishes w id.
Proof. intros H (w2 & r & ? & ?). exists w2, r. split; [by eapply rtc_l|done]. Qed.

(** The next step of a call whose [processReq] can take one. *)
Lemma finishes_process w id c x n' c' : steady (net w) -> steady n' -> calls w !! id = Some c ->
  processReq (net w) x c = Some (n', c') ->
  (finishes (set_call w n' id c' (returned id (c_ph c'))) id) -> finishes w id.
Proof. intros Hs Hs' Hc Hp. apply finishes_step. split; [by eapply W_process|done]. Qed.

Lemma steady_reply n len : steady n -> steady (countReply len n).
Proof. intros H. by apply (steady_counters n). Qed.

Lemma finishes_returned w n' id c' r : c_ph c' = Returned r -> finishes (set_call w n' id c' (returned id (c_ph c'))) id.
Proof. intros ->. eexists _, r. split; [apply rtc_refl|]. simpl. set_solver. Qed.

Lemma finishes_replied w id req rt r h : steady (net w) -> calls w !! id = Some (mkCall req (Replied rt r) h) ->
  endname req = e -> good_route rt -> finishes w id.
Proof.
  intros Hs Hc He (H1 & H2 & H3).
  eapply (finishes_process w id _ Deliver (countReply (zlen (reply r)) (net w)) (mkCall req (Returned r) h) Hs);
    [by apply steady_reply|exact Hc| |by apply (finishes_returned _ _ _ _ r)].
  unfold processReq. simpl. by rewrite He, H1, H2, (steady_alive _ Hs).
Qed.

Lemma finishes_done w id req rt r : steady (net w) -> calls w !! id = Some (mkCall req (Waiting rt) (HDone r)) ->
  endname req = e -> good_route rt -> finishes w id.
Proof.
  intros Hs Hc He Hg. eapply (finishes_process w id _ Deliver); [done|exact Hs|done|done|].
  apply (finishes_replied _ id req rt r HEnd); [done| |done|done]. simpl. apply lookup_insert_eq.
Qed.

Lemma finishes_run w id req rt : steady (net w) -> calls w !! id = Some (mkCall req (Waiting rt) (HRun sn srv)) ->
  endname req = e -> good_route rt -> (exists rs, objs w !! srv = Some rs /\ is_Some (dispatch rs req)) -> finishes w id.
Proof.
  intros Hs Hc He Hg (rs & Ho & [rs' r] & Hd).
  eapply finishes_step; [split; [by eapply (W_exec w id _ sn srv rs rs' r)|done]|].
  eapply (finishes_done _ id req rt r); [done|simpl; apply lookup_insert_eq|done|done].
Qed.

Lemma finishes_chosen w id req rt h : steady (net w) -> calls w !! id = Some (mkCall req (Chosen rt) h) ->
  endname req = e -> good_route rt -> (exists rs, objs w !! srv = Some rs /\ is_Some (dispatch rs req)) -> finishes w id.
Proof.
  intros Hs Hc He Hg Hd. eapply (finishes_process w id _ Deliver); [done|exact Hs|done|done|].
  apply (finishes_run _ id req rt); [done| |done|done|done]. simpl. destruct Hg as (-> & -> & _). apply lookup_insert_eq.
Qed.

Lemma finishes_started w id req h : steady (net w) -> calls w !! id = Some (mkCall req Started h) ->
  endname req = e -> (exists rs, objs w !! srv = Some rs /\ is_Some (dispatch rs req)) -> finishes w id.
Proof.
  intros Hs Hc He Hd. eapply (finishes_process w id _ Deliver); [done|exact Hs|done| |].
  { unfold processReq, readEndnameInfo. simpl. rewrite He, (s_enabled _ Hs), (s_connected _ Hs). simpl.
    by rewrite (s_server _ Hs), (s_reliable _ Hs). }
  eapply finishes_chosen; [done|simpl; apply lookup_insert_eq|done|done|done].
Qed.

(** C14: On a connection that works, reliable, enabled and connected to a server
    that stays, no call is lost: a call made there only returns what its handler,
    run once by this server, replied; and at every moment it can still run to its
    end, whatever the other calls and clients have done, if the handler accepts
    the request. *)
Theorem steady_calls_answered (w0 w : world) (id : nat) (c : call) :
  reach w0 -> calls w0 !! id = None -> rtc sstep w0 w -> steady (net w) ->
  calls w !! id = Some c -> endname (c_req c) = e ->
  (forall r, c_ph c = Returned r -> EExec id sn srv true r ∈ hist w) /\
  ((forall r, c_ph c <> Returned r) -> (forall rs, objs w !! srv = Some rs -> is_Some (dispatch rs (c_req c))) ->
   exists w' r, rtc sstep w w' /\ EReturn id r ∈ hist w').
Proof.
  intros Hr Hn Hp Hs Hc He. destruct (all_served_path w0 w (reach_inv _ Hr) Hp) as [Hv Hi].
  specialize (Hv id c Hn Hc He). pose proof (i_ok w Hi id c Hc) as Hok. split.
  { intros r E. by rewrite E in Hv. }
  intros Hnr Hd. change (finishes w id). destruct (i_objs w Hi sn srv (s_server _ Hs)) as [rs Ho].
  assert (Hd' : exists rs, objs w !! srv = Some rs /\ is_Some (dispatch rs (c_req c))) by eauto.
  destruct c as [req ph h]. simpl in *. destruct ph as [| | |rt|rt|rt r| |r|r]; try done.
  - eapply finishes_step; [split; [by eapply W_accept|split; [done|by apply (steady_counters (net w))]]|].
    eapply finishes_started; [by apply (steady_counters (net w))|simpl; apply lookup_insert_eq|done|done].
  - by eapply finishes_started.
  - by eapply finishes_chosen.
  - unfold call_ok in Hok. simpl in Hok. destruct h as [|sn' srv'|r|]; [naive_solver| |by eapply finishes_done|naive_solver].
    destruct Hok as [_ [(rt' & [= <-] & <- & <-)|[?|?]]]; [|done..]. pose proof Hv as (H1 & H2 & _).
    apply (finishes_run w id req rt); [done|by rewrite <- H1, <- H2|done..].
  - by eapply finishes_replied.
  - by eapply (finishes_process w id _ Deliver (countReply (zlen (reply r)) (net w)) (mkCall req (Returned r) h) Hs);
      [apply steady_reply| |..|apply (finishes_returned _ _ _ _ r)].
  - by destruct (Hnr r).
Qed.

End steady.

End system.

(** ** Typed calls *)

Lemma splitLast_app a m : splitLast m = None -> splitLast (a +:+ String "."%char m) = Some (a, m).
Proof.
  intros Hm. induction a as [|c a IH].
  - change (splitLast (String "."%char m) = Some ("", m)). simpl. by rewrite Hm.
  - change (splitLast (String c (a +:+ String "."%char m)) = Some (String c a, m)). simpl. by rewrite IH.
Qed.

Lemma MakeService_lookup {S} name (ms : list (reflMethod S)) m :
  NoDup (m_name <$> ms) -> m ∈ ms -> suitable m = true -> methods (MakeService name ms) !! m_name m = Some (m_call m).
Proof.
  unfold MakeService. simpl. revert m. induction ms as [|x ms IH] using rev_ind; intros m Hnd Hin Hs; [by apply elem_of_nil in Hin|].
  rewrite foldl_app. simpl. rewrite fmap_app in Hnd. apply NoDup_app in Hnd as (Hnd & Hx & _).
  apply elem_of_app in Hin as [Hin|Hin%list_elem_of_singleton].
  - rewrite <- (IH m Hnd Hin Hs). destruct (suitable x); [|done]. rewrite lookup_insert_ne; [done|].
    intros E. apply (Hx (m_name m)); [by apply list_elem_of_fmap_2|]. rewrite <- E. simpl. by left.
  - subst m. rewrite Hs. apply lookup_insert_eq.
Qed.

(** Serving a request changes the receivers and the counter only. *)
Lemma dispatch_keeps {S} (rs rs' : Server S) req rep : dispatch rs req = Some (rs', rep) ->
  dispatchf rs' = dispatchf rs /\ services rs' = services rs.
Proof.
  unfold dispatch. destruct (splitLast _) as [[sn mn]|]; [|done]. simpl. destruct (dispatchf rs) as [f|].
  - destruct (f _ _ _) as [[s [r o]]|]; [|done]. simpl. by intros [= <- _].
  - destruct (services rs !! sn) as [svc|]; [|done]. simpl. destruct (Service_dispatch _ _ _ _) as [[s r]|]; [|done].
    simpl. by intros [= <- _].
Qed.

(** The path from a typed call to a typed handler and back loses nothing.  A
    server whose receiver has a suitable method [f] under the called name decodes
    exactly the caller's arguments, runs [f] once on the state of its receivers,
    and the caller decodes exactly what [f] replied; it counts one request. *)
Lemma rpc_transparent {S A R} `{!Gob A} `{!Gob R} (f : S -> A -> S * R) (rs : Server S)
    (svcName e : string) (ms : list (reflMethod S)) (m : reflMethod S) (a : A) :
  NoDup (m_name <$> ms) -> m ∈ ms -> suitable m = true -> m_call m = handler f -> splitLast (m_name m) = None ->
  dispatchf rs = None -> services rs !! svcName = Some (MakeService svcName ms) ->
  exists rs' rep,
    dispatch rs (mkReq e (svcName +:+ "." +:+ m_name m) (Marshall a)) = Some (rs', rep) /\
    ok rep = true /\ Unmarshall (reply rep) = Some (f (rcvrs rs) a).2 /\
    rcvrs rs' = (f (rcvrs rs) a).1 /\ services rs' = services rs /\ dispatchf rs' = None /\ count rs' = count rs + 1.
Proof.
  intros Hnd Hm Hs Hf Hdot Hd Hsv. pose proof (MakeService_lookup svcName ms m Hnd Hm Hs) as Hl.
  set (svc := MakeService svcName ms) in *. clearbody svc. unfold dispatch. simpl. change ("." +:+ m_name m)%string with (String "."%char (m_name m)).
  rewrite splitLast_app by done. simpl. rewrite Hd, Hsv. simpl. unfold Service_dispatch.
  unfold method in *. rewrite Hl. simpl. rewrite Hf. unfold handler, Marshall. rewrite gob_roundtrip. simpl.
  destruct (f (rcvrs rs) a) as [s r] eqn:E. simpl. eexists _, _. split; [done|]. simpl.
  split_and!; [done| |done..]. unfold Unmarshall. by rewrite gob_roundtrip.
Qed.

(** ** A server that adds *)

Module LabrpcDemo.

#[export] Instance gob_Z : Gob Z := bit_gob.

Definition add (s a : Z) : Z * Z := (s + a, s + a).
Definition adder : list (reflMethod Z) :=
  [mkRefl "Add" true 3 true 0 (handler add); mkRefl "reset" false 1 false 0 (fun _ _ => None)].
Definition server : Server Z := AddService (MakeServer 0) (MakeService "Adder" adder).

Inductive act := ACall (id : nat) (req : reqMsg) | AAccept (id : nat) | AProc (id : nat) (x : choice) | AExec (id : nat)
               | AMake (e : string) | AEnable (e : string) (b : bool) | AConnect (e sn : string) | ARemove (sn : string)
               | AAdd (sn : string) (k : nat).

(** The world after an action, where it is possible. *)
Definition perform (w : @world Z) (a : act) : option world :=
  match a with
  | ACall id req =>
      match calls w !! id with
      | Some _ => None
      | None => Some (set_call w (net w) id (mkCall req Sending HNone) [ECall id req])
      end
  | AAccept id =>
      c ← calls w !! id;
      match c_ph c with
      | Sending => Some (set_call w (countReq (zlen (args (c_req c))) (net w)) id (mkCall (c_req c) Started (c_h c)) [])
      | _ => None
      end
  | AProc id x =>
      c ← calls w !! id; '(n', c') ← processReq (net w) x c; Some (set_call w n' id c' (returned id (c_ph c')))
  | AExec id =>
      c ← calls w !! id;
      match c_h c with
      | HRun sn srv =>
          rs ← objs w !! srv; '(rs', r) ← dispatch rs (c_req c);
          Some (mkW (net w) (<[srv := rs']> (objs w)) (<[id := mkCall (c_req c) (c_ph c) (HDone r)]> (calls w))
              (hist w ++ [EExec id sn srv (bool_decide (serverAt (net w) sn = Some srv)) r]))
      | _ => None
      end
  | AMake e => n ← MakeEnd e (net w); Some (mkW n (objs w) (calls w) (hist w))
  | AEnable e b => Some (mkW (Enable e b (net w)) (objs w) (calls w) (hist w))
  | AConnect e sn => Some (mkW (Connect e sn (net w)) (objs w) (calls w) (hist w))
  | ARemove sn => Some (mkW (DeleteServer sn (net w)) (objs w) (calls w) (hist w))
  | AAdd sn k =>
      match objs w !! k with
      | Some _ => None
      | None => Some (mkW (AddServer sn k (net w)) (<[k := server]> (objs w)) (calls w) (hist w))
      end
  end.

Fixpoint performs (w : @world Z) (l : list act) : option world :=
  match l with [] => Some w | a :: l => w ← perform w a; performs w l end.

Lemma perform_step w a w' : perform w a = Some w' -> step w w'.
Proof.
  destruct a; simpl; intros H.
  - destruct (calls w !! id) eqn:E; simplify_eq. by constructor.
  - destruct (calls w !! id) as [c|] eqn:E; simplify_eq/=. destruct (c_ph c) eqn:Ep; simplify_eq. by constructor.
  - destruct (calls w !! id) as [c|] eqn:E; simplify_eq/=. destruct (processReq _ _ _) as [[n' c']|] eqn:Ep; simplify_eq/=.
    by eapply W_process.
  - destruct (calls w !! id) as [c|] eqn:E; simplify_eq/=. destruct (c_h c) as [|sn srv| |] eqn:Eh; simplify_eq.
    destruct (objs w !! srv) as [rs|] eqn:Eo; simplify_eq/=. destruct (dispatch _ _) as [[rs' r]|] eqn:Ed; simplify_eq/=.
    by eapply W_exec.
  - destruct (MakeEnd _ _) eqn:E; simplify_eq/=. by eapply W_admin, Ad_make.
  - simplify_eq. apply W_admin. constructor.
  - simplify_eq. apply W_admin. constructor.
  - simplify_eq. apply W_admin. constructor.
  - destruct (objs w !! k) eqn:E; simplify_eq. by constructor.
Qed.

Lemma performs_rtc w l w' : performs w l = Some w' -> rtc step w w'.
Proof.
  revert w. induction l as [|a l IH]; simpl; intros w H; [by simplify_eq|].
  destruct (perform w a) as [w1|] eqn:E; simplify_eq/=. eapply rtc_l; [by eapply perform_step|by apply IH].
Qed.

(** An end, connected to a server, and a call that was delivered. *)
Definition setup : list act := [AMake "c"; AAdd "s" 0; AConnect "c" "s"; AEnable "c" true].
Definition req : reqMsg := mkReq "c" "Adder.Add" (Marshall 5).
Definition one_call : list act :=
  [ACall 7 req; AAccept 7; AProc 7 Deliver; AProc 7 Deliver; AExec 7; AProc 7 Deliver; AProc 7 Deliver].

Definition after (l : list act) : world := default init (performs init l).

Lemma after_reach l : is_Some (performs init l) -> reach (after l).
Proof. intros [w H]. unfold after. rewrite H. by apply (performs_rtc _ l). Qed.

Example labrpc_at_most_once_witness :
  let w := after (setup ++ one_call) in
  exists r, hist w = [ECall 7 req; EExec 7 "s" 0 true r] ++ [EReturn 7 r] /\ Unmarshall (reply r) = Some 5 /\
    ((exists sn srv, EExec 7 sn srv true r ∈ [ECall 7 req; EExec 7 "s" 0 true r]) /\ no_return [ECall 7 req; EExec 7 "s" 0 true r] 7).
Proof.
  intros w. exists (mkRep true (gob_enc 5)). assert (Hh : hist w = [ECall 7 req; EExec 7 "s" 0 true (mkRep true (gob_enc 5))] ++
    [EReturn 7 (mkRep true (gob_enc 5))]) by (vm_compute; reflexivity). split; [done|]. split; [vm_compute; reflexivity|].
  destruct (labrpc_at_most_once w 7) as [_ H].
  - apply after_reach. vm_compute. eauto.
  - destruct (H _ _ _ Hh) as (? & _ & Hex). split; [by apply Hex|done].
Defined.

(** Actions during which the connection of "c" to "s" works. *)
Definition steadyb (n : Network) : bool :=
  reliable n && negb (closed n) && isEnabled n "c" && bool_decide (connections n !! "c" = Some (Some "s")) &&
  bool_decide (serverAt n "s" = Some 0%nat).

Lemma steadyb_spec n : steadyb n = true -> steady "c" "s" 0 n.
Proof.
  unfold steadyb. intros ((((Hr & Hc)%andb_true_iff & He)%andb_true_iff & Hn)%andb_true_iff & Hs)%andb_true_iff.
  split; [done|by apply negb_true_iff|done|by apply bool_decide_eq_true in Hn|by apply bool_decide_eq_true in Hs].
Qed.

Fixpoint steady_performs (w : @world Z) (l : list act) : option world :=
  if steadyb (net w) then
    match l with [] => Some w | a :: l => w ← perform w a; steady_performs w l end
  else None.

Lemma steady_performs_rtc w l w' : steady_performs w l = Some w' -> rtc (sstep "c" "s" 0) w w' /\ steady "c" "s" 0 (net w').
Proof.
  revert w. induction l as [|a l IH]; simpl; intros w H.
  - destruct (steadyb (net w)) eqn:E; simplify_eq. split; [done|by apply steadyb_spec].
  - destruct (steadyb (net w)) eqn:E; simplify_eq. destruct (perform w a) as [w1|] eqn:Ea; simplify_eq/=.
    destruct (IH _ H) as [Hr Hs]. split; [|done]. eapply rtc_l; [|done]. split_and!; [by eapply perform_step|by apply steadyb_spec|].
    destruct l; simpl in H; destruct (steadyb (net w1)) eqn:E1; try done; by apply steadyb_spec.
Qed.

Example steady_calls_answered_witness :
  exists (w : @world Z) c w' r, calls w !! 7%nat = Some c /\ c_ph c = Started /\ rtc (sstep "c" "s" 0) w w' /\ EReturn 7 r ∈ hist w'.
Proof.
  destruct (steady_performs (after setup) [ACall 7 req; AAccept 7]) as [w|] eqn:E; [|vm_compute in E; discriminate].
  assert (Hc : match steady_performs (after setup) [ACall 7 req; AAccept 7] with
               | Some w => calls w !! 7%nat = Some (mkCall req Started HNone) /\ objs w !! 0%nat = Some server
               | None => False end) by (vm_compute; split; reflexivity).
  rewrite E in Hc. destruct Hc as [Hc Ho]. destruct (steady_performs_rtc _ _ _ E) as [Hr Hs].
  destruct (steady_calls_answered "c" "s" 0 (after setup) w 7 (mkCall req Started HNone)) as [_ H]; [|done..|].
  - apply after_reach. vm_compute. eauto.
  - destruct H as (w' & r & ? & ?); [done| |by exists w, (mkCall req Started HNone), w', r].
    intros rs Hrs. rewrite Ho in Hrs. injection Hrs as <-. vm_compute. eauto.
Defined.

Example rpc_transparent_witness :
  exists rs' rep, dispatch server (mkReq "c" "Adder.Add" (Marshall 5)) = Some (rs', rep) /\
    Unmarshall (reply rep) = Some 5 /\ rcvrs rs' = 5.
Proof.
  destruct (rpc_transparent add server "Adder" "c" adder (mkRefl "Add" true 3 true 0 (handler add)) 5)
    as (rs' & rep & Hd & _ & Hu & Hr & _ & _); try reflexivity.
  - apply (bool_decide_eq_true_1 _). vm_compute. reflexivity.
  - unfold adder. apply elem_of_cons. by left.
  - by exists rs', rep.
Defined.

(** A request that is already running when its server is deleted changes the
    server, and the caller is told that it failed. *)
Example killed_server_reports_failure :
  let w := after (setup ++ [ACall 7 req; AAccept 7; AProc 7 Deliver; AProc 7 Deliver; ARemove "s"; AExec 7; AProc 7 Deliver; AProc 7 Deliver]) in
  hist w = [ECall 7 req; EExec 7 "s" 0 false (mkRep true (gob_enc 5)); EReturn 7 failed] /\ rcvrs <$> (objs w !! 0%nat) = Some 5.
Proof. vm_compute. done. Qed.

End LabrpcDemo.
