(* ===== verification/Demux.v ===== *)
(** * Calls multiplexed over a socket

    [tester1/demux]: the framing of messages ([transport.go]), the map of
    outstanding calls ([callmap.go]), the client that tags its calls and matches
    the replies ([dmxclnt.go]) and the server that answers them ([dmxsrv.go]);
    [tester1/sockrpc]: remote calls on top of it.

    Callers, the two reader goroutines and the handlers of the server are
    processes that move in steps; the connection may break at any moment. *)

From S2P Require Import Prelude Gob Labrpc.

(** ** The framing *)

(** [binary.LittleEndian] *)
Definition put_u32le (n : Z) : list byte := reverse (put_u32 n).

Definition get_u32le (b : list byte) : option Z :=
  match b with
  | b0 :: b1 :: b2 :: b3 :: _ => get_u32 [b3; b2; b1; b0]
  | _ => None
  end.

Lemma get_put_u32le n rest : 0 <= n < 2 ^ 32 -> get_u32le (put_u32le n ++ rest) = Some n.
Proof.
  intros Hn. unfold get_u32le, put_u32le, put_u32. simpl. rewrite <- (Z.mod_small n (2 ^ 32)) at 5 by done.
  rewrite <- (get_put_u32 n []). done.
Qed.

Record msg := mkMsg { m_Tag : Z; m_Data : list byte; m_Ok : bool }.

(** EOF before a message, or in the middle of one. *)
Inductive readError := EOF | UnexpectedEOF.

Section transport.
Context `{!Gob msg}.

Definition WriteCall (tag : Z) (d : list byte) (ok : bool) : list byte :=
  let b := Marshall (mkMsg tag d ok) in put_u32le (zlen b) ++ b.

(** The next message of the stream and the rest; a message that does not decode
    is fatal. *)
Definition ReadCall (s : list byte) : option (readError + msg * list byte) :=
  match get_u32le s with
  | None => Some (inl (if decide (s = []) then EOF else UnexpectedEOF))
  | Some nbyte =>
      let s := drop 4 s in
      if decide (zlen s < nbyte) then Some (inl UnexpectedEOF)
      else m ← Unmarshall (take (Z.to_nat nbyte) s); Some (inr (m, drop (Z.to_nat nbyte) s))
  end.

Lemma ReadCall_WriteCall m rest : zlen (gob_enc m) < 2 ^ 32 ->
  ReadCall (WriteCall (m_Tag m) (m_Data m) (m_Ok m) ++ rest) = Some (inr (m, rest)).
Proof.
  intros Hl. destruct m as [t d o]. unfold WriteCall, ReadCall, Marshall. cbn [m_Tag m_Data m_Ok]. set (b := gob_enc _) in *.
  pose proof (zlen_nonneg b). rewrite <- app_assoc, get_put_u32le by lia.
  change (drop 4 (put_u32le (zlen b) ++ b ++ rest)) with (b ++ rest).
  rewrite decide_False by (rewrite zlen_app; pose proof (zlen_nonneg rest); lia).
  rewrite zlen_to_nat, take_app_length, drop_app_length. unfold Unmarshall, b. by rewrite gob_roundtrip.
Qed.

(** A message that was cut off is an error, never another message. *)
Lemma ReadCall_cut m k : zlen (gob_enc m) < 2 ^ 32 -> (k < length (WriteCall (m_Tag m) (m_Data m) (m_Ok m)))%nat ->
  exists e, ReadCall (take k (WriteCall (m_Tag m) (m_Data m) (m_Ok m))) = Some (inl e).
Proof.
  intros Hl Hk. destruct m as [t d o]. unfold WriteCall, Marshall in *. cbn [m_Tag m_Data m_Ok] in *. set (b := gob_enc _) in *.
  pose proof (zlen_nonneg b). rewrite length_app in Hk. change (length (put_u32le (zlen b))) with 4%nat in Hk.
  destruct (decide (k < 4)%nat) as [H4|H4].
  - rewrite take_app_le by (change (length (put_u32le (zlen b))) with 4%nat; lia). unfold ReadCall.
    destruct k as [|[|[|[|k]]]]; [by eexists..|lia].
  - rewrite take_app_ge by (change (length (put_u32le (zlen b))) with 4%nat; lia).
    change (length (put_u32le (zlen b))) with 4%nat. unfold ReadCall. rewrite get_put_u32le by lia.
    change (drop 4 (put_u32le (zlen b) ++ take (k - 4) b)) with (take (k - 4) b).
    rewrite decide_True; [by eexists|]. unfold zlen at 1. rewrite length_take. unfold zlen. lia.
Qed.

(** A stream of messages, and the messages of a stream. *)
Definition writes (ms : list msg) : list byte := ms ≫= fun m => WriteCall (m_Tag m) (m_Data m) (m_Ok m).

Fixpoint reads (fuel : nat) (s : list byte) : option (list msg * readError) :=
  match fuel with
  | O => None
  | S fuel =>
      r ← ReadCall s;
      match r with
      | inl e => Some ([], e)
      | inr (m, s) => '(ms, e) ← reads fuel s; Some (m :: ms, e)
      end
  end.

Lemma reads_step fuel m rest : zlen (gob_enc m) < 2 ^ 32 ->
  reads (S fuel) (WriteCall (m_Tag m) (m_Data m) (m_Ok m) ++ rest) =
  ('(ms, e) ← reads fuel rest; Some (m :: ms, e)).
Proof. intros Hm. cbn [reads]. by rewrite ReadCall_WriteCall by done. Qed.

(** What is read from the connection is what was written.  However the stream
    of messages is cut by a broken connection, the reader gets a prefix of the
    messages, all that arrived completely, and then an error; and never a message
    that was not written. *)
Theorem framing_roundtrip (ms : list msg) (m : msg) (k : nat) :
  Forall (fun m => zlen (gob_enc m) < 2 ^ 32) (m :: ms) -> (k < length (writes [m]))%nat ->
  exists e, reads (S (length ms)) (writes ms ++ take k (writes [m])) = Some (ms, e).
Proof.
  intros [Hm Hms]%Forall_cons Hk.
  assert (Hw : writes [m] = WriteCall (m_Tag m) (m_Data m) (m_Ok m)).
  { unfold writes. rewrite bind_cons. apply app_nil_r. }
  rewrite Hw in *. destruct (ReadCall_cut m k Hm Hk) as [e He]. exists e. clear Hw. induction Hms as [|x ms Hx Hms IH].
  - cbn [length reads]. unfold writes. cbn [mbind list_bind app]. by rewrite He.
  - unfold writes in *. rewrite bind_cons, <- app_assoc. cbn [length]. by rewrite reads_step, IH by done.
Qed.

End transport.

(** ** The map of outstanding calls

    A channel is known by the caller that waits on it. *)

Record callMap := mkCallMap { cm_closed : bool; cm_calls : gmap Z nat }.

Definition newCallMap : callMap := mkCallMap false ∅.

Definition cm_close (cm : callMap) : callMap := mkCallMap true (cm_calls cm).

(** [None]: the error "conn closed". *)
Definition put (cm : callMap) (t : Z) (ch : nat) : option callMap :=
  if cm_closed cm then None else Some (mkCallMap (cm_closed cm) (<[t := ch]> (cm_calls cm))).

Definition remove (cm : callMap) (t : Z) : option (nat * callMap) :=
  ch ← cm_calls cm !! t; Some (ch, mkCallMap (cm_closed cm) (delete t (cm_calls cm))).

(** The tags in the order in which Go visits the map. *)
Definition outstanding (cm : callMap) (ts : list Z) : Prop :=
  NoDup ts /\ forall t, t ∈ ts <-> is_Some (cm_calls cm !! t).

(** ** The client *)

Record DemuxClnt := mkClnt { callmap : callMap; nextTag : Z }.

(** A [Ttag] has 32 bits. *)
Definition tag (d : DemuxClnt) : Z * DemuxClnt :=
  (nextTag d, mkClnt (callmap d) ((nextTag d + 1) mod 2 ^ 32)).

(** [rp_err] says whether an error comes with it. *)
Record dreply := mkReply { rp_rep : list byte; rp_ok : bool; rp_err : bool }.

Definition failReply : dreply := mkReply [] false true.

Record InitMsg := mkInit { Clnt : string }.

(** The client and the message it has written. *)
Definition NewDemuxClnt `{!Gob InitMsg} (clnt : string) : DemuxClnt * msg :=
  let '(t, d) := tag (mkClnt newCallMap 0) in (d, mkMsg t (Marshall (mkInit clnt)) true).

(** Where a caller is in [SendReceive]: it has a tag; its channel is in the map;
    it has written, or tried to, and waits; it has returned. *)
Inductive cphase := PTag | PPut | PWait | PDone (r : dreply).

Record caller := mkCaller { cl_req : list byte; cl_tag : Z; cl_ph : cphase }.

(** Where the reader is: reading; sending a reply to a caller, after which it
    reads on or fails the calls that are left; between [close] and [outstanding];
    failing what is outstanding; done; or in [log.Fatalf]. *)
Inductive rphase :=
| RRead | RSend (ch : nat) (r : dreply) (next : option (list Z)) | RClosed | RFail (ts : list Z) | REnd | RFatal.

(** A goroutine in [Close]: it has seen that the map is not closed; it has closed
    the connection. *)
Inductive kphase := KConn | KMap.

Record client := mkClient {
  dmx : DemuxClnt;
  callers : gmap nat caller;
  rdr : rphase;
  closers : list kphase;
  (* how many tags have been given out *)
  issued : Z
}.

Definition set_phase (c : client) (d : DemuxClnt) (i : nat) (x : caller) (ph : cphase) : client :=
  mkClient d (<[i := mkCaller (cl_req x) (cl_tag x) ph]> (callers c)) (rdr c) (closers c) (issued c).

Definition set_rdr (c : client) (d : DemuxClnt) (r : rphase) : client :=
  mkClient d (callers c) r (closers c) (issued c).

(** [SendReceive], up to the call of [put], *)
Definition SR_tag (c : client) (i : nat) (req : list byte) : client :=
  let '(t, d) := tag (dmx c) in
  mkClient d (<[i := mkCaller req t PTag]> (callers c)) (rdr c) (closers c) (issued c + 1).

(** [put] and, when it fails, the return, *)
Definition SR_put (c : client) (i : nat) (x : caller) : client :=
  match put (callmap (dmx c)) (cl_tag x) i with
  | Some cm => set_phase c (mkClnt cm (nextTag (dmx c))) i x PPut
  | None => set_phase c (dmx c) i x (PDone failReply)
  end.

(** the message it writes, whatever comes of it. *)
Definition SR_msg (x : caller) : msg := mkMsg (cl_tag x) (cl_req x) true.

Definition SR_written (c : client) (i : nat) (x : caller) : client := set_phase c (dmx c) i x PWait.

(** [DemuxClnt.reply], up to the send on the channel. *)
Definition dmx_reply (c : client) (t : Z) (r : dreply) (next : option (list Z)) : client :=
  match remove (callmap (dmx c)) t with
  | Some (ch, cm) => set_rdr c (mkClnt cm (nextTag (dmx c))) (RSend ch r next)
  | None => set_rdr c (dmx c) RFatal
  end.

(** The loop of the reader after a message, after an error, and the loop that
    fails the outstanding calls. *)
Definition rd_msg (c : client) (m : msg) : client := dmx_reply c (m_Tag m) (mkReply (m_Data m) (m_Ok m) false) None.

Definition rd_err (c : client) : client :=
  set_rdr c (mkClnt (cm_close (callmap (dmx c))) (nextTag (dmx c))) RClosed.

Definition rd_fail (c : client) (ts : list Z) : client :=
  match ts with
  | t :: ts => dmx_reply c t failReply (Some ts)
  | [] => set_rdr c (dmx c) REnd
  end.

(** The channel is not buffered: the reader and the caller meet. *)
Definition rd_sent (c : client) (i : nat) (x : caller) (r : dreply) (next : option (list Z)) : client :=
  set_rdr (set_phase c (dmx c) i x (PDone r)) (dmx c) (match next with None => RRead | Some ts => RFail ts end).

(** [Close]: nothing when the map is closed already; otherwise the connection is
    closed and then the map. *)
Definition set_closers (c : client) (d : DemuxClnt) (ks : list kphase) : client :=
  mkClient d (callers c) (rdr c) ks (issued c).

Definition Close_check (c : client) : client :=
  if cm_closed (callmap (dmx c)) then c else set_closers c (dmx c) (KConn :: closers c).

Definition Close_conn (c : client) (k1 k2 : list kphase) : client := set_closers c (dmx c) (k1 ++ KMap :: k2).

Definition Close_map (c : client) (k1 k2 : list kphase) : client :=
  set_closers c (mkClnt (cm_close (callmap (dmx c))) (nextTag (dmx c))) (k1 ++ k2).

(** ** The connection

    Each direction is a queue of messages, by [framing_roundtrip].  A write may
    fail at any time, with the message out or not, and all later ones then fail. *)

Record wire := mkWire { wq : list msg; broken : bool }.

Inductive written (w : wire) (m : msg) : wire -> Prop :=
| W_ok e : broken w = false -> written w m (mkWire (wq w ++ [m]) e)
| W_err : written w m (mkWire (wq w) true).

(** ** The server *)

(** A request's goroutine: before and after [ServeRequest]. *)
Inductive hphase := HRun (t : Z) (req : list byte) | HWrite (t : Z) (rep : list byte) (ok : bool).

#[export] Instance hphase_eq_dec : EqDecision hphase.
Proof. solve_decision. Defined.

(** The reader: in [NewDemuxSrv]; in its loop, for the client of that name;
    after it; or in [log.Fatalf]. *)
Inductive sphase := SInit | SRead (clntEnd : string) | SEnd (clntEnd : string) | SFatal.

(** An execution of a request. *)
Record execd := mkExec { ex_tag : Z; ex_req : list byte; ex_rep : list byte; ex_ok : bool }.

Section system.
Context `{!Gob InitMsg}.
Context {S : Type} (ServeRequest : S -> string -> list byte -> option (S * (list byte * bool))).

Record server := mkSrv {
  sph : sphase;
  s_closed : bool;
  handlers : list hphase;
  sstate : S;
  (* what has been executed *)
  slog : list execd
}.

(** The message [NewDemuxSrv] reads first. *)
Definition NewDemuxSrv (s : server) (m : msg) : server :=
  mkSrv (match Unmarshall (m_Data m) with Some i => SRead (Clnt i) | None => SFatal end)
    (s_closed s) (handlers s) (sstate s) (slog s).

(** The loop of the server's reader after a message and after an error. *)
Definition srd_msg (s : server) (m : msg) : server :=
  mkSrv (sph s) (s_closed s) (HRun (m_Tag m) (m_Data m) :: handlers s) (sstate s) (slog s).

Definition srd_err (s : server) (clntEnd : string) (e : readError) : server :=
  mkSrv (SEnd clntEnd) (match e with EOF => true | UnexpectedEOF => s_closed s end) (handlers s) (sstate s) (slog s).

Definition setClosed (s : server) : bool * server :=
  (s_closed s, mkSrv (sph s) true (handlers s) (sstate s) (slog s)).

Definition clientName (p : sphase) : option string :=
  match p with SRead n | SEnd n => Some n | _ => None end.

(** [ServeRequest] runs in one step. *)
Definition h_run (s : server) (h1 h2 : list hphase) (t : Z) (req : list byte) : option server :=
  n ← clientName (sph s);
  '(st, (rep, ok)) ← ServeRequest (sstate s) n req;
  Some (mkSrv (sph s) (s_closed s) (h1 ++ HWrite t rep ok :: h2) st (mkExec t req rep ok :: slog s)).

Definition set_handlers (s : server) (hs : list hphase) : server :=
  mkSrv (sph s) (s_closed s) hs (sstate s) (slog s).

(** ** The whole *)

Record world := mkW { cli : client; c2s : wire; s2c : wire; srv : server }.

Inductive step : world -> world -> Prop :=
| S_tag c a b s i req : callers c !! i = None -> step (mkW c a b s) (mkW (SR_tag c i req) a b s)
| S_put c a b s i x : callers c !! i = Some x -> cl_ph x = PTag -> step (mkW c a b s) (mkW (SR_put c i x) a b s)
| S_write c a b s i x a' : callers c !! i = Some x -> cl_ph x = PPut -> written a (SR_msg x) a' ->
    step (mkW c a b s) (mkW (SR_written c i x) a' b s)
| S_recv c a b s i x r next : callers c !! i = Some x -> cl_ph x = PWait -> rdr c = RSend i r next ->
    step (mkW c a b s) (mkW (rd_sent c i x r next) a b s)
| S_read c a b s m q : rdr c = RRead -> wq b = m :: q ->
    step (mkW c a b s) (mkW (rd_msg c m) a (mkWire q (broken b)) s)
| S_readErr c a b s : rdr c = RRead -> step (mkW c a b s) (mkW (rd_err c) a b s)
| S_outstanding c a b s ts : rdr c = RClosed -> outstanding (callmap (dmx c)) ts ->
    step (mkW c a b s) (mkW (set_rdr c (dmx c) (RFail ts)) a b s)
| S_fail c a b s ts : rdr c = RFail ts -> step (mkW c a b s) (mkW (rd_fail c ts) a b s)
(* Close of the client *)
| S_isClosed c a b s : step (mkW c a b s) (mkW (Close_check c) a b s)
| S_connClose c a b s k1 k2 : closers c = k1 ++ KConn :: k2 ->
    step (mkW c a b s) (mkW (Close_conn c k1 k2) (mkWire (wq a) true) b s)
| S_mapClose c a b s k1 k2 : closers c = k1 ++ KMap :: k2 -> step (mkW c a b s) (mkW (Close_map c k1 k2) a b s)
(* the server *)
| S_init c a b s m q : sph s = SInit -> wq a = m :: q ->
    step (mkW c a b s) (mkW c (mkWire q (broken a)) b (NewDemuxSrv s m))
| S_initErr c a b s : sph s = SInit ->
    step (mkW c a b s) (mkW c (mkWire [] true) b (mkSrv SFatal (s_closed s) (handlers s) (sstate s) (slog s)))
| S_srvRead c a b s n m q : sph s = SRead n -> wq a = m :: q ->
    step (mkW c a b s) (mkW c (mkWire q (broken a)) b (srd_msg s m))
| S_srvErr c a b s n e : sph s = SRead n -> step (mkW c a b s) (mkW c a b (srd_err s n e))
| S_serve c a b s h1 t req h2 s' : handlers s = h1 ++ HRun t req :: h2 -> h_run s h1 h2 t req = Some s' ->
    step (mkW c a b s) (mkW c a b s')
| S_answer c a b s h1 t rep ok h2 b' : handlers s = h1 ++ HWrite t rep ok :: h2 -> written b (mkMsg t rep ok) b' ->
    step (mkW c a b s) (mkW c a b' (set_handlers s (h1 ++ h2)))
| S_srvClose c a b s : step (mkW c a b s)
    (mkW c a (if fst (setClosed s) then b else mkWire (wq b) true) (snd (setClosed s))).

(** A client that has connected, and a server that has accepted. *)
Definition init (clnt : string) (st : S) : world :=
  let '(d, m) := NewDemuxClnt clnt in
  mkW (mkClient d ∅ RRead [] 0) (mkWire [m] false) (mkWire [] false) (mkSrv SInit false [] st []).

Definition reach (clnt : string) (st : S) (w : world) : Prop := rtc step (init clnt st) w.

(** ** The invariant *)

Definition outstanding_call (x : caller) : Prop := cl_ph x = PPut \/ cl_ph x = PWait.
Definition unsent (x : caller) : Prop := cl_ph x = PTag \/ cl_ph x = PPut.

Definition sending (r : rphase) : option nat := match r with RSend ch _ _ => Some ch | _ => None end.

(** The reader still reads replies. *)
Definition reading (r : rphase) : Prop :=
  match r with RRead | RSend _ _ None => True | _ => False end.

(** The tags the reader is going to fail. *)
Definition to_fail (r : rphase) : option (list Z) :=
  match r with RFail ts | RSend _ _ (Some ts) => Some ts | REnd => Some [] | _ => None end.

Definition htag (h : hphase) : Z := match h with HRun t _ | HWrite t _ _ => t end.

(** The requests on their way: the first message is the handshake. *)
Definition requests (a : wire) (s : server) : list msg :=
  match sph s with SInit => tail (wq a) | _ => wq a end.

(** Every call in transit or at the server. *)
Definition tokens (w : world) : list Z :=
  (m_Tag <$> requests (c2s w) (srv w)) ++ (htag <$> handlers (srv w)) ++ (m_Tag <$> wq (s2c w)).

Definition requested (cs : gmap nat caller) (t : Z) (req : list byte) : Prop :=
  exists i x, cs !! i = Some x /\ cl_tag x = t /\ cl_req x = req.

Definition unserved (l : list execd) (t : Z) : Prop := forall e, e ∈ l -> ex_tag e <> t.

(** The reply of the server to this call. *)
Definition answers (l : list execd) (x : caller) (r : dreply) : Prop :=
  rp_err r = false -> mkExec (cl_tag x) (cl_req x) (rp_rep r) (rp_ok r) ∈ l.

(** The client's own state. *)
Record client_ok (c : client) (l : list execd) : Prop := {
  k_issued : 0 <= issued c;
  k_next : nextTag (dmx c) = (1 + issued c) mod 2 ^ 32;
  k_tag i x : callers c !! i = Some x -> 1 <= cl_tag x <= issued c;
  k_inj i j x y : callers c !! i = Some x -> callers c !! j = Some y -> cl_tag x = cl_tag y -> i = j;
  k_map t i : cm_calls (callmap (dmx c)) !! t = Some i <->
    exists x, callers c !! i = Some x /\ cl_tag x = t /\ outstanding_call x /\ sending (rdr c) <> Some i;
  k_send i r next : rdr c = RSend i r next ->
    exists x, callers c !! i = Some x /\ outstanding_call x /\ answers l x r /\ (next = None -> cl_ph x = PWait);
  k_done i x r : callers c !! i = Some x -> cl_ph x = PDone r -> answers l x r;
  k_closed : reading (rdr c) \/ cm_closed (callmap (dmx c)) = true;
  k_fail ts : to_fail (rdr c) = Some ts -> outstanding (callmap (dmx c)) ts;
  k_fatal : rdr c <> RFatal
}.

(** What is in transit, against the client's state. *)
Record transit_ok (w : world) : Prop := {
  t_nodup : NoDup (tokens w);
  t_sent t : t ∈ tokens w -> exists i x, callers (cli w) !! i = Some x /\ cl_tag x = t /\ ~ unsent x;
  t_calls t : reading (rdr (cli w)) -> t ∈ tokens w -> is_Some (cm_calls (callmap (dmx (cli w))) !! t);
  t_unsent i x : callers (cli w) !! i = Some x -> unsent x -> unserved (slog (srv w)) (cl_tag x);
  t_req m : m ∈ requests (c2s w) (srv w) ->
    requested (callers (cli w)) (m_Tag m) (m_Data m) /\ unserved (slog (srv w)) (m_Tag m);
  t_run t req : HRun t req ∈ handlers (srv w) ->
    requested (callers (cli w)) t req /\ unserved (slog (srv w)) t;
  t_write t rep ok : HWrite t rep ok ∈ handlers (srv w) -> exists req, mkExec t req rep ok ∈ slog (srv w);
  t_rep m : m ∈ wq (s2c w) -> exists req, mkExec (m_Tag m) req (m_Data m) (m_Ok m) ∈ slog (srv w);
  t_log : NoDup (ex_tag <$> slog (srv w));
  t_exec e : e ∈ slog (srv w) -> requested (callers (cli w)) (ex_tag e) (ex_req e);
  t_init : sph (srv w) = SInit -> exists m q, wq (c2s w) = m :: q
}.

Record inv (w : world) : Prop := { v_client : client_ok (cli w) (slog (srv w)); v_transit : transit_ok w }.

(** ** Steps of the client *)

(** Callers keep their tag and request, and what is sent stays sent. *)
Definition evolves (cs cs' : gmap nat caller) : Prop := forall i x, cs !! i = Some x ->
  exists x', cs' !! i = Some x' /\ cl_tag x' = cl_tag x /\ cl_req x' = cl_req x /\ (unsent x' -> unsent x).

Lemma evolves_refl cs : evolves cs cs.
Proof. intros i x Hx. eauto. Qed.

Lemma evolves_phase cs i x ph : cs !! i = Some x -> (unsent (mkCaller (cl_req x) (cl_tag x) ph) -> unsent x) ->
  evolves cs (<[i := mkCaller (cl_req x) (cl_tag x) ph]> cs).
Proof.
  intros Hi Hs j y Hj. destruct (decide (i = j)) as [<-|Hne].
  - rewrite lookup_insert_eq. simplify_eq. eexists. split; [done|]. simpl. eauto.
  - rewrite lookup_insert_ne by done. eauto.
Qed.

Lemma evolves_new cs i y : cs !! i = None -> evolves cs (<[i := y]> cs).
Proof. intros Hi j x Hj. assert (i <> j) by congruence. rewrite lookup_insert_ne by done. eauto. Qed.

Lemma requested_evolves cs cs' t req : evolves cs cs' -> requested cs t req -> requested cs' t req.
Proof. intros He (i & x & Hi & <- & <-). destruct (He i x Hi) as (x' & Hi' & Ht & Hr & _). by exists i, x'. Qed.

Lemma transit_client c c' a b s :
  transit_ok (mkW c a b s) -> evolves (callers c) (callers c') ->
  (forall i x, callers c' !! i = Some x -> unsent x -> unserved (slog s) (cl_tag x)) ->
  (forall t, reading (rdr c') -> t ∈ tokens (mkW c a b s) -> is_Some (cm_calls (callmap (dmx c')) !! t)) ->
  transit_ok (mkW c' a b s).
Proof.
  intros [Hnd Hsent Hcalls _ Hreq Hrun Hwr Hrep Hlog Hex Hini] He Hun Hcalls'. simpl in *. split; simpl; try done.
  - intros t Ht. destruct (Hsent t Ht) as (i & x & Hi & <- & Hu).
    destruct (He i x Hi) as (x' & Hi' & Ht' & _ & Hu'). exists i, x'. naive_solver.
  - intros m Hm. destruct (Hreq m Hm). eauto using requested_evolves.
  - intros t req Hm. destruct (Hrun t req Hm). eauto using requested_evolves.
  - eauto using requested_evolves.
Qed.

Lemma client_log c l l' : client_ok c l -> l ⊆ l' -> client_ok c l'.
Proof.
  intros [] Hl. split; try done.
  - intros i r next Hr. destruct (k_send0 i r next Hr) as (x & ? & ? & Ha & ?).
    exists x. split_and!; [done..| |done]. intros He. by apply Hl, Ha.
  - intros i x r Hi Hr He. by apply Hl, (k_done0 i x r).
Qed.

(** A tag below 2^32 is as good as a fresh number. *)
Lemma next_fresh c l : client_ok c l -> issued c + 1 < 2 ^ 32 -> nextTag (dmx c) = 1 + issued c.
Proof. intros Hc Hlt. rewrite (k_next _ _ Hc). apply Z.mod_small. pose proof (k_issued _ _ Hc). lia. Qed.

Lemma tag_ok c l i req : client_ok c l -> callers c !! i = None -> issued c + 1 < 2 ^ 32 ->
  client_ok (SR_tag c i req) l.
Proof.
  intros Hc Hi Hlt. pose proof (next_fresh c l Hc Hlt) as Hn. destruct Hc. unfold SR_tag, tag. simpl.
  split; simpl; try done.
  - lia.
  - rewrite Hn. f_equal. lia.
  - intros j x [[<- <-]|[Hne Hj]]%lookup_insert_Some; simpl; [lia|]. specialize (k_tag0 j x Hj). lia.
  - intros j k x y [[<- <-]|[Hne Hj]]%lookup_insert_Some [[<- <-]|[Hne' Hk]]%lookup_insert_Some; simpl; try done.
    + specialize (k_tag0 _ _ Hk). lia.
    + specialize (k_tag0 _ _ Hj). lia.
    + eauto.
  - intros t j. rewrite k_map0. split; intros (x & Hj & Ht & Ho & Hs).
    + exists x. rewrite lookup_insert_ne by congruence. done.
    + apply lookup_insert_Some in Hj as [[<- <-]|[Hne Hj]]; [by destruct Ho|eauto].
  - intros j r next Hr. destruct (k_send0 j r next Hr) as (x & Hj & Hrest). exists x.
    rewrite lookup_insert_ne by congruence. done.
  - intros j x r [[<- <-]|[Hne Hj]]%lookup_insert_Some; simpl; [done|eauto].
Qed.

Lemma unserved_fresh w : client_ok (cli w) (slog (srv w)) -> transit_ok w -> unserved (slog (srv w)) (1 + issued (cli w)).
Proof.
  intros Hc Ht e He Heq. destruct (t_exec _ Ht e He) as (i & x & Hi & Hx & _).
  pose proof (k_tag _ _ Hc i x Hi). lia.
Qed.

Lemma not_sending c l i x : client_ok c l -> callers c !! i = Some x -> ~ outstanding_call x -> sending (rdr c) <> Some i.
Proof.
  intros Hc Hi Ho Hs. destruct (rdr c) as [|ch r next| | | |] eqn:Hr; simplify_eq/=.
  destruct (k_send _ _ Hc i r next Hr) as (y & Hy & Hoy & _). simplify_eq. done.
Qed.

(** A change of phase that leaves the map of calls and the reader alone. *)
Lemma phase_ok c l i x ph :
  client_ok c l -> callers c !! i = Some x ->
  (outstanding_call (mkCaller (cl_req x) (cl_tag x) ph) <-> outstanding_call x) ->
  (ph = PTag -> cl_ph x = PTag) -> (cl_ph x = PWait -> ph = PWait) ->
  (forall r, ph = PDone r -> rp_err r = true) ->
  client_ok (set_phase c (dmx c) i x ph) l.
Proof.
  intros [] Hi Ho Hp Hw Hd. split; simpl; try done.
  - intros j y [[<- <-]|[Hne Hj]]%lookup_insert_Some; simpl; eauto.
  - intros j k y z [[<- <-]|[Hne Hj]]%lookup_insert_Some [[<- <-]|[Hne' Hk]]%lookup_insert_Some; simpl; eauto.
  - intros t j. rewrite k_map0. split; intros (y & Hj & Ht & Hoy & Hs).
    + destruct (decide (i = j)) as [<-|Hne]; [|by exists y; rewrite lookup_insert_ne by done].
      simplify_eq. eexists. rewrite lookup_insert_eq. split; [done|]. by rewrite Ho.
    + apply lookup_insert_Some in Hj as [[<- <-]|[Hne Hj]]; [|eauto]. exists x. rewrite Ho in Hoy. done.
  - intros j r next Hr. destruct (k_send0 j r next Hr) as (y & Hj & Hoy & Ha & Hn).
    destruct (decide (i = j)) as [<-|Hne]; [|by exists y; rewrite lookup_insert_ne by done].
    simplify_eq. eexists. rewrite lookup_insert_eq. split; [done|]. rewrite Ho. simpl. auto.
  - intros j y r [[<- <-]|[Hne Hj]]%lookup_insert_Some; simpl; [|eauto].
    intros Hph He. by rewrite (Hd r Hph) in He.
Qed.

Lemma put_ok c l i x : client_ok c l -> callers c !! i = Some x -> cl_ph x = PTag -> client_ok (SR_put c i x) l.
Proof.
  intros Hc Hi Hph. assert (Ho : ~ outstanding_call x) by (unfold outstanding_call; rewrite Hph; intros [|]; done).
  pose proof (not_sending c l i x Hc Hi Ho) as Hns. unfold SR_put, put.
  destruct (cm_closed (callmap (dmx c))) eqn:Hcl.
  { apply phase_ok; try done; [|by rewrite Hph|by intros r [= <-]].
    split; [by intros [|]|done]. }
  destruct Hc. destruct k_closed0 as [Hrd|]; [|congruence]. split; simpl; try done.
  - intros j y [[<- <-]|[Hne Hj]]%lookup_insert_Some; simpl; eauto.
  - intros j k y z [[<- <-]|[Hne Hj]]%lookup_insert_Some [[<- <-]|[Hne' Hk]]%lookup_insert_Some; simpl; eauto.
  - intros t j. rewrite lookup_insert_Some, k_map0. split.
    + intros [[<- <-]|[Hne (y & Hj & Ht & Hoy & Hs)]].
      * eexists. rewrite lookup_insert_eq. split_and!; [done..|by left|done].
      * exists y. rewrite lookup_insert_ne by congruence. done.
    + intros (y & [[<- <-]|[Hne Hj]]%lookup_insert_Some & Ht & Hoy & Hs); [by left|]. right.
      split; [|eauto]. intros Heq. simplify_eq. destruct Hne. by eapply k_inj0.
  - intros j r next Hr. destruct (k_send0 j r next Hr) as (y & Hj & Hoy & Ha & Hn). exists y.
    rewrite Hr in Hns. simpl in Hns. rewrite lookup_insert_ne by congruence. done.
  - intros j y r [[<- <-]|[Hne Hj]]%lookup_insert_Some; simpl; [done|eauto].
  - by left.
  - intros ts Hts. by destruct (rdr c) as [|? ? []| | | |].
Qed.

Lemma sent_ok c l i x r next : client_ok c l -> callers c !! i = Some x -> rdr c = RSend i r next ->
  client_ok (rd_sent c i x r next) l.
Proof.
  intros Hc Hi Hr. destruct Hc. destruct (k_send0 i r next Hr) as (x' & Hi' & _ & Ha & _). simplify_eq.
  rewrite Hr in *. simpl in *. unfold rd_sent. split; simpl; try done.
  - intros j y [[<- <-]|[Hne Hj]]%lookup_insert_Some; simpl; eauto.
  - intros j k y z [[<- <-]|[Hne Hj]]%lookup_insert_Some [[<- <-]|[Hne' Hk]]%lookup_insert_Some; simpl; eauto.
  - intros t j. rewrite k_map0. split; intros (y & Hj & Ht & Hoy & Hs).
    + exists y. rewrite lookup_insert_ne by congruence. by destruct next.
    + apply lookup_insert_Some in Hj as [[<- <-]|[Hne Hj]]; [by destruct Hoy|]. exists y. split_and!; congruence || done.
  - intros j r' next' Hr'. by destruct next.
  - intros j y r' [[<- <-]|[Hne Hj]]%lookup_insert_Some; simpl; [by intros [= <-]|eauto].
  - destruct next; [|by left]. right. by destruct k_closed0.
  - intros ts Hts. destruct next as [ts'|]; [|done]. simpl in Hts. simplify_eq. by apply k_fail0.
  - by destruct next.
Qed.

Lemma outstanding_tail cm t ts : outstanding cm (t :: ts) -> outstanding (mkCallMap (cm_closed cm) (delete t (cm_calls cm))) ts.
Proof.
  intros [[Hn Hnd]%NoDup_cons Hiff]. split; [done|]. intros u. simpl. rewrite lookup_delete_is_Some, <- Hiff, elem_of_cons.
  split; [|naive_solver]. intros Hu. split; [by intros ->|by right].
Qed.

(** [reply] finds the call it is for, and goes on to send. *)
Lemma reply_ok c l t r next : client_ok c l -> sending (rdr c) = None ->
  is_Some (cm_calls (callmap (dmx c)) !! t) ->
  (forall i x, callers c !! i = Some x -> cl_tag x = t -> answers l x r /\ (next = None -> cl_ph x = PWait)) ->
  match next with
  | None => True
  | Some ts => cm_closed (callmap (dmx c)) = true /\ outstanding (callmap (dmx c)) (t :: ts)
  end ->
  client_ok (dmx_reply c t r next) l.
Proof.
  intros Hc Hs [ch Hch] Ha Hnext. unfold dmx_reply, remove. rewrite Hch. simpl. destruct Hc.
  destruct (proj1 (k_map0 t ch) Hch) as (x & Hx & Hxt & Hxo & _). split; simpl; try done.
  - intros u j. rewrite lookup_delete_Some, k_map0, Hs. split.
    + intros [Hne (y & Hj & Ht & Ho & _)]. exists y. split_and!; [done..|]. intros [= ->]. simplify_eq.
    + intros (y & Hj & Ht & Ho & Hne). split; [|eauto]. intros ->. destruct Hne. f_equal. eapply k_inj0; [exact Hx|exact Hj|congruence].
  - intros j r' next' [= <- <- <-]. exists x. destruct (Ha ch x Hx Hxt). done.
  - destruct next as [ts|]; [right|by left]. by destruct Hnext.
  - intros ts Hts. destruct next; simplify_eq. apply outstanding_tail, Hnext.
Qed.

Lemma close_ok c l r : client_ok c l -> ~ reading r -> sending r = None -> sending (rdr c) = None -> to_fail r = None -> r <> RFatal ->
  client_ok (set_rdr c (mkClnt (cm_close (callmap (dmx c))) (nextTag (dmx c))) r) l.
Proof.
  intros [] Hr Hs Hs' Hf Hft. split; simpl; try done.
  - intros t i. by rewrite k_map0, Hs, Hs'.
  - by intros i q next ->.
  - by right.
  - intros ts. by rewrite Hf.
Qed.

(** ** Every step preserves the invariant *)

Lemma inv_init clnt st : inv (init clnt st).
Proof.
  split; split; simpl; try done; try (by intros; set_solver).
  - constructor.
  - constructor.
Qed.

Lemma unsent_phase x ph : ph <> PTag -> (ph = PPut -> unsent x) -> unsent (mkCaller (cl_req x) (cl_tag x) ph) -> unsent x.
Proof. intros H1 H2 [?|?]; simpl in *; eauto; done. Qed.

(** After a change of phase, what is still unsent is unserved. *)
Lemma unsent_unserved c a b s i x ph : transit_ok (mkW c a b s) -> callers c !! i = Some x ->
  (unsent (mkCaller (cl_req x) (cl_tag x) ph) -> unsent x) ->
  forall j y, <[i := mkCaller (cl_req x) (cl_tag x) ph]> (callers c) !! j = Some y -> unsent y -> unserved (slog s) (cl_tag y).
Proof.
  intros Ht Hi Hu j y [[<- <-]|[Hne Hj]]%lookup_insert_Some Hy.
  - simpl. apply (t_unsent _ Ht i x Hi). auto.
  - by apply (t_unsent _ Ht j y Hj).
Qed.

Lemma inv_tag c a b s i req : inv (mkW c a b s) -> callers c !! i = None -> issued c + 1 < 2 ^ 32 ->
  inv (mkW (SR_tag c i req) a b s).
Proof.
  intros [Hc Ht] Hi Hlt. simpl in *. split; [by apply tag_ok|]. pose proof (next_fresh c _ Hc Hlt) as Hn.
  eapply transit_client; [done|by apply evolves_new|..]; simpl.
  - intros j x [[<- <-]|[Hne Hj]]%lookup_insert_Some Hu; [|by apply (t_unsent _ Ht j x Hj)].
    simpl. rewrite Hn. apply (unserved_fresh (mkW c a b s)); done.
  - intros t Hr Htk. by apply (t_calls _ Ht).
Qed.

Lemma inv_put c a b s i x : inv (mkW c a b s) -> callers c !! i = Some x -> cl_ph x = PTag -> inv (mkW (SR_put c i x) a b s).
Proof.
  intros [Hc Ht] Hi Hph. simpl in *. assert (Hu : unsent x) by by left. split; [by apply put_ok|].
  unfold SR_put, put. destruct (cm_closed _); simpl.
  - eapply transit_client; [done|by apply evolves_phase|by apply unsent_unserved with (1 := Ht)|by apply (t_calls _ Ht)].
  - eapply transit_client; [done|by apply evolves_phase|by apply unsent_unserved with (1 := Ht)|]. simpl.
    intros t Hr Htk. apply lookup_insert_is_Some'. right. by apply (t_calls _ Ht).
Qed.

Lemma transit_wire c a b a' b' s : transit_ok (mkW c a b s) -> wq a' = wq a -> wq b' = wq b -> transit_ok (mkW c a' b' s).
Proof.
  destruct a, a', b, b'. simpl. intros Ht -> ->. by destruct Ht; split.
Qed.

Lemma requests_app a s m e : (sph s = SInit -> exists m' q, wq a = m' :: q) ->
  requests (mkWire (wq a ++ [m]) e) s = requests a s ++ [m].
Proof. unfold requests. simpl. destruct (sph s); try done. intros (m' & q & ->); done. Qed.

(** A request goes out. *)
Lemma transit_request c a b s m e i x : transit_ok (mkW c a b s) -> callers c !! i = Some x ->
  cl_tag x = m_Tag m -> cl_req x = m_Data m -> ~ unsent x ->
  m_Tag m ∉ tokens (mkW c a b s) -> unserved (slog s) (m_Tag m) ->
  (reading (rdr c) -> is_Some (cm_calls (callmap (dmx c)) !! m_Tag m)) ->
  transit_ok (mkW c (mkWire (wq a ++ [m]) e) b s).
Proof.
  intros Ht Hi Htag Hreq Hu Hnew Huns Hcalls.
  pose proof (requests_app a s m e (t_init _ Ht)) as Hra.
  assert (Htok : tokens (mkW c (mkWire (wq a ++ [m]) e) b s) ≡ₚ m_Tag m :: tokens (mkW c a b s)).
  { unfold tokens. simpl. rewrite Hra, fmap_app. simpl. rewrite <- !app_assoc. symmetry. apply Permutation_middle. }
  destruct Ht. split; try done.
  - rewrite Htok. by apply NoDup_cons.
  - intros t. rewrite Htok. intros [->|H]%elem_of_cons; [by exists i, x|by apply t_sent0].
  - intros t Hr. rewrite Htok. intros [->|H]%elem_of_cons; [by apply Hcalls|by apply t_calls0].
  - intros m'. simpl. rewrite Hra. intros [H|H]%elem_of_app; [by apply t_req0|]. apply list_elem_of_singleton in H as ->.
    split; [by exists i, x|done].
  - simpl. intros Hini. destruct (t_init0 Hini) as (m' & q & Hq). simpl in Hq. rewrite Hq. by eexists _, _.
Qed.

Lemma inv_write c a b s i x a' : inv (mkW c a b s) -> callers c !! i = Some x -> cl_ph x = PPut ->
  written a (SR_msg x) a' -> inv (mkW (SR_written c i x) a' b s).
Proof.
  intros [Hc Ht] Hi Hph Hw. simpl in *. split.
  { apply phase_ok; try done. unfold outstanding_call. rewrite Hph. simpl. naive_solver. }
  assert (Hu : unsent x) by by right. simpl.
  assert (Hs : transit_ok (mkW (SR_written c i x) a b s)).
  { eapply transit_client; [done|by apply evolves_phase|by apply unsent_unserved with (1 := Ht)|]. simpl. by apply (t_calls _ Ht). }
  destruct Hw as [e Hb|]; [|by eapply transit_wire].
  eapply (transit_request _ _ _ _ (SR_msg x) e i); [done|apply lookup_insert_eq|done|done|by intros [|]|..].
  - intros Htk. destruct (t_sent _ Ht (cl_tag x) Htk) as (j & y & Hj & Hy & Hny).
    assert (j = i) as -> by (by eapply (k_inj _ _ Hc)). simplify_eq. simpl in Hj. congruence.
  - by apply (t_unsent _ Ht i x).
  - simpl. intros Hr. exists i. apply (k_map _ _ Hc). exists x. split_and!; [done..|by left|].
    intros Hsd. destruct (rdr c) as [|ch r next| | | |] eqn:Hrd; simplify_eq/=.
    destruct (k_send _ _ Hc i r next Hrd) as (y & Hy & _ & _ & Hn). simplify_eq. destruct next; [done|].
    by rewrite Hn in Hph.
Qed.

Lemma inv_recv c a b s i x r next : inv (mkW c a b s) -> callers c !! i = Some x -> cl_ph x = PWait ->
  rdr c = RSend i r next -> inv (mkW (rd_sent c i x r next) a b s).
Proof.
  intros [Hc Ht] Hi Hph Hr. simpl in *. split; [by apply sent_ok|].
  assert (Hu : unsent (mkCaller (cl_req x) (cl_tag x) (PDone r)) -> unsent x) by by intros [|].
  eapply transit_client; [done|by apply evolves_phase|by apply unsent_unserved with (1 := Ht)|]. simpl.
  intros t Hrd Htk. apply (t_calls _ Ht); [|done]. simpl. rewrite Hr. by destruct next.
Qed.

Lemma token_handler c a b s h : h ∈ handlers s -> htag h ∈ tokens (mkW c a b s).
Proof. intros Hh. unfold tokens. simpl. apply elem_of_app. right. apply elem_of_app. left. by apply list_elem_of_fmap_2. Qed.

Lemma token_reply c a b s m : m ∈ wq b -> m_Tag m ∈ tokens (mkW c a b s).
Proof. intros Hm. unfold tokens. simpl. apply elem_of_app. right. apply elem_of_app. right. by apply list_elem_of_fmap_2. Qed.

(** A step of the server, or of the connection, that executes nothing. *)
Lemma transit_server c a b s a' b' s' : transit_ok (mkW c a b s) ->
  tokens (mkW c a' b' s') ⊆+ tokens (mkW c a b s) -> slog s' = slog s ->
  (forall m, m ∈ requests a' s' -> m ∈ requests a s) ->
  (forall t req, HRun t req ∈ handlers s' -> HRun t req ∈ handlers s \/
     exists m, m ∈ requests a s /\ m_Tag m = t /\ m_Data m = req) ->
  (forall t rep ok, HWrite t rep ok ∈ handlers s' -> HWrite t rep ok ∈ handlers s) ->
  (forall m, m ∈ wq b' -> m ∈ wq b \/ HWrite (m_Tag m) (m_Data m) (m_Ok m) ∈ handlers s) ->
  (sph s' = SInit -> sph s = SInit /\ wq a' = wq a) ->
  transit_ok (mkW c a' b' s').
Proof.
  intros [] Htok Hl Hreq Hrun Hwr Hb Hi. simpl in *.
  assert (Hin : forall t, t ∈ tokens (mkW c a' b' s') -> t ∈ tokens (mkW c a b s)) by (intros t Ht; by eapply elem_of_submseteq).
  split; simpl; rewrite ?Hl; try done.
  - destruct (submseteq_Permutation _ _ Htok) as [l Hp]. rewrite Hp in t_nodup0. by apply NoDup_app in t_nodup0 as [? _].
  - intros t Ht. by apply t_sent0, Hin.
  - intros t Hr Ht. by apply t_calls0, Hin.
  - intros m Hm. by apply t_req0, Hreq.
  - intros t req [H|(m & Hm & <- & <-)]%Hrun; eauto.
  - intros t rep ok H. by apply Hwr, t_write0 in H.
  - intros m [H|H]%Hb; eauto.
  - intros H. destruct (Hi H) as [Hs ->]. eauto.
Qed.

(** A reply is taken from the connection. *)
Lemma transit_took c a b s m q : transit_ok (mkW c a b s) -> wq b = m :: q ->
  transit_ok (mkW c a (mkWire q (broken b)) s) /\ m_Tag m ∉ tokens (mkW c a (mkWire q (broken b)) s).
Proof.
  intros Ht Hq. assert (Htok : tokens (mkW c a b s) ≡ₚ m_Tag m :: tokens (mkW c a (mkWire q (broken b)) s)).
  { unfold tokens. simpl. rewrite Hq, fmap_cons, !app_assoc. symmetry. apply Permutation_middle. }
  split.
  - eapply transit_server; [done|..]; simpl; eauto; [by rewrite Htok; apply submseteq_cons|].
    intros m' Hm'. left. rewrite Hq. by right.
  - pose proof (t_nodup _ Ht) as Hnd. rewrite Htok in Hnd. by apply NoDup_cons in Hnd as [Hn _].
Qed.

(** The reply on the connection is for a waiting caller, and it is the server's. *)
Lemma reply_for c a b s m q i x : inv (mkW c a b s) -> wq b = m :: q -> rdr c = RRead ->
  callers c !! i = Some x -> cl_tag x = m_Tag m ->
  answers (slog s) x (mkReply (m_Data m) (m_Ok m) false) /\ cl_ph x = PWait.
Proof.
  intros [Hc Ht] Hq Hr Hi Hx. simpl in *. split.
  - intros _. destruct (t_rep _ Ht m) as [req Hreq]; [simpl; rewrite Hq; by left|]. simpl in *.
    destruct (t_exec _ Ht _ Hreq) as (j & y & Hj & Hy & Hyr). simpl in *.
    assert (j = i) as -> by (eapply (k_inj _ _ Hc); [done..|congruence]). simplify_eq. congruence.
  - assert (Htk : m_Tag m ∈ tokens (mkW c a b s)) by (apply token_reply; rewrite Hq; by left).
    destruct (t_calls _ Ht (m_Tag m)) as [j Hj]; [simpl; by rewrite Hr|done|].
    destruct (proj1 (k_map _ _ Hc _ _) Hj) as (y & Hy & Hyt & Ho & _).
    assert (j = i) as -> by (eapply (k_inj _ _ Hc); [done..|congruence]). simplify_eq.
    destruct (t_sent _ Ht _ Htk) as (k & z & Hk & Hz & Hu). simpl in *.
    assert (k = i) as -> by (eapply (k_inj _ _ Hc); [done..|congruence]). simplify_eq.
    destruct Ho as [Ho|]; [|done]. destruct Hu. by right.
Qed.

Lemma inv_read c a b s m q : inv (mkW c a b s) -> rdr c = RRead -> wq b = m :: q ->
  inv (mkW (rd_msg c m) a (mkWire q (broken b)) s).
Proof.
  intros Hv Hr Hq. pose proof Hv as [Hc Ht]. simpl in *.
  assert (Htk : m_Tag m ∈ tokens (mkW c a b s)) by (apply token_reply; rewrite Hq; by left).
  pose proof (t_calls _ Ht (m_Tag m)) as Hcalls. simpl in Hcalls. rewrite Hr in Hcalls. specialize (Hcalls I Htk).
  split.
  - apply reply_ok; [done|by rewrite Hr|done| |done]. intros i x Hi Hx.
    destruct (reply_for c a b s m q i x Hv Hq Hr Hi Hx). done.
  - destruct (transit_took c a b s m q Ht Hq) as [Ht' Hn]. simpl. destruct Hcalls as [ch Hch].
    unfold rd_msg, dmx_reply, remove. rewrite Hch. simpl.
    eapply transit_client; [done|apply evolves_refl|apply (t_unsent _ Ht)|]. simpl. intros t _ Hin.
    rewrite lookup_delete_ne by (by intros <-). apply (t_calls _ Ht'); [simpl; by rewrite Hr|done].
Qed.

Lemma set_rdr_ok c l r : client_ok c l -> sending r = None -> sending (rdr c) = None -> ~ reading (rdr c) -> r <> RFatal ->
  (forall ts, to_fail r = Some ts -> outstanding (callmap (dmx c)) ts) -> client_ok (set_rdr c (dmx c) r) l.
Proof.
  intros [] Hs Hs' Hrd Hf Ho. split; simpl; try done.
  - intros t i. by rewrite k_map0, Hs, Hs'.
  - by intros i q next ->.
  - right. by destruct k_closed0.
Qed.

(** The reader no longer reads: what is in transit does not matter to it. *)
Lemma transit_quiet c c' a b s : transit_ok (mkW c a b s) -> callers c' = callers c -> ~ reading (rdr c') ->
  transit_ok (mkW c' a b s).
Proof.
  intros Ht Hcs Hr. eapply transit_client; [done|rewrite Hcs; apply evolves_refl|rewrite Hcs; apply (t_unsent _ Ht)|done].
Qed.

Lemma inv_fail c a b s ts : inv (mkW c a b s) -> rdr c = RFail ts -> inv (mkW (rd_fail c ts) a b s).
Proof.
  intros [Hc Ht] Hr. simpl in *. assert (Ho : outstanding (callmap (dmx c)) ts) by (apply (k_fail _ _ Hc); by rewrite Hr).
  assert (Hcl : cm_closed (callmap (dmx c)) = true) by (destruct (k_closed _ _ Hc) as [H|]; [by rewrite Hr in H|done]).
  destruct ts as [|t ts]; simpl.
  - split; [|eapply transit_quiet; [done|done|simpl; tauto]]. apply set_rdr_ok; try done; [by rewrite Hr|rewrite Hr; simpl; tauto|by intros ts [= <-]].
  - assert (Hin : is_Some (cm_calls (callmap (dmx c)) !! t)) by (apply Ho; by left). split.
    + apply reply_ok; [done|by rewrite Hr|done|by intros|done].
    + eapply transit_quiet; [done|..]; unfold dmx_reply, remove; destruct Hin as [ch ->]; simpl; [done|tauto].
Qed.

Lemma closers_ok c l ks : client_ok c l -> client_ok (set_closers c (dmx c) ks) l.
Proof. intros []. by split. Qed.

Lemma map_close_ok c l ks : client_ok c l ->
  client_ok (set_closers c (mkClnt (cm_close (callmap (dmx c))) (nextTag (dmx c))) ks) l.
Proof. intros []. split; try done. by right. Qed.

(** ** Steps of the server *)

Lemma server_tokens c a b s h1 h h2 h' : handlers s = h1 ++ h :: h2 -> htag h' = htag h ->
  tokens (mkW c a b s) = tokens (mkW c a b (set_handlers s (h1 ++ h' :: h2))).
Proof. intros Hh Ht. unfold tokens. simpl. rewrite Hh, !fmap_app, !fmap_cons. by rewrite Ht. Qed.

Lemma inv_serve c a b s h1 t req h2 s' : inv (mkW c a b s) -> handlers s = h1 ++ HRun t req :: h2 ->
  h_run s h1 h2 t req = Some s' -> inv (mkW c a b s').
Proof.
  intros [Hc Ht] Hh Hrun. simpl in *. unfold h_run in Hrun.
  destruct (clientName (sph s)) as [n|]; [|done]. simpl in Hrun.
  destruct (ServeRequest (sstate s) n req) as [[st [rep ok]]|]; [|done]. simpl in Hrun. injection Hrun as <-.
  split; [eapply client_log; [done|]; simpl; by intros e He; right|].
  assert (Hin : HRun t req ∈ handlers s) by (rewrite Hh; apply elem_of_app; right; by left).
  pose proof (server_tokens c a b s h1 (HRun t req) h2 (HWrite t rep ok) Hh eq_refl) as Htok.
  destruct (t_run _ Ht t req) as [Hreq Huns]; [done|].
  assert (Hnot : forall u, u <> t -> unserved (slog s) u -> unserved (mkExec t req rep ok :: slog s) u).
  { intros u Hne Hu e [->|He]%elem_of_cons; [done|by apply Hu]. }
  pose proof (t_nodup _ Ht) as Hnd. unfold tokens in Hnd. simpl in Hnd. rewrite Hh, fmap_app, fmap_cons in Hnd. simpl in Hnd.
  destruct Ht. unfold requests in *. simpl in *. split; unfold requests; simpl; try done.
  - by rewrite Htok in t_nodup0.
  - intros u. rewrite Htok in t_sent0. apply t_sent0.
  - intros u Hr. rewrite Htok in t_calls0. by apply t_calls0.
  - intros i x Hi Hu. apply Hnot; [|eauto]. intros Heq. subst t.
    destruct (t_sent0 (cl_tag x)) as (j & y & Hj & Hy & Hyu); [by apply (token_handler _ _ _ _ (HRun _ req))|].
    assert (j = i) as -> by (by eapply (k_inj _ _ Hc)). simplify_eq. done.
  - intros m Hm. destruct (t_req0 m Hm). split; [done|]. apply Hnot; [|done]. intros Heq. apply NoDup_app in Hnd as (_ & Hd & _).
    apply (Hd (m_Tag m)); [by apply list_elem_of_fmap_2|]. rewrite Heq, !elem_of_app, elem_of_cons. tauto.
  - intros u q Hu. assert (Hu' : HRun u q ∈ h1 ++ h2) by (rewrite elem_of_app, elem_of_cons in *; naive_solver).
    destruct (t_run0 u q) as [? ?]; [rewrite Hh; rewrite elem_of_app, elem_of_cons in *; naive_solver|].
    split; [done|]. apply Hnot; [|done]. intros ->.
    apply NoDup_app in Hnd as (_ & _ & [Hnd _]%NoDup_app). rewrite <- Permutation_middle in Hnd. apply NoDup_cons in Hnd as [Hn _].
    apply Hn. rewrite <- fmap_app. by apply (list_elem_of_fmap_2 htag _ (HRun t q)).
  - intros u q o Hu. destruct (decide (HWrite u q o = HWrite t rep ok)) as [Heq|Hne].
    + simplify_eq. exists req. by left.
    + destruct (t_write0 u q o) as [q' Hq']; [rewrite Hh; rewrite elem_of_app, elem_of_cons in *; naive_solver|]. exists q'. by right.
  - intros m Hm. destruct (t_rep0 m Hm) as [q Hq]. exists q. by right.
  - apply NoDup_cons. split; [|done]. intros (e & He & He2)%list_elem_of_fmap. by apply (Huns e).
  - intros e [->|He]%elem_of_cons; eauto.
Qed.

Lemma split_middle {A} (l1 l2 : list A) x y : y ∈ l1 ++ l2 -> y ∈ l1 ++ x :: l2.
Proof. rewrite !elem_of_app, elem_of_cons. tauto. Qed.

Lemma inv_srv_read c a b s n m q : inv (mkW c a b s) -> sph s = SRead n -> wq a = m :: q ->
  inv (mkW c (mkWire q (broken a)) b (srd_msg s m)).
Proof.
  intros [Hc Ht] Hs Hq. split; [done|]. eapply transit_server; [done|..]; unfold requests, tokens, requests; simpl; rewrite ?Hs, ?Hq; try done.
  - rewrite <- Permutation_middle. done.
  - by right.
  - intros t req [[= -> ->]|H]%elem_of_cons; [|by left]. right. exists m. split_and!; [by left|done..].
  - intros t rep ok [|H]%elem_of_cons; done.
  - by left.
Qed.

Lemma inv_answer c a b s h1 t rep ok h2 b' : inv (mkW c a b s) -> handlers s = h1 ++ HWrite t rep ok :: h2 ->
  written b (mkMsg t rep ok) b' -> inv (mkW c a b' (set_handlers s (h1 ++ h2))).
Proof.
  intros [Hc Ht] Hh Hw. split; [done|]. eapply transit_server; [done|..]; unfold requests, tokens, requests; simpl; try done.
  - rewrite Hh. apply submseteq_app; [done|]. rewrite !fmap_app, fmap_cons, <- Permutation_middle. simpl.
    destruct Hw as [e He|]; simpl; [|by apply submseteq_cons].
    rewrite fmap_app. simpl. rewrite !(Permutation_app_comm _ [t]), Permutation_app_comm. simpl.
    by rewrite (Permutation_app_comm (m_Tag <$> wq b)).
  - intros u req Hu. left. rewrite Hh. by apply split_middle.
  - intros u r o Hu. rewrite Hh. by apply split_middle.
  - intros m Hm. destruct Hw as [e He|]; [|by left]. simpl in Hm. apply elem_of_app in Hm as [Hm|Hm]; [by left|].
    apply list_elem_of_singleton in Hm as ->. right. simpl. rewrite Hh. apply elem_of_app. right. by left.
Qed.

Lemma step_issued w w' : step w w' -> issued (cli w) <= issued (cli w').
Proof.
  destruct 1; simpl; try lia; unfold SR_tag, SR_put, Close_check, rd_msg, dmx_reply, rd_fail, dmx_reply; simpl; try lia.
  - destruct (put _ _ _); simpl; lia.
  - destruct (remove _ _) as [[]|]; simpl; lia.
  - destruct ts; simpl; [lia|]. unfold dmx_reply. destruct (remove _ _) as [[]|]; simpl; lia.
  - destruct (cm_closed _); simpl; lia.
Qed.

Lemma dmx_inv_step w w' : inv w -> step w w' -> issued (cli w') < 2 ^ 32 -> inv w'.
Proof.
  intros Hv Hst Hlt. destruct Hst.
  - by apply inv_tag.
  - by apply inv_put.
  - by eapply inv_write.
  - by apply inv_recv.
  - by apply inv_read.
  - destruct Hv as [Hc Ht]. simpl in *. split; [apply close_ok; try done; [simpl; tauto|by rewrite H]|].
    eapply transit_quiet; [done|done|simpl; tauto].
  - destruct Hv as [Hc Ht]. simpl in *. split; [apply set_rdr_ok; try done|].
    + by rewrite H.
    + rewrite H. simpl. tauto.
    + by intros ts' [= <-].
    + eapply transit_quiet; [done|done|simpl; tauto].
  - by apply inv_fail.
  - unfold Close_check. destruct (cm_closed _); [done|].
    destruct Hv as [Hc Ht]. split; [by apply closers_ok|]. eapply transit_client; [done|apply evolves_refl|..]; by destruct Ht.
  - destruct Hv as [Hc Ht]. split; [by apply closers_ok|]. apply transit_wire with (a := a) (b := b); [|done..].
    eapply transit_client; [done|apply evolves_refl|..]; by destruct Ht.
  - destruct Hv as [Hc Ht]. split; [by apply map_close_ok|]. eapply transit_client; [done|apply evolves_refl|..]; by destruct Ht.
  - destruct Hv as [Hc Ht]. split; [done|]. eapply transit_server; [done|..]; try done; unfold tokens, requests, NewDemuxSrv; simpl;
      rewrite ?H; try destruct (Unmarshall (m_Data m)); simpl; rewrite ?H0; try done; by left.
  - destruct Hv as [Hc Ht]. split; [done|]. eapply transit_server; [done|..]; try done; unfold tokens, requests; simpl; rewrite ?H; simpl.
    + by apply submseteq_inserts_l.
    + by intros m Hm%elem_of_nil.
    + by left.
    + by left.
  - by eapply inv_srv_read.
  - destruct Hv as [Hc Ht]. split; [done|]. eapply transit_server; [done|..]; try done; unfold tokens, requests; simpl; rewrite ?H; try done; by left.
  - by eapply inv_serve.
  - by eapply inv_answer.
  - destruct Hv as [Hc Ht]. split; [done|]. eapply transit_wire with (a := a) (b := b); [|done|by destruct (fst (setClosed s))].
    eapply transit_server; [done|..]; simpl; try done; by left.
Qed.

Lemma dmx_reach_inv clnt st w : reach clnt st w -> issued (cli w) < 2 ^ 32 -> inv w.
Proof.
  revert w. apply (rtc_ind_r (fun w => issued (cli w) < 2 ^ 32 -> inv w)); [intros _; apply inv_init|].
  intros v w _ Hs IH Hlt. eapply dmx_inv_step; [apply IH|done..]. apply step_issued in Hs. lia.
Qed.

(** ** Nobody is left waiting *)

Lemma outstanding_keys cm : outstanding cm (map_to_list (cm_calls cm)).*1.
Proof.
  split; [apply NoDup_fst_map_to_list|]. intros t. rewrite list_elem_of_fmap. split.
  - intros ([t' i] & -> & Hin%elem_of_map_to_list). by exists i.
  - intros [i Hi]. exists (t, i). split; [done|]. by apply elem_of_map_to_list.
Qed.

(** When the reader has failed every call, nobody waits. *)
Lemma nobody_waits c l i x : client_ok c l -> to_fail (rdr c) = Some [] -> sending (rdr c) = None ->
  callers c !! i = Some x -> ~ outstanding_call x.
Proof.
  intros Hc Hf Hs Hi Ho. destruct (k_fail _ _ Hc [] Hf) as [_ Hiff]. apply (not_elem_of_nil (cl_tag x)), Hiff.
  exists i. apply (k_map _ _ Hc). exists x. by rewrite Hs.
Qed.

(** ** Runs in which nothing fails *)

(** Neither end has seen an error or called [Close]. *)
Record steady (w : world) : Prop := {
  st_c2s : broken (c2s w) = false;
  st_s2c : broken (s2c w) = false;
  st_reading : reading (rdr (cli w));
  st_open : cm_closed (callmap (dmx (cli w))) = false;
  st_closers : closers (cli w) = [];
  st_srv : sph (srv w) = SInit \/ exists n, sph (srv w) = SRead n;
  st_sopen : s_closed (srv w) = false
}.

Definition good (w w' : world) : Prop := step w w' /\ steady w'.
Definition steady_reach (clnt : string) (st : S) (w : world) : Prop := rtc good (init clnt st) w.

(** A step that works on the calls that have been made. *)
Definition work (w w' : world) : Prop := good w w' /\ issued (cli w') = issued (cli w).

(** What is left to do for a call, by where it is. *)
Definition phase_work (x : caller) : nat := match cl_ph x with PTag => 7 | PPut => 6 | _ => 0 end.
Definition handler_work (h : hphase) : nat := match h with HRun _ _ => 4 | HWrite _ _ _ => 3 end.
Definition calls_work (cs : gmap nat caller) : nat := sum_list_with (phase_work ∘ snd) (map_to_list cs).
Definition rank (w : world) : nat :=
  calls_work (callers (cli w)) + 5 * length (wq (c2s w)) + sum_list_with handler_work (handlers (srv w)) +
  2 * length (wq (s2c w)) + match rdr (cli w) with RSend _ _ _ => 1 | _ => 0 end.

Definition answered (w : world) (i : nat) : Prop :=
  exists x r, callers (cli w) !! i = Some x /\ cl_ph x = PDone r /\ rp_err r = false.

Lemma calls_work_insert cs i x y : cs !! i = Some x ->
  (calls_work (<[i := y]> cs) + phase_work x = calls_work cs + phase_work y)%nat.
Proof.
  intros Hi. unfold calls_work. rewrite <- (insert_delete_id cs i x Hi) at 2. rewrite <- insert_delete_eq.
  rewrite !map_to_list_insert by apply lookup_delete_eq. simpl. lia.
Qed.

Lemma sum_list_middle {A} (f : A -> nat) l1 x l2 :
  sum_list_with f (l1 ++ x :: l2) = (f x + sum_list_with f (l1 ++ l2))%nat.
Proof. rewrite !sum_list_with_app. simpl. lia. Qed.

(** In a run without failures every call that waits is on its way. *)
Record working (w : world) : Prop := {
  wk_inv : inv w;
  wk_steady : steady w;
  wk_init : sph (srv w) = SInit ->
    handlers (srv w) = [] /\ exists m q, wq (c2s w) = m :: q /\ is_Some (Unmarshall (A := InitMsg) (m_Data m));
  wk_wait i x : callers (cli w) !! i = Some x -> cl_ph x = PWait ->
    sending (rdr (cli w)) = Some i \/ cl_tag x ∈ tokens w;
  wk_done i x r : callers (cli w) !! i = Some x -> cl_ph x = PDone r -> rp_err r = false;
  wk_send i r next : rdr (cli w) = RSend i r next -> rp_err r = false
}.

Lemma working_init clnt st : working (init clnt st).
Proof.
  split; simpl; try done; [apply inv_init|by split; [..|left|]|].
  intros _. split; [done|]. eexists _, _. split; [done|]. unfold Unmarshall, Marshall. simpl. rewrite gob_roundtrip. eauto.
Qed.

(** A caller changes its phase. *)
Lemma wait_phase (cs : gmap nat caller) i x ph (rd : rphase) (ts : list Z) :
  (forall j y, cs !! j = Some y -> cl_ph y = PWait -> j <> i -> sending rd = Some j \/ cl_tag y ∈ ts) ->
  (ph = PWait -> sending rd = Some i \/ cl_tag x ∈ ts) ->
  forall j y, <[i := mkCaller (cl_req x) (cl_tag x) ph]> cs !! j = Some y -> cl_ph y = PWait ->
    sending rd = Some j \/ cl_tag y ∈ ts.
Proof. intros Hoth Hi j y [[<- <-]|[Hne Hj]]%lookup_insert_Some Hw; simpl in *; auto. Qed.

(** A step of the server that loses no call. *)
Lemma working_server c a b s a' b' s' : working (mkW c a b s) -> inv (mkW c a' b' s') -> steady (mkW c a' b' s') ->
  (forall t, t ∈ tokens (mkW c a b s) -> t ∈ tokens (mkW c a' b' s')) ->
  (sph s' = SInit -> handlers s' = [] /\ exists m q, wq a' = m :: q /\ is_Some (Unmarshall (A := InitMsg) (m_Data m))) ->
  working (mkW c a' b' s').
Proof.
  intros [_ _ _ Hw Hd Hs] Hv Hst Ht Hi. simpl in *. split; simpl; try done.
  intros i x Hx Hph. destruct (Hw i x Hx Hph); auto.
Qed.

Lemma working_client c c' a a' b s : working (mkW c a b s) -> inv (mkW c' a' b s) -> steady (mkW c' a' b s) ->
  wq a `prefix_of` wq a' ->
  (forall i x, callers c' !! i = Some x -> cl_ph x = PWait -> sending (rdr c') = Some i \/ cl_tag x ∈ tokens (mkW c' a' b s)) ->
  (forall i x r, callers c' !! i = Some x -> cl_ph x = PDone r -> rp_err r = false) ->
  (forall i r next, rdr c' = RSend i r next -> rp_err r = false) ->
  working (mkW c' a' b s).
Proof.
  intros [_ _ Hi _ _ _] Hv Hst [q' Hq'] Hw Hd Hs. simpl in *. split; simpl; try done.
  intros Hini. destruct (Hi Hini) as (Hh & m & q & Hq & Hm). rewrite Hq', Hq. split; [done|]. by eexists _, _.
Qed.

Lemma working_write c a b s i x : working (mkW c a b s) -> callers c !! i = Some x -> cl_ph x = PPut ->
  inv (mkW (SR_written c i x) (mkWire (wq a ++ [SR_msg x]) false) b s) ->
  steady (mkW (SR_written c i x) (mkWire (wq a ++ [SR_msg x]) false) b s) ->
  working (mkW (SR_written c i x) (mkWire (wq a ++ [SR_msg x]) false) b s).
Proof.
  intros Hwk Hi Hph Hv Hst. pose proof Hwk as [Hiv _ _ Hw Hd Hs]. simpl in *.
  pose proof (requests_app a s (SR_msg x) false (t_init _ (v_transit _ Hiv))) as Hra.
  assert (Htok : forall t, t ∈ tokens (mkW c a b s) \/ t = cl_tag x ->
    t ∈ tokens (mkW (SR_written c i x) (mkWire (wq a ++ [SR_msg x]) false) b s)).
  { intros t Ht. unfold tokens in *. simpl in *. rewrite Hra, fmap_app. simpl. rewrite !elem_of_app, list_elem_of_singleton.
    rewrite !elem_of_app in Ht. tauto. }
  eapply working_client; [exact Hwk|done..| | | |]; simpl; [by eexists|..|done].
  - apply wait_phase; [|auto]. intros j y Hj Hy Hne. destruct (Hw j y Hj Hy); auto.
  - intros j y r [[<- <-]|[Hne Hj]]%lookup_insert_Some; simpl; [done|eauto].
Qed.

Lemma working_read c a b s m q : working (mkW c a b s) -> rdr c = RRead -> wq b = m :: q ->
  inv (mkW (rd_msg c m) a (mkWire q (broken b)) s) -> steady (mkW (rd_msg c m) a (mkWire q (broken b)) s) ->
  working (mkW (rd_msg c m) a (mkWire q (broken b)) s).
Proof.
  intros Hwk Hr Hq Hv Hst. pose proof Hwk as [Hiv _ Hi Hw Hd Hs]. simpl in *.
  pose proof (st_reading _ Hst) as Hrd. simpl in Hrd. unfold rd_msg, dmx_reply, remove in *.
  destruct (cm_calls (callmap (dmx c)) !! m_Tag m) as [ch|] eqn:Hch; simpl in *; [|done].
  destruct (proj1 (k_map _ _ (v_client _ Hiv) _ _) Hch) as (x & Hx & Hxt & _). simpl in Hx.
  split; simpl; try done.
  - intros j y Hj Hy. rewrite Hr in Hw. destruct (Hw j y Hj Hy) as [|Ht]; [done|].
    destruct (decide (cl_tag y = m_Tag m)) as [He|Hne].
    + left. f_equal. eapply (k_inj _ _ (v_client _ Hiv)); [exact Hx|exact Hj|congruence].
    + right. unfold tokens in *. simpl in *. rewrite Hq, fmap_cons in Ht. rewrite !elem_of_app, elem_of_cons in *. tauto.
  - by intros i r next [= <- <- <-].
Qed.

Lemma working_recv c a b s i x r : working (mkW c a b s) -> callers c !! i = Some x -> rdr c = RSend i r None ->
  inv (mkW (rd_sent c i x r None) a b s) -> steady (mkW (rd_sent c i x r None) a b s) ->
  working (mkW (rd_sent c i x r None) a b s).
Proof.
  intros Hwk Hi Hr Hv Hst. pose proof Hwk as [_ _ _ Hw Hd Hs]. simpl in *.
  eapply working_client; [exact Hwk|done|done|done|..]; simpl; [..|done].
  - apply (wait_phase _ _ _ _ RRead); [|done]. intros j y Hj Hy Hne.
    destruct (Hw j y Hj Hy) as [E|]; [|by right]. rewrite Hr in E. simplify_eq/=.
  - intros j y r' [[<- <-]|[Hne Hj]]%lookup_insert_Some; simpl; [intros [= <-]; eauto|eauto].
Qed.

Lemma working_answer c a b s h1 t rep ok h2 : working (mkW c a b s) -> handlers s = h1 ++ HWrite t rep ok :: h2 ->
  let w' := mkW c a (mkWire (wq b ++ [mkMsg t rep ok]) false) (set_handlers s (h1 ++ h2)) in
  inv w' -> steady w' -> working w'.
Proof.
  intros Hwk Hh w' Hv Hst. eapply working_server; [exact Hwk|done..| |].
  - intros u Hu. unfold w', tokens, requests in *. simpl in *. rewrite Hh in Hu.
    rewrite !fmap_app in *. rewrite fmap_cons in Hu. simpl in *.
    rewrite !elem_of_app, ?elem_of_cons, ?list_elem_of_singleton in *. tauto.
  - simpl. intros Hini. destruct (wk_init _ Hwk Hini) as [Hn ?]. simpl in Hn. rewrite Hh in Hn. by destruct h1.
Qed.

Lemma working_step w w' : working w -> good w w' -> issued (cli w') < 2 ^ 32 -> working w'.
Proof.
  intros Hwk [Hs Hst] Hlt. pose proof (dmx_inv_step _ _ (wk_inv _ Hwk) Hs Hlt) as Hv.
  pose proof Hwk as [_ [_ _ Hrd Hop Hcl Hsr Hso] Hini Hw Hd Hsd]. destruct Hs; simpl in *.
  - eapply working_client; [exact Hwk|done|done|done|..]; simpl; [..|done].
    + intros j y [[<- <-]|[Hne Hj]]%lookup_insert_Some Hy; [done|]. by apply Hw.
    + intros j y r [[<- <-]|[Hne Hj]]%lookup_insert_Some; simpl; [done|eauto].
  - unfold SR_put, put in *. rewrite Hop in *. eapply working_client; [exact Hwk|done|done|done|..]; simpl; [..|done].
    + apply wait_phase; [|done]. intros j y Hj Hy _. by apply Hw.
    + intros j y r [[<- <-]|[Hne Hj]]%lookup_insert_Some; simpl; [done|eauto].
  - destruct H1 as [e He|]; pose proof (st_c2s _ Hst) as Hb; simpl in Hb; [subst e|done]. by apply working_write.
  - pose proof (st_reading _ Hst) as Hrn. destruct next; [done|]. by apply working_recv.
  - by apply working_read.
  - by destruct (st_reading _ Hst).
  - by rewrite H in Hrd.
  - by rewrite H in Hrd.
  - unfold Close_check in *. rewrite Hop in *. by pose proof (st_closers _ Hst).
  - rewrite Hcl in H. by destruct k1.
  - rewrite Hcl in H. by destruct k1.
  - eapply working_server; [exact Hwk|done..| |].
    + unfold tokens, requests, NewDemuxSrv. simpl. rewrite H, H0. by destruct (Unmarshall (m_Data m)).
    + destruct (st_srv _ Hst) as [E|[n E]]; simpl in E; unfold NewDemuxSrv in *; simpl in *; destruct (Unmarshall (m_Data m)); done.
  - by destruct (st_srv _ Hst) as [E|[n E]].
  - eapply working_server; [exact Hwk|done..| |].
    + intros t. unfold tokens, requests. simpl. rewrite H, H0. simpl. rewrite !elem_of_app, !elem_of_cons, !elem_of_app. tauto.
    + simpl. by rewrite H.
  - by destruct (st_srv _ Hst) as [E|[m E]].
  - unfold h_run in H0. destruct (clientName (sph s)) as [n|] eqn:Hn; [|done]. simpl in H0.
    destruct (ServeRequest (sstate s) n req) as [[st' [rep ok]]|]; [|done]. simpl in H0. injection H0 as <-.
    eapply working_server; [exact Hwk|done..| |].
    + intros u. by rewrite (server_tokens c a b s h1 (HRun t req) h2 (HWrite t rep ok) H eq_refl).
    + simpl. intros Hi. by rewrite Hi in Hn.
  - destruct H0 as [e He|]; pose proof (st_s2c _ Hst) as Hb; simpl in Hb; [subst e|done]. by eapply working_answer.
  - by pose proof (st_sopen _ Hst).
Qed.

Lemma good_issued w w' : rtc good w w' -> issued (cli w) <= issued (cli w').
Proof. induction 1 as [|w1 w2 w3 [Hs _] _ IH]; [done|]. apply step_issued in Hs. lia. Qed.

Lemma steady_working clnt st w : steady_reach clnt st w -> issued (cli w) < 2 ^ 32 -> working w.
Proof.
  revert w. apply (rtc_ind_r (fun w => issued (cli w) < 2 ^ 32 -> working w)); [intros _; apply working_init|].
  intros v w _ Hg IH Hlt. eapply working_step; [apply IH|done..]. destruct Hg as [Hs _]. apply step_issued in Hs. lia.
Qed.

Lemma work_working w w' : working w -> work w w' -> issued (cli w) < 2 ^ 32 -> working w'.
Proof. intros Hwk [Hg Hi] Hlt. eapply working_step; [done..|lia]. Qed.

(** Every such step leaves less to do. *)
Lemma work_rank w w' : working w -> work w w' -> (rank w' < rank w)%nat.
Proof.
  intros Hwk [[Hs Hst] Hiss]. pose proof Hwk as [_ [_ _ Hrd Hop Hcl Hsr Hso] _ _ _ _]. unfold rank. destruct Hs; simpl in *.
  - unfold SR_tag in Hiss. simpl in Hiss. lia.
  - unfold SR_put, put. rewrite Hop. simpl. pose proof (calls_work_insert (callers c) i x (mkCaller (cl_req x) (cl_tag x) PPut) H) as Hc.
    unfold phase_work in Hc. rewrite H0 in Hc. simpl in Hc. lia.
  - destruct H1 as [e He|]; [|by pose proof (st_c2s _ Hst)]. simpl. rewrite length_app. simpl.
    pose proof (calls_work_insert (callers c) i x (mkCaller (cl_req x) (cl_tag x) PWait) H) as Hc.
    unfold phase_work in Hc. rewrite H0 in Hc. simpl in Hc. lia.
  - pose proof (calls_work_insert (callers c) i x (mkCaller (cl_req x) (cl_tag x) (PDone r)) H) as Hc.
    unfold phase_work in Hc. rewrite H0 in Hc. simpl in Hc. rewrite H1. destruct next; lia.
  - unfold rd_msg, dmx_reply. destruct (remove _ _) as [[ch cm]|]; simpl; rewrite H, H0; simpl; lia.
  - by destruct (st_reading _ Hst).
  - by rewrite H in Hrd.
  - by rewrite H in Hrd.
  - unfold Close_check in *. rewrite Hop in *. by pose proof (st_closers _ Hst).
  - rewrite Hcl in H. by destruct k1.
  - rewrite Hcl in H. by destruct k1.
  - rewrite H0. simpl. lia.
  - by destruct (st_srv _ Hst) as [E|[n E]].
  - rewrite H0. simpl. lia.
  - by destruct (st_srv _ Hst) as [E|[m E]].
  - unfold h_run in H0. destruct (clientName (sph s)) as [n|]; [|done]. simpl in H0.
    destruct (ServeRequest (sstate s) n req) as [[st' [rep ok]]|]; [|done]. simpl in H0. injection H0 as <-. simpl.
    rewrite H, !sum_list_middle. simpl. lia.
  - destruct H0 as [e He|]; [|by pose proof (st_s2c _ Hst)]. simpl. rewrite H, sum_list_middle, length_app. simpl. lia.
  - by pose proof (st_sopen _ Hst).
Qed.

(** The server, or the reader of the client, has something to do for every call
    that is on its way. *)
Section progress.
Context (P : S -> Prop) (HP : forall s n req s' r, P s -> ServeRequest s n req = Some (s', r) -> P s').

(** The handlers accept what the callers have asked for. *)
Definition accepts (w : world) : Prop := forall i x s n,
  callers (cli w) !! i = Some x -> P s -> is_Some (ServeRequest s n (cl_req x)).

Lemma reader_works c a b s : working (mkW c a b s) -> rdr c <> RRead \/ wq b <> [] -> exists w', work (mkW c a b s) w'.
Proof.
  intros Hwk Hne. pose proof Hwk as [Hv [H1 H2 Hrd Hop Hcl Hsr Hso] _ _ _ _]. simpl in *.
  destruct (rdr c) as [|j r [ts|]| | | |] eqn:Hr; try done.
  - destruct (wq b) as [|m q] eqn:Hq; [by destruct Hne|].
    pose proof (inv_read c a b s m q Hv Hr Hq) as Hv'.
    pose proof (k_fatal _ _ (v_client _ Hv')) as Hf.
    exists (mkW (rd_msg c m) a (mkWire q (broken b)) s). unfold work, good. split; [split; [by apply S_read|]|];
      unfold rd_msg, dmx_reply, remove in *; simpl in *; destruct (cm_calls (callmap (dmx c)) !! m_Tag m); simpl in *; by try split.
  - destruct (k_send _ _ (v_client _ Hv) j r None Hr) as (x & Hx & _ & _ & Hph). specialize (Hph eq_refl). simpl in *.
    exists (mkW (rd_sent c j x r None) a b s). split; [|done]. split; [by eapply S_recv|by split].
Qed.

Lemma server_works c a b s : working (mkW c a b s) -> P (sstate s) -> accepts (mkW c a b s) ->
  handlers s <> [] \/ wq a <> [] -> exists w', work (mkW c a b s) w'.
Proof.
  intros Hwk HPs Hacc Hne. pose proof Hwk as [Hv [H1 H2 Hrd Hop Hcl Hsr Hso] Hini _ _ _]. simpl in *.
  destruct (handlers s) as [|h hs] eqn:Hh.
  - destruct (wq a) as [|m q] eqn:Hq; [by destruct Hne|]. destruct Hsr as [Hi|[n Hn]].
    + destruct (Hini Hi) as (_ & m' & q' & [= <- <-] & [im Him]).
      exists (mkW c (mkWire q (broken a)) b (NewDemuxSrv s m)). split; [|done]. split; [by apply S_init|].
      split; simpl; try done. unfold NewDemuxSrv. rewrite Him. right. by eexists.
    + exists (mkW c (mkWire q (broken a)) b (srd_msg s m)). split; [|done]. split; [by eapply S_srvRead|].
      split; simpl; eauto.
  - destruct Hsr as [Hi|[n Hn]]; [by destruct (Hini Hi)|]. destruct h as [t req|t rep ok].
    + destruct (t_run _ (v_transit _ Hv) t req) as [(i & x & Hx & _ & <-) _]; [simpl; rewrite Hh; by left|]. simpl in Hx.
      destruct (Hacc i x (sstate s) n Hx HPs) as [[st' [rep ok]] Hsv].
      exists (mkW c a b (mkSrv (sph s) (s_closed s) (HWrite t rep ok :: hs) st' (mkExec t (cl_req x) rep ok :: slog s))).
      split; [|done]. split.
      * apply (S_serve c a b s [] t (cl_req x) hs); [done|]. unfold h_run. rewrite Hn. simpl. by rewrite Hsv.
      * split; simpl; eauto.
    + exists (mkW c a (mkWire (wq b ++ [mkMsg t rep ok]) false) (set_handlers s hs)). split; [|done]. split.
      * apply (S_answer c a b s [] t rep ok hs); [done|by constructor].
      * split; simpl; eauto.
Qed.

Lemma work_enabled w i x : working w -> P (sstate (srv w)) -> accepts w -> callers (cli w) !! i = Some x ->
  answered w i \/ exists w', work w w'.
Proof.
  destruct w as [c a b s]. intros Hwk HPs Hacc Hi. pose proof Hwk as [Hv [H1 H2 Hrd Hop Hcl Hsr Hso] _ Hw Hd _]. simpl in *.
  destruct (cl_ph x) as [| | |r] eqn:Hph.
  - right. exists (mkW (SR_put c i x) a b s). unfold work, good. split; [split; [by apply S_put|]|];
      unfold SR_put, put; rewrite Hop; simpl; [by split|done].
  - right. exists (mkW (SR_written c i x) (mkWire (wq a ++ [SR_msg x]) false) b s).
    split; [|done]. split; [by eapply S_write; [..|constructor]|by split].
  - right. destruct (Hw i x Hi Hph) as [Hs|Ht]; [apply reader_works; [done|left; by intros E; rewrite E in Hs]|].
    unfold tokens, requests in Ht. simpl in Ht. rewrite !elem_of_app in Ht. destruct Ht as [Ht|[Ht|Ht]].
    + apply server_works; [done..|]. right. intros E. rewrite E in Ht. destruct (sph s); by apply elem_of_nil in Ht.
    + apply server_works; [done..|]. left. intros E. rewrite E in Ht. by apply elem_of_nil in Ht.
    + apply reader_works; [done|]. right. intros E. rewrite E in Ht. by apply elem_of_nil in Ht.
  - left. by exists x, r; split_and!; [..|eapply Hd].
Qed.

Lemma work_keeps w w' : work w w' -> P (sstate (srv w)) -> accepts w ->
  P (sstate (srv w')) /\ accepts w' /\ (forall i, is_Some (callers (cli w) !! i) -> is_Some (callers (cli w') !! i)).
Proof.
  intros [[Hs Hst] Hiss] HPs Hacc.
  assert (Hcs : (exists i x ph, callers (cli w) !! i = Some x /\
     callers (cli w') = <[i := mkCaller (cl_req x) (cl_tag x) ph]> (callers (cli w))) \/ callers (cli w') = callers (cli w)).
  { destruct Hs; simpl in *; try by right.
    - unfold SR_tag in Hiss. simpl in Hiss. lia.
    - left. unfold SR_put. destruct (put _ _ _); simpl; eauto 8.
    - left. unfold SR_written. simpl. eauto 8.
    - left. unfold rd_sent. simpl. eauto 8.
    - right. unfold rd_msg, dmx_reply. by destruct (remove _ _) as [[]|].
    - right. destruct ts; [done|]. simpl. unfold dmx_reply. by destruct (remove _ _) as [[]|].
    - right. unfold Close_check. by destruct (cm_closed _). }
  assert (HP' : P (sstate (srv w'))).
  { destruct Hs; simpl in *; try done. unfold h_run in H0. destruct (clientName (sph s)) as [n|]; [|done]. simpl in H0.
    destruct (ServeRequest (sstate s) n req) as [[st' [rep ok]]|] eqn:E; [|done]. simpl in H0. injection H0 as <-. simpl. by eapply HP. }
  split; [done|]. unfold accepts in *. destruct Hcs as [(i & x & ph & Hi & E)|E]; rewrite E; [|split; [done|auto]].
  split; [|intros j Hj; apply lookup_insert_is_Some'; auto].
  intros j y s n [[<- <-]|[Hne Hj]]%lookup_insert_Some Hs'; simpl; eauto.
Qed.

(** While nothing fails, the calls that have been made are worked on, for a number
    of steps that is known beforehand, until every one of them has its answer. *)
Lemma calls_answered w : working w -> P (sstate (srv w)) -> accepts w -> issued (cli w) < 2 ^ 32 ->
  forall n w', nsteps work n w w' -> (n <= rank w)%nat /\
    forall i, is_Some (callers (cli w) !! i) -> answered w' i \/ exists w'', work w' w''.
Proof.
  intros Hwk HPs Hacc Hlt n. revert w Hwk HPs Hacc Hlt. induction n as [|n IH]; intros w Hwk HPs Hacc Hlt w' Hn.
  - inversion Hn; subst. split; [lia|]. intros i [x Hx]. by eapply work_enabled.
  - inversion Hn as [|? ? w1 ? Hs Hn']; subst. destruct (work_keeps _ _ Hs HPs Hacc) as (HP1 & Hacc1 & Hdom).
    pose proof (work_rank _ _ Hwk Hs). pose proof (work_working _ _ Hwk Hs Hlt) as Hwk1.
    destruct (IH w1 Hwk1 HP1 Hacc1) with (w' := w') as [Hle Hall]; [destruct Hs as [_ ->]; done|done|].
    split; [lia|]. eauto.
Qed.

End progress.

(** ** The theorem *)

Definition executions (l : list execd) (x : caller) : list execd := filter (fun e => ex_tag e = cl_tag x) l.

Lemma executions_nil l x : unserved l (cl_tag x) -> executions l x = [].
Proof.
  intros Hu. destruct (executions l x) as [|e es] eqn:He; [done|].
  assert (Hin : e ∈ executions l x) by (rewrite He; by left). apply list_elem_of_filter in Hin as [Ht Hin]. by destruct (Hu e Hin).
Qed.

Lemma executions_one l x e : NoDup (ex_tag <$> l) -> e ∈ l -> ex_tag e = cl_tag x -> executions l x = [e].
Proof.
  unfold executions. induction l as [|f l IH]; intros Hnd Hin He; [by apply elem_of_nil in Hin|].
  apply NoDup_cons in Hnd as [Hn Hnd]. apply elem_of_cons in Hin as [<-|Hin].
  - rewrite filter_cons_True by done. f_equal. apply executions_nil. intros g Hg Heq. apply Hn. rewrite He, <- Heq. by apply list_elem_of_fmap_2.
  - rewrite filter_cons_False; [by apply IH|]. intros Heq. apply Hn. rewrite Heq, <- He. by apply list_elem_of_fmap_2.
Qed.

Lemma one_execution w i x e : inv w -> callers (cli w) !! i = Some x -> e ∈ slog (srv w) -> ex_tag e = cl_tag x ->
  executions (slog (srv w)) x = [e] /\ ex_req e = cl_req x.
Proof.
  intros [Hc Ht] Hi Hin He. split; [by apply executions_one; [apply (t_log _ Ht)|..]|].
  destruct (t_exec _ Ht e Hin) as (j & y & Hj & Hy & <-).
  assert (j = i) as -> by (eapply (k_inj _ _ Hc); [done..|congruence]). by simplify_eq.
Qed.

(** A call is executed at most once, a caller that gets no error gets the reply of
    the one execution of its own request, the reader never meets a reply nobody
    asked for, and when the reader has ended nobody waits for a reply. *)
Lemma demux_calls clnt st w i x : reach clnt st w -> issued (cli w) < 2 ^ 32 -> callers (cli w) !! i = Some x ->
  (executions (slog (srv w)) x = [] \/ exists e, executions (slog (srv w)) x = [e] /\ ex_req e = cl_req x) /\
  (forall r, cl_ph x = PDone r -> rp_err r = false ->
     executions (slog (srv w)) x = [mkExec (cl_tag x) (cl_req x) (rp_rep r) (rp_ok r)]) /\
  rdr (cli w) <> RFatal /\ (rdr (cli w) = REnd -> ~ outstanding_call x).
Proof.
  intros Hr Hlt Hi. pose proof (dmx_reach_inv clnt st w Hr Hlt) as Hv. split_and!.
  - destruct (executions (slog (srv w)) x) as [|e l] eqn:He; [by left|]. right.
    assert (Hin : e ∈ executions (slog (srv w)) x) by (rewrite He; by left). apply list_elem_of_filter in Hin as [Ht Hin].
    destruct (one_execution w i x e Hv Hi Hin Ht) as [H ?]. rewrite He in H. eauto.
  - intros r Hph Herr. by eapply one_execution; [..|apply (k_done _ _ (v_client _ Hv) i x r)|].
  - apply (k_fatal _ _ (v_client _ Hv)).
  - intros He. eapply (nobody_waits (cli w)); [apply (v_client _ Hv)|by rewrite He|by rewrite He|done].
Qed.

(** What the log says, [ServeRequest] did, in a state that it led to. *)
Lemma log_served (P : S -> Prop) clnt st w : reach clnt st w -> P st ->
  (forall s n req s' r, P s -> ServeRequest s n req = Some (s', r) -> P s') ->
  P (sstate (srv w)) /\ forall e, e ∈ slog (srv w) ->
    exists s n s', P s /\ ServeRequest s n (ex_req e) = Some (s', (ex_rep e, ex_ok e)).
Proof.
  intros Hr Hst HP. revert w Hr. apply (rtc_ind_r (fun w => P (sstate (srv w)) /\ forall e, e ∈ slog (srv w) -> _)).
  { split; [done|]. intros e He. by apply elem_of_nil in He. }
  intros v w _ Hs [IHs IHl]. destruct Hs; try done. simpl in *. unfold h_run in H0.
  destruct (clientName (sph s)) as [n|]; [|done]. simpl in H0.
  destruct (ServeRequest (sstate s) n req) as [[st' [rep ok]]|] eqn:Hsv; [|done]. simpl in H0. injection H0 as <-. simpl.
  split; [by eapply HP|]. intros e [->|He]%elem_of_cons; [|by apply IHl]. simpl. by exists (sstate s), n, st'.
Qed.

End system.
Arguments world : clear implicits.
Arguments server : clear implicits.

(** ** Remote calls *)

Record RPCArgs := mkRPCArgs { Method : string; Args : list byte }.

Section sockrpc.
Context {S A R : Type} `{!Gob InitMsg} `{!Gob RPCArgs} `{!Gob A} `{!Gob R}.

(** [RPC]: what it hands to [SendReceive] and what it makes of the answer. *)
Definition RPC_request (method : string) (args : list byte) : list byte := Marshall (mkRPCArgs method args).

Definition RPC_result (r : dreply) : list byte * bool :=
  if rp_err r then ([], false) else (rp_rep r, rp_ok r).

(** [RPCMarshall]; [Some None] is false, [None] is fatal. *)
Definition RPCMarshall_request (method : string) (args : A) : list byte := RPC_request method (Marshall args).

Definition RPCMarshall_result (r : dreply) : option (option R) :=
  let '(rep, ok) := RPC_result r in
  if ok then y ← Unmarshall rep; Some (Some y) else Some None.

Definition Dispatch (rs : Server S) (svcMeth clnt : string) (args : list byte) : option (Server S * (list byte * bool)) :=
  '(rs, rep) ← dispatch rs (mkReq clnt svcMeth args);
  Some (rs, (reply rep, ok rep)).

Definition SockServeRequest (rs : Server S) (clntEnd : string) (b : list byte) : option (Server S * (list byte * bool)) :=
  req ← Unmarshall b;
  Dispatch rs (Method req) clntEnd (Args req).

(** Serving requests changes neither the services nor the dispatcher. *)
Definition same_services (rs rs' : Server S) : Prop :=
  dispatchf rs' = dispatchf rs /\ services rs' = services rs.

Lemma serve_keeps rs s n req s' rp :
  same_services rs s -> SockServeRequest s n req = Some (s', rp) -> same_services rs s'.
Proof.
  intros [Hsd Hss] Hrun. unfold SockServeRequest, Dispatch in Hrun. destruct (Unmarshall req) as [q|]; [|done].
  simpl in Hrun. destruct (dispatch s _) as [[s2 rep]|] eqn:Hdis; [|done]. simpl in Hrun. injection Hrun as <- <-.
  unfold same_services. by apply dispatch_keeps in Hdis as [-> ->].
Qed.

(** C15: Remote calls over a socket.  Any number of goroutines call a typed method
    through one connection, which may break at any moment, at either end, in the
    middle of a message; fewer than 2^32 calls are made, so that no tag comes
    twice.  A call runs the method at most once.  It returns false, or exactly what
    the method returned for the arguments of this very call, run once: replies are
    never mixed up between callers, although they arrive in any order.  The reader
    of the client never dies of a reply that nobody asked for, and when it has
    ended, nobody is left waiting for it.  And in a run in which nothing has
    failed, if the server can decode and dispatch every request that was made, the
    steps that work on these requests, in any order and without a failure, are at
    most [rank] many, and there is such a step until the call has returned with
    its reply. *)
Theorem sockrpc_calls (f : S -> A -> S * R) (rs : Server S) (svcName clnt : string)
    (ms : list (reflMethod S)) (m : reflMethod S) (a : A) (w : world (Server S)) (i : nat) (x : caller) :
  NoDup (m_name <$> ms) -> m ∈ ms -> suitable m = true -> m_call m = handler f -> splitLast (m_name m) = None ->
  dispatchf rs = None -> services rs !! svcName = Some (MakeService svcName ms) ->
  reach SockServeRequest clnt rs w -> issued (cli w) < 2 ^ 32 -> callers (cli w) !! i = Some x ->
  cl_req x = RPCMarshall_request (svcName +:+ "." +:+ m_name m) a ->
  (length (executions (slog (srv w)) x) <= 1)%nat /\
  (forall r, cl_ph x = PDone r -> RPCMarshall_result r = Some None \/
     length (executions (slog (srv w)) x) = 1%nat /\ exists s, RPCMarshall_result r = Some (Some (f s a).2)) /\
  rdr (cli w) <> RFatal /\ (rdr (cli w) = REnd -> ~ outstanding_call x) /\
  (steady_reach SockServeRequest clnt rs w -> accepts SockServeRequest (same_services rs) w ->
   forall n w', nsteps (work SockServeRequest) n w w' ->
     (n <= rank w)%nat /\ (answered w' i \/ exists w'', work SockServeRequest w' w'')).
Proof.
  intros Hnd Hm Hs Hf Hdot Hd Hsv Hr Hlt Hi Hreq.
  destruct (demux_calls _ _ _ w i x Hr Hlt Hi) as (Hex & Hdone & Hfat & Hret). split_and!; [|..|done|done|].
  { destruct Hex as [->|(e & -> & _)]; simpl; lia. }
  2:{ intros Hst Hacc n w' Hn. destruct (log_served SockServeRequest (same_services rs) clnt rs w Hr) as [HPs _];
        [done|apply serve_keeps|].
      destruct (calls_answered SockServeRequest (same_services rs) (serve_keeps rs) w) with (n := n) (w' := w') as [Hle Hall];
        [by eapply steady_working|done..|]. split; [done|]. apply Hall. by rewrite Hi. }
  intros r Hph. unfold RPCMarshall_result, RPC_result. destruct (rp_err r) eqn:Herr; [by left|]. right.
  pose proof (Hdone r Hph Herr) as Hl. rewrite Hl. split; [done|].
  destruct (log_served SockServeRequest (same_services rs) clnt rs w Hr) as [_ Hlog].
  - done.
  - apply serve_keeps.
  - destruct (Hlog (mkExec (cl_tag x) (cl_req x) (rp_rep r) (rp_ok r))) as (s & n & s' & [Hsd Hss] & Hrun).
    { assert (Hin : mkExec (cl_tag x) (cl_req x) (rp_rep r) (rp_ok r) ∈ executions (slog (srv w)) x) by (rewrite Hl; by left).
      by apply list_elem_of_filter in Hin as [_ ?]. }
    simpl in Hrun. rewrite Hreq in Hrun. unfold SockServeRequest, Dispatch, RPCMarshall_request, RPC_request in Hrun.
    unfold Unmarshall at 1, Marshall at 1 in Hrun. rewrite gob_roundtrip in Hrun. simpl in Hrun.
    destruct (rpc_transparent f s svcName n ms m a) as (s2 & rep & Hdis & Hok & Hrep & _); [done..|by rewrite Hsd|by rewrite Hss|].
    rewrite Hdis in Hrun. simpl in Hrun. injection Hrun as <- Hrp Hro. rewrite <- Hrp, <- Hro, Hok. simpl. rewrite Hrep. by exists (rcvrs s).
Qed.

End sockrpc.

(** ** Two calls answered out of order, and a third cut off *)

Module DemuxDemo.

#[export] Instance init_eq_dec : EqDecision InitMsg.
Proof. solve_decision. Defined.
#[export] Program Instance init_countable : Countable InitMsg := inj_countable' Clnt mkInit _.
Next Obligation. by intros []. Qed.
#[export] Instance rpcargs_eq_dec : EqDecision RPCArgs.
Proof. solve_decision. Defined.
#[export] Program Instance rpcargs_countable : Countable RPCArgs :=
  inj_countable' (fun r => (Method r, Args r)) (fun p => mkRPCArgs p.1 p.2) _.
Next Obligation. by intros []. Qed.
#[export] Instance gob_init : Gob InitMsg := bit_gob.
#[export] Instance gob_rpcargs : Gob RPCArgs := bit_gob.
Import LabrpcDemo.

Inductive act :=
| ATag (i : nat) (req : list byte) | APut (i : nat) | AWrite (i : nat) (fails : bool) | ARecv | ARead | AReadErr
| AOutstanding | AFail | AInit | ASrvRead | AServe (k : nat) | AAnswer (k : nat).

Definition send (a : wire) (m : msg) (fails : bool) : option wire :=
  if fails then Some (mkWire (wq a) true)
  else if broken a then None else Some (mkWire (wq a ++ [m]) false).

Definition perform (w : world (Server Z)) (x : act) : option (world (Server Z)) :=
  let '(mkW c a b s) := w in
  match x with
  | ATag i req => match callers c !! i with None => Some (mkW (SR_tag c i req) a b s) | Some _ => None end
  | APut i => x ← callers c !! i; match cl_ph x with PTag => Some (mkW (SR_put c i x) a b s) | _ => None end
  | AWrite i fails =>
      x ← callers c !! i;
      match cl_ph x with PPut => a ← send a (SR_msg x) fails; Some (mkW (SR_written c i x) a b s) | _ => None end
  | ARecv =>
      match rdr c with
      | RSend i r next =>
          x ← callers c !! i;
          match cl_ph x with PWait => Some (mkW (rd_sent c i x r next) a b s) | _ => None end
      | _ => None
      end
  | ARead => match rdr c, wq b with RRead, m :: q => Some (mkW (rd_msg c m) a (mkWire q (broken b)) s) | _, _ => None end
  | AReadErr => match rdr c with RRead => Some (mkW (rd_err c) a b s) | _ => None end
  | AOutstanding =>
      match rdr c with
      | RClosed => Some (mkW (set_rdr c (dmx c) (RFail (map_to_list (cm_calls (callmap (dmx c)))).*1)) a b s)
      | _ => None
      end
  | AFail => match rdr c with RFail ts => Some (mkW (rd_fail c ts) a b s) | _ => None end
  | AInit => match sph s, wq a with SInit, m :: q => Some (mkW c (mkWire q (broken a)) b (NewDemuxSrv s m)) | _, _ => None end
  | ASrvRead => match sph s, wq a with SRead _, m :: q => Some (mkW c (mkWire q (broken a)) b (srd_msg s m)) | _, _ => None end
  | AServe k =>
      match handlers s !! k with
      | Some (HRun t req) =>
          s ← h_run SockServeRequest s (take k (handlers s)) (drop (S k) (handlers s)) t req; Some (mkW c a b s)
      | _ => None
      end
  | AAnswer k =>
      match handlers s !! k with
      | Some (HWrite t rep ok) =>
          b ← send b (mkMsg t rep ok) false;
          Some (mkW c a b (set_handlers s (take k (handlers s) ++ drop (S k) (handlers s))))
      | _ => None
      end
  end.

Lemma send_written a m fails a' : send a m fails = Some a' -> written a m a'.
Proof.
  unfold send. destruct fails; [intros [= <-]; constructor|]. destruct (broken a) eqn:Hb; [done|]. intros [= <-]. by constructor.
Qed.

Lemma dmx_perform_step w x w' : perform w x = Some w' -> step SockServeRequest w w'.
Proof.
  destruct w as [c a b s]. unfold perform. intros H. destruct x; repeat (case_match || simplify_option_eq); try discriminate.
  all: try (by eapply S_tag || by eapply S_put || by eapply S_read || by eapply S_readErr || by eapply S_fail
            || by eapply S_init || by eapply S_srvRead || by eapply S_recv).
  - eapply S_write; [done..|by eapply send_written].
  - apply S_outstanding; [done|apply outstanding_keys].
  - eapply S_serve; [symmetry; by apply take_drop_middle|done].
  - eapply S_answer; [symmetry; by apply take_drop_middle|by constructor].
Qed.

Fixpoint runs (w : world (Server Z)) (xs : list act) : option (world (Server Z)) :=
  match xs with [] => Some w | x :: xs => w ← perform w x; runs w xs end.

Lemma runs_reach xs w w' : runs w xs = Some w' -> rtc (step SockServeRequest) w w'.
Proof.
  revert w. induction xs as [|x xs IH]; intros w; simpl; [intros [= <-]; constructor|].
  destruct (perform w x) as [v|] eqn:Hp; [|done]. simpl. intros Hr. eapply rtc_l; [by eapply dmx_perform_step|by apply IH].
Qed.

Definition request (a : Z) : list byte := RPCMarshall_request "Adder.Add" a.

(** Callers 1 and 2 send 5 and 7; the server runs 7 first and answers it first;
    caller 3 has written when the connection breaks. *)
Definition script : list act :=
  [AInit; ATag 1 (request 5); ATag 2 (request 7); APut 2; APut 1; AWrite 1 false; AWrite 2 false; ASrvRead; ASrvRead;
   AServe 0; AServe 1; ATag 3 (request 9); APut 3; AAnswer 0; ARead; AWrite 3 true; ARecv; AAnswer 0; ARead; ARecv;
   AReadErr; AOutstanding; AFail; ARecv; AFail].

Definition start : world (Server Z) := init "c" LabrpcDemo.server.
Definition final : world (Server Z) := default start (runs start script).

Definition result (w : world (Server Z)) (i : nat) : option (option (option Z)) :=
  x ← callers (cli w) !! i;
  match cl_ph x with PDone r => Some (RPCMarshall_result r) | _ => None end.

Example script_results : result final 1 = Some (Some (Some 12)) /\ result final 2 = Some (Some (Some 7)) /\ result final 3 = Some (Some None).
Proof. vm_compute. done. Qed.

(** ** The same calls on their way, before anything fails *)

Definition steadyb (w : world (Server Z)) : bool :=
  negb (broken (c2s w)) && negb (broken (s2c w)) && negb (cm_closed (callmap (dmx (cli w)))) && negb (s_closed (srv w)) &&
  match rdr (cli w) with RRead | RSend _ _ None => true | _ => false end &&
  match closers (cli w) with [] => true | _ => false end &&
  match sph (srv w) with SInit | SRead _ => true | _ => false end.

Lemma steadyb_ok w : steadyb w = true -> steady w.
Proof.
  unfold steadyb. rewrite !andb_true_iff, !negb_true_iff. intros ((((((? & ?) & ?) & ?) & Hr) & Hc) & Hs). split; try done.
  - by destruct (rdr (cli w)) as [|? ? []| | | |].
  - by destruct (closers (cli w)).
  - destruct (sph (srv w)) as [|n| |]; [by left|right; by exists n|done..].
Qed.

Fixpoint runs_steady (w : world (Server Z)) (xs : list act) : option (world (Server Z)) :=
  match xs with
  | [] => Some w
  | x :: xs => w ← perform w x; if steadyb w then runs_steady w xs else None
  end.

Lemma runs_steady_reach xs w w' : runs_steady w xs = Some w' -> rtc (good SockServeRequest) w w'.
Proof.
  revert w. induction xs as [|x xs IH]; intros w; simpl; [intros [= <-]; constructor|].
  destruct (perform w x) as [v|] eqn:Hp; [|done]. simpl. destruct (steadyb v) eqn:Hb; [|done]. intros Hr.
  eapply rtc_l; [split; [by eapply dmx_perform_step|by apply steadyb_ok]|by apply IH].
Qed.

Lemma good_steps (w w' : world (Server Z)) : rtc (good SockServeRequest) w w' -> rtc (step SockServeRequest) w w'.
Proof. induction 1 as [|w1 w2 w3 [Hs _] _ IH]; [done|by eapply rtc_l]. Qed.

Definition midway : world (Server Z) := default start (runs_steady start (take 11 script)).
Definition caller5 : caller := default (mkCaller [] 0 PTag) (callers (cli midway) !! 1%nat).

Lemma midway_reach : steady_reach SockServeRequest "c" LabrpcDemo.server midway.
Proof.
  assert (H : match runs_steady start (take 11 script) with Some _ => true | None => false end = true) by (vm_compute; reflexivity).
  unfold midway. destruct (runs_steady start (take 11 script)) as [w|] eqn:E; [|done]. by apply (runs_steady_reach _ _ _ E).
Qed.

Lemma midway_accepts : accepts SockServeRequest (same_services LabrpcDemo.server) midway.
Proof.
  assert (Hreqs : map_Forall (fun _ x => cl_req x = request 5 \/ cl_req x = request 7) (callers (cli midway)))
    by (apply (bool_decide_unpack _); vm_compute; exact I).
  assert (Hok : forall z (s : Server Z) n, same_services LabrpcDemo.server s -> is_Some (SockServeRequest s n (request z))).
  { intros z s n [Hd Hs]. unfold SockServeRequest, request, RPCMarshall_request, RPC_request, Dispatch.
    unfold Unmarshall at 1, Marshall at 1. rewrite gob_roundtrip. cbn [mbind option_bind Method Args].
    destruct (rpc_transparent add s "Adder" n adder (mkRefl "Add" true 3 true 0 (handler add)) z) as (s2 & rep & Hdis & _);
      [apply (bool_decide_unpack _); vm_compute; exact I|by left|done|done|done|by rewrite Hd|by rewrite Hs|].
    eexists. exact (f_equal (mbind (fun '(rs, rep) => Some (rs, (reply rep, ok rep)))) Hdis). }
  intros i x s n Hx Hs. destruct (map_Forall_lookup_1 _ _ _ _ Hreqs Hx) as [->| ->]; by apply Hok.
Qed.

(** Caller 1 has its call with the server: at most one execution, and there is a
    next step towards its answer. *)
Lemma sockrpc_calls_witness :
  (length (executions (slog (srv midway)) caller5) <= 1)%nat /\
  (answered midway 1 \/ exists w, work SockServeRequest midway w).
Proof.
  destruct (sockrpc_calls add LabrpcDemo.server "Adder" "c" adder (mkRefl "Add" true 3 true 0 (handler add)) 5 midway 1 caller5)
    as (H1 & _ & _ & _ & H2).
  - apply (bool_decide_unpack _). vm_compute. exact I.
  - by left.
  - reflexivity.
  - reflexivity.
  - reflexivity.
  - reflexivity.
  - reflexivity.
  - apply good_steps, midway_reach.
  - vm_compute. reflexivity.
  - vm_compute. reflexivity.
  - vm_compute. reflexivity.
  - split; [exact H1|]. exact (proj2 (H2 midway_reach midway_accepts 0%nat midway (nsteps_O _ _))).
Defined.

End DemuxDemo.
