(* ===== verification/Groups.v ===== *)
(** * Groups of servers and their clients on the simulated network

    [tester1/group.go], [tester1/srv.go] and [tester1/clnts.go]: how the tests
    place servers on the network of [Labrpc], connect, disconnect, partition, stop
    and restart them, and how the clients' ends follow.

    The end by which server [a] calls server [b] is known by a random name; that
    [MakeEnd] refuses a name in use is all that keeps ends apart.  [link] is the
    view in which the theorems are stated: whether [a] can reach [b]. *)

From stdpp Require Import pretty.
From S2P Require Import Prelude Gob PersisterWal Labrpc.

Definition ServerName (gid : Z) (i : nat) : string :=
  ("server-" +:+ pretty gid +:+ "-" +:+ pretty (Z.of_nat i))%string.

(** [dc]: the process that runs the server, by what its persister holds. *)
Record Server := mkSrvr { endNames : list string; saved : option Tester.Persister; dc : option Tester.Persister }.

Record ServerGrp := mkGrp { srvs : list Server; gid : Z; connected : list bool }.

(** ** Making servers; the names are those that [Randstring] returns *)

Fixpoint makeEnds (net : Network) (gid : Z) (j : nat) (names : list string) : option Network :=
  match names with
  | [] => Some net
  | e :: names => net ← MakeEnd e net; makeEnds (Connect e (ServerName gid j) net) gid (S j) names
  end.

Definition makeServer (net : Network) (gid : Z) (names : list string) : option (Network * Server) :=
  net ← makeEnds net gid 0 names;
  Some (net, mkSrvr names None None).

Definition startServer (s : Server) (net : Network) (gid : Z) (names : list string) : option (Network * Server) :=
  '(net, srv) ← makeServer net gid names;
  Some (net, mkSrvr (endNames srv) (Some (default Tester.empty (saved s))) (dc srv)).

Fixpoint makeServers (net : Network) (gid : Z) (names : list (list string)) : option (Network * list Server) :=
  match names with
  | [] => Some (net, [])
  | ns :: names =>
      '(net, s) ← makeServer net gid ns;
      '(net, l) ← makeServers net gid names;
      Some (net, s :: l)
  end.

Definition makeSrvGrp (net : Network) (gid : Z) (names : list (list string)) : option (Network * ServerGrp) :=
  '(net, l) ← makeServers net gid names;
  Some (net, mkGrp l gid (replicate (length names) false)).

Definition all (sg : ServerGrp) : list nat := seq 0 (length (srvs sg)).

(** ** Connecting; an index out of range panics *)

Definition set_connected (sg : ServerGrp) (i : nat) (b : bool) : option ServerGrp :=
  _ ← connected sg !! i; Some (mkGrp (srvs sg) (gid sg) (<[i := b]> (connected sg))).

(** [net.Enable] of the end by which [a] calls [b]. *)
Definition enableLink (sg : ServerGrp) (a b : nat) (yes : bool) (net : Network) : option Network :=
  s ← srvs sg !! a;
  e ← endNames s !! b;
  Some (Enable e yes net).

(** The four loops of [connect] and [disconnect], of the server and of the group:
    the ends between [i] and each [j] of a list, [pair j] being who calls whom.
    Connecting looks at [connected[j]] first. *)
Fixpoint eachLink (sg : ServerGrp) (pair : nat -> nat * nat) (yes : bool) (js : list nat) (net : Network) : option Network :=
  match js with
  | [] => Some net
  | j :: js =>
      c ← (if yes then connected sg !! j else Some true);
      net ← (if (c : bool) then enableLink sg (pair j).1 (pair j).2 yes net else Some net);
      eachLink sg pair yes js net
  end.

Definition connectOut (sg : ServerGrp) (i : nat) := eachLink sg (fun j => (i, j)) true.
Definition connectIn (sg : ServerGrp) (i : nat) := eachLink sg (fun j => (j, i)) true.

Definition connect (sg : ServerGrp) (net : Network) (i : nat) (to : list nat) : option (ServerGrp * Network) :=
  sg ← set_connected sg i true;
  net ← connectOut sg i to net;
  net ← connectIn sg i to net;
  Some (sg, net).

(** The names of the ends are never nil here. *)
Definition disconnectOut (sg : ServerGrp) (i : nat) := eachLink sg (fun j => (i, j)) false.
Definition disconnectIn (sg : ServerGrp) (i : nat) := eachLink sg (fun j => (j, i)) false.

Definition disconnect (sg : ServerGrp) (net : Network) (i : nat) (from : list nat) : option (ServerGrp * Network) :=
  sg ← set_connected sg i false;
  net ← disconnectOut sg i from net;
  net ← disconnectIn sg i from net;
  Some (sg, net).

Definition ConnectOne (sg : ServerGrp) (net : Network) (i : nat) := connect sg net i (all sg).
Definition DisconnectAll (sg : ServerGrp) (net : Network) (i : nat) := disconnect sg net i (all sg).

Fixpoint connects (sg : ServerGrp) (net : Network) (ixs : list nat) : option (ServerGrp * Network) :=
  match ixs with
  | [] => Some (sg, net)
  | i :: ixs => '(sg, net) ← ConnectOne sg net i; connects sg net ixs
  end.

Definition ConnectAll (sg : ServerGrp) (net : Network) : option (ServerGrp * Network) := connects sg net (all sg).

(** ** Partitions *)

(** The loop of [MakePartition] over the servers other than [l]. *)
Fixpoint split_others (l : nat) (ixs : list nat) (j : nat) (p1 p2 : list nat) : option (list nat * list nat) :=
  match ixs with
  | [] => Some (p1, p2)
  | i :: ixs =>
      if decide (i = l) then split_others l ixs j p1 p2
      else if decide (j < length p1)%nat then split_others l ixs (S j) (<[j := i]> p1) p2
      else _ ← p2 !! (j - length p1)%nat; split_others l ixs (S j) p1 (<[j - length p1 := i]> p2)%nat
  end.

Definition MakePartition (sg : ServerGrp) (l : nat) : option (list nat * list nat) :=
  let n := length (srvs sg) in
  '(p1, p2) ← split_others l (seq 0 n) 0 (replicate (n / 2 + 1) 0%nat) (replicate (n / 2) 0%nat);
  if decide (length p2 = 0%nat) then None else Some (p1, <[length p2 - 1 := l]> p2)%nat.

(** One of the two loops: [here] is the part of the servers visited. *)
Fixpoint part_loop (sg : ServerGrp) (net : Network) (here there : list nat) (ixs : list nat) : option (ServerGrp * Network) :=
  match ixs with
  | [] => Some (sg, net)
  | i :: ixs =>
      '(sg, net) ← disconnect sg net i there;
      '(sg, net) ← connect sg net i here;
      part_loop sg net here there ixs
  end.

Definition Partition (sg : ServerGrp) (net : Network) (p1 p2 : list nat) : option (ServerGrp * Network) :=
  '(sg, net) ← part_loop sg net p1 p2 p1;
  part_loop sg net p2 p1 p2.

(** ** Starting and stopping; [rs] is the handle of the new process *)

Definition set_server (sg : ServerGrp) (i : nat) (s : Server) : ServerGrp :=
  mkGrp (<[i := s]> (srvs sg)) (gid sg) (connected sg).

(** [started]: whether the process came up. *)
Definition StartServer (sg : ServerGrp) (net : Network) (i : nat) (names : list string) (started : bool) (rs : nat) :
    option (ServerGrp * Network * bool) :=
  s ← srvs sg !! i;
  '(net, s) ← startServer s net (gid sg) names;
  if started
  then Some (set_server sg i (mkSrvr (endNames s) (saved s) (saved s)), AddServer (ServerName (gid sg) i) rs net, true)
  else Some (set_server sg i s, net, false).

Definition shutdownServer (s : Server) : Server :=
  match dc s with
  | Some p => mkSrvr (endNames s) (Some (Tester.Checkpoint p)) None
  | None => s
  end.

Definition ShutdownServer (sg : ServerGrp) (net : Network) (i : nat) : option (ServerGrp * Network) :=
  '(sg, net) ← disconnect sg net i (all sg);
  let net := DeleteServer (ServerName (gid sg) i) net in
  s ← srvs sg !! i;
  Some (set_server sg i (shutdownServer s), net).

(** ** Links *)

Definition endName (sg : ServerGrp) (a b : nat) : option string := s ← srvs sg !! a; endNames s !! b.

Definition size (sg : ServerGrp) : nat := length (srvs sg).

Definition link (sg : ServerGrp) (net : Network) (a b : nat) : Prop :=
  exists e, endName sg a b = Some e /\ isEnabled net e = true.

Definition up (sg : ServerGrp) (i : nat) : Prop := connected sg !! i = Some true.

Record grp_ok (sg : ServerGrp) (net : Network) : Prop := {
  g_connected : length (connected sg) = size sg;
  g_ends a b : (a < size sg)%nat -> (b < size sg)%nat -> is_Some (endName sg a b);
  g_bound a b : is_Some (endName sg a b) -> (a < size sg)%nat /\ (b < size sg)%nat;
  g_inj a b a' b' e : endName sg a b = Some e -> endName sg a' b' = Some e -> a = a' /\ b = b';
  g_made a b e : endName sg a b = Some e -> e ∈ ends net;
  g_conn a b e : endName sg a b = Some e -> connections net !! e = Some (Some (ServerName (gid sg) b))
}.

(** The parts of the network that connecting does not touch. *)
Definition same_net (net net' : Network) : Prop :=
  ends net' = ends net /\ connections net' = connections net /\ servers net' = servers net.

Lemma same_net_refl net : same_net net net.
Proof. done. Qed.

Lemma same_net_trans n1 n2 n3 : same_net n1 n2 -> same_net n2 n3 -> same_net n1 n3.
Proof. unfold same_net. intuition congruence. Qed.

Lemma grp_ok_net sg net net' : grp_ok sg net -> same_net net net' -> grp_ok sg net'.
Proof. intros [] (He & Hc & _). split; try done; intros; rewrite ?He, ?Hc; eauto. Qed.

Lemma isEnabled_Enable e yes net e' : isEnabled (Enable e yes net) e' = if decide (e = e') then yes else isEnabled net e'.
Proof.
  unfold isEnabled, Enable. simpl. destruct (decide (e = e')) as [<-|Hne]; [by rewrite lookup_insert_eq|by rewrite lookup_insert_ne].
Qed.

Lemma enableLink_spec sg net a b yes : grp_ok sg net -> (a < size sg)%nat -> (b < size sg)%nat ->
  exists net', enableLink sg a b yes net = Some net' /\ same_net net net' /\
    forall x y, link sg net' x y <-> if yes then link sg net x y \/ x = a /\ y = b else link sg net x y /\ ~ (x = a /\ y = b).
Proof.
  intros Hg Ha Hb. destruct (g_ends _ _ Hg a b Ha Hb) as [e He]. exists (Enable e yes net). split_and!.
  - unfold enableLink, endName in *. destruct (srvs sg !! a) as [s|]; [|done]. simpl in *. by rewrite He.
  - done.
  - intros x y. unfold link. setoid_rewrite isEnabled_Enable. split.
    + intros (e' & He' & Hen). destruct (decide (e = e')) as [<-|Hne].
      * destruct (g_inj _ _ Hg _ _ _ _ _ He He') as [-> ->]. rewrite Hen. by right.
      * assert (Hnot : ~ (x = a /\ y = b)) by (intros [-> ->]; congruence). destruct yes; [left|split; [|done]]; eauto.
    + destruct yes.
      * intros [(e' & He' & Hen)|[-> ->]]; [exists e'; by destruct (decide (e = e'))|]. exists e. by rewrite decide_True.
      * intros [(e' & He' & Hen) Hnot]. exists e'. split; [done|]. rewrite decide_False; [done|]. intros <-.
        destruct (g_inj _ _ Hg _ _ _ _ _ He He') as [-> ->]. by apply Hnot.
Qed.

Lemma up_or_down sg net j : grp_ok sg net -> (j < size sg)%nat ->
  exists c, connected sg !! j = Some c /\ (c = true <-> up sg j).
Proof.
  intros Hg Hj. rewrite <- (g_connected _ _ Hg) in Hj. destruct (lookup_lt_is_Some_2 _ _ Hj) as [c Hc]. exists c.
  split; [done|]. unfold up. rewrite Hc. split; congruence.
Qed.

Definition in_range (sg : ServerGrp) (l : list nat) : Prop := forall j, j ∈ l -> (j < size sg)%nat.

Lemma in_range_cons sg j l : in_range sg (j :: l) -> (j < size sg)%nat /\ in_range sg l.
Proof. intros H. split; [apply H; by left|]. intros k Hk. apply H. by right. Qed.

(** The links a loop goes over. *)
Definition visits (sg : ServerGrp) (pair : nat -> nat * nat) (yes : bool) (js : list nat) (x y : nat) : Prop :=
  exists j, j ∈ js /\ (x, y) = pair j /\ (yes = true -> up sg j).

Lemma eachLink_spec sg net pair yes js : grp_ok sg net ->
  (forall j, j ∈ js -> (j < size sg)%nat /\ ((pair j).1 < size sg)%nat /\ ((pair j).2 < size sg)%nat) ->
  exists net', eachLink sg pair yes js net = Some net' /\ same_net net net' /\
    forall x y, link sg net' x y <->
      if yes then link sg net x y \/ visits sg pair yes js x y else link sg net x y /\ ~ visits sg pair yes js x y.
Proof.
  revert net. induction js as [|j js IH]; intros net Hg Hjs.
  { exists net. split_and!; [done|done|]. intros x y.
    assert (~ visits sg pair yes [] x y) by (by intros (j & Hj%elem_of_nil & _)). destruct yes; tauto. }
  destruct (Hjs j) as (Hj & H1 & H2); [by left|]. destruct (up_or_down sg net j Hg Hj) as (c & Hc & Hup).
  assert (Hjs' : forall j, j ∈ js -> (j < size sg)%nat /\ ((pair j).1 < size sg)%nat /\ ((pair j).2 < size sg)%nat)
    by (intros k Hk; apply Hjs; by right).
  assert (Hv : forall x y, visits sg pair yes (j :: js) x y <-> (x, y) = pair j /\ (yes = true -> up sg j) \/ visits sg pair yes js x y)
    by (intros x y; unfold visits; setoid_rewrite elem_of_cons; naive_solver).
  destruct (enableLink_spec sg net (pair j).1 (pair j).2 yes Hg H1 H2) as (n1 & Hn1 & Hs1 & Hl1).
  assert (Hp : forall x y, (x = (pair j).1 /\ y = (pair j).2) <-> (x, y) = pair j) by (intros; destruct (pair j); naive_solver).
  assert (Hl1' : forall x y, link sg n1 x y <-> if yes then link sg net x y \/ (x, y) = pair j else link sg net x y /\ (x, y) <> pair j)
    by (intros x y; rewrite Hl1; destruct yes; rewrite Hp; tauto).
  destruct (IH n1) as (n2 & Hn2 & Hs2 & Hl2); [by eapply grp_ok_net|done|].
  destruct (IH net Hg Hjs') as (n3 & Hn3 & Hs3 & Hl3). simpl. destruct yes; rewrite ?Hc; simpl; [destruct c|].
  - rewrite Hn1. simpl. exists n2. split_and!; [done|by apply (same_net_trans _ n1)|]. intros x y. rewrite Hl2, Hl1', Hv. intuition.
  - exists n3. split_and!; [done|done|]. intros x y. rewrite Hl3, Hv. intuition congruence.
  - rewrite Hn1. simpl. exists n2. split_and!; [done|by apply (same_net_trans _ n1)|]. intros x y. rewrite Hl2, Hl1', Hv. intuition congruence.
Qed.

Lemma visits_out sg i yes js x y : visits sg (fun j => (i, j)) yes js x y <-> x = i /\ y ∈ js /\ (yes = true -> up sg y).
Proof. unfold visits. naive_solver. Qed.

Lemma visits_in sg i yes js x y : visits sg (fun j => (j, i)) yes js x y <-> y = i /\ x ∈ js /\ (yes = true -> up sg x).
Proof. unfold visits. naive_solver. Qed.

(** Setting [connected[i]]. *)
Lemma set_connected_spec sg net i b : grp_ok sg net -> (i < size sg)%nat ->
  exists sg', set_connected sg i b = Some sg' /\ grp_ok sg' net /\ srvs sg' = srvs sg /\ gid sg' = gid sg /\
    forall j, up sg' j <-> if decide (i = j) then b = true else up sg j.
Proof.
  intros Hg Hi. destruct (up_or_down sg net i Hg Hi) as (c & Hc & _). unfold set_connected. rewrite Hc. simpl.
  eexists. split_and!; [done| |done|done|].
  - destruct Hg. split; simpl; try done. by rewrite length_insert.
  - intros j. unfold up. simpl. apply lookup_lt_Some in Hc. destruct (decide (i = j)) as [<-|Hne].
    + rewrite list_lookup_insert_eq by done. naive_solver.
    + by rewrite list_lookup_insert_ne.
Qed.

(** What an operation on the links does: the group [sg'] has the same servers. *)
Definition relinked (sg : ServerGrp) (net : Network) (sg' : ServerGrp) (net' : Network) : Prop :=
  srvs sg' = srvs sg /\ gid sg' = gid sg /\ grp_ok sg' net' /\ same_net net net'.

Lemma link_same sg sg' net x y : srvs sg' = srvs sg -> link sg' net x y <-> link sg net x y.
Proof. intros H. unfold link, endName. by rewrite H. Qed.

Lemma connect_spec sg net i to : grp_ok sg net -> (i < size sg)%nat -> in_range sg to ->
  exists sg' net', connect sg net i to = Some (sg', net') /\ relinked sg net sg' net' /\
    (forall j, up sg' j <-> i = j \/ up sg j) /\
    forall x y, link sg' net' x y <-> link sg net x y \/ (x = i /\ y ∈ to /\ up sg' y) \/ (y = i /\ x ∈ to /\ up sg' x).
Proof.
  intros Hg Hi Hto. destruct (set_connected_spec sg net i true Hg Hi) as (sg' & Hset & Hg' & Hsv & Hgid & Hup).
  assert (Hsz : size sg' = size sg) by (unfold size; by rewrite Hsv).
  unfold connect. rewrite Hset. simpl. unfold connectOut, connectIn.
  destruct (eachLink_spec sg' net (fun j => (i, j)) true to Hg') as (n1 & -> & Hs1 & Hl1); [intros j Hj; simpl; rewrite Hsz; auto|].
  simpl. destruct (eachLink_spec sg' n1 (fun j => (j, i)) true to) as (n2 & -> & Hs2 & Hl2);
    [by eapply grp_ok_net|intros j Hj; simpl; rewrite Hsz; auto|]. simpl.
  exists sg', n2. split_and!; [done| |..].
  - split_and!; [done|done|by apply (grp_ok_net _ n1); [apply (grp_ok_net _ net)|]|by apply (same_net_trans _ n1)].
  - intros j. rewrite Hup. destruct (decide (i = j)); naive_solver.
  - intros x y. rewrite Hl2, Hl1, visits_out, visits_in, (link_same sg sg') by done. naive_solver.
Qed.

Lemma disconnect_spec sg net i from : grp_ok sg net -> (i < size sg)%nat -> in_range sg from ->
  exists sg' net', disconnect sg net i from = Some (sg', net') /\ relinked sg net sg' net' /\
    (forall j, up sg' j <-> i <> j /\ up sg j) /\
    forall x y, link sg' net' x y <-> link sg net x y /\ ~ (x = i /\ y ∈ from) /\ ~ (y = i /\ x ∈ from).
Proof.
  intros Hg Hi Hfrom. destruct (set_connected_spec sg net i false Hg Hi) as (sg' & Hset & Hg' & Hsv & Hgid & Hup).
  assert (Hsz : size sg' = size sg) by (unfold size; by rewrite Hsv).
  unfold disconnect. rewrite Hset. simpl. unfold disconnectOut, disconnectIn.
  destruct (eachLink_spec sg' net (fun j => (i, j)) false from Hg') as (n1 & -> & Hs1 & Hl1); [intros j Hj; simpl; rewrite Hsz; auto|].
  simpl. destruct (eachLink_spec sg' n1 (fun j => (j, i)) false from) as (n2 & -> & Hs2 & Hl2);
    [by eapply grp_ok_net|intros j Hj; simpl; rewrite Hsz; auto|]. simpl.
  exists sg', n2. split_and!; [done| |..].
  - split_and!; [done|done|by apply (grp_ok_net _ n1); [apply (grp_ok_net _ net)|]|by apply (same_net_trans _ n1)].
  - intros j. rewrite Hup. destruct (decide (i = j)); naive_solver.
  - intros x y. rewrite Hl2, Hl1, visits_out, visits_in, (link_same sg sg') by done. naive_solver.
Qed.

Lemma relinked_refl sg net : grp_ok sg net -> relinked sg net sg net.
Proof. done. Qed.

Lemma relinked_trans s1 n1 s2 n2 s3 n3 : relinked s1 n1 s2 n2 -> relinked s2 n2 s3 n3 -> relinked s1 n1 s3 n3.
Proof. intros (? & ? & ? & ?) (? & ? & ? & ?). split_and!; [congruence..|done|by eapply same_net_trans]. Qed.

Lemma relinked_size s1 n1 s2 n2 : relinked s1 n1 s2 n2 -> size s2 = size s1.
Proof. intros (H & _). unfold size. by rewrite H. Qed.

Lemma relinked_range s1 n1 s2 n2 l : relinked s1 n1 s2 n2 -> in_range s1 l -> in_range s2 l.
Proof. intros H Hl. unfold in_range. by rewrite (relinked_size _ _ _ _ H). Qed.

(** The body of one iteration of [Partition]. *)
Lemma part_step sg net here there i : grp_ok sg net -> (i < size sg)%nat -> in_range sg here -> in_range sg there ->
  exists sg1 net1 sg2 net2, disconnect sg net i there = Some (sg1, net1) /\ connect sg1 net1 i here = Some (sg2, net2) /\
    relinked sg net sg2 net2 /\ (forall j, up sg2 j <-> i = j \/ up sg j) /\
    forall x y, link sg2 net2 x y <->
      (link sg net x y /\ ~ (x = i /\ y ∈ there) /\ ~ (y = i /\ x ∈ there)) \/
      (x = i /\ y ∈ here /\ up sg2 y) \/ (y = i /\ x ∈ here /\ up sg2 x).
Proof.
  intros Hg Hi Hh Ht. destruct (disconnect_spec sg net i there Hg Hi Ht) as (sg1 & n1 & Hd & Hr1 & Hu1 & Hl1).
  destruct (connect_spec sg1 n1 i here) as (sg2 & n2 & Hc & Hr2 & Hu2 & Hl2).
  { by destruct Hr1 as (_ & _ & ? & _). }
  { by rewrite (relinked_size _ _ _ _ Hr1). }
  { by eapply relinked_range. }
  exists sg1, n1, sg2, n2. split_and!; [done..|by eapply relinked_trans| |].
  - intros j. rewrite Hu2, Hu1. destruct (decide (i = j)); naive_solver.
  - intros x y. rewrite Hl2, Hl1. tauto.
Qed.

(** What the servers of [v] have once they have been visited. *)
Definition parted (sg : ServerGrp) (net : Network) (there v : list nat) : Prop :=
  (forall a, a ∈ v -> up sg a) /\ (forall a b, a ∈ v -> b ∈ v -> link sg net a b) /\
  (forall a b, a ∈ v -> b ∈ there -> ~ link sg net a b /\ ~ link sg net b a).

Lemma parted_nil sg net there : parted sg net there [].
Proof. split_and!; [intros a Ha|intros a b Ha|intros a b Ha]; by apply elem_of_nil in Ha. Qed.

Lemma part_loop_spec sg net here there v ixs : grp_ok sg net -> in_range sg here -> in_range sg there ->
  here ## there -> ixs ⊆ here -> v ⊆ here -> parted sg net there v ->
  exists sg' net', part_loop sg net here there ixs = Some (sg', net') /\ relinked sg net sg' net' /\
    parted sg' net' there (v ++ ixs) /\ (forall j, up sg j -> up sg' j) /\
    forall x y, x ∉ here -> y ∉ here -> link sg' net' x y <-> link sg net x y.
Proof.
  intros Hg Hh Ht Hdis. revert sg net v Hg Hh Ht. induction ixs as [|i ixs IH]; intros sg net v Hg Hh Ht Hi Hv Hp; simpl.
  { exists sg, net. rewrite app_nil_r. by split_and!; [|apply relinked_refl| | |]. }
  assert (Hih : i ∈ here) by (apply Hi; by left).
  destruct (part_step sg net here there i Hg (Hh i Hih) Hh Ht) as (sg1 & n1 & sg2 & n2 & -> & Hc & Hr & Hu & Hl). simpl. rewrite Hc. simpl.
  destruct (IH sg2 n2 (v ++ [i])) as (sg3 & n3 & -> & Hr3 & Hp3 & Hu3 & Hl3).
  - by destruct Hr as (_ & _ & ? & _).
  - by eapply relinked_range.
  - by eapply relinked_range.
  - intros j Hj. apply Hi. by right.
  - intros j [Hj|Hj]%elem_of_app; [by apply Hv|]. apply list_elem_of_singleton in Hj as ->. done.
  - destruct Hp as (Hp1 & Hp2 & Hp3). split_and!.
    + intros a [Ha|Ha]%elem_of_app; apply Hu; [right; by apply Hp1|left]. by apply list_elem_of_singleton in Ha.
    + intros a b Ha Hb. apply Hl. rewrite elem_of_app, list_elem_of_singleton in Ha, Hb.
      assert (a ∈ here /\ b ∈ here) as [? ?] by naive_solver.
      destruct Ha as [Ha| ->]; [destruct Hb as [Hb| ->]|].
      * left. split_and!; [by apply Hp2|intros [_ H']; by apply (Hdis b)|intros [_ H']; by apply (Hdis a)].
      * right. right. split_and!; [done..|]. apply Hu. right. by apply Hp1.
      * right. left. split_and!; [done..|]. apply Hu. destruct Hb as [Hb| ->]; [right; by apply Hp1|by left].
    + intros a b Ha Hb. assert (b ∉ here) by (intros H'; by apply (Hdis b)). assert (b <> i) by congruence.
      rewrite elem_of_app, list_elem_of_singleton in Ha. rewrite !Hl.
      destruct Ha as [Ha| ->]; [destruct (Hp3 a b Ha Hb)|]; naive_solver.
  - exists sg3, n3. split_and!; [done|by eapply relinked_trans| | |].
    + by rewrite <- app_assoc in Hp3.
    + intros j Hj. apply Hu3, Hu. by right.
    + intros x y Hx Hy. rewrite Hl3, Hl by done. assert (x <> i /\ y <> i) as [? ?] by (split; congruence). tauto.
Qed.

Lemma partition_spec sg net p1 p2 : grp_ok sg net -> in_range sg p1 -> in_range sg p2 -> p1 ## p2 ->
  exists sg' net', Partition sg net p1 p2 = Some (sg', net') /\ relinked sg net sg' net' /\
    forall a b, (a ∈ p1 \/ a ∈ p2) -> (b ∈ p1 \/ b ∈ p2) -> link sg' net' a b <-> (a ∈ p1 <-> b ∈ p1).
Proof.
  intros Hg H1 H2 Hdis. unfold Partition.
  destruct (part_loop_spec sg net p1 p2 [] p1) as (s1 & n1 & -> & Hr1 & Hp1 & Hu1 & _); [done..|by intros ? ?%elem_of_nil|apply parted_nil|].
  simpl. simpl in Hp1.
  destruct (part_loop_spec s1 n1 p2 p1 [] p2) as (s2 & n2 & -> & Hr2 & Hp2 & Hu2 & Hl2).
  { by destruct Hr1 as (_ & _ & ? & _). }
  { by eapply relinked_range. }
  { by eapply relinked_range. }
  { intros x Hx Hy. by apply (Hdis x). }
  { done. }
  { by intros ? ?%elem_of_nil. }
  { apply parted_nil. }
  exists s2, n2. simpl in Hp2. split_and!; [done|by eapply relinked_trans|].
  assert (Hnot : forall a, a ∈ p1 -> a ∉ p2) by (intros a Ha Ha'; by apply (Hdis a)).
  destruct Hp1 as (_ & Hin1 & _). destruct Hp2 as (_ & Hin2 & Hout2).
  intros a b [Ha|Ha] [Hb|Hb].
  - rewrite Hl2 by auto. split; [done|]. intros _. by apply Hin1.
  - destruct (Hout2 b a Hb Ha) as [_ Hn]. split; [done|]. intros Hiff. by destruct (Hnot b (proj1 Hiff Ha)).
  - destruct (Hout2 a b Ha Hb) as [Hn _]. split; [done|]. intros Hiff. by destruct (Hnot a (proj2 Hiff Hb)).
  - split; [|by intros _; apply Hin2]. intros _. split; intros H'; by destruct (Hdis _ H').
Qed.

(** ** [MakePartition] *)

Definition others (l : nat) (ixs : list nat) : list nat := filter (fun i => i <> l) ixs.

Lemma fill_next (q os : list nat) (j i : nat) : (j < length q)%nat ->
  take (S j) (<[j := i]> q) ++ os ++ drop (S j + length os) (<[j := i]> q) =
  take j q ++ (i :: os) ++ drop (j + S (length os)) q.
Proof.
  intros Hj. rewrite drop_insert_lt by lia. rewrite (take_S_r _ _ i) by (by apply list_lookup_insert_eq).
  rewrite take_insert_ge, <- app_assoc by done. simpl. by rewrite Nat.add_succ_r.
Qed.

(** The loop fills the two parts, one after the other, with the others. *)
Lemma split_others_spec l ixs j p1 p2 : (j + length (others l ixs) <= length p1 + length p2)%nat ->
  exists q1 q2, split_others l ixs j p1 p2 = Some (q1, q2) /\ length q1 = length p1 /\ length q2 = length p2 /\
    q1 ++ q2 = take j (p1 ++ p2) ++ others l ixs ++ drop (j + length (others l ixs)) (p1 ++ p2).
Proof.
  revert j p1 p2. induction ixs as [|i ixs IH]; intros j p1 p2 Hlen; simpl.
  { exists p1, p2. split_and!; [done..|]. simpl. by rewrite Nat.add_0_r, take_drop. }
  unfold others in *. rewrite filter_cons in *. destruct (decide (i = l)) as [Heq|Hne].
  { rewrite decide_False in * by tauto. by apply IH. }
  rewrite decide_True in * by done. simpl in Hlen. destruct (decide (j < length p1)%nat) as [Hj|Hj].
  - destruct (IH (S j) (<[j := i]> p1) p2) as (q1 & q2 & -> & H1 & H2 & H3); [rewrite length_insert; lia|].
    exists q1, q2. rewrite length_insert in H1. split_and!; [done..|]. rewrite H3, <- insert_app_l by done.
    by rewrite fill_next, !decide_True by (done || rewrite length_app; lia).
  - assert (Hj2 : (j - length p1 < length p2)%nat) by lia. destruct (lookup_lt_is_Some_2 _ _ Hj2) as [z ->]. simpl.
    destruct (IH (S j) p1 (<[j - length p1 := i]> p2)%nat) as (q1 & q2 & -> & H1 & H2 & H3); [rewrite length_insert; lia|].
    exists q1, q2. rewrite length_insert in H2. split_and!; [done..|]. rewrite H3, <- insert_app_r_alt by lia.
    by rewrite fill_next, !decide_True by (done || rewrite length_app; lia).
Qed.

Lemma others_perm l n : (l < n)%nat -> others l (seq 0 n) ++ [l] ≡ₚ seq 0 n.
Proof.
  intros Hl. apply NoDup_Permutation.
  - apply NoDup_app. split_and!; [apply NoDup_filter, NoDup_seq| |apply NoDup_singleton].
    intros x [Hx _]%list_elem_of_filter H%list_elem_of_singleton. done.
  - apply NoDup_seq.
  - intros x. unfold others. rewrite elem_of_app, list_elem_of_filter, list_elem_of_singleton, elem_of_seq. destruct (decide (x = l)); [subst|]; naive_solver lia.
Qed.

Lemma MakePartition_spec sg l k : size sg = (2 * k + 1)%nat -> (0 < k)%nat -> (l < size sg)%nat ->
  exists p1 p2, MakePartition sg l = Some (p1, p2) /\ length p1 = (k + 1)%nat /\ length p2 = k /\ l ∈ p2 /\ p1 ++ p2 ≡ₚ seq 0 (size sg).
Proof.
  intros Hn Hk Hl. pose proof (others_perm l (size sg) Hl) as Hperm.
  assert (Hol : length (others l (seq 0 (size sg))) = (2 * k)%nat).
  { apply Permutation_length in Hperm. rewrite length_app, length_seq in Hperm. simpl in Hperm. lia. }
  unfold MakePartition. fold (size sg). assert (Hdiv : (size sg / 2 = k)%nat).
  { rewrite Hn, Nat.mul_comm, Nat.div_add_l by lia. simpl. lia. }
  rewrite Hdiv. destruct (split_others_spec l (seq 0 (size sg)) 0 (replicate (k + 1) 0%nat) (replicate k 0%nat)) as (q1 & q2 & -> & H1 & H2 & H3).
  { rewrite Hol, !length_replicate. lia. }
  rewrite length_replicate in H1, H2. simpl in H3. rewrite Hol, <- replicate_add, drop_replicate in H3.
  replace (k + 1 + k - 2 * k)%nat with 1%nat in H3 by lia. simpl in H3. simpl. rewrite decide_False by lia.
  destruct q2 as [|z q2 _] using rev_ind; [simpl in H2; lia|]. rewrite app_assoc in H3. apply app_inj_tail in H3 as [H3 ->].
  rewrite length_app in *. simpl in *. exists q1, (q2 ++ [l]).
  assert (Hlast : <[(length q2 + 1 - 1)%nat := l]> (q2 ++ [0%nat]) = q2 ++ [l]).
  { replace (length q2 + 1 - 1)%nat with (length q2 + 0)%nat by lia. by rewrite insert_app_r. }
  rewrite Hlast. split_and!; [done..|rewrite length_app; simpl; lia| |].
  - apply elem_of_app. right. by left.
  - by rewrite app_assoc, H3.
Qed.

(** ** Healing, stopping and restarting *)

Lemma connects_spec sg net ixs : grp_ok sg net -> in_range sg ixs ->
  exists sg' net', connects sg net ixs = Some (sg', net') /\ relinked sg net sg' net' /\
    (forall j, up sg' j <-> j ∈ ixs \/ up sg j) /\ (forall x y, link sg net x y -> link sg' net' x y) /\
    forall x y, x ∈ ixs -> y ∈ ixs \/ up sg y -> (y < size sg)%nat -> link sg' net' x y /\ link sg' net' y x.
Proof.
  revert sg net. induction ixs as [|i ixs IH]; intros sg net Hg Hr; simpl.
  { exists sg, net. split_and!; [done|by apply relinked_refl| |done|]; intros; rewrite ?elem_of_nil in *; tauto. }
  apply in_range_cons in Hr as [Hi Hr].
  destruct (connect_spec sg net i (all sg) Hg Hi) as (sg1 & n1 & Hc & Hr1 & Hu1 & Hl1).
  { intros j Hj%elem_of_seq. unfold size. lia. }
  unfold ConnectOne. rewrite Hc. simpl. pose proof (relinked_size _ _ _ _ Hr1) as Hsz.
  destruct (IH sg1 n1) as (sg2 & n2 & -> & Hr2 & Hu2 & Hk2 & Hl2).
  { by destruct Hr1 as (_ & _ & ? & _). }
  { by eapply relinked_range. }
  exists sg2, n2. split_and!; [done|by eapply relinked_trans| | |].
  - intros j. rewrite Hu2, Hu1, elem_of_cons. naive_solver.
  - intros x y H. apply Hk2, Hl1. by left.
  - assert (Hall : forall y, (y < size sg)%nat -> y ∈ all sg) by (intros y Hy; apply elem_of_seq; unfold size in Hy; lia).
    assert (Hin : forall y, (y < size sg)%nat -> up sg1 y -> link sg2 n2 i y /\ link sg2 n2 y i).
    { intros y Hy Hup. split; apply Hk2, Hl1; right; [left|right]; auto. }
    intros x y [->|Hx]%elem_of_cons Hy Hlt.
    + rewrite elem_of_cons in Hy. destruct Hy as [[->|Hy]|Hy].
      * apply Hin; [done|]. apply Hu1. by left.
      * destruct (Hl2 y i Hy) as [? ?]; [right; apply Hu1; by left|lia|done].
      * apply Hin; [done|]. apply Hu1. by right.
    + apply Hl2; [done| |lia]. rewrite elem_of_cons in Hy. rewrite Hu1. naive_solver.
Qed.

Lemma ConnectAll_spec sg net : grp_ok sg net ->
  exists sg' net', ConnectAll sg net = Some (sg', net') /\ relinked sg net sg' net' /\
    forall a b, (a < size sg)%nat -> (b < size sg)%nat -> link sg' net' a b.
Proof.
  intros Hg. destruct (connects_spec sg net (all sg) Hg) as (sg' & net' & Hc & Hr & _ & _ & Hl).
  { intros j Hj%elem_of_seq. unfold size. lia. }
  exists sg', net'. split_and!; [done..|]. intros a b Ha Hb.
  apply (Hl a b); [|left|done]; apply elem_of_seq; unfold size in *; lia.
Qed.

(** ** New ends *)

Lemma MakeEnd_Some e net net' : MakeEnd e net = Some net' ->
  (e ∉ ends net) /\ ends net' = {[e]} ∪ ends net /\ connections net' = <[e := None]> (connections net) /\
  servers net' = servers net /\ forall e', isEnabled net' e' = (if decide (e' = e) then false else isEnabled net e').
Proof.
  unfold MakeEnd. destruct (decide (e ∈ ends net)); [done|]. intros [= <-]. split_and!; try done.
  intros e'. unfold isEnabled. simpl. destruct (decide (e' = e)) as [->|Hne]; [by rewrite lookup_insert_eq|by rewrite lookup_insert_ne].
Qed.

Lemma makeEnds_spec net gid j names net' : makeEnds net gid j names = Some net' ->
  NoDup names /\ (forall e, e ∈ names -> e ∉ ends net) /\ (forall e, e ∈ ends net' <-> e ∈ names \/ e ∈ ends net) /\
  (forall e, e ∉ names -> connections net' !! e = connections net !! e) /\ servers net' = servers net /\
  (forall k e, names !! k = Some e -> connections net' !! e = Some (Some (ServerName gid (j + k)))) /\
  (forall e, isEnabled net' e = (if decide (e ∈ names) then false else isEnabled net e)).
Proof.
  revert net j. induction names as [|e names IH]; intros net j; simpl.
  { intros [= <-]. split_and!; try done; [constructor|by intros ? ?%elem_of_nil|intros e; rewrite elem_of_nil; tauto]. }
  destruct (MakeEnd e net) as [n1|] eqn:Hm; [|done]. simpl. apply MakeEnd_Some in Hm as (Hn & He & Hc & Hs & Hen).
  intros (Hnd & Hfresh & Hends & Hconn & Hsv & Hnew & Hen')%IH. simpl in *. rewrite He in *.
  assert (Hnot : e ∉ names) by (intros Hin; apply (Hfresh e Hin); set_solver).
  split_and!.
  - by constructor.
  - intros e' [->|H]%elem_of_cons; [done|]. specialize (Hfresh e' H). set_solver.
  - intros e'. rewrite Hends, elem_of_cons. set_solver.
  - intros e' H'. rewrite not_elem_of_cons in H'. rewrite Hconn, Hc, !lookup_insert_ne by naive_solver. done.
  - congruence.
  - intros [|k] e' Hk; simpl in Hk.
    + injection Hk as <-. rewrite Hconn by done. rewrite lookup_insert_eq. by rewrite Nat.add_0_r.
    + rewrite (Hnew k e' Hk). by rewrite Nat.add_succ_r.
  - intros e'. rewrite Hen'. simpl. change (isEnabled (Connect e (ServerName gid j) n1) e') with (isEnabled n1 e'). rewrite Hen.
    destruct (decide (e' ∈ names)) as [H1|H1].
    + by rewrite decide_True by (by right).
    + destruct (decide (e' = e)) as [->|Hne]; [by rewrite decide_True by (by left)|]. rewrite decide_False; [done|]. by intros [?|?]%elem_of_cons.
Qed.

(** Making ends with new names does not fail. *)
Lemma makeEnds_fresh names : forall net gid j, NoDup names -> (forall e, e ∈ names -> e ∉ ends net) -> is_Some (makeEnds net gid j names).
Proof.
  induction names as [|e names IH]; intros net gid j Hnd Hf; simpl; [by eexists|]. apply NoDup_cons in Hnd as [He Hnd].
  unfold MakeEnd. rewrite decide_False by (apply Hf; by left). simpl. apply IH; [done|]. simpl.
  intros e' He'. assert (e' <> e) by (by intros ->). specialize (Hf e' ltac:(by right)). set_solver.
Qed.

(** ** Restart *)

Definition runs_with (sg : ServerGrp) (i : nat) (p : Tester.Persister) : Prop := exists s, srvs sg !! i = Some s /\ dc s = Some p.

Lemma endName_set_server sg i s a b : (i < size sg)%nat ->
  endName (set_server sg i s) a b = if decide (a = i) then endNames s !! b else endName sg a b.
Proof.
  intros Hi. unfold endName. simpl. destruct (decide (a = i)) as [->|Hne]; [by rewrite list_lookup_insert_eq|by rewrite list_lookup_insert_ne].
Qed.

Lemma ShutdownServer_spec sg net i s : grp_ok sg net -> srvs sg !! i = Some s ->
  exists sg' net', ShutdownServer sg net i = Some (sg', net') /\ grp_ok sg' net' /\ size sg' = size sg /\ gid sg' = gid sg /\
    srvs sg' = <[i := shutdownServer s]> (srvs sg) /\ ends net' = ends net /\ connections net' = connections net /\
    (forall n, serverAt net' n = if decide (n = ServerName (gid sg) i) then None else serverAt net n) /\
    (forall j, up sg' j <-> i <> j /\ up sg j) /\
    forall x y, link sg' net' x y <-> link sg net x y /\ x <> i /\ y <> i.
Proof.
  intros Hg Hs. assert (Hi : (i < size sg)%nat) by (by eapply lookup_lt_Some).
  destruct (disconnect_spec sg net i (all sg) Hg Hi) as (sg1 & n1 & Hd & (Hsv & Hgid & Hg1 & He & Hc & Hss) & Hu & Hl).
  { intros j Hj%elem_of_seq. unfold size. lia. }
  unfold ShutdownServer. rewrite Hd. simpl. rewrite Hsv, Hs. simpl.
  assert (Hsz : size sg1 = size sg) by (unfold size; by rewrite Hsv).
  assert (Hnames : forall a b, endName (set_server sg1 i (shutdownServer s)) a b = endName sg1 a b).
  { intros a b. rewrite endName_set_server by lia. destruct (decide (a = i)) as [->|]; [|done].
    unfold endName. rewrite Hsv, Hs. simpl. unfold shutdownServer. by destruct (dc s). }
  assert (Hszs : size (set_server sg1 i (shutdownServer s)) = size sg1) by (unfold size; simpl; by rewrite length_insert).
  eexists _, _. split_and!; [done|..].
  - destruct Hg1. split; [by rewrite Hszs|setoid_rewrite Hnames; rewrite ?Hszs; done..].
  - by rewrite Hszs.
  - done.
  - simpl. by rewrite Hsv.
  - done.
  - done.
  - intros n. rewrite Hgid. unfold serverAt. simpl. rewrite Hss. destruct (decide (n = ServerName (gid sg) i)) as [->|Hne].
    + by rewrite lookup_insert_eq.
    + by rewrite lookup_insert_ne.
  - intros j. rewrite <- Hu. done.
  - intros x y. transitivity (link sg1 n1 x y); [unfold link; by setoid_rewrite Hnames|]. rewrite Hl.
    split; intros (Hlk & H'); split; try done.
    + destruct Hlk as (e & He' & _). destruct (g_bound _ _ Hg x y ltac:(eauto)) as [? ?].
      assert (x ∈ all sg /\ y ∈ all sg) as [? ?] by (unfold size, all in *; rewrite !elem_of_seq; lia). naive_solver.
    + naive_solver.
Qed.

Lemma StartServer_spec sg net i s p names rs sg' net' :
  grp_ok sg net -> srvs sg !! i = Some s -> default Tester.empty (saved s) = p -> length names = size sg ->
  StartServer sg net i names true rs = Some (sg', net', true) ->
  grp_ok sg' net' /\ srvs sg' = <[i := mkSrvr names (Some p) (Some p)]> (srvs sg) /\ size sg' = size sg /\
    gid sg' = gid sg /\ connected sg' = connected sg /\ (forall e, e ∈ ends net' <-> e ∈ names \/ e ∈ ends net) /\
    (forall e, e ∈ ends net -> (e ∉ names) /\ connections net' !! e = connections net !! e) /\
    (forall n, serverAt net' n = if decide (n = ServerName (gid sg) i) then Some rs else serverAt net n) /\
    forall x y, link sg' net' x y <-> link sg net x y /\ x <> i.
Proof.
  intros Hg Hs Hsaved Hlen. assert (Hi : (i < size sg)%nat) by (by eapply lookup_lt_Some).
  unfold StartServer, startServer, makeServer. rewrite Hs. simpl.
  destruct (makeEnds net (gid sg) 0 names) as [n1|] eqn:Hm; [|done]. simpl. rewrite Hsaved. intros [= <- <-].
  apply makeEnds_spec in Hm as (Hnd & Hfresh & Hends & Hconn & Hsv & Hnew & Hen).
  set (s' := mkSrvr names (Some p) (Some p)).
  assert (Hold : forall a b e, endName sg a b = Some e -> e ∉ names).
  { intros a b e He Hin. by apply (Hfresh e Hin), (g_made _ _ Hg a b). }
  assert (Hszs : size (set_server sg i s') = size sg) by (unfold size; simpl; by rewrite length_insert).
  pose proof (endName_set_server sg i s') as Hnames. split_and!.
  - destruct Hg. split; simpl; rewrite ?Hszs; try done; intros a b; rewrite ?Hnames by done.
    + intros Ha Hb. rewrite ?Hnames by done. destruct (decide (a = i)); [|by apply g_ends0]. apply lookup_lt_is_Some_2. simpl. lia.
    + rewrite ?Hnames by done. destruct (decide (a = i)) as [->|]; [|by apply g_bound0]. intros [e He%lookup_lt_Some]. simpl in He. lia.
    + intros a' b' e. rewrite ?Hnames by done. destruct (decide (a = i)) as [->|], (decide (a' = i)) as [->|]; simpl.
      * intros H1 H2. split; [done|]. by eapply NoDup_lookup.
      * intros H1%list_elem_of_lookup_2 H2. by destruct (Hold a' b' e H2).
      * intros H1 H2%list_elem_of_lookup_2. by destruct (Hold a b e H1).
      * apply g_inj0.
    + intros e. rewrite ?Hnames, Hends by done. destruct (decide (a = i)); simpl; [intros H1%list_elem_of_lookup_2; by left|eauto].
    + intros e. rewrite ?Hnames by done. destruct (decide (a = i)); simpl; [apply Hnew|]. intros H1. rewrite Hconn by eauto. eauto.
  - done.
  - done.
  - done.
  - done.
  - done.
  - intros e He. assert (e ∉ names) by (intros Hin; by apply (Hfresh e Hin)). split; [done|]. by apply Hconn.
  - intros n. unfold serverAt. simpl. rewrite Hsv. destruct (decide (n = ServerName (gid sg) i)) as [->|Hne].
    + by rewrite lookup_insert_eq.
    + by rewrite lookup_insert_ne.
  - intros x y. unfold link. setoid_rewrite Hnames; [|done..].
    change (isEnabled (AddServer (ServerName (gid sg) i) rs n1)) with (isEnabled n1). setoid_rewrite Hen. split.
    + intros (e & He & Hon). destruct (decide (x = i)) as [->|Hne].
      * simpl in He. apply list_elem_of_lookup_2 in He. by rewrite decide_True in Hon.
      * split; [|done]. exists e. by destruct (decide (e ∈ names)).
    + intros [(e & He & Hon) Hne]. exists e. rewrite !decide_False by eauto. done.
Qed.

(** ** New groups *)

Lemma makeServers_spec net gid names net' l : makeServers net gid names = Some (net', l) ->
  l = (fun ns => mkSrvr ns None None) <$> names /\
  (forall a ns b a' ns' b' e, names !! a = Some ns -> ns !! b = Some e -> names !! a' = Some ns' -> ns' !! b' = Some e -> a = a' /\ b = b') /\
  (forall a ns b e, names !! a = Some ns -> ns !! b = Some e ->
     (e ∉ ends net) /\ e ∈ ends net' /\ connections net' !! e = Some (Some (ServerName gid b)) /\ isEnabled net' e = false) /\
  (forall e, e ∈ ends net -> e ∈ ends net' /\ connections net' !! e = connections net !! e /\ isEnabled net' e = isEnabled net e).
Proof.
  revert net l. induction names as [|ns names IH]; intros net l; simpl.
  { intros [= <- <-]. done. }
  unfold makeServer. destruct (makeEnds net gid 0 ns) as [n1|] eqn:Hm; [|done]. simpl.
  destruct (makeServers n1 gid names) as [[n2 l2]|] eqn:Hms; [|done]. simpl. intros [= <- <-].
  apply makeEnds_spec in Hm as (Hnd & Hfresh & Hends & Hconn & _ & Hnew & Hen).
  apply IH in Hms as (-> & Hinj & Hmade & Hkeep).
  assert (Hfirst : forall b e, ns !! b = Some e -> e ∈ ends n1) by (intros b e He; apply Hends; left; by eapply list_elem_of_lookup_2).
  split_and!; [done|..].
  - intros [|a] x b [|a'] x' b' e Ha Hb Ha' Hb'; simpl in *; simplify_eq.
    + split; [done|]. by eapply NoDup_lookup.
    + destruct (Hmade _ _ _ _ Ha' Hb') as (Hno & _). by destruct Hno; eapply Hfirst.
    + destruct (Hmade _ _ _ _ Ha Hb) as (Hno & _). by destruct Hno; eapply Hfirst.
    + destruct (Hinj _ _ _ _ _ _ _ Ha Hb Ha' Hb') as [-> ->]. done.
  - intros [|a] x b e Ha Hb; simpl in *; simplify_eq.
    + destruct (Hkeep e (Hfirst b e Hb)) as (Hin & Hc & He). split_and!; [|done|..].
      * apply Hfresh. by eapply list_elem_of_lookup_2.
      * rewrite Hc. by apply Hnew.
      * rewrite He, Hen. apply decide_True. by eapply list_elem_of_lookup_2.
    + destruct (Hmade _ _ _ _ Ha Hb) as (Hno & ? & ? & ?). split_and!; [|done..]. intros Hin. apply Hno, Hends. by right.
  - intros e He. destruct (Hkeep e) as (? & Hc & Hi); [apply Hends; by right|].
    assert (e ∉ ns) by (intros Hin; by apply (Hfresh e Hin)). split_and!; [done|..].
    + rewrite Hc. by apply Hconn.
    + rewrite Hi, Hen. by apply decide_False.
Qed.

Lemma makeSrvGrp_ok net gid names net' sg : makeSrvGrp net gid names = Some (net', sg) ->
  (forall ns, ns ∈ names -> length ns = length names) ->
  grp_ok sg net' /\ size sg = length names /\ (forall i, ~ up sg i) /\ forall a b, ~ link sg net' a b.
Proof.
  unfold makeSrvGrp. destruct (makeServers net gid names) as [[n1 l]|] eqn:Hm; [|done]. simpl. intros [= <- <-] Hlen.
  apply makeServers_spec in Hm as (-> & Hinj & Hmade & _).
  set (sg := mkGrp _ _ _). assert (Hsz : size sg = length names) by (unfold size; simpl; by rewrite length_fmap).
  assert (Hnm : forall a b e, endName sg a b = Some e <-> exists ns, names !! a = Some ns /\ ns !! b = Some e).
  { intros a b e. unfold endName. simpl. rewrite list_lookup_fmap. destruct (names !! a); simpl; naive_solver. }
  split_and!; [|done|..].
  - split; simpl; try setoid_rewrite Hnm; rewrite ?Hsz; try done.
    + by rewrite length_replicate.
    + intros a b Ha Hb. destruct (lookup_lt_is_Some_2 names a Ha) as [ns Hns].
      assert (b < length ns)%nat by (rewrite (Hlen ns); [done|by eapply list_elem_of_lookup_2]).
      destruct (lookup_lt_is_Some_2 ns b) as [e He]; [done|]. exists e. apply Hnm. eauto.
    + intros a b [e (ns & Ha & Hb)%Hnm]. pose proof (lookup_lt_Some _ _ _ Ha). pose proof (lookup_lt_Some _ _ _ Hb) as Hb'.
      rewrite (Hlen ns) in Hb' by (by eapply list_elem_of_lookup_2). done.
    + intros a b a' b' e (ns & Ha & Hb) (ns' & Ha' & Hb'). by eapply Hinj.
    + intros a b e (ns & Ha & Hb). by destruct (Hmade _ _ _ _ Ha Hb) as (_ & ? & _).
    + intros a b e (ns & Ha & Hb). by destruct (Hmade _ _ _ _ Ha Hb) as (_ & _ & ? & _).
  - intros i Hup. unfold up in Hup. simpl in Hup. by apply lookup_replicate in Hup as [? _].
  - intros a b (e & (ns & Ha & Hb)%Hnm & Hen). destruct (Hmade _ _ _ _ Ha Hb) as (_ & _ & _ & Hoff). congruence.
Qed.

(** A partition cuts the group exactly in two.  From whatever connections it
    had, a group of 2k+1 servers is split by [MakePartition] into a majority and
    a minority with the given leader; after [Partition] two servers reach each other
    exactly when they are in the same part, so the leader reaches no majority;
    and [ConnectAll] restores every link. *)
Theorem partition_isolates_leader sg net k l :
  grp_ok sg net -> size sg = (2 * k + 1)%nat -> (0 < k)%nat -> (l < size sg)%nat ->
  exists p1 p2 sg1 net1 sg2 net2,
    MakePartition sg l = Some (p1, p2) /\ Partition sg net p1 p2 = Some (sg1, net1) /\ ConnectAll sg1 net1 = Some (sg2, net2) /\
    length p1 = (k + 1)%nat /\ l ∈ p2 /\ p1 ++ p2 ≡ₚ seq 0 (size sg) /\
    (forall a b, (a < size sg)%nat -> (b < size sg)%nat -> link sg1 net1 a b <-> (a ∈ p1 <-> b ∈ p1)) /\
    (forall a b, (a < size sg)%nat -> (b < size sg)%nat -> link sg2 net2 a b).
Proof.
  intros Hg Hn Hk Hl. destruct (MakePartition_spec sg l k Hn Hk Hl) as (p1 & p2 & Hm & H1 & H2 & Hin & Hp).
  assert (Hel : forall a, a ∈ p1 \/ a ∈ p2 <-> (a < size sg)%nat).
  { intros a. rewrite <- elem_of_app, Hp, elem_of_seq. lia. }
  destruct (partition_spec sg net p1 p2 Hg) as (sg1 & n1 & Hpt & Hr & Hlk).
  { intros a Ha. apply Hel. by left. }
  { intros a Ha. apply Hel. by right. }
  { assert (Hnd : NoDup (p1 ++ p2)) by (rewrite Hp; apply NoDup_seq). apply NoDup_app in Hnd as (_ & Hd & _). done. }
  destruct (ConnectAll_spec sg1 n1) as (sg2 & n2 & Hc & _ & Hall); [by destruct Hr as (_ & _ & ? & _)|].
  exists p1, p2, sg1, n1, sg2, n2. split_and!; [done..| |].
  - intros a b Ha Hb. apply Hlk; by apply Hel.
  - intros a b Ha Hb. apply Hall; by rewrite (relinked_size _ _ _ _ Hr).
Qed.

(** One round of the [Partitioner] of [kvtest1/kvtest.go]: the servers are spread
    over two sides by the random bits [a], and the group is split so. *)
Definition side (a : list bool) (i : bool) : list nat := filter (fun j => a !! j = Some i) (seq 0 (length a)).

Definition Partitioner_round (sg : ServerGrp) (net : Network) (a : list bool) : option (ServerGrp * Network) :=
  Partition sg net (side a false) (side a true).

Lemma side_spec a i j : j ∈ side a i <-> a !! j = Some i.
Proof.
  unfold side. rewrite list_elem_of_filter, elem_of_seq. split; [by intros [? _]|]. intros Hj. apply lookup_lt_Some in Hj as Hl. split; [done|lia].
Qed.

(** After a round two servers reach each other exactly when they got the same bit,
    whatever was connected before. *)
Theorem partitioner_splits sg net a : grp_ok sg net -> length a = size sg ->
  exists sg' net', Partitioner_round sg net a = Some (sg', net') /\ grp_ok sg' net' /\
    forall i j bi bj, a !! i = Some bi -> a !! j = Some bj -> link sg' net' i j <-> bi = bj.
Proof.
  intros Hg Ha. assert (Hr : forall i, in_range sg (side a i)) by (intros i j Hj%side_spec; apply lookup_lt_Some in Hj; lia).
  destruct (partition_spec sg net (side a false) (side a true) Hg) as (sg' & net' & Hp & Hrel & Hl); [done..| |].
  { intros j Hj%side_spec Hj'%side_spec. congruence. }
  exists sg', net'. split_and!; [done|by destruct Hrel as (_ & _ & ? & _)|]. intros i j bi bj Hi Hj.
  rewrite Hl; [|rewrite !side_spec; destruct bi; auto|rewrite !side_spec; destruct bj; auto].
  rewrite !side_spec, Hi, Hj. destruct bi, bj; naive_solver.
Qed.

(** A server that is stopped and started again resumes from what its persister
    held, under its old name and a new process; once connected it reaches every
    server that is up, and is reached by it. *)
Theorem restart_resumes sg net i p sg1 net1 names rs sg2 net2 :
  grp_ok sg net -> runs_with sg i p -> ShutdownServer sg net i = Some (sg1, net1) ->
  length names = size sg -> StartServer sg1 net1 i names true rs = Some (sg2, net2, true) ->
  exists sg3 net3, ConnectOne sg2 net2 i = Some (sg3, net3) /\ grp_ok sg3 net3 /\ runs_with sg3 i p /\
    serverAt net3 (ServerName (gid sg) i) = Some rs /\
    forall j, (j < size sg)%nat -> up sg j \/ j = i -> link sg3 net3 i j /\ link sg3 net3 j i.
Proof.
  intros Hg Hrun Hsd Hlen Hst.
  destruct Hrun as (s & Hs & Hdc). assert (Hi : (i < size sg)%nat) by (by eapply lookup_lt_Some).
  destruct (ShutdownServer_spec sg net i s Hg Hs) as (s1 & n1 & Hsd' & Hg1 & Hsz1 & Hgid1 & Hsv1 & _ & _ & _ & Hup1 & _).
  simplify_eq. assert (Hs1 : srvs sg1 !! i = Some (shutdownServer s)) by (rewrite Hsv1; by apply list_lookup_insert_eq).
  destruct (StartServer_spec sg1 net1 i _ p names rs sg2 net2 Hg1 Hs1) as (Hg2 & Hr2 & Hsz2 & _ & Hc2 & _ & _ & Hsa & _); [|lia|done|].
  { unfold shutdownServer. rewrite Hdc. by destruct p. }
  assert (Hi1 : (i < size sg1)%nat) by lia.
  destruct (connect_spec sg2 net2 i (all sg2) Hg2 ltac:(lia)) as (sg3 & n3 & Hc & (Hsv & _ & Hg3 & (_ & _ & Hsrv)) & Hup & Hl).
  { intros j Hj%elem_of_seq. unfold size. lia. }
  assert (Hin : forall j, (j < size sg2)%nat -> j ∈ all sg2) by (intros j Hj; apply elem_of_seq; unfold size in Hj; lia).
  exists sg3, n3. split_and!; [done|done|..].
  - eexists. rewrite Hsv, Hr2. split; [by apply list_lookup_insert_eq|done].
  - specialize (Hsa (ServerName (gid sg) i)). rewrite Hgid1, decide_True in Hsa by done. unfold serverAt in *. by rewrite Hsrv.
  - intros j Hj Hor. assert (Hu3 : up sg3 j).
    { apply Hup. destruct (decide (i = j)) as [|Hne]; [by left|right]. destruct Hor as [Hor| ->]; [|done].
      unfold up. rewrite Hc2. apply Hup1. done. }
    assert (Hj2 : j ∈ all sg2) by (apply Hin; lia). split; apply Hl; tauto.
Qed.

(** ** Clients *)

(** The ends a clerk has made, by server; [None] stands for a nil [srvs]. *)
Record Clnt := mkClnt { c_ends : gmap string string; c_srvs : option (list string) }.

Definition makeClntTo (servers : option (list string)) : Clnt := mkClnt ∅ servers.

Definition allowedL (c : Clnt) (server : string) : bool :=
  match c_srvs c with None => true | Some l => bool_decide (server ∈ l) end.

(** [name] is the random name of a new end. *)
Definition makeEnd (c : Clnt) (net : Network) (server name : string) : option (Clnt * Network * string) :=
  match c_ends c !! server with
  | Some e => Some (c, net, e)
  | None =>
      net ← MakeEnd name net;
      let net := Enable name (allowedL c server) (Connect name server net) in
      Some (mkClnt (<[server := name]> (c_ends c)) (c_srvs c), net, name)
  end.

(** [Enable] on the ends to some of the servers. *)
Definition enableEnds (c : Clnt) (which : string -> bool) (yes : bool) (net : Network) : Network :=
  foldr (fun '(s, e) net => if which s then Enable e yes net else net) net (map_to_list (c_ends c)).

Definition Clnt_ConnectAll (c : Clnt) (net : Network) : Clnt * Network :=
  (mkClnt (c_ends c) None, enableEnds c (fun _ => true) true net).

Definition ConnectTo (c : Clnt) (net : Network) (servers : list string) : Clnt * Network :=
  let c := mkClnt (c_ends c) (Some servers) in (c, enableEnds c (allowedL c) true net).

Definition Disconnect (c : Clnt) (net : Network) (srv : string) : Clnt * Network :=
  (c, enableEnds c (fun s => bool_decide (s = srv)) false net).

Definition Clnt_DisconnectAll (c : Clnt) (net : Network) : Clnt * Network :=
  (mkClnt (c_ends c) (Some []), enableEnds c (fun _ => true) false net).

(** The ends in use are apart, and lead to their servers. *)
Record clnt_ok (c : Clnt) (net : Network) : Prop := {
  n_inj s s' e : c_ends c !! s = Some e -> c_ends c !! s' = Some e -> s = s';
  n_made s e : c_ends c !! s = Some e -> e ∈ ends net /\ connections net !! e = Some (Some s)
}.

(** A client reaches exactly the servers it is allowed to. *)
Definition reaches_allowed (c : Clnt) (net : Network) : Prop :=
  forall s e, c_ends c !! s = Some e -> isEnabled net e = allowedL c s.

Lemma enableEnds_spec c which yes net : clnt_ok c net ->
  same_net net (enableEnds c which yes net) /\
  forall s e, c_ends c !! s = Some e -> isEnabled (enableEnds c which yes net) e = if which s then yes else isEnabled net e.
Proof.
  intros Hc. unfold enableEnds. pose proof (NoDup_fst_map_to_list (c_ends c)) as Hnd.
  assert (Hin : forall s e, (s, e) ∈ map_to_list (c_ends c) -> c_ends c !! s = Some e) by (intros s e; by apply elem_of_map_to_list).
  enough (same_net net (foldr (fun '(s, e) net => if which s then Enable e yes net else net) net (map_to_list (c_ends c))) /\
    forall s e, c_ends c !! s = Some e ->
      isEnabled (foldr (fun '(s, e) net => if which s then Enable e yes net else net) net (map_to_list (c_ends c))) e =
      if decide ((s, e) ∈ map_to_list (c_ends c)) then if which s then yes else isEnabled net e else isEnabled net e) as [? H].
  { split; [done|]. intros s e He. rewrite (H s e He). apply decide_True. by apply elem_of_map_to_list. }
  induction (map_to_list (c_ends c)) as [|[s e] l IH]; simpl; [done|].
  apply NoDup_cons in Hnd as [Hn Hnd]. destruct IH as [Hs IH]; [done|intros; apply Hin; by right|].
  set (n1 := foldr _ net l) in *. assert (Hse : c_ends c !! s = Some e) by (apply Hin; by left). split.
  { destruct (which s); done. }
  intros s' e' He'. destruct (decide (s' = s)) as [->|Hne].
  - assert (e' = e) as -> by congruence. rewrite decide_True by (by left). specialize (IH s e He'). rewrite decide_False in IH.
    + destruct (which s); [|done]. rewrite isEnabled_Enable. by rewrite decide_True.
    + intros Hin'. apply Hn. by apply (list_elem_of_fmap_2 fst _ (s, e)).
  - assert (e <> e') by (intros <-; apply Hne; by eapply (n_inj _ _ Hc)).
    assert (Hen : isEnabled (if which s then Enable e yes n1 else n1) e' = isEnabled n1 e').
    { destruct (which s); [|done]. rewrite isEnabled_Enable. by rewrite decide_False. }
    rewrite Hen, (IH s' e' He'). destruct (decide ((s', e') ∈ l)) as [H'|H'].
    + by rewrite decide_True by (by right).
    + rewrite decide_False; [done|]. intros [[=]|?]%elem_of_cons; done.
Qed.

Lemma clnt_ok_net c c' net net' : clnt_ok c net -> c_ends c' = c_ends c -> same_net net net' -> clnt_ok c' net'.
Proof. intros [H1 H2] He (Hn & Hc & _). split; rewrite He; [done|]. rewrite Hn, Hc. done. Qed.

(** The clients' operations keep them connected to exactly the allowed servers;
    [ConnectTo] does when it is preceded by [Clnt_DisconnectAll]. *)
Theorem clients_reach_allowed c net servers : clnt_ok c net ->
  (let '(c1, net1) := Clnt_ConnectAll c net in clnt_ok c1 net1 /\ reaches_allowed c1 net1) /\
  (let '(c1, net1) := Clnt_DisconnectAll c net in clnt_ok c1 net1 /\ reaches_allowed c1 net1 /\
   let '(c2, net2) := ConnectTo c1 net1 servers in clnt_ok c2 net2 /\ reaches_allowed c2 net2) /\
  (forall server name c1 net1 e, makeEnd c net server name = Some (c1, net1, e) -> reaches_allowed c net ->
     clnt_ok c1 net1 /\ reaches_allowed c1 net1 /\ c_ends c1 !! server = Some e).
Proof.
  intros Hc. split_and!.
  - destruct (enableEnds_spec c (fun _ => true) true net Hc) as [Hs He]. split; [by eapply clnt_ok_net|].
    intros s e H. rewrite (He s e H). done.
  - destruct (enableEnds_spec c (fun _ => true) false net Hc) as [Hs He]. simpl.
    assert (Hc1 : clnt_ok (mkClnt (c_ends c) (Some [])) (enableEnds c (fun _ => true) false net)) by (by eapply clnt_ok_net).
    split; [done|]. split.
    { intros s e H. rewrite (He s e H). done. }
    set (c2 := mkClnt (c_ends c) (Some servers)). set (net1 := enableEnds c _ _ _) in *.
    assert (Hc2 : clnt_ok c2 net1) by (by eapply clnt_ok_net).
    destruct (enableEnds_spec c2 (allowedL c2) true net1 Hc2) as [Hs2 He2]. split; [by eapply clnt_ok_net|].
    intros s e H. rewrite (He2 s e H). destruct (allowedL c2 s); [done|]. by apply (He s e).
  - intros server name c1 net1 e. unfold makeEnd. destruct (c_ends c !! server) as [e0|] eqn:He0.
    { intros [= <- <- <-] Hr. done. }
    destruct (MakeEnd name net) as [n1|] eqn:Hm; [|done]. simpl. intros [= <- <- <-] Hr.
    apply MakeEnd_Some in Hm as (Hn & Hends & Hconn & _ & Hen).
    assert (Hfresh : forall s e, c_ends c !! s = Some e -> e <> name) by (intros s e H ->; by destruct (n_made _ _ Hc s name H)).
    split_and!; [split; simpl|..].
    + intros s s' e H H'. apply lookup_insert_Some in H as [[Hs He]|[Hne H]], H' as [[Hs' He']|[Hne' H']].
      * congruence.
      * subst e. by destruct (Hfresh _ _ H').
      * subst e. by destruct (Hfresh _ _ H).
      * by eapply (n_inj _ _ Hc).
    + intros s e [[<- <-]|[Hne H]]%lookup_insert_Some; rewrite Hends.
      * rewrite lookup_insert_eq. set_solver.
      * destruct (n_made _ _ Hc s e H) as [Hin Hco]. pose proof (Hfresh s e H). rewrite Hconn, !lookup_insert_ne by done. set_solver.
    + intros s e H. simpl in H. rewrite isEnabled_Enable. apply lookup_insert_Some in H as [[<- <-]|[Hne H]].
      * by rewrite decide_True.
      * pose proof (Hfresh s e H). rewrite decide_False by done.
        change (isEnabled (Connect name server n1) e) with (isEnabled n1 e). rewrite Hen, decide_False by done. by apply Hr.
    + simpl. by rewrite lookup_insert_eq.
Qed.

(** ** Five servers *)

Module GroupsDemo.

Definition names (n : nat) : list (list string) :=
  (fun a => (fun b => "end-" +:+ pretty a +:+ "-" +:+ pretty b)%string <$> seq 0 n) <$> seq 0 n.

Definition made (n : nat) : option (Network * ServerGrp) := makeSrvGrp MakeNetwork 0 (names n).
Definition net (n : nat) : Network := default MakeNetwork (fst <$> made n).
Definition grp (n : nat) : ServerGrp := default (mkGrp [] 0 []) (snd <$> made n).

Lemma grp5_ok : grp_ok (grp 5) (net 5).
Proof.
  assert (Hm : made 5 = Some (net 5, grp 5)).
  { assert (Hs : is_Some (made 5)) by (vm_compute; eauto). destruct Hs as [[n g] Hs]. unfold net, grp. by rewrite Hs. }
  apply (makeSrvGrp_ok _ _ _ _ _ Hm). apply Forall_forall. apply (bool_decide_unpack _). vm_compute. exact I.
Qed.

(** Server 1 is put into the minority with server 4. *)
Lemma partition_isolates_leader_witness :
  exists p1 p2, MakePartition (grp 5) 1 = Some (p1, p2) /\ 1%nat ∈ p2 /\
    exists sg net1, Partition (grp 5) (net 5) p1 p2 = Some (sg, net1) /\ ~ link sg net1 1 0.
Proof.
  destruct (partition_isolates_leader (grp 5) (net 5) 2 1 grp5_ok) as (p1 & p2 & sg1 & n1 & _ & _ & Hm & Hp & _ & _ & Hin & _ & Hl & _).
  - vm_compute. reflexivity.
  - lia.
  - vm_compute. lia.
  - exists p1, p2. split; [exact Hm|]. split; [exact Hin|]. exists sg1, n1. split; [exact Hp|]. intros Hlk.
    apply Hl in Hlk; [|vm_compute; lia|vm_compute; lia].
    assert (Hc : MakePartition (grp 5) 1 = Some ([0; 2; 3], [4; 1])%nat) by (vm_compute; reflexivity).
    rewrite Hc in Hm. injection Hm as <- <-. assert (1%nat ∈ [0; 2; 3]%nat) as Habs by (apply Hlk; by left).
    revert Habs. rewrite !elem_of_cons, elem_of_nil. lia.
Defined.

(** With an even number of servers the two parts have one place too many, and
    server 0 is in both of them. *)
Example even_partition_overlaps : MakePartition (grp 4) 3 = Some ([0; 1; 2], [0; 3])%nat.
Proof. vm_compute. reflexivity. Qed.

(** [ConnectTo] does not cut off the servers that it does not name. *)
Definition c0 : Clnt := makeClntTo None.
Definition c1 : option (Clnt * Network * string) := makeEnd c0 MakeNetwork "server-0-0" "e".

Example connect_to_only_adds :
  match c1 with
  | Some (c, net, e) => let '(c, net) := ConnectTo c net ["server-0-1"] in allowedL c "server-0-0" = false /\ isEnabled net e = true
  | None => False
  end.
Proof. vm_compute. done. Qed.

End GroupsDemo.
