(* ===== verification/Annotation.v ===== *)
(** * Annotations of the tests

    [tester1/annotation.go]: the annotations that are drawn beside the history of a
    test.  The package variables [annotation] and [finfo] are the state; the clock is
    an argument of every operation that reads it.

    The theorems: the fault that is drawn is the one the servers have; continuous
    annotations of a tag follow each other without overlap.  Two operations do not
    do what their comments say. *)

From stdpp Require Import pretty sorting.
From S2P Require Import Prelude.

(** porcupine's; [End] is 0 for a point in time. *)
Record annot := mkAnnot {
  Tag : string; Start : Z; End_ : Z; Description : string; Details : string; BackgroundColor : string
}.

Record Continuous := mkCont { c_start : Z; c_desp : string; c_details : string; c_bgcolor : string }.

Record Annotation := mkAn { annotations : list annot; continuous : gmap string Continuous; finalized : bool }.

Record CheckerBegin := mkCb { ck_ts : Z; ck_details : string }.

Record FrameworkInfo := mkFi { nservers : nat; connected : list bool; crashed : list bool; ckbegin : CheckerBegin }.

(** The two variables. *)
Record anstate := mkAnst { an : Annotation; finfo : FrameworkInfo }.

Definition COLOR_INFO := "#FAFAFA".
Definition COLOR_NEUTRAL := "#FFECB3".
Definition COLOR_SUCCESS := "#C8E6C9".
Definition COLOR_FAILURE := "#FFCDD2".
Definition COLOR_FAULT := "#B3E5FC".
Definition COLOR_USER := "#FFF176".
Definition TAG_CHECKER := "$ Checker".
Definition TAG_PARTITION := "$ Failure".
Definition TAG_INFO := "$ Test Info".

(** ** Annotation *)

Definition mkAnnotation : Annotation := mkAn [] ∅ false.

Definition clear (a : Annotation) : Annotation := mkAn [] ∅ false.

Definition add (a : Annotation) (x : annot) : Annotation := mkAn (annotations a ++ [x]) (continuous a) (finalized a).

Definition annotatePointColor (a : Annotation) (t : Z) (tag desp details bgcolor : string) : Annotation :=
  add a (mkAnnot tag t 0 desp details bgcolor).

Definition annotateIntervalColor (a : Annotation) (t : Z) (tag : string) (start : Z) (desp details bgcolor : string) : Annotation :=
  add a (mkAnnot tag start t desp details bgcolor).

(** A continuous annotation, ended. *)
Definition concrete (tag : string) (cont : Continuous) (t : Z) : annot :=
  mkAnnot tag (c_start cont) t (c_desp cont) (c_details cont) (c_bgcolor cont).

Definition annotateContinuousColor (a : Annotation) (t : Z) (tag desp details bgcolor : string) : Annotation :=
  let new := <[tag := mkCont t desp details bgcolor]> (continuous a) in
  match continuous a !! tag with
  | None => mkAn (annotations a) new (finalized a)
  | Some cont => mkAn (annotations a ++ [concrete tag cont t]) new (finalized a)
  end.

(** Without an entry [cont] is the zero value: the test for it has no effect. *)
Definition annotateContinuousEnd (a : Annotation) (t : Z) (tag : string) : Annotation :=
  let cont := default (mkCont 0 "" "" "") (continuous a !! tag) in
  mkAn (annotations a ++ [concrete tag cont t]) (delete tag (continuous a)) (finalized a).

(** The ongoing annotations in the order in which the map is visited. *)
Definition finalize (a : Annotation) (t : Z) : list annot * Annotation :=
  (annotations a ++ ((fun '(tag, cont) => concrete tag cont t) <$> map_to_list (continuous a)),
   mkAn (annotations a) (continuous a) true).

Definition FinalizeAnnotations (a : Annotation) (t t' : Z) (end_ : string) : list annot * Annotation :=
  let '(x, a) := finalize a t in (x ++ [mkAnnot TAG_INFO t' 0 end_ end_ COLOR_INFO], a).

Definition SetAnnotationFinalized (a : Annotation) : Annotation := mkAn (annotations a) (continuous a) true.
Definition GetAnnotationFinalized (a : Annotation) : bool := finalized a.

(** The annotations that are visualized, if a file is written; [opened]: it could be
    opened. *)
Definition cleanup (a : Annotation) (t t' : Z) (enabled : string) (opened failed : bool) (end_ : string) : option (list annot) * Annotation :=
  if decide (enabled = "never" \/ (failed = false /\ enabled <> "always") \/ finalized a = true) then (None, clear a)
  else
    let '(x, a) := finalize a t in
    if decide (x = []) then (None, a)
    else ((if opened then Some (x ++ [mkAnnot TAG_INFO t' 0 end_ end_ COLOR_INFO]) else None), a).

(** Whether or not anything is drawn, the annotations of one test are not drawn for
    the next one. *)
Lemma cleanup_settles a t t' enabled opened failed end_ :
  let '(_, a') := cleanup a t t' enabled opened failed end_ in annotations a' = [] \/ finalized a' = true.
Proof. unfold cleanup, finalize. destruct (decide _); [by left|]. destruct (decide _); by right. Qed.

(** ** The state of the servers *)

Definition mkFrameworkInfo (n : nat) : FrameworkInfo := mkFi n (replicate n true) (replicate n false) (mkCb 0 "").

(** fmt's [%v] of a slice of ints. *)
Definition show_ints (l : list nat) : string := ("[" +:+ String.concat " " (pretty <$> l) +:+ "]")%string.

(** The text of [annotateFault]: the disconnected servers, each in brackets, then the
    connected ones, then the crashed ones. *)
Definition fault_text (f : FrameworkInfo) : string :=
  let ids := imap (fun id b => (id, b, default false (crashed f !! id))) (connected f) in
  let crashes := (fun x => fst (fst x)) <$> filter (fun x : nat * bool * bool => snd x = true) ids in
  let alive := filter (fun x : nat * bool * bool => snd x = false) ids in
  let conn := (fun x => fst (fst x)) <$> filter (fun x : nat * bool * bool => snd (fst x) = true) alive in
  let alone := (fun x => fst (fst x)) <$> filter (fun x : nat * bool * bool => snd (fst x) = false) alive in
  ("partition = " +:+ String.concat "" ((fun id => "[" +:+ pretty id +:+ "] ")%string <$> alone) +:+
   (if decide (conn = []) then "" else show_ints conn) +:+
   (if decide (crashes = []) then "" else " / crash = " +:+ show_ints crashes))%string.

(** No partition and no crash. *)
Definition healthy (f : FrameworkInfo) : bool :=
  bool_decide (replicate (nservers f) true = connected f /\ replicate (nservers f) false = crashed f).

Definition annotateFault (s : anstate) (t : Z) : anstate :=
  if healthy (finfo s) then mkAnst (annotateContinuousEnd (an s) t TAG_PARTITION) (finfo s)
  else
    let text := fault_text (finfo s) in
    mkAnst (annotateContinuousColor (an s) t TAG_PARTITION text text COLOR_FAULT) (finfo s).

Definition AnnotateTest (s : anstate) (t : Z) (desp : string) (n : nat) : anstate :=
  let details := (desp +:+ " (" +:+ pretty n +:+ " servers)")%string in
  mkAnst (annotatePointColor (clear (an s)) t TAG_INFO details details COLOR_INFO) (mkFrameworkInfo n).

(** [copy] of a slice. *)
Definition copied {A} (dst src : list A) : list A := take (length dst) src ++ drop (length src) dst.

Definition AnnotateConnection (s : anstate) (t : Z) (connection : list bool) : anstate :=
  let f := finfo s in
  if decide (connected f = connection) then s
  else annotateFault (mkAnst (an s) (mkFi (nservers f) (copied (connected f) connection) (crashed f) (ckbegin f))) t.

(** The loop over the servers; [None] is an index out of range. *)
Fixpoint set_crashed (b : bool) (crashed : list bool) (changed : bool) (servers : list nat) : option (list bool * bool) :=
  match servers with
  | [] => Some (crashed, changed)
  | id :: servers =>
      old ← crashed !! id;
      set_crashed b (<[id := b]> crashed) (if Bool.eqb old b then changed else true) servers
  end.

Definition crash_change (b : bool) (s : anstate) (t : Z) (servers : list nat) : option anstate :=
  let f := finfo s in
  '(cr, changed) ← set_crashed b (crashed f) false servers;
  let s := mkAnst (an s) (mkFi (nservers f) (connected f) cr (ckbegin f)) in
  Some (if changed : bool then annotateFault s t else s).

Definition AnnotateShutdown : anstate -> Z -> list nat -> option anstate := crash_change true.
Definition AnnotateRestart : anstate -> Z -> list nat -> option anstate := crash_change false.
Definition AnnotateShutdownAll (s : anstate) (t : Z) : option anstate := AnnotateShutdown s t (seq 0 (nservers (finfo s))).
Definition AnnotateRestartAll (s : anstate) (t : Z) : option anstate := AnnotateRestart s t (seq 0 (nservers (finfo s))).

Definition AnnotateClearFailure (s : anstate) (t : Z) : anstate :=
  let f := finfo s in
  mkAnst (annotateContinuousEnd (an s) t TAG_PARTITION)
    (mkFi (nservers f) ((fun _ => true) <$> connected f) ((fun _ => false) <$> crashed f) (ckbegin f)).

Definition AnnotateTwoPartitions (s : anstate) (t : Z) (p1 p2 : list nat) : anstate :=
  let text := ("partition = " +:+ show_ints p1 +:+ " " +:+ show_ints p2)%string in
  mkAnst (annotateContinuousColor (an s) t TAG_PARTITION text text COLOR_FAULT) (finfo s).

(** ** Checkers *)

Definition AnnotateCheckerBegin (s : anstate) (t : Z) (details : string) : anstate :=
  let f := finfo s in mkAnst (an s) (mkFi (nservers f) (connected f) (crashed f) (mkCb t details)).

(** The timestamp that is reset is that of a copy of [finfo.ckbegin]. *)
Definition AnnotateCheckerEnd (s : anstate) (t : Z) (desp details color : string) : anstate :=
  let ckbegin := ckbegin (finfo s) in
  if decide (ck_ts ckbegin = 0) then mkAnst (annotatePointColor (an s) t TAG_CHECKER desp details color) (finfo s)
  else
    let d := (ck_details ckbegin +:+ ": " +:+ details)%string in
    mkAnst (annotateIntervalColor (an s) t TAG_CHECKER (ck_ts ckbegin) desp d color) (finfo s).

Definition AnnotateCheckerSuccess (s : anstate) (t : Z) (desp details : string) : anstate := AnnotateCheckerEnd s t desp details COLOR_SUCCESS.
Definition AnnotateCheckerFailure (s : anstate) (t : Z) (desp details : string) : anstate := AnnotateCheckerEnd s t desp details COLOR_FAILURE.
Definition AnnotateCheckerNeutral (s : anstate) (t : Z) (desp details : string) : anstate := AnnotateCheckerEnd s t desp details COLOR_NEUTRAL.

(** ** The fault that is drawn *)

Definition info_ok (f : FrameworkInfo) : Prop := length (connected f) = nservers f /\ length (crashed f) = nservers f.

(** The ongoing annotation of [TAG_PARTITION] describes the servers as they are, and
    there is none exactly when nothing is wrong. *)
Definition shown (s : anstate) : Prop :=
  info_ok (finfo s) /\
  match continuous (an s) !! TAG_PARTITION with
  | None => healthy (finfo s) = true
  | Some cont => healthy (finfo s) = false /\ c_desp cont = fault_text (finfo s)
  end.

(** What a test does, [AnnotateTwoPartitions] apart, which the comments exclude. *)
Inductive note : anstate -> anstate -> Prop :=
| N_test s t desp n : note s (AnnotateTest s t desp n)
| N_connection s t connection : note s (AnnotateConnection s t connection)
| N_shutdown s t servers s' : AnnotateShutdown s t servers = Some s' -> note s s'
| N_restart s t servers s' : AnnotateRestart s t servers = Some s' -> note s s'
| N_clear s t : note s (AnnotateClearFailure s t)
| N_begin s t details : note s (AnnotateCheckerBegin s t details)
| N_end s t desp details color : note s (AnnotateCheckerEnd s t desp details color)
| N_point s t tag desp details color : note s (mkAnst (annotatePointColor (an s) t tag desp details color) (finfo s))
| N_interval s t tag start desp details color : note s (mkAnst (annotateIntervalColor (an s) t tag start desp details color) (finfo s))
| N_continuous s t tag desp details color : tag <> TAG_PARTITION ->
    note s (mkAnst (annotateContinuousColor (an s) t tag desp details color) (finfo s))
| N_finalize s t : note s (mkAnst (snd (finalize (an s) t)) (finfo s)).

Lemma annotateFault_shown s t : info_ok (finfo s) -> shown (annotateFault s t).
Proof.
  intros Hi. unfold annotateFault. destruct (healthy (finfo s)) eqn:E; (split; [done|]); simpl.
  - by rewrite lookup_delete_eq.
  - unfold annotateContinuousColor. destruct (continuous (an s) !! TAG_PARTITION); simpl; by rewrite lookup_insert_eq.
Qed.

Lemma copied_length {A} (dst src : list A) : length (copied dst src) = length dst.
Proof. unfold copied. rewrite length_app, length_take, length_drop. lia. Qed.

Lemma set_crashed_spec b cr changed servers cr' changed' : set_crashed b cr changed servers = Some (cr', changed') ->
  length cr' = length cr /\ (changed' = false -> cr' = cr).
Proof.
  revert cr changed. induction servers as [|id servers IH]; intros cr changed; simpl; [by intros [= -> ->]|].
  destruct (cr !! id) as [old|] eqn:E; [simpl|done]. intros H. destruct (IH _ _ H) as [Hl Hc]. rewrite length_insert in Hl. split; [done|].
  intros Hf. rewrite (Hc Hf). apply list_insert_id. rewrite E. f_equal.
  destruct (Bool.eqb old b) eqn:Eb; [by apply Bool.eqb_prop|]. exfalso. clear -H Hf.
  assert (Hmono : forall l c, set_crashed b c true l = Some (cr', changed') -> changed' = true).
  { induction l as [|i l IHl]; intros c; simpl; [by intros [= _ ->]|]. destruct (c !! i) as [o|]; [simpl|done]. destruct (Bool.eqb o b); apply IHl. }
  apply Hmono in H. congruence.
Qed.

Lemma crash_change_shown b s t servers s' : shown s -> crash_change b s t servers = Some s' -> shown s'.
Proof.
  intros [[Hi1 Hi2] Hs]. unfold crash_change. destruct (set_crashed _ _ _ _) as [[cr changed]|] eqn:E; [simpl|done].
  destruct (set_crashed_spec _ _ _ _ _ _ E) as [Hl Hc]. intros [= <-]. destruct changed.
  - apply annotateFault_shown. split; simpl; congruence.
  - rewrite (Hc eq_refl). by destruct s as [a [n c r k]].
Qed.

Lemma healthy_new n k : healthy (mkFi n (replicate n true) (replicate n false) k) = true.
Proof. by apply bool_decide_eq_true_2. Qed.

Lemma note_shown s s' : shown s -> note s s' -> shown s'.
Proof.
  intros Hs Hn. destruct Hn; try done.
  - split; [split; simpl; by rewrite length_replicate|]. simpl. rewrite lookup_empty. apply healthy_new.
  - unfold AnnotateConnection. case_decide; [done|]. apply annotateFault_shown. destruct Hs as [[? ?] _]. split; simpl; [by rewrite copied_length|done].
  - by eapply crash_change_shown.
  - by eapply crash_change_shown.
  - destruct Hs as [[H1 H2] _]. split; [split; simpl; by rewrite length_fmap|]. simpl. rewrite lookup_delete_eq.
    rewrite (const_fmap _ (connected (finfo s)) true), (const_fmap _ (crashed (finfo s)) false), H1, H2 by done. apply healthy_new.
  - unfold AnnotateCheckerEnd. by case_decide.
  - destruct Hs as [Hi Hs]. split; [done|]. simpl. unfold annotateContinuousColor.
    destruct (continuous (an s) !! tag); simpl; by rewrite lookup_insert_ne.
Qed.

(** Whatever a test notes, from its beginning on: the fault that is being drawn is the
    one that the servers have. *)
Theorem fault_shown s0 t desp n s : rtc note (AnnotateTest s0 t desp n) s -> shown s.
Proof.
  intros Hr. assert (H0 : shown (AnnotateTest s0 t desp n)).
  { split; [split; simpl; by rewrite length_replicate|]. simpl. rewrite lookup_empty. apply healthy_new. }
  induction Hr as [|s s' s'' Hn _ IH]; [done|]. by eapply IH, note_shown.
Qed.

(** ** Continuous annotations follow each other *)

Definition precedes (x y : annot) : Prop := End_ x <= Start y.

(** The continuous annotations of [tag], drawn up to the time [now]. *)
Record tiled (tag : string) (a : Annotation) (now : Z) : Prop := {
  t_sorted : StronglySorted precedes (filter (fun x => Tag x = tag) (annotations a));
  t_times x : x ∈ annotations a -> Tag x = tag -> Start x <= End_ x <= now;
  t_open cont : continuous a !! tag = Some cont ->
    c_start cont <= now /\ forall x, x ∈ annotations a -> Tag x = tag -> End_ x <= c_start cont
}.

(** The tag is used for continuous annotations alone, ended only when there is one,
    and the clock does not go back. *)
Inductive draw (tag : string) : Annotation * Z -> Annotation * Z -> Prop :=
| D_change a now t desp details color : now <= t -> draw tag (a, now) (annotateContinuousColor a t tag desp details color, t)
| D_end a now t : now <= t -> is_Some (continuous a !! tag) -> draw tag (a, now) (annotateContinuousEnd a t tag, t)
| D_point a now t tag' desp details color : now <= t -> tag' <> tag -> draw tag (a, now) (annotatePointColor a t tag' desp details color, t)
| D_interval a now t tag' start desp details color : now <= t -> tag' <> tag ->
    draw tag (a, now) (annotateIntervalColor a t tag' start desp details color, t).

Lemma sorted_snoc l x : StronglySorted precedes l -> Forall (fun y => precedes y x) l -> StronglySorted precedes (l ++ [x]).
Proof.
  induction 1 as [|y l Hl IH Hy]; intros Hx; simpl; [by repeat constructor|]. apply Forall_cons in Hx as [Hx Hxs].
  constructor; [by apply IH|]. apply Forall_app. split; [done|by constructor].
Qed.

(** The ongoing annotation is added at time [t]. *)
Lemma concrete_sorted tag a now t cont : tiled tag a now -> now <= t -> continuous a !! tag = Some cont ->
  StronglySorted precedes (filter (fun x => Tag x = tag) (annotations a ++ [concrete tag cont t])).
Proof.
  intros H Ht Hc. destruct (t_open _ _ _ H cont Hc) as [_ Ho]. rewrite filter_app, filter_cons, decide_True by done.
  apply sorted_snoc; [apply (t_sorted _ _ _ H)|]. apply Forall_forall. intros x [Hx Hin]%list_elem_of_filter. by apply Ho.
Qed.

Lemma concrete_times tag a now t cont x : tiled tag a now -> now <= t -> continuous a !! tag = Some cont ->
  x ∈ annotations a ++ [concrete tag cont t] -> Tag x = tag -> Start x <= End_ x <= t.
Proof.
  intros H Ht Hc. rewrite elem_of_app, list_elem_of_singleton. destruct (t_open _ _ _ H cont Hc) as [Hs _].
  intros [Hx| ->] Htag; [pose proof (t_times _ _ _ H x Hx Htag); lia|simpl; lia].
Qed.

Lemma tiled_other tag a now t x : tiled tag a now -> now <= t -> Tag x <> tag -> tiled tag (add a x) t.
Proof.
  intros H Ht Hx. split; simpl.
  - rewrite filter_app, filter_cons, decide_False, app_nil_r by done. apply (t_sorted _ _ _ H).
  - intros y [Hy| ->%list_elem_of_singleton]%elem_of_app Hty; [pose proof (t_times _ _ _ H y Hy Hty); lia|done].
  - intros cont Hc. destruct (t_open _ _ _ H cont Hc) as [? Ho]. split; [lia|].
    intros y [Hy| ->%list_elem_of_singleton]%elem_of_app Hty; [by apply Ho|done].
Qed.

Lemma draw_tiled tag s s' : tiled tag (fst s) (snd s) -> draw tag s s' -> tiled tag (fst s') (snd s').
Proof.
  intros H Hd. destruct Hd as [a now t desp details color Ht|a now t Ht [cont Hc]|a now t tag' desp details color Ht Hne|
    a now t tag' start desp details color Ht Hne]; simpl in *; [| |by eapply tiled_other..].
  - unfold annotateContinuousColor. destruct (continuous a !! tag) as [cont|] eqn:Hc; split; simpl.
    + by eapply concrete_sorted.
    + intros x. by eapply concrete_times.
    + intros c. rewrite lookup_insert_eq. intros [= <-]. simpl. split; [lia|]. intros x Hx Htag.
      eapply (concrete_times tag a now t cont x H) in Hx; [|done..]. lia.
    + apply (t_sorted _ _ _ H).
    + intros x Hx Htag. pose proof (t_times _ _ _ H x Hx Htag). lia.
    + intros c. rewrite lookup_insert_eq. intros [= <-]. simpl. split; [lia|]. intros x Hx Htag. pose proof (t_times _ _ _ H x Hx Htag). lia.
  - unfold annotateContinuousEnd. rewrite Hc. simpl. split; simpl.
    + by eapply concrete_sorted.
    + intros x. by eapply concrete_times.
    + intros c. by rewrite lookup_delete_eq.
Qed.

Lemma filter_key {V} (l : list (string * V)) k : NoDup l.*1 ->
  filter (fun p => fst p = k) l = match (list_to_map l : gmap string V) !! k with Some v => [(k, v)] | None => [] end.
Proof.
  induction l as [|[k' v] l IH]; [done|]. rewrite fmap_cons, NoDup_cons. intros [Hk Hl]. rewrite filter_cons. simpl. case_decide as E.
  - subst k'. rewrite lookup_insert_eq, IH by done. by rewrite not_elem_of_list_to_map_1.
  - by rewrite lookup_insert_ne, IH.
Qed.

(** The ongoing annotation of a tag, if any, is the one that finalizing ends. *)
Lemma concretes_of tag t (m : gmap string Continuous) :
  filter (fun x => Tag x = tag) ((fun '(tag, cont) => concrete tag cont t) <$> map_to_list m) =
  match m !! tag with Some cont => [concrete tag cont t] | None => [] end.
Proof.
  pose proof (filter_key (map_to_list m) tag (NoDup_fst_map_to_list m)) as Hf. rewrite list_to_map_to_list in Hf.
  transitivity ((fun '(tag, cont) => concrete tag cont t) <$> filter (fun p => fst p = tag) (map_to_list m)).
  - clear Hf. induction (map_to_list m) as [|[k c] l IH]; [done|]. rewrite fmap_cons, !filter_cons. simpl.
    case_decide; rewrite IH; done.
  - rewrite Hf. by destruct (m !! tag).
Qed.

(** From a cleared state, what is drawn for a tag when the annotations are finalized
    is a sequence of intervals that do not overlap. *)
Theorem continuous_disjoint tag t0 a now t : rtc (draw tag) (clear mkAnnotation, t0) (a, now) -> now <= t ->
  StronglySorted precedes (filter (fun x => Tag x = tag) (fst (finalize a t))).
Proof.
  intros Hr Ht. assert (H : tiled tag (fst (a, now)) (snd (a, now))).
  { remember (clear mkAnnotation, t0) as s0 eqn:E0. assert (H0 : tiled tag (fst s0) (snd s0)).
    { subst s0. split; simpl; [constructor|by intros x Hx%not_elem_of_nil|]. intros cont. by rewrite lookup_empty. }
    clear E0. induction Hr as [|s s' s'' Hd _ IH]; [done|]. by eapply IH, draw_tiled. }
  simpl in *. rewrite filter_app.
  assert (Hf : filter (fun x => Tag x = tag) ((fun '(tag, cont) => concrete tag cont t) <$> map_to_list (continuous a)) =
    match continuous a !! tag with Some cont => [concrete tag cont t] | None => [] end).
  { apply concretes_of. }
  rewrite Hf. destruct (continuous a !! tag) as [cont|] eqn:Hc; [|rewrite app_nil_r; apply (t_sorted _ _ _ H)].
  pose proof (concrete_sorted tag a now t cont H Ht Hc) as Hs. rewrite filter_app, filter_cons, decide_True in Hs by done. exact Hs.
Qed.

(** ** Where comments and code part *)

(** "Nothing to end": but an annotation from time 0 on, without text, is drawn. *)
Theorem end_without_begin a t tag : continuous a !! tag = None ->
  annotations (annotateContinuousEnd a t tag) = annotations a ++ [mkAnnot tag 0 t "" "" ""].
Proof. intros H. unfold annotateContinuousEnd. by rewrite H. Qed.

(** "Reset the checker begin timestamp": a second end without a begin is drawn from
    the begin of the first. *)
Theorem begin_not_reset s t1 t2 t3 details desp1 d1 desp2 d2 c1 c2 : t1 <> 0 ->
  let s' := AnnotateCheckerEnd (AnnotateCheckerEnd (AnnotateCheckerBegin s t1 details) t2 desp1 d1 c1) t3 desp2 d2 c2 in
  last (annotations (an s')) = Some (mkAnnot TAG_CHECKER t1 t3 desp2 (details +:+ ": " +:+ d2)%string c2).
Proof.
  intros Ht. assert (Hend : forall s0 t desp d c, ck_ts (ckbegin (finfo s0)) = t1 ->
    AnnotateCheckerEnd s0 t desp d c =
    mkAnst (annotateIntervalColor (an s0) t TAG_CHECKER t1 desp (ck_details (ckbegin (finfo s0)) +:+ ": " +:+ d)%string c) (finfo s0)).
  { intros s0 t desp d c E. unfold AnnotateCheckerEnd. rewrite E. by destruct (decide (t1 = 0)). }
  rewrite (Hend (AnnotateCheckerBegin s t1 details)) by done. rewrite Hend by done. simpl. by rewrite last_snoc.
Qed.
