(* ===== verification/Harness.v ===== *)
(** * The tester's configuration

    [tester1/config.go], and what [tester1/group.go], [tester1/srv.go] and
    [tester1/clnts.go] do with all servers of a group, all groups and all
    clients: [MakeConfig] with which a test begins, [Kill], [StartServers] and
    [ExitGroup] in the middle of it, [Cleanup] at its end, and the statistics it
    prints.

    The random names of ends, whether a process came up, and the order in which Go
    visits a map are parameters. *)

From stdpp Require Import pretty.
From S2P Require Import Prelude Annotation PersisterWal Labrpc Groups.

(** ** Sizes of the persistent states; a nil [saved] panics *)

Definition raftSize (s : Server) : option Z :=
  match dc s with
  | Some p => Some (zlen (Tester.raftstate p))
  | None => p ← saved s; Some (zlen (Tester.raftstate p))
  end.

Definition snapshotSize (s : Server) : option Z :=
  match dc s with
  | Some p => Some (Tester.SnapshotSize p)
  | None => p ← saved s; Some (Tester.SnapshotSize p)
  end.

(** The loop of [RaftSize], [SnapshotSize] and [MemSize]. *)
Fixpoint maxSize (size : Server -> option Z) (best : Z) (l : list Server) : option Z :=
  match l with
  | [] => Some best
  | s :: l => n ← size s; maxSize size (if decide (n > best) then n else best) l
  end.

Definition RaftSize (sg : ServerGrp) : option Z := maxSize raftSize 0 (srvs sg).
Definition SnapshotSize (sg : ServerGrp) : option Z := maxSize snapshotSize 0 (srvs sg).

(** [mem] is what the process of a server answers; a server without one panics. *)
Definition MemSize (mem : Server -> Z) (sg : ServerGrp) : option Z :=
  maxSize (fun s => _ ← dc s; Some (mem s)) 0 (srvs sg).

Lemma maxSize_spec f l best n : maxSize f best l = Some n ->
  best <= n /\ (forall s, s ∈ l -> exists k, f s = Some k /\ k <= n) /\ (n = best \/ exists s, s ∈ l /\ f s = Some n).
Proof.
  revert best. induction l as [|s l IH]; intros best; simpl.
  { intros [= <-]. split_and!; [lia| |by left]. by intros s ?%elem_of_nil. }
  destruct (f s) as [k|] eqn:Hk; [|done]. simpl. intros (H1 & H2 & H3)%IH.
  assert (best <= n /\ k <= n) as [? ?] by (destruct (decide (k > best)); lia). split_and!; [done| |].
  - intros s' [->|Hs]%elem_of_cons; [eauto|by apply H2].
  - destruct H3 as [H3|(s' & ? & ?)]; [|right; exists s'; split; [by right|done]].
    destruct (decide (k > best)); [right; exists s; subst; split; [by left|done]|by left].
Qed.

(** ** Whole groups *)

Definition SrvNames (sg : ServerGrp) : list string := ServerName (gid sg) <$> all sg.

Fixpoint SrvNamesTo (sg : ServerGrp) (to : list nat) : option (list string) :=
  match to with
  | [] => Some []
  | i :: to => n ← SrvNames sg !! i; ns ← SrvNamesTo sg to; Some (n :: ns)
  end.

Fixpoint Kill (sg : ServerGrp) (net : Network) (l : list nat) : option (ServerGrp * Network) :=
  match l with
  | [] => Some (sg, net)
  | i :: l => '(sg, net) ← ShutdownServer sg net i; Kill sg net l
  end.

Definition Shutdown (sg : ServerGrp) (net : Network) : option (ServerGrp * Network) := Kill sg net (all sg).

(** What a start meets: new names, whether the process comes up, its handle. *)
Record launch := mkLaunch { la_names : list string; la_up : bool; la_srv : nat }.

(** The error of [StartServer] is not looked at. *)
Fixpoint StartSrvs (sg : ServerGrp) (net : Network) (l : list (nat * launch)) : option (ServerGrp * Network) :=
  match l with
  | [] => Some (sg, net)
  | (i, la) :: l =>
      '(sg, net, _) ← StartServer sg net i (la_names la) (la_up la) (la_srv la);
      StartSrvs sg net l
  end.

Definition StartServers (sg : ServerGrp) (net : Network) (las : list launch) : option (ServerGrp * Network) :=
  '(sg, net) ← StartSrvs sg net (zip (all sg) las);
  ConnectAll sg net.

Lemma ServerName_inj g i j : ServerName g i = ServerName g j -> i = j.
Proof. unfold ServerName. intros H. do 2 apply (inj _) in H. apply (inj _) in H. by apply (inj pretty), Nat2Z.inj in H. Qed.

(** After [Kill] the named servers have no process and keep their state. *)
Lemma Kill_spec l : forall sg net, grp_ok sg net -> in_range sg l ->
  exists sg' net', Kill sg net l = Some (sg', net') /\ grp_ok sg' net' /\ size sg' = size sg /\ gid sg' = gid sg /\
    ends net' = ends net /\ connections net' = connections net /\
    (forall i, srvs sg' !! i = (fun s => if decide (i ∈ l) then shutdownServer s else s) <$> srvs sg !! i) /\
    (forall n, serverAt net' n = None \/ serverAt net' n = serverAt net n) /\
    (forall i, i ∈ l -> serverAt net' (ServerName (gid sg) i) = None) /\ forall i, up sg' i <-> up sg i /\ i ∉ l.
Proof.
  induction l as [|i l IH]; intros sg net Hg Hl; simpl.
  { exists sg, net. split_and!; try done; [intros i; by destruct (srvs sg !! i)|auto|..].
    - by intros i ?%elem_of_nil.
    - intros i. rewrite elem_of_nil. tauto. }
  assert (Hi : (i < size sg)%nat) by (apply Hl; by left). destruct (lookup_lt_is_Some_2 (srvs sg) i Hi) as [s Hs].
  destruct (ShutdownServer_spec sg net i s Hg Hs) as (sg1 & n1 & -> & Hg1 & Hsz & Hgid & Hsv & He & Hc & Hsa & Hup & _). simpl.
  destruct (IH sg1 n1 Hg1) as (sg2 & n2 & Hk & Hg2 & Hsz2 & Hgid2 & He2 & Hc2 & Hsv2 & Hsa2 & Hno & Hup2).
  { intros j Hj. rewrite Hsz. apply Hl. by right. }
  exists sg2, n2. split_and!; try done; try congruence.
  - intros j. rewrite Hsv2, Hsv. destruct (decide (j = i)) as [->|Hne].
    + rewrite list_lookup_insert_eq by done. rewrite Hs. simpl. rewrite (decide_True (P := i ∈ i :: l)) by (by left).
      destruct (decide (i ∈ l)); [|done]. f_equal. unfold shutdownServer. by destruct (dc s) eqn:E; simpl; rewrite ?E.
    + rewrite list_lookup_insert_ne by done. destruct (srvs sg !! j); simpl; [|done]. f_equal.
      destruct (decide (j ∈ l)), (decide (j ∈ i :: l)) as [Hin|Hin]; try done; [by destruct Hin; right|].
      apply elem_of_cons in Hin as [?|?]; done.
  - intros n. destruct (Hsa2 n) as [?|Heq]; [by left|]. rewrite Heq, Hsa. destruct (decide _); auto.
  - intros j [->|Hj]%elem_of_cons; [|rewrite <- Hgid; by apply Hno].
    destruct (Hsa2 (ServerName (gid sg) i)) as [?|Heq]; [done|]. rewrite Heq, Hsa. by rewrite decide_True.
  - intros j. rewrite Hup2, Hup, elem_of_cons. naive_solver.
Qed.

(** After [StartSrvs] the named servers run, with the state they had. *)
Lemma StartSrvs_spec l : forall sg net sg' net', grp_ok sg net -> in_range sg l.*1 -> NoDup l.*1 ->
  (forall i la, (i, la) ∈ l -> la_up la = true /\ length (la_names la) = size sg) ->
  StartSrvs sg net l = Some (sg', net') ->
  grp_ok sg' net' /\ size sg' = size sg /\ gid sg' = gid sg /\ connected sg' = connected sg /\
  (forall i la s, (i, la) ∈ l -> srvs sg !! i = Some s ->
     exists s', srvs sg' !! i = Some s' /\ dc s' = Some (default Tester.empty (saved s)) /\ serverAt net' (ServerName (gid sg) i) = Some (la_srv la)) /\
  (forall i, i ∉ l.*1 -> srvs sg' !! i = srvs sg !! i) /\
  (forall n, (forall i, i ∈ l.*1 -> n <> ServerName (gid sg) i) -> serverAt net' n = serverAt net n).
Proof.
  induction l as [|[i la] l IH]; intros sg net sg' net' Hg Hl Hnd Hla; simpl.
  { intros [= <- <-]. split_and!; try done. by intros i la s ?%elem_of_nil. }
  apply NoDup_cons in Hnd as [Hi Hnd]. destruct (Hla i la) as [Hup Hlen]; [by left|]. rewrite Hup.
  destruct (StartServer sg net i (la_names la) true (la_srv la)) as [[[sg1 n1] b]|] eqn:Hst; [|done]. simpl. intros Hr.
  assert (Hir : (i < size sg)%nat) by (apply Hl; by left). destruct (lookup_lt_is_Some_2 (srvs sg) i Hir) as [s Hs].
  assert (b = true) as ->.
  { unfold StartServer in Hst. rewrite Hs in Hst. simpl in Hst. destruct (startServer _ _ _ _) as [[? ?]|]; simplify_eq/=. done. }
  destruct (StartServer_spec sg net i s _ _ _ _ _ Hg Hs eq_refl Hlen Hst) as (Hg1 & Hsv & Hsz & Hgid & Hcn & _ & Hcon & Hsa & _).
  destruct (IH sg1 n1 sg' net' Hg1) as (Hg' & Hsz' & Hgid' & Hcn' & Hrun & Hold & Hsa'); [..|done|].
  { intros j Hj. rewrite Hsz. apply Hl. by right. }
  { done. }
  { intros j la' Hj. rewrite Hsz. apply (Hla j). by right. }
  split_and!; [done|congruence..|idtac|idtac|idtac].
  - intros j la' s0 [[= -> ->]|Hj]%elem_of_cons Hs0.
    + rewrite Hold by done. rewrite Hsv, list_lookup_insert_eq by done. simplify_eq. eexists. split_and!; [done..|].
      rewrite Hsa'; [rewrite Hsa; by rewrite decide_True|]. intros j Hj Heq. rewrite Hgid in Heq. by apply ServerName_inj in Heq as ->.
    + assert (j <> i) by (intros ->; by apply Hi, (list_elem_of_fmap_2 fst _ (i, la'))).
      rewrite <- Hgid. apply Hrun; [done|]. by rewrite Hsv, list_lookup_insert_ne.
  - intros j [Hji Hj]%not_elem_of_cons. rewrite Hold by done. by rewrite Hsv, list_lookup_insert_ne.
  - intros n Hn. rewrite Hsa'; [|intros j Hj; rewrite Hgid; apply Hn; by right]. rewrite Hsa. apply decide_False. apply Hn. by left.
Qed.

(** With new names it goes through. *)
Lemma StartSrvs_total l : forall sg net, grp_ok sg net -> in_range sg l.*1 ->
  (forall i la, (i, la) ∈ l -> la_up la = true /\ length (la_names la) = size sg) ->
  NoDup (l.*2 ≫= la_names) -> (forall e, e ∈ l.*2 ≫= la_names -> e ∉ ends net) -> is_Some (StartSrvs sg net l).
Proof.
  induction l as [|[i la] l IH]; intros sg net Hg Hl Hla Hnd Hf; simpl; [by eexists|]. simpl in Hnd, Hf.
  apply NoDup_app in Hnd as (Hnd & Hdis & Hnd'). destruct (Hla i la) as [Hup Hlen]; [by left|]. rewrite Hup.
  assert (Hi : (i < size sg)%nat) by (apply Hl; by left). destruct (lookup_lt_is_Some_2 (srvs sg) i Hi) as [s Hs].
  destruct (StartServer sg net i (la_names la) true (la_srv la)) as [[[sg1 n1] b]|] eqn:Hst.
  2:{ exfalso. unfold StartServer, startServer, makeServer in Hst. rewrite Hs in Hst. simpl in Hst.
      destruct (makeEnds_fresh (la_names la) net (gid sg) 0 Hnd) as [n1 Hn1]; [intros e He; apply Hf, elem_of_app; by left|].
      by rewrite Hn1 in Hst. }
  assert (b = true) as ->.
  { unfold StartServer in Hst. rewrite Hs in Hst. simpl in Hst. destruct (startServer _ _ _ _) as [[? ?]|]; simplify_eq/=. done. }
  destruct (StartServer_spec sg net i s _ _ _ _ _ Hg Hs eq_refl Hlen Hst) as (Hg1 & _ & Hsz & _ & _ & Hends & _). simpl.
  apply IH; [done|..|done|].
  - intros j Hj. rewrite Hsz. apply Hl. by right.
  - intros j la' Hj. rewrite Hsz. apply (Hla j). by right.
  - intros e He [Hin|Hin]%Hends; [by apply (Hdis e Hin)|]. apply (Hf e); [|done]. apply elem_of_app. by right.
Qed.

(** The launches of a whole group. *)
Definition launches_ok (sg : ServerGrp) (net : Network) (las : list launch) : Prop :=
  length las = size sg /\ (forall la, la ∈ las -> la_up la = true /\ length (la_names la) = size sg) /\
  NoDup (las ≫= la_names) /\ forall e, e ∈ las ≫= la_names -> e ∉ ends net.

(** [StartServers]: every server runs with the state that it had, or an empty one
    if it never ran, under its name, and reaches every other. *)
Lemma StartServers_spec sg net las : grp_ok sg net -> launches_ok sg net las ->
  exists sg' net', StartServers sg net las = Some (sg', net') /\ grp_ok sg' net' /\ size sg' = size sg /\ gid sg' = gid sg /\
    (forall i la s, las !! i = Some la -> srvs sg !! i = Some s ->
       runs_with sg' i (default Tester.empty (saved s)) /\ serverAt net' (ServerName (gid sg) i) = Some (la_srv la)) /\
    forall a b, (a < size sg)%nat -> (b < size sg)%nat -> link sg' net' a b.
Proof.
  intros Hg (Hlen & Hla & Hnd & Hf). unfold StartServers. set (l := zip (all sg) las).
  assert (Hal : length (all sg) = length las) by (unfold all; by rewrite length_seq).
  assert (H1 : l.*1 = all sg) by (apply fst_zip; lia). assert (H2 : l.*2 = las) by (apply snd_zip; lia).
  assert (Hr : in_range sg l.*1) by (rewrite H1; intros j Hj%elem_of_seq; unfold size; lia).
  assert (Hl : forall i la, (i, la) ∈ l -> la_up la = true /\ length (la_names la) = size sg).
  { intros i la Hin. apply Hla. rewrite <- H2. by apply (list_elem_of_fmap_2 snd _ (i, la)). }
  destruct (StartSrvs_total l sg net Hg Hr Hl) as [[sg1 n1] Hst]; [by rewrite H2..|].
  destruct (StartSrvs_spec l sg net sg1 n1 Hg Hr) as (Hg1 & Hsz & Hgid & _ & Hrun & _); [rewrite H1; apply NoDup_seq|done..|].
  destruct (ConnectAll_spec sg1 n1 Hg1) as (sg2 & n2 & Hc & (Hsv & Hgid2 & Hg2 & (_ & _ & Hsr)) & Hlk).
  exists sg2, n2. rewrite Hst. simpl. split_and!; [done|done|by unfold size; rewrite Hsv|congruence|..].
  - intros i la s Hi Hs. assert (Hil : (i < size sg)%nat) by (by eapply lookup_lt_Some).
    destruct (Hrun i la s) as (s' & Hs' & Hdc & Hsa); [|done|].
    + apply list_elem_of_lookup. exists i. unfold l. rewrite lookup_zip_with. unfold all. rewrite lookup_seq_lt by done. simpl. by rewrite Hi.
    + split; [exists s'; by rewrite Hsv|]. unfold serverAt in *. by rewrite Hsr.
  - intros a b Ha Hb. apply Hlk; by rewrite Hsz.
Qed.

(** The servers hold the states [ps], in their processes or saved. *)
Definition holds (sg : ServerGrp) (ps : nat -> Tester.Persister) : Prop :=
  forall i s, srvs sg !! i = Some s -> dc s = Some (ps i) \/ (dc s = None /\ saved s = Some (ps i)).

Lemma maxSize_ext f (k : nat -> Z) l : forall l' b, length l = length l' ->
  (forall i s, l !! i = Some s -> f s = Some (k i)) -> (forall i s, l' !! i = Some s -> f s = Some (k i)) ->
  maxSize f b l = maxSize f b l'.
Proof.
  revert k. induction l as [|s l IH]; intros k [|s' l'] b Hl Hf Hf'; simplify_eq/=; [done|].
  rewrite (Hf 0%nat s eq_refl), (Hf' 0%nat s' eq_refl). simpl.
  apply (IH (fun i => k (S i))); [done|intros i; apply (Hf (S i))|intros i; apply (Hf' (S i))].
Qed.

Lemma sizes_held sg sg' ps : size sg' = size sg -> holds sg ps -> holds sg' ps ->
  RaftSize sg' = RaftSize sg /\ SnapshotSize sg' = SnapshotSize sg.
Proof.
  intros Hs H H'. split; unfold RaftSize, SnapshotSize.
  - apply (maxSize_ext _ (fun i => zlen (Tester.raftstate (ps i)))); [done|..]; intros i s Hi; unfold raftSize.
    + by destruct (H' i s Hi) as [->|[-> ->]].
    + by destruct (H i s Hi) as [->|[-> ->]].
  - apply (maxSize_ext _ (fun i => Tester.SnapshotSize (ps i))); [done|..]; intros i s Hi; unfold snapshotSize.
    + by destruct (H' i s Hi) as [->|[-> ->]].
    + by destruct (H i s Hi) as [->|[-> ->]].
Qed.

Lemma runs_holds sg ps : (forall i, (i < size sg)%nat -> runs_with sg i (ps i)) -> holds sg ps.
Proof. intros H i s Hs. left. destruct (H i) as (s' & ? & ?); [by eapply lookup_lt_Some|]. congruence. Qed.

(** [killall] and [restartall] of the tests.  Shutting down a whole group leaves no
    process and no name on the network, and loses no server's state; starting it
    again, whatever names the new ends get, makes every server run with exactly the
    state it had, under its name and behind its new process, and every server
    reaches every other.  The sizes the tests check do not change on the way. *)
Theorem restartall_resumes sg net las (ps : nat -> Tester.Persister) :
  grp_ok sg net -> (forall i, (i < size sg)%nat -> runs_with sg i (ps i)) -> launches_ok sg net las ->
  exists sg1 net1 sg2 net2, Shutdown sg net = Some (sg1, net1) /\ StartServers sg1 net1 las = Some (sg2, net2) /\
    (forall i s, srvs sg1 !! i = Some s -> dc s = None) /\
    (forall i, (i < size sg)%nat -> serverAt net1 (ServerName (gid sg) i) = None) /\
    (forall i la, las !! i = Some la -> runs_with sg2 i (ps i) /\ serverAt net2 (ServerName (gid sg) i) = Some (la_srv la)) /\
    (forall a b, (a < size sg)%nat -> (b < size sg)%nat -> link sg2 net2 a b) /\
    RaftSize sg1 = RaftSize sg /\ RaftSize sg2 = RaftSize sg /\ SnapshotSize sg2 = SnapshotSize sg.
Proof.
  intros Hg Hrun Hla. destruct (Kill_spec (all sg) sg net Hg) as (sg1 & n1 & Hk & Hg1 & Hsz & Hgid & He & _ & Hsv & _ & Hno & _).
  { intros j Hj%elem_of_seq. unfold size. lia. }
  destruct (StartServers_spec sg1 n1 las Hg1) as (sg2 & n2 & Hst & Hg2 & Hsz2 & _ & Hrun2 & Hlk).
  { destruct Hla as (? & ? & ? & Hf). split_and!; [congruence|by rewrite Hsz|done|by rewrite He]. }
  assert (Hin : forall i, (i < size sg)%nat -> i ∈ all sg) by (intros i Hi; apply elem_of_seq; unfold size in Hi; lia).
  assert (H1 : forall i s, srvs sg1 !! i = Some s -> dc s = None /\ saved s = Some (ps i)).
  { intros i s. rewrite Hsv. destruct (srvs sg !! i) as [s0|] eqn:Hs0; [|done]. apply lookup_lt_Some in Hs0 as Hi. simpl.
    rewrite decide_True by (by apply Hin). intros [= <-]. destruct (Hrun i Hi) as (s' & Hs' & Hdc). simplify_eq.
    unfold shutdownServer. rewrite Hdc. by destruct (ps i). }
  assert (H2 : forall i la, las !! i = Some la -> runs_with sg2 i (ps i) /\ serverAt n2 (ServerName (gid sg) i) = Some (la_srv la)).
  { intros i la Hi. apply lookup_lt_Some in Hi as Hl. destruct Hla as [Hla _].
    destruct (lookup_lt_is_Some_2 (srvs sg1) i) as [s Hs]; [unfold size in *; lia|].
    destruct (Hrun2 i la s Hi Hs) as [Hr Hsa]. destruct (H1 i s Hs) as [_ Hsv']. rewrite Hsv' in Hr. by rewrite <- Hgid. }
  pose proof (runs_holds sg ps Hrun) as Hh.
  destruct (sizes_held sg sg1 ps Hsz Hh) as [Hra _]; [intros i s Hs; right; by apply H1|].
  destruct (sizes_held sg sg2 ps) as [Hrb Hsb]; [congruence|done| |].
  { apply runs_holds. intros i Hi. destruct Hla as [Hla _]. destruct (lookup_lt_is_Some_2 las i) as [la Hl]; [lia|]. by apply (H2 i la). }
  exists sg1, n1, sg2, n2. split_and!; try done.
  - intros i s Hs. by apply (H1 i).
  - intros i Hi. by apply Hno, Hin.
  - intros a b Ha Hb. apply Hlk; lia.
Qed.

(** ** The configuration *)

(** [cfg_clerks] is a map by pointer, nil after [Cleanup]; [cfg_failed] is
    [t.Failed()]; [cfg_trpc] is the tester's own RPC server, nil or with its socket
    open or closed. *)
Record Config := mkCfg {
  cfg_net : Network;
  cfg_grps : gmap Z ServerGrp;
  cfg_clerks : option (gmap nat Clnt);
  cfg_ops : Z;
  cfg_rpcs0 : Z;
  cfg_failed : bool;
  cfg_trpc : option bool
}.

Definition GRP0 : Z := 0.

Definition set_grps (c : Config) (n : Network) (g : gmap Z ServerGrp) : Config :=
  mkCfg n g (cfg_clerks c) (cfg_ops c) (cfg_rpcs0 c) (cfg_failed c) (cfg_trpc c).

Definition set_clerks (c : Config) (n : Network) (k : option (gmap nat Clnt)) : Config :=
  mkCfg n (cfg_grps c) k (cfg_ops c) (cfg_rpcs0 c) (cfg_failed c) (cfg_trpc c).

(** *** Groups *)

Definition MakeGroup (c : Config) (g : Z) (names : list (list string)) : option Config :=
  '(n, sg) ← makeSrvGrp (cfg_net c) g names;
  Some (set_grps c n (<[g := sg]> (cfg_grps c))).

(** [Group]: nil for an unknown group, and its methods then panic. *)
Definition lookupGroup (c : Config) (g : Z) : option ServerGrp := cfg_grps c !! g.

Definition on_group (c : Config) (g : Z) (f : ServerGrp -> Network -> option (ServerGrp * Network)) : option Config :=
  sg ← lookupGroup c g;
  '(sg, n) ← f sg (cfg_net c);
  Some (set_grps c n (<[g := sg]> (cfg_grps c))).

Definition MakeGroupStart (c : Config) (g : Z) (names : list (list string)) (las : list launch) : option Config :=
  c ← MakeGroup c g names;
  on_group c g (fun sg n => StartServers sg n las).

Definition deleteGroup (c : Config) (g : Z) : Config := set_grps c (cfg_net c) (delete g (cfg_grps c)).

Definition ExitGroup (c : Config) (g : Z) : option Config :=
  c ← on_group c g Shutdown;
  Some (deleteGroup c g).

(** [Groups.cleanup], over the groups in some order. *)
Fixpoint cleanupGroups (c : Config) (order : list Z) : option Config :=
  match order with
  | [] => Some c
  | g :: order => c ← on_group c g Shutdown; cleanupGroups c order
  end.

(** *** Clients *)

Fixpoint removeEnds (es : list string) (n : Network) : option Network :=
  match es with
  | [] => Some n
  | e :: es => n ← DeleteEnd e n; removeEnds es n
  end.

Definition remove (cl : Clnt) (n : Network) : option Network := removeEnds (map_to_list (c_ends cl)).*2 n.

(** Writing to a nil map panics. *)
Definition MakeClientTo (c : Config) (k : nat) (servers : option (list string)) : option Config :=
  m ← cfg_clerks c;
  Some (set_clerks c (cfg_net c) (Some (<[k := makeClntTo servers]> m))).

Definition MakeClient (c : Config) (k : nat) : option Config := MakeClientTo c k None.

Definition DeleteClient (c : Config) (k : nat) : option Config :=
  match cfg_clerks c ≫= lookup k with
  | Some cl => n ← remove cl (cfg_net c); Some (set_clerks c n (delete k <$> cfg_clerks c))
  | None => Some c
  end.

(** The end of client [k] to a server, which its first [Call] to it makes. *)
Definition clientEnd (c : Config) (k : nat) (server name : string) : option Config :=
  m ← cfg_clerks c;
  cl ← m !! k;
  '(cl, n, _) ← makeEnd cl (cfg_net c) server name;
  Some (set_clerks c n (Some (<[k := cl]> m))).

(** A client is connected to servers or disconnected from them. *)
Definition on_client (c : Config) (k : nat) (f : Clnt -> Network -> Clnt * Network) : option Config :=
  m ← cfg_clerks c;
  cl ← m !! k;
  let '(cl, n) := f cl (cfg_net c) in Some (set_clerks c n (Some (<[k := cl]> m))).

Fixpoint removeClients (cls : list Clnt) (n : Network) : option Network :=
  match cls with
  | [] => Some n
  | cl :: cls => n ← remove cl n; removeClients cls n
  end.

Definition cleanupClnts (c : Config) : option Config :=
  n ← removeClients (map_to_list (default ∅ (cfg_clerks c))).*2 (cfg_net c);
  Some (set_clerks c n None).

(** *** The test *)

Definition newConfig : Config := mkCfg MakeNetwork ∅ None 0 0 false (Some true).

Definition MakeConfig (names : list (list string)) (las : list launch) (reliable : bool) : option Config :=
  c ← MakeGroupStart newConfig GRP0 names las;
  Some (set_clerks c (Reliable reliable (cfg_net c)) (Some ∅)).

Definition SetReliable (c : Config) (yes : bool) : Config := set_clerks c (Reliable yes (cfg_net c)) (cfg_clerks c).
Definition SetLongReordering (c : Config) (yes : bool) : Config := set_clerks c (LongReordering yes (cfg_net c)) (cfg_clerks c).
Definition SetLongDelays (c : Config) (yes : bool) : Config := set_clerks c (LongDelays yes (cfg_net c)) (cfg_clerks c).

(** [trpc.cleanup] closes the socket. *)
Definition cleanupTrpc (c : Config) : Config :=
  mkCfg (cfg_net c) (cfg_grps c) (cfg_clerks c) (cfg_ops c) (cfg_rpcs0 c) (cfg_failed c)
    (match cfg_trpc c with Some _ => Some false | None => None end).

(** What [annotation.cleanup] meets: the clock, [VIS_ENABLE], and whether the file
    can be opened. *)
Record visual := mkVis { vis_t : Z; vis_t' : Z; vis_enable : string; vis_opened : bool }.

(** [Cleanup], with the package's annotations [a]: the annotations that are
    visualized, and those that are left. *)
Definition Cleanup (c : Config) (order : list Z) (a : Annotation) (v : visual) : option (Config * option (list annot) * Annotation) :=
  c ← cleanupClnts c;
  c ← cleanupGroups c order;
  n ← Labrpc.Cleanup (cfg_net c);
  let c := cleanupTrpc (set_grps c n (cfg_grps c)) in
  let '(shown, a) := Annotation.cleanup a (vis_t v) (vis_t' v) (vis_enable v) (vis_opened v) (cfg_failed c)
                       (if cfg_failed c then "test failed" else "test passed") in
  Some (c, shown, a).

Definition RpcTotal (c : Config) : Z := rpcs (cfg_net c).
Definition BytesTotal (c : Config) : Z := bytes (cfg_net c).

Definition Begin (c : Config) : Config :=
  mkCfg (cfg_net c) (cfg_grps c) (cfg_clerks c) 0 (RpcTotal c) (cfg_failed c) (cfg_trpc c).

Definition OpInc (c : Config) : Config :=
  mkCfg (cfg_net c) (cfg_grps c) (cfg_clerks c) (i32 (cfg_ops c + 1)) (cfg_rpcs0 c) (cfg_failed c) (cfg_trpc c).

(** [elapsed] is the time since the test was made, in nanoseconds. *)
Definition CheckTimeout (c : Config) (elapsed : Z) : Config :=
  if negb (cfg_failed c) && bool_decide (elapsed > 120 * 10 ^ 9)
  then mkCfg (cfg_net c) (cfg_grps c) (cfg_clerks c) (cfg_ops c) (cfg_rpcs0 c) true (cfg_trpc c)
  else c.

(** What [End] prints of a test that has not failed: peers, calls, operations. *)
Definition End (c : Config) (elapsed : Z) : option (Config * option (Z * Z * Z)) :=
  let c := CheckTimeout c elapsed in
  if cfg_failed c then Some (c, None)
  else sg ← lookupGroup c GRP0; Some (c, Some (zlen (srvs sg), RpcTotal c - cfg_rpcs0 c, cfg_ops c)).

(** ** The invariant of a configuration *)

Definition clerk (c : Config) (k : nat) : option Clnt := cfg_clerks c ≫= lookup k.

(** Groups and clients have their ends to themselves, and the network is open. *)
Record cfg_ok (c : Config) : Prop := {
  o_grp g sg : cfg_grps c !! g = Some sg -> grp_ok sg (cfg_net c) /\ gid sg = g;
  o_clnt k cl : clerk c k = Some cl -> clnt_ok cl (cfg_net c);
  o_apart k k' cl cl' s s' e : clerk c k = Some cl -> clerk c k' = Some cl' ->
    c_ends cl !! s = Some e -> c_ends cl' !! s' = Some e -> k = k';
  o_servers g sg a b k cl s e : cfg_grps c !! g = Some sg -> clerk c k = Some cl ->
    endName sg a b = Some e -> c_ends cl !! s <> Some e;
  o_open : closed (cfg_net c) = false
}.

(** What a network still has of another one's ends. *)
Definition keeps (P : string -> Prop) (n n' : Network) : Prop :=
  closed n' = closed n /\ forall e, e ∈ ends n -> P e -> e ∈ ends n' /\ connections n' !! e = connections n !! e.

Lemma grp_ok_keeps P sg n n' : grp_ok sg n -> keeps P n n' -> (forall a b e, endName sg a b = Some e -> P e) -> grp_ok sg n'.
Proof.
  intros [H1 H2 H3 H4 H5 H6] [_ Hk] HP. split; try done.
  - intros a b e He. apply Hk; eauto.
  - intros a b e He. destruct (Hk e) as [_ ->]; eauto.
Qed.

Lemma clnt_ok_keeps P cl n n' : clnt_ok cl n -> keeps P n n' -> (forall s e, c_ends cl !! s = Some e -> P e) -> clnt_ok cl n'.
Proof.
  intros [H1 H2] [_ Hk] HP. split; [done|]. intros s e He. destruct (H2 s e He). destruct (Hk e) as [? ->]; eauto.
Qed.

Abbreviation any := (fun _ : string => True).

(** *** What the operations do to the network *)

Lemma eachLink_closed sg pair yes js : forall n n', eachLink sg pair yes js n = Some n' -> closed n' = closed n.
Proof.
  induction js as [|j js IH]; intros n n' H; simplify_eq/=; [done|].
  destruct (if yes then _ else _) as [[]|]; [..|done]; simplify_eq/=; [|by apply IH].
  destruct (enableLink _ _ _ _ _) as [n1|] eqn:He; simplify_eq/=. rewrite (IH _ _ H).
  unfold enableLink in He. destruct (srvs sg !! _) as [s|]; simplify_eq/=. destruct (endNames s !! _); by simplify_eq/=.
Qed.

Lemma connect_closed sg n i to sg' n' : connect sg n i to = Some (sg', n') -> closed n' = closed n.
Proof.
  unfold connect. destruct (set_connected _ _ _) as [sg1|]; [|done]. simpl.
  destruct (connectOut _ _ _ _) as [n1|] eqn:H1; [|done]. simpl. destruct (connectIn _ _ _ _) as [n2|] eqn:H2; [|done].
  intros [= <- <-]. by rewrite (eachLink_closed _ _ _ _ _ _ H2), (eachLink_closed _ _ _ _ _ _ H1).
Qed.

Lemma disconnect_closed sg n i from sg' n' : disconnect sg n i from = Some (sg', n') -> closed n' = closed n.
Proof.
  unfold disconnect. destruct (set_connected _ _ _) as [sg1|]; [|done]. simpl.
  destruct (disconnectOut _ _ _ _) as [n1|] eqn:H1; [|done]. simpl. destruct (disconnectIn _ _ _ _) as [n2|] eqn:H2; [|done].
  intros [= <- <-]. by rewrite (eachLink_closed _ _ _ _ _ _ H2), (eachLink_closed _ _ _ _ _ _ H1).
Qed.

Lemma connects_closed l : forall sg n sg' n', connects sg n l = Some (sg', n') -> closed n' = closed n.
Proof.
  induction l as [|i l IH]; intros sg n sg' n' H; simplify_eq/=; [done|].
  destruct (ConnectOne sg n i) as [[sg1 n1]|] eqn:Hc; [|done]. simpl in H. rewrite (IH _ _ _ _ H). by eapply connect_closed.
Qed.

Lemma Kill_closed l : forall sg n sg' n', Kill sg n l = Some (sg', n') -> closed n' = closed n.
Proof.
  induction l as [|i l IH]; intros sg n sg' n' H; simplify_eq/=; [done|].
  destruct (ShutdownServer sg n i) as [[sg1 n1]|] eqn:Hc; [|done]. simpl in H. rewrite (IH _ _ _ _ H).
  unfold ShutdownServer in Hc. destruct (disconnect _ _ _ _) as [[sg2 n2]|] eqn:Hd; [|done]. simpl in Hc.
  destruct (srvs sg2 !! i); simplify_eq/=. by eapply disconnect_closed.
Qed.

Lemma makeEnds_closed names : forall n g j n', makeEnds n g j names = Some n' -> closed n' = closed n.
Proof.
  induction names as [|e names IH]; intros n g j n' H; simplify_eq/=; [done|]. unfold MakeEnd in H.
  destruct (decide (e ∈ ends n)); [done|]. simpl in H. by rewrite (IH _ _ _ _ H).
Qed.

Lemma makeEnds_keeps names n g j n' : makeEnds n g j names = Some n' -> keeps any n n' /\ forall e, e ∈ names -> e ∉ ends n.
Proof.
  intros Hm. pose proof (makeEnds_closed _ _ _ _ _ Hm) as Hcl. apply makeEnds_spec in Hm as (_ & Hf & He & Hc & _).
  split; [|done]. split; [done|]. intros e Hin _. split; [apply He; by right|]. apply Hc. intros Hn. by apply (Hf e Hn).
Qed.

Lemma keeps_compose P n1 n2 n3 : keeps P n1 n2 -> keeps P n2 n3 -> keeps P n1 n3.
Proof.
  intros [H1 H2] [H3 H4]. split; [congruence|]. intros e He HP. destruct (H2 e He HP) as [Hin Hc]. destruct (H4 e Hin HP). split; congruence.
Qed.

Lemma keeps_unchanged n n' : closed n' = closed n -> ends n' = ends n -> connections n' = connections n -> keeps any n n'.
Proof. intros H1 H2 H3. split; [done|]. intros e He _. by rewrite H2, H3. Qed.

(** The ends of a group after an operation are those it had, or new. *)
Definition renamed (n : Network) (sg sg' : ServerGrp) : Prop :=
  forall a b e, endName sg' a b = Some e -> endName sg a b = Some e \/ e ∉ ends n.

Lemma StartServer_keeps sg n i names up rs sg' n' b : StartServer sg n i names up rs = Some (sg', n', b) ->
  keeps any n n' /\ renamed n sg sg'.
Proof.
  unfold StartServer, startServer, makeServer. destruct (srvs sg !! i) as [s|] eqn:Hs; [|done]. simpl.
  destruct (makeEnds n (gid sg) 0 names) as [n1|] eqn:Hm; [|done]. simpl. apply makeEnds_keeps in Hm as [Hk Hf].
  assert (Hre : forall s', endNames s' = names -> renamed n sg (set_server sg i s')).
  { intros s' Hn a b' e. rewrite endName_set_server by (by eapply lookup_lt_Some). destruct (decide (a = i)); [|by left].
    rewrite Hn. intros He%list_elem_of_lookup_2. right. by apply Hf. }
  destruct up; intros [= <- <- <-]; (split; [|by apply Hre]); [|done].
  apply (keeps_compose _ _ n1); [done|]. by apply keeps_unchanged.
Qed.

Lemma StartSrvs_keeps l : forall sg n sg' n', StartSrvs sg n l = Some (sg', n') -> keeps any n n' /\ renamed n sg sg'.
Proof.
  induction l as [|[i la] l IH]; intros sg n sg' n' H; simplify_eq/=.
  { split; [by apply keeps_unchanged|]. intros a b e. by left. }
  destruct (StartServer _ _ _ _ _ _) as [[[sg1 n1] b]|] eqn:Hst; [|done]. simpl in H.
  apply StartServer_keeps in Hst as [Hk Hr]. apply IH in H as [Hk' Hr']. split; [by eapply keeps_compose|].
  intros a b' e [He|He]%Hr'; [by apply Hr|]. right. intros Hin. destruct Hk as [_ Hk]. by destruct (Hk e Hin I).
Qed.

Lemma StartServers_keeps sg n las sg' n' : grp_ok sg n -> launches_ok sg n las -> StartServers sg n las = Some (sg', n') ->
  keeps any n n' /\ renamed n sg sg'.
Proof.
  intros Hg (Hlen & Hla & Hnd & Hf). unfold StartServers. set (l := zip (all sg) las).
  destruct (StartSrvs sg n l) as [[sg1 n1]|] eqn:Hst; [|done]. simpl. intros Hc.
  assert (Hg1 : grp_ok sg1 n1).
  { assert (Hal : length (all sg) = length las) by (unfold all; by rewrite length_seq).
    assert (H1 : l.*1 = all sg) by (apply fst_zip; lia). eapply StartSrvs_spec; [..|exact Hst]; [done|rewrite H1..|].
    - intros j Hj%elem_of_seq. unfold size. lia.
    - apply NoDup_seq.
    - intros i la Hin. apply Hla. by apply elem_of_zip_r in Hin. }
  pose proof (connects_closed _ _ _ _ _ Hc) as Hcl.
  destruct (ConnectAll_spec sg1 n1 Hg1) as (sg2 & n2 & Hc2 & (Hsv & _ & _ & (He & Hco & _)) & _). simplify_eq.
  apply StartSrvs_keeps in Hst as [Hk Hr]. split; [eapply keeps_compose; [done|by apply keeps_unchanged]|].
  intros a b e Hn. apply Hr. unfold endName in *. by rewrite Hsv in Hn.
Qed.

Lemma makeServers_closed names : forall n g n' l, makeServers n g names = Some (n', l) -> closed n' = closed n.
Proof.
  induction names as [|ns names IH]; intros n g n' l H; simplify_eq/=; [done|]. unfold makeServer in H.
  destruct (makeEnds n g 0 ns) as [n1|] eqn:Hm; [|done]. simpl in H.
  destruct (makeServers n1 g names) as [[n2 l2]|] eqn:Hms; simplify_eq/=. by rewrite (IH _ _ _ _ Hms), (makeEnds_closed _ _ _ _ _ Hm).
Qed.

Lemma makeSrvGrp_keeps n g names n' sg : makeSrvGrp n g names = Some (n', sg) ->
  keeps any n n' /\ gid sg = g /\ forall a b e, endName sg a b = Some e -> e ∉ ends n.
Proof.
  unfold makeSrvGrp. destruct (makeServers n g names) as [[n1 l]|] eqn:Hm; [|done]. simpl. intros [= <- <-].
  pose proof (makeServers_closed _ _ _ _ _ Hm) as Hcl. apply makeServers_spec in Hm as (-> & _ & Hmade & Hkeep). split_and!.
  - split; [done|]. intros e He _. by destruct (Hkeep e He) as (? & ? & _).
  - done.
  - intros a b e. unfold endName. simpl. rewrite list_lookup_fmap. destruct (names !! a) as [ns|] eqn:Ha; [|done]. simpl.
    intros Hb. by destruct (Hmade _ _ _ _ Ha Hb).
Qed.

(** *** The operations preserve the invariant *)

Lemma set_group_ok c g sg' n' : cfg_ok c -> keeps any (cfg_net c) n' -> grp_ok sg' n' -> gid sg' = g ->
  (forall a b e, endName sg' a b = Some e ->
     (exists sg a' b', cfg_grps c !! g = Some sg /\ endName sg a' b' = Some e) \/ e ∉ ends (cfg_net c)) ->
  cfg_ok (set_grps c n' (<[g := sg']> (cfg_grps c))).
Proof.
  intros [H1 H2 H3 H4 H5] Hk Hg Hgid Hn. split; simpl.
  - intros g0 sg [[<- <-]|[Hne Hl]]%lookup_insert_Some; [done|]. destruct (H1 g0 sg Hl). split; [by eapply grp_ok_keeps|done].
  - intros k cl Hc. by eapply clnt_ok_keeps; [eapply H2| |].
  - exact H3.
  - intros g0 sg a b k cl s e [[<- <-]|[Hne Hl]]%lookup_insert_Some Hc He; [|by eapply H4].
    destruct (Hn a b e He) as [(sg & a' & b' & Hl & He')|Hf]; [by eapply H4|].
    intros Hs. by apply Hf, (n_made _ _ (H2 k cl Hc) s e).
  - by destruct Hk as [-> _].
Qed.

Lemma on_group_ok c g f c' : cfg_ok c -> on_group c g f = Some c' ->
  (forall sg sg' n', cfg_grps c !! g = Some sg -> f sg (cfg_net c) = Some (sg', n') -> grp_ok sg (cfg_net c) ->
     grp_ok sg' n' /\ gid sg' = gid sg /\ keeps any (cfg_net c) n' /\ renamed (cfg_net c) sg sg') -> cfg_ok c'.
Proof.
  intros Hc. unfold on_group, lookupGroup. destruct (cfg_grps c !! g) as [sg|] eqn:Hl; [|done]. simpl.
  destruct (f sg (cfg_net c)) as [[sg' n']|] eqn:Hf; [|done]. simpl. intros [= <-] Hop.
  destruct (o_grp _ Hc g sg Hl) as [Hg Hgid]. destruct (Hop sg sg' n' eq_refl Hf Hg) as (Hg' & Hgid' & Hk & Hr).
  apply set_group_ok; [done..|congruence|]. intros a b e [He|He]%Hr; [left; eauto|by right].
Qed.

Lemma Kill_group_ok l sg n sg' n' : grp_ok sg n -> in_range sg l -> Kill sg n l = Some (sg', n') ->
  grp_ok sg' n' /\ gid sg' = gid sg /\ keeps any n n' /\ renamed n sg sg'.
Proof.
  intros Hg Hl Hk. pose proof (Kill_closed _ _ _ _ _ Hk) as Hcl.
  destruct (Kill_spec l sg n Hg Hl) as (sg1 & n1 & Hk1 & Hg1 & _ & Hgid & He & Hc & Hsv & _). simplify_eq.
  split_and!; [done|done|by apply keeps_unchanged|]. intros a b e. unfold endName. rewrite Hsv. destruct (srvs sg !! a) as [s|]; [|done]. simpl.
  intros Hb. left. destruct (decide (a ∈ l)); [|done]. unfold shutdownServer in Hb. by destruct (dc s).
Qed.

Lemma removeEnds_spec es : forall n, NoDup es -> (forall e, e ∈ es -> e ∈ ends n) ->
  exists n', removeEnds es n = Some n' /\ keeps (fun e => e ∉ es) n n' /\ forall e, e ∈ ends n' <-> e ∈ ends n /\ e ∉ es.
Proof.
  induction es as [|e es IH]; intros n Hnd Hin; simpl.
  { exists n. split_and!; [done|split; auto|]. intros e. rewrite elem_of_nil. tauto. }
  apply NoDup_cons in Hnd as [He Hnd]. unfold DeleteEnd. rewrite decide_True by (apply Hin; by left). simpl.
  set (n1 := mkNet _ _ _ _ _ _ _ _ _ _). destruct (IH n1 Hnd) as (n' & -> & [Hcl Hk] & Hends).
  { intros e' He'. simpl. assert (e' <> e) by (by intros ->). specialize (Hin e' ltac:(by right)). set_solver. }
  exists n'. split_and!; [done|split; [done|]|].
  - intros e' He' [Hne Hn']%not_elem_of_cons. destruct (Hk e') as [H1 H2]; [simpl; set_solver|done|]. split; [done|].
    rewrite H2. simpl. by rewrite lookup_delete_ne.
  - intros e'. rewrite Hends. simpl. rewrite elem_of_difference, elem_of_singleton, elem_of_cons. tauto.
Qed.

(** The names of the ends of a client. *)
Definition its_ends (cl : Clnt) : list string := (map_to_list (c_ends cl)).*2.

Lemma its_ends_spec cl e : e ∈ its_ends cl <-> exists s, c_ends cl !! s = Some e.
Proof.
  unfold its_ends. rewrite list_elem_of_fmap. split.
  - intros ([s e'] & -> & H%elem_of_map_to_list). by exists s.
  - intros [s Hs]. exists (s, e). split; [done|by apply elem_of_map_to_list].
Qed.

Lemma remove_spec cl n : clnt_ok cl n ->
  exists n', remove cl n = Some n' /\ keeps (fun e => e ∉ its_ends cl) n n' /\ forall e, e ∈ ends n' <-> e ∈ ends n /\ e ∉ its_ends cl.
Proof.
  intros Hc. apply removeEnds_spec.
  - apply NoDup_fmap_2_strong; [|apply NoDup_map_to_list]. intros [s e] [s' e'] H%elem_of_map_to_list H'%elem_of_map_to_list Heq.
    simpl in Heq. subst e'. by rewrite (n_inj _ _ Hc s s' e H H').
  - intros e [s Hs]%its_ends_spec. by apply (n_made _ _ Hc s e).
Qed.

Lemma removeClients_spec cls : forall n, (forall cl, cl ∈ cls -> clnt_ok cl n) ->
  (forall i j cl cl' e, cls !! i = Some cl -> cls !! j = Some cl' -> e ∈ its_ends cl -> e ∈ its_ends cl' -> i = j) ->
  exists n', removeClients cls n = Some n' /\ keeps (fun e => forall cl, cl ∈ cls -> e ∉ its_ends cl) n n' /\
    (forall e, e ∈ ends n' -> e ∈ ends n) /\ forall cl e, cl ∈ cls -> e ∈ its_ends cl -> e ∉ ends n'.
Proof.
  induction cls as [|cl cls IH]; intros n Hok Hap; simpl.
  { exists n. split_and!; [done|split; auto|done|]. by intros cl e ?%elem_of_nil. }
  destruct (remove_spec cl n (Hok cl ltac:(by left))) as (n1 & -> & Hk & Hends). simpl.
  assert (Hne : forall cl' e, cl' ∈ cls -> e ∈ its_ends cl' -> e ∉ its_ends cl).
  { intros cl' e [i Hi]%list_elem_of_lookup He He'. by discriminate (Hap 0%nat (S i) cl cl' e eq_refl Hi He' He). }
  destruct (IH n1) as (n' & -> & Hk' & Hsub & Hgone).
  { intros cl' Hcl. eapply clnt_ok_keeps; [apply Hok; by right|exact Hk|]. intros s e Hs. apply (Hne cl'); [done|]. apply its_ends_spec. eauto. }
  { intros i j a b e Hi Hj Ha Hb. by injection (Hap (S i) (S j) a b e Hi Hj Ha Hb). }
  exists n'. split_and!; [done|split; [destruct Hk, Hk'; congruence|]|intros e He%Hsub; by apply Hends|].
  - intros e He HP. destruct Hk as [_ Hk], Hk' as [_ Hk']. destruct (Hk e He) as [H1 H2]; [apply HP; by left|].
    destruct (Hk' e H1) as [H3 H4]; [intros cl' Hcl; apply HP; by right|]. split; [done|congruence].
  - intros cl' e [->|Hcl]%elem_of_cons He; [|by apply (Hgone cl')]. intros Hin%Hsub%Hends. by destruct Hin.
Qed.

Lemma DeleteClient_ok c k : cfg_ok c -> exists c', DeleteClient c k = Some c' /\ cfg_ok c' /\ clerk c' k = None.
Proof.
  intros Hc. unfold DeleteClient. change (cfg_clerks c ≫= lookup k) with (clerk c k).
  destruct (clerk c k) as [cl|] eqn:Hk; [|by exists c]. destruct Hc as [H1 H2 H3 H4 H5].
  destruct (remove_spec cl (cfg_net c) (H2 k cl Hk)) as (n & -> & Hkp & _). simpl. eexists. split; [done|].
  assert (Hcl : forall k', clerk (set_clerks c n (delete k <$> cfg_clerks c)) k' = if decide (k' = k) then None else clerk c k').
  { intros k'. unfold clerk. simpl. destruct (cfg_clerks c) as [m|]; simpl; [|by destruct (decide _)].
    destruct (decide (k' = k)) as [->|]; [by rewrite lookup_delete_eq|by rewrite lookup_delete_ne]. }
  split; [|by rewrite Hcl, decide_True]. split; try setoid_rewrite Hcl; simpl.
  - intros g sg Hl. destruct (H1 g sg Hl). split; [|done]. eapply grp_ok_keeps; [done|exact Hkp|].
    intros a b e He [s Hs]%its_ends_spec. by eapply H4.
  - intros k' cl'. destruct (decide (k' = k)) as [|Hne]; [done|]. intros Hk'. eapply clnt_ok_keeps; [by eapply H2|exact Hkp|].
    intros s e Hs [s' Hs']%its_ends_spec. by apply Hne, (H3 k' k cl' cl s s' e).
  - intros k1 k2 c1 c2 s s' e. destruct (decide (k1 = k)), (decide (k2 = k)); try done. by apply H3.
  - intros g sg a b k' cl' s e Hl. destruct (decide (k' = k)); [done|]. by eapply H4.
  - by destruct Hkp as [-> _].
Qed.

Lemma MakeClientTo_ok c k l c' : cfg_ok c -> clerk c k = None -> MakeClientTo c k l = Some c' -> cfg_ok c'.
Proof.
  intros [H1 H2 H3 H4 H5] Hk. unfold MakeClientTo. destruct (cfg_clerks c) as [m|] eqn:Hm; [|done]. simpl. intros [= <-].
  assert (Hcl : forall k', clerk (set_clerks c (cfg_net c) (Some (<[k := makeClntTo l]> m))) k' = if decide (k' = k) then Some (makeClntTo l) else clerk c k').
  { intros k'. unfold clerk. rewrite Hm. simpl. destruct (decide (k' = k)) as [->|]; [by rewrite lookup_insert_eq|by rewrite lookup_insert_ne]. }
  split; try setoid_rewrite Hcl; simpl; [done|..|done].
  - intros k' cl'. destruct (decide (k' = k)); [|by apply H2]. intros [= <-]. by split.
  - intros k1 k2 c1 c2 s s' e. destruct (decide (k1 = k)), (decide (k2 = k)); try congruence; intros; simplify_eq/=; eauto.
  - intros g sg a b k' cl' s e Hl. destruct (decide (k' = k)); [|by eapply H4]. by intros [= <-].
Qed.

Lemma makeEnd_keeps cl n server name cl1 n1 e1 : clnt_ok cl n -> makeEnd cl n server name = Some (cl1, n1, e1) ->
  clnt_ok cl1 n1 /\ keeps any n n1 /\ forall s e, c_ends cl1 !! s = Some e -> c_ends cl !! s = Some e \/ e ∉ ends n.
Proof.
  intros Hc. unfold makeEnd. destruct (c_ends cl !! server) as [e0|] eqn:Hs.
  { intros [= <- <- <-]. split_and!; [done|by apply keeps_unchanged|auto]. }
  destruct (MakeEnd name n) as [n0|] eqn:Hme; [|done]. simpl. intros [= <- <- <-].
  assert (Hcl0 : closed n0 = closed n) by (unfold MakeEnd in Hme; destruct (decide _); by simplify_eq).
  apply MakeEnd_Some in Hme as (Hnew & Hends & Hconn & _).
  assert (Hold : forall s e, c_ends cl !! s = Some e -> e <> name) by (intros s e H ->; by destruct (n_made _ _ Hc s name H)).
  split_and!; [split|split|]; simpl.
  - intros s s' e [[<- <-]|[_ H]]%lookup_insert_Some [[<- He]|[_ H']]%lookup_insert_Some; try done.
    + by destruct (Hold s' _ H').
    + by destruct (Hold s _ H).
    + by eapply (n_inj _ _ Hc).
  - intros s e [[<- <-]|[_ H]]%lookup_insert_Some; rewrite Hends.
    + rewrite lookup_insert_eq. set_solver.
    + destruct (n_made _ _ Hc s e H). pose proof (Hold s e H). rewrite Hconn, !lookup_insert_ne by done. set_solver.
  - done.
  - intros e Hin _. assert (name <> e) by (by intros ->). rewrite Hends, Hconn, !lookup_insert_ne by done. set_solver.
  - intros s e [[_ <-]|[_ H]]%lookup_insert_Some; [by right|by left].
Qed.

Lemma clientEnd_ok c k server name c' : cfg_ok c -> clientEnd c k server name = Some c' -> cfg_ok c'.
Proof.
  intros [H1 H2 H3 H4 H5]. unfold clientEnd. destruct (cfg_clerks c) as [m|] eqn:Hm; [|done]. simpl.
  destruct (m !! k) as [cl|] eqn:Hk; [|done]. simpl. assert (Hck : clerk c k = Some cl) by (unfold clerk; by rewrite Hm).
  destruct (makeEnd cl (cfg_net c) server name) as [[[cl1 n1] e1]|] eqn:He; [|done]. simpl. intros [= <-].
  apply makeEnd_keeps in He as (Hc1 & Hkp & Hnew); [|by eapply H2].
  assert (Hcl : forall k', clerk (set_clerks c n1 (Some (<[k := cl1]> m))) k' = if decide (k' = k) then Some cl1 else clerk c k').
  { intros k'. unfold clerk. rewrite Hm. simpl. destruct (decide (k' = k)) as [->|]; [by rewrite lookup_insert_eq|by rewrite lookup_insert_ne]. }
  assert (Hap : forall k' cl' s s' e, k' <> k -> clerk c k' = Some cl' -> c_ends cl' !! s' = Some e -> c_ends cl1 !! s = Some e -> False).
  { intros k' cl' s s' e Hne Hk' Hs' [Hs|Hs]%Hnew; [by apply Hne, (H3 k' k cl' cl s' s e)|]. by apply Hs, (n_made _ _ (H2 k' cl' Hk') s' e). }
  split; try setoid_rewrite Hcl; simpl.
  - intros g sg Hl. destruct (H1 g sg Hl). split; [by eapply grp_ok_keeps|done].
  - intros k' cl'. destruct (decide (k' = k)); [by intros [= <-]|]. intros Hk'. by eapply clnt_ok_keeps; [eapply H2| |].
  - intros k1 k2 c1 c2 s s' e. destruct (decide (k1 = k)), (decide (k2 = k)); try congruence; intros; simplify_eq/=; [|..|by eapply H3].
    + exfalso. by eapply Hap.
    + exfalso. by eapply Hap.
  - intros g sg a b k' cl' s e Hl. destruct (decide (k' = k)); [|by eapply H4]. intros [= <-] Hn [Hs|Hs]%Hnew; [by eapply H4|].
    destruct (H1 g sg Hl) as [Hg _]. by apply Hs, (g_made _ _ Hg a b).
  - by destruct Hkp as [-> _].
Qed.

(** The operations of a client that connect and disconnect it. *)
Inductive switches : (Clnt -> Network -> Clnt * Network) -> Prop :=
| S_all : switches Clnt_ConnectAll
| S_to servers : switches (fun cl n => ConnectTo cl n servers)
| S_off srv : switches (fun cl n => Disconnect cl n srv)
| S_none : switches Clnt_DisconnectAll.

(** What a test may do between [MakeConfig] and [Cleanup].  A group's servers are
    relinked by the operations of [Groups]; a client is a new pointer, and a group has
    a new identity: [MakeGroup] would replace a group that is still there, with its
    processes running. *)
Inductive cstep (c c' : Config) : Prop :=
| K_group g names : lookupGroup c g = None -> (forall ns, ns ∈ names -> length ns = length names) -> MakeGroup c g names = Some c' -> cstep c c'
| K_start g las : (forall sg, lookupGroup c g = Some sg -> launches_ok sg (cfg_net c) las) ->
    on_group c g (fun sg n => StartServers sg n las) = Some c' -> cstep c c'
| K_kill g l : (forall sg, lookupGroup c g = Some sg -> in_range sg l) -> on_group c g (fun sg n => Kill sg n l) = Some c' -> cstep c c'
| K_relink g f : (forall sg sg' n', f sg (cfg_net c) = Some (sg', n') -> relinked sg (cfg_net c) sg' n' /\ closed n' = closed (cfg_net c)) ->
    on_group c g f = Some c' -> cstep c c'
| K_exit g : ExitGroup c g = Some c' -> cstep c c'
| K_client k l : clerk c k = None -> MakeClientTo c k l = Some c' -> cstep c c'
| K_call k server name : clientEnd c k server name = Some c' -> cstep c c'
| K_delete k : DeleteClient c k = Some c' -> cstep c c'
| K_switch k f : switches f -> on_client c k f = Some c' -> cstep c c'
| K_mode yes : c' = SetReliable c yes \/ c' = SetLongReordering c yes \/ c' = SetLongDelays c yes -> cstep c c'
| K_begin : c' = Begin c -> cstep c c'
| K_op : c' = OpInc c -> cstep c c'.

Lemma all_range sg : in_range sg (all sg).
Proof. intros j Hj%elem_of_seq. unfold size. lia. Qed.

Lemma MakeGroup_ok c g names c' : cfg_ok c -> (forall ns, ns ∈ names -> length ns = length names) -> MakeGroup c g names = Some c' -> cfg_ok c'.
Proof.
  intros Hc Hl. unfold MakeGroup. destruct (makeSrvGrp _ _ _) as [[n sg]|] eqn:Hm; [|done]. simpl. intros [= <-].
  pose proof (makeSrvGrp_ok _ _ _ _ _ Hm Hl) as (Hg & _). apply makeSrvGrp_keeps in Hm as (Hk & Hgid & Hnew).
  apply set_group_ok; [done..|]. intros a b e He. right. by eapply Hnew.
Qed.

Lemma Shutdown_ok c g c' : cfg_ok c -> on_group c g Shutdown = Some c' -> cfg_ok c'.
Proof. intros Hc Hs. eapply on_group_ok; [done..|]. intros sg sg' n' _ Hk Hg. eapply Kill_group_ok; [done| |done]. apply all_range. Qed.

Lemma enableEnds_fields cl which yes n : let n' := enableEnds cl which yes n in
  closed n' = closed n /\ ends n' = ends n /\ connections n' = connections n.
Proof.
  unfold enableEnds. induction (map_to_list (c_ends cl)) as [|[sv e] l IH]; simpl; [done|]. destruct (which sv); simpl; [|done]. exact IH.
Qed.

Lemma switches_fields f cl n : switches f -> let '(cl', n') := f cl n in
  c_ends cl' = c_ends cl /\ closed n' = closed n /\ ends n' = ends n /\ connections n' = connections n.
Proof. intros []; simpl; (split; [done|]); apply enableEnds_fields. Qed.

(** The network is another one with the same ends, and a client has the same ends. *)
Lemma same_ends_ok c n' clerks' : cfg_ok c -> closed n' = closed (cfg_net c) -> ends n' = ends (cfg_net c) ->
  connections n' = connections (cfg_net c) ->
  (forall k cl', clerks' ≫= lookup k = Some cl' -> exists cl, clerk c k = Some cl /\ c_ends cl' = c_ends cl) ->
  cfg_ok (set_clerks c n' clerks').
Proof.
  intros [H1 H2 H3 H4 H5] Hcl He Hco Hsame. assert (Hk : keeps any (cfg_net c) n') by (by apply keeps_unchanged). unfold clerk in Hsame. split; simpl.
  - intros g sg Hg. destruct (H1 g sg Hg). split; [by eapply grp_ok_keeps|done].
  - intros k cl' Hc. destruct (Hsame k cl' Hc) as (cl & Hcl0 & Hce). destruct (H2 k cl Hcl0) as [N1 N2].
    split; rewrite Hce; [exact N1|]. by rewrite He, Hco.
  - intros k k' cl cl' s s' e Hc Hc'. destruct (Hsame k cl Hc) as (cl0 & Hcl0 & ->). destruct (Hsame k' cl' Hc') as (cl1 & Hcl1 & ->). by eapply H3.
  - intros g sg a b k cl s e Hg Hc. destruct (Hsame k cl Hc) as (cl0 & Hcl0 & ->). by eapply H4.
  - congruence.
Qed.

Lemma on_client_ok c k f c' : cfg_ok c -> switches f -> on_client c k f = Some c' -> cfg_ok c'.
Proof.
  intros Hc Hf. unfold on_client. destruct (cfg_clerks c) as [m|] eqn:Hm; [|done]. simpl. destruct (m !! k) as [cl|] eqn:Hk; [|done]. simpl.
  pose proof (switches_fields f cl (cfg_net c) Hf) as Hs. destruct (f cl (cfg_net c)) as [cl' n']. destruct Hs as (Hce & Hcl & He & Hco). intros [= <-].
  apply same_ends_ok; [done..|]. intros k' cl1. simpl. unfold clerk. rewrite Hm. simpl.
  intros [[<- <-]|[_ H]]%lookup_insert_Some; [by exists cl|by exists cl1].
Qed.

Lemma cstep_ok c c' : cfg_ok c -> cstep c c' -> cfg_ok c'.
Proof.
  intros Hc [g names _ Hl Hm|g las Hla Hs|g l Hl Hs|g f Hf Hs|g Hs|k l Hk Hm|k server name Hs|k Hs|k f Hf Hs|yes Hs| ->| ->].
  - by eapply MakeGroup_ok.
  - eapply on_group_ok; [done..|]. intros sg sg' n' Hg Hst Hok. specialize (Hla sg Hg).
    destruct (StartServers_spec sg (cfg_net c) las Hok Hla) as (sg1 & n1 & Hst' & Hg1 & _ & Hgid & _). simplify_eq.
    split_and!; [done..| |]; by eapply StartServers_keeps.
  - eapply on_group_ok; [done..|]. intros sg sg' n' Hg Hk Hok. eapply (Kill_group_ok l); [done|by apply Hl|exact Hk].
  - eapply on_group_ok; [done..|]. intros sg sg' n' _ H Hok. destruct (Hf sg sg' n' H) as [(Hsv & Hgid & Hg & He & Hco & _) Hcl].
    split_and!; [done..|by apply keeps_unchanged|]. intros a b e. unfold endName. rewrite Hsv. by left.
  - unfold ExitGroup in Hs. destruct (on_group c g Shutdown) as [c1|] eqn:H1; simplify_eq/=. apply Shutdown_ok in H1 as [H1 H2 H3 H4 H5]; [|done].
    split; try done; simpl.
    + intros g' sg [_ Hl]%lookup_delete_Some. by apply H1.
    + intros g' sg a b k cl s e [_ Hl]%lookup_delete_Some. by eapply H4.
  - by eapply MakeClientTo_ok.
  - by eapply clientEnd_ok.
  - destruct (DeleteClient_ok c k Hc) as (c1 & H1 & Hc1 & _). by simplify_eq.
  - by eapply on_client_ok.
  - destruct Hs as [->|[->| ->]]; apply same_ends_ok; try done; intros k cl H; by exists cl.
  - by destruct Hc.
  - by destruct Hc.
Qed.

(** *** Cleaning up *)

Lemma cleanupClnts_ok c : cfg_ok c -> exists c', cleanupClnts c = Some c' /\ cfg_ok c' /\ cfg_grps c' = cfg_grps c /\
  forall k cl s e, clerk c k = Some cl -> c_ends cl !! s = Some e -> e ∉ ends (cfg_net c').
Proof.
  intros [H1 H2 H3 H4 H5]. unfold cleanupClnts. set (m := default ∅ (cfg_clerks c)). set (cls := (map_to_list m).*2).
  assert (Hm : forall k cl, m !! k = Some cl <-> clerk c k = Some cl) by (intros k cl; unfold m, clerk; by destruct (cfg_clerks c)).
  assert (Hin : forall cl, cl ∈ cls <-> exists k, clerk c k = Some cl).
  { intros cl. unfold cls. rewrite list_elem_of_fmap. split.
    - intros ([k cl'] & -> & H%elem_of_map_to_list). exists k. by apply Hm.
    - intros [k Hk%Hm]. exists (k, cl). split; [done|by apply elem_of_map_to_list]. }
  destruct (removeClients_spec cls (cfg_net c)) as (n & -> & Hkp & _ & Hgone).
  - intros cl [k Hk]%Hin. by eapply H2.
  - intros i j cl cl' e Hi Hj [s Hs]%its_ends_spec [s' Hs']%its_ends_spec. unfold cls in Hi, Hj.
    apply list_lookup_fmap_Some in Hi as ([k ?] & -> & Hi), Hj as ([k' ?] & -> & Hj). simpl in *.
    assert (Hi' := list_elem_of_lookup_2 _ _ _ Hi). assert (Hj' := list_elem_of_lookup_2 _ _ _ Hj).
    apply elem_of_map_to_list, Hm in Hi', Hj'. pose proof (H3 _ _ _ _ _ _ _ Hi' Hj' Hs Hs') as ->.
    apply (NoDup_lookup (map_to_list m).*1 i j k'); [apply NoDup_fst_map_to_list|..];
      apply list_lookup_fmap_Some; eexists (k', _); by split.
  - simpl. eexists. split; [done|]. split_and!; [|done|].
    + split; simpl; try done.
      * intros g sg Hl. destruct (H1 g sg Hl). split; [|done]. eapply grp_ok_keeps; [done|exact Hkp|].
        intros a b e He cl [k Hk]%Hin [s Hs]%its_ends_spec. by eapply H4.
      * by destruct Hkp as [-> _].
    + intros k cl s e Hk Hs. apply (Hgone cl); [apply Hin; eauto|apply its_ends_spec; eauto].
Qed.

Lemma cleanupGroups_ok order : forall c, cfg_ok c -> (forall g, g ∈ order -> is_Some (cfg_grps c !! g)) ->
  exists c', cleanupGroups c order = Some c' /\ cfg_ok c' /\ dom (cfg_grps c') = dom (cfg_grps c) /\
    (forall e, e ∈ ends (cfg_net c') -> e ∈ ends (cfg_net c)) /\
    (forall g sg, cfg_grps c' !! g = Some sg ->
       (g ∈ order \/ forall sg0 s, cfg_grps c !! g = Some sg0 -> s ∈ srvs sg0 -> dc s = None) -> forall s, s ∈ srvs sg -> dc s = None).
Proof.
  induction order as [|g order IH]; intros c Hc Hin; simpl.
  { exists c. split_and!; try done. intros g sg Hl [?%elem_of_nil|H] s Hs; [done|]. by eapply H. }
  destruct (Hin g) as [sg Hl]; [by left|]. destruct (o_grp _ Hc g sg Hl) as [Hg Hgid].
  destruct (Kill_spec (all sg) sg (cfg_net c) Hg (all_range sg)) as (sg1 & n1 & Hk & _ & _ & _ & He & _ & Hsv & _).
  assert (Ho : on_group c g Shutdown = Some (set_grps c n1 (<[g := sg1]> (cfg_grps c)))).
  { unfold on_group, lookupGroup. rewrite Hl. simpl. unfold Shutdown. by rewrite Hk. }
  rewrite Ho. simpl. pose proof (Shutdown_ok c g _ Hc Ho) as Hc1.
  assert (Hdead : forall s, s ∈ srvs sg1 -> dc s = None).
  { intros s [i Hi]%list_elem_of_lookup. rewrite Hsv in Hi. destruct (srvs sg !! i) as [s0|] eqn:Hs0; [|done]. simpl in Hi.
    apply lookup_lt_Some in Hs0. rewrite decide_True in Hi by (apply elem_of_seq; lia). injection Hi as <-.
    unfold shutdownServer. by destruct (dc s0) eqn:E. }
  destruct (IH _ Hc1) as (c' & Hcl & Hc' & Hdom & Hsub & Hall); simpl in *.
  { intros g' Hg'. destruct (decide (g = g')) as [->|]; [by rewrite lookup_insert_eq|]. rewrite lookup_insert_ne by done. apply Hin. by right. }
  exists c'. split_and!; [done|done|..].
  - rewrite Hdom, dom_insert_L. assert (g ∈ dom (cfg_grps c)) by (apply elem_of_dom; eauto). set_solver.
  - intros e Hine%Hsub. by rewrite He in Hine.
  - intros g' sg' Hl' Hor. eapply Hall; [done|]. destruct (decide (g = g')) as [->|Hne].
    + right. intros sg0 s. rewrite lookup_insert_eq. intros [= <-]. apply Hdead.
    + rewrite lookup_insert_ne by done. destruct Hor as [[->|?]%elem_of_cons|?]; auto; done.
Qed.

(** *** Names and ends *)

(** Only servers of the groups of the table are registered on the network. *)
Definition names_known (c : Config) : Prop := forall n v, serverAt (cfg_net c) n = Some v ->
  exists g sg i, cfg_grps c !! g = Some sg /\ (i < size sg)%nat /\ n = ServerName g i.

(** No two groups share an end. *)
Definition groups_apart (c : Config) : Prop := forall g g' sg sg' a b a' b' e,
  cfg_grps c !! g = Some sg -> cfg_grps c !! g' = Some sg' -> endName sg a b = Some e -> endName sg' a' b' = Some e -> g = g'.

(** What an operation on a group does to the names. *)
Definition registers (n n' : Network) (sg : ServerGrp) : Prop :=
  forall x v, serverAt n' x = Some v -> serverAt n x = Some v \/ exists i, (i < size sg)%nat /\ x = ServerName (gid sg) i.

Lemma set_group_names c g sg' n' : cfg_ok c -> names_known c -> groups_apart c -> gid sg' = g ->
  (forall sg, cfg_grps c !! g = Some sg -> size sg' = size sg) -> registers (cfg_net c) n' sg' ->
  (forall a b e, endName sg' a b = Some e ->
     (exists sg a' b', cfg_grps c !! g = Some sg /\ endName sg a' b' = Some e) \/ e ∉ ends (cfg_net c)) ->
  let c' := set_grps c n' (<[g := sg']> (cfg_grps c)) in names_known c' /\ groups_apart c'.
Proof.
  intros Hc Hn Ha Hgid Hsz Hr He. split.
  - intros x v Hx. simpl in *. destruct (Hr x v Hx) as [Hold|(i & Hi & ->)].
    + destruct (Hn x v Hold) as (g' & sg & i & Hl & Hi & ->). destruct (decide (g' = g)) as [->|Hne].
      * exists g, sg', i. rewrite lookup_insert_eq, (Hsz sg Hl). done.
      * exists g', sg, i. by rewrite lookup_insert_ne.
    + exists g, sg', i. by rewrite lookup_insert_eq, Hgid.
  - assert (Hone : forall g1 sg1 a b a' b' e, g1 <> g -> cfg_grps c !! g1 = Some sg1 -> endName sg1 a b = Some e -> endName sg' a' b' = Some e -> False).
    { intros g1 sg1 a b a' b' e Hne Hl H1 H2. destruct (He a' b' e H2) as [(sg & a2 & b2 & Hlg & H3)|Hf].
      - by apply Hne, (Ha g1 g sg1 sg a b a2 b2 e).
      - destruct (o_grp _ Hc g1 sg1 Hl) as [Hg _]. by apply Hf, (g_made _ _ Hg a b). }
    intros g1 g2 sg1 sg2 a b a' b' e. simpl.
    intros [[<- <-]|[Hne Hl]]%lookup_insert_Some [[<- <-]|[Hne' Hl']]%lookup_insert_Some H1 H2; [done|..].
    + exfalso. by eapply Hone.
    + exfalso. by eapply Hone.
    + by eapply Ha.
Qed.

Lemma on_group_names c g f c' : cfg_ok c -> names_known c -> groups_apart c -> on_group c g f = Some c' ->
  (forall sg sg' n', cfg_grps c !! g = Some sg -> f sg (cfg_net c) = Some (sg', n') -> grp_ok sg (cfg_net c) ->
     size sg' = size sg /\ gid sg' = gid sg /\ registers (cfg_net c) n' sg /\ renamed (cfg_net c) sg sg') ->
  names_known c' /\ groups_apart c'.
Proof.
  intros Hc Hn Ha. unfold on_group, lookupGroup. destruct (cfg_grps c !! g) as [sg|] eqn:Hl; [|done]. simpl.
  destruct (f sg (cfg_net c)) as [[sg' n']|] eqn:Hf; [|done]. simpl. intros [= <-] Hop.
  destruct (o_grp _ Hc g sg Hl) as [Hg Hgid]. destruct (Hop sg sg' n' eq_refl Hf Hg) as (Hsz & Hgid' & Hr & Hren).
  apply set_group_names; [done..|congruence| | |].
  - intros sg0 E. rewrite Hl in E. by injection E as <-.
  - intros x v Hx. rewrite Hsz, Hgid'. by apply Hr.
  - intros a b e [He|He]%Hren; [left; eauto|by right].
Qed.

Lemma Kill_names l sg n sg' n' : grp_ok sg n -> in_range sg l -> Kill sg n l = Some (sg', n') ->
  size sg' = size sg /\ gid sg' = gid sg /\ registers n n' sg /\ renamed n sg sg'.
Proof.
  intros Hg Hl Hk. destruct (Kill_group_ok l sg n sg' n' Hg Hl Hk) as (_ & Hgid & _ & Hren).
  destruct (Kill_spec l sg n Hg Hl) as (sg1 & n1 & Hk1 & _ & Hsz & _ & _ & _ & _ & Hsa & _). simplify_eq.
  split_and!; [done..| |done]. intros x v Hx. left. destruct (Hsa x) as [E|E]; congruence.
Qed.

Lemma StartServers_names sg n las sg' n' : grp_ok sg n -> launches_ok sg n las -> StartServers sg n las = Some (sg', n') ->
  registers n n' sg.
Proof.
  intros Hg (Hlen & Hla & Hnd & Hf). unfold StartServers. set (l := zip (all sg) las).
  assert (Hal : length (all sg) = length las) by (unfold all; by rewrite length_seq).
  assert (H1 : l.*1 = all sg) by (apply fst_zip; lia).
  destruct (StartSrvs sg n l) as [[sg1 n1]|] eqn:Hst; [|done]. simpl. intros Hc.
  destruct (StartSrvs_spec l sg n sg1 n1 Hg) as (Hg1 & _ & _ & _ & _ & _ & Hsa); [rewrite H1; apply all_range|rewrite H1; apply NoDup_seq| |exact Hst|].
  { intros i la Hin. apply Hla. by apply elem_of_zip_r in Hin. }
  destruct (ConnectAll_spec sg1 n1 Hg1) as (sg2 & n2 & Hc2 & (_ & _ & _ & (_ & _ & Hsr)) & _). simplify_eq.
  intros x v. unfold serverAt. rewrite Hsr. change (serverAt n1 x = Some v -> serverAt n x = Some v \/ exists i, (i < size sg)%nat /\ x = ServerName (gid sg) i).
  destruct (decide (Exists (fun i => x = ServerName (gid sg) i) (all sg))) as [(i & Hi & ->)%Exists_exists|Hno].
  - intros _. right. exists i. split; [by apply all_range|done].
  - rewrite Hsa; [by left|]. intros i Hi ->. apply Hno, Exists_exists. rewrite H1 in Hi. eauto.
Qed.

Lemma makeSrvGrp_servers n g names n' sg : makeSrvGrp n g names = Some (n', sg) -> servers n' = servers n.
Proof.
  unfold makeSrvGrp. destruct (makeServers n g names) as [[n1 l]|] eqn:Hm; [|done]. simpl. intros [= <- _].
  revert n l Hm. induction names as [|ns names IH]; intros n l H; simplify_eq/=; [done|]. unfold makeServer in H.
  destruct (makeEnds n g 0 ns) as [n2|] eqn:He; [|done]. simpl in H.
  destruct (makeServers n2 g names) as [[n3 l3]|] eqn:Hms; simplify_eq/=. apply makeEnds_spec in He as (_ & _ & _ & _ & Hs & _).
  by rewrite (IH _ _ Hms).
Qed.

Lemma removeEnds_servers es : forall n n', removeEnds es n = Some n' -> servers n' = servers n.
Proof.
  induction es as [|e es IH]; intros n n' H; simplify_eq/=; [done|]. unfold DeleteEnd in H. destruct (decide _); [|done].
  simpl in H. by rewrite (IH _ _ H).
Qed.

Lemma removeClients_servers cls : forall n n', removeClients cls n = Some n' -> servers n' = servers n.
Proof.
  induction cls as [|cl cls IH]; intros n n' H; simplify_eq/=; [done|].
  destruct (remove cl n) as [n1|] eqn:Hr; [|done]. simpl in H. by rewrite (IH _ _ H), (removeEnds_servers _ _ _ Hr).
Qed.

(** Whatever leaves the table and the registrations alone. *)
Lemma same_names c c' : cfg_grps c' = cfg_grps c -> servers (cfg_net c') = servers (cfg_net c) -> names_known c -> groups_apart c ->
  names_known c' /\ groups_apart c'.
Proof. intros Hg Hs Hn Ha. unfold names_known, groups_apart, serverAt in *. rewrite Hg, Hs. done. Qed.

Lemma enableEnds_servers cl which yes n : servers (enableEnds cl which yes n) = servers n.
Proof. unfold enableEnds. induction (map_to_list (c_ends cl)) as [|[sv e] l IH]; simpl; [done|]. by destruct (which sv). Qed.

Lemma switches_servers f cl n : switches f -> servers (f cl n).2 = servers n.
Proof. intros []; apply enableEnds_servers. Qed.

(** Shutting down a group takes its names off the network. *)
Lemma Shutdown_gone c g c' : cfg_ok c -> on_group c g Shutdown = Some c' ->
  exists sg sg', cfg_grps c !! g = Some sg /\ cfg_grps c' = <[g := sg']> (cfg_grps c) /\ size sg' = size sg /\
    (forall x v, serverAt (cfg_net c') x = Some v -> serverAt (cfg_net c) x = Some v /\ forall i, (i < size sg)%nat -> x <> ServerName g i).
Proof.
  intros Hc. unfold on_group, lookupGroup. destruct (cfg_grps c !! g) as [sg|] eqn:Hl; [|done]. simpl. destruct (o_grp _ Hc g sg Hl) as [Hg Hgid].
  destruct (Kill_spec (all sg) sg (cfg_net c) Hg (all_range sg)) as (sg1 & n1 & Hk & _ & Hsz & _ & _ & _ & _ & Hsa & Hno & _).
  unfold Shutdown. rewrite Hk. simpl. intros [= <-]. exists sg, sg1. split_and!; [done..|]. simpl. intros x v Hx. split.
  - destruct (Hsa x) as [E|E]; congruence.
  - intros i Hi ->. rewrite <- Hgid, Hno in Hx; [done|]. apply elem_of_seq. unfold size in Hi. lia.
Qed.

Lemma cstep_names c c' : cfg_ok c -> names_known c -> groups_apart c -> cstep c c' -> names_known c' /\ groups_apart c'.
Proof.
  intros Hc Hn Ha [g names Hno Hl Hm|g las Hla Hs|g l Hl Hs|g f Hf Hs|g Hs|k l Hk Hm|k server name Hs|k Hs|k f Hf Hs|yes Hs| ->| ->].
  - unfold MakeGroup in Hm. destruct (makeSrvGrp _ _ _) as [[n sg]|] eqn:Hmk; [|done]. simpl in Hm. injection Hm as <-.
    pose proof (makeSrvGrp_servers _ _ _ _ _ Hmk) as Hsv. apply makeSrvGrp_keeps in Hmk as (_ & Hgid & Hnew).
    apply set_group_names; [done..| | |].
    + intros sg0 E. unfold lookupGroup in Hno. congruence.
    + intros x v. unfold serverAt. rewrite Hsv. by left.
    + intros a b e He. right. by eapply Hnew.
  - eapply on_group_names; [done..|]. intros sg sg' n' Hg Hst Hok. specialize (Hla sg Hg).
    destruct (StartServers_spec sg (cfg_net c) las Hok Hla) as (sg1 & n1 & Hst' & _ & Hsz & Hgid & _). simplify_eq.
    split_and!; [done..|by eapply StartServers_names|by eapply StartServers_keeps].
  - eapply on_group_names; [done..|]. intros sg sg' n' Hg Hk Hok. eapply (Kill_names l); [done|by apply Hl|exact Hk].
  - eapply on_group_names; [done..|]. intros sg sg' n' _ H Hok. destruct (Hf sg sg' n' H) as [(Hsv & Hgid & _ & _ & _ & Hsr) _].
    split_and!; [by unfold size; rewrite Hsv|done|intros x v; unfold serverAt; rewrite Hsr; by left|].
    intros a b e. unfold endName. rewrite Hsv. by left.
  - unfold ExitGroup in Hs. destruct (on_group c g Shutdown) as [c1|] eqn:H1; [|done]. simpl in Hs. injection Hs as <-.
    assert (names_known c1 /\ groups_apart c1) as [Hn1 Ha1].
    { eapply on_group_names; [done..|]. intros sg sg' n' _ Hk Hok. eapply Kill_names; [done|apply all_range|exact Hk]. }
    destruct (Shutdown_gone c g c1 Hc H1) as (sg & sg' & Hl & Hg1 & Hsz & Hgone). split.
    + intros x v Hx. simpl in Hx. destruct (Hn1 x v Hx) as (g' & sg1 & i & Hl1 & Hi & ->). destruct (decide (g' = g)) as [->|Hne].
      * rewrite Hg1, lookup_insert_eq in Hl1. injection Hl1 as <-. destruct (Hgone _ _ Hx) as [_ Hx']. by destruct (Hx' i); [lia|].
      * exists g', sg1, i. simpl. by rewrite lookup_delete_ne.
    + intros g1 g2 sg1 sg2 a b a' b' e. simpl. intros [_ L1]%lookup_delete_Some [_ L2]%lookup_delete_Some. by eapply Ha1.
  - unfold MakeClientTo in Hm. destruct (cfg_clerks c); [|done]. simpl in Hm. injection Hm as <-. by apply (same_names c).
  - unfold clientEnd in Hs. destruct (cfg_clerks c) as [m|]; [|done]. simpl in Hs. destruct (m !! k) as [cl|]; [|done]. simpl in Hs.
    destruct (makeEnd _ _ _ _) as [[[cl1 n1] e1]|] eqn:He; [|done]. simpl in Hs. injection Hs as <-. apply (same_names c); [done| |done..].
    unfold makeEnd in He. destruct (c_ends cl !! server); [by injection He as <- <- <-|].
    destruct (MakeEnd name (cfg_net c)) as [n0|] eqn:Hme; [|done]. simpl in He. injection He as <- <- <-.
    by apply MakeEnd_Some in Hme as (_ & _ & _ & ? & _).
  - unfold DeleteClient in Hs. destruct (_ ≫= lookup k) as [cl|]; [|by injection Hs as <-].
    destruct (remove cl (cfg_net c)) as [n|] eqn:Hr; [|done]. simpl in Hs. injection Hs as <-.
    apply (same_names c); [done| |done..]. by eapply removeEnds_servers.
  - unfold on_client in Hs. destruct (cfg_clerks c) as [m|]; [|done]. simpl in Hs. destruct (m !! k) as [cl|]; [|done]. simpl in Hs.
    pose proof (switches_servers f cl (cfg_net c) Hf) as Hsv. destruct (f cl (cfg_net c)) as [cl' n']. injection Hs as <-. by apply (same_names c).
  - destruct Hs as [->|[->| ->]]; by apply (same_names c).
  - by apply (same_names c).
  - by apply (same_names c).
Qed.

Lemma cleanupGroups_gone order : forall c c', cfg_ok c -> cleanupGroups c order = Some c' ->
  forall x v, serverAt (cfg_net c') x = Some v -> serverAt (cfg_net c) x = Some v /\
    forall g sg i, g ∈ order -> cfg_grps c !! g = Some sg -> (i < size sg)%nat -> x <> ServerName g i.
Proof.
  induction order as [|g order IH]; intros c c' Hc; simpl.
  { intros [= <-] x v Hx. split; [done|]. by intros g sg i ?%elem_of_nil. }
  destruct (on_group c g Shutdown) as [c1|] eqn:H1; [|done]. simpl. intros Hcl x v Hx.
  destruct (Shutdown_gone c g c1 Hc H1) as (sg & sg' & Hl & Hg1 & Hsz & Hgone).
  destruct (IH c1 c' (Shutdown_ok _ _ _ Hc H1) Hcl x v Hx) as [Hx1 Hrest]. destruct (Hgone x v Hx1) as [Hx0 Hno].
  split; [done|]. intros g' sg0 i Hin Hl0 Hi. destruct (decide (g' = g)) as [->|Hne].
  - rewrite Hl in Hl0. injection Hl0 as <-. by apply Hno.
  - apply elem_of_cons in Hin as [->|Hin]; [done|]. eapply Hrest; [done| |done]. by rewrite Hg1, lookup_insert_ne.
Qed.

Lemma cleanupGroups_clerks order : forall c c', cleanupGroups c order = Some c' -> cfg_clerks c' = cfg_clerks c.
Proof.
  induction order as [|g order IH]; intros c c' H; simplify_eq/=; [done|].
  destruct (on_group c g Shutdown) as [c1|] eqn:H1; [|done]. simpl in H. rewrite (IH _ _ H). unfold on_group in H1.
  destruct (lookupGroup c g) as [sg|]; [|done]. simpl in H1. destruct (Shutdown sg (cfg_net c)) as [[sg1 n1]|]; [|done]. simpl in H1. by injection H1 as <-.
Qed.

(** Whose end it is: by it server [a] of a group calls server [b], or a client calls a
    server. *)
Inductive holder := HServer (g : Z) (a b : nat) | HClient (k : nat) (server : string).

Definition holds_end (c : Config) (h : holder) (e : string) : Prop :=
  match h with
  | HServer g a b => exists sg, cfg_grps c !! g = Some sg /\ endName sg a b = Some e
  | HClient k s => exists cl, clerk c k = Some cl /\ c_ends cl !! s = Some e
  end.

Lemma ends_apart c h h' e : cfg_ok c -> groups_apart c -> holds_end c h e -> holds_end c h' e -> h = h'.
Proof.
  intros Hc Ha. destruct h as [g a b|k s], h' as [g' a' b'|k' s']; intros (x & Hx & He) (y & Hy & He').
  - assert (g' = g) as -> by (by eapply Ha). rewrite Hx in Hy. injection Hy as <-.
    destruct (o_grp _ Hc g x Hx) as [Hg _]. by destruct (g_inj _ _ Hg _ _ _ _ _ He He') as [-> ->].
  - by destruct (o_servers _ Hc _ _ _ _ _ _ _ _ Hx Hy He He').
  - by destruct (o_servers _ Hc _ _ _ _ _ _ _ _ Hy Hx He' He).
  - assert (k' = k) as -> by (by eapply (o_apart _ Hc)). rewrite Hx in Hy. injection Hy as <-.
    by rewrite (n_inj _ _ (o_clnt _ Hc k x Hx) s s' e He He').
Qed.

Lemma holds_end_made c h e : cfg_ok c -> holds_end c h e -> e ∈ ends (cfg_net c).
Proof.
  intros Hc. destruct h as [g a b|k s]; intros (x & Hx & He).
  - destruct (o_grp _ Hc g x Hx) as [Hg _]. by eapply g_made.
  - by apply (n_made _ _ (o_clnt _ Hc k x Hx) s e).
Qed.

(** *** What others notice of a start *)

Lemma eachLink_others sg pair yes js e : (forall a b, endName sg a b <> Some e) ->
  forall n n', eachLink sg pair yes js n = Some n' -> isEnabled n' e = isEnabled n e.
Proof.
  intros He. induction js as [|j js IH]; intros n n' H; simplify_eq/=; [done|].
  destruct (if yes then _ else _) as [[]|]; [..|done]; simplify_eq/=; [|by apply IH].
  destruct (enableLink _ _ _ _ _) as [n1|] eqn:Hel; [|done]. simpl in H. rewrite (IH _ _ H).
  unfold enableLink in Hel. destruct (srvs sg !! (pair j).1) as [s|] eqn:Hs; [|done]. simpl in Hel.
  destruct (endNames s !! (pair j).2) as [e'|] eqn:He'; [|done]. simpl in Hel. injection Hel as <-.
  rewrite isEnabled_Enable, decide_False; [done|]. intros ->. apply (He (pair j).1 (pair j).2). unfold endName. by rewrite Hs.
Qed.

Lemma connects_others l e : forall sg n sg' n', (forall a b, endName sg a b <> Some e) -> connects sg n l = Some (sg', n') ->
  isEnabled n' e = isEnabled n e.
Proof.
  induction l as [|i l IH]; intros sg n sg' n' He H; simplify_eq/=; [done|].
  destruct (ConnectOne sg n i) as [[sg1 n1]|] eqn:Hc; [|done]. simpl in H. unfold ConnectOne, connect in Hc.
  destruct (set_connected sg i true) as [sg2|] eqn:Hset; [|done]. simpl in Hc.
  assert (Hsv : srvs sg2 = srvs sg) by (unfold set_connected in Hset; destruct (connected sg !! i); [|done]; simpl in Hset; by injection Hset as <-).
  assert (He2 : forall a b, endName sg2 a b <> Some e) by (intros a b; unfold endName; rewrite Hsv; apply He).
  destruct (connectOut _ _ _ _) as [n2|] eqn:H1; [|done]. simpl in Hc. destruct (connectIn _ _ _ _) as [n3|] eqn:H2; [|done].
  simpl in Hc. injection Hc as <- <-. rewrite (IH _ _ _ _ He2 H).
  by rewrite (eachLink_others _ _ _ _ _ He2 _ _ H2), (eachLink_others _ _ _ _ _ He2 _ _ H1).
Qed.

Lemma StartSrvs_others l e : forall sg n sg' n', e ∈ ends n -> StartSrvs sg n l = Some (sg', n') -> isEnabled n' e = isEnabled n e.
Proof.
  induction l as [|[i la] l IH]; intros sg n sg' n' He H; simplify_eq/=; [done|].
  destruct (StartServer _ _ _ _ _ _) as [[[sg1 n1] b]|] eqn:Hst; [|done]. simpl in H.
  pose proof (StartServer_keeps _ _ _ _ _ _ _ _ _ Hst) as [[_ Hk] _]. destruct (Hk e He I) as [He1 _]. rewrite (IH _ _ _ _ He1 H).
  unfold StartServer, startServer, makeServer in Hst. destruct (srvs sg !! i) as [s|]; [|done]. simpl in Hst.
  destruct (makeEnds n (gid sg) 0 (la_names la)) as [n2|] eqn:Hm; [|done]. simpl in Hst.
  apply makeEnds_spec in Hm as (_ & Hf & _ & _ & _ & _ & Hen).
  assert (Hn2 : isEnabled n2 e = isEnabled n e) by (rewrite Hen; apply decide_False; intros Hin; by apply (Hf e Hin)).
  destruct (la_up la); injection Hst as <- <- <-; exact Hn2.
Qed.

(** Starting a group changes neither the names nor the links of the other groups. *)
Lemma StartServers_others sg n las sg' n' : grp_ok sg n -> launches_ok sg n las -> StartServers sg n las = Some (sg', n') ->
  (forall x, (forall i, x <> ServerName (gid sg) i) -> serverAt n' x = serverAt n x) /\
  forall e, e ∈ ends n -> (forall a b, endName sg a b <> Some e) -> isEnabled n' e = isEnabled n e.
Proof.
  intros Hg (Hlen & Hla & Hnd & Hf). unfold StartServers. set (l := zip (all sg) las).
  assert (Hal : length (all sg) = length las) by (unfold all; by rewrite length_seq).
  assert (H1 : l.*1 = all sg) by (apply fst_zip; lia).
  destruct (StartSrvs sg n l) as [[sg1 n1]|] eqn:Hst; [|done]. simpl. intros Hc.
  destruct (StartSrvs_spec l sg n sg1 n1 Hg) as (Hg1 & _ & _ & _ & _ & _ & Hsa); [rewrite H1; apply all_range|rewrite H1; apply NoDup_seq| |exact Hst|].
  { intros i la Hin. apply Hla. by apply elem_of_zip_r in Hin. }
  destruct (ConnectAll_spec sg1 n1 Hg1) as (sg2 & n2 & Hc2 & (_ & _ & _ & (_ & _ & Hsr)) & _). simplify_eq. split.
  - intros x Hx. transitivity (serverAt n1 x); [unfold serverAt; by rewrite Hsr|]. apply Hsa. intros i _. apply Hx.
  - intros e He Hno. rewrite <- (StartSrvs_others l e sg n sg1 n1 He Hst). eapply connects_others; [|exact Hc].
    intros a b Hn. destruct (StartSrvs_keeps l sg n sg1 n1 Hst) as [_ Hr]. apply Hr in Hn as [Hn|Hn]; [by eapply Hno|done].
Qed.

(** *** A new test *)

Lemma makeServers_total names : forall n g, NoDup (concat names) -> (forall e, e ∈ concat names -> e ∉ ends n) ->
  exists n' l, makeServers n g names = Some (n', l) /\ forall e, e ∈ ends n' <-> e ∈ concat names \/ e ∈ ends n.
Proof.
  induction names as [|ns names IH]; intros n g Hnd Hf; simpl.
  { exists n, []. split; [done|]. intros e. rewrite elem_of_nil. tauto. }
  simpl in *. apply NoDup_app in Hnd as (Hnd & Hdis & Hnd'). unfold makeServer.
  destruct (makeEnds_fresh ns n g 0 Hnd) as [n1 Hn1]; [intros e He; apply Hf, elem_of_app; by left|].
  rewrite Hn1. simpl. apply makeEnds_spec in Hn1 as (_ & _ & Hends & _).
  destruct (IH n1 g Hnd') as (n' & l & -> & Hends').
  { intros e He [Hin|Hin]%Hends; [by apply (Hdis e)|]. apply (Hf e); [|done]. apply elem_of_app. by right. }
  simpl. eexists _, _. split; [done|]. intros e. rewrite Hends', Hends, elem_of_app. tauto.
Qed.

(** No end is made but those of the given names. *)
Lemma StartSrvs_ends l : forall sg n sg' n', StartSrvs sg n l = Some (sg', n') ->
  forall e, e ∈ ends n' -> e ∈ l.*2 ≫= la_names \/ e ∈ ends n.
Proof.
  induction l as [|[i la] l IH]; intros sg n sg' n' H e; simplify_eq/=; [by right|].
  destruct (StartServer _ _ _ _ _ _) as [[[sg1 n1] b]|] eqn:Hst; [|done]. simpl in H. intros He.
  apply (IH _ _ _ _ H) in He as [He|He]; [left; apply elem_of_app; by right|].
  unfold StartServer, startServer, makeServer in Hst. destruct (srvs sg !! i) as [s|]; [|done]. simpl in Hst.
  destruct (makeEnds n (gid sg) 0 (la_names la)) as [n2|] eqn:Hm; [|done]. simpl in Hst.
  apply makeEnds_spec in Hm as (_ & _ & Hends & _). rewrite elem_of_app.
  destruct (la_up la); simplify_eq/=; apply Hends in He as [He|He]; auto.
Qed.

Lemma StartServers_ends sg n las sg' n' : grp_ok sg n -> launches_ok sg n las -> StartServers sg n las = Some (sg', n') ->
  forall e, e ∈ ends n' -> e ∈ las ≫= la_names \/ e ∈ ends n.
Proof.
  intros Hg (Hlen & Hla & Hnd & Hf). unfold StartServers. set (l := zip (all sg) las).
  assert (Hal : length (all sg) = length las) by (unfold all; by rewrite length_seq).
  assert (H1 : l.*1 = all sg) by (apply fst_zip; lia). assert (H2 : l.*2 = las) by (apply snd_zip; lia).
  destruct (StartSrvs sg n l) as [[sg1 n1]|] eqn:Hst; [|done]. simpl. intros Hc.
  assert (Hg1 : grp_ok sg1 n1).
  { eapply StartSrvs_spec; [..|exact Hst]; [done|rewrite H1; apply all_range|rewrite H1; apply NoDup_seq|].
    intros i la Hin. apply Hla. by apply elem_of_zip_r in Hin. }
  destruct (ConnectAll_spec sg1 n1 Hg1) as (sg2 & n2 & Hc2 & (_ & _ & _ & (He & _)) & _). simplify_eq.
  rewrite He. rewrite <- H2. by eapply StartSrvs_ends.
Qed.

(** What is random in the start of a group: as many launches and names as
    servers, and no name twice or in use. *)
Definition start_ok (c : Config) (names : list (list string)) (las : list launch) : Prop :=
  (forall ns, ns ∈ names -> length ns = length names) /\ length las = length names /\
  (forall la, la ∈ las -> la_up la = true /\ length (la_names la) = length names) /\
  NoDup (concat names ++ (las ≫= la_names)) /\ forall e, e ∈ concat names ++ (las ≫= la_names) -> e ∉ ends (cfg_net c).

Lemma made_launches c g names las c1 sg : start_ok c names las -> MakeGroup c g names = Some c1 -> lookupGroup c1 g = Some sg ->
  launches_ok sg (cfg_net c1) las.
Proof.
  intros (Hsq & Hlen & Hla & (Hnd & Hdis & Hnd')%NoDup_app & Hf) Hm Hl.
  destruct (makeServers_total names (cfg_net c) g Hnd) as (n & l & Hms & Hends); [intros e He; apply Hf, elem_of_app; by left|].
  unfold MakeGroup, makeSrvGrp in Hm. rewrite Hms in Hm. simpl in Hm. injection Hm as <-. unfold lookupGroup in Hl. simpl in Hl.
  rewrite lookup_insert_eq in Hl. injection Hl as <-. apply makeServers_spec in Hms as (-> & _).
  assert (Hsz : forall b, size (mkGrp ((fun ns => mkSrvr ns None None) <$> names) g b) = length names) by (intros b; unfold size; simpl; apply length_fmap).
  split_and!; rewrite ?Hsz; [done..|]. simpl. intros e He [Hin|Hin]%Hends; [by apply (Hdis e)|]. apply (Hf e); [|done]. apply elem_of_app. by right.
Qed.

(** [MakeGroupStart]: the servers of a new group run with empty states, each under
    its name, and each reaches each other; the other groups are as they were. *)
Lemma MakeGroupStart_ok c g names las : cfg_ok c -> start_ok c names las ->
  exists c' sg, MakeGroupStart c g names las = Some c' /\ cfg_ok c' /\ lookupGroup c' g = Some sg /\ gid sg = g /\
    size sg = length names /\ cfg_grps c' = <[g := sg]> (cfg_grps c) /\ cfg_clerks c' = cfg_clerks c /\
    (forall e, e ∈ ends (cfg_net c') -> e ∈ concat names ++ (las ≫= la_names) \/ e ∈ ends (cfg_net c)) /\
    (forall i la, las !! i = Some la -> runs_with sg i Tester.empty /\ serverAt (cfg_net c') (ServerName g i) = Some (la_srv la)) /\
    (forall a b, (a < length names)%nat -> (b < length names)%nat -> link sg (cfg_net c') a b) /\
    (forall x, (forall i, x <> ServerName g i) -> serverAt (cfg_net c') x = serverAt (cfg_net c) x) /\
    forall e, e ∈ ends (cfg_net c) -> e ∈ ends (cfg_net c') /\ isEnabled (cfg_net c') e = isEnabled (cfg_net c) e.
Proof.
  intros Hc0 (Hsq & Hlen & Hla & (Hnd & Hdis & Hnd')%NoDup_app & Hf).
  assert (Hf1 : forall e, e ∈ concat names -> e ∉ ends (cfg_net c)) by (intros e He; apply Hf, elem_of_app; by left).
  assert (Hf2 : forall e, e ∈ las ≫= la_names -> e ∉ ends (cfg_net c)) by (intros e He; apply Hf, elem_of_app; by right).
  destruct (makeServers_total names (cfg_net c) g Hnd Hf1) as (n & l & Hms & Hends).
  assert (Hm : makeSrvGrp (cfg_net c) g names = Some (n, mkGrp l g (replicate (length names) false))) by (unfold makeSrvGrp; by rewrite Hms).
  set (sg0 := mkGrp l g _) in Hm. destruct (makeSrvGrp_ok _ _ _ _ _ Hm Hsq) as (Hg & Hsz & _).
  apply makeServers_spec in Hms as (Hl & _ & Hmade & Hkeep).
  assert (Hmg : MakeGroup c g names = Some (set_grps c n (<[g := sg0]> (cfg_grps c)))) by (unfold MakeGroup; simpl; by rewrite Hm).
  pose proof (MakeGroup_ok c g names _ Hc0 Hsq Hmg) as Hc1.
  assert (Hlo : launches_ok sg0 n las).
  { split_and!; [congruence|by rewrite Hsz|done|]. intros e He [Hin|Hin]%Hends; [by apply (Hdis e)|by apply (Hf2 e)]. }
  destruct (StartServers_spec sg0 n las Hg Hlo) as (sg & n' & Hst & Hg' & Hsz' & Hgid & Hrun & Hlk).
  set (c2 := set_grps c n' (<[g := sg]> (cfg_grps c))).
  assert (Hon : on_group (set_grps c n (<[g := sg0]> (cfg_grps c))) g (fun sg n => StartServers sg n las) = Some c2).
  { unfold on_group, lookupGroup. simpl. rewrite lookup_insert_eq. simpl. rewrite Hst. simpl. unfold c2, set_grps. simpl. by rewrite insert_insert_eq. }
  exists c2, sg. split_and!; try done.
  - unfold MakeGroupStart. by rewrite Hmg.
  - eapply (cstep_ok _ _ Hc1), (K_start _ _ g las); [|exact Hon]. intros sg1. unfold lookupGroup. simpl. rewrite lookup_insert_eq. by intros [= <-].
  - unfold lookupGroup. simpl. by rewrite lookup_insert_eq.
  - congruence.
  - simpl. intros e [He|He]%(StartServers_ends sg0 n las sg n' Hg Hlo Hst); [left; apply elem_of_app; by right|].
    apply Hends in He as [He|He]; [left; apply elem_of_app; by left|by right].
  - intros i la Hi. destruct (lookup_lt_is_Some_2 (srvs sg0) i) as [s Hs0].
    { apply lookup_lt_Some in Hi. unfold size in Hsz. lia. }
    destruct (Hrun i la s Hi Hs0) as [Hr Hsa]. simpl in Hs0. rewrite Hl, list_lookup_fmap in Hs0.
    destruct (names !! i); simplify_eq/=. split; [done|exact Hsa].
  - intros a b Ha Hb. apply Hlk; by rewrite Hsz.
  - intros x Hx. destruct (StartServers_others sg0 n las sg n' Hg Hlo Hst) as [Hsr _]. simpl. rewrite Hsr by done.
    unfold serverAt. by rewrite (makeSrvGrp_servers _ _ _ _ _ Hm).
  - intros e He. destruct (Hkeep e He) as (Hin & _ & Hen). destruct (StartServers_others sg0 n las sg n' Hg Hlo Hst) as [_ Hoth].
    destruct (StartServers_keeps sg0 n las sg n' Hg Hlo Hst) as [[_ Hk] _]. split; [by apply Hk|]. simpl. rewrite Hoth; [done..|].
    intros a b Hn. unfold endName in Hn. simpl in Hn. rewrite Hl, list_lookup_fmap in Hn. destruct (names !! a) as [ns|] eqn:Ha; [|done].
    simpl in Hn. by destruct (Hmade _ _ _ _ Ha Hn).
Qed.

(** A test starts with all its servers: whatever names the ends get, [n] servers
    run with empty states, each under its name, and each reaches each other. *)
Theorem MakeConfig_ready names las yes :
  start_ok newConfig names las ->
  exists c sg, MakeConfig names las yes = Some c /\ cfg_ok c /\ lookupGroup c GRP0 = Some sg /\
    size sg = length names /\ reliable (cfg_net c) = yes /\ cfg_clerks c = Some ∅ /\
    (forall i la, las !! i = Some la -> runs_with sg i Tester.empty /\ serverAt (cfg_net c) (ServerName GRP0 i) = Some (la_srv la)) /\
    forall a b, (a < length names)%nat -> (b < length names)%nat -> link sg (cfg_net c) a b.
Proof.
  intros Hok. set (c0 := newConfig) in *. assert (Hc0 : cfg_ok c0) by (split; done).
  destruct (MakeGroupStart_ok c0 GRP0 names las Hc0 Hok) as (c & sg & Hs & Hc2 & Hl & _ & Hsz & _ & _ & _ & Hrun & Hlk & _).
  unfold MakeConfig. fold c0. rewrite Hs. simpl. eexists _, sg. split; [done|]. split; [|done].
  destruct Hc2 as [H1 _ _ _ H5]. split; try done; simpl.
  intros g sg1 Hl1. destruct (H1 g sg1 Hl1) as [Hg1 ?]. split; [|done]. by destruct Hg1.
Qed.

(** [ExitGroup]: the servers are stopped and the group is forgotten. *)
Lemma ExitGroup_ok c g : cfg_ok c -> is_Some (cfg_grps c !! g) ->
  exists c', ExitGroup c g = Some c' /\ cfg_ok c' /\ cfg_grps c' = delete g (cfg_grps c) /\ cfg_clerks c' = cfg_clerks c /\
    ends (cfg_net c') = ends (cfg_net c) /\
    (forall x, serverAt (cfg_net c') x = None \/ serverAt (cfg_net c') x = serverAt (cfg_net c) x) /\
    forall sg i, cfg_grps c !! g = Some sg -> (i < size sg)%nat -> serverAt (cfg_net c') (ServerName g i) = None.
Proof.
  intros Hc [sg Hl]. destruct (o_grp _ Hc g sg Hl) as [Hg Hgid].
  destruct (Kill_spec (all sg) sg (cfg_net c) Hg (all_range sg)) as (sg' & n' & Hk & _ & _ & _ & He & _ & _ & Hsa & Hno & _).
  assert (Hex : ExitGroup c g = Some (deleteGroup (set_grps c n' (<[g := sg']> (cfg_grps c))) g)).
  { unfold ExitGroup, on_group, lookupGroup. rewrite Hl. simpl. change (Shutdown sg (cfg_net c)) with (Kill sg (cfg_net c) (all sg)). by rewrite Hk. }
  eexists. split_and!; [exact Hex|by eapply cstep_ok, K_exit|simpl; apply delete_insert_eq|done|done|done|].
  intros sg0 i Hl0 Hi. rewrite Hl in Hl0. injection Hl0 as <-. simpl. rewrite <- Hgid. apply Hno, elem_of_seq. unfold size in Hi. lia.
Qed.

(** *** The end of a test *)

Lemma MakeConfig_names names las yes c : start_ok newConfig names las -> MakeConfig names las yes = Some c ->
  cfg_ok c /\ names_known c /\ groups_apart c /\ cfg_trpc c = Some true.
Proof.
  intros Hok Hmk. destruct (MakeConfig_ready names las yes Hok) as (c' & _ & Hmk' & Hc & _). rewrite Hmk in Hmk'. injection Hmk' as <-.
  split; [done|]. unfold MakeConfig, MakeGroupStart in Hmk. assert (Hc0 : cfg_ok newConfig) by (split; done).
  assert (Hn0 : names_known newConfig) by (intros x v; unfold serverAt; simpl; by rewrite lookup_empty).
  assert (Ha0 : groups_apart newConfig) by (by intros g g' sg sg' a b a' b' e Hl; simpl in Hl; rewrite lookup_empty in Hl).
  destruct (MakeGroup newConfig GRP0 names) as [c1|] eqn:H1; [|done]. simpl in Hmk.
  assert (S1 : cstep newConfig c1) by (apply (K_group _ _ GRP0 names); [done|apply Hok|done]).
  pose proof (cstep_ok _ _ Hc0 S1) as Hc1. destruct (cstep_names _ _ Hc0 Hn0 Ha0 S1) as [Hn1 Ha1].
  destruct (on_group c1 GRP0 _) as [c2|] eqn:H2; [|done]. simpl in Hmk. injection Hmk as <-.
  assert (S2 : cstep c1 c2).
  { apply (K_start _ _ GRP0 las); [|done]. intros sg Hl. by apply (made_launches newConfig GRP0 names las c1 sg). }
  destruct (cstep_names _ _ Hc1 Hn1 Ha1 S2) as [Hn2 Ha2].
  destruct (same_names c2 (set_clerks c2 (Reliable yes (cfg_net c2)) (Some ∅))) as [Hn3 Ha3]; [done..|].
  split_and!; [done..|]. simpl. unfold on_group, MakeGroup in *. simpl in *.
  destruct (makeSrvGrp _ _ _) as [[n sg]|]; [|done]. simpl in H1. injection H1 as <-. destruct (lookupGroup _ _) as [sg0|]; [|done]. simpl in H2.
  destruct (StartServers _ _ _) as [[sg1 n1]|]; [|done]. simpl in H2. by injection H2 as <-.
Qed.

(** C38: A test can always clean up after itself.  Take a configuration that
    [MakeConfig] made, and whatever a test then does with its groups, servers and
    clients, new groups having new identities.  Then no end on the network belongs to
    two of them: each is the one by which one server calls another one of its group,
    or a client calls a server.  And [Cleanup] returns, in whatever order it visits
    the groups: no end is deleted twice and the network is closed once.  Afterwards
    no server of any group has a process, no server is registered on the network
    under any name, no end of a client is left, the socket of the tester is closed,
    and the annotations are cleared or marked as written. *)
Theorem cleanup_leaves_nothing names las yes c0 c order a v :
  start_ok newConfig names las -> MakeConfig names las yes = Some c0 -> rtc cstep c0 c -> order ≡ₚ (map_to_list (cfg_grps c)).*1 ->
  (forall h h' e, holds_end c h e -> holds_end c h' e -> h = h') /\ (forall h e, holds_end c h e -> e ∈ ends (cfg_net c)) /\
  exists c' shown a', Cleanup c order a v = Some (c', shown, a') /\
    closed (cfg_net c') = true /\ cfg_trpc c' <> Some true /\ dom (cfg_grps c') = dom (cfg_grps c) /\
    (forall g sg s, cfg_grps c' !! g = Some sg -> s ∈ srvs sg -> dc s = None) /\
    (forall n, serverAt (cfg_net c') n = None) /\
    (forall k s e, holds_end c (HClient k s) e -> e ∉ ends (cfg_net c')) /\ cfg_clerks c' = None /\
    (annotations a' = [] \/ finalized a' = true).
Proof.
  intros Hok Hmk Hs Hord. destruct (MakeConfig_names names las yes c0 Hok Hmk) as (Hc0 & Hn0 & Ha0 & _).
  assert (cfg_ok c /\ names_known c /\ groups_apart c) as (Hc & Hn & Ha).
  { clear Hord Hmk. induction Hs as [|c c1 c2 H1 _ IH]; [done|]. destruct (cstep_names _ _ Hc0 Hn0 Ha0 H1). apply IH; eauto using cstep_ok. }
  split; [intros h h' e; by apply ends_apart|]. split; [intros h e; by apply holds_end_made|]. clear Hc0 Hn0 Ha0 Hs.
  assert (Hin : forall g, g ∈ order <-> is_Some (cfg_grps c !! g)).
  { intros g. rewrite Hord, list_elem_of_fmap. split.
    - intros ([g' sg] & -> & H%elem_of_map_to_list). by exists sg.
    - intros [sg H]. exists (g, sg). split; [done|by apply elem_of_map_to_list]. }
  unfold Cleanup. destruct (cleanupClnts_ok c Hc) as (c1 & H1 & Hc1 & Hg1 & Hgone). rewrite H1. simpl.
  assert (Hsv1 : servers (cfg_net c1) = servers (cfg_net c) /\ cfg_clerks c1 = None).
  { unfold cleanupClnts in H1. destruct (removeClients _ _) as [n|] eqn:Hr; [|done]. simpl in H1. injection H1 as <-.
    split; [by eapply removeClients_servers|done]. }
  destruct Hsv1 as [Hsv1 Hck1].
  destruct (cleanupGroups_ok order c1 Hc1) as (c2 & H2 & Hc2 & Hdom & Hsub & Hdead); [intros g; by rewrite Hg1, Hin|].
  pose proof (cleanupGroups_gone order c1 c2 Hc1 H2) as Hno. pose proof (cleanupGroups_clerks order c1 c2 H2) as Hck2. rewrite H2. simpl.
  unfold Labrpc.Cleanup. rewrite (o_open _ Hc2). simpl.
  pose proof (cleanup_settles a (vis_t v) (vis_t' v) (vis_enable v) (vis_opened v) (cfg_failed c2) (if cfg_failed c2 then "test failed" else "test passed")) as Han.
  destruct (Annotation.cleanup _ _ _ _ _ _ _) as [shown a']. eexists _, shown, a'. split; [done|]. simpl.
  split_and!; [done|by destruct (cfg_trpc c2)|congruence|..].
  - intros g sg s Hl. eapply Hdead; [done|]. left. apply Hin. rewrite <- Hg1, <- elem_of_dom, <- Hdom, elem_of_dom. eauto.
  - intros n. unfold serverAt. simpl. destruct (serverAt (cfg_net c2) n) as [x|] eqn:Hx; [|exact Hx]. exfalso.
    destruct (Hno n x Hx) as [Hx1 Hother]. unfold serverAt in Hx1. rewrite Hsv1 in Hx1.
    destruct (Hn n x Hx1) as (g & sg & i & Hl & Hi & ->). apply (Hother g sg i); [apply Hin; eauto|by rewrite Hg1|done|done].
  - intros k s e (cl & Hk & He) Hin'%Hsub. by eapply Hgone.
  - by rewrite Hck2.
  - exact Han.
Qed.

(** ** Random numbers *)

(** [random_handles]: [js] are the random indices, [rand.Intn(i + 1)] for [i]. *)
Fixpoint shuffle {A} (i : nat) (js : list nat) (sa : list A) : list A :=
  match js with
  | [] => sa
  | j :: js =>
      shuffle (S i) js
        (match sa !! i, sa !! j with Some x, Some y => <[j := x]> (<[i := y]> sa) | _, _ => sa end)
  end.

Definition random_handles {A} (kvh : list A) (js : list nat) : list A := shuffle 0 js kvh.

Lemma random_handles_perm {A} (kvh : list A) js : random_handles kvh js ≡ₚ kvh.
Proof.
  unfold random_handles. generalize 0%nat. revert kvh. induction js as [|j js IH]; intros kvh i; simpl; [done|].
  rewrite IH. destruct (kvh !! i) as [x|] eqn:Hi; [|done]. destruct (kvh !! j) as [y|] eqn:Hj; [|done].
  by apply Permutation_insert_swap.
Qed.

(** The alphabet of [base64.URLEncoding]. *)
Definition url64 (d : Z) : Ascii.ascii :=
  Ascii.ascii_of_nat (Z.to_nat (
    if decide (d < 26) then 65 + d else if decide (d < 52) then 97 + (d - 26) else if decide (d < 62) then 48 + (d - 52)
    else if decide (d = 62) then 45 else 95)).

(** [EncodeToString]: three bytes give four characters; the last group is padded. *)
Fixpoint EncodeToString (b : list byte) : string :=
  match b with
  | [] => ""
  | [x] =>
      let v := Z.shiftl (byte_to_Z x) 16 in
      String (url64 (Z.shiftr v 18)) (String (url64 (Z.land (Z.shiftr v 12) 63)) "==")
  | [x; y] =>
      let v := Z.lor (Z.shiftl (byte_to_Z x) 16) (Z.shiftl (byte_to_Z y) 8) in
      String (url64 (Z.shiftr v 18)) (String (url64 (Z.land (Z.shiftr v 12) 63)) (String (url64 (Z.land (Z.shiftr v 6) 63)) "="))
  | x :: y :: z :: b =>
      let v := Z.lor (Z.shiftl (byte_to_Z x) 16) (Z.lor (Z.shiftl (byte_to_Z y) 8) (byte_to_Z z)) in
      String (url64 (Z.shiftr v 18)) (String (url64 (Z.land (Z.shiftr v 12) 63))
        (String (url64 (Z.land (Z.shiftr v 6) 63)) (String (url64 (Z.land v 63)) (EncodeToString b))))
  end.

(** [Randstring]: [b] are the [2 * n] random bytes; [s[0:n]] is out of range if the
    text is shorter. *)
Definition Randstring (n : nat) (b : list byte) : option string :=
  let s := EncodeToString b in
  if decide (n <= String.length s)%nat then Some (String.substring 0 n s) else None.

Lemma EncodeToString_length k : forall b, (length b <= k)%nat -> (length b <= String.length (EncodeToString b))%nat.
Proof.
  induction k as [|k IH]; intros [|x [|y [|z b]]] Hk; simpl in *; try lia.
  assert (length b <= String.length (EncodeToString b))%nat by (apply IH; lia). lia.
Qed.

Lemma substring_length n : forall s, (n <= String.length s)%nat -> String.length (String.substring 0 n s) = n.
Proof. induction n as [|n IH]; intros [|c s] H; simpl in *; try lia. f_equal. apply IH. lia. Qed.

(** A random name has the length asked for. *)
Lemma Randstring_length n b : length b = (2 * n)%nat -> exists s, Randstring n b = Some s /\ String.length s = n.
Proof.
  intros Hb. pose proof (EncodeToString_length (length b) b ltac:(lia)). unfold Randstring.
  rewrite decide_True by lia. eexists. split; [done|]. apply substring_length. lia.
Qed.

(** ** Two tests *)

Module HarnessDemo.

Definition launch_names (k n : nat) : list launch :=
  (fun a => mkLaunch ((fun b => "run-" +:+ pretty k +:+ "-" +:+ pretty a +:+ "-" +:+ pretty b)%string <$> seq 0 n) true (10 * k + a)) <$> seq 0 n.

Definition cfg0 : Config := default newConfig (MakeConfig (GroupsDemo.names 3) (launch_names 1 3) false).

Lemma MakeConfig_ready_witness : exists sg, lookupGroup cfg0 GRP0 = Some sg /\ cfg_ok cfg0 /\ link sg (cfg_net cfg0) 0 2.
Proof.
  destruct (MakeConfig_ready (GroupsDemo.names 3) (launch_names 1 3) false) as (c & sg & Hc & Hok & Hl & _ & _ & _ & _ & Hlk).
  - split; [apply Forall_forall; apply (bool_decide_unpack _); vm_compute; exact I|]. split; [vm_compute; reflexivity|].
    split; [apply Forall_forall; apply (bool_decide_unpack _); vm_compute; exact I|].
    split; [apply (bool_decide_unpack _); vm_compute; exact I|]. apply Forall_forall. apply (bool_decide_unpack _). vm_compute. exact I.
  - assert (Hcfg : cfg0 = c) by (unfold cfg0; rewrite Hc; reflexivity). rewrite Hcfg. exists sg. split; [exact Hl|]. split; [exact Hok|]. apply Hlk; vm_compute; lia.
Defined.

Definition sg0 : ServerGrp := default (mkGrp [] 0 []) (lookupGroup cfg0 GRP0).

Lemma sg0_ok : grp_ok sg0 (cfg_net cfg0) /\ cfg_ok cfg0.
Proof.
  destruct MakeConfig_ready_witness as (sg & Hl & Hok & _). split; [|done]. unfold sg0. rewrite Hl. by apply (o_grp _ Hok GRP0).
Qed.

Lemma restartall_resumes_witness : exists sg1 net1 sg2 net2,
  Shutdown sg0 (cfg_net cfg0) = Some (sg1, net1) /\ StartServers sg1 net1 (launch_names 2 3) = Some (sg2, net2) /\
  serverAt net2 (ServerName 0 2) = Some 22%nat.
Proof.
  destruct (restartall_resumes sg0 (cfg_net cfg0) (launch_names 2 3) (fun _ => Tester.empty)) as (sg1 & n1 & sg2 & n2 & H1 & H2 & _ & _ & H3 & _).
  - apply sg0_ok.
  - intros i Hi. assert (i = 0 \/ i = 1 \/ i = 2)%nat as [->|[->| ->]] by (vm_compute in Hi; lia); eexists; split; vm_compute; reflexivity.
  - split; [vm_compute; reflexivity|]. split; [apply Forall_forall; apply (bool_decide_unpack _); vm_compute; exact I|].
    split; [apply (bool_decide_unpack _); vm_compute; exact I|]. apply Forall_forall. apply (bool_decide_unpack _). vm_compute. exact I.
  - exists sg1, n1, sg2, n2. split; [exact H1|]. split; [exact H2|]. apply (H3 2%nat (mkLaunch ["run-2-2-0"; "run-2-2-1"; "run-2-2-2"] true 22)). vm_compute. reflexivity.
Defined.

(** A test that makes a client and calls server 1. *)
Definition cfg1 : Config := default cfg0 (MakeClient cfg0 7).
Definition cfg2 : Config := default cfg1 (clientEnd cfg1 7 (ServerName 0 1) "client").

Definition vis0 : visual := mkVis 5 6 "always" true.

Lemma cleanup_leaves_nothing_witness : exists c shown a, Cleanup cfg2 [0] mkAnnotation vis0 = Some (c, shown, a) /\
  ("client" ∉ ends (cfg_net c)) /\ serverAt (cfg_net c) (ServerName 0 1) = None.
Proof.
  destruct (cleanup_leaves_nothing (GroupsDemo.names 3) (launch_names 1 3) false cfg0 cfg2 [0] mkAnnotation vis0)
    as (_ & _ & c & shown & a & Hc & _ & _ & _ & _ & Hsrv & Hgone & _).
  - split; [apply Forall_forall; apply (bool_decide_unpack _); vm_compute; exact I|]. split; [vm_compute; reflexivity|].
    split; [apply Forall_forall; apply (bool_decide_unpack _); vm_compute; exact I|].
    split; [apply (bool_decide_unpack _); vm_compute; exact I|]. apply Forall_forall. apply (bool_decide_unpack _). vm_compute. exact I.
  - vm_compute. reflexivity.
  - apply (rtc_l _ _ cfg1); [apply (K_client _ _ 7 None); vm_compute; reflexivity|].
    apply (rtc_l _ _ cfg2); [apply (K_call _ _ 7 (ServerName 0 1) "client"); vm_compute; reflexivity|]. apply rtc_refl.
  - vm_compute. reflexivity.
  - exists c, shown, a. split; [exact Hc|]. split; [|apply Hsrv]. apply (Hgone 7%nat (ServerName 0 1)).
    exists (mkClnt {[ServerName 0 1 := "client"]} None). split; vm_compute; reflexivity.
Defined.

End HarnessDemo.
