(* ===== verification/Grpc.v ===== *)
(** * The gRPC transport

    [transport/grpc]: the conversions between Raft's structures and the protocol
    buffer messages of [proto/raft.proto] and [proto/kv.proto], the services that
    call Raft and the key/value server, and [ClientEnd.Call], which dispatches on
    the method's name.

    On the wire an empty [bytes] field and an absent one are the same; a message
    field of type [bytes] is a list, and reads as nil when it is empty. Go's
    [int] has 64 bits, so the conversions to [int64] and back keep the value.

    The theorem: for Raft it makes no difference whether a handler is called
    directly or through gRPC. *)

From S2P Require Import Prelude Gob Wal Raft Kv KvStore.

(** ** Messages *)

Record pbLogEntry := mkPbEntry { pb_Command : list byte; pb_Term : Z }.
Record pbRequestVoteArgs := mkPbRV { pbrv_Term : Z; pbrv_CandidateId : string; pbrv_LastLogIndex : Z; pbrv_LastLogTerm : Z }.
Record pbRequestVoteReply := mkPbRVR { pbrvr_Term : Z; pbrvr_VoteGranted : bool }.
Record pbAppendEntriesArgs := mkPbAE {
  pbae_Term : Z; pbae_LeaderId : string; pbae_PrevLogIndex : Z; pbae_PrevLogTerm : Z;
  pbae_Entries : list pbLogEntry; pbae_LeaderCommit : Z
}.
Record pbAppendEntriesReply := mkPbAER { pbaer_Term : Z; pbaer_Success : bool; pbaer_LastMatchIndex : Z }.
Record pbInstallSnapshotArgs := mkPbIS {
  pbis_Term : Z; pbis_LeaderId : string; pbis_LastIncludedIndex : Z; pbis_LastIncludedTerm : Z; pbis_Data : list byte
}.
Record pbInstallSnapshotReply := mkPbISR { pbisr_Term : Z }.
Record pbTimeoutNowArgs := mkPbTN { pbtn_Term : Z; pbtn_LeaderId : string; pbtn_LastLogIndex : Z; pbtn_LastLogTerm : Z }.
Record pbTimeoutNowReply := mkPbTNR { pbtnr_Term : Z; pbtnr_Accepted : bool }.

Inductive pbErr := ERR_UNSPECIFIED | PB_OK | ERR_NO_KEY | ERR_VERSION | ERR_MAYBE | ERR_WRONG_LEADER | ERR_WRONG_GROUP.

#[export] Instance pbErr_eq_dec : EqDecision pbErr.
Proof. solve_decision. Defined.
Record pbGetArgs := mkPbGet { pbg_Key : string }.
Record pbGetReply := mkPbGetR { pbgr_Value : string; pbgr_Version : Z; pbgr_Err : pbErr }.
Record pbPutArgs := mkPbPut { pbp_Key : string; pbp_Value : string; pbp_Version : Z }.
Record pbPutReply := mkPbPutR { pbpr_Err : pbErr }.
Record pbAppendArgs := mkPbApp { pba_Key : string; pba_Value : string }.
Record pbAppendReply := mkPbAppR { pbar_Err : pbErr; pbar_Value : string; pbar_Version : Z }.

(** ** Conversions *)

Definition requestVoteToPB (a : RequestVoteArgs) : pbRequestVoteArgs :=
  mkPbRV (rv_Term a) (rv_CandidateId a) (rv_LastLogIndex a) (rv_LastLogTerm a).

Definition requestVoteFromPB (pb : pbRequestVoteArgs) : RequestVoteArgs :=
  mkRV (pbrv_Term pb) (pbrv_CandidateId pb) (pbrv_LastLogIndex pb) (pbrv_LastLogTerm pb).

Definition requestVoteReplyToPB (r : RequestVoteReply) : pbRequestVoteReply := mkPbRVR (rvr_Term r) (rvr_VoteGranted r).

Definition requestVoteReplyFromPB (pb : pbRequestVoteReply) : RequestVoteReply :=
  mkRVR (pbrvr_Term pb) (pbrvr_VoteGranted pb).

Definition timeoutNowToPB (a : TimeoutNowArgs) : pbTimeoutNowArgs :=
  mkPbTN (tn_Term a) (tn_LeaderId a) (tn_LastLogIndex a) (tn_LastLogTerm a).

Definition timeoutNowFromPB (pb : pbTimeoutNowArgs) : TimeoutNowArgs :=
  mkTN (pbtn_Term pb) (pbtn_LeaderId pb) (pbtn_LastLogIndex pb) (pbtn_LastLogTerm pb).

Definition timeoutNowReplyToPB (r : TimeoutNowReply) : pbTimeoutNowReply := mkPbTNR (tnr_Term r) (tnr_Accepted r).

Definition timeoutNowReplyFromPB (pb : pbTimeoutNowReply) : TimeoutNowReply := mkTNR (pbtnr_Term pb) (pbtnr_Accepted pb).

Definition logEntryToPB (e : LogEntry) : pbLogEntry := mkPbEntry (default [] (Command e)) (Term e).

Definition logEntryFromPB (pb : pbLogEntry) : LogEntry := mkEntry (nilable (pb_Command pb)) (pb_Term pb).

Definition appendEntriesToPB (a : AppendEntries) : pbAppendEntriesArgs :=
  mkPbAE (ae_Term a) (ae_LeaderId a) (ae_PrevLogIndex a) (ae_PrevLogTerm a)
    (logEntryToPB <$> ae_Entries a) (ae_LeaderCommit a).

Definition appendEntriesFromPB (pb : pbAppendEntriesArgs) : AppendEntries :=
  mkAE (pbae_Term pb) (pbae_LeaderId pb) (pbae_PrevLogIndex pb) (pbae_PrevLogTerm pb)
    (logEntryFromPB <$> pbae_Entries pb) (pbae_LeaderCommit pb) None 0 0.

Definition appendEntriesReplyToPB (r : AppendEntriesReply) : pbAppendEntriesReply :=
  mkPbAER (aer_Term r) (aer_Success r) (aer_LastMatchIndex r).

Definition appendEntriesReplyFromPB (pb : pbAppendEntriesReply) : AppendEntriesReply :=
  mkAER (pbaer_Term pb) (pbaer_Success pb) (pbaer_LastMatchIndex pb).

Definition installSnapshotToPB (a : AppendEntries) : pbInstallSnapshotArgs :=
  mkPbIS (ae_Term a) (ae_LeaderId a) (ae_SnapshotIndex a) (ae_SnapshotTerm a) (default [] (ae_Snapshot a)).

Definition installSnapshotFromPB (pb : pbInstallSnapshotArgs) : AppendEntries :=
  mkAE (pbis_Term pb) (pbis_LeaderId pb) 0 0 [] 0 (nilable (pbis_Data pb)) (pbis_LastIncludedIndex pb) (pbis_LastIncludedTerm pb).

Definition errToPB (e : Err) : pbErr :=
  match e with
  | OK => PB_OK
  | ErrNoKey => ERR_NO_KEY
  | ErrVersion => ERR_VERSION
  | ErrWrongLeader => ERR_WRONG_LEADER
  | ErrMaybe => ERR_MAYBE
  | _ => ERR_UNSPECIFIED
  end.

(** ** The services *)

Section services.
Context {W : Type} `{!WAL W}.
Implicit Types rf : Raft W.

Definition RaftService_RequestVote rf (pb : pbRequestVoteArgs) : option (pbRequestVoteReply * Raft W) :=
  '(reply, rf) ← RequestVote rf (requestVoteFromPB pb); Some (requestVoteReplyToPB reply, rf).

Definition RaftService_AppendEntries rf (pb : pbAppendEntriesArgs) : option (pbAppendEntriesReply * Raft W) :=
  '(reply, rf) ← AppendEntriesHandler rf (appendEntriesFromPB pb); Some (appendEntriesReplyToPB reply, rf).

Definition RaftService_InstallSnapshot rf (pb : pbInstallSnapshotArgs) : option (pbInstallSnapshotReply * Raft W) :=
  '(reply, rf) ← AppendEntriesHandler rf (installSnapshotFromPB pb); Some (mkPbISR (aer_Term reply), rf).

Definition RaftService_TimeoutNow rf (pb : pbTimeoutNowArgs)
    : option (pbTimeoutNowReply * option electionRound * Raft W) :=
  '(reply, round, rf) ← TimeoutNow rf (timeoutNowFromPB pb); Some (timeoutNowReplyToPB reply, round, rf).

End services.

(** The key/value service around a server: its two handlers. *)
Definition KVService_Get (serve : GetArgs -> option GetReply) (pb : pbGetArgs) : option pbGetReply :=
  reply ← serve (mkGetArgs (pbg_Key pb));
  Some (mkPbGetR (getr_Value reply) (getr_Version reply) (errToPB (getr_Err reply))).

Definition KVService_Put (serve : PutArgs -> option PutReply) (pb : pbPutArgs) : option pbPutReply :=
  reply ← serve (mkPutArgs (pbp_Key pb) (pbp_Value pb) (pbp_Version pb));
  Some (mkPbPutR (errToPB (putr_Err reply))).

(** ** ClientEnd.Call *)

(** The arguments and replies a caller may pass, as pointers of some type; a
    reply carries its present contents. *)
Inductive any_args :=
| RequestVoteA (a : RequestVoteArgs) | AppendEntriesA (a : AppendEntries) | TimeoutNowA (a : TimeoutNowArgs)
| GetA (a : pbGetArgs) | PutA (a : pbPutArgs) | AppendA (a : pbAppendArgs) | OtherA.

Inductive any_reply :=
| RequestVoteR (r : RequestVoteReply) | AppendEntriesR (r : AppendEntriesReply) | TimeoutNowR (r : TimeoutNowReply)
| GetR (r : pbGetReply) | PutR (r : pbPutReply) | AppendR (r : pbAppendReply) | OtherR.

(** The generated stubs of a connection; [None] is an error or a timeout. *)
Record stubs := mkStubs {
  raft_RequestVote : pbRequestVoteArgs -> option pbRequestVoteReply;
  raft_AppendEntries : pbAppendEntriesArgs -> option pbAppendEntriesReply;
  raft_InstallSnapshot : pbInstallSnapshotArgs -> option pbInstallSnapshotReply;
  raft_TimeoutNow : pbTimeoutNowArgs -> option pbTimeoutNowReply;
  kv_Get : pbGetArgs -> option pbGetReply;
  kv_Put : pbPutArgs -> option pbPutReply;
  kv_Append : pbAppendArgs -> option pbAppendReply
}.

(** [None] is false. *)
Definition Call (c : stubs) (svcMeth : string) (args : any_args) (reply : any_reply) : option any_reply :=
  if decide (svcMeth = "Raft.RequestVote") then
    match args, reply with
    | RequestVoteA a, RequestVoteR _ =>
        resp ← raft_RequestVote c (requestVoteToPB a); Some (RequestVoteR (requestVoteReplyFromPB resp))
    | _, _ => None
    end
  else if decide (svcMeth = "Raft.AppendEntriesHandler") then
    match args, reply with
    | AppendEntriesA a, AppendEntriesR r =>
        match ae_Snapshot a with
        | Some _ =>
            resp ← raft_InstallSnapshot c (installSnapshotToPB a);
            let success := bool_decide (pbisr_Term resp <= ae_Term a) in
            Some (AppendEntriesR (mkAER (pbisr_Term resp) success
                    (if success then ae_SnapshotIndex a else aer_LastMatchIndex r)))
        | None =>
            resp ← raft_AppendEntries c (appendEntriesToPB a); Some (AppendEntriesR (appendEntriesReplyFromPB resp))
        end
    | _, _ => None
    end
  else if decide (svcMeth = "Raft.TimeoutNow") then
    match args, reply with
    | TimeoutNowA a, TimeoutNowR _ =>
        resp ← raft_TimeoutNow c (timeoutNowToPB a); Some (TimeoutNowR (timeoutNowReplyFromPB resp))
    | _, _ => None
    end
  else if decide (svcMeth = "KVServer.Get") then
    match args with
    | GetA req => resp ← kv_Get c req; match reply with GetR _ => Some (GetR resp) | _ => None end
    | _ => None
    end
  else if decide (svcMeth = "KVServer.Put") then
    match args with
    | PutA req => resp ← kv_Put c req; match reply with PutR _ => Some (PutR resp) | _ => None end
    | _ => None
    end
  else if decide (svcMeth = "KVServer.Append") then
    match args with
    | AppendA req => resp ← kv_Append c req; match reply with AppendR _ => Some (AppendR resp) | _ => None end
    | _ => None
    end
  else None.

(** ** Transparency *)

Section transparency.
Context {W : Type} `{!WAL W}.
Implicit Types rf : Raft W.

(** A working connection to a node in state [rf]; the key/value plane is any. *)
Definition connected rf (get : pbGetArgs -> option pbGetReply) (put : pbPutArgs -> option pbPutReply) : stubs := {|
  raft_RequestVote pb := fst <$> RaftService_RequestVote rf pb;
  raft_AppendEntries pb := fst <$> RaftService_AppendEntries rf pb;
  raft_InstallSnapshot pb := fst <$> RaftService_InstallSnapshot rf pb;
  raft_TimeoutNow pb := (fun x => fst (fst x)) <$> RaftService_TimeoutNow rf pb;
  kv_Get := get; kv_Put := put;
  kv_Append _ := None    (* Unimplemented *)
|}.

(** What the replication layer puts into logs and snapshots is never empty. *)
Definition sendable (a : AppendEntries) : Prop :=
  Forall (fun e => exists b, Command e = Some b /\ b <> []) (ae_Entries a) /\ ae_Snapshot a <> Some [].

Lemma entries_roundtrip es :
  Forall (fun e => exists b, Command e = Some b /\ b <> []) es -> logEntryFromPB <$> (logEntryToPB <$> es) = es.
Proof.
  induction 1 as [|[c t] es (b & E & Hb) _ IH]; [done|]. rewrite !fmap_cons, IH. simpl in *. f_equal. subst.
  unfold logEntryFromPB, logEntryToPB. simpl. by destruct b.
Qed.

(** Without a snapshot its index and term are not looked at. *)
Lemma handler_no_snapshot rf a i t :
  ae_Snapshot a = None ->
  AppendEntriesHandler rf a =
  AppendEntriesHandler rf (mkAE (ae_Term a) (ae_LeaderId a) (ae_PrevLogIndex a) (ae_PrevLogTerm a)
    (ae_Entries a) (ae_LeaderCommit a) None i t).
Proof. intros Hs. unfold AppendEntriesHandler. simpl. by rewrite Hs. Qed.

(** With one, the fields of plain replication are not. *)
Lemma handler_snapshot rf a b :
  ae_Snapshot a = Some b ->
  AppendEntriesHandler rf a =
  AppendEntriesHandler rf (mkAE (ae_Term a) (ae_LeaderId a) 0 0 [] 0 (Some b) (ae_SnapshotIndex a) (ae_SnapshotTerm a)).
Proof. intros Hs. unfold AppendEntriesHandler. simpl. by rewrite Hs. Qed.

Lemma walSaveMeta_term rf rf' : walSaveMeta rf = Some rf' -> term rf' = term rf.
Proof. unfold walSaveMeta. intros H. apply bind_Some in H as (w & _ & H). by simplify_eq. Qed.

(** The reply to a snapshot: it succeeds exactly if its term is not newer. *)
Lemma snapshot_reply rf a b r rf' :
  ae_Snapshot a = Some b -> AppendEntriesHandler rf a = Some (r, rf') ->
  aer_Success r = bool_decide (aer_Term r <= ae_Term a) /\ (aer_Success r = false -> aer_LastMatchIndex r = 0).
Proof.
  intros Hs Hh. unfold AppendEntriesHandler in Hh. rewrite Hs in Hh. destruct (decide (ae_Term a < term rf)) as [Hlt|Hge].
  - simplify_eq. simpl. split; [|done]. symmetry. apply bool_decide_eq_false. lia.
  - apply bind_Some in Hh as (rf1 & H1 & Hh).
    assert (Ht : term rf1 = ae_Term a).
    { unfold adoptTerm in H1. dcase; [|simplify_eq; lia]. unfold stepDown in H1. by apply walSaveMeta_term in H1. }
    assert (Hok : r = mkAER (ae_Term a) true (aer_LastMatchIndex r)).
    { unfold installSnapshot in Hh. dcase; [simplify_eq; simpl; by rewrite Ht|].
      apply bind_Some in Hh as (rest & _ & Hh). apply bind_Some in Hh as (rf2 & H2 & Hh). simplify_eq. simpl. f_equal.
      unfold walSaveSnapshot in H2. apply bind_Some in H2 as (s & _ & H2). apply bind_Some in H2 as (w & _ & H2).
      simplify_eq. simpl. exact Ht. }
    rewrite Hok. simpl. split; [|done]. symmetry. by apply bool_decide_eq_true.
Qed.

(** The leader does not look at the match index of a successful reply. *)
Lemma reply_success_index (ldr : Raft W) server a t i j :
  onAppendReply ldr server a (mkAER t true i) = onAppendReply ldr server a (mkAER t true j).
Proof. done. Qed.

(** C36: gRPC is transparent to Raft.  Let a node be in state [rf].  Whatever its
    handlers do with a vote request or a transfer request when called directly, they
    do when called through the services, with the same new state, and
    [ClientEnd.Call] hands the caller the same reply.  For a heartbeat, a replication
    request or a snapshot that is [sendable], that is, has no empty command and no
    empty snapshot, the new state is the same, and the caller gets a reply with which
    [onAppendReply] does the same as with the handler's own: the reply to a snapshot
    carries only the term.  An empty snapshot does not arrive as one
    ([empty_snapshot_is_lost]). *)
Theorem grpc_transparent rf get put :
  let c := connected rf get put in
  (forall a r rf', RequestVote rf a = Some (r, rf') ->
     RaftService_RequestVote rf (requestVoteToPB a) = Some (requestVoteReplyToPB r, rf') /\
     forall r0, Call c "Raft.RequestVote" (RequestVoteA a) (RequestVoteR r0) = Some (RequestVoteR r)) /\
  (forall a r o rf', TimeoutNow rf a = Some (r, o, rf') ->
     RaftService_TimeoutNow rf (timeoutNowToPB a) = Some (timeoutNowReplyToPB r, o, rf') /\
     forall r0, Call c "Raft.TimeoutNow" (TimeoutNowA a) (TimeoutNowR r0) = Some (TimeoutNowR r)) /\
  (forall a r rf', sendable a -> AppendEntriesHandler rf a = Some (r, rf') ->
     (if ae_Snapshot a is Some _ then snd <$> RaftService_InstallSnapshot rf (installSnapshotToPB a)
      else snd <$> RaftService_AppendEntries rf (appendEntriesToPB a)) = Some rf' /\
     exists r', Call c "Raft.AppendEntriesHandler" (AppendEntriesA a) (AppendEntriesR (mkAER 0 false 0)) = Some (AppendEntriesR r') /\
       forall (ldr : Raft W) server, onAppendReply ldr server a r' = onAppendReply ldr server a r).
Proof.
  intros c. split_and!.
  - intros [t id li lt] [rt g] rf' H. unfold RaftService_RequestVote, requestVoteFromPB, requestVoteToPB. simpl. rewrite H. simpl.
    split; [done|]. intros r0. unfold Call. simpl. unfold RaftService_RequestVote, requestVoteFromPB, requestVoteToPB. simpl. by rewrite H.
  - intros [t id li lt] [rt g] o rf' H. unfold RaftService_TimeoutNow, timeoutNowFromPB, timeoutNowToPB. simpl. rewrite H. simpl.
    split; [done|]. intros r0. unfold Call. simpl. unfold RaftService_TimeoutNow, timeoutNowFromPB, timeoutNowToPB. simpl. by rewrite H.
  - intros a r rf' Hsend H. destruct (ae_Snapshot a) as [b|] eqn:Es.
    + assert (Hb : nilable b = Some b) by (destruct Hsend as [_ Hb]; rewrite Es in Hb; by destruct b).
      assert (E : RaftService_InstallSnapshot rf (installSnapshotToPB a) = Some (mkPbISR (aer_Term r), rf')).
      { unfold RaftService_InstallSnapshot, installSnapshotFromPB, installSnapshotToPB. rewrite Es. simpl. rewrite Hb.
        rewrite <- (handler_snapshot rf a b Es), H. done. }
      rewrite E. split; [done|]. unfold Call. simpl. rewrite Es, E. simpl. eexists. split; [done|]. intros ldr server.
      destruct (snapshot_reply _ _ _ _ _ Es H) as [Hsucc Hidx]. destruct r as [t s i]. simpl in *. subst s.
      destruct (bool_decide (t <= ae_Term a)); [apply reply_success_index|]. by rewrite Hidx.
    + assert (E : RaftService_AppendEntries rf (appendEntriesToPB a) = Some (appendEntriesReplyToPB r, rf')).
      { unfold RaftService_AppendEntries.
        assert (Ef : appendEntriesFromPB (appendEntriesToPB a) =
          mkAE (ae_Term a) (ae_LeaderId a) (ae_PrevLogIndex a) (ae_PrevLogTerm a) (ae_Entries a) (ae_LeaderCommit a) None 0 0).
        { unfold appendEntriesFromPB, appendEntriesToPB. simpl. f_equal. apply entries_roundtrip, Hsend. }
        rewrite Ef, <- (handler_no_snapshot rf a 0 0 Es), H. done. }
      rewrite E. split; [done|]. unfold Call. simpl. rewrite Es, E. simpl. eexists. split; [done|]. intros ldr server. by destruct r.
Qed.

End transparency.

Module GrpcDemo.

(** A new node, with a journal for its WAL. *)
Definition node : option (Raft Journal) := MakeWithWAL "b" ["a"; "b"; "c"] [].

Definition vote_a : RequestVoteArgs := mkRV 1 "a" 0 0.

Lemma vote_runs : is_Some (node ≫= fun rf => RequestVote rf vote_a).
Proof. vm_compute. by eexists. Qed.

Lemma grpc_transparent_witness :
  exists rf r rf', node = Some rf /\ RequestVote rf vote_a = Some (r, rf') /\
    RaftService_RequestVote rf (requestVoteToPB vote_a) = Some (requestVoteReplyToPB r, rf').
Proof.
  pose proof vote_runs as Hv. destruct node as [rf|]; [|by destruct Hv]. simpl in Hv.
  destruct (RequestVote rf vote_a) as [[r rf']|] eqn:Ev; [|by destruct Hv]. exists rf, r, rf'. split; [done|]. split; [done|].
  destruct (grpc_transparent rf (fun _ => None) (fun _ => None)) as (Hrv & _). by apply Hrv.
Defined.

(** A snapshot of no bytes arrives as a heartbeat: the follower does not install
    it, while the leader is told that it did. *)
Example empty_snapshot_is_lost :
  let a := mkAE 1 "a" 0 0 [] 0 (Some []) 5 1 in
  match node with
  | Some rf =>
      (fun '(_, rf') => snapshotIndex rf') <$> AppendEntriesHandler rf a = Some 5 /\
      (fun '(_, rf') => snapshotIndex rf') <$> RaftService_InstallSnapshot rf (installSnapshotToPB a) = Some 0 /\
      Call (connected rf (fun _ => None) (fun _ => None)) "Raft.AppendEntriesHandler" (AppendEntriesA a)
        (AppendEntriesR (mkAER 0 false 0)) = Some (AppendEntriesR (mkAER 1 true 5))
  | None => False
  end.
Proof. vm_compute. repeat split. Qed.

End GrpcDemo.
