(* ===== verification/MapReduce.v ===== *)
(** * Sequential MapReduce

    [main/mrsequential.go], the reference that the distributed runs are compared
    with, and the applications [mrapps/wc.go] and [mrapps/indexer.go].

    [sort.Sort] is not stable: what it returns is any permutation of its input
    that is sorted by key, so the order of the values of a key is open.  Letters
    are those of ASCII text. *)

From Stdlib Require Import Ascii.
From stdpp Require Import pretty sorting.
From S2P Require Import Prelude.

Record KeyValue := mkKV { Key : string; Value : string }.

#[export] Instance KeyValue_eq_dec : EqDecision KeyValue.
Proof. solve_decision. Defined.

(** ** mrsequential *)

Section mapreduce.
Context (mapf : string -> string -> list KeyValue) (reducef : string -> list string -> string).

(** The map phase, on files with their contents. *)
Definition mapPhase (files : list (string * string)) : list KeyValue :=
  files ≫= fun '(filename, content) => mapf filename content.

Definition ByKey (a b : KeyValue) : Prop := String.le (Key a) (Key b).

(** What [sort.Sort(ByKey(intermediate))] may leave in the slice. *)
Definition sortedCopy (l l' : list KeyValue) : Prop := l' ≡ₚ l /\ StronglySorted ByKey l'.

(** The inner loop: the values of the elements with the key, and the rest. *)
Fixpoint collect (key : string) (l : list KeyValue) : list string * list KeyValue :=
  match l with
  | [] => ([], [])
  | kv :: l' =>
      if decide (Key kv = key) then let '(vs, rest) := collect key l' in (Value kv :: vs, rest) else ([], l)
  end.

(** The reduce loop: a line of the output file for each run of equal keys. *)
Fixpoint reduceLoop (fuel : nat) (l : list KeyValue) : list (string * string) :=
  match fuel, l with
  | O, _ | _, [] => []
  | S fuel, kv :: l' =>
      let '(vs, rest) := collect (Key kv) l' in
      (Key kv, reducef (Key kv) (Value kv :: vs)) :: reduceLoop fuel rest
  end.

Definition reducePhase (l : list KeyValue) : list (string * string) := reduceLoop (length l) l.

(** ** Lemmas *)

Definition valuesOf (k : string) (l : list KeyValue) : list string := Value <$> filter (fun kv => Key kv = k) l.

Lemma valuesOf_perm k l l' : l ≡ₚ l' -> valuesOf k l ≡ₚ valuesOf k l'.
Proof. intros H. unfold valuesOf. by rewrite H. Qed.

Lemma valuesOf_none k l : Forall (fun kv => Key kv <> k) l -> valuesOf k l = [].
Proof. unfold valuesOf. induction 1 as [|kv l Hk _ IH]; [done|]. by rewrite filter_cons_False. Qed.

(** In a sorted list [collect] takes all the elements with the key. *)
Lemma collect_spec key l vs rest : collect key l = (vs, rest) ->
  StronglySorted ByKey l -> Forall (fun kv => String.le key (Key kv)) l ->
  (length rest <= length l)%nat /\ StronglySorted ByKey rest /\ vs = valuesOf key l /\
  Forall (fun kv => String.le key (Key kv) /\ Key kv <> key) rest /\
  (forall k, k <> key -> valuesOf k l = valuesOf k rest) /\ (forall kv, kv ∈ l -> Key kv = key \/ kv ∈ rest) /\
  rest ⊆ l.
Proof.
  revert vs rest. induction l as [|kv l IH]; intros vs rest H Hs Hle; simpl in H.
  - simplify_eq. split_and!; [done|done|done|constructor|done| |done]. by intros kv ?%elem_of_nil.
  - apply StronglySorted_inv in Hs as [Hs Hall]. apply Forall_cons in Hle as [Hk Hle]. case_decide as E.
    + destruct (collect key l) as [vs' rest'] eqn:Ec. simplify_eq.
      destruct (IH vs' rest eq_refl Hs Hle) as (? & ? & -> & ? & Ho & Hin & Hsub). split_and!; [simpl; lia|done| |done| | |set_solver].
      * unfold valuesOf. by rewrite filter_cons_True.
      * intros k Hne. rewrite <- Ho by done. unfold valuesOf. by rewrite filter_cons_False.
      * intros x [->|Hx]%elem_of_cons; [by left|auto].
    + simplify_eq. assert (Hall' : Forall (fun kv' => String.le key (Key kv') /\ Key kv' <> key) (kv :: l)).
      { constructor; [done|]. rewrite Forall_forall in Hall, Hle |- *. intros x Hx. split; [by apply Hle|].
        intros Ex. apply E. apply (anti_symm String.le); [|done]. rewrite <- Ex. by apply Hall. }
      split_and!; [done|by constructor| |done|done|auto|done].
      rewrite valuesOf_none; [done|]. eapply Forall_impl; [exact Hall'|]. naive_solver.
Qed.

(** [<] on keys. *)
Definition str_lt (a b : string) : Prop := String.le a b /\ a <> b.

Lemma reduceLoop_spec fuel l : (length l <= fuel)%nat -> StronglySorted ByKey l ->
  StronglySorted str_lt (reduceLoop fuel l).*1 /\
  (forall k o, (k, o) ∈ reduceLoop fuel l -> (exists kv, kv ∈ l /\ Key kv = k) /\ o = reducef k (valuesOf k l)) /\
  (forall kv, kv ∈ l -> Key kv ∈ (reduceLoop fuel l).*1).
Proof.
  revert l. induction fuel as [|fuel IH]; intros [|kv l] Hf Hs; simpl in *; try lia.
  1-2: split_and!; [constructor|by intros k o ?%elem_of_nil|by intros kv ?%elem_of_nil].
  apply StronglySorted_inv in Hs as [Hs Hall]. destruct (collect (Key kv) l) as [vs rest] eqn:Ec.
  destruct (collect_spec _ _ _ _ Ec Hs) as (Hlen & Hr & -> & Hrest & Ho & Hin & Hsub); [exact Hall|].
  destruct (IH rest) as (H1 & H2 & H3); [lia|done|]. rewrite Forall_forall in Hrest. split_and!; simpl.
  - constructor; [done|]. apply Forall_forall. intros k ([k' o] & -> & Hko)%list_elem_of_fmap.
    destruct (H2 _ _ Hko) as [(kv' & Hkv' & <-) _]. destruct (Hrest kv' Hkv') as [? ?]. by split.
  - intros k o [[= -> ->]|Hko]%elem_of_cons.
    + split; [exists kv; split; [by left|done]|]. unfold valuesOf. by rewrite filter_cons_True.
    + destruct (H2 _ _ Hko) as [(kv' & Hkv' & <-) ->]. destruct (Hrest kv' Hkv') as [_ Hne]. split.
      * exists kv'. split; [|done]. right. by apply Hsub.
      * f_equal. rewrite <- Ho by done. unfold valuesOf. by rewrite filter_cons_False.
  - intros kv' [->|Hkv']%elem_of_cons; [by left|]. destruct (Hin kv' Hkv') as [->|?]; [by left|right; auto].
Qed.

(** Sequential MapReduce is correct.  Whatever order the unstable sort gives
    to equal keys, the output has exactly one line for every key that some map
    call emitted, in increasing order of keys, and the line of a key holds the
    reduction of all the values emitted for it, in some order. *)
Theorem mrsequential_correct (files : list (string * string)) (l : list KeyValue) :
  sortedCopy (mapPhase files) l ->
  StronglySorted str_lt (reducePhase l).*1 /\
  (forall k, k ∈ (reducePhase l).*1 <-> exists kv, kv ∈ mapPhase files /\ Key kv = k) /\
  (forall k o, (k, o) ∈ reducePhase l -> exists vs, vs ≡ₚ valuesOf k (mapPhase files) /\ o = reducef k vs).
Proof.
  intros [Hp Hs]. destruct (reduceLoop_spec (length l) l) as (H1 & H2 & H3); [done|done|]. split_and!; [done| |].
  - intros k. split.
    + intros ([k' o] & -> & Hko)%list_elem_of_fmap. destruct (H2 _ _ Hko) as [(kv & Hkv & <-) _].
      exists kv. split; [by rewrite <- Hp|done].
    + intros (kv & Hkv & <-). apply H3. by rewrite Hp.
  - intros k o Hko. destruct (H2 _ _ Hko) as [_ ->]. exists (valuesOf k l). split; [by apply valuesOf_perm|done].
Qed.

End mapreduce.

(** ** mrapps/wc.go and mrapps/indexer.go *)

(** [unicode.IsLetter] on ASCII. *)
Definition isLetter (c : Ascii.ascii) : bool :=
  let n := Ascii.nat_of_ascii c in
  bool_decide (65 <= n <= 90)%nat || bool_decide (97 <= n <= 122)%nat.

(** [strings.FieldsFunc]: the maximal runs of letters; [word] is the run that is
    open. *)
Fixpoint fields (word : string) (s : string) : list string :=
  let close rest := if decide (word = "") then rest else word :: rest in
  match s with
  | EmptyString => close []
  | String c s => if isLetter c then fields (word +:+ String c "") s else close (fields "" s)
  end.

Definition FieldsFunc (s : string) : list string := fields "" s.

Module Wc.
Definition Map (_ contents : string) : list KeyValue := (fun w => mkKV w "1") <$> FieldsFunc contents.
Definition Reduce (_ : string) (values : list string) : string := pretty (length values).
End Wc.

Module Indexer.
(** The set of words becomes a list in some order; [elements] is one. *)
Definition Map (document value : string) : list KeyValue :=
  (fun w => mkKV w document) <$> elements (list_to_set (C := gset string) (FieldsFunc value)).

Fixpoint join (sep : string) (l : list string) : string :=
  match l with [] => "" | [x] => x | x :: l => (x +:+ sep +:+ join sep l)%string end.

Definition Reduce (_ : string) (values : list string) : string :=
  (pretty (length values) +:+ " " +:+ join "," (merge_sort String.le values))%string.
End Indexer.

(** How often a word occurs in the files. *)
Definition occurrences (w : string) (files : list (string * string)) : nat :=
  length (filter (fun x => x = w) (files ≫= fun f => FieldsFunc f.2)).

Lemma wc_values w files : length (valuesOf w (mapPhase Wc.Map files)) = occurrences w files.
Proof.
  unfold valuesOf, occurrences. rewrite length_fmap. induction files as [|[name text] files IH]; [done|].
  unfold mapPhase in *. rewrite !bind_cons, !filter_app, !length_app. f_equal; [|exact IH]. simpl. unfold Wc.Map.
  induction (FieldsFunc text) as [|x l IHl]; [done|]. rewrite fmap_cons, !filter_cons. simpl. by case_decide; simpl; rewrite IHl.
Qed.

Lemma wc_key w files : (exists kv, kv ∈ mapPhase Wc.Map files /\ Key kv = w) <-> (0 < occurrences w files)%nat.
Proof.
  rewrite <- wc_values. unfold valuesOf. rewrite length_fmap. split.
  - intros (kv & Hin & Hk). assert (H : kv ∈ filter (fun kv => Key kv = w) (mapPhase Wc.Map files)) by (by apply list_elem_of_filter).
    destruct (filter _ _); [by apply elem_of_nil in H|simpl; lia].
  - intros H. destruct (filter _ _) as [|kv l] eqn:E; [simpl in H; lia|].
    assert (Hin : kv ∈ filter (fun kv => Key kv = w) (mapPhase Wc.Map files)) by (rewrite E; by left).
    apply list_elem_of_filter in Hin as [? ?]. eauto.
Qed.

(** Word count counts words: the output has a line exactly for the words that
    occur, with the number of their occurrences in all the files. *)
Theorem wc_counts_words (files : list (string * string)) (l : list KeyValue) (w o : string) :
  sortedCopy (mapPhase Wc.Map files) l ->
  (w, o) ∈ reducePhase Wc.Reduce l <-> (0 < occurrences w files)%nat /\ o = pretty (occurrences w files).
Proof.
  intros [Hp Hs]. destruct (reduceLoop_spec Wc.Reduce (length l) l) as (_ & H2 & H3); [done|done|].
  assert (Ho : forall k v, (k, v) ∈ reducePhase Wc.Reduce l -> v = pretty (occurrences k files)).
  { intros k v H. destruct (H2 _ _ H) as [_ ->]. unfold Wc.Reduce. by rewrite (valuesOf_perm k l (mapPhase Wc.Map files) Hp), wc_values. }
  rewrite <- wc_key. split.
  - intros H. split; [|by apply Ho]. destruct (H2 _ _ H) as [(kv & Hkv & ?) _]. exists kv. by rewrite <- Hp.
  - intros [(kv & Hkv & <-) ->]. rewrite <- Hp in Hkv. apply H3 in Hkv. apply list_elem_of_fmap in Hkv as ([k v] & Ek & Hkv).
    simpl in Ek. rewrite Ek. pose proof (Ho _ _ Hkv) as ->. exact Hkv.
Qed.

(** The index does not depend on the order of the values. *)
Theorem indexer_deterministic (k : string) (vs vs' : list string) : vs ≡ₚ vs' -> Indexer.Reduce k vs = Indexer.Reduce k vs'.
Proof.
  intros H. assert (E : merge_sort String.le vs = merge_sort String.le vs').
  { apply (StronglySorted_unique String.le); [apply (StronglySorted_merge_sort _)..|]. by rewrite !merge_sort_Permutation. }
  unfold Indexer.Reduce. by rewrite E, (Permutation_length H).
Qed.

Definition two_files : list (string * string) := [("a.txt", "it was the best, it was"); ("b.txt", "the worst")].
Definition sorted_words : list KeyValue :=
  (fun w => mkKV w "1") <$> ["best"; "it"; "it"; "the"; "the"; "was"; "was"; "worst"].

Example mrsequential_correct_witness :
  reducePhase Wc.Reduce sorted_words = [("best", "1"); ("it", "2"); ("the", "2"); ("was", "2"); ("worst", "1")] /\
  exists vs, vs ≡ₚ valuesOf "it" (mapPhase Wc.Map two_files) /\ "2" = Wc.Reduce "it" vs.
Proof.
  assert (E : reducePhase Wc.Reduce sorted_words = [("best", "1"); ("it", "2"); ("the", "2"); ("was", "2"); ("worst", "1")])
    by (vm_compute; reflexivity).
  split; [exact E|]. destruct (mrsequential_correct Wc.Map Wc.Reduce two_files sorted_words) as (_ & _ & H).
  - split; [apply (bool_decide_eq_true_1 _); vm_compute; reflexivity|].
    repeat constructor; unfold ByKey; apply (bool_decide_eq_true_1 _); vm_compute; reflexivity.
  - apply H. rewrite E. right. by left.
Defined.

Example indexer_example :
  (Indexer.Reduce "the" ["b.txt"; "a.txt"], Key <$> Indexer.Map "b.txt" "the worst; the end") =
  ("2 a.txt,b.txt", ["worst"; "end"; "the"]).
Proof. vm_compute. reflexivity. Qed.
