(* ===== verification/Config.v ===== *)
(** * Configuration of the daemon and the command line client

    [cmd/raftkvd/config.go]: flags, environment variables and defaults, the
    member table, given or derived from a StatefulSet, and the order of the
    nodes that [cmd/raftkvd/main.go] computes from it; [cmd/raftkvctl/main.go]:
    the client's address list and its loops over the servers.

    Of Go's library this models [strings] on ASCII text, [strconv.Atoi] and the
    parser of the package flag for string flags. *)

From Stdlib Require Import Ascii.
From stdpp Require Import pretty sorting.
From S2P Require Import Prelude Wal Kv Grpc.

(** ** strings *)

Definition is_space (c : Ascii.ascii) : bool :=
  let n := Ascii.nat_of_ascii c in (bool_decide (9 <= n <= 13)%nat || bool_decide (n = 32%nat)).

Fixpoint trim_left (s : string) : string :=
  match s with
  | EmptyString => ""
  | String c s' => if is_space c then trim_left s' else s
  end.

Fixpoint trim_right (s : string) : string :=
  match s with
  | EmptyString => ""
  | String c s => match trim_right s with
                  | EmptyString => if is_space c then "" else String c ""
                  | t => String c t
                  end
  end.

Definition TrimSpace (s : string) : string := trim_right (trim_left s).

(** [strings.TrimSuffix(s, ".")] *)
Fixpoint trim_dot (s : string) : string :=
  match s with
  | EmptyString => ""
  | String c EmptyString => if decide (c = "."%char) then "" else String c ""
  | String c s => String c (trim_dot s)
  end.

Fixpoint Split (sep : Ascii.ascii) (s : string) : list string :=
  match s with
  | EmptyString => [""]
  | String c s =>
      match Split sep s with
      | [] => []
      | p :: ps => if decide (c = sep) then "" :: p :: ps else String c p :: ps
      end
  end.

(** What comes before and after the first [sep]. *)
Fixpoint Cut (sep : Ascii.ascii) (s : string) : option (string * string) :=
  match s with
  | EmptyString => None
  | String c s =>
      if decide (c = sep) then Some ("", s)
      else '(a, b) ← Cut sep s; Some (String c a, b)
  end.

(** ** strconv.Atoi *)

Definition digit (c : Ascii.ascii) : option Z :=
  let n := Z.of_nat (Ascii.nat_of_ascii c) - 48 in if decide (0 <= n <= 9) then Some n else None.

Fixpoint digits (acc : Z) (s : string) : option Z :=
  match s with
  | EmptyString => Some acc
  | String c s => d ← digit c; digits (10 * acc + d) s
  end.

Definition Atoi (s : string) : option Z :=
  let '(neg, body) := match s with
    | String "-" s => (true, s)
    | String "+" s => (false, s)
    | _ => (false, s)
    end in
  if decide (body = "") then None
  else
    n ← digits 0 body;
    let v := if neg : bool then - n else n in
    if decide (- 2 ^ 63 <= v < 2 ^ 63) then Some v else None.

(** *** [strconv.Itoa] *)

Lemma digit_char (d : N) : (d < 10)%N -> digit (pretty_N_char d) = Some (Z.of_N d).
Proof. intros Hd. destruct d as [|p]; [done|]. do 4 (destruct p as [p|p|]; try done; try lia). Qed.

Lemma digits_go x : forall s, digits 0 (pretty_N_go x s) = digits (Z.of_N x) s.
Proof.
  induction (N.lt_wf_0 x) as [x _ IH]; intros s. destruct (decide (x = 0)%N) as [->|Hx]; [done|].
  rewrite pretty_N_go_step by lia. rewrite IH by (apply N.div_lt; lia). cbn [digits].
  rewrite digit_char by (apply N.mod_lt; lia). cbn [mbind option_bind]. f_equal.
  rewrite (N.div_mod x 10) at 3 by lia. lia.
Qed.

(** A number that is not negative is printed as digits. *)
Lemma pretty_digits z : 0 <= z -> exists c s, pretty z = String c s /\ c <> "-"%char /\ c <> "+"%char /\ digits 0 (pretty z) = Some z.
Proof.
  intros Hz. destruct z as [|p|p]; [|clear Hz|lia].
  { by exists "0"%char, "". }
  change (pretty (Z.pos p)) with (pretty (N.pos p)). unfold pretty at 1 2, pretty_N. rewrite decide_False by done.
  assert (Hd : digits 0 (pretty_N_go (N.pos p) "") = Some (Z.pos p)) by (by rewrite digits_go).
  destruct (pretty_N_go (N.pos p) "") as [|c s] eqn:Hs; [done|]. exists c, s. split_and!; [done|..|done].
  all: intros ->; by simpl in Hd.
Qed.

Lemma Atoi_Itoa z : 0 <= z < 2 ^ 63 -> Atoi (pretty z) = Some z.
Proof.
  intros Hz. destruct (pretty_digits z) as (c & s & Hp & Hm & Hq & Hd); [lia|]. rewrite Hp in *.
  assert (H : Atoi (String c s) = (n ← digits 0 (String c s); if decide (- 2 ^ 63 <= n < 2 ^ 63) then Some n else None)).
  { unfold Atoi. destruct c as [[] [] [] [] [] [] [] []]; done. }
  rewrite H, Hd. simpl. rewrite decide_True by lia. done.
Qed.

(** ** Errors *)

Inductive cfgError :=
| ErrHelp | BadFlagSyntax | UnknownFlag | NeedsArgument | Positional
| NotAnInteger (name : string) | PortRange (name : string)
| NoNodeID | NoListen | NoDataDir
| NoReplicas | NoStatefulSet | NoServiceDNS
| PeersEmpty | BadPeer (part : string) | DuplicatePeer (id : string) | NotAMember.

Definition res (A : Type) : Type := cfgError + A.

#[local] Instance res_bind : MBind (sum cfgError) := fun A B f x =>
  match x with inl e => inl e | inr a => f a end.

(** ** The flag set *)

Definition flagNames : list string :=
  ["node-id"; "listen"; "peer-port"; "client-port"; "data-dir"; "peers"; "replicas";
   "statefulset-name"; "service-dns"; "max-raft-bytes"].

(** The name, without its one or two dashes, and the value after "=". *)
Definition flag_value (body : string) : string * option string :=
  match body with
  | String c s => match Cut "="%char s with
                  | Some (n, v) => (String c n, Some v)
                  | None => (body, None)
                  end
  | EmptyString => ("", None)
  end.

(** [fs.Parse]: the values of the flags that were set, the last one of each
    name, and the arguments that remain. *)
Fixpoint Parse (args : list string) (set : gmap string string) : res (gmap string string * list string) :=
  match args with
  | [] => inr (set, [])
  | s :: rest =>
      match s with
      | String "-" body0 =>
          if decide (body0 = "") then inr (set, args)
          else if decide (body0 = "-") then inr (set, rest)
          else
            let body := match body0 with String "-" b => b | _ => body0 end in
            match body with
            | EmptyString | String "-" _ | String "=" _ => inl BadFlagSyntax
            | _ =>
                let '(name, v) := flag_value body in
                if decide (name ∈ flagNames) then
                  match v with
                  | Some v => Parse rest (<[name := v]> set)
                  | None =>
                      match rest with
                      | v :: rest => Parse rest (<[name := v]> set)
                      | [] => inl NeedsArgument
                      end
                  end
                else if decide (name = "help" \/ name = "h") then inl ErrHelp
                else inl UnknownFlag
            end
      | _ => inr (set, args)
      end
  end.

(** ** The configuration *)

Record config := mkConfig {
  nodeID : NodeID;
  listen : string;
  peerPort : Z;
  clientPort : Z;
  dataDir : string;
  peers : gmap NodeID string;
  replicas : Z;
  statefulSetName : string;
  serviceDNS : string;
  peersDerived : bool;
  maxRaftState : Z
}.

Definition defaultPeerPort : string := "7000".
Definition defaultClientPort : string := "7001".

(** An explicit flag, else a variable that is not blank, else the default. *)
Definition resolve (set : gmap string string) (lookupEnv : string -> option string)
    (flagName envName defaultValue : string) : string :=
  match set !! flagName with
  | Some v => TrimSpace v
  | None =>
      match lookupEnv envName with
      | Some v => if decide (TrimSpace v <> "") then TrimSpace v else defaultValue
      | None => defaultValue
      end
  end.

Definition parseInt (name value : string) : res Z :=
  match Atoi value with Some v => inr v | None => inl (NotAnInteger name) end.

Definition parsePort (name value : string) : res Z :=
  port ← parseInt name value;
  if decide (port < 1 \/ 65535 < port) then inl (PortRange name) else inr port.

Definition memberID (statefulSetName : string) (ordinal : nat) : NodeID :=
  (statefulSetName +:+ "-" +:+ pretty ordinal)%string.

Definition derivePeers (replicas : Z) (statefulSetName serviceDNS : string) (peerPort : Z) : res (gmap NodeID string) :=
  if decide (replicas <= 0) then inl NoReplicas
  else if decide (statefulSetName = "") then inl NoStatefulSet
  else if decide (serviceDNS = "") then inl NoServiceDNS
  else inr (foldl (fun m ordinal =>
              let id := memberID statefulSetName ordinal in
              <[id := (id +:+ "." +:+ serviceDNS +:+ ":" +:+ pretty peerPort)%string]> m)
              ∅ (seq 0 (Z.to_nat replicas))).

(** The loop of [parsePeers] over the parts. *)
Fixpoint parseParts (m : gmap NodeID string) (parts : list string) : res (gmap NodeID string) :=
  match parts with
  | [] => inr m
  | part :: parts =>
      let part := TrimSpace part in
      if decide (part = "") then parseParts m parts
      else match Cut "="%char part with
           | None => inl (BadPeer part)
           | Some (id, addr) =>
               let id := TrimSpace id in
               let addr := TrimSpace addr in
               if decide (id = "" \/ addr = "") then inl (BadPeer part)
               else match m !! id with
                    | Some _ => inl (DuplicatePeer id)
                    | None => parseParts (<[id := addr]> m) parts
                    end
           end
  end.

Definition parsePeers (s : string) : res (gmap NodeID string) :=
  if decide (TrimSpace s = "") then inl PeersEmpty
  else m ← parseParts ∅ (Split ","%char s); if decide (m = ∅) then inl PeersEmpty else inr m.

Definition parseConfig (args : list string) (lookupEnv : string -> option string) : res config :=
  '(set, positional) ← Parse args ∅;
  if decide (positional <> []) then inl Positional
  else
    let resolve := resolve set lookupEnv in
    peerPort ← parsePort "--peer-port/PEER_PORT" (resolve "peer-port" "PEER_PORT" defaultPeerPort);
    clientPort ← parsePort "--client-port/CLIENT_PORT" (resolve "client-port" "CLIENT_PORT" defaultClientPort);
    replicas ← parseInt "--replicas/REPLICAS" (resolve "replicas" "REPLICAS" "0");
    maxRaftState ← parseInt "--max-raft-bytes/MAX_RAFT_BYTES" (resolve "max-raft-bytes" "MAX_RAFT_BYTES" "-1");
    let nodeID := resolve "node-id" "NODE_ID" "" in
    let listen := resolve "listen" "LISTEN" "" in
    let dataDir := resolve "data-dir" "DATA_DIR" "" in
    let statefulSetName := resolve "statefulset-name" "STATEFULSET_NAME" "" in
    let serviceDNS := trim_dot (resolve "service-dns" "SERVICE_DNS" "") in
    if decide (nodeID = "") then inl NoNodeID
    else if decide (listen = "") then inl NoListen
    else if decide (dataDir = "") then inl NoDataDir
    else
      let peersValue := resolve "peers" "PEERS" "" in
      '(peers, derived) ← (if decide (peersValue <> "")
                           then m ← parsePeers peersValue; inr (m, false)
                           else m ← derivePeers replicas statefulSetName serviceDNS peerPort; inr (m, true));
      match peers !! nodeID with
      | None => inl NotAMember
      | Some _ => inr (mkConfig nodeID listen peerPort clientPort dataDir peers replicas statefulSetName serviceDNS derived maxRaftState)
      end.

(** [run]: the node IDs in the order every node agrees on. *)
Definition nodeOrder (cfg : config) : list NodeID := merge_sort String.le (elements (dom (peers cfg))).

(** ** cmd/raftkvctl/main.go *)

(** One part of the address list: [NodeID=host:port] or [host:port]. *)
Definition parseAddr (part : string) : list string :=
  let part := TrimSpace part in
  if decide (part = "") then []
  else
    let addr := match Cut "="%char part with Some (_, addr) => addr | None => part end in
    let addr := TrimSpace addr in
    if decide (addr <> "") then [addr] else [].

Definition parseAddrs (s : string) : list string := Split ","%char s ≫= parseAddr.

(** The outcome of a command: what is printed, or that no leader was found in
    time. *)
Inductive ctl_outcome := PrintErr (e : pbErr) | PrintValue (v : string) (version : Z) | TimedOut.

(** The loops of [doPut] and [doGet]: [scan] is one pass over the clients,
    [search] the passes that begin before the deadline.  [call] is the RPC, with
    the state of the servers; [None] is a connection error or a timeout. *)
Section ctl.
Context {W C R : Type} (call : W -> C -> W * option R) (wrong : R -> bool) (print : R -> ctl_outcome).

Fixpoint scan (w : W) (clients : list C) : W * option R :=
  match clients with
  | [] => (w, None)
  | c :: clients =>
      match call w c with
      | (w, Some rep) => if wrong rep then scan w clients else (w, Some rep)
      | (w, None) => scan w clients
      end
  end.

Fixpoint search (passes : nat) (w : W) (clients : list C) : W * ctl_outcome :=
  match passes with
  | O => (w, TimedOut)
  | S passes =>
      match scan w clients with
      | (w, Some rep) => (w, print rep)
      | (w, None) => search passes w clients
      end
  end.
End ctl.

Definition doPut {W C} (call : pbPutArgs -> W -> C -> W * option pbPutReply) (passes : nat) (w : W)
    (clients : list C) (key value : string) (version : Z) : W * ctl_outcome :=
  search (call (mkPbPut key value version)) (fun r => bool_decide (pbpr_Err r = ERR_WRONG_LEADER))
    (fun r => PrintErr (pbpr_Err r)) passes w clients.

Definition doGet {W C} (call : pbGetArgs -> W -> C -> W * option pbGetReply) (passes : nat) (w : W)
    (clients : list C) (key : string) : W * ctl_outcome :=
  search (call (mkPbGet key)) (fun r => bool_decide (pbgr_Err r = ERR_WRONG_LEADER))
    (fun r => if decide (pbgr_Err r = PB_OK) then PrintValue (pbgr_Value r) (pbgr_Version r) else PrintErr (pbgr_Err r))
    passes w clients.

(** ** Lemmas *)

Lemma res_bind_inr {A B} (x : res A) (f : A -> res B) b : (x ≫= f) = inr b -> exists a, x = inr a /\ f a = inr b.
Proof. destruct x as [e|a]; [done|]. by exists a. Qed.

Lemma app_String c a b : (String c a +:+ b)%string = String c (a +:+ b).
Proof. done. Qed.

Lemma app_nil_str (s : string) : (s +:+ "")%string = s.
Proof. induction s as [|c s IH]; [done|]. by rewrite app_String, IH. Qed.

Lemma app_assoc_str (a b c : string) : ((a +:+ b) +:+ c)%string = (a +:+ (b +:+ c))%string.
Proof. induction a as [|x a IH]; [done|]. by rewrite !app_String, IH. Qed.

Lemma app_len (a b : string) : String.length (a +:+ b) = (String.length a + String.length b)%nat.
Proof. induction a as [|x a IH]; [done|]. rewrite app_String. simpl. lia. Qed.

Lemma app_ne (a b : string) : b <> "" -> (a +:+ b)%string <> "".
Proof. by destruct a. Qed.

Lemma trim_left_len s : (String.length (trim_left s) <= String.length s)%nat.
Proof. induction s as [|c s IH]; simpl; [lia|]. destruct (is_space c); simpl; lia. Qed.

Lemma trim_right_len s : (String.length (trim_right s) <= String.length s)%nat.
Proof.
  induction s as [|c s IH]; simpl; [lia|].
  destruct (trim_right s); [destruct (is_space c)|]; simpl in *; lia.
Qed.

(** Text that [TrimSpace] leaves alone has no blank at either end. *)
Lemma trimmed s : TrimSpace s = s -> trim_left s = s /\ trim_right s = s.
Proof.
  intros H. assert (Hl : trim_left s = s); [|split; [done|]; unfold TrimSpace in H; by rewrite Hl in H].
  destruct s as [|c s]; [done|]. simpl. destruct (is_space c) eqn:E; [|done].
  apply (f_equal String.length) in H. unfold TrimSpace in H. simpl in H. rewrite E in H.
  pose proof (trim_right_len (trim_left s)). pose proof (trim_left_len s). lia.
Qed.

Lemma trim_left_app a b : trim_left a = a -> a <> "" -> trim_left (a +:+ b) = (a +:+ b)%string.
Proof.
  destruct a as [|c a]; [done|]. intros H _. rewrite app_String. simpl in *.
  destruct (is_space c) eqn:E; [|done].
  apply (f_equal String.length) in H. simpl in H. pose proof (trim_left_len a). lia.
Qed.

Lemma trim_right_app a b : trim_right b = b -> b <> "" -> trim_right (a +:+ b) = (a +:+ b)%string.
Proof.
  intros Hb Hn. induction a as [|c a IH]; [done|]. rewrite app_String. simpl. rewrite IH.
  destruct (a +:+ b)%string eqn:E; [|done]. exfalso. by apply (app_ne a b).
Qed.

Lemma trim_app a m b : TrimSpace a = a -> a <> "" -> TrimSpace b = b -> b <> "" ->
  TrimSpace (a +:+ m +:+ b) = (a +:+ m +:+ b)%string.
Proof.
  intros [Ha _]%trimmed Hna [_ Hb]%trimmed Hnb. unfold TrimSpace. rewrite trim_left_app; [|done..].
  rewrite <- app_assoc_str. by apply trim_right_app.
Qed.

(** No occurrence of [c]. *)
Fixpoint free (c : Ascii.ascii) (s : string) : bool :=
  match s with
  | EmptyString => true
  | String d s => bool_decide (d <> c) && free c s
  end.

Lemma free_app c a b : free c (a +:+ b) = free c a && free c b.
Proof. induction a as [|d a IH]; [done|]. rewrite app_String. simpl. by rewrite IH, andb_assoc. Qed.

Lemma Cut_app sep a b : free sep a = true -> Cut sep (a +:+ String sep b) = Some (a, b).
Proof.
  induction a as [|c a IH]; simpl; intros H.
  - by rewrite decide_True.
  - apply andb_true_iff in H as [Hc%bool_decide_eq_true H]. rewrite decide_False; [|done].
    change (String.app a (String sep b)) with (a +:+ String sep b)%string. by rewrite IH.
Qed.

Lemma Split_free sep s : free sep s = true -> Split sep s = [s].
Proof.
  induction s as [|c s IH]; [done|]. simpl. intros [Hc%bool_decide_eq_true H]%andb_true_iff.
  rewrite IH; [|done]. by rewrite decide_False.
Qed.

Lemma Split_app sep a b : free sep a = true -> Split sep (a +:+ String sep b) = a :: Split sep b.
Proof.
  induction a as [|c a IH]; simpl; intros H.
  - destruct (Split sep b) eqn:E; [|by rewrite decide_True].
    exfalso. clear H. revert E. induction b as [|d b IH]; simpl; [done|].
    destruct (Split sep b); [by intros; apply IH|]. by case_decide.
  - apply andb_true_iff in H as [Hc%bool_decide_eq_true H].
    change (String.app a (String sep b)) with (a +:+ String sep b)%string. rewrite IH; [|done]. by rewrite decide_False.
Qed.

(** *** The member table *)

(** A member table as an operator writes it. *)
Definition entry (p : NodeID * string) : string := (p.1 +:+ String "="%char p.2)%string.

Fixpoint render (l : list (NodeID * string)) : string :=
  match l with
  | [] => ""
  | [p] => entry p
  | p :: l => (entry p +:+ String ","%char (render l))%string
  end.

(** An identifier and an address that can be written in a table. *)
Definition entry_ok (p : NodeID * string) : Prop :=
  TrimSpace p.1 = p.1 /\ p.1 <> "" /\ free "="%char p.1 = true /\ free ","%char p.1 = true /\
  TrimSpace p.2 = p.2 /\ p.2 <> "" /\ free ","%char p.2 = true.

#[export] Instance entry_ok_dec p : Decision (entry_ok p).
Proof. unfold entry_ok. apply _. Defined.

Lemma entry_trim p : entry_ok p -> TrimSpace (entry p) = entry p /\ entry p <> "" /\
  free ","%char (entry p) = true /\ Cut "="%char (entry p) = Some p.
Proof.
  intros (Ht1 & Hn1 & He & Hc1 & Ht2 & Hn2 & Hc2). destruct p as [a b]. simpl in *. unfold entry. simpl. repeat split.
  - change (String "="%char b) with ("=" +:+ b)%string. by apply trim_app.
  - by apply app_ne.
  - rewrite free_app. simpl. by rewrite Hc1, Hc2.
  - by apply Cut_app.
Qed.

Lemma Split_render l : l <> [] -> Forall entry_ok l -> Split ","%char (render l) = entry <$> l.
Proof.
  intros Hn Hl. induction Hl as [|p l Hp Hl IH]; [done|]. clear Hn.
  destruct (entry_trim _ Hp) as (_ & _ & Hf & _). destruct l as [|q l].
  - by apply Split_free.
  - change (render (p :: q :: l)) with (entry p +:+ String ","%char (render (q :: l)))%string.
    rewrite Split_app; [|done]. by rewrite IH.
Qed.

Lemma parseParts_render l m : Forall entry_ok l -> NoDup l.*1 -> (forall id, id ∈ l.*1 -> m !! id = None) ->
  parseParts m (entry <$> l) = inr (list_to_map l ∪ m).
Proof.
  intros Hl. revert m. induction Hl as [|p l Hp Hl IH]; intros m Hnd Hm; simpl.
  - by rewrite (left_id_L ∅ (∪)).
  - destruct (entry_trim _ Hp) as (Ht & Hne & _ & Hcut). destruct Hp as (Ht1 & Hn1 & _ & _ & Ht2 & Hn2 & _).
    apply NoDup_cons in Hnd as [Hp Hnd]. destruct p as [id addr]. simpl in *.
    rewrite Ht, decide_False, Hcut, Ht1, Ht2, decide_False by naive_solver.
    rewrite Hm by (left; done). rewrite IH.
    + f_equal. rewrite <- insert_union_r, insert_union_l; [done|]. by apply not_elem_of_list_to_map_1.
    + done.
    + intros id' Hid'. rewrite lookup_insert_ne; [apply Hm; by right|]. by intros ->.
Qed.

Lemma render_trim l : l <> [] -> Forall entry_ok l -> TrimSpace (render l) <> "".
Proof.
  intros Hn Hl. destruct Hl as [|p l Hp Hl]; [done|]. clear Hn.
  assert (exists c s, render (p :: l) = String c s /\ is_space c = false) as (c & s & -> & Hc).
  { destruct p as [[|c a] b]; [by destruct Hp as (_ & ? & _)|].
    assert (is_space c = false).
    { destruct Hp as ([H _]%trimmed & _). simpl in H. destruct (is_space c); [|done].
      apply (f_equal String.length) in H. simpl in H. pose proof (trim_left_len a). lia. }
    destruct l as [|q l]; eexists _, _; done. }
  unfold TrimSpace. simpl. rewrite Hc. simpl. rewrite Hc. by destruct (trim_right s).
Qed.

(** A member table survives being written and read: the daemon that is given
    [n1=a1,n2=a2,...] holds exactly these members, and the command line client
    that is given the same text dials exactly these addresses in this order. *)
Theorem peers_roundtrip (l : list (NodeID * string)) :
  l <> [] -> Forall entry_ok l -> NoDup l.*1 ->
  parsePeers (render l) = inr (list_to_map l) /\ parseAddrs (render l) = l.*2.
Proof.
  intros Hn Hl Hnd. split.
  - unfold parsePeers. rewrite decide_False by (by apply render_trim). rewrite Split_render by done.
    rewrite parseParts_render by (done || (intros; apply lookup_empty)). cbn [mbind res_bind].
    rewrite (right_id_L ∅ (∪)). rewrite decide_False; [done|].
    destruct l as [|p l]; [done|]. simpl. apply insert_non_empty.
  - unfold parseAddrs. rewrite Split_render by done. clear Hn Hnd. induction Hl as [|p l Hp Hl IH]; [done|].
    rewrite fmap_cons, bind_cons, IH. unfold parseAddr. destruct (entry_trim _ Hp) as (Ht & Hne & _ & Hcut).
    destruct Hp as (_ & _ & _ & _ & Ht2 & Hn2 & _). destruct p as [id addr]. simpl in *.
    rewrite Ht, decide_False, Hcut, Ht2, decide_True by done. done.
Qed.

Example peers_roundtrip_witness :
  let l := [("n1", "10.0.0.1:7000"); ("n2", "host-2:7000")] in
  parsePeers "n1=10.0.0.1:7000,n2=host-2:7000" = inr (list_to_map l) /\
  parseAddrs "n1=10.0.0.1:7000,n2=host-2:7000" = ["10.0.0.1:7000"; "host-2:7000"].
Proof.
  apply (peers_roundtrip [("n1", "10.0.0.1:7000"); ("n2", "host-2:7000")]).
  - done.
  - apply (bool_decide_eq_true_1 _). vm_compute. reflexivity.
  - apply (bool_decide_eq_true_1 _). vm_compute. reflexivity.
Defined.

(** *** The order of sources *)

(** The variable that each flag falls back to. *)
Definition variables : list (string * string) :=
  [("node-id", "NODE_ID"); ("listen", "LISTEN"); ("peer-port", "PEER_PORT"); ("client-port", "CLIENT_PORT");
   ("data-dir", "DATA_DIR"); ("peers", "PEERS"); ("replicas", "REPLICAS");
   ("statefulset-name", "STATEFULSET_NAME"); ("service-dns", "SERVICE_DNS"); ("max-raft-bytes", "MAX_RAFT_BYTES")].

(** What a variable contributes: nothing when it is unset or blank. *)
Definition contributes (lookupEnv : string -> option string) (envName : string) : option string :=
  v ← lookupEnv envName; if decide (TrimSpace v = "") then None else Some (TrimSpace v).

Lemma resolve_contributes set e f v d :
  resolve set e f v d = match set !! f with Some x => TrimSpace x | None => default d (contributes e v) end.
Proof.
  unfold resolve, contributes. destruct (set !! f); [done|]. destruct (e v) as [x|]; [|done]. simpl.
  destruct (decide (TrimSpace x = "")) as [->|]; [by rewrite decide_False by naive_solver|by rewrite decide_True].
Qed.

(** A flag that is given wins over the environment: the result of
    [parseConfig], configuration or error, depends only on the arguments and on
    what the variables of the flags that were not given contribute.  In
    particular a malformed number in the variable of a given flag is not an error. *)
Theorem flags_override_env (args : list string) (e1 e2 : string -> option string) :
  (forall set rest f v, Parse args ∅ = inr (set, rest) -> (f, v) ∈ variables -> set !! f = None ->
     contributes e1 v = contributes e2 v) ->
  parseConfig args e1 = parseConfig args e2.
Proof.
  intros H. unfold parseConfig. destruct (Parse args ∅) as [|[set rest]]; [done|]. cbn [mbind res_bind].
  assert (Hr : forall f v d, (f, v) ∈ variables -> resolve set e1 f v d = resolve set e2 f v d).
  { intros f v d Hin. rewrite !resolve_contributes. destruct (set !! f) eqn:E; [done|]. by rewrite (H set rest f v). }
  rewrite (Hr "peer-port"), (Hr "client-port"), (Hr "replicas"), (Hr "max-raft-bytes"), (Hr "node-id"), (Hr "listen"),
    (Hr "data-dir"), (Hr "statefulset-name"), (Hr "service-dns"), (Hr "peers")
    by (apply (bool_decide_eq_true_1 _); vm_compute; reflexivity).
  done.
Qed.

Example flags_override_env_witness :
  let args := ["--node-id=n1"; "-listen"; ":7000"; "--peer-port=7000"; "--data-dir=/d"; "--peers"; "n1=a:1,n2=b:1"] in
  parseConfig args (fun v => if decide (v = "PEER_PORT") then Some "seven" else None) =
  parseConfig args (fun _ => None).
Proof.
  intros args. apply flags_override_env. intros set rest f v HP Hin Hf. unfold contributes.
  destruct (decide (v = "PEER_PORT")) as [->|]; [exfalso|done].
  assert (Hp : match Parse args ∅ with inr (s, _) => s !! "peer-port" = Some "7000" | _ => False end)
    by (vm_compute; reflexivity).
  rewrite HP in Hp. clear HP. apply list_elem_of_In in Hin. simpl in Hin. destruct_or! Hin; congruence.
Defined.

(** *** What a configuration guarantees *)

Lemma app_inj_str (a b c : string) : (a +:+ b)%string = (a +:+ c)%string -> b = c.
Proof. apply (inj (String.app a)). Qed.

Lemma memberID_inj name i j : memberID name i = memberID name j -> i = j.
Proof. intros H%app_inj_str%app_inj_str. by apply (inj pretty) in H. Qed.

Lemma app_ne_l (a b : string) : a <> "" -> (a +:+ b)%string <> "".
Proof. by destruct a. Qed.

(** The table as a map over the ordinals. *)
Lemma derivePeers_spec n name dns port m : derivePeers n name dns port = inr m ->
  0 < n /\ name <> "" /\ dns <> "" /\
  m = list_to_map ((fun i => (memberID name i, (memberID name i +:+ "." +:+ dns +:+ ":" +:+ pretty port)%string))
                     <$> reverse (seq 0 (Z.to_nat n))).
Proof.
  unfold derivePeers. repeat case_decide; try done. intros [= <-]. split_and!; [lia|done..|].
  generalize (seq 0 (Z.to_nat n)) as l. intros l. rewrite <- (reverse_involutive l) at 1.
  induction (reverse l) as [|i k IH]; [done|]. rewrite reverse_cons, foldl_app. simpl. by rewrite IH.
Qed.

Lemma derivePeers_lookup n name dns port m id : derivePeers n name dns port = inr m ->
  is_Some (m !! id) <-> exists i, (i < Z.to_nat n)%nat /\ id = memberID name i.
Proof.
  intros (_ & _ & _ & ->)%derivePeers_spec. rewrite <- elem_of_dom, dom_list_to_map_L, elem_of_list_to_set.
  rewrite <- list_fmap_compose, list_elem_of_fmap. setoid_rewrite elem_of_reverse. setoid_rewrite elem_of_seq.
  simpl. split; intros (i & ? & ?); exists i; split; (done || lia).
Qed.

(** A member table without blank identifiers or addresses. *)
Definition table_ok (m : gmap NodeID string) : Prop := m !! "" = None /\ map_Forall (fun _ addr => addr <> "") m.

Lemma parseParts_ok parts m m' : table_ok m -> parseParts m parts = inr m' -> table_ok m'.
Proof.
  revert m. induction parts as [|part parts IH]; intros m Hm; simpl; [by intros [= <-]|].
  case_decide; [by apply IH|]. destruct (Cut _ _) as [[id addr]|]; [|done]. case_decide as Hb; [done|].
  destruct (m !! TrimSpace id) eqn:E; [done|]. apply IH. destruct Hm as [He Hm]. split.
  - rewrite lookup_insert_ne; [done|]. intros Hx. apply Hb. by left.
  - apply map_Forall_insert_2; [|done]. intros Hx. apply Hb. by right.
Qed.

Lemma parsePeers_ok s m : parsePeers s = inr m -> table_ok m /\ m <> ∅.
Proof.
  unfold parsePeers. case_decide; [done|]. destruct (parseParts _ _) as [|m'] eqn:E; [done|]. cbn [mbind res_bind].
  case_decide; [done|]. intros [= <-]. split; [|done]. revert E. apply parseParts_ok.
  split; [apply lookup_empty|apply map_Forall_empty].
Qed.

Lemma derivePeers_ok n name dns port m : derivePeers n name dns port = inr m ->
  table_ok m /\ Z.of_nat (size m) = n.
Proof.
  intros H. pose proof H as (Hn & Hname & _ & ->)%derivePeers_spec. split; [split|].
  - apply eq_None_not_Some. rewrite derivePeers_lookup by done. intros (i & _ & Hi). symmetry in Hi. by apply app_ne_l in Hi.
  - intros id addr (i & [= -> ->] & _)%elem_of_list_to_map_2%list_elem_of_fmap. by apply app_ne_l, app_ne_l.
  - rewrite map_size_list_to_map.
    + rewrite length_fmap, length_reverse, length_seq. lia.
    + rewrite <- list_fmap_compose. apply NoDup_fmap_2; [|rewrite reverse_Permutation; apply NoDup_seq].
      intros i j. apply memberID_inj.
Qed.

Lemma parsePort_ok name v p : parsePort name v = inr p -> 1 <= p <= 65535.
Proof. unfold parsePort. destruct (parseInt _ _); [done|]. cbn [mbind res_bind]. case_decide; [done|]. intros [= <-]. lia. Qed.

(** A configuration that [parseConfig] accepts describes a cluster that this
    node can join: the required fields are there and the ports are ports; the
    order of the nodes has every member once, is sorted, contains this node and
    no blank identifier, which is what the theorems on the cluster assume of their
    members; every member has an address; and a derived table has exactly
    [replicas] members, the pods [name-0 .. name-(replicas-1)]. *)
Theorem parseConfig_sound (args : list string) (lookupEnv : string -> option string) (cfg : config) :
  parseConfig args lookupEnv = inr cfg ->
  listen cfg <> "" /\ dataDir cfg <> "" /\ 1 <= peerPort cfg <= 65535 /\ 1 <= clientPort cfg <= 65535 /\
  NoDup (nodeOrder cfg) /\ StronglySorted String.le (nodeOrder cfg) /\
  nodeID cfg ∈ nodeOrder cfg /\ ("" ∉ nodeOrder cfg) /\
  (forall id, id ∈ nodeOrder cfg -> exists addr, peers cfg !! id = Some addr /\ addr <> "") /\
  (peersDerived cfg = true ->
     zlen (nodeOrder cfg) = replicas cfg /\
     forall id, id ∈ nodeOrder cfg <->
       (exists i, (i < Z.to_nat (replicas cfg))%nat /\ id = memberID (statefulSetName cfg) i)).
Proof.
  unfold parseConfig. destruct (Parse _ _) as [|[set rest]]; [done|]. cbn [mbind res_bind]. case_decide; [done|].
  intros (z & Hz & (z0 & Hz0 & (z1 & _ & (z2 & _ & H')%res_bind_inr)%res_bind_inr)%res_bind_inr)%res_bind_inr. revert H'.
  do 3 (case_decide; [done|]).
  set (tbl := if decide (_ <> "") then _ else _).
  assert (Ht : forall m d, tbl = inr (m, d) -> table_ok m /\ (d = true -> derivePeers z1
    (resolve set lookupEnv "statefulset-name" "STATEFULSET_NAME" "")
    (trim_dot (resolve set lookupEnv "service-dns" "SERVICE_DNS" "")) z = inr m)).
  { intros m d. unfold tbl. case_decide.
    - intros (m0 & E & [= <- <-])%res_bind_inr. apply parsePeers_ok in E as [? _]. done.
    - intros (m0 & E & [= <- <-])%res_bind_inr. pose proof E as Hx. apply derivePeers_ok in E as [? _]. done. }
  intros ([m d] & Htbl & H')%res_bind_inr. revert H'. destruct (Ht m d Htbl) as [[He Ha] Hd]. clear Ht.
  destruct (m !! resolve _ _ _ _ _) eqn:Hme; [|done]. intros [= <-]. cbn.
  assert (Hin : forall id, id ∈ merge_sort String.le (elements (dom m)) <-> is_Some (m !! id))
    by (intros id; rewrite merge_sort_Permutation, elem_of_elements; apply elem_of_dom).
  unfold nodeOrder. cbn. split_and!; try done; try by eapply parsePort_ok.
  - rewrite merge_sort_Permutation. apply NoDup_elements.
  - apply (StronglySorted_merge_sort _).
  - apply Hin. eauto.
  - rewrite Hin. rewrite He. by intros [? ?].
  - intros id [addr Haddr]%Hin. exists addr. split; [done|]. by apply (Ha id).
  - intros Hdt. specialize (Hd Hdt). split.
    + unfold zlen. rewrite merge_sort_Permutation. apply derivePeers_ok in Hd as [_ <-]. by rewrite <- size_dom.
    + intros id. rewrite Hin. by eapply derivePeers_lookup.
Qed.

(** A pod of a StatefulSet of three. *)
Definition pod_env (v : string) : option string :=
  list_to_map (M := gmap string string)
    [("NODE_ID", "raftkv-1"); ("LISTEN", ":7000"); ("DATA_DIR", "/data"); ("REPLICAS", " 3 ");
     ("STATEFULSET_NAME", "raftkv"); ("SERVICE_DNS", "raftkv.default."); ("PEERS", "  ")] !! v.

Example parseConfig_sound_witness :
  match parseConfig [] pod_env with
  | inr cfg => nodeOrder cfg = ["raftkv-0"; "raftkv-1"; "raftkv-2"] /\
               peers cfg !! "raftkv-2" = Some "raftkv-2.raftkv.default:7000" /\ ("" ∉ nodeOrder cfg)
  | inl _ => False
  end.
Proof.
  destruct (parseConfig [] pod_env) as [e|cfg] eqn:E; [vm_compute in E; discriminate|].
  pose proof (parseConfig_sound _ _ _ E) as (_ & _ & _ & _ & _ & _ & _ & Hb & _).
  assert (H : match parseConfig [] pod_env with
              | inr cfg => nodeOrder cfg = ["raftkv-0"; "raftkv-1"; "raftkv-2"] /\
                           peers cfg !! "raftkv-2" = Some "raftkv-2.raftkv.default:7000"
              | inl _ => False end) by (vm_compute; split; reflexivity).
  rewrite E in H. destruct H as [? ?]. by split_and!.
Defined.

(** *** The command line client *)

(** What a command prints is a server's own reply to it, the last one asked. *)
Lemma search_spec {W C R} (call : W -> C -> W * option R) wrong print passes w clients w' out :
  search call wrong print passes w clients = (w', out) -> out <> TimedOut ->
  exists w0 c rep, c ∈ clients /\ call w0 c = (w', Some rep) /\ wrong rep = false /\ out = print rep.
Proof.
  assert (Hscan : forall l w w' rep, scan call wrong w l = (w', Some rep) ->
    exists w0 c, c ∈ l /\ call w0 c = (w', Some rep) /\ wrong rep = false).
  { induction l as [|c l IH]; intros w1 w1' rep; simpl; [done|]. destruct (call w1 c) as [w2 [r|]] eqn:Ec.
    - destruct (wrong r) eqn:Er; [intros (w0 & c0 & ? & ?)%IH|intros [= <- <-]].
      + exists w0, c0. split; [by right|done].
      + exists w1, c. split; [by left|done].
    - intros (w0 & c0 & ? & ?)%IH. exists w0, c0. split; [by right|done]. }
  revert w. induction passes as [|n IH]; intros w; simpl; [by intros [= <- <-]|].
  destruct (scan call wrong w clients) as [w1 [rep|]] eqn:E; [|apply IH].
  intros [= <- <-] _. apply Hscan in E as (w0 & c & ? & ? & ?). eauto 10.
Qed.

(** [doPut] resends without remembering it: a put whose reply is lost is
    performed and reported as a version error. *)
Example ctl_put_misreports :
  let call (a : pbPutArgs) (w : bool * KvMap) (c : nat) :=
    let '(rep, m) := KvSrv.Put w.2 (mkPutArgs (pbp_Key a) (pbp_Value a) (pbp_Version a)) in
    ((false, m), if w.1 then None else KVService_Put (fun _ => Some rep) a) in
  let '(w, out) := doPut call 3 (true, ∅) [0%nat] "k" "v" 0 in
  out = PrintErr ERR_VERSION /\ w.2 !! "k" = Some (mkKvEntry "v" 1).
Proof. vm_compute. done. Qed.
