(* ===== verification/MrTest.v ===== *)
(** * The tests of distributed MapReduce

    The coordinator and the workers are for the students to write; what is given is
    the function that spreads keys over the reduce tasks ([ihash] of
    [mr/worker.go]), the applications the tests run ([mrapps/crash.go],
    [nocrash.go], [early_exit.go], [jobcount.go], [mtiming.go], [rtiming.go]) and
    the checks of [mr/util.go], which compare the files of a run with the output
    of sequential MapReduce ([MapReduce]).

    A directory is a map from names to files, a file the list of its lines.  The
    programs sort, find and cmp are what their manuals say; the order in which find
    lists files is open. *)

From Stdlib Require Import Ascii.
From stdpp Require Import pretty sorting.
From S2P Require Import Prelude Config MapReduce.

(** ** Spreading keys *)

(** FNV-1a of the bytes of a string. *)
Fixpoint fnv32a (h : Z) (s : string) : Z :=
  match s with
  | EmptyString => h
  | String c s => fnv32a ((Z.lxor h (Z.of_nat (Ascii.nat_of_ascii c)) * 16777619) mod 2 ^ 32) s
  end.

Definition ihash (key : string) : Z := Z.land (fnv32a 2166136261 key) (2 ^ 31 - 1).

Lemma ihash_bound key : 0 <= ihash key < 2 ^ 31.
Proof. unfold ihash. change (2 ^ 31 - 1) with (Z.ones 31). rewrite Z.land_ones by lia. apply Z.mod_pos_bound. lia. Qed.

(** The reduce task of a key. *)
Definition task (nReduce : Z) (key : string) : Z := ihash key mod nReduce.

(** ** The applications *)

Definition sortStrings (l : list string) : list string := merge_sort String.le l.

Lemma sortStrings_perm l l' : l ≡ₚ l' -> sortStrings l = sortStrings l'.
Proof.
  intros H. apply (StronglySorted_unique String.le); [apply (StronglySorted_merge_sort _)..|].
  unfold sortStrings. by rewrite !merge_sort_Permutation.
Qed.

Module Nocrash.
Definition Map (filename contents : string) : list KeyValue :=
  [mkKV "a" filename; mkKV "b" (pretty (String.length filename)); mkKV "c" (pretty (String.length contents)); mkKV "d" "xyzzy"].

Definition Reduce (_ : string) (values : list string) : string := Indexer.join " " (sortStrings values).
End Nocrash.

Module Crash.
(** [maybeCrash]: [rr] is the random number below 1000; [None] is the exit. *)
Definition maybeCrash (rr : Z) : option unit := if decide (rr < 330) then None else Some tt.

Definition Map (rr : Z) (filename contents : string) : option (list KeyValue) :=
  _ ← maybeCrash rr;
  Some [mkKV "a" filename; mkKV "b" (pretty (String.length filename)); mkKV "c" (pretty (String.length contents)); mkKV "d" "xyzzy"].

Definition Reduce (rr : Z) (_ : string) (values : list string) : option string :=
  _ ← maybeCrash rr;
  Some (Indexer.join " " (sortStrings values)).
End Crash.

Module EarlyExit.
Definition Map (filename _ : string) : list KeyValue := [mkKV filename "1"].
Definition Reduce (_ : string) (values : list string) : string := pretty (length values).
End EarlyExit.

(** The files in the working directory, by name. *)
Abbreviation names := (gset string).

Module Jobcount.
(** The state of a process is its [count]. *)
Definition file (pid : Z) (count : nat) : string := ("mr-worker-jobcount-" +:+ pretty pid +:+ "-" +:+ pretty count)%string.

Definition Map (pid : Z) (count : nat) (dir : names) : nat * names * list KeyValue :=
  (S count, {[file pid count]} ∪ dir, [mkKV "a" "x"]).

Definition Reduce (dir : names) (_ : string) (_ : list string) : string :=
  pretty (length (filter (fun f => String.prefix "mr-worker-jobcount" f = true) (elements dir))).
End Jobcount.

(** What [fmt.Sscanf(name, "mr-worker-<phase>-%d", &xpid)] reads: the number after
    the literal text, up to where its digits end. *)
Fixpoint strip (pre s : string) : option string :=
  match pre, s with
  | EmptyString, _ => Some s
  | String a pre, String b s => if decide (a = b) then strip pre s else None
  | _, _ => None
  end.

Fixpoint takeDigits (s : string) : string :=
  match s with
  | String c s => match digit c with Some _ => String c (takeDigits s) | None => "" end
  | EmptyString => ""
  end.

Definition pidOf (phase name : string) : option Z :=
  rest ← strip ("mr-worker-" +:+ phase +:+ "-")%string name;
  let ds := takeDigits rest in
  if decide (ds = "") then None else digits 0 ds.

Definition workerFile (phase : string) (pid : Z) : string := ("mr-worker-" +:+ phase +:+ "-" +:+ pretty pid)%string.

(** [nparallel], once the worker's own file is in the directory: [names] is what
    [Readdirnames] lists, [alive] what [syscall.Kill(pid, 0)] says. *)
Fixpoint countAlive (alive : Z -> bool) (phase : string) (l : list string) : Z :=
  match l with
  | [] => 0
  | name :: l =>
      match pidOf phase name with
      | Some xpid => (if alive xpid then 1 else 0) + countAlive alive phase l
      | None => countAlive alive phase l
      end
  end.

Module Rtiming.
Definition Map (_ _ : string) : list KeyValue :=
  (fun k => mkKV k "1") <$> ["a"; "b"; "c"; "d"; "e"; "f"; "g"; "h"; "i"; "j"].

Definition Reduce (alive : Z -> bool) (dir : list string) (_ : string) (_ : list string) : string :=
  pretty (countAlive alive "reduce" dir).
End Rtiming.

Module Mtiming.
(** [ts] is the time, printed. *)
Definition Map (pid : Z) (ts : string) (alive : Z -> bool) (dir : list string) (_ _ : string) : list KeyValue :=
  [mkKV ("times-" +:+ pretty pid)%string ts; mkKV ("parallel-" +:+ pretty pid)%string (pretty (countAlive alive "map" dir))].

Definition Reduce (_ : string) (values : list string) : string := Indexer.join " " (sortStrings values).
End Mtiming.

(** A worker that does not crash does what [nocrash.go] does, whatever numbers it
    draws and in whatever order the values reach it: so a task can be run again. *)
Theorem crash_reruns rr filename contents kvs rr' k vs vs' o :
  Crash.Map rr filename contents = Some kvs -> Crash.Reduce rr' k vs = Some o -> vs ≡ₚ vs' ->
  kvs = Nocrash.Map filename contents /\ o = Nocrash.Reduce k vs'.
Proof.
  unfold Crash.Map, Crash.Reduce, Crash.maybeCrash. destruct (decide (rr < 330)), (decide (rr' < 330)); try done.
  intros [= <-] [= <-] H. split; [done|]. unfold Nocrash.Reduce. by rewrite (sortStrings_perm vs vs').
Qed.

(** *** Counting tasks *)

Lemma cut_digits t s : forall a, is_Some (digits a s) -> Cut "-"%char (s +:+ String "-" t) = Some (s, t).
Proof.
  induction s as [|c s IH]; intros a Hd; [done|]. cbn [digits] in Hd.
  assert (Hc : c <> "-"%char) by (intros ->; by destruct Hd).
  destruct (digit c) as [d|]; [|by destruct Hd]. cbn [mbind option_bind] in Hd.
  change (String c s +:+ String "-" t)%string with (String c (s +:+ String "-" t)). cbn [Cut]. rewrite decide_False by done.
  by rewrite (IH _ Hd).
Qed.

Lemma jobcount_file_inj p c p' c' : 0 <= p -> 0 <= p' -> Jobcount.file p c = Jobcount.file p' c' -> p = p' /\ c = c'.
Proof.
  intros Hp Hp' H. unfold Jobcount.file in H. apply (inj _) in H.
  destruct (pretty_digits p Hp) as (_ & _ & _ & _ & _ & Hd), (pretty_digits p' Hp') as (_ & _ & _ & _ & _ & Hd').
  apply (f_equal (Cut "-"%char)) in H. change ("-" +:+ pretty c)%string with (String "-" (pretty c)) in H.
  change ("-" +:+ pretty c')%string with (String "-" (pretty c')) in H.
  rewrite (cut_digits _ _ 0), (cut_digits _ _ 0) in H by eauto. injection H as H1 H2. split; by apply (inj pretty).
Qed.

(** Processes that run map tasks one after the other, each with its own [count]. *)
Fixpoint runMaps (counts : Z -> nat) (dir : names) (pids : list Z) : names :=
  match pids with
  | [] => dir
  | p :: pids =>
      let '(c, dir, _) := Jobcount.Map p (counts p) dir in runMaps (<[p := c]> counts) dir pids
  end.

Definition jobFile (f : string) : Prop := String.prefix "mr-worker-jobcount" f = true.

Lemma runMaps_count pids : forall counts dir, (forall p, p ∈ pids -> 0 <= p) ->
  (forall f, f ∈ dir -> jobFile f -> exists p c, 0 <= p /\ f = Jobcount.file p c /\ (c < counts p)%nat) ->
  length (filter jobFile (elements (runMaps counts dir pids))) = (length pids + length (filter jobFile (elements dir)))%nat.
Proof.
  induction pids as [|p pids IH]; intros counts dir Hp Hdir; simpl; [done|].
  assert (H0 : 0 <= p) by (apply Hp; by left).
  assert (Hnew : Jobcount.file p (counts p) ∉ dir).
  { intros Hin. destruct (Hdir _ Hin) as (p' & c & Hp' & Heq & Hlt); [done|]. apply jobcount_file_inj in Heq as [<- <-]; [lia|done..]. }
  rewrite IH.
  - rewrite (elements_union_singleton dir) by done. rewrite filter_cons_True by done. simpl. lia.
  - intros q Hq. apply Hp. by right.
  - intros f [->%elem_of_singleton|Hin]%elem_of_union Hf.
    + exists p, (counts p). rewrite fn_lookup_insert. split_and!; [done..|lia].
    + destruct (Hdir f Hin Hf) as (q & c & Hq & -> & Hlt). exists q, c. split_and!; [done..|].
      destruct (decide (p = q)) as [->|Hne]; [rewrite fn_lookup_insert; lia|by rewrite fn_lookup_insert_ne].
Qed.

(** The reduce task of the job-count test reports how many map tasks have run, by
    whatever processes: a map task that was run twice shows. *)
Theorem jobcount_counts (pids : list Z) (dir : names) k vs :
  (forall p, p ∈ pids -> 0 <= p) -> (forall f, f ∈ dir -> ~ jobFile f) ->
  Jobcount.Reduce (runMaps (fun _ => 0%nat) dir pids) k vs = pretty (length pids).
Proof.
  intros Hp Hd. unfold Jobcount.Reduce. f_equal. change (fun f => String.prefix "mr-worker-jobcount" f = true) with jobFile.
  rewrite (runMaps_count pids (fun _ => 0%nat) dir Hp); [|intros f Hf Hj; by destruct (Hd f Hf)].
  destruct (filter jobFile (elements dir)) as [|f l] eqn:E; [simpl; lia|].
  assert (Hf : f ∈ filter jobFile (elements dir)) by (rewrite E; by left).
  apply list_elem_of_filter in Hf as [Hj Hf%elem_of_elements]. by destruct (Hd f Hf).
Qed.

(** *** Counting workers *)

Lemma strip_app a b c : strip (a +:+ b) (a +:+ c) = strip b c.
Proof. induction a as [|x a IH]; [done|]. simpl. by rewrite decide_True. Qed.

Lemma takeDigits_all s : forall a, is_Some (digits a s) -> takeDigits s = s.
Proof.
  induction s as [|c s IH]; intros a Hd; [done|]. cbn [digits] in Hd. cbn [takeDigits]. destruct (digit c); [|by destruct Hd].
  cbn [mbind option_bind] in Hd. by rewrite (IH _ Hd).
Qed.

Lemma pidOf_workerFile phase pid : 0 <= pid -> pidOf phase (workerFile phase pid) = Some pid.
Proof.
  intros Hp. unfold pidOf, workerFile. rewrite !strip_app. simpl. destruct (pretty_digits pid Hp) as (c & s & Hc & _ & _ & Hd).
  rewrite (takeDigits_all _ 0) by eauto. rewrite decide_False by (by rewrite Hc). done.
Qed.

(** A worker counts the workers of its phase that are alive, itself included, in
    whatever order the directory is listed. *)
Theorem nparallel_counts alive phase (pids : list Z) (others l : list string) :
  (forall p, p ∈ pids -> 0 <= p) -> (forall f, f ∈ others -> pidOf phase f = None) ->
  l ≡ₚ (workerFile phase <$> pids) ++ others ->
  countAlive alive phase l = zlen (filter (fun p => alive p = true) pids).
Proof.
  intros Hp Ho Hl.
  assert (Hperm : forall l l', l ≡ₚ l' -> countAlive alive phase l = countAlive alive phase l').
  { clear. induction 1 as [|f l l' _ IH|f g l|]; simpl; [done|by rewrite IH| |congruence]. destruct (pidOf phase f), (pidOf phase g); lia. }
  rewrite (Hperm _ _ Hl). clear Hl Hperm. induction pids as [|p pids IH]; [simpl|rewrite fmap_cons; cbn [app countAlive]].
  - induction others as [|f others IHo]; [done|]. simpl. rewrite Ho by (by left). apply IHo. intros g Hg. apply Ho. by right.
  - rewrite pidOf_workerFile by (apply Hp; by left). rewrite IH by (intros q Hq; apply Hp; by right).
    rewrite filter_cons. destruct (alive p); [rewrite decide_True by done|rewrite decide_False by done]; unfold zlen; simpl; lia.
Qed.

(** ** Comparing a run with sequential MapReduce *)

Abbreviation dir := (gmap string (list string)).

Definition outName (i : nat) : string := ("mr-out-" +:+ pretty i)%string.

(** The names that the pattern mr-out-[0-9] matches. *)
Definition isOut (name : string) : bool :=
  match strip "mr-out-" name with
  | Some (String c EmptyString) => bool_decide (is_Some (digit c))
  | _ => false
  end.

(** The line of a key. *)
Definition outLine (ko : string * string) : string := (ko.1 +:+ " " +:+ ko.2)%string.

(** [mkCorrectOutput]: [seq] is what mrsequential computes. *)
Definition mkCorrectOutput (d : dir) (seq : list (string * string)) (out : string) : dir :=
  let d := <["mr-out-0" := outLine <$> seq]> d in
  delete "mr-out-0" (<[out := sortStrings (outLine <$> seq)]> d).

(** [findFiles(tmp, mr-out-[0-9])], in some order. *)
Definition found (d : dir) (fs : list string) : Prop :=
  NoDup fs /\ forall f, f ∈ fs <-> isOut f = true /\ is_Some (d !! f).

(** [mergeOutput] of the files found; none is fatal. *)
Definition mergeOutput (d : dir) (fs : list string) (out : string) : option dir :=
  if decide (fs = []) then None
  else ls ← mapM (fun f => d !! f) fs; Some (<[out := sortStrings (concat ls)]> d).

(** [runCmp]: whether cmp succeeds. *)
Definition runCmp (d : dir) (f1 f2 : string) : bool :=
  match d !! f1, d !! f2 with Some a, Some b => bool_decide (a = b) | _, _ => false end.

(** [countPattern]: [m] counts the matches of the pattern in a file; a file that
    cannot be read is fatal. *)
Fixpoint countPattern (m : list string -> Z) (d : dir) (fs : list string) : option Z :=
  match fs with
  | [] => Some 0
  | f :: fs => ls ← d !! f; n ← countPattern m d fs; Some (m ls + n)
  end.

Section compare.
Context (mapf : string -> string -> list KeyValue) (reducef : string -> list string -> string).
Context (inputs : list (string * string)) (nReduce : nat).

Definition emitted (k : string) : Prop := exists kv, kv ∈ mapPhase mapf inputs /\ Key kv = k.

(** What a distributed run must leave: reduce task [i] has written the keys that
    [ihash] gives it, once each, with a reduction of their values in some order;
    [kos i] are its lines. *)
Record right_run (d : dir) (kos : nat -> list (string * string)) : Prop := {
  r_file i : (i < nReduce)%nat -> d !! outName i = Some (outLine <$> kos i);
  r_only f : isOut f = true -> is_Some (d !! f) -> exists i, (i < nReduce)%nat /\ f = outName i;
  r_nodup i : (i < nReduce)%nat -> NoDup (kos i).*1;
  r_keys i k : (i < nReduce)%nat -> k ∈ (kos i).*1 <-> emitted k /\ task (Z.of_nat nReduce) k = Z.of_nat i;
  r_out i k o : (i < nReduce)%nat -> (k, o) ∈ kos i -> exists vs, vs ≡ₚ valuesOf k (mapPhase mapf inputs) /\ o = reducef k vs
}.

Context (reducef_perm : forall k vs vs', vs ≡ₚ vs' -> reducef k vs = reducef k vs').

Lemma sorted_NoDup ks : StronglySorted str_lt ks -> NoDup ks.
Proof. induction 1 as [|k ks _ IH Hf]; constructor; [|done]. intros Hin. rewrite Forall_forall in Hf. by destruct (Hf k Hin). Qed.

Lemma NoDup_keys (l : list (string * string)) : NoDup l.*1 -> NoDup l.
Proof. apply NoDup_fmap_1. Qed.

Lemma sequential_lines l k o : sortedCopy (mapPhase mapf inputs) l ->
  (k, o) ∈ reducePhase reducef l <-> emitted k /\ o = reducef k (valuesOf k (mapPhase mapf inputs)).
Proof.
  intros Hs. destruct (mrsequential_correct mapf reducef inputs l Hs) as (_ & Hk & Ho). split.
  - intros H. split; [apply Hk; by apply (list_elem_of_fmap_2 fst _ (k, o))|]. destruct (Ho k o H) as (vs & Hv & ->). by apply reducef_perm.
  - intros [He ->]. apply Hk, list_elem_of_fmap in He as ([k' o] & -> & H). destruct (Ho _ _ H) as (vs & Hv & ->). by rewrite <- (reducef_perm _ _ _ Hv).
Qed.

Lemma run_lines d kos l : right_run d kos -> sortedCopy (mapPhase mapf inputs) l -> (0 < nReduce)%nat ->
  (seq 0 nReduce ≫= kos) ≡ₚ reducePhase reducef l.
Proof.
  intros [_ _ Hnd Hk Ho] Hs Hn. apply NoDup_Permutation.
  - assert (Hd : forall js, NoDup js -> (forall i, i ∈ js -> (i < nReduce)%nat) -> NoDup (js ≫= kos)).
    { induction js as [|i js IH]; intros Hj Hlt; simpl; [constructor|]. apply NoDup_cons in Hj as [Hi Hj].
      apply NoDup_app. split_and!; [apply NoDup_keys, Hnd, Hlt; by left| |apply IH; [done|]; intros j Hj'; apply Hlt; by right].
      intros [k o] H1 (j & H2 & Hj')%list_elem_of_bind. assert (Hil : (i < nReduce)%nat) by (apply Hlt; by left).
      assert (Hjl : (j < nReduce)%nat) by (apply Hlt; by right).
      apply (list_elem_of_fmap_2 fst) in H1, H2. apply Hk in H1 as [_ H1], H2 as [_ H2]; [|done..].
      assert (i = j) as -> by lia. done. }
    apply Hd; [apply NoDup_seq|]. intros i Hi%elem_of_seq. lia.
  - destruct (mrsequential_correct mapf reducef inputs l Hs) as (Hss & _). by apply NoDup_keys, sorted_NoDup.
  - intros [k o]. rewrite (sequential_lines l k o Hs), list_elem_of_bind. split.
    + intros (i & H & Hi%elem_of_seq). assert (Hil : (i < nReduce)%nat) by lia. destruct (Ho i k o Hil H) as (vs & Hv & ->).
      apply (list_elem_of_fmap_2 fst) in H. apply Hk in H as [He _]; [|done]. split; [done|]. by apply reducef_perm.
    + intros [He ->]. set (t := task (Z.of_nat nReduce) k).
      assert (Ht : 0 <= t < Z.of_nat nReduce) by (apply Z.mod_pos_bound; lia).
      assert (Hin : k ∈ (kos (Z.to_nat t)).*1) by (apply Hk; [lia|]; split; [done|]; unfold t in *; lia).
      apply list_elem_of_fmap in Hin as ([k' o] & -> & Hin). exists (Z.to_nat t). split; [|apply elem_of_seq; lia].
      destruct (Ho (Z.to_nat t) _ _ ltac:(lia) Hin) as (vs & Hv & ->). by rewrite <- (reducef_perm _ _ _ Hv).
Qed.

(** A run that splits the sequential output over the files is right. *)
Definition shareOf (l : list KeyValue) (i : nat) : list (string * string) :=
  filter (fun ko => task (Z.of_nat nReduce) ko.1 = Z.of_nat i) (reducePhase reducef l).

Lemma shares_right d l : sortedCopy (mapPhase mapf inputs) l ->
  (forall i, (i < nReduce)%nat -> d !! outName i = Some (outLine <$> shareOf l i)) ->
  (forall f, isOut f = true -> is_Some (d !! f) -> exists i, (i < nReduce)%nat /\ f = outName i) ->
  right_run d (shareOf l).
Proof.
  intros Hs H1 H2. destruct (mrsequential_correct mapf reducef inputs l Hs) as (Hss & Hk & Ho). split; [done|done|..].
  - intros i _. unfold shareOf. apply sorted_NoDup in Hss. clear Hk Ho H1. induction (reducePhase reducef l) as [|ko r IH]; [constructor|].
    apply NoDup_cons in Hss as [Hn Hss]. rewrite filter_cons. case_decide; [|by apply IH]. constructor; [|by apply IH].
    intros ([k o] & Heq & [_ Hin]%list_elem_of_filter)%list_elem_of_fmap. apply Hn. rewrite Heq. by apply (list_elem_of_fmap_2 fst).
  - intros i k _. unfold shareOf. rewrite list_elem_of_fmap. setoid_rewrite list_elem_of_filter. unfold emitted. rewrite <- Hk, list_elem_of_fmap. naive_solver.
  - intros i k o _ [_ Hin]%list_elem_of_filter. by apply Ho.
Qed.

(** The pattern has one digit. *)
Lemma isOut_outName i : (i < 10)%nat -> isOut (outName i) = true.
Proof. intros Hi. do 10 (destruct i as [|i]; [done|]). lia. Qed.

Lemma outName_inj : Inj (=) (=) outName.
Proof. intros i j H. unfold outName in H. apply (inj _) in H. by apply (inj pretty). Qed.

End compare.

(** C39: The comparison of the MapReduce tests is right.  For an application whose
    reduce function does not depend on the order of the values, and at most ten
    reduce tasks, the merged and sorted output of any right distributed run, in
    which reruns and races may have given the values any order, is equal to the
    sorted output of sequential MapReduce, in whatever order the files are found. *)
Theorem mr_test_passes mapf reducef inputs nReduce d0 d kos l fs all correct :
  (forall k vs vs', vs ≡ₚ vs' -> reducef k vs = reducef k vs') -> (0 < nReduce <= 10)%nat ->
  sortedCopy (mapPhase mapf inputs) l -> all <> correct -> isOut correct = false ->
  right_run mapf reducef inputs nReduce d kos -> d !! correct = mkCorrectOutput d0 (reducePhase reducef l) correct !! correct -> found d fs ->
  exists d', mergeOutput d fs all = Some d' /\ runCmp d' all correct = true.
Proof.
  intros Hperm Hn Hs Hne Hc Hrun Hcor [Hnd Hfs].
  assert (Hfiles : fs ≡ₚ outName <$> seq 0 nReduce).
  { apply NoDup_Permutation; [done|apply (NoDup_fmap_2 _); apply NoDup_seq|]. intros f. rewrite Hfs, list_elem_of_fmap. split.
    - intros [Hf Hin]. destruct (r_only _ _ _ _ _ _ Hrun f Hf Hin) as (i & Hi & ->). exists i. split; [done|]. apply elem_of_seq. lia.
    - intros (i & -> & Hi%elem_of_seq). rewrite (r_file _ _ _ _ _ _ Hrun) by lia. split; [apply isOut_outName; lia|by eexists]. }
  set (g := fun f => default [] (d !! f)).
  assert (Hg : mapM (fun f => d !! f) fs = Some (g <$> fs)).
  { apply mapM_Some, Forall2_fmap_r, Forall_Forall2_diag, Forall_forall. intros f [_ [ls Hls]]%Hfs. simpl. unfold g. rewrite Hls.
    done. }
  assert (Hlines : concat (g <$> fs) ≡ₚ outLine <$> reducePhase reducef l).
  { rewrite <- (run_lines mapf reducef inputs nReduce Hperm d kos l Hrun Hs) by lia. rewrite Hfiles.
    assert (Hj : forall js, (forall i, i ∈ js -> (i < nReduce)%nat) -> concat (g <$> (outName <$> js)) = outLine <$> (js ≫= kos)).
    { induction js as [|i js IH]; intros Hlt; [done|]. rewrite !fmap_cons, bind_cons, fmap_app. simpl. f_equal.
      - unfold g. by rewrite (r_file _ _ _ _ _ _ Hrun) by (apply Hlt; by left).
      - apply IH. intros j Hj. apply Hlt. by right. }
    rewrite Hj; [done|]. intros i Hi%elem_of_seq. lia. }
  assert (Hfs0 : fs <> []).
  { intros ->. apply Permutation_nil_l in Hfiles. destruct nReduce; [lia|done]. }
  unfold mergeOutput. rewrite decide_False by done. rewrite Hg. simpl. eexists. split; [done|].
  unfold runCmp. rewrite lookup_insert_eq, lookup_insert_ne, Hcor by done. unfold mkCorrectOutput.
  rewrite lookup_delete_ne, lookup_insert_eq by (by intros <-). apply bool_decide_eq_true_2. by apply sortStrings_perm.
Qed.

(** ** Word count with two reduce tasks *)

Module MrTestDemo.

Definition seqOut : list (string * string) := reducePhase Wc.Reduce sorted_words.
Definition share : nat -> list (string * string) := shareOf Wc.Reduce 2 sorted_words.

Definition d : dir :=
  <["mr-out-1" := outLine <$> share 1]> (<["mr-out-0" := outLine <$> share 0]> (mkCorrectOutput ∅ seqOut "mr-wc-correct.txt")).

Lemma words_sorted : sortedCopy (mapPhase Wc.Map two_files) sorted_words.
Proof.
  split; [apply (bool_decide_unpack _); vm_compute; exact I|].
  apply Sorted_StronglySorted; [intros [] [] []; unfold ByKey; apply (transitivity (R := String.le))|].
  repeat (constructor; try (apply (bool_decide_unpack _); vm_compute; exact I)).
Qed.

Lemma d_right : right_run Wc.Map Wc.Reduce two_files 2 d share.
Proof.
  apply shares_right; [apply words_sorted|..].
  - intros i Hi. assert (i = 0 \/ i = 1)%nat as [->| ->] by lia; vm_compute; reflexivity.
  - intros f Hf Hin. apply elem_of_dom in Hin. assert (Hd : dom d = {["mr-out-0"; "mr-out-1"; "mr-wc-correct.txt"]}) by (vm_compute; reflexivity).
    rewrite Hd in Hin. assert (f = "mr-out-0" \/ f = "mr-out-1" \/ f = "mr-wc-correct.txt") as [->|[->| ->]] by set_solver.
    + exists 0%nat. split; [lia|reflexivity].
    + exists 1%nat. split; [lia|reflexivity].
    + done.
Qed.

Lemma mr_test_passes_witness : exists d', mergeOutput d ["mr-out-1"; "mr-out-0"] "mr-wc-all.txt" = Some d' /\
  runCmp d' "mr-wc-all.txt" "mr-wc-correct.txt" = true.
Proof.
  apply (mr_test_passes Wc.Map Wc.Reduce two_files 2 ∅ d share sorted_words).
  - intros k vs vs' H. unfold Wc.Reduce. by rewrite (Permutation_length H).
  - lia.
  - apply words_sorted.
  - done.
  - vm_compute. reflexivity.
  - apply d_right.
  - vm_compute. reflexivity.
  - split; [apply (bool_decide_unpack _); vm_compute; exact I|]. intros f. split.
    + intros [->|[->|[]%elem_of_nil]%elem_of_cons]%elem_of_cons; (split; [vm_compute; reflexivity|]); eexists; vm_compute; reflexivity.
    + intros [Hf Hin]. destruct (r_only _ _ _ _ _ _ d_right f Hf Hin) as (i & Hi & ->).
      assert (i = 0 \/ i = 1)%nat as [->| ->] by lia; [by right; left|by left].
Defined.

(** The eleventh file of a run with more reduce tasks would not be merged. *)
Example eleventh_not_merged : isOut (outName 9) = true /\ isOut (outName 10) = false.
Proof. vm_compute. done. Qed.

Lemma crash_reruns_witness : Nocrash.Reduce "a" ["y"; "x"] = "x y".
Proof.
  destruct (crash_reruns 500 "f" "text" (Nocrash.Map "f" "text") 999 "a" ["x"; "y"] ["y"; "x"] "x y") as [_ H].
  - reflexivity.
  - vm_compute. reflexivity.
  - apply perm_swap.
  - symmetry. exact H.
Defined.

Lemma jobcount_counts_witness : Jobcount.Reduce (runMaps (fun _ => 0%nat) ∅ [7; 8; 7]) "a" [] = "3".
Proof.
  rewrite (jobcount_counts [7; 8; 7] ∅); [reflexivity|..].
  - intros p. rewrite !elem_of_cons, elem_of_nil. lia.
  - intros f Hf. by apply elem_of_empty in Hf.
Defined.

Lemma nparallel_counts_witness : countAlive (fun p => bool_decide (p <> 8)) "map" ["mr-in"; "mr-worker-map-8"; "mr-worker-map-7"] = 1.
Proof.
  rewrite (nparallel_counts _ "map" [7; 8] ["mr-in"]); [vm_compute; reflexivity|..].
  - intros p. rewrite !elem_of_cons, elem_of_nil. lia.
  - intros f [->|[]%elem_of_nil]%elem_of_cons. reflexivity.
  - apply (bool_decide_unpack _). vm_compute. exact I.
Defined.

End MrTestDemo.
