(* ===== verification/Process.v ===== *)
(** * The processes in which the tests run their servers

    [tester1/daemonclnt.go], [tester1/daemonsrv.go], and their part of
    [tester1/srv.go] and [tester1/group.go]: the command line by which the tester
    tells a server process who it is; the calls [Init] and [InitWait] that hand it
    its persistent state; and [CheckpointPersister], which takes that state back
    before the process is killed.

    One server is followed through any number of processes.  A section between two
    communications is a step; the server that runs in the process may save and
    send whenever it likes.  [line] is the sequence of persistent states on which
    the server's present one builds: a state saved after the checkpoint is cut off
    it when the process is killed.  The theorem is that nobody has been told
    anything about a state that is cut off. *)

From stdpp Require Import pretty.
From Stdlib Require Import Ascii.
From S2P Require Import Prelude PersisterWal Labrpc Config Groups.

(** ** The command line *)

Definition options (UseRaftStateMachine : bool) : list string :=
  if UseRaftStateMachine then ["--raft-state-machine"] else [].

(** The arguments that [runDaemon] starts the process with. *)
Definition runDaemon_args (pargs : list string) (rsm : bool) (endName : string) (gid : Z) (srv : nat)
    (endNames : list string) : list string :=
  pargs ++ options rsm ++ [pretty gid; pretty (Z.of_nat srv); pretty (zlen endNames); endName] ++ endNames.

(** The loop that skips the arguments before the group: the index of the first one
    without a dash.  The first byte of an empty argument is out of range. *)
Fixpoint skip (i s : nat) (argv : list string) : option nat :=
  match argv with
  | [] => Some s
  | EmptyString :: _ => None
  | String c _ :: argv => if decide (c = "-"%char) then skip (S i) (S i) argv else Some s
  end.

Record identity := mkId { id_gid : Z; id_sid : Z; id_tester : string; id_ends : list string; id_me : string }.

(** What [InitDaemon] reads; [args] is [os.Args[1:]], see the programs under main.
    [Some None] is an error, [None] a panic. *)
Definition InitDaemon_args (args : list string) : option (option identity) :=
  s ← skip 0 0 args;
  let s := Z.of_nat s in
  a0 ← args @[s];
  match Atoi a0 with None => Some None | Some gid =>
  a1 ← args @[s + 1];
  match Atoi a1 with None => Some None | Some sid =>
  a2 ← args @[s + 2];
  match Atoi a2 with None => Some None | Some nsrv =>
  testerEndName ← args @[s + 3];
  endNames ← gslice args (s + 4) (s + 4 + nsrv);
  me ← endNames @[sid];
  Some (Some (mkId gid sid testerEndName endNames me))
  end end end.

Definition dashed (a : string) : Prop := exists s, a = String "-" s.

Lemma skip_dashed i s l a c rest : Forall dashed l -> a = String c rest -> c <> "-"%char ->
  forall more, skip i s (l ++ a :: more) = Some (if decide (l = []) then s else i + length l)%nat.
Proof.
  intros Hl -> Hc more. revert i s. induction Hl as [|x l [r ->] Hl IH]; intros i s; simpl.
  - by rewrite decide_False.
  - rewrite IH. f_equal. destruct l; simpl; lia.
Qed.

(** The process reads back who it is: its group and number, the end of the tester and
    the ends of the servers of its group, whatever options it was started with, if
    they are written with a dash.  (The names of ends may begin with a dash; only
    what comes before the group is skipped.) *)
Theorem command_line_roundtrip pargs rsm endName gid srv endNames me :
  Forall dashed pargs -> 0 <= gid < 2 ^ 63 -> zlen endNames < 2 ^ 63 -> endNames !! srv = Some me ->
  InitDaemon_args (runDaemon_args pargs rsm endName gid srv endNames) =
    Some (Some (mkId gid (Z.of_nat srv) endName endNames me)).
Proof.
  intros Hp Hg Hlen Hme. apply lookup_lt_Some in Hme as Hsrv.
  set (l := pargs ++ options rsm).
  assert (Hd : Forall dashed l) by (apply Forall_app; split; [done|]; destruct rsm; repeat constructor; by eexists).
  unfold runDaemon_args. rewrite app_assoc. fold l.
  destruct (pretty_digits gid) as (c & s & Hc & Hdash & _); [lia|].
  set (rest := [pretty (Z.of_nat srv); pretty (zlen endNames); endName] ++ endNames).
  change (l ++ _) with (l ++ pretty gid :: rest). unfold InitDaemon_args.
  rewrite (skip_dashed _ _ _ _ _ _ Hd Hc Hdash). cbn [mbind option_bind].
  replace (if decide (l = []) then 0 else 0 + length l)%nat with (length l) by (destruct l; done).
  assert (Hi : forall k, (l ++ pretty gid :: rest) @[Z.of_nat (length l) + Z.of_nat k] = (pretty gid :: rest) !! k).
  { intros k. rewrite <- Nat2Z.inj_add, gidx_nat. rewrite lookup_app_r by lia. f_equal. lia. }
  pose proof (Hi 0%nat) as H0. rewrite Z.add_0_r in H0.
  pose proof (Hi 1%nat) as H1. pose proof (Hi 2%nat) as H2. pose proof (Hi 3%nat) as H3. clear Hi.
  change (Z.of_nat 1) with 1 in H1. change (Z.of_nat 2) with 2 in H2. change (Z.of_nat 3) with 3 in H3.
  rewrite H0, H1, H2, H3. cbn.
  rewrite !Atoi_Itoa by (unfold zlen in *; lia).
  unfold zlen in Hlen. rewrite gslice_Some by (unfold zlen; rewrite ?length_app; simpl; lia).
  replace (Z.to_nat (Z.of_nat (length l) + 4 + zlen endNames - (Z.of_nat (length l) + 4))) with (length endNames) by (unfold zlen; lia).
  replace (Z.to_nat (Z.of_nat (length l) + 4)) with (length l + 4)%nat by lia.
  rewrite <- drop_drop, drop_app_length. subst rest. cbn [drop app].
  rewrite drop_0, firstn_all. cbn [mbind option_bind]. rewrite gidx_nat, Hme. done.
Qed.

(** ** The process *)

Abbreviation Persister := Tester.Persister.

(** Where [InitDaemon] is, once its network, its connection to the tester and its
    control socket exist. *)
Inductive mphase :=
| MRecv     (* ds.persister = <-ds.ch *)
| MMake     (* NewRPCSrv; mks makes the server; AddService *)
| MSignal   (* ds.ch <- nil *)
| MServe    (* <-ds.ch *)
| MReturn.

(** The handler of the tester's control call. *)
Inductive hphase :=
| HInit (p : Persister)     (* ds.ch <- p *)
| HInitDone
| HWait                     (* InitWait: <-ds.ch *)
| HWaitDone
| HCloseClnt                (* CheckpointPersister: ds.rpcc.Close() *)
| HCloseSrv                 (* ds.rpcs.Close() *)
| HCopy
| HCopied (p : Persister).

(** The goroutine that listens for the tester's calls to the server. *)
Inductive lphase := LStarting | LListening | LClosed.

Record DaemonSrv := mkDS {
  ds_main : mphase;
  ds_handler : option hphase;
  ds_persister : option Persister;
  ds_rpcc : bool;
  ds_rpcs : lphase;
  ds_conn : bool
}.

Definition startDaemon : DaemonSrv := mkDS MRecv None None true LStarting false.

Definition set_handler (d : DaemonSrv) (h : option hphase) : DaemonSrv :=
  mkDS (ds_main d) h (ds_persister d) (ds_rpcc d) (ds_rpcs d) (ds_conn d).

(** The bodies of the control calls, up to where they first block. *)
Definition Init (Raftstate Snapshot : list byte) : hphase := HInit (Tester.MakePersister Raftstate Snapshot).
Definition InitWait : hphase := HWait.
Definition CheckpointPersister : hphase := HCloseClnt.

(** A handler and [InitDaemon] meet on the unbuffered channel: [Init] sends the
    state, [InitWait] receives the signal; a state that arrives while [InitDaemon]
    waits for its end makes it return. *)
Definition ch_meet (d : DaemonSrv) : option DaemonSrv :=
  match ds_main d, ds_handler d with
  | MRecv, Some (HInit p) => Some (mkDS MMake (Some HInitDone) (Some p) (ds_rpcc d) (ds_rpcs d) (ds_conn d))
  | MServe, Some (HInit p) => Some (mkDS MReturn (Some HInitDone) (ds_persister d) (ds_rpcc d) (ds_rpcs d) (ds_conn d))
  | MSignal, Some HWait => Some (mkDS MServe (Some HWaitDone) (ds_persister d) (ds_rpcc d) (ds_rpcs d) (ds_conn d))
  | _, _ => None
  end.

(** [NewRPCSrv] has started [listen]; [mks] and [AddService] are done. *)
Definition listen (d : DaemonSrv) : option DaemonSrv :=
  match ds_main d, ds_rpcs d with
  | MRecv, _ => None
  | _, LStarting => Some (mkDS (ds_main d) (ds_handler d) (ds_persister d) (ds_rpcc d) LListening (ds_conn d))
  | _, _ => None
  end.

Definition made (d : DaemonSrv) : option DaemonSrv :=
  match ds_main d with
  | MMake => Some (mkDS MSignal (ds_handler d) (ds_persister d) (ds_rpcc d) (ds_rpcs d) (ds_conn d))
  | _ => None
  end.

(** The tester connects to the server's socket. *)
Definition accept (d : DaemonSrv) : option DaemonSrv :=
  match ds_rpcs d with
  | LListening => Some (mkDS (ds_main d) (ds_handler d) (ds_persister d) (ds_rpcc d) (ds_rpcs d) true)
  | _ => None
  end.

(** [ds.rpcc.Close()] shuts the connection to the tester. *)
Definition close_clnt (d : DaemonSrv) : DaemonSrv :=
  mkDS (ds_main d) (Some HCloseSrv) (ds_persister d) false (ds_rpcs d) (ds_conn d).

(** [ds.rpcs.Close()] closes the listener, a nil pointer before [listen] has set
    it; connections that were accepted stay. *)
Definition close_srv (d : DaemonSrv) : option DaemonSrv :=
  match ds_rpcs d with
  | LStarting => None
  | _ => Some (mkDS (ds_main d) (Some HCopy) (ds_persister d) (ds_rpcc d) LClosed (ds_conn d))
  end.

Definition copy (d : DaemonSrv) : option DaemonSrv :=
  p ← ds_persister d; Some (set_handler d (Some (HCopied (Tester.Checkpoint p)))).

(** [Save] of the server that [mks] made, on the persister it was given. *)
Definition save (d : DaemonSrv) (p : Persister) : option DaemonSrv :=
  _ ← ds_persister d; Some (mkDS (ds_main d) (ds_handler d) (Some p) (ds_rpcc d) (ds_rpcs d) (ds_conn d)).

(** [StateSize] *)
Definition StateSize (d : DaemonSrv) : option (Z * Z) :=
  p ← ds_persister d; Some (zlen (Tester.raftstate p), Tester.SnapshotSize p).

(** ** The process and its tester *)

Section life.
Context (sn : string).

(** Where [StartServer] or [ShutdownServer] of the tester is. *)
Inductive tphase :=
| TDown
| TInit          (* dc.init: the call *)
| TDial          (* dc.init: the connection to the server *)
| TWait          (* dc.waitInit *)
| TUp
| TDeleted       (* disconnected, and deleted from the network *)
| TCheckpoint.   (* dc.checkpointPersister *)

(** A request or a reply of the server behind the handle [m_srv], with the state it
    was sent in and the place of that state in [line]. *)
Record sent := mkSent { m_srv : nat; m_version : nat; m_state : Persister }.

Record world := mkW {
  w_tester : tphase;
  w_saved : Persister;
  w_proc : option DaemonSrv;
  w_srv : nat;
  w_net : Network;
  w_replies : list sent;
  w_seen : list sent;
  w_line : list Persister;
  w_mark : nat
}.

Definition set_proc (w : world) (t : tphase) (d : DaemonSrv) : world :=
  mkW t (w_saved w) (Some d) (w_srv w) (w_net w) (w_replies w) (w_seen w) (w_line w) (w_mark w).

Definition set_net (w : world) (t : tphase) (n : Network) (d : DaemonSrv) : world :=
  mkW t (w_saved w) (Some d) (w_srv w) n (w_replies w) (w_seen w) (w_line w) (w_mark w).

(** What the server sends now. *)
Definition now (w : world) (p : Persister) : sent := mkSent (w_srv w) (length (w_line w) - 1) p.

(** [runDaemon], and the call of [dc.init]. *)
Definition runDaemon (w : world) : world :=
  mkW TInit (w_saved w) (Some (set_handler startDaemon (Some (Init (Tester.raftstate (w_saved w)) (Tester.snapshot (w_saved w))))))
    (S (w_srv w)) (w_net w) (w_replies w) (w_seen w) (w_line w) (w_mark w).

(** The server writes a reply to the tester's connection, or sends a request of its
    own through [forward]. *)
Definition send_reply (w : world) (p : Persister) : world :=
  mkW (w_tester w) (w_saved w) (w_proc w) (w_srv w) (w_net w) (now w p :: w_replies w) (w_seen w) (w_line w) (w_mark w).

Definition forward (w : world) (d : DaemonSrv) (p : Persister) : world :=
  if ds_rpcc d
  then mkW (w_tester w) (w_saved w) (w_proc w) (w_srv w) (w_net w) (w_replies w) (now w p :: w_seen w) (w_line w) (w_mark w)
  else w.

(** [processReq] hands the reply over unless the server is dead. *)
Definition hand_over (w : world) (m : sent) (e : string) (r1 r2 : list sent) : world :=
  mkW (w_tester w) (w_saved w) (w_proc w) (w_srv w) (w_net w) (r1 ++ r2)
    (if isServerDead (w_net w) e sn (m_srv m) then w_seen w else m :: w_seen w) (w_line w) (w_mark w).

Definition saved_to (w : world) (d : DaemonSrv) (p : Persister) : world :=
  mkW (w_tester w) (w_saved w) (Some d) (w_srv w) (w_net w) (w_replies w) (w_seen w) (w_line w ++ [p]) (w_mark w).

Definition copied (w : world) (d : DaemonSrv) : world :=
  mkW (w_tester w) (w_saved w) (Some d) (w_srv w) (w_net w) (w_replies w) (w_seen w) (w_line w) (length (w_line w) - 1).

(** [checkpointPersister] returns: [s.saved = p] and [s.dc.kill()]. *)
Definition kill (w : world) (p : Persister) : world :=
  mkW TDown (Tester.MakePersister (Tester.raftstate p) (Tester.snapshot p)) None (w_srv w) (w_net w) (w_replies w) (w_seen w)
    (take (S (w_mark w)) (w_line w)) (w_mark w).

Inductive step : world -> world -> Prop :=
| P_start w : w_tester w = TDown -> step w (runDaemon w)
| P_inited w d : w_tester w = TInit -> w_proc w = Some d -> ds_handler d = Some HInitDone ->
    step w (set_proc w TDial (set_handler d None))
| P_dial w d d' : w_tester w = TDial -> w_proc w = Some d -> accept d = Some d' ->
    step w (set_proc w TWait (set_handler d' (Some InitWait)))
| P_up w d : w_tester w = TWait -> w_proc w = Some d -> ds_handler d = Some HWaitDone ->
    step w (set_net w TUp (AddServer sn (w_srv w) (w_net w)) (set_handler d None))
| P_delete w d : w_tester w = TUp -> w_proc w = Some d ->
    step w (set_net w TDeleted (DeleteServer sn (w_net w)) d)
| P_checkpoint w d : w_tester w = TDeleted -> w_proc w = Some d ->
    step w (set_proc w TCheckpoint (set_handler d (Some CheckpointPersister)))
| P_kill w d p : w_tester w = TCheckpoint -> w_proc w = Some d -> ds_handler d = Some (HCopied p) ->
    step w (kill w p)
| P_meet w d d' : w_proc w = Some d -> ch_meet d = Some d' -> step w (set_proc w (w_tester w) d')
| P_listen w d d' : w_proc w = Some d -> listen d = Some d' -> step w (set_proc w (w_tester w) d')
| P_made w d d' : w_proc w = Some d -> made d = Some d' -> step w (set_proc w (w_tester w) d')
| P_close_clnt w d : w_proc w = Some d -> ds_handler d = Some HCloseClnt ->
    step w (set_proc w (w_tester w) (close_clnt d))
| P_close_srv w d d' : w_proc w = Some d -> ds_handler d = Some HCloseSrv -> close_srv d = Some d' ->
    step w (set_proc w (w_tester w) d')
| P_copy w d d' : w_proc w = Some d -> ds_handler d = Some HCopy -> copy d = Some d' -> step w (copied w d')
| P_save w d d' p : w_proc w = Some d -> save d p = Some d' -> step w (saved_to w d' p)
| P_reply w d p : w_proc w = Some d -> ds_conn d = true -> ds_persister d = Some p -> step w (send_reply w p)
| P_forward w d p : w_proc w = Some d -> ds_persister d = Some p -> step w (forward w d p)
| P_hand_over w m e r1 r2 : w_replies w = r1 ++ m :: r2 -> step w (hand_over w m e r1 r2)
| P_net w n : serverAt n sn = serverAt (w_net w) sn ->
    step w (mkW (w_tester w) (w_saved w) (w_proc w) (w_srv w) n (w_replies w) (w_seen w) (w_line w) (w_mark w)).

(** A new server, on a network that has none of its name. *)
Definition init (n : Network) : world := mkW TDown Tester.empty None 0 n [] [] [Tester.empty] 0.

Definition reach (w : world) : Prop := exists n, serverAt n sn = None /\ rtc step (init n) w.

(** The state that the server runs with, or will be started with. *)
Definition current (w : world) : Persister := default (w_saved w) (w_proc w ≫= ds_persister).

(** *** The invariant *)

Definition handler_ok (w : world) (d : DaemonSrv) : Prop :=
  match w_tester w, ds_main d, ds_handler d with
  | TInit, MRecv, Some (HInit p) => p = w_saved w /\ ds_persister d = None /\ ds_rpcs d = LStarting
  | TInit, (MMake | MSignal), Some HInitDone => is_Some (ds_persister d) /\ ds_rpcs d <> LClosed
  | TDial, (MMake | MSignal), None => is_Some (ds_persister d) /\ ds_rpcs d <> LClosed
  | TWait, (MMake | MSignal), Some HWait => is_Some (ds_persister d) /\ ds_rpcs d = LListening
  | TWait, MServe, Some HWaitDone => is_Some (ds_persister d) /\ ds_rpcs d = LListening
  | (TUp | TDeleted), MServe, None => is_Some (ds_persister d) /\ ds_rpcs d = LListening
  | TCheckpoint, MServe, Some HCloseClnt => is_Some (ds_persister d) /\ ds_rpcs d = LListening
  | TCheckpoint, MServe, Some HCloseSrv => is_Some (ds_persister d) /\ ds_rpcs d = LListening /\ ds_rpcc d = false
  | TCheckpoint, MServe, Some HCopy => is_Some (ds_persister d) /\ ds_rpcc d = false
  | TCheckpoint, MServe, Some (HCopied p) =>
      is_Some (ds_persister d) /\ ds_rpcc d = false /\ w_line w !! w_mark w = Some p /\ forall m, m ∈ w_seen w -> (m_version m <= w_mark w)%nat
  | _, _, _ => False
  end.

Definition proc_ok (w : world) : Prop :=
  match w_proc w with None => w_tester w = TDown | Some d => handler_ok w d end.

Record inv (w : world) : Prop := {
  v_proc : proc_ok w;
  v_line : last (w_line w) = Some (current w);
  v_seen m : m ∈ w_seen w -> w_line w !! m_version m = Some (m_state m);
  v_replies m : m ∈ w_replies w -> (m_srv m <= w_srv w)%nat /\
    (m_srv m = w_srv w -> is_Some (w_proc w) -> w_line w !! m_version m = Some (m_state m));
  v_net : serverAt (w_net w) sn = if w_tester w is TUp then Some (w_srv w) else None
}.

Lemma process_init_inv n : serverAt n sn = None -> inv (init n).
Proof. intros Hn. split; try done; simpl; intros m Hm; by apply elem_of_nil in Hm. Qed.

(** A step of the process alone. *)
Lemma inv_set_proc w t d d' : inv w -> w_proc w = Some d ->
  default (w_saved w) (ds_persister d') = default (w_saved w) (ds_persister d) ->
  handler_ok (set_proc w t d') d' -> (t = TUp <-> w_tester w = TUp) -> inv (set_proc w t d').
Proof.
  intros [Hp Hl Hs Hr Hn] Hd He Hh Ht. split; try done.
  - simpl. rewrite Hl. unfold current. by rewrite Hd; simpl; rewrite He.
  - intros m Hm. simpl in *. destruct (Hr m Hm) as [? Hm']. split; [done|]. intros. by apply Hm'; [|rewrite Hd].
  - simpl. rewrite Hn. destruct t, (w_tester w); naive_solver.
Qed.

(** Case on where the tester, [InitDaemon] and the handler are. *)
Ltac phases d := unfold handler_ok in *; simpl in *;
  destruct (w_tester _) eqn:?; try done; destruct (ds_main d) eqn:?; try done; destruct (ds_handler d) as [[]|] eqn:?; try done;
  simplify_eq/=; des; try done.

Lemma handler_inv w d : inv w -> w_proc w = Some d -> handler_ok w d.
Proof. intros I Hd. pose proof (v_proc _ I) as H. unfold proc_ok in H. by rewrite Hd in H. Qed.

Lemma meet_inv w d d' : inv w -> w_proc w = Some d -> ch_meet d = Some d' -> inv (set_proc w (w_tester w) d').
Proof.
  intros I Hd Hm. pose proof (handler_inv w d I Hd) as Hh. apply (inv_set_proc w _ d); [done..|idtac|idtac|done].
  all: unfold ch_meet in Hm; phases d. all: repeat split; simpl; rewrite ?Heqm, ?Heqt; try done; eauto.
  all: try congruence. all: try (destruct (ds_persister d); naive_solver).
Qed.

Lemma local_inv w d d' : inv w -> w_proc w = Some d ->
  listen d = Some d' \/ made d = Some d' \/ (ds_handler d = Some HCloseClnt /\ d' = close_clnt d) \/
    (ds_handler d = Some HCloseSrv /\ close_srv d = Some d') ->
  inv (set_proc w (w_tester w) d').
Proof.
  intros I Hd Hs. pose proof (handler_inv w d I Hd) as Hh. unfold listen, made, close_srv in Hs. apply (inv_set_proc w _ d); [done..|idtac|idtac|done].
  all: phases d; destruct Hs as [Hs|[Hs|[[? Hs]|[? Hs]]]]; simplify_eq/=; try done.
  all: destruct (ds_rpcs d) eqn:?; simplify_eq/=; rewrite ?Heqm, ?Heqh, ?Heqo; try done; naive_solver.
Qed.

(** A step of the tester that leaves the network alone. *)
Lemma tester_inv w t d h : inv w -> w_proc w = Some d ->
  (w_tester w = TInit /\ ds_handler d = Some HInitDone /\ t = TDial /\ h = set_handler d None) \/
  (w_tester w = TDial /\ t = TWait /\ exists d', accept d = Some d' /\ h = set_handler d' (Some InitWait)) \/
  (w_tester w = TDeleted /\ t = TCheckpoint /\ h = set_handler d (Some CheckpointPersister)) ->
  inv (set_proc w t h).
Proof.
  intros I Hd Hs. pose proof (handler_inv w d I Hd) as Hh. unfold accept in Hs.
  destruct Hs as [(Ht & Hi & -> & ->)|[(Ht & -> & d' & Ha & ->)|(Ht & -> & ->)]]; apply (inv_set_proc w _ d); try done.
  all: unfold handler_ok in *; simpl; rewrite ?Ht in *; try done.
  - destruct (ds_main d); rewrite ?Hi in Hh; done.
  - by destruct (ds_rpcs d); simplify_eq/=.
  - destruct (ds_rpcs d) eqn:?; simplify_eq/=. destruct (ds_main d), (ds_handler d) as [[]|]; naive_solver.
  - destruct (ds_main d), (ds_handler d) as [[]|]; naive_solver.
Qed.

(** A step that the network sees. *)
Lemma net_inv w t n d h : inv w -> w_proc w = Some d ->
  ds_persister h = ds_persister d -> handler_ok (set_net w t n h) h ->
  serverAt n sn = (if t is TUp then Some (w_srv w) else None) -> inv (set_net w t n h).
Proof.
  intros [Hp Hl Hs Hr Hn] Hd He Hh Hsn. split; try done.
  - simpl. rewrite Hl. unfold current. by rewrite Hd; simpl; rewrite He.
  - intros m Hm. simpl in *. destruct (Hr m Hm) as [? Hm']. split; [done|]. intros. by apply Hm'; [|rewrite Hd].
Qed.

Lemma last_now w : inv w -> w_line w !! (length (w_line w) - 1)%nat = Some (current w).
Proof. intros I. apply last_lookup_length, I. Qed.

Lemma current_proc w d p : w_proc w = Some d -> ds_persister d = Some p -> current w = p.
Proof. intros Hd Hp. unfold current. rewrite Hd. simpl. by rewrite Hp. Qed.

Lemma reply_inv w d p : inv w -> w_proc w = Some d -> ds_persister d = Some p -> inv (send_reply w p).
Proof.
  intros I Hd Hp. pose proof (last_now w I) as Hnow. rewrite (current_proc w d p Hd Hp) in Hnow.
  destruct I as [Hpr Hl Hs Hr Hn]. split; try done. simpl. intros m [->|Hm]%elem_of_cons; [|by apply Hr]. simpl. split; [lia|done].
Qed.

Lemma forward_inv w d p : inv w -> w_proc w = Some d -> ds_persister d = Some p -> inv (forward w d p).
Proof.
  intros I Hd Hp. pose proof (last_now w I) as Hnow. rewrite (current_proc w d p Hd Hp) in Hnow.
  unfold forward. destruct (ds_rpcc d) eqn:Hc; [|done].
  pose proof (handler_inv w d I Hd) as Hh. destruct I as [Hpr Hl Hs Hr Hn]. split; try done.
  - unfold proc_ok. simpl. rewrite Hd. unfold handler_ok in *. simpl.
    destruct (w_tester w), (ds_main d), (ds_handler d) as [[]|]; try done. des. congruence.
  - simpl. intros m [->|Hm]%elem_of_cons; [done|by apply Hs].
Qed.

Lemma hand_over_inv w m e r1 r2 : inv w -> w_replies w = r1 ++ m :: r2 -> inv (hand_over w m e r1 r2).
Proof.
  intros I Hr12. pose proof I as [Hp Hl Hs Hr Hn].
  assert (Hsub : forall x, x ∈ r1 ++ r2 -> x ∈ w_replies w) by (rewrite Hr12; set_solver).
  assert (Hlive : isServerDead (w_net w) e sn (m_srv m) = false -> w_tester w = TUp /\ w_line w !! m_version m = Some (m_state m)).
  { unfold isServerDead. intros [_ H]%orb_false_iff. apply bool_decide_eq_false, dec_stable in H. rewrite Hn in H.
    destruct (w_tester w) eqn:Ht; simplify_eq. split; [done|]. apply Hr; [rewrite Hr12; set_solver|done|].
    unfold proc_ok in Hp. destruct (w_proc w); [done|congruence]. }
  split; try done; simpl.
  - unfold proc_ok, hand_over, handler_ok in *. simpl. destruct (w_proc w) as [d|]; [|done]. destruct (isServerDead _ _ _ _); [done|].
    destruct (Hlive eq_refl) as [Ht _]. by rewrite Ht in *.
  - intros x. destruct (isServerDead _ _ _ _); [apply Hs|]. intros [->|Hx]%elem_of_cons; [by apply Hlive|by apply Hs].
  - intros x Hx. by apply Hr, Hsub.
Qed.

Lemma save_inv w d d' p : inv w -> w_proc w = Some d -> save d p = Some d' -> inv (saved_to w d' p).
Proof.
  intros I Hd Hsv. unfold save in Hsv. destruct (ds_persister d) as [p0|] eqn:Hp0; [|done]. simplify_eq/=.
  pose proof (handler_inv w d I Hd) as Hh. destruct I as [Hpr Hl Hs Hr Hn].
  assert (Hk : forall k q, w_line w !! k = Some q -> (w_line w ++ [p]) !! k = Some q) by (intros; by apply lookup_app_l_Some).
  split; simpl.
  - unfold proc_ok. simpl. unfold handler_ok in *. simpl.
    destruct (w_tester w), (ds_main d), (ds_handler d) as [[]|]; try done; des; split_and!; try done; try congruence; eauto.
  - by rewrite last_snoc.
  - intros m Hm. by apply Hk, Hs.
  - intros m Hm. destruct (Hr m Hm) as [? Hm']. split; [done|]. intros. apply Hk, Hm'; [done|]. by rewrite Hd.
  - done.
Qed.

Lemma copy_inv w d d' : inv w -> w_proc w = Some d -> ds_handler d = Some HCopy -> copy d = Some d' -> inv (copied w d').
Proof.
  intros I Hd Hh Hc. pose proof (handler_inv w d I Hd) as Ho. pose proof (last_now w I) as Hnow. unfold copy in Hc.
  destruct (ds_persister d) as [p|] eqn:Hp; [|done]. simplify_eq/=. rewrite (current_proc w d p Hd Hp) in Hnow.
  pose proof I as [_ Hl Hs Hr Hn]. split; simpl; try done.
  - unfold proc_ok. simpl. unfold handler_ok in *. simpl. rewrite Hh in Ho. destruct (w_tester w), (ds_main d); try done.
    destruct Ho as [_ Ho]. rewrite Hp. split_and!; [by eexists|done|by destruct p|].
    intros m Hm. apply Hs, lookup_lt_Some in Hm. lia.
  - rewrite Hl. unfold current. rewrite Hd. simpl. by rewrite Hp.
  - intros m Hm. destruct (Hr m Hm) as [? Hm']. split; [done|]. intros. apply Hm'; [done|]. by rewrite Hd.
Qed.

Lemma kill_inv w d p : inv w -> w_tester w = TCheckpoint -> w_proc w = Some d -> ds_handler d = Some (HCopied p) -> inv (kill w p).
Proof.
  intros I Ht Hd Hh. pose proof (handler_inv w d I Hd) as Ho. unfold handler_ok in Ho. rewrite Ht, Hh in Ho.
  destruct (ds_main d); try done. destruct Ho as (_ & _ & Hm & Hle). pose proof I as [_ Hl Hs Hr Hn]. split; simpl; try done.
  - rewrite (take_S_r _ _ _ Hm), last_snoc. by destruct p.
  - intros m Hin. rewrite lookup_take_lt; [by apply Hs|]. specialize (Hle m Hin). lia.
  - intros m Hin. split; [by apply Hr|]. intros _ [? [=]].
  - by rewrite Hn, Ht.
Qed.

Lemma run_inv w : inv w -> w_tester w = TDown -> inv (runDaemon w).
Proof.
  intros [Hp Hl Hs Hr Hn] Ht. unfold proc_ok in Hp.
  assert (Hnone : w_proc w = None).
  { destruct (w_proc w) as [d|] eqn:Hd; [|done]. unfold handler_ok in Hp. by rewrite Ht in Hp. }
  split; simpl; try done.
  - unfold proc_ok. simpl. unfold handler_ok. simpl. split_and!; [by destruct (w_saved w)|done..].
  - rewrite Hl. unfold current. by rewrite Hnone.
  - intros m Hm. destruct (Hr m Hm). split; [lia|]. intros. lia.
  - by rewrite Hn, Ht.
Qed.

Lemma step_inv w w' : inv w -> step w w' -> inv w'.
Proof.
  intros I Hst. destruct Hst.
  - by apply run_inv.
  - eapply tester_inv; [done..|]. naive_solver.
  - eapply tester_inv; [done..|]. right; left. eauto.
  - eapply net_inv; [done..| |].
    + pose proof (handler_inv _ _ I H0) as Hh. unfold handler_ok in *. simpl. rewrite H, H1 in Hh. destruct (ds_main d); done.
    + unfold serverAt. simpl. by rewrite lookup_insert_eq.
  - eapply net_inv; [done..| |].
    + pose proof (handler_inv _ _ I H0) as Hh. unfold handler_ok in *. simpl. by rewrite H in Hh.
    + unfold serverAt. simpl. by rewrite lookup_insert_eq.
  - eapply tester_inv; [done..|]. naive_solver.
  - by eapply kill_inv.
  - by eapply meet_inv.
  - eapply local_inv; eauto.
  - eapply local_inv; eauto.
  - eapply local_inv; eauto 6.
  - eapply local_inv; eauto 6.
  - by eapply copy_inv.
  - by eapply save_inv.
  - by eapply reply_inv.
  - by eapply forward_inv.
  - by apply hand_over_inv.
  - destruct I as [Hp Hl Hs Hr Hn]. split; try done. simpl. by rewrite H, Hn.
Qed.

Lemma process_reach_inv w : reach w -> inv w.
Proof.
  intros (n & Hn & Hs). apply process_init_inv in Hn. remember (init n) as w0. clear Heqw0. induction Hs; [done|]. eauto using step_inv.
Qed.

Lemma seen_grows w w' m : rtc step w w' -> m ∈ w_seen w -> m ∈ w_seen w'.
Proof.
  intros Hs Hm. induction Hs as [|w w1 w2 Hst _ IH]; [done|]. apply IH. destruct Hst; simpl; try done.
  - unfold forward. destruct (ds_rpcc d); [by right|done].
  - destruct (isServerDead _ _ _ _); [done|by right].
Qed.

Lemma reach_step w w' : reach w -> rtc step w w' -> reach w'.
Proof. intros (n & Hn & Hs) H. exists n. split; [done|by etrans]. Qed.

(** C16: A server loses nothing that anyone has seen.  A server is stopped and
    started again any number of times, and its process may go on saving and sending
    after the tester has asked for its state.  A request or reply that ever
    reached another server or a client was sent in a state that the server's
    present state still builds on: what it saved after the copy, and loses with the
    process, nobody was told of.  The present state is the last of the states it
    builds on, also while it is handed from one process to the next. *)
Theorem shutdown_loses_nothing_seen w w' m : reach w -> m ∈ w_seen w -> rtc step w w' ->
  m ∈ w_seen w' /\ w_line w' !! m_version m = Some (m_state m) /\ last (w_line w') = Some (current w').
Proof.
  intros Hr Hm Hs. pose proof (process_reach_inv _ (reach_step _ _ Hr Hs)) as I. pose proof (seen_grows _ _ _ Hs Hm) as Hm'.
  split_and!; [done|by apply (v_seen _ I)|apply I].
Qed.

(** *** Starting and is_stopping *)

(** [StartServer] or [ShutdownServer] is under way. *)
Definition is_starting (w : world) : Prop := match w_tester w with TInit | TDial | TWait => True | _ => False end.
Definition is_stopping (w : world) : Prop := match w_tester w with TDeleted | TCheckpoint => True | _ => False end.

(** How many steps of the tester and of the process it has before it. *)
Definition main_rank (m : mphase) : nat := match m with MRecv => 3 | MMake => 2 | MSignal => 1 | _ => 0 end.
Definition listen_rank (l : lphase) : nat := match l with LStarting => 1 | _ => 0 end.
Definition close_rank (h : option hphase) : nat :=
  match h with Some HCloseClnt => 4 | Some HCloseSrv => 3 | Some HCopy => 2 | Some (HCopied _) => 1 | _ => 0 end.

Definition rank (w : world) : nat :=
  match w_proc w with
  | None => 0
  | Some d =>
      match w_tester w with
      | TInit => 3 + main_rank (ds_main d) + listen_rank (ds_rpcs d)
      | TDial => 2 + main_rank (ds_main d) + listen_rank (ds_rpcs d)
      | TWait => 1 + main_rank (ds_main d) + listen_rank (ds_rpcs d)
      | TDeleted => 5
      | TCheckpoint => close_rank (ds_handler d)
      | TDown | TUp => 0
      end
  end%nat.

(** Evaluate the ranks before and after a step. *)
Ltac nearer := unfold rank, main_rank, listen_rank, close_rank; simpl;
  repeat match goal with H : ?x = _ |- context [?x] => rewrite H; simpl end;
  repeat match goal with |- context [match ?x with _ => _ end] => destruct x end; lia.

(** Neither side blocks for ever on the channel, a socket or a nil pointer. *)
Lemma advance w : inv w -> is_starting w \/ is_stopping w -> exists w', step w w' /\ (rank w' < rank w)%nat.
Proof.
  intros I Ht. pose proof (v_proc _ I) as Hp. unfold proc_ok in Hp. destruct (w_proc w) as [d|] eqn:Hd.
  2:{ unfold is_starting, is_stopping in Ht. rewrite Hp in Ht. tauto. }
  unfold handler_ok in Hp. unfold is_starting, is_stopping in Ht. destruct (w_tester w) eqn:Hw; try (by destruct Ht); destruct (ds_main d) eqn:Hm; try done;
    destruct (ds_handler d) as [[]|] eqn:Hh; try done; destruct Hp as [Hp0 Hp]; clear Ht.
  1: eexists; split; [eapply P_meet; [done|]; unfold ch_meet; by rewrite Hm, Hh|nearer].
  1, 2: eexists; split; [by eapply P_inited|nearer].
  1, 2: destruct (ds_rpcs d) eqn:Hrp; [|idtac|done].
  1, 3: eexists; split; [eapply P_listen; [done|]; unfold listen; by rewrite Hm, Hrp|nearer].
  1, 2: eexists; split; [eapply P_dial; [done..|]; unfold accept; by rewrite Hrp|nearer].
  - eexists. split; [eapply P_made; [done|]; unfold made; by rewrite Hm|nearer].
  - eexists. split; [eapply P_meet; [done|]; unfold ch_meet; by rewrite Hm, Hh|nearer].
  - eexists. split; [by eapply P_up|nearer].
  - eexists. split; [by eapply P_checkpoint|nearer].
  - eexists. split; [by eapply P_close_clnt|nearer].
  - destruct Hp as [Hrp _]. eexists. split; [eapply P_close_srv; [done..|]; unfold close_srv; by rewrite Hrp|nearer].
  - destruct Hp0 as [p Hp0]. eexists. split; [eapply P_copy; [done..|]; unfold copy; by rewrite Hp0|nearer].
  - eexists. split; [by eapply P_kill|nearer].
Qed.

(** No step leads away from the end: not of the server that runs, not of the
    network, and not of the other calls. *)
Lemma no_step_back w w' : inv w -> step w w' -> is_starting w \/ is_stopping w ->
  (rank w' <= rank w)%nat /\ (is_starting w -> is_starting w' \/ w_tester w' = TUp) /\
  (is_stopping w -> is_stopping w' \/ w_tester w' = TDown).
Proof.
  intros I Hs Hu. pose proof (v_proc _ I) as Hp. unfold proc_ok, is_starting, is_stopping in *.
  destruct Hs; try (match goal with H : w_proc _ = Some _ |- _ => rewrite H in Hp end); simpl in *;
    try match goal with H : w_tester _ = _ |- _ => rewrite H in Hu |- * end; try tauto.
  - split; [nearer|tauto].
  - unfold accept in *. destruct (ds_rpcs d) eqn:?; simplify_eq/=. split; [nearer|tauto].
  - split; [nearer|tauto].
  - split; [nearer|tauto].
  - split; [nearer|tauto].
  - unfold ch_meet in *. split; [|tauto]. destruct (ds_main d) eqn:?; try done; destruct (ds_handler d) as [[]|] eqn:?; try done; simplify_eq/=; 
      unfold handler_ok in Hp; rewrite Heqm, Heqo in Hp; destruct (w_tester w) eqn:?; try done; nearer.
  - unfold listen in *. split; [|tauto]. destruct (ds_main d) eqn:?, (ds_rpcs d) eqn:?; simplify_eq/=; destruct (w_tester w) eqn:?; nearer.
  - unfold made in *. split; [|tauto]. destruct (ds_main d) eqn:?; simplify_eq/=; destruct (w_tester w) eqn:?; nearer.
  - split; [|tauto]. destruct (w_tester w) eqn:?; nearer.
  - unfold close_srv in *. split; [|tauto]. destruct (ds_rpcs d) eqn:?; simplify_eq/=; destruct (w_tester w) eqn:?; nearer.
  - unfold copy in *. split; [|tauto]. destruct (ds_persister d); simplify_eq/=. destruct (w_tester w) eqn:?; nearer.
  - unfold save in *. split; [|tauto]. destruct (ds_persister d); simplify_eq/=. destruct (w_tester w) eqn:?; nearer.
  - split; [done|tauto].
  - unfold forward. destruct (ds_rpcc d); (split; [done|simpl; tauto]).
  - split; [done|tauto].
  - split; [done|tauto].
Qed.

(** The steps of the two procedures. *)
Definition handshake (w w' : world) : Prop := step w w' /\ (rank w' < rank w)%nat.

Lemma rank_bound w : inv w -> (rank w <= 7)%nat /\ (rank w = 0%nat <-> ~ (is_starting w \/ is_stopping w)).
Proof.
  intros I. pose proof (v_proc _ I) as Hp. unfold proc_ok, rank, is_starting, is_stopping in *.
  destruct (w_proc w) as [d|]; [|rewrite Hp; split; [lia|tauto]].
  unfold handler_ok in Hp. destruct (w_tester w); (split; [|split; try tauto; try lia]).
  all: try (destruct (ds_main d), (ds_rpcs d); simpl; lia).
  all: destruct (ds_main d), (ds_handler d) as [[]|]; simpl; try done; lia.
Qed.

Lemma handshake_bound n w u : nsteps handshake n w u -> (n + rank u <= rank w)%nat.
Proof. induction 1 as [|n w w1 u [_ Hlt] _ IH]; lia. Qed.

(** C17: Servers start and stop.  Take any moment at which a [StartServer] or a
    [ShutdownServer] is under way, whatever the process and its server have done.
    There is a step of the tester or of the process that brings it nearer to its
    end: the handshake over the one unbuffered channel never blocks for ever, and
    no pointer it uses is nil.  No other step, of the server, of the network or of
    calls that are handed over, leads away from the end, and a start that is under
    way becomes nothing but a server that is up, a shutdown nothing but one that is
    down.  At most seven steps bring it to its end, and it has ended when none is
    left.  When [StartServer] has returned, the server has its state, its services
    are registered, it can be called, and [InitDaemon] has not returned. *)
Theorem servers_start_and_stop w : reach w ->
  (is_starting w \/ is_stopping w -> exists w', handshake w w') /\
  (forall w', is_starting w \/ is_stopping w -> step w w' ->
     (rank w' <= rank w)%nat /\ (is_starting w -> is_starting w' \/ w_tester w' = TUp) /\
     (is_stopping w -> is_stopping w' \/ w_tester w' = TDown)) /\
  (forall n u, nsteps handshake n w u -> (n <= 7)%nat /\
     ((forall v, ~ handshake u v) -> ~ (is_starting u \/ is_stopping u))) /\
  (w_tester w = TUp -> serverAt (w_net w) sn = Some (w_srv w) /\
    exists d p, w_proc w = Some d /\ ds_main d = MServe /\ ds_persister d = Some p /\ ds_rpcs d = LListening).
Proof.
  intros Hr. pose proof (process_reach_inv _ Hr) as I. split_and!.
  - intros Hu. destruct (advance w I Hu) as (w' & ? & ?). by exists w'.
  - intros w' Hu Hs. by apply no_step_back.
  - intros n u Hn. pose proof (handshake_bound _ _ _ Hn). pose proof (rank_bound w I) as [? _]. split; [lia|].
    intros Hstuck Hu. assert (Iu : inv u).
    { apply process_reach_inv, (reach_step w); [done|]. clear -Hn. induction Hn as [|n w w1 u [Hs _] _ IH]; [done|by econstructor]. }
    destruct (advance u Iu Hu) as (v & ? & ?). by apply (Hstuck v).
  - intros Ht. rewrite (v_net _ I), Ht. split; [done|]. pose proof (v_proc _ I) as Hp. unfold proc_ok in Hp.
    destruct (w_proc w) as [d|]; [|congruence]. exists d. unfold handler_ok in Hp. rewrite Ht in Hp.
    destruct (ds_main d), (ds_handler d) as [[]|]; try done. destruct Hp as [[p ?] ?]. eauto.
Qed.

End life.

(** ** A server that is stopped while it works *)

Module ProcessDemo.

Definition sn : string := ServerName 0 0.

Inductive act :=
| AStart | AInited | ADial | AUp | ADelete | ACheckpoint | AKill
| AMeet | AListen | AMade | ACloseClnt | ACloseSrv | ACopy
| ASave (p : Persister) | AReply | AForward | AHandOver (e : string).

(** The step of an action, if it can be taken. *)
Definition perform (w : world) (a : act) : option world :=
  match a, w_tester w, w_proc w with
  | AStart, TDown, _ => Some (runDaemon w)
  | AInited, TInit, Some d =>
      match ds_handler d with Some HInitDone => Some (set_proc w TDial (set_handler d None)) | _ => None end
  | ADial, TDial, Some d => d' ← accept d; Some (set_proc w TWait (set_handler d' (Some InitWait)))
  | AUp, TWait, Some d =>
      match ds_handler d with
      | Some HWaitDone => Some (set_net w TUp (AddServer sn (w_srv w) (w_net w)) (set_handler d None)) | _ => None
      end
  | ADelete, TUp, Some d => Some (set_net w TDeleted (DeleteServer sn (w_net w)) d)
  | ACheckpoint, TDeleted, Some d => Some (set_proc w TCheckpoint (set_handler d (Some CheckpointPersister)))
  | AKill, TCheckpoint, Some d => match ds_handler d with Some (HCopied p) => Some (kill w p) | _ => None end
  | AMeet, _, Some d => set_proc w (w_tester w) <$> ch_meet d
  | AListen, _, Some d => set_proc w (w_tester w) <$> listen d
  | AMade, _, Some d => set_proc w (w_tester w) <$> made d
  | ACloseClnt, _, Some d =>
      match ds_handler d with Some HCloseClnt => Some (set_proc w (w_tester w) (close_clnt d)) | _ => None end
  | ACloseSrv, _, Some d =>
      match ds_handler d with Some HCloseSrv => set_proc w (w_tester w) <$> close_srv d | _ => None end
  | ACopy, _, Some d => match ds_handler d with Some HCopy => copied w <$> copy d | _ => None end
  | ASave p, _, Some d => d' ← save d p; Some (saved_to w d' p)
  | AReply, _, Some d => if ds_conn d then send_reply w <$> ds_persister d else None
  | AForward, _, Some d => forward w d <$> ds_persister d
  | AHandOver e, _, _ => match w_replies w with m :: r => Some (hand_over sn w m e [] r) | [] => None end
  | _, _, _ => None
  end.

Lemma process_perform_step w a w' : perform w a = Some w' -> step sn w w'.
Proof.
  unfold perform. destruct a, (w_tester w) eqn:Ht, (w_proc w) as [d|] eqn:Hd; intros H; try done; simplify_eq/=.
  all: repeat (case_match; try done); simplify_option_eq; rewrite <- ?Ht; eauto using step.
  all: by apply (P_hand_over _ _ _ _ []).
Qed.

Fixpoint runs (w : world) (l : list act) : option world :=
  match l with [] => Some w | a :: l => w' ← perform w a; runs w' l end.

Lemma runs_rtc l : forall w w', runs w l = Some w' -> rtc (step sn) w w'.
Proof.
  induction l as [|a l IH]; intros w w' H; simplify_eq/=; [done|]. destruct (perform w a) as [w1|] eqn:Hp; [|done].
  econstructor; [by eapply process_perform_step|]. by apply IH.
Qed.

Definition starting : list act := [AStart; AMeet; AListen; AInited; AMade; ADial; AMeet; AUp].
Definition p1 : Persister := Tester.MakePersister [Byte.x01] [].
Definition p2 : Persister := Tester.MakePersister [Byte.x01; Byte.x02] [].

(** The server saves, sends a request, and is asked for its state; it answers a
    call in a state that it saves after that. *)
Definition stopping : list act := [ADelete; ACheckpoint; ACloseClnt; ACloseSrv; ACopy; ASave p2; AForward; AReply].

Definition at_ (l : list act) : world := default (init MakeNetwork) (runs (init MakeNetwork) l).

Lemma at_reach l : is_Some (runs (init MakeNetwork) l) -> reach sn (at_ l).
Proof. intros [w Hw]. unfold at_. rewrite Hw. exists MakeNetwork. split; [done|]. by eapply runs_rtc. Qed.

Definition busy : world := at_ (starting ++ [ASave p1; AForward]).
Definition stopped : world := at_ (starting ++ [ASave p1; AForward] ++ stopping).
Definition again : world := at_ (starting ++ [ASave p1; AForward] ++ stopping ++ [AKill] ++ starting ++ [AHandOver "e"]).

(** The tester's copy is taken, the listener is closed, and a reply about the state
    that is then lost has left the process all the same. *)
Theorem replies_outlive_close : exists w d p m, reach sn w /\ w_proc w = Some d /\ ds_handler d = Some (HCopied p) /\
  ds_rpcs d = LClosed /\ m ∈ w_replies w /\ (w_mark w < m_version m)%nat.
Proof.
  exists stopped, (default startDaemon (w_proc stopped)), p1, (mkSent 1 2 p2).
  split; [apply at_reach; vm_compute; eauto|]. vm_compute. split_and!; try done; try lia; by left.
Qed.

(** The network drops that reply; the request sent before is still accounted for. *)
Lemma shutdown_loses_nothing_seen_witness :
  w_seen again = [mkSent 1 1 p1] /\ current again = p1 /\ w_line again !! 1%nat = Some p1 /\ last (w_line again) = Some p1.
Proof.
  split; [vm_compute; reflexivity|]. split; [vm_compute; reflexivity|].
  destruct (shutdown_loses_nothing_seen sn busy again (mkSent 1 1 p1)) as (_ & H1 & H2).
  - apply at_reach. vm_compute. eauto.
  - vm_compute. by left.
  - apply (runs_rtc (stopping ++ [AKill] ++ starting ++ [AHandOver "e"])). vm_compute. reflexivity.
  - split; [exact H1|]. rewrite H2. vm_compute. reflexivity.
Defined.

Lemma servers_start_and_stop_witness : is_stopping stopped /\ exists u, handshake sn stopped u.
Proof.
  assert (Hst : is_stopping stopped) by (vm_compute; exact I). split; [exact Hst|].
  apply (servers_start_and_stop sn stopped); [apply at_reach; vm_compute; eauto|right; exact Hst].
Defined.

Lemma command_line_roundtrip_witness :
  InitDaemon_args (runDaemon_args ["--max-raft-state=1000"] true "tester" 0 1 ["-a"; "-b"; "c"]) =
    Some (Some (mkId 0 1 "tester" ["-a"; "-b"; "c"] "-b")).
Proof.
  apply (command_line_roundtrip ["--max-raft-state=1000"] true "tester" 0 1 ["-a"; "-b"; "c"] "-b"); [|lia|vm_compute; reflexivity|reflexivity].
  repeat constructor. by eexists.
Defined.

(** An option whose value is a separate argument, which the flag package accepts, is
    taken for the group. *)
Example separate_value_is_the_group :
  InitDaemon_args (runDaemon_args ["--max-raft-state"; "1000"] false "tester" 0 1 ["a"; "b"]) <>
    Some (Some (mkId 0 1 "tester" ["a"; "b"] "b")).
Proof. vm_compute. done. Qed.

(** A second [Init] would end the process. *)
Example second_init_returns p :
  ds_main <$> ch_meet (mkDS MServe (Some (Init p [])) (Some p1) true LListening true) = Some MReturn.
Proof. done. Qed.

End ProcessDemo.
