(* ===== verification/Forward.v ===== *)
(** * Calls between server processes

    A server in a process of its own calls another one through the tester: its
    client ends hand the call to [forward] of [tester1/daemonsrv.go], which sends it
    over a socket to [Forward] of [tester1/testsrv.go]; that puts it on the
    simulated network; and the network's server hands it to [forward] of
    [tester1/daemonclnt.go], which sends it over a socket to the process of the
    called server.  Also [SetCall], [Forward] and [LookupEnd] of
    [labrpc/labrpc.go], and the annotations that server processes send to the
    tester ([tester1/annotator.go]).

    What two sockets and a network do to a call is in [Demux] and [Labrpc]; this file
    shows that the detour changes nothing else. *)

From S2P Require Import Prelude Gob Annotation Labrpc Demux.

Record ForwardArgs := mkFA { fa_Method : string; fa_End : string; fa_Args : list byte; fa_Id : Z }.
Record ForwardReply := mkFR { fr_Rep : list byte; fr_Ok : bool }.

Record PostAnnotatorPointArgs := mkPP { pp_Tag : string; pp_Desp : string; pp_Details : string }.
Record GetAnnotatorTimestampReply := mkTs { ts_Timestamp : Z }.
Record PostAnnotatorInfoIntervalArgs := mkPI { pi_Start : Z; pi_Desp : string; pi_Details : string }.

(** The codecs of the tester's calls; empty structs are [unit]. *)
Class TesterGob := {
  tg_rpc :: Gob RPCArgs; tg_fa :: Gob ForwardArgs; tg_fr :: Gob ForwardReply;
  tg_pp :: Gob PostAnnotatorPointArgs; tg_ts :: Gob GetAnnotatorTimestampReply;
  tg_pi :: Gob PostAnnotatorInfoIntervalArgs; tg_unit :: Gob unit
}.

(** ** Annotations, at the tester *)

Definition AnnotatePoint (a : Annotation) (t : Z) (tag desp details : string) : Annotation :=
  annotatePointColor a t tag desp details COLOR_USER.

Definition AnnotateInfoInterval (a : Annotation) (t start : Z) (desp details : string) : Annotation :=
  annotateIntervalColor a t TAG_INFO start desp details COLOR_INFO.

Section forwarding.
Context `{!TesterGob}.

(** ** The tester

    The network has ends and answers requests. *)
Context {N : Type} (ends_of : N -> gset string) (transact : N -> reqMsg -> N * replyMsg).

Definition LookupEnd (n : N) (e : string) : option string := if decide (e ∈ ends_of n) then Some e else None.

(** [ClientEnd.Forward]; the arguments are encoded already. *)
Definition Forward (n : N) (e m : string) (b : list byte) : N * (list byte * bool) :=
  let '(n, r) := transact n (mkReq e m b) in (n, (reply r, ok r)).

(** What the methods of [TesterRPC] work on: the network, and the annotations. *)
Record testerState := mkTester { t_net : N; t_an : Annotation }.

(** [TesterRPC.Forward] *)
Definition TesterRPC_Forward (n : N) (a : ForwardArgs) : option (N * ForwardReply) :=
  e ← LookupEnd n (fa_End a);
  let '(n, (rep, ok)) := Forward n e (fa_Method a) (fa_Args a) in Some (n, mkFR rep ok).

Definition forward_method : method (S := testerState) := fun ts b =>
  a ← gob_decode b; '(n, r) ← TesterRPC_Forward (t_net ts) a; Some (mkTester n (t_an ts), gob_enc r).

(** The other methods, at the time [t]. *)
Definition TesterRPC_PostAnnotatorPoint (t : Z) (ts : testerState) (a : PostAnnotatorPointArgs) : testerState * unit :=
  (mkTester (t_net ts) (AnnotatePoint (t_an ts) t (pp_Tag a) (pp_Desp a) (pp_Details a)), tt).

Definition TesterRPC_GetAnnotatorTimestamp (t : Z) (ts : testerState) (_ : unit) : testerState * GetAnnotatorTimestampReply := (ts, mkTs t).

Definition TesterRPC_PostAnnotatorInfoInterval (t : Z) (ts : testerState) (a : PostAnnotatorInfoIntervalArgs) : testerState * unit :=
  (mkTester (t_net ts) (AnnotateInfoInterval (t_an ts) t (pi_Start a) (pi_Desp a) (pi_Details a)), tt).

(** The methods that [reflect] finds; those of the embedded [RPCSrv] are not
    suitable. *)
Definition TesterRPC (t : Z) : list (reflMethod testerState) :=
  [mkRefl "AddService" true 2 false 0 (fun _ _ => None); mkRefl "Close" true 1 false 0 (fun _ _ => None);
   mkRefl "Forward" true 3 true 0 forward_method;
   mkRefl "GetAnnotatorTimestamp" true 3 true 0 (handler (TesterRPC_GetAnnotatorTimestamp t)); mkRefl "Name" true 1 false 1 (fun _ _ => None);
   mkRefl "PostAnnotatorInfoInterval" true 3 true 0 (handler (TesterRPC_PostAnnotatorInfoInterval t));
   mkRefl "PostAnnotatorPoint" true 3 true 0 (handler (TesterRPC_PostAnnotatorPoint t));
   mkRefl "ServeRequest" true 3 false 2 (fun _ _ => None)].

Definition newTesterRPCSrv (t : Z) (ts : testerState) : Server testerState :=
  AddService (MakeServer ts) (MakeService "TesterRPC" (TesterRPC t)).

(** ** The calling process *)

(** [DaemonSrv.forward]: [send] is [SendReceive] on the socket to the tester. *)
Definition ds_forward (send : list byte -> dreply) (id : Z) (e m : string) (b : list byte) : option (list byte * bool) :=
  match RPCMarshall_result (R := ForwardReply) (send (RPCMarshall_request "TesterRPC.Forward" (mkFA m e b (id + 1)))) with
  | None => None
  | Some None => Some ([], false)
  | Some (Some r) => Some (fr_Rep r, fr_Ok r)
  end.

(** [ClientEnd.Call] when [SetCall] has set [callf]; [Some None] is false, [None]
    fatal. *)
Definition Call_callf {A R} `{!Gob A} `{!Gob R} (callf : string -> string -> list byte -> option (list byte * bool))
    (e m : string) (a : A) : option (option R) :=
  '(rep, ok) ← callf e m (Marshall a);
  if (ok : bool) then y ← Unmarshall rep; Some (Some y) else Some None.

(** What [ClientEnd.Call] makes of the network's reply otherwise. *)
Definition Call_reply {R} `{!Gob R} (r : replyMsg) : option (option R) :=
  if ok r then y ← Unmarshall (reply r); Some (Some y) else Some None.

(** [Annotate], [GetAnnotatorTimestamp] and [PostAnnotatorInfoInterval] of a server
    process; a call that fails goes unnoticed. *)
Definition Annotate (send : list byte -> dreply) (tag desp details : string) : option unit :=
  _ ← RPCMarshall_result (R := unit) (send (RPCMarshall_request "TesterRPC.PostAnnotatorPoint" (mkPP tag desp details))); Some tt.

Definition GetAnnotatorTimestamp (send : list byte -> dreply) : option Z :=
  r ← RPCMarshall_result (R := GetAnnotatorTimestampReply) (send (RPCMarshall_request "TesterRPC.GetAnnotatorTimestamp" tt));
  Some (match r with None => 0 | Some r => ts_Timestamp r end).

Definition PostAnnotatorInfoInterval (send : list byte -> dreply) (start : Z) (desp details : string) : option unit :=
  _ ← RPCMarshall_result (R := unit) (send (RPCMarshall_request "TesterRPC.PostAnnotatorInfoInterval" (mkPI start desp details))); Some tt.

(** The tester answers on the socket. *)
Definition tester_answers (t : Z) (ts : testerState) (clnt : string) (b : list byte) : option (testerState * dreply) :=
  '(rs, (rep, ok)) ← SockServeRequest (newTesterRPCSrv t ts) clnt b;
  Some (rcvrs rs, mkReply rep ok false).

Lemma TesterRPC_names t : NoDup (m_name <$> TesterRPC t).
Proof. apply (bool_decide_unpack _). vm_compute. exact I. Qed.

(** A call of a method of the tester is one run of it. *)
Lemma tester_serves {A R} `{!Gob A} `{!Gob R} t ts clnt m (f : testerState -> A -> testerState * R) (a : A) :
  mkRefl m true 3 true 0 (handler f) ∈ TesterRPC t -> splitLast m = None ->
  exists b, tester_answers t ts clnt (RPCMarshall_request ("TesterRPC." +:+ m) a) = Some ((f ts a).1, mkReply b true false) /\
    Unmarshall b = Some (f ts a).2.
Proof.
  intros Hin Hd. destruct (rpc_transparent f (newTesterRPCSrv t ts) "TesterRPC" clnt (TesterRPC t) (mkRefl m true 3 true 0 (handler f)) a)
    as (rs' & r & Hdis & Hok & Hu & Hrc & _); try done; [apply TesterRPC_names|].
  exists (reply r). unfold tester_answers, SockServeRequest, RPCMarshall_request, RPC_request, Unmarshall at 1, Marshall at 1. rewrite gob_roundtrip. simpl.
  unfold Dispatch. simpl in Hdis. unfold Marshall in *.
  change ("TesterRPC." +:+ m)%string with ("TesterRPC" +:+ "." +:+ m)%string. rewrite Hdis. simpl. by rewrite Hok, Hrc.
Qed.

(** The bytes of one forwarded call reach [Forward] as they were, and the network
    sees the request that a direct call would have made. *)
Lemma tester_forwards t ts clnt e m b id : e ∈ ends_of (t_net ts) ->
  let '(n', r) := transact (t_net ts) (mkReq e m b) in
  tester_answers t ts clnt (RPCMarshall_request "TesterRPC.Forward" (mkFA m e b id)) =
    Some (mkTester n' (t_an ts), mkReply (gob_enc (mkFR (reply r) (ok r))) true false).
Proof.
  intros He. destruct (transact (t_net ts) (mkReq e m b)) as [n' r] eqn:Ht.
  unfold tester_answers, SockServeRequest, RPCMarshall_request, RPC_request, Unmarshall, Marshall. rewrite gob_roundtrip. simpl.
  unfold Dispatch, dispatch. simpl. rewrite lookup_insert_eq. simpl. unfold Service_dispatch.
  replace (methods (MakeService "TesterRPC" (TesterRPC t)) !! "Forward") with (Some forward_method)
    by (symmetry; apply (MakeService_lookup "TesterRPC" (TesterRPC t) (mkRefl "Forward" true 3 true 0 forward_method)); [apply TesterRPC_names|unfold TesterRPC; set_solver|done]).
  simpl. unfold forward_method. rewrite gob_roundtrip. simpl. unfold TesterRPC_Forward, LookupEnd. simpl.
  rewrite decide_True by done. simpl. unfold Forward. by rewrite Ht.
Qed.

(** ** The called process *)

Context {S : Type}.

(** [DaemonClnt.forward], on the server of the other process. *)
Definition dc_forward : Fdispatch (S := Server S) := fun rs m b =>
  '(rs, (rep, ok)) ← SockServeRequest rs "tester" (RPC_request m b);
  Some (rs, RPC_result (mkReply rep ok false)).

(** The server that [StartServer] adds to the network. *)
Definition labsrv (rs : Server S) : Server (Server S) := SetDispatch (MakeServer rs) dc_forward.

Lemma labsrv_forwards rs e m b rs' r : dispatch rs (mkReq "tester" m b) = Some (rs', r) ->
  exists l', dispatch (labsrv rs) (mkReq e m b) = Some (l', r) /\ rcvrs l' = rs' /\ dispatchf l' = Some dc_forward.
Proof.
  intros Hd. assert (Hm : is_Some (splitLast m)).
  { unfold dispatch in Hd. simpl in Hd. destruct (splitLast m); [by eexists|done]. }
  destruct Hm as [[sv mt] Hm]. unfold dispatch at 1. simpl. rewrite Hm. simpl. unfold dc_forward, SockServeRequest, RPC_request, Unmarshall, Marshall.
  rewrite gob_roundtrip. simpl. unfold Dispatch. rewrite Hd. simpl. by eexists; destruct r.
Qed.

End forwarding.

(** C18: Processes do not change calls.  A server in a process of its own that
    calls another one through its client end gets exactly what a direct call over
    the network would give it: the network sees the same request, and the caller
    decodes the network's reply, fails when the network says so, and fails when
    the socket breaks.  When the network delivers the call, the other process runs
    the method of its service on exactly the caller's arguments, and the caller
    gets exactly its reply. *)
Theorem forwarding_transparent `{!TesterGob} {S N A R : Type} `{!Gob A} `{!Gob R}
    (ends_of : N -> gset string) (transact : N -> reqMsg -> N * replyMsg) (t : Z) (ts : testerState) (clnt e m : string) (id : Z) (a : A)
    (f : S -> A -> S * R) (rs : Server S) (svcName : string) (ms : list (reflMethod S)) (mt : reflMethod S) :
  e ∈ ends_of (t_net ts) -> NoDup (m_name <$> ms) -> mt ∈ ms -> suitable mt = true -> m_call mt = handler f -> splitLast (m_name mt) = None ->
  dispatchf rs = None -> services rs !! svcName = Some (MakeService svcName ms) -> m = svcName +:+ "." +:+ m_name mt ->
  let answer b := default failReply (snd <$> tester_answers ends_of transact t ts clnt b) in
  let direct := (transact (t_net ts) (mkReq e m (Marshall a))).2 in
  Call_callf (R := R) (ds_forward answer id) e m a = Call_reply direct /\
  Call_callf (R := R) (ds_forward (fun _ => failReply) id) e m a = Some None /\
  exists l' r, dispatch (labsrv rs) (mkReq e m (Marshall a)) = Some (l', r) /\ rcvrs (rcvrs l') = (f (rcvrs rs) a).1 /\
    (direct = r -> Call_callf (R := R) (ds_forward answer id) e m a = Some (Some (f (rcvrs rs) a).2)).
Proof.
  intros He Hnd Hin Hs Hf Hdot Hd Hsv Hm answer direct.
  assert (Hcall : Call_callf (R := R) (ds_forward answer id) e m a = Call_reply direct).
  { pose proof (tester_forwards ends_of transact t ts clnt e m (Marshall a) (id + 1) He) as Ht. unfold direct.
    destruct (transact (t_net ts) (mkReq e m (Marshall a))) as [n' r]. unfold Call_callf, ds_forward, answer. rewrite Ht. simpl.
    unfold RPCMarshall_result, Unmarshall at 1. simpl. rewrite gob_roundtrip. simpl. done. }
  split_and!; [done|done|].
  destruct (rpc_transparent f rs svcName "tester" ms mt a Hnd Hin Hs Hf Hdot Hd Hsv) as (rs' & rep & Hdis & Hok & Hrep & Hst & _).
  rewrite <- Hm in Hdis. destruct (labsrv_forwards rs e m (Marshall a) rs' rep Hdis) as (l' & Hl & Hrs & _).
  exists l', rep. split_and!; [done|congruence|]. intros Hdir. rewrite Hcall, Hdir. unfold Call_reply. rewrite Hok, Hrep. done.
Qed.

(** Annotations of server processes arrive.  A point that a process annotates is at
    the end of the tester's annotations with the process's texts, in the colour of
    users, at the time the call is served; the timestamp a process gets is the
    tester's; and an interval that is posted from it is there from that timestamp
    on.  The network is left alone, and a broken socket loses the annotation only. *)
Theorem annotations_arrive `{!TesterGob} {N : Type} (ends_of : N -> gset string) (transact : N -> reqMsg -> N * replyMsg)
    (t : Z) (ts : testerState) (clnt tag desp details : string) (start : Z) :
  let answers b := tester_answers ends_of transact t ts clnt b in
  let send b := default failReply (snd <$> answers b) in
  (exists b d, b = RPCMarshall_request "TesterRPC.PostAnnotatorPoint" (mkPP tag desp details) /\
    answers b = Some (mkTester (t_net ts) (Annotation.add (t_an ts) (mkAnnot tag t 0 desp details COLOR_USER)), d)) /\
  Annotate send tag desp details = Some tt /\ Annotate (fun _ => failReply) tag desp details = Some tt /\
  GetAnnotatorTimestamp send = Some t /\ GetAnnotatorTimestamp (fun _ => failReply) = Some 0 /\
  (exists b d, b = RPCMarshall_request "TesterRPC.PostAnnotatorInfoInterval" (mkPI start desp details) /\
    answers b = Some (mkTester (t_net ts) (Annotation.add (t_an ts) (mkAnnot TAG_INFO start t desp details COLOR_INFO)), d)) /\
  PostAnnotatorInfoInterval send start desp details = Some tt.
Proof.
  intros answers send.
  destruct (tester_serves ends_of transact t ts clnt "PostAnnotatorPoint" (TesterRPC_PostAnnotatorPoint t) (mkPP tag desp details)) as (b1 & H1 & U1);
    [unfold TesterRPC; set_solver|done|].
  destruct (tester_serves ends_of transact t ts clnt "GetAnnotatorTimestamp" (TesterRPC_GetAnnotatorTimestamp t) tt) as (b2 & H2 & U2);
    [unfold TesterRPC; set_solver|done|].
  destruct (tester_serves ends_of transact t ts clnt "PostAnnotatorInfoInterval" (TesterRPC_PostAnnotatorInfoInterval t) (mkPI start desp details)) as (b3 & H3 & U3);
    [unfold TesterRPC; set_solver|done|].
  split_and!.
  - eexists _, _. split; [done|exact H1].
  - unfold Annotate, send, answers. change ("TesterRPC." +:+ "PostAnnotatorPoint")%string with "TesterRPC.PostAnnotatorPoint" in H1. rewrite H1. simpl. unfold RPCMarshall_result. simpl. by rewrite U1.
  - done.
  - unfold GetAnnotatorTimestamp, send, answers. change ("TesterRPC." +:+ "GetAnnotatorTimestamp")%string with "TesterRPC.GetAnnotatorTimestamp" in H2. rewrite H2. simpl. unfold RPCMarshall_result. simpl. by rewrite U2.
  - done.
  - eexists _, _. split; [done|exact H3].
  - unfold PostAnnotatorInfoInterval, send, answers. change ("TesterRPC." +:+ "PostAnnotatorInfoInterval")%string with "TesterRPC.PostAnnotatorInfoInterval" in H3. rewrite H3. simpl. unfold RPCMarshall_result. simpl. by rewrite U3.
Qed.

(** ** A call through the tester *)

Module ForwardDemo.
Import DemuxDemo LabrpcDemo.

#[export] Instance fa_eq_dec : EqDecision ForwardArgs.
Proof. solve_decision. Defined.
#[export] Program Instance fa_countable : Countable ForwardArgs :=
  inj_countable' (fun a => (fa_Method a, fa_End a, fa_Args a, fa_Id a)) (fun '(m, e, b, i) => mkFA m e b i) _.
Next Obligation. by intros []. Qed.
#[export] Instance fr_eq_dec : EqDecision ForwardReply.
Proof. solve_decision. Defined.
#[export] Program Instance fr_countable : Countable ForwardReply :=
  inj_countable' (fun r => (fr_Rep r, fr_Ok r)) (fun '(b, o) => mkFR b o) _.
Next Obligation. by intros []. Qed.
#[export] Instance pp_eq_dec : EqDecision PostAnnotatorPointArgs.
Proof. solve_decision. Defined.
#[export] Program Instance pp_countable : Countable PostAnnotatorPointArgs :=
  inj_countable' (fun a => (pp_Tag a, pp_Desp a, pp_Details a)) (fun '(t, d, e) => mkPP t d e) _.
Next Obligation. by intros []. Qed.
#[export] Instance ts_eq_dec : EqDecision GetAnnotatorTimestampReply.
Proof. solve_decision. Defined.
#[export] Program Instance ts_countable : Countable GetAnnotatorTimestampReply := inj_countable' ts_Timestamp mkTs _.
Next Obligation. by intros []. Qed.
#[export] Instance pi_eq_dec : EqDecision PostAnnotatorInfoIntervalArgs.
Proof. solve_decision. Defined.
#[export] Program Instance pi_countable : Countable PostAnnotatorInfoIntervalArgs :=
  inj_countable' (fun a => (pi_Start a, pi_Desp a, pi_Details a)) (fun '(t, d, e) => mkPI t d e) _.
Next Obligation. by intros []. Qed.
#[export] Instance tester_gob : TesterGob :=
  {| tg_rpc := _; tg_fa := bit_gob; tg_fr := bit_gob; tg_pp := bit_gob; tg_ts := bit_gob; tg_pi := bit_gob; tg_unit := bit_gob |}.

(** A network with one end, which leads to the process of the adder. *)
Definition network (l : Server (Server Z)) (req : reqMsg) : Server (Server Z) * replyMsg :=
  default (l, failed) (dispatch l req).

Lemma forwarding_transparent_witness :
  Call_callf (R := Z) (ds_forward (fun b => default failReply (snd <$> tester_answers (fun _ => {["e"]}) network 0 (mkTester (labsrv LabrpcDemo.server) (mkAn [] ∅ false)) "d" b)) 0)
    "e" "Adder.Add" 5 = Some (Some 5).
Proof.
  destruct (forwarding_transparent (fun _ => {["e"]}) network 0 (mkTester (labsrv LabrpcDemo.server) (mkAn [] ∅ false)) "d" "e" "Adder.Add" 0 5
    LabrpcDemo.add LabrpcDemo.server "Adder" LabrpcDemo.adder (mkRefl "Add" true 3 true 0 (handler LabrpcDemo.add)))
    as (_ & _ & l' & r & Hd & _ & Hc); [reflexivity|..|reflexivity|reflexivity|reflexivity|reflexivity|reflexivity|reflexivity|].
  - apply (bool_decide_unpack _). vm_compute. exact I.
  - unfold LabrpcDemo.adder. apply elem_of_cons. by left.
  - apply Hc. simpl t_net. unfold network. rewrite Hd. reflexivity.
Defined.

End ForwardDemo.
