(* ===== verification/Daemon.v ===== *)
(** * The daemon's life

    [cmd/raftkvd/main.go]: [main] and [run], from the flags to the exit code, with
    the deferred calls and every error return; [gracefulStopWithTimeout]; and the
    goroutine that reports readiness, [markReadyAfterRaftParticipation].

    What the daemon does to the outside is a trace of actions; how its calls turn
    out is an argument.  Of gRPC's health server this uses that after [Shutdown]
    every status is NOT_SERVING and later changes are ignored. *)

From S2P Require Import Prelude Wal Raft Config.

(** ** What the daemon does *)

Inductive act :=
| Dial (id : NodeID) | MkdirRaft | OpenWal | OpenStore | StartKV | Listen | Register | SetLive | SetNotReady
| Serve | GoReadiness | Notify
| StopReadiness | HealthShutdown | GetState | TransferLeadership | GracefulStop | ForceStop
| SignalStop | CloseLis | Kill | CloseEnd (id : NodeID) | CloseStore | CloseWal.

Inductive runError := DialErr (id : NodeID) | MkdirErr | WalErr | StoreErr | NotRaft | ListenErr | ServeErr.

(** How the process ends: by a signal, as the leader or not, with the connections
    drained in time or not; or because [Serve] returned. *)
Inductive ending :=
| BySignal (isLeader drained : bool)
| ByServe (err : bool).

Record outcomes := mkOut {
  dials : NodeID -> bool;
  mkdirs : bool;
  opens : bool;
  storeOpens : bool;
  isRaft : bool;
  listens : bool;
  ends_by : ending
}.

(** ** A function with deferred calls

    The variables that the deferred cleanup reads, the trace, and the deferred
    calls, last first. *)

Inductive deferred := DCleanup | DLis | DSignal.

Record frame := mkFrame { v_rf : bool; v_store : bool; v_fw : bool; trace : list act; defers : list deferred }.

Definition D (A : Type) : Type := frame -> frame * (runError + A).

Definition ret {A} (a : A) : D A := fun f => (f, inr a).
Definition fail {A} (e : runError) : D A := fun f => (f, inl e).
Definition bind {A B} (m : D A) (k : A -> D B) : D B := fun f =>
  match m f with (f, inl e) => (f, inl e) | (f, inr a) => k a f end.

Notation "m ;; k" := (bind m (fun _ : unit => k)) (at level 100, right associativity) : go_scope.
Local Open Scope go_scope.

Definition emit (a : act) : D unit := fun f => (mkFrame (v_rf f) (v_store f) (v_fw f) (trace f ++ [a]) (defers f), inr tt).
Definition defer (d : deferred) : D unit := fun f => (mkFrame (v_rf f) (v_store f) (v_fw f) (trace f) (d :: defers f), inr tt).

(** A call that may fail, and the assignment that follows it. *)
Definition try (ok : bool) (a : act) (e : runError) : D unit := if ok then emit a else fail e.
Definition set_fw : D unit := fun f => (mkFrame (v_rf f) (v_store f) true (trace f) (defers f), inr tt).
Definition set_store : D unit := fun f => (mkFrame (v_rf f) true (v_fw f) (trace f) (defers f), inr tt).
Definition set_rf : D unit := fun f => (mkFrame true (v_store f) (v_fw f) (trace f) (defers f), inr tt).

Fixpoint dialAll (o : outcomes) (ids : list NodeID) : D unit :=
  match ids with
  | [] => ret tt
  | id :: ids => try (dials o id) (Dial id) (DialErr id);; dialAll o ids
  end.

(** The cleanup stack. *)
Definition cleanup (ids : list NodeID) (f : frame) : list act :=
  (if v_rf f then [Kill] else []) ++ (CloseEnd <$> ids) ++ (if v_store f then [CloseStore] else []) ++ (if v_fw f then [CloseWal] else []).

Definition run_deferred (ids : list NodeID) (f : frame) (d : deferred) : list act :=
  match d with DCleanup => cleanup ids f | DLis => [CloseLis] | DSignal => [SignalStop] end.

(** What a call of [GracefulStop] with a time limit comes to. *)
Definition gracefulStopWithTimeout (drained : bool) : D bool := fun f =>
  if drained then (emit GracefulStop;; ret true) f else (emit GracefulStop;; emit ForceStop;; ret false) f.

(** A failed transfer is only logged. *)
Definition shutdown (isLeader drained : bool) : D unit :=
  emit StopReadiness;; emit HealthShutdown;; emit GetState;;
  (if isLeader then emit TransferLeadership else ret tt);;
  bind (gracefulStopWithTimeout drained) (fun _ => ret tt).

Definition select (e : ending) : D unit :=
  match e with
  | BySignal isLeader drained => shutdown isLeader drained
  | ByServe err => emit StopReadiness;; emit HealthShutdown;; if err then fail ServeErr else ret tt
  end.

(** [run] after the connections to the peers have been made. *)
Definition serve_node (o : outcomes) : D unit :=
  defer DCleanup;;
  try (mkdirs o) MkdirRaft MkdirErr;;
  try (opens o) OpenWal WalErr;; set_fw;;
  try (storeOpens o) OpenStore StoreErr;; set_store;;
  emit StartKV;;
  (if isRaft o then set_rf else fail NotRaft);;
  try (listens o) Listen ListenErr;;
  defer DLis;;
  emit Register;; emit SetLive;; emit SetNotReady;; emit Serve;; emit GoReadiness;;
  emit Notify;;
  defer DSignal;;
  select (ends_by o).

Definition run (ids : list NodeID) (o : outcomes) : list act * (runError + unit) :=
  let '(f, r) := (dialAll o ids;; serve_node o) (mkFrame false false false [] []) in
  (trace f ++ (defers f ≫= run_deferred ids f), r).

(** The exit code; help is no error. *)
Definition main (args : list string) (lookupEnv : string -> option string) (o : outcomes) : Z * list act :=
  match parseConfig args lookupEnv with
  | inl ErrHelp => (0, [])
  | inl _ => (2, [])
  | inr cfg =>
      match run (nodeOrder cfg) o with
      | (tr, inl _) => (1, tr)
      | (tr, inr _) => (0, tr)
      end
  end.

#[export] Instance act_eq_dec : EqDecision act.
Proof. solve_decision. Defined.

(** ** Resources *)

Definition is_release (a : act) : bool :=
  match a with SignalStop | CloseLis | Kill | CloseEnd _ | CloseStore | CloseWal => true | _ => false end.

Definition when (a b : act) (pre : list act) : list act := if decide (a ∈ pre) then [b] else [].

(** What has to be released after [pre], in this order. *)
Definition releases (ids : list NodeID) (pre : list act) : list act :=
  when Notify SignalStop pre ++ when Listen CloseLis pre ++ when StartKV Kill pre ++
  (CloseEnd <$> ids) ++ when OpenStore CloseStore pre ++ when OpenWal CloseWal pre.

Lemma dialAll_spec o ids f :
  (forall id, id ∈ ids -> dials o id = true) /\
    dialAll o ids f = (mkFrame (v_rf f) (v_store f) (v_fw f) (trace f ++ (Dial <$> ids)) (defers f), inr tt) \/
  exists ok id rest, ids = ok ++ id :: rest /\ dials o id = false /\
    dialAll o ids f = (mkFrame (v_rf f) (v_store f) (v_fw f) (trace f ++ (Dial <$> ok)) (defers f), inl (DialErr id)).
Proof.
  revert f. induction ids as [|id ids IH]; intros f; simpl.
  { left. split; [by intros id ?%elem_of_nil|]. rewrite app_nil_r. by destruct f. }
  unfold bind, try. destruct (dials o id) eqn:Hd.
  - unfold emit. destruct (IH (mkFrame (v_rf f) (v_store f) (v_fw f) (trace f ++ [Dial id]) (defers f))) as [[Hall ->]|(ok & i & rest & -> & Hi & ->)]; simpl.
    + left. split; [by intros i [->|?]%elem_of_cons; auto|]. by rewrite <- app_assoc.
    + right. exists (id :: ok), i, rest. rewrite <- app_assoc. done.
  - right. exists [], id, ids. unfold fail. rewrite app_nil_r. by destruct f.
Qed.

Definition is_dial (a : act) : bool := match a with Dial _ => true | _ => false end.

Lemma when_dials a b ids l : is_dial a = false -> when a b ((Dial <$> ids) ++ l) = when a b l.
Proof.
  intros Ha. unfold when. assert (Hiff : a ∈ (Dial <$> ids) ++ l <-> a ∈ l).
  { rewrite elem_of_app. split; [|by right]. intros [(id & -> & _)%list_elem_of_fmap|]; done. }
  destruct (decide (a ∈ l)); [by rewrite decide_True by tauto|by rewrite decide_False by tauto].
Qed.

(** Whichever way it returns, what follows the connections is released by what is
    deferred. *)
Lemma serve_node_spec ids o t : isRaft o = true ->
  exists f r l, serve_node o (mkFrame false false false t []) = (f, r) /\
    trace f ++ (defers f ≫= run_deferred ids f) = t ++ l ++ releases ids l /\
    Forall (fun a => is_release a = false) l.
Proof.
  intros Hraft. unfold serve_node, bind, try, defer, emit, fail, set_fw, set_store, set_rf, ret. simpl. rewrite Hraft.
  assert (Happ : forall (f : frame) ds l, trace f = t ++ l -> (ds ≫= run_deferred ids f) = releases ids l ->
    trace f ++ (ds ≫= run_deferred ids f) = t ++ l ++ releases ids l) by (intros f ds l -> ->; by rewrite <- app_assoc).
  assert (Hnil : forall f, (defers f ≫= run_deferred ids f) =
    match defers f with
    | [DCleanup] => cleanup ids f
    | [DSignal; DLis; DCleanup] => SignalStop :: CloseLis :: cleanup ids f
    | ds => ds ≫= run_deferred ids f
    end).
  { intros [rf st w tr [|[] [|[] [|[] [|]]]]]; simpl; rewrite ?app_nil_r; done. }
  destruct (mkdirs o); simpl; [|eexists _, _, []; split_and!; [done|apply Happ; [by rewrite app_nil_r|by rewrite Hnil]|constructor]].
  destruct (opens o); simpl; [|eexists _, _, [_]; split_and!; [done|apply Happ; [done|by rewrite Hnil]|repeat constructor]].
  destruct (storeOpens o); simpl; [|eexists _, _, [_; _]; split_and!; [done|apply Happ; [by rewrite <- !app_assoc|by rewrite Hnil]|repeat constructor]].
  destruct (listens o); simpl; [|eexists _, _, [_; _; _; _]; split_and!; [done|apply Happ; [by rewrite <- !app_assoc|by rewrite Hnil]|repeat constructor]].
  destruct (ends_by o) as [[] []|[]]; simpl; unfold shutdown, gracefulStopWithTimeout, bind, emit, ret, fail; simpl;
    (eexists _, _, (_ :: _ :: _); split_and!; [done|apply Happ; [rewrite <- !app_assoc; simpl; reflexivity|by rewrite Hnil]|repeat constructor]).
Qed.

(** Everything the daemon has opened when it returns, by whichever of its ways, is
    released once, and in the order of the cleanup stack: the signal handler, the
    listener, Raft, the connections to the peers, the store, the WAL.  The exception
    are the connections made before one to a later peer fails. *)
Theorem daemon_releases ids o : isRaft o = true ->
  (exists ok id, run ids o = (Dial <$> ok, inl (DialErr id)) /\ dials o id = false) \/
  exists pre r, run ids o = (pre ++ releases ids pre, r) /\
    (forall id, id ∈ ids -> Dial id ∈ pre) /\ forall a, a ∈ pre -> is_release a = false.
Proof.
  intros Hraft. unfold run, bind.
  destruct (dialAll_spec o ids (mkFrame false false false [] [])) as [[_ ->]|(ok & id & rest & _ & Hd & ->)]; cbn [v_rf v_store v_fw trace defers app].
  2: { left. exists ok, id. by rewrite app_nil_r. }
  right. destruct (serve_node_spec ids o (Dial <$> ids) Hraft) as (f & r & l & -> & Htr & Hl).
  exists ((Dial <$> ids) ++ l), r. rewrite Htr. unfold releases. rewrite !when_dials, <- app_assoc by done. split_and!; [done|..].
  - intros id Hid. apply elem_of_app. left. by apply list_elem_of_fmap_2.
  - intros a [(id & -> & _)%list_elem_of_fmap|Ha]%elem_of_app; [done|]. by apply (proj1 (Forall_forall _ _) Hl).
Qed.

(** ** Readiness *)

(** gRPC's health server. *)
Record health := mkHealth { liveness : bool; readiness : bool; isShut : bool }.

Definition SetReadiness (h : health) (b : bool) : health :=
  if isShut h then h else mkHealth (liveness h) b (isShut h).

Definition Shutdown (h : health) : health := mkHealth false false true.

(** [markReadyAfterRaftParticipation]: about to read the term, waiting for the
    next tick or for [stop], or back. *)
Inductive gphase := GCheck | GWait | GDone.

(** The main goroutine: serving, after [close(readinessStop)], after [Shutdown]. *)
Inductive mphase := MServing | MStopped | MShut.

Record node := mkNode { n_term : Z; n_health : health; n_g : gphase; n_m : mphase }.

Definition markReady (n : node) : node :=
  if decide (n_term n > 0) then mkNode (n_term n) (SetReadiness (n_health n) true) GDone (n_m n)
  else mkNode (n_term n) (n_health n) GWait (n_m n).

Inductive nstep : node -> node -> Prop :=
| N_term n t : n_term n <= t -> nstep n (mkNode t (n_health n) (n_g n) (n_m n))
| N_check n : n_g n = GCheck -> nstep n (markReady n)
| N_tick n : n_g n = GWait -> nstep n (mkNode (n_term n) (n_health n) GCheck (n_m n))
| N_stopped n : n_g n = GWait -> n_m n <> MServing -> nstep n (mkNode (n_term n) (n_health n) GDone (n_m n))
| N_stop n : n_m n = MServing -> nstep n (mkNode (n_term n) (n_health n) (n_g n) MStopped)
| N_shut n : n_m n = MStopped -> nstep n (mkNode (n_term n) (Shutdown (n_health n)) (n_g n) MShut).

(** A node with its recovered term, when the goroutine starts. *)
Definition ninit (t : Z) : node := mkNode t (mkHealth true false false) GCheck MServing.

(** However the term, the goroutine and the shutdown interleave: a node is ready
    only if it has taken part in Raft; once it is shut down it is not ready, not
    alive, and stays so; before, it is alive; and the goroutine ends ready, or
    because of the shutdown. *)
Theorem readiness_sound t n : rtc nstep (ninit t) n ->
  (readiness (n_health n) = true -> n_term n > 0 /\ n_m n <> MShut) /\
  (n_m n = MShut -> n_health n = mkHealth false false true) /\
  (n_m n <> MShut -> liveness (n_health n) = true) /\
  (n_g n = GDone -> readiness (n_health n) = true \/ n_m n <> MServing).
Proof.
  intros Hr. enough (((readiness (n_health n) = true -> n_term n > 0 /\ n_m n <> MShut) /\
    (n_m n = MShut -> n_health n = mkHealth false false true) /\
    (n_m n <> MShut -> liveness (n_health n) = true) /\
    (n_g n = GDone -> readiness (n_health n) = true \/ n_m n <> MServing)) /\ (isShut (n_health n) = true <-> n_m n = MShut)) by tauto.
  revert n Hr. apply rtc_ind_r; [by split_and!|]. intros x y _ Hs ((H1 & H2 & H3 & H4) & H5).
  destruct Hs as [n t' Ht|n Hg|n Hg|n Hg Hm|n Hm|n Hm]; simpl in *.
  - split_and!; try done; try tauto. intros H. destruct (H1 H). split; [lia|done].
  - unfold markReady. destruct (decide (n_term n > 0)) as [Hp|Hp]; simpl; [|by split_and!].
    unfold SetReadiness. destruct (isShut (n_health n)) eqn:Hs; simpl.
    + assert (Hm : n_m n = MShut) by (by apply H5). rewrite Hm. split_and!; try done; try tauto; try (by right).
    + assert (Hm : n_m n <> MShut) by (intros Hm; by apply H5 in Hm). split_and!; try done; by left.
  - by split_and!.
  - split_and!; try done. by right.
  - rewrite Hm in *. split_and!; try done; try (intros; by apply H3).
    + intros H. by destruct (H1 H).
    + intros _. by right.
    + rewrite H5. done.
  - split_and!; try done. by right.
Qed.

(** The daemon's way down: whatever the goroutine is doing, it can finish. *)
Lemma readiness_stops n : n_m n <> MServing -> exists n', rtc nstep n n' /\ n_g n' = GDone /\ n_m n' = n_m n.
Proof.
  intros Hm. destruct (n_g n) eqn:Hg.
  - destruct (decide (n_term n > 0)) as [Hp|Hp].
    + exists (markReady n). split; [apply rtc_once; by constructor|]. unfold markReady. by rewrite decide_True.
    + assert (Hmr : markReady n = mkNode (n_term n) (n_health n) GWait (n_m n)) by (unfold markReady; by rewrite decide_False).
      exists (mkNode (n_term n) (n_health n) GDone (n_m n)). split; [|done].
      eapply rtc_l; [by apply N_check|]. rewrite Hmr. apply rtc_once. by apply (N_stopped (mkNode (n_term n) (n_health n) GWait (n_m n))).
  - eexists. split; [apply rtc_once; by apply N_stopped|done].
  - exists n. done.
Qed.

(** A node that restarts with a term in its WAL is ready before it has taken part
    in anything. *)
Example ready_after_restart : readiness (n_health (markReady (ninit 1))) = true.
Proof. reflexivity. Qed.

(** When the third of three peers cannot be dialled, the first two connections
    stay open. *)
Example dial_failure_releases_nothing :
  run ["n1"; "n2"; "n3"] (mkOut (fun id => bool_decide (id <> "n3")) true true true true true (ByServe false)) =
  ([Dial "n1"; Dial "n2"], inl (DialErr "n3")).
Proof. vm_compute. reflexivity. Qed.
