(* ===== verification/ShardCfg.v ===== *)
(** * Shard configurations

    [shardkv1/shardcfg/shardcfg.go]: the hash that places a key, the
    configurations and the operations that change them.  [Rebalance] terminates,
    and what [JoinBalance] and [LeaveBalance] produce passes [CheckConfig]. *)

From stdpp Require Import sorting.
From S2P Require Import Prelude.

Definition NShards : nat := 12.
Definition NumFirst : Z := 1.
Definition Gid1 : Z := 1.

(** ** Placing a key: 32-bit FNV-1a modulo the number of shards *)

Definition fnv_step (h : Z) (b : byte) : Z := (Z.lxor h (byte_to_Z b) * 16777619) mod 2 ^ 32.

Definition fnv32a (data : list byte) : Z := foldl fnv_step 2166136261 data.

Definition Key2Shard (key : string) : nat :=
  Z.to_nat (fnv32a (String.list_byte_of_string key) mod Z.of_nat NShards).

(** The published test vector of the hash. *)
Example fnv32a_foobar : fnv32a (String.list_byte_of_string "foobar") = 0xbf9cf968.
Proof. vm_compute. reflexivity. Qed.

Lemma Key2Shard_lt k : (Key2Shard k < NShards)%nat.
Proof.
  unfold Key2Shard. pose proof (Z.mod_pos_bound (fnv32a (String.list_byte_of_string k)) (Z.of_nat NShards) ltac:(done)).
  unfold NShards in *. lia.
Qed.

(** ** Configurations *)

Record ShardConfig := mkCfg {
  Num : Z;
  Shards : list Z;                  (* shard -> gid, an array of [NShards] *)
  Groups : gmap Z (list string)     (* gid -> servers *)
}.

#[export] Instance ShardConfig_eq_dec : EqDecision ShardConfig.
Proof. solve_decision. Defined.

Definition MakeShardConfig : ShardConfig := mkCfg 0 (replicate NShards 0) ∅.

Definition set_Shards (c : ShardConfig) (l : list Z) : ShardConfig := mkCfg (Num c) l (Groups c).

Definition Copy (cfg : ShardConfig) : ShardConfig := mkCfg (Num cfg) (Shards cfg) (Groups cfg).

(** [counts[g]] *)
Definition count (g : Z) (shards : list Z) : Z := zlen (filter (fun g' => g' = g) shards).

Definition sorted_gids (c : ShardConfig) : list Z := merge_sort Z.le (elements (dom (Groups c))).

(** The state of [analyze]'s loop: mg, mn, lg, ln. *)
Definition analyze_step (shards : list Z) (acc : Z * Z * Z * Z) (g : Z) : Z * Z * Z * Z :=
  let '(mg, mn, lg, ln) := acc in
  let '(ln, lg) := if decide (count g shards < ln) then (count g shards, g) else (ln, lg) in
  let '(mn, mg) := if decide (mn < count g shards) then (count g shards, g) else (mn, mg) in
  (mg, mn, lg, ln).

Definition analyze (c : ShardConfig) : Z * Z * Z * Z :=
  foldl (analyze_step (Shards c)) (-1, -1, -1, 257) (sorted_gids c).

Definition least (c : ShardConfig) : Z := let '(_, _, lg, _) := analyze c in lg.

(** The first pass of [Rebalance] at shard [s]. *)
Definition assign (c : ShardConfig) (s : nat) : ShardConfig :=
  match Shards c !! s with
  | Some g => match Groups c !! g with
              | Some _ => c
              | None => set_Shards c (<[s := least c]> (Shards c))
              end
  | None => c
  end.

(** Move the first shard of [mg] to [lg]. *)
Fixpoint move1 (mg lg : Z) (shards : list Z) : list Z :=
  match shards with
  | [] => []
  | g :: shards => if decide (g = mg) then lg :: shards else g :: move1 mg lg shards
  end.

(** The second pass; [None] when the fuel runs out. *)
Fixpoint balance (fuel : nat) (c : ShardConfig) : option ShardConfig :=
  match fuel with
  | O => None
  | S fuel =>
      let '(mg, mn, lg, ln) := analyze c in
      if decide (mn < ln + 2) then Some c
      else balance fuel (set_Shards c (move1 mg lg (Shards c)))
  end.

(** The sum of the squares of the counts is at most [NShards * NShards] and goes
    down with every move. *)
Definition balance_fuel : nat := NShards * NShards + 1.

Definition Rebalance (c : ShardConfig) : option ShardConfig :=
  if decide (size (Groups c) = 0%nat)
  then Some (set_Shards c (replicate (length (Shards c)) 0))
  else balance balance_fuel (foldl assign c (seq 0 NShards)).

(** The result of an operation that reports whether it changed the configuration;
    [None] is [log.Fatalf]. The configuration is modified in place even when the
    answer is false. *)
Definition op_result := option (bool * ShardConfig).

Definition shares_server (servers : list string) (groups : gmap Z (list string)) : bool :=
  existsb (fun '(_, xservers) => existsb (fun s1 => existsb (String.eqb s1) servers) xservers)
    (map_to_list groups).

(** The entries of the argument map, in the order Go visits them. *)
Fixpoint join_loop (cfg : ShardConfig) (changed : bool) (servers : list (Z * list string)) : op_result :=
  match servers with
  | [] => if changed then Some (true, mkCfg (Num cfg + 1) (Shards cfg) (Groups cfg)) else None
  | (gid, srvs) :: servers =>
      match Groups cfg !! gid with
      | Some _ => Some (false, cfg)
      | None =>
          if shares_server srvs (Groups cfg) then None
          else join_loop (mkCfg (Num cfg) (Shards cfg) (<[gid := srvs]> (Groups cfg))) true servers
      end
  end.

Definition Join (cfg : ShardConfig) (servers : list (Z * list string)) : op_result := join_loop cfg false servers.

Fixpoint leave_loop (cfg : ShardConfig) (changed : bool) (gids : list Z) : op_result :=
  match gids with
  | [] => if changed then Some (true, mkCfg (Num cfg + 1) (Shards cfg) (Groups cfg)) else None
  | gid :: gids =>
      match Groups cfg !! gid with
      | None => Some (false, cfg)
      | Some _ => leave_loop (mkCfg (Num cfg) (Shards cfg) (delete gid (Groups cfg))) true gids
      end
  end.

Definition Leave (cfg : ShardConfig) (gids : list Z) : op_result := leave_loop cfg false gids.

Definition JoinBalance (cfg : ShardConfig) (servers : list (Z * list string)) : op_result :=
  '(ok, cfg) ← Join cfg servers;
  if ok : bool then cfg ← Rebalance cfg; Some (true, cfg) else Some (false, cfg).

Definition LeaveBalance (cfg : ShardConfig) (gids : list Z) : op_result :=
  '(ok, cfg) ← Leave cfg gids;
  if ok : bool then cfg ← Rebalance cfg; Some (true, cfg) else Some (false, cfg).

Definition GidServers (cfg : ShardConfig) (sh : nat) : option (Z * list string * bool) :=
  gid ← Shards cfg !! sh;
  Some (match Groups cfg !! gid with Some srvs => (gid, srvs, true) | None => (gid, [], false) end).

Definition IsMember (cfg : ShardConfig) (gid : Z) : bool := existsb (Z.eqb gid) (Shards cfg).

(** The largest and the smallest number of shards of a group. *)
Definition max_min (cfg : ShardConfig) : Z * Z :=
  foldl (fun '(mx, mn) g => (Z.max mx (count g (Shards cfg)), Z.min mn (count g (Shards cfg)))) (0, 257)
    (elements (dom (Groups cfg))).

(** Whether [CheckConfig] accepts the configuration for these groups. *)
Definition CheckConfig (cfg : ShardConfig) (groups : list Z) : bool :=
  bool_decide (size (Groups cfg) = length groups) &&
  forallb (fun g => bool_decide (is_Some (Groups cfg !! g))) groups &&
  (bool_decide (groups = []) || forallb (fun g => bool_decide (is_Some (Groups cfg !! g))) (Shards cfg)) &&
  (let '(mx, mn) := max_min cfg in bool_decide (mx <= mn + 1)).

(** An array of [NShards] elements. *)
Definition cfg_wf (c : ShardConfig) : Prop := length (Shards c) = NShards.

Example rebalance_example :
  (Shards <$> Rebalance (mkCfg 1 (replicate NShards 1) {[1 := ["s1"]; 2 := ["s2"]; 5 := ["s5"]]})) =
  Some [2; 5; 2; 5; 2; 5; 2; 5; 1; 1; 1; 1].
Proof. vm_compute. reflexivity. Qed.

(** ** Counting *)

Definition ind (b : bool) : Z := if b then 1 else 0.

Lemma count_cons g x l : count g (x :: l) = ind (bool_decide (x = g)) + count g l.
Proof. unfold count. rewrite filter_cons. case_bool_decide; simpl; [by rewrite decide_True, zlen_cons|by rewrite decide_False]. Qed.

Lemma count_bound g l : 0 <= count g l <= zlen l.
Proof.
  induction l as [|x l IH]; [done|]. rewrite count_cons, zlen_cons. unfold ind. case_bool_decide; lia.
Qed.

Lemma count_pos g l : 0 < count g l -> g ∈ l.
Proof.
  induction l as [|x l IH]; [by unfold count|]. rewrite count_cons. unfold ind.
  case_bool_decide; [subst; intros _; apply list_elem_of_here|]. intros H1. apply list_elem_of_further, IH. lia.
Qed.

Lemma move1_length mg lg l : length (move1 mg lg l) = length l.
Proof. induction l as [|x l IH]; simpl; [done|]. dcase; simpl; auto. Qed.

Lemma move1_count mg lg l g :
  mg ∈ l -> count g (move1 mg lg l) = count g l - ind (bool_decide (g = mg)) + ind (bool_decide (g = lg)).
Proof.
  induction l as [|x l IH]; [by intros ?%elem_of_nil|]. simpl. intros Hin. dcase.
  - subst x. rewrite !count_cons. unfold ind. repeat case_bool_decide; subst; try done; lia.
  - rewrite !count_cons, IH; [lia|]. apply elem_of_cons in Hin as [?|?]; congruence.
Qed.

Lemma move1_in mg lg l g : g ∈ move1 mg lg l -> g = lg \/ g ∈ l.
Proof.
  induction l as [|x l IH]; simpl; [auto|]. dcase.
  - intros [->|?]%elem_of_cons; [by left|]. right. by apply list_elem_of_further.
  - intros [->|Hg]%elem_of_cons; [right; apply list_elem_of_here|].
    destruct (IH Hg); [by left|]. right. by apply list_elem_of_further.
Qed.

(** Sums over the groups. *)
Definition sumf (f : Z -> Z) (gs : list Z) : Z := foldr (fun g acc => f g + acc) 0 gs.

Lemma sumf_nonneg f gs : (forall g, 0 <= f g) -> 0 <= sumf f gs.
Proof. intros Hf. induction gs as [|g gs IH]; simpl; [lia|]. pose proof (Hf g). lia. Qed.

Lemma sumf_le f f' gs : (forall g, f g <= f' g) -> sumf f gs <= sumf f' gs.
Proof. intros Hf. induction gs as [|g gs IH]; simpl; [lia|]. pose proof (Hf g). lia. Qed.

Lemma sumf_scale k f gs : sumf (fun g => k * f g) gs = k * sumf f gs.
Proof. induction gs as [|g gs IH]; simpl; lia. Qed.

(** Changing a summand at one point. *)
Lemma sumf_point f f' g0 d gs :
  NoDup gs -> (forall g, f' g = f g + d * ind (bool_decide (g = g0))) ->
  sumf f' gs = sumf f gs + d * ind (bool_decide (g0 ∈ gs)).
Proof.
  intros Hnd Hf. induction Hnd as [|g gs Hg _ IH]; simpl; [unfold ind; lia|]. rewrite Hf, IH. unfold ind.
  destruct (decide (g = g0)) as [->|Hne].
  - rewrite (bool_decide_eq_true_2 (g0 = g0)) by done. rewrite (bool_decide_eq_false_2 (g0 ∈ gs)) by done.
    rewrite (bool_decide_eq_true_2 (g0 ∈ g0 :: gs)) by apply list_elem_of_here. lia.
  - rewrite (bool_decide_eq_false_2 (g = g0)) by done. repeat case_bool_decide; try lia; exfalso;
      [match goal with H : ~ _ |- _ => apply H end; by apply list_elem_of_further|].
    match goal with H : g0 ∈ g :: gs |- _ => apply elem_of_cons in H as [?|?] end; congruence.
Qed.

Definition squares (shards gs : list Z) : Z := sumf (fun g => count g shards * count g shards) gs.

Lemma squares_move mg lg shards gs :
  NoDup gs -> mg ∈ gs -> lg ∈ gs -> mg <> lg -> mg ∈ shards ->
  squares (move1 mg lg shards) gs = squares shards gs - 2 * (count mg shards - count lg shards - 1).
Proof.
  intros Hnd Hm Hl Hne Hin. unfold squares.
  set (f1 := fun g => count g shards * count g shards + (1 - 2 * count mg shards) * ind (bool_decide (g = mg))).
  rewrite (sumf_point f1 _ lg (2 * count lg shards + 1) gs Hnd).
  - rewrite (sumf_point (fun g => count g shards * count g shards) f1 mg (1 - 2 * count mg shards) gs Hnd) by done.
    rewrite !bool_decide_eq_true_2 by done. unfold ind. lia.
  - intros g. unfold f1. rewrite (move1_count _ _ _ _ Hin). unfold ind. repeat case_bool_decide; subst; try done; lia.
Qed.

Lemma sumf_count shards gs : NoDup gs -> sumf (fun g => count g shards) gs <= zlen shards.
Proof.
  intros Hnd. induction shards as [|x l IH].
  - assert (E : sumf (fun g => count g []) gs = 0)
      by (clear Hnd; induction gs as [|g gs IH]; simpl; [done|by rewrite IH]).
    by rewrite E.
  - rewrite zlen_cons. rewrite (sumf_point (fun g => count g l) _ x 1 gs Hnd).
    + unfold ind. case_bool_decide; lia.
    + intros g. rewrite count_cons. unfold ind. repeat case_bool_decide; subst; try done; lia.
Qed.

Lemma squares_bound shards gs : NoDup gs -> 0 <= squares shards gs <= zlen shards * zlen shards.
Proof.
  intros Hnd. split; [apply sumf_nonneg; intros g; apply Z.square_nonneg|].
  etrans; [|apply Z.mul_le_mono_nonneg_l; [apply zlen_nonneg|apply (sumf_count shards gs Hnd)]].
  rewrite <- sumf_scale. apply sumf_le. intros g. pose proof (count_bound g shards).
  apply Z.mul_le_mono_nonneg_r; lia.
Qed.

(** ** analyze *)

Lemma analyze_fold shards gs :
  zlen shards < 257 ->
  let '(mg, mn, lg, ln) := foldl (analyze_step shards) (-1, -1, -1, 257) gs in
  (gs = [] /\ mn = -1 /\ ln = 257 \/
   mg ∈ gs /\ mn = count mg shards /\ lg ∈ gs /\ ln = count lg shards) /\
  forall g, g ∈ gs -> ln <= count g shards <= mn.
Proof.
  intros Hl. induction gs as [|g gs IH] using rev_ind.
  { simpl. split; [auto|]. by intros g ?%elem_of_nil. }
  rewrite foldl_app. simpl. destruct (foldl _ _ gs) as [[[mg mn] lg] ln]. destruct IH as [Hc Hall].
  pose proof (count_bound g shards). unfold analyze_step.
  assert (Hg : g ∈ gs ++ [g]) by (apply elem_of_app; right; apply list_elem_of_here).
  assert (Hin : forall x, x ∈ gs -> x ∈ gs ++ [g]) by (intros x Hx; apply elem_of_app; by left).
  destruct (decide (count g shards < ln)), (decide (mn < count g shards));
    (split; [right; destruct Hc as [(-> & -> & ->)|(? & ? & ? & ?)]; split_and!; auto; try lia|]);
    intros x [Hx|Hx%list_elem_of_singleton]%elem_of_app; try (specialize (Hall _ Hx)); subst; lia.
Qed.

Lemma sorted_gids_elem c g : g ∈ sorted_gids c <-> is_Some (Groups c !! g).
Proof. unfold sorted_gids. rewrite merge_sort_Permutation, elem_of_elements. apply elem_of_dom. Qed.

Lemma sorted_gids_nodup c : NoDup (sorted_gids c).
Proof. unfold sorted_gids. rewrite merge_sort_Permutation. apply NoDup_elements. Qed.

Lemma analyze_spec c :
  cfg_wf c -> size (Groups c) <> 0%nat ->
  let '(mg, mn, lg, ln) := analyze c in
  is_Some (Groups c !! mg) /\ mn = count mg (Shards c) /\
  is_Some (Groups c !! lg) /\ ln = count lg (Shards c) /\
  forall g, is_Some (Groups c !! g) -> ln <= count g (Shards c) <= mn.
Proof.
  intros Hwf Hne. assert (Hl : zlen (Shards c) < 257) by (unfold zlen; by rewrite Hwf).
  pose proof (analyze_fold (Shards c) (sorted_gids c) Hl) as Hf. unfold analyze.
  destruct (foldl _ _ (sorted_gids c)) as [[[mg mn] lg] ln]. destruct Hf as [Hc Hall].
  destruct Hc as [(E & _)|(Hmg & -> & Hlg & ->)].
  - exfalso. apply Hne. destruct (size (Groups c)) eqn:Es; [done|].
    assert (Hg : Groups c <> ∅) by (intros H0; by rewrite H0, map_size_empty in Es).
    apply map_choose in Hg as (g & v & Hg). assert (Hin : g ∈ sorted_gids c) by (apply sorted_gids_elem; eauto).
    rewrite E in Hin. by apply elem_of_nil in Hin.
  - rewrite sorted_gids_elem in Hmg, Hlg. split_and!; auto. intros g Hg. apply Hall. by apply sorted_gids_elem.
Qed.

(** ** Rebalance *)

Definition assigned (c : ShardConfig) : Prop := forall g, g ∈ Shards c -> is_Some (Groups c !! g).

Definition balanced (c : ShardConfig) : Prop :=
  forall g g', is_Some (Groups c !! g) -> is_Some (Groups c !! g') ->
  count g (Shards c) <= count g' (Shards c) + 1.

Lemma least_member c : cfg_wf c -> size (Groups c) <> 0%nat -> is_Some (Groups c !! least c).
Proof.
  intros Hwf Hne. pose proof (analyze_spec c Hwf Hne) as Ha. unfold least.
  destruct (analyze c) as [[[mg mn] lg] ln]. by destruct Ha as (_ & _ & ? & _).
Qed.

Lemma assign_pass c n :
  cfg_wf c -> size (Groups c) <> 0%nat -> (n <= NShards)%nat ->
  let c' := foldl assign c (seq 0 n) in
  Num c' = Num c /\ Groups c' = Groups c /\ cfg_wf c' /\
  forall i g, (i < n)%nat -> Shards c' !! i = Some g -> is_Some (Groups c !! g).
Proof.
  intros Hwf Hne. induction n as [|n IH]; intros Hn; [split_and!; auto; intros; lia|].
  rewrite seq_S, foldl_app. cbn [foldl]. destruct (IH ltac:(lia)) as (E1 & E2 & Hwf' & Hall).
  set (c1 := foldl assign c (seq 0 n)) in *. simpl. unfold assign.
  destruct (Shards c1 !! n) as [g0|] eqn:Eg; [|exfalso; apply lookup_ge_None in Eg; rewrite Hwf' in Eg; lia].
  destruct (Groups c1 !! g0) eqn:Eo.
  - split_and!; auto. intros i g Hi Hg. destruct (decide (i = n)) as [->|]; [|apply (Hall i); [lia|done]].
    rewrite Hg in Eg. simplify_eq. rewrite <- E2. eauto.
  - unfold set_Shards, cfg_wf. simpl. rewrite length_insert. split_and!; auto.
    intros i g Hi Hg. destruct (decide (i = n)) as [->|].
    + rewrite list_lookup_insert_eq in Hg by (rewrite Hwf'; lia). simplify_eq. rewrite <- E2.
      apply least_member; [done|by rewrite E2].
    + rewrite list_lookup_insert_ne in Hg by done. apply (Hall i); [lia|done].
Qed.

Lemma balance_total fuel c :
  cfg_wf c -> size (Groups c) <> 0%nat -> assigned c ->
  squares (Shards c) (sorted_gids c) < Z.of_nat fuel ->
  exists c', balance fuel c = Some c' /\ Num c' = Num c /\ Groups c' = Groups c /\ cfg_wf c' /\
    assigned c' /\ balanced c'.
Proof.
  revert c. induction fuel as [|fuel IH]; intros c Hwf Hne Has Hsq.
  { pose proof (squares_bound (Shards c) _ (sorted_gids_nodup c)). lia. }
  simpl. pose proof (analyze_spec c Hwf Hne) as Ha. destruct (analyze c) as [[[mg mn] lg] ln].
  destruct Ha as (Hmg & -> & Hlg & -> & Hall). dcase.
  - exists c. split_and!; auto. intros g g' Hg Hg'. pose proof (Hall g Hg). pose proof (Hall g' Hg'). lia.
  - assert (Hneq : mg <> lg) by (intros ->; lia).
    assert (Hin : mg ∈ Shards c) by (apply count_pos; pose proof (count_bound lg (Shards c)); lia).
    destruct (IH (set_Shards c (move1 mg lg (Shards c)))) as (c' & ? & ? & ? & ? & ? & ?).
    + unfold cfg_wf. simpl. by rewrite move1_length.
    + done.
    + intros g [->|Hg]%move1_in; [done|by apply Has].
    + simpl. change (sorted_gids (set_Shards c (move1 mg lg (Shards c)))) with (sorted_gids c).
      rewrite squares_move; [lia|apply sorted_gids_nodup|by apply sorted_gids_elem..|done|done].
    + exists c'. split_and!; auto.
Qed.

Lemma rebalance_spec c :
  cfg_wf c -> size (Groups c) <> 0%nat ->
  exists c', Rebalance c = Some c' /\ Num c' = Num c /\ Groups c' = Groups c /\ cfg_wf c' /\
    assigned c' /\ balanced c'.
Proof.
  intros Hwf Hne. unfold Rebalance. rewrite decide_False by done.
  pose proof (assign_pass c NShards Hwf Hne (le_n _)) as Hp. revert Hp. cbv zeta.
  generalize (foldl assign c (seq 0 NShards)) as c1. intros c1 (E1 & E2 & Hwf' & Hall).
  rewrite <- E1, <- E2. apply balance_total; [done|by rewrite E2| |].
  - intros g [i Hi]%list_elem_of_lookup. rewrite E2. apply (Hall i); [|done].
    apply lookup_lt_Some in Hi. by rewrite Hwf' in Hi.
  - pose proof (squares_bound (Shards c1) _ (sorted_gids_nodup c1)) as Hs.
    assert (Hz : zlen (Shards c1) = 12) by (unfold zlen; by rewrite Hwf').
    rewrite Hz in Hs. change (Z.of_nat balance_fuel) with 145. lia.
Qed.

(** C29: [Rebalance] terminates and balances.  For any assignment of the shards
    and any non-empty set of groups, the loop ends within the fuel, changes
    neither the number nor the groups, leaves every shard with an existing group,
    and no group has two shards more than another. *)
Theorem Rebalance_balances c :
  cfg_wf c -> size (Groups c) <> 0%nat ->
  exists c', Rebalance c = Some c' /\ Num c' = Num c /\ Groups c' = Groups c /\ cfg_wf c' /\
    assigned c' /\ balanced c'.
Proof. apply rebalance_spec. Qed.

Definition cfg3 : ShardConfig := mkCfg 1 (replicate NShards 1) {[1 := ["s1"]; 2 := ["s2"]; 5 := ["s5"]]}.

Lemma Rebalance_balances_witness :
  exists c', Rebalance cfg3 = Some c' /\ Num c' = 1 /\ balanced c'.
Proof.
  destruct (Rebalance_balances cfg3) as (c' & H1 & H2 & _ & _ & _ & H3).
  - vm_compute. reflexivity.
  - vm_compute. discriminate.
  - exists c'. split; [exact H1|]. split; [exact H2|exact H3].
Defined.

(** ** Join and Leave *)

Lemma max_min_spec c gs :
  let '(mx, mn) := foldl (fun '(mx, mn) g => (Z.max mx (count g (Shards c)), Z.min mn (count g (Shards c)))) (0, 257) gs in
  (mx = 0 \/ exists g, g ∈ gs /\ mx = count g (Shards c)) /\
  (mn = 257 \/ exists g, g ∈ gs /\ mn = count g (Shards c)).
Proof.
  induction gs as [|g gs IH] using rev_ind; [simpl; auto|].
  rewrite foldl_app. simpl. destruct (foldl _ _ gs) as [mx mn]. destruct IH as [H1 H2].
  assert (Hin : forall x, x ∈ gs -> x ∈ gs ++ [g]) by (intros x Hx; apply elem_of_app; by left).
  assert (Hg : g ∈ gs ++ [g]) by (apply elem_of_app; right; apply list_elem_of_here).
  split.
  - destruct (Z.max_spec mx (count g (Shards c))) as [[_ ->]|[_ ->]]; [eauto|].
    destruct H1 as [?|(x & ? & ?)]; eauto.
  - destruct (Z.min_spec mn (count g (Shards c))) as [[_ ->]|[_ ->]]; [|eauto].
    destruct H2 as [?|(x & ? & ?)]; eauto.
Qed.

Lemma check_balanced c : cfg_wf c -> assigned c -> balanced c -> CheckConfig c (elements (dom (Groups c))) = true.
Proof.
  intros Hwf Has Hb. unfold CheckConfig. rewrite !andb_true_iff. split_and!.
  - apply bool_decide_eq_true_2. by rewrite <- size_dom.
  - apply forallb_forall. intros g Hg%list_elem_of_In%elem_of_elements%elem_of_dom. by apply bool_decide_eq_true_2.
  - apply orb_true_iff. right. apply forallb_forall. intros g Hg%list_elem_of_In. by apply bool_decide_eq_true_2, Has.
  - unfold max_min. pose proof (max_min_spec c (elements (dom (Groups c)))) as Hm.
    destruct (foldl _ _ _) as [mx mn]. apply bool_decide_eq_true_2.
    assert (Hd : forall g, g ∈ elements (dom (Groups c)) -> is_Some (Groups c !! g))
      by (intros g Hg%elem_of_elements; by apply elem_of_dom).
    assert (Hlen : forall g, 0 <= count g (Shards c) <= 12).
    { intros g. pose proof (count_bound g (Shards c)) as Hc. unfold zlen in Hc. by rewrite Hwf in Hc. }
    destruct Hm as [[->|(g & Hg & ->)] [->|(g' & Hg' & ->)]]; try lia.
    + pose proof (Hlen g'). lia.
    + pose proof (Hlen g). lia.
    + apply Hb; auto.
Qed.

Lemma rebalance_checks c :
  cfg_wf c -> exists c', Rebalance c = Some c' /\ Num c' = Num c /\ Groups c' = Groups c /\ cfg_wf c' /\
    CheckConfig c' (elements (dom (Groups c'))) = true.
Proof.
  intros Hwf. destruct (decide (size (Groups c) = 0%nat)) as [E|Hne].
  - unfold Rebalance. rewrite decide_True by done. eexists. split; [done|]. split_and!; try done.
    + unfold cfg_wf. simpl. by rewrite length_replicate.
    + apply map_size_empty_inv in E. unfold CheckConfig, max_min. cbn [Groups set_Shards].
      by rewrite E, dom_empty_L, elements_empty.
  - destruct (rebalance_spec c Hwf Hne) as (c' & ? & ? & ? & ? & ? & ?). exists c'. split_and!; auto.
    by apply check_balanced.
Qed.

Lemma join_loop_groups cfg ch servers ok c' :
  join_loop cfg ch servers = Some (ok, c') -> Shards c' = Shards cfg /\
  (ok = true -> Num c' = Num cfg + 1 /\ Groups c' = list_to_map (reverse servers) ∪ Groups cfg).
Proof.
  revert cfg ch. induction servers as [|[gid srvs] servers IH]; intros cfg ch; simpl.
  { destruct ch; [|done]. intros [= <- <-]. simpl. split; [done|]. intros _. split; [done|]. cbn. by rewrite (left_id_L ∅ (∪)). }
  destruct (Groups cfg !! gid) eqn:E; [by intros [= <- <-]|]. destruct (shares_server _ _); [done|].
  intros H. destruct (IH _ _ H) as [H1 H2]. split; [done|]. intros Hok. destruct (H2 Hok) as [H3 H4].
  split; [done|]. rewrite H4. simpl. rewrite reverse_cons, list_to_map_app. simpl.
  rewrite <- (assoc_L (∪)). f_equal. by rewrite <- insert_union_l, (left_id_L ∅ (∪)).
Qed.

Lemma leave_loop_groups cfg ch gids ok c' :
  leave_loop cfg ch gids = Some (ok, c') -> Shards c' = Shards cfg /\
  (ok = true -> Num c' = Num cfg + 1 /\ Groups c' = foldl (fun m g => delete g m) (Groups cfg) gids).
Proof.
  revert cfg ch. induction gids as [|gid gids IH]; intros cfg ch; simpl.
  { destruct ch; [|done]. by intros [= <- <-]. }
  destruct (Groups cfg !! gid) eqn:E; [|by intros [= <- <-]].
  intros H. by destruct (IH _ _ H).
Qed.

(** Joining and leaving keep the configuration sound.  Whenever [Join] (or
    [Leave]) accepts its argument, [JoinBalance] ([LeaveBalance]) returns, the
    number is one higher, the groups are the old ones with the new ones added
    (without those that left), and the configuration passes [CheckConfig]. *)
Theorem join_leave_balance cfg servers gids c1 :
  cfg_wf cfg ->
  (Join cfg servers = Some (true, c1) -> exists c',
     JoinBalance cfg servers = Some (true, c') /\ Num c' = Num cfg + 1 /\
     Groups c' = list_to_map (reverse servers) ∪ Groups cfg /\ cfg_wf c' /\
     CheckConfig c' (elements (dom (Groups c'))) = true) /\
  (Leave cfg gids = Some (true, c1) -> exists c',
     LeaveBalance cfg gids = Some (true, c') /\ Num c' = Num cfg + 1 /\
     Groups c' = foldl (fun m g => delete g m) (Groups cfg) gids /\ cfg_wf c' /\
     CheckConfig c' (elements (dom (Groups c'))) = true).
Proof.
  intros Hwf. split; intros H.
  - unfold JoinBalance. rewrite H. simpl. destruct (join_loop_groups _ _ _ _ _ H) as [E1 E2].
    destruct (E2 eq_refl) as [E3 E4]. destruct (rebalance_checks c1) as (c' & -> & ? & ? & ? & ?); [unfold cfg_wf; congruence|].
    exists c'. simpl. split_and!; auto; congruence.
  - unfold LeaveBalance. rewrite H. simpl. destruct (leave_loop_groups _ _ _ _ _ H) as [E1 E2].
    destruct (E2 eq_refl) as [E3 E4]. destruct (rebalance_checks c1) as (c' & -> & ? & ? & ? & ?); [unfold cfg_wf; congruence|].
    exists c'. simpl. split_and!; auto; congruence.
Qed.

Lemma join_leave_balance_witness :
  exists c', JoinBalance cfg3 [(7, ["s7"]); (9, ["s9"])] = Some (true, c') /\ Num c' = 2 /\
    CheckConfig c' (elements (dom (Groups c'))) = true.
Proof.
  destruct (join_leave_balance cfg3 [(7, ["s7"]); (9, ["s9"])] [] (mkCfg 2 (Shards cfg3)
    (<[9 := ["s9"]]> (<[7 := ["s7"]]> (Groups cfg3))))) as [H _]; [vm_compute; reflexivity|].
  destruct H as (c' & H1 & H2 & _ & _ & H3); [vm_compute; reflexivity|].
  exists c'. split; [exact H1|]. split; [exact H2|exact H3].
Defined.

(** A refused [Join] still changes the configuration.  When one of several
    groups is already a member, the groups visited before it have been added,
    with an unchanged configuration number: the groups of the configuration then
    depend on the iteration order of a Go map. *)
Theorem refused_join_is_partial :
  (fun '(ok, c) => (ok, Num c, bool_decide (is_Some (Groups c !! 7)))) <$> Join cfg3 [(7, ["s7"]); (2, ["t2"])]
    = Some (false, 1, true) /\
  (fun '(ok, c) => (ok, Num c, bool_decide (is_Some (Groups c !! 7)))) <$> Join cfg3 [(2, ["t2"]); (7, ["s7"])]
    = Some (false, 1, false).
Proof. split; vm_compute; reflexivity. Qed.
