(* ===== verification/ShardTest.v ===== *)
(** * The steps of the sharding tests

    [shardkv1/test.go]: how the tests make groups and configurations ([newGid],
    [groups], [setupKVService], [join], [leave], [checkMember]).

    The tests decide from [IsMember], which looks for the group among the owners of
    shards, whether a controller has been deposed.  The theorems say when that is
    right: as long as there are no more groups than shards. *)

From S2P Require Import Prelude ShardCfg.

(** ** The code *)

Definition newGid (ngid : Z) : Z * Z := (ngid, ngid + 1).

(** The tests start with the one after [Gid1]. *)
Fixpoint groups (n : nat) (ngid : Z) : list Z * Z :=
  match n with
  | O => ([], ngid)
  | S n => let '(gid, ngid) := newGid ngid in let '(grps, ngid) := groups n ngid in (gid :: grps, ngid)
  end.

(** The configuration that [setupKVService] gives to [InitConfig]. *)
Definition setupKVService (srvs : list string) : op_result := JoinBalance MakeShardConfig [(Gid1, srvs)].

(** [join] and [leave], from what [Query] returns to what [ChangeConfigTo] is given;
    [None] is [log.Fatalf]. *)
Definition join (cfg : ShardConfig) (gid : Z) (srvs : list string) : option ShardConfig :=
  '(ok, newcfg) ← JoinBalance (Copy cfg) [(gid, srvs)]; if ok : bool then Some newcfg else None.

Definition leave (cfg : ShardConfig) (gid : Z) : option ShardConfig :=
  '(ok, newcfg) ← LeaveBalance (Copy cfg) [gid]; if ok : bool then Some newcfg else None.

Definition checkMember (cfg : ShardConfig) (gid : Z) : bool := IsMember cfg gid.

(** ** Identities are fresh *)

Lemma groups_spec n ngid : groups n ngid = ((fun i => ngid + Z.of_nat i) <$> seq 0 n, ngid + Z.of_nat n).
Proof.
  revert ngid. induction n as [|n IH]; intros ngid; [simpl; f_equal; lia|]. cbn [groups newGid]. rewrite IH. f_equal; [|lia].
  rewrite <- cons_seq, fmap_cons, <- fmap_S_seq, <- list_fmap_compose. f_equal; [lia|]. apply list_fmap_ext. intros i x _. simpl. lia.
Qed.

(** New identities are distinct from each other and from all given out before. *)
Lemma groups_fresh n ngid : NoDup (fst (groups n ngid)) /\ forall g, g ∈ fst (groups n ngid) -> ngid <= g < snd (groups n ngid).
Proof.
  rewrite groups_spec. simpl. split; [apply NoDup_fmap_2; [intros i j; lia|apply NoDup_seq]|].
  intros g (i & -> & Hi%elem_of_seq)%list_elem_of_fmap. lia.
Qed.

(** ** Membership *)

Lemma count_member g (l : list Z) : g ∈ l -> 1 <= count g l.
Proof.
  intros Hg. unfold count, zlen. assert (Hin : g ∈ filter (fun g' => g' = g) l) by (by apply list_elem_of_filter).
  destruct (filter _ l); [by apply not_elem_of_nil in Hin|simpl; lia].
Qed.

Lemma count_zero g (l : list Z) : g ∉ l -> count g l = 0.
Proof.
  intros Hg. unfold count. replace (filter _ l) with (@nil Z); [done|]. symmetry. apply elem_of_nil_inv. intros x Hx.
  by apply list_elem_of_filter in Hx as [-> ?].
Qed.

Lemma count_NoDup (l : list Z) : (forall g, count g l <= 1) -> NoDup l.
Proof.
  induction l as [|x l IH]; intros H; [constructor|]. apply NoDup_cons. split.
  - intros Hx%count_member. specialize (H x). unfold count, zlen in *. rewrite filter_cons, decide_True in H by done. simpl in H. lia.
  - apply IH. intros g. specialize (H g). unfold count, zlen in *. rewrite filter_cons in H. case_decide; simpl in H; lia.
Qed.

Lemma IsMember_spec c g : IsMember c g = true <-> g ∈ Shards c.
Proof.
  unfold IsMember. rewrite existsb_exists. setoid_rewrite <- list_elem_of_In. split; [|intros Hg; exists g; split; [done|apply Z.eqb_refl]].
  intros (x & Hx & ->%Z.eqb_eq). done.
Qed.

(** With no more groups than shards, every group of a balanced configuration has a
    shard. *)
Lemma balanced_member c g : cfg_wf c -> assigned c -> balanced c -> (size (Groups c) <= NShards)%nat -> is_Some (Groups c !! g) -> g ∈ Shards c.
Proof.
  intros Hwf Has Hb Hsz Hg. destruct (decide (g ∈ Shards c)) as [|Hno]; [done|exfalso].
  assert (Hnd : NoDup (Shards c)).
  { apply count_NoDup. intros g'. destruct (decide (g' ∈ Shards c)) as [Hin|Hout]; [|rewrite count_zero; [lia|done]].
    specialize (Hb g' g (Has g' Hin) Hg). rewrite (count_zero g) in Hb by done. lia. }
  assert (Hsub : Shards c ⊆+ elements (dom (Groups c) ∖ {[g]})).
  { apply NoDup_submseteq; [done|]. intros x Hx. apply elem_of_elements, elem_of_difference. split; [by apply elem_of_dom, Has|].
    intros ->%elem_of_singleton. done. }
  apply submseteq_length in Hsub. rewrite Hwf in Hsub. change (length (elements (dom (Groups c) ∖ {[g]}))) with (size (dom (Groups c) ∖ {[g]})) in Hsub.
  rewrite size_difference, size_dom, size_singleton in Hsub; [|by apply singleton_subseteq_l, elem_of_dom]. unfold NShards in *. lia.
Qed.

(** A new group joins: the configuration it leads to is one higher, balanced, and
    the group has a shard in it, so that the test sees it as a member, as long as
    there are no more groups than shards. *)
Theorem join_member cfg gid srvs :
  cfg_wf cfg -> Groups cfg !! gid = None -> shares_server srvs (Groups cfg) = false -> (size (Groups cfg) < NShards)%nat ->
  exists c, join cfg gid srvs = Some c /\ Num c = Num cfg + 1 /\ Groups c = <[gid := srvs]> (Groups cfg) /\ cfg_wf c /\ assigned c /\ balanced c /\
    checkMember c gid = true.
Proof.
  intros Hwf Hg Hs Hsz. unfold join, JoinBalance, Join, Copy. simpl. rewrite Hg, Hs. simpl.
  set (c1 := mkCfg (Num cfg + 1) (Shards cfg) (<[gid := srvs]> (Groups cfg))).
  destruct (rebalance_spec c1) as (c & -> & HN & HG & Hwf' & Has & Hb); [done|simpl; by rewrite map_size_insert_None|].
  simpl. exists c. split_and!; try done. apply IsMember_spec, balanced_member; try done; rewrite HG; simpl.
  - rewrite map_size_insert_None by done. lia.
  - by rewrite lookup_insert_eq.
Qed.

(** A group leaves, others remain: it has no shard any more. *)
Theorem leave_member cfg gid :
  cfg_wf cfg -> is_Some (Groups cfg !! gid) -> (1 < size (Groups cfg))%nat ->
  exists c, leave cfg gid = Some c /\ Num c = Num cfg + 1 /\ Groups c = delete gid (Groups cfg) /\ cfg_wf c /\ assigned c /\ balanced c /\
    checkMember c gid = false.
Proof.
  intros Hwf [srvs Hg] Hsz. unfold leave, LeaveBalance, Leave, Copy. simpl. rewrite Hg. simpl.
  set (c1 := mkCfg (Num cfg + 1) (Shards cfg) (delete gid (Groups cfg))).
  assert (Hne : size (Groups c1) <> 0%nat) by (simpl; rewrite map_size_delete, Hg; lia).
  destruct (rebalance_spec c1 Hwf Hne) as (c & -> & HN & HG & Hwf' & Has & Hb). simpl. exists c. split_and!; try done.
  apply not_true_iff_false. intros Hm%IsMember_spec%Has. rewrite HG in Hm. simpl in Hm. rewrite lookup_delete_eq in Hm. by destruct Hm.
Qed.

(** The first configuration: the group [Gid1] owns every shard. *)
Theorem setup_owns_all srvs : exists c, setupKVService srvs = Some (true, c) /\ Num c = NumFirst /\
  Shards c = replicate NShards Gid1 /\ Groups c = {[Gid1 := srvs]}.
Proof.
  unfold setupKVService, JoinBalance, Join. simpl. rewrite lookup_empty.
  assert (Hs : shares_server srvs ∅ = false) by done. rewrite Hs. simpl.
  match goal with |- context [Rebalance ?c] => set (c1 := c) end.
  destruct (rebalance_spec c1) as (c & -> & HN & HG & Hwf & Has & _); [done|simpl; by rewrite map_size_insert_None|].
  simpl. exists c. split_and!; try done. symmetry. apply (replicate_as_elem_of Gid1 NShards). split; [done|]. intros g Hg%Has. rewrite HG in Hg. simpl in Hg.
  destruct (decide (g = Gid1)) as [|Hne]; [done|]. rewrite lookup_insert_ne, lookup_empty in Hg by done. by destruct Hg.
Qed.

(** With a thirteenth group the test takes a controller that has just added it for
    one that has been deposed. *)
Definition twelve : ShardConfig :=
  mkCfg 1 (Z.of_nat <$> seq 1 12) (list_to_map ((fun i => (Z.of_nat i, ["s" +:+ pretty.pretty i])) <$> seq 1 12)).

Theorem thirteenth_not_member : exists c, join twelve 13 ["s13"] = Some c /\ checkMember c 13 = false.
Proof. eexists. split; [vm_compute; reflexivity|vm_compute; reflexivity]. Qed.
