(* ===== verification/ShardGrp.v ===== *)
(** * A shard group's server

    [shardkv1/shardgrp/server.go] and [shardrpc]: the state machine a shard group
    replicates.  Besides [Get] and [Put] it freezes, installs and deletes shards;
    each shard carries the number of the last configuration that moved it, which
    makes the migration steps idempotent.  A server is seen shard by shard: the
    [view] of a shard is its state, that number and its keys, and every operation
    touches one view only. *)

From S2P Require Import Prelude Gob Kv Rsm Service ShardCfg.

Inductive ShardState := NotOwned | Ready | Frozen.

#[export] Instance ShardState_eq_dec : EqDecision ShardState.
Proof. solve_decision. Defined.

Record KVServer := mkKV {
  kvMap : KvMap;
  shardState : list ShardState;   (* arrays of [NShards] *)
  cfgNum : list Z
}.

(** The requests and replies of [shardrpc]; a nil [State] is empty. *)
Record FreezeShardArgs := mkFreeze { fz_Shard : nat; fz_Num : Z }.
Record FreezeShardReply := mkFreezeR { fzr_State : list byte; fzr_Num : Z; fzr_Err : Err }.
Record InstallShardArgs := mkInstall { in_Shard : nat; in_State : list byte; in_Num : Z }.
Record InstallShardReply := mkInstallR { inr_Err : Err }.
Record DeleteShardArgs := mkDelete { dl_Shard : nat; dl_Num : Z }.
Record DeleteShardReply := mkDeleteR { dlr_Err : Err }.

Inductive sreq :=
| SKv (r : request)
| SFreeze (args : FreezeShardArgs)
| SInstall (args : InstallShardArgs)
| SDelete (args : DeleteShardArgs).

Inductive sres :=
| SKvRep (r : reply)
| SFreezeRep (r : FreezeShardReply)
| SInstallRep (r : InstallShardReply)
| SDeleteRep (r : DeleteShardReply).

(** The keys of a shard. *)
Definition sdata (sh : nat) (m : KvMap) : KvMap := filter (fun '(k, _) => Key2Shard k = sh) m.

Section server.
Context `{!Gob KvMap} `{!Gob (KvMap * list ShardState * list Z)}.
Implicit Types kv : KVServer.

(** [None] is a panic: an index out of range or bytes that do not decode. *)
Definition owns kv (key : string) : option bool :=
  st ← shardState kv !! Key2Shard key; Some (bool_decide (st = Ready)).

Definition DoGet kv (args : GetArgs) : option GetReply :=
  mine ← owns kv (get_Key args);
  Some (if mine : bool then
          match kvMap kv !! get_Key args with
          | Some e => mkGetReply (value e) (version e) OK
          | None => mkGetReply "" 0 ErrNoKey
          end
        else mkGetReply "" 0 ErrWrongGroup).

Definition set_kvMap kv (m : KvMap) : KVServer := mkKV m (shardState kv) (cfgNum kv).

Definition DoPut kv (args : PutArgs) : option (PutReply * KVServer) :=
  mine ← owns kv (put_Key args);
  Some (if mine : bool then
          match kvMap kv !! put_Key args with
          | Some e =>
              if decide (put_Version args = version e)
              then (mkPutReply OK,
                    set_kvMap kv (<[put_Key args := mkKvEntry (put_Value args) (u64 (version e + 1))]> (kvMap kv)))
              else (mkPutReply ErrVersion, kv)
          | None =>
              if decide (put_Version args = 0)
              then (mkPutReply OK, set_kvMap kv (<[put_Key args := mkKvEntry (put_Value args) 1]> (kvMap kv)))
              else (mkPutReply ErrNoKey, kv)
          end
        else (mkPutReply ErrWrongGroup, kv)).

Definition dumpShard kv (shard : nat) : list byte := gob_enc (sdata shard (kvMap kv)).

Definition loadShard kv (state : list byte) : option KVServer :=
  if decide (zlen state = 0) then Some kv
  else sub ← gob_decode state; Some (set_kvMap kv (sub ∪ kvMap kv)).

Definition deleteShardData kv (shard : nat) : KVServer :=
  set_kvMap kv (filter (fun '(k, _) => Key2Shard k <> shard) (kvMap kv)).

(** [kv.shardState[shard] = st; kv.cfgNum[shard] = num] *)
Definition set_shard kv (shard : nat) (st : ShardState) (num : Z) : KVServer :=
  mkKV (kvMap kv) (<[shard := st]> (shardState kv)) (<[shard := num]> (cfgNum kv)).

Definition DoFreezeShard kv (args : FreezeShardArgs) : option (FreezeShardReply * KVServer) :=
  n ← cfgNum kv !! fz_Shard args;
  Some (if decide (fz_Num args < n) then (mkFreezeR [] (fz_Num args) OK, kv)
        else let kv := set_shard kv (fz_Shard args) Frozen (fz_Num args) in
             (mkFreezeR (dumpShard kv (fz_Shard args)) (fz_Num args) OK, kv)).

Definition DoInstallShard kv (args : InstallShardArgs) : option (InstallShardReply * KVServer) :=
  n ← cfgNum kv !! in_Shard args;
  if decide (in_Num args <= n) then Some (mkInstallR OK, kv)
  else
    kv ← loadShard kv (in_State args);
    Some (mkInstallR OK, set_shard kv (in_Shard args) Ready (in_Num args)).

Definition DoDeleteShard kv (args : DeleteShardArgs) : option (DeleteShardReply * KVServer) :=
  n ← cfgNum kv !! dl_Shard args;
  Some (if decide (dl_Num args < n) then (mkDeleteR OK, kv)
        else (mkDeleteR OK, set_shard (deleteShardData kv (dl_Shard args)) (dl_Shard args) NotOwned (dl_Num args))).

Definition DoOp kv (_ : Z) (req : sreq) : option (sres * KVServer) :=
  match req with
  | SKv (RGet a) => rep ← DoGet kv a; Some (SKvRep (RepGet rep), kv)
  | SKv (RPut a) => '(rep, kv) ← DoPut kv a; Some (SKvRep (RepPut rep), kv)
  | SFreeze a => '(rep, kv) ← DoFreezeShard kv a; Some (SFreezeRep rep, kv)
  | SInstall a => '(rep, kv) ← DoInstallShard kv a; Some (SInstallRep rep, kv)
  | SDelete a => '(rep, kv) ← DoDeleteShard kv a; Some (SDeleteRep rep, kv)
  end.

Definition Snapshot kv : list byte := gob_enc (kvMap kv, shardState kv, cfgNum kv).

Definition Restore (_ : KVServer) (data : list byte) : option KVServer :=
  '(m, st, n) ← gob_decode (A := KvMap * list ShardState * list Z) data; Some (mkKV m st n).

(** The server of group [gid], given the persisted snapshot. *)
Definition StartServerShardGrp (gid : Z) (snapshot : list byte) : option KVServer :=
  let st := if decide (gid = Gid1) then Ready else NotOwned in
  let kv := mkKV ∅ (replicate NShards st) (replicate NShards NumFirst) in
  if decide (0 < zlen snapshot) then Restore kv snapshot else Some kv.

(** A shard group is a service the replication layer can replicate. *)
#[export] Instance shardgrp_sm : StateMachine KVServer sreq sres := {|
  Rsm.DoOp := DoOp; sm_Snapshot := Snapshot; sm_Restore := Restore
|}.

#[export] Instance shardgrp_lawful : LawfulSM KVServer sreq sres.
Proof.
  constructor.
  - intros s s0. simpl. unfold Restore, Snapshot. rewrite gob_roundtrip. by destruct s.
  - intros s. apply gob_nonempty.
Qed.

(** The RPC handlers, after [Submit] has returned; a result of the wrong type
    fails the type assertion. *)
Definition Get (err : Err) (res : option sres) : option GetReply :=
  if decide (err <> OK) then Some (mkGetReply "" 0 err)
  else match res with Some (SKvRep (RepGet r)) => Some (mkGetReply (getr_Value r) (getr_Version r) (getr_Err r)) | _ => None end.

Definition Put (err : Err) (res : option sres) : option PutReply :=
  if decide (err <> OK) then Some (mkPutReply err)
  else match res with Some (SKvRep (RepPut r)) => Some (mkPutReply (putr_Err r)) | _ => None end.

Definition FreezeShard (err : Err) (res : option sres) : option FreezeShardReply :=
  if decide (err <> OK) then Some (mkFreezeR [] 0 err)
  else match res with Some (SFreezeRep r) => Some r | _ => None end.

Definition InstallShard (err : Err) (res : option sres) : option InstallShardReply :=
  if decide (err <> OK) then Some (mkInstallR err)
  else match res with Some (SInstallRep r) => Some r | _ => None end.

Definition DeleteShard (err : Err) (res : option sres) : option DeleteShardReply :=
  if decide (err <> OK) then Some (mkDeleteR err)
  else match res with Some (SDeleteRep r) => Some r | _ => None end.

(** ** Shard by shard *)

Definition kv_wf kv : Prop := length (shardState kv) = NShards /\ length (cfgNum kv) = NShards.

Record view := mkView { v_st : ShardState; v_num : Z; v_data : KvMap }.

Definition view_of kv (sh : nat) : view :=
  mkView (default NotOwned (shardState kv !! sh)) (default 0 (cfgNum kv !! sh)) (sdata sh (kvMap kv)).

(** What the operations do to the view of their shard. *)
Definition v_freeze (k : Z) (v : view) : view :=
  if decide (k < v_num v) then v else mkView Frozen k (v_data v).
Definition v_install (k : Z) (s : KvMap) (v : view) : view :=
  if decide (k <= v_num v) then v else mkView Ready k (s ∪ v_data v).
Definition v_delete (k : Z) (v : view) : view :=
  if decide (k < v_num v) then v else mkView NotOwned k ∅.

Lemma sdata_lookup sh m k : sdata sh m !! k = if decide (Key2Shard k = sh) then m !! k else None.
Proof.
  unfold sdata. dcase.
  - destruct (m !! k) as [v|] eqn:E.
    + by apply map_lookup_filter_Some.
    + apply map_lookup_filter_None. by left.
  - apply map_lookup_filter_None. right. by intros v _.
Qed.

Lemma sdata_union sh sh' s m :
  sdata sh' (sdata sh s ∪ m) = if decide (sh' = sh) then sdata sh s ∪ sdata sh m else sdata sh' m.
Proof.
  apply map_eq. intros k. rewrite sdata_lookup. destruct (decide (sh' = sh)) as [->|Hne].
  - rewrite !lookup_union, !sdata_lookup. dcase; [done|]. done.
  - rewrite lookup_union, !sdata_lookup. repeat dcase; try congruence. by rewrite (left_id None _).
Qed.

Lemma sdata_idem sh m : sdata sh (sdata sh m) = sdata sh m.
Proof. apply map_eq. intros k. rewrite !sdata_lookup. by repeat dcase. Qed.

Lemma sdata_delete sh sh' kv :
  sdata sh' (kvMap (deleteShardData kv sh)) = if decide (sh' = sh) then ∅ else sdata sh' (kvMap kv).
Proof.
  apply map_eq. intros k. rewrite sdata_lookup. simpl.
  destruct (decide (sh' = sh)) as [->|Hne]; rewrite ?lookup_empty, ?sdata_lookup; dcase; try done.
  - apply map_lookup_filter_None. right. intros v _. congruence.
  - destruct (kvMap kv !! k) as [v|] eqn:E.
    + apply map_lookup_filter_Some. split; [done|congruence].
    + apply map_lookup_filter_None. by left.
Qed.

Lemma sdata_insert sh k e m :
  sdata sh (<[k := e]> m) = if decide (Key2Shard k = sh) then <[k := e]> (sdata sh m) else sdata sh m.
Proof.
  apply map_eq. intros k'. rewrite sdata_lookup. destruct (decide (k' = k)) as [->|Hne].
  - rewrite lookup_insert_eq. dcase; [by rewrite lookup_insert_eq|]. by rewrite sdata_lookup, decide_False.
  - rewrite lookup_insert_ne by done.
    destruct (decide (Key2Shard k = sh)); rewrite ?lookup_insert_ne by done; by rewrite sdata_lookup.
Qed.

Lemma view_set_shard kv sh st num sh' :
  kv_wf kv -> (sh < NShards)%nat ->
  view_of (set_shard kv sh st num) sh' =
    if decide (sh' = sh) then mkView st num (sdata sh (kvMap kv)) else view_of kv sh'.
Proof.
  intros [H1 H2] Hsh. unfold view_of, set_shard. simpl. destruct (decide (sh' = sh)) as [->|Hne].
  - by rewrite !list_lookup_insert_eq by lia.
  - by rewrite !list_lookup_insert_ne by done.
Qed.

Lemma set_shard_wf kv sh st num : kv_wf kv -> kv_wf (set_shard kv sh st num).
Proof. intros [H1 H2]. split; simpl; by rewrite length_insert. Qed.

Lemma cfgNum_lookup kv sh : kv_wf kv -> (sh < NShards)%nat -> cfgNum kv !! sh = Some (v_num (view_of kv sh)).
Proof.
  intros [_ H2] Hsh. simpl. destruct (cfgNum kv !! sh) eqn:E; [done|]. apply lookup_ge_None in E. lia.
Qed.

Lemma DoFreezeShard_view kv sh k :
  kv_wf kv -> (sh < NShards)%nat ->
  exists rep kv', DoFreezeShard kv (mkFreeze sh k) = Some (rep, kv') /\ kv_wf kv' /\ fzr_Err rep = OK /\
    (forall sh', view_of kv' sh' = if decide (sh' = sh) then v_freeze k (view_of kv sh) else view_of kv sh') /\
    fzr_State rep = if decide (k < v_num (view_of kv sh)) then [] else gob_enc (v_data (view_of kv sh)).
Proof.
  intros Hwf Hsh. unfold DoFreezeShard. simpl fz_Shard. rewrite (cfgNum_lookup kv sh Hwf Hsh). simpl.
  unfold v_freeze. simpl. destruct (decide (k < default 0 (cfgNum kv !! sh))).
  - eexists _, _. split; [done|]. split_and!; auto. intros sh'. by destruct (decide (sh' = sh)) as [->|].
  - eexists _, _. split; [done|]. split_and!; [by apply set_shard_wf|done| |done].
    intros sh'. by rewrite view_set_shard.
Qed.

Lemma DoDeleteShard_view kv sh k :
  kv_wf kv -> (sh < NShards)%nat ->
  exists kv', DoDeleteShard kv (mkDelete sh k) = Some (mkDeleteR OK, kv') /\ kv_wf kv' /\
    (forall sh', view_of kv' sh' = if decide (sh' = sh) then v_delete k (view_of kv sh) else view_of kv sh').
Proof.
  intros Hwf Hsh. unfold DoDeleteShard. simpl dl_Shard. rewrite (cfgNum_lookup kv sh Hwf Hsh). simpl.
  unfold v_delete. simpl. destruct (decide (k < default 0 (cfgNum kv !! sh))).
  - eexists. split; [done|]. split_and!; auto. intros sh'. by destruct (decide (sh' = sh)) as [->|].
  - eexists. split; [done|]. split; [by apply set_shard_wf|]. intros sh'. rewrite view_set_shard by done.
    destruct (decide (sh' = sh)) as [->|Hne].
    + rewrite sdata_delete. by rewrite decide_True.
    + unfold view_of. rewrite sdata_delete. by rewrite decide_False.
Qed.

(** The bytes of a frozen shard, or nothing. *)
Definition state_bytes (sh : nat) (s : KvMap) (b : list byte) : Prop :=
  (b = [] /\ s = ∅) \/ (b = gob_enc s /\ sdata sh s = s).

Lemma DoInstallShard_view kv sh s b k :
  kv_wf kv -> (sh < NShards)%nat -> state_bytes sh s b ->
  exists kv', DoInstallShard kv (mkInstall sh b k) = Some (mkInstallR OK, kv') /\ kv_wf kv' /\
    (forall sh', view_of kv' sh' = if decide (sh' = sh) then v_install k s (view_of kv sh) else view_of kv sh').
Proof.
  intros Hwf Hsh Hb. unfold DoInstallShard. simpl in_Shard. rewrite (cfgNum_lookup kv sh Hwf Hsh). simpl.
  unfold v_install. simpl. destruct (decide (k <= default 0 (cfgNum kv !! sh))).
  - eexists. split; [done|]. split_and!; auto. intros sh'. by destruct (decide (sh' = sh)) as [->|].
  - assert (Hl : exists kv1, loadShard kv b = Some kv1 /\ kv_wf kv1 /\
      forall sh', view_of kv1 sh' = if decide (sh' = sh)
        then mkView (v_st (view_of kv sh)) (v_num (view_of kv sh)) (s ∪ sdata sh (kvMap kv)) else view_of kv sh').
    { unfold loadShard. destruct Hb as [[-> ->]|[-> Hs]].
      - rewrite decide_True by done. exists kv. split_and!; auto. intros sh'.
        destruct (decide (sh' = sh)) as [->|]; [|done]. by rewrite (left_id_L ∅ (∪)).
      - pose proof (gob_nonempty s) as Hne. rewrite decide_False.
        2: { destruct (gob_enc s); [done|]. rewrite zlen_cons. pose proof (zlen_nonneg l). lia. }
        rewrite gob_roundtrip. simpl. eexists. split; [done|]. split; [done|]. intros sh'.
        unfold view_of. simpl. rewrite <- Hs at 1. rewrite sdata_union. destruct (decide (sh' = sh)) as [->|]; [|done].
        by rewrite Hs. }
    destruct Hl as (kv1 & -> & Hwf1 & Hv). simpl. eexists. split; [done|]. split; [by apply set_shard_wf|].
    intros sh'. rewrite view_set_shard by done. destruct (decide (sh' = sh)) as [->|Hne].
    + specialize (Hv sh). rewrite decide_True in Hv by done. by injection Hv as _ _ ->.
    + specialize (Hv sh'). by rewrite decide_False in Hv.
Qed.

Definition wrongGroup (r : request) : reply :=
  match r with
  | RGet _ => RepGet (mkGetReply "" 0 ErrWrongGroup)
  | RPut _ => RepPut (mkPutReply ErrWrongGroup)
  end.

Lemma sdata_serve_other L r sh : sh <> Key2Shard (req_key r) -> sdata sh (snd (serve L r)) = sdata sh L.
Proof.
  intros Hne. apply map_eq. intros k. rewrite !sdata_lookup. dcase; [|done].
  apply serve_other. congruence.
Qed.

(** Serving a key looks at that key only. *)
Lemma serve_agrees m m' r :
  m !! req_key r = m' !! req_key r ->
  fst (serve m r) = fst (serve m' r) /\ snd (serve m r) !! req_key r = snd (serve m' r) !! req_key r.
Proof.
  destruct r as [a|a]; simpl; unfold KvSrv.Get, KvSrv.Put.
  - by intros ->.
  - intros E. rewrite E. destruct (m' !! put_Key a) as [e|] eqn:Em; dcase; simpl;
      (split; [done|]); rewrite ?lookup_insert_eq; congruence.
Qed.

Lemma DoOp_serves kv i r :
  kv_wf kv -> v_st (view_of kv (Key2Shard (req_key r))) = Ready ->
  DoOp kv i (SKv r) = Some (SKvRep (fst (serve (kvMap kv) r)), set_kvMap kv (snd (serve (kvMap kv) r))).
Proof.
  intros [Hl _] Hst. simpl in Hst. pose proof (Key2Shard_lt (req_key r)) as Hlt.
  assert (Ho : owns kv (req_key r) = Some true).
  { unfold owns. destruct (shardState kv !! _) as [st|] eqn:E; [|apply lookup_ge_None in E; lia].
    simpl in *. subst. done. }
  destruct r as [a|a]; simpl in *.
  - unfold DoGet. rewrite Ho. simpl. unfold KvSrv.Get. by destruct kv, (kvMap _ !! get_Key a).
  - unfold DoPut. rewrite Ho. simpl. unfold KvSrv.Put.
    destruct (kvMap kv !! put_Key a); dcase; simpl; by destruct kv.
Qed.

Lemma DoOp_refuses kv i r :
  kv_wf kv -> v_st (view_of kv (Key2Shard (req_key r))) <> Ready ->
  DoOp kv i (SKv r) = Some (SKvRep (wrongGroup r), kv).
Proof.
  intros [Hl _] Hst. simpl in Hst. pose proof (Key2Shard_lt (req_key r)) as Hlt.
  assert (Ho : owns kv (req_key r) = Some false).
  { unfold owns. destruct (shardState kv !! _) as [st|] eqn:E; [|apply lookup_ge_None in E; lia].
    simpl in *. by rewrite bool_decide_eq_false_2. }
  destruct r as [a|a]; simpl in *; [unfold DoGet|unfold DoPut]; by rewrite Ho.
Qed.

(** A group that owns the shard, with the data of the store [L], answers as the
    single server on [L] would. *)
Lemma client_view kv i r L :
  let sh := Key2Shard (req_key r) in
  kv_wf kv -> v_st (view_of kv sh) = Ready -> v_data (view_of kv sh) = sdata sh L ->
  exists kv', DoOp kv i (SKv r) = Some (SKvRep (fst (serve L r)), kv') /\ kv_wf kv' /\
    forall sh', view_of kv' sh' = if decide (sh' = sh)
      then mkView Ready (v_num (view_of kv sh)) (sdata sh (snd (serve L r))) else view_of kv sh'.
Proof.
  intros sh Hwf Hst Hd. rewrite (DoOp_serves kv i r Hwf Hst). simpl in Hd.
  assert (Hk : kvMap kv !! req_key r = L !! req_key r).
  { apply (f_equal (lookup (req_key r))) in Hd. rewrite !sdata_lookup in Hd. unfold sh in Hd.
    by rewrite !decide_True in Hd by done. }
  destruct (serve_agrees (kvMap kv) L r Hk) as [-> Hk']. eexists. split; [done|]. split; [done|].
  intros sh'. unfold view_of. simpl. destruct (decide (sh' = sh)) as [->|Hne].
  - f_equal; [by simpl in Hst; rewrite <- Hst|]. apply map_eq. intros k. rewrite !sdata_lookup. dcase; [|done].
    destruct (decide (k = req_key r)) as [->|Hne]; [done|]. rewrite !serve_other by done.
    apply (f_equal (lookup k)) in Hd. rewrite !sdata_lookup in Hd. by rewrite !decide_True in Hd by done.
  - f_equal. by apply sdata_serve_other.
Qed.

(** The handler of a request, applied to what [Submit] returned. *)
Definition handle (req : sreq) (err : Err) (res : option sres) : option sres :=
  match req with
  | SKv (RGet _) => (fun r => SKvRep (RepGet r)) <$> Get err res
  | SKv (RPut _) => (fun r => SKvRep (RepPut r)) <$> Put err res
  | SFreeze _ => SFreezeRep <$> FreezeShard err res
  | SInstall _ => SInstallRep <$> InstallShard err res
  | SDelete _ => SDeleteRep <$> DeleteShard err res
  end.

(** C35: type assertions of the handlers hold.  Whatever the state machine
    returned for a request, the handler of that request passes it on unchanged
    as the reply, and a submission that failed is reported with its error. *)
Theorem handlers_type_safe kv i req res kv' e :
  DoOp kv i req = Some (res, kv') ->
  handle req OK (Some res) = Some res /\ (e <> OK -> is_Some (handle req e None)).
Proof.
  intros Hd. split.
  - destruct req as [[a|a]|a|a|a]; simpl in Hd; apply bind_Some in Hd as (x & _ & Hd);
      [destruct x|destruct x as [[e'] ?]|destruct x as [? ?]..]; by simplify_eq.
  - intros He. destruct req as [[a|a]|a|a|a]; simpl; unfold Get, Put, FreezeShard, InstallShard, DeleteShard;
      rewrite decide_True by done; simpl; eauto.
Qed.

End server.

Module GrpDemo.

#[local] Instance ShardState_countable : Countable ShardState.
Proof.
  refine (inj_countable' (fun st => match st with NotOwned => 0%nat | Ready => 1%nat | Frozen => 2%nat end)
    (fun n => match n with 0%nat => NotOwned | 1%nat => Ready | _ => Frozen end) _).
  by intros [].
Defined.
#[export] Instance map_gob : Gob KvMap := bit_gob.
#[export] Instance kv_gob : Gob (KvMap * list ShardState * list Z) := bit_gob.

(** The server of the first group, freshly started. *)
Definition kv1 : KVServer := mkKV ∅ (replicate NShards Ready) (replicate NShards NumFirst).

Lemma handlers_type_safe_witness :
  handle (SFreeze (mkFreeze 3 2)) OK (Some (SFreezeRep (mkFreezeR (gob_enc (∅ : KvMap)) 2 OK))) =
    Some (SFreezeRep (mkFreezeR (gob_enc (∅ : KvMap)) 2 OK)).
Proof. by eapply (handlers_type_safe kv1 0 (SFreeze (mkFreeze 3 2)) _ _ ErrWrongLeader). Defined.

End GrpDemo.
