(* ===== verification/ShardMig.v ===== *)
(** * Moving shards between groups

    The protocol by which shards move, as a step relation [mstep] over the shard
    groups of [ShardGrp].  A step of a migration may be sent once the reply to the
    previous one exists, and may be executed any number of times, at any later
    time, also long after newer configurations have been installed.  Clients send
    requests to any group at any time.

    [mstep] is an abstract protocol, not the controllers' code: migrations go from
    a configuration to the next one, and there is a next one only when every shard
    of the latest one has been deleted at its old group.  [ShardCtrl] has the
    code, and shows that it follows this protocol as long as [InitController]
    reads two configurations at most one apart, and only then: what is proved here
    reaches the program through [ShardCtrl].

    Each group is one state machine here: that is what the replication of
    [Service] provides.

    The invariant: a shard is served by at most one group, and whatever the groups
    answer, other than [ErrWrongGroup], is what a single server would have
    answered: no write is lost and no stale value is read across migrations.

    The body of the loop of [migrate] ([shardctrler.go]) is here too, run without
    interruption. *)

From S2P Require Import Prelude Gob Kv Rsm ShardCfg ShardGrp.

(** The groups, the configurations 1, 2, ... so far, the replies to the three
    steps of a migration, and what clients were answered, oldest first. *)
Record world := mkWorld {
  grp : Z -> KVServer;
  cfgs : list ShardConfig;
  frs : list (nat * Z * list byte);    (* FreezeShard: shard, number, state *)
  ins : list (nat * Z);                (* InstallShard *)
  dels : list (nat * Z);               (* DeleteShard *)
  hist : list (request * reply)
}.

Definition latest (w : world) : Z := zlen (cfgs w).

Definition owner (w : world) (sh : nat) (k : Z) : option Z :=
  c ← cfgs w !! Z.to_nat (k - 1); Shards c !! sh.

(** Configuration [k] moves the shard. *)
Definition moved (w : world) (sh : nat) (k src dst : Z) : Prop :=
  2 <= k <= latest w /\ owner w sh (k - 1) = Some src /\ owner w sh k = Some dst /\ src <> dst.

Definition set_grp (w : world) (g : Z) (kv : KVServer) : world :=
  mkWorld (<[g := kv]> (grp w)) (cfgs w) (frs w) (ins w) (dels w) (hist w).

Definition refused (rep : reply) : bool :=
  match rep with
  | RepGet r => bool_decide (getr_Err r = ErrWrongGroup)
  | RepPut r => bool_decide (putr_Err r = ErrWrongGroup)
  end.

(** [shardgrp.MakeClerk(clnt, c.Groups[gid])]: [rand.Intn(len(servers))] panics for
    a group that lists no server or is not listed at all.  The clerk talks to the
    group whose servers are listed. *)
Definition MakeClerk (c : ShardConfig) (gid : Z) : option Z :=
  match default [] (Groups c !! gid) with [] => None | _ => Some gid end.

(** The groups between which the shards move can be reached. *)
Definition reachable (cur new : ShardConfig) : Prop :=
  forall sh src dst, Shards cur !! sh = Some src -> Shards new !! sh = Some dst -> src <> dst ->
    MakeClerk cur src = Some src /\ MakeClerk new dst = Some dst.

Section migration.
Context `{!Gob KvMap} `{!Gob (KvMap * list ShardState * list Z)}.
Implicit Types (w : world) (sh : nat) (k g src dst : Z).

(** The protocol.  [moved] and [M_config] are its assumptions about controllers. *)
Inductive mstep : world -> world -> Prop :=
(* a client's request reaches some group *)
| M_client w g i r rep kv :
    DoOp (grp w g) i (SKv r) = Some (SKvRep rep, kv) ->
    mstep w (mkWorld (<[g := kv]> (grp w)) (cfgs w) (frs w) (ins w) (dels w)
               (if refused rep then hist w else hist w ++ [(r, rep)]))
(* srcck.FreezeShard(sh, new.Num) *)
| M_freeze w sh k src dst rep kv :
    (sh < NShards)%nat -> moved w sh k src dst ->
    DoFreezeShard (grp w src) (mkFreeze sh k) = Some (rep, kv) ->
    mstep w (mkWorld (<[src := kv]> (grp w)) (cfgs w) ((sh, k, fzr_State rep) :: frs w) (ins w) (dels w) (hist w))
(* dstck.InstallShard(sh, state, new.Num) *)
| M_install w sh k src dst b rep kv :
    (sh < NShards)%nat -> moved w sh k src dst -> (sh, k, b) ∈ frs w ->
    DoInstallShard (grp w dst) (mkInstall sh b k) = Some (rep, kv) ->
    mstep w (mkWorld (<[dst := kv]> (grp w)) (cfgs w) (frs w) ((sh, k) :: ins w) (dels w) (hist w))
(* srcck.DeleteShard(sh, new.Num) *)
| M_delete w sh k src dst rep kv :
    (sh < NShards)%nat -> moved w sh k src dst -> (sh, k) ∈ ins w ->
    DoDeleteShard (grp w src) (mkDelete sh k) = Some (rep, kv) ->
    mstep w (mkWorld (<[src := kv]> (grp w)) (cfgs w) (frs w) (ins w) ((sh, k) :: dels w) (hist w))
(* the migration to the latest configuration is complete; the next one begins *)
| M_config w c :
    Num c = latest w + 1 -> cfg_wf c ->
    (forall sh src dst, (sh < NShards)%nat -> moved w sh (latest w) src dst -> (sh, latest w) ∈ dels w) ->
    mstep w (mkWorld (grp w) (cfgs w ++ [c]) (frs w) (ins w) (dels w) (hist w)).

(** The first configuration gives every shard to [Gid1]. *)
Definition first_cfg (c : ShardConfig) : Prop := Num c = NumFirst /\ Shards c = replicate NShards Gid1.

Definition minit w : Prop :=
  (forall g, StartServerShardGrp g [] = Some (grp w g)) /\
  (exists c, first_cfg c /\ cfgs w = [c]) /\
  frs w = [] /\ ins w = [] /\ dels w = [] /\ hist w = [].

Definition mreach w : Prop := exists w0, minit w0 /\ rtc mstep w0 w.

(** ** The invariant of one shard *)

Definition V w sh g : view := view_of (grp w g) sh.
Arguments V : simpl never.

(** The shard is where the latest configuration wants it. *)
Definition settled w sh (A : Z) : Prop :=
  owner w sh (latest w) = Some A /\ v_st (V w sh A) = Ready /\
  (forall k, v_num (V w sh A) <= k <= latest w -> owner w sh k = Some A) /\
  (forall src, moved w sh (latest w) src A ->
     latest w <= v_num (V w sh src) /\ latest w <= v_num (V w sh A)).

(** It is still with its old group, not frozen yet or frozen. *)
Definition moving w sh (A : Z) (L : KvMap) : Prop :=
  exists dst, moved w sh (latest w) A dst /\ v_num (V w sh dst) < latest w /\ ((sh, latest w) ∉ ins w) /\
  ((v_st (V w sh A) = Ready /\ v_num (V w sh A) < latest w /\
    (forall k, v_num (V w sh A) <= k < latest w -> owner w sh k = Some A) /\
    (forall b, (sh, latest w, b) ∉ frs w)) \/
   (v_st (V w sh A) = Frozen /\ v_num (V w sh A) = latest w /\
    (forall b, (sh, latest w, b) ∈ frs w -> b = gob_enc (sdata sh L)))).

Record at_group w sh (L : KvMap) (A : Z) : Prop := {
  ag_data : v_data (V w sh A) = sdata sh L;
  ag_ready g : g <> A -> v_st (V w sh g) <> Ready;
  ag_num g : 1 <= v_num (V w sh g) <= latest w;
  ag_done k src dst : moved w sh k src dst -> k < latest w ->
    k <= v_num (V w sh src) /\ k <= v_num (V w sh dst);
  ag_empty g : g <> A ->
    v_data (V w sh g) = ∅ \/ (moved w sh (latest w) g A /\ (sh, latest w) ∉ dels w);
  ag_del : (sh, latest w) ∈ dels w -> exists src, moved w sh (latest w) src A;
  ag_phase : settled w sh A \/ moving w sh A L
}.

Record minv w (L : KvMap) : Prop := {
  mi_wf g : kv_wf (grp w g);
  mi_latest : 1 <= latest w;
  mi_cfgs c : c ∈ cfgs w -> cfg_wf c;
  mi_frs sh k b : (sh, k, b) ∈ frs w -> k <= latest w /\ exists s, state_bytes sh s b;
  mi_ins sh k : (sh, k) ∈ ins w -> k <= latest w;
  mi_dels sh k : (sh, k) ∈ dels w -> k <= latest w;
  mi_shard sh : (sh < NShards)%nat -> exists A, at_group w sh L A
}.

Lemma moved_fun w sh k src dst src' dst' :
  moved w sh k src dst -> moved w sh k src' dst' -> src' = src /\ dst' = dst.
Proof. intros (_ & ? & ? & _) (_ & ? & ? & _). split; congruence. Qed.

(** A step that only touches the view of shard [sh] at group [g]. *)
Definition only w w' sh g (v : view) : Prop :=
  cfgs w' = cfgs w /\ forall g' sh', V w' sh' g' = if decide (g' = g /\ sh' = sh) then v else V w sh' g'.

Lemma only_set w w' sh g kv v :
  cfgs w' = cfgs w -> grp w' = <[g := kv]> (grp w) ->
  (forall sh', view_of kv sh' = if decide (sh' = sh) then v else view_of (grp w g) sh') ->
  only w w' sh g v.
Proof.
  intros Ec Eg Hv. split; [done|]. intros g' sh'. unfold V. rewrite Eg. destruct (decide (g' = g)) as [->|Hne]; fn_upd.
  - rewrite Hv. destruct (decide (sh' = sh)); [by rewrite decide_True|]. rewrite decide_False; [done|]. by intros [].
  - rewrite decide_False; [done|]. by intros [].
Qed.

Lemma only_same_cfgs w w' sh g v :
  only w w' sh g v -> latest w' = latest w /\ (forall sh k, owner w' sh k = owner w sh k) /\
  (forall sh k src dst, moved w' sh k src dst <-> moved w sh k src dst).
Proof.
  intros [Ec _]. assert (El : latest w' = latest w) by (unfold latest; by rewrite Ec).
  assert (Eo : forall sh k, owner w' sh k = owner w sh k) by (intros; unfold owner; by rewrite Ec).
  split_and!; auto. intros. unfold moved. by rewrite El, !Eo.
Qed.

Lemma only_view w w' sh g v :
  only w w' sh g v -> forall g', V w' sh g' = if decide (g' = g) then v else V w sh g'.
Proof.
  intros [_ Hv] g'. rewrite Hv. destruct (decide (g' = g)); [by rewrite decide_True|].
  rewrite decide_False; [done|]. by intros [].
Qed.

(** Messages and replies about other shards do not matter to a shard. *)
Definition same_msgs w w' sh : Prop :=
  (forall k b, (sh, k, b) ∈ frs w' <-> (sh, k, b) ∈ frs w) /\
  (forall k, (sh, k) ∈ ins w' <-> (sh, k) ∈ ins w) /\ (forall k, (sh, k) ∈ dels w' <-> (sh, k) ∈ dels w).

Lemma at_group_other w w' sh sh' g v L A :
  only w w' sh' g v -> sh <> sh' -> same_msgs w w' sh -> at_group w sh L A -> at_group w' sh L A.
Proof.
  intros Ho Hne (Hf & Hi & Hd) [H1 H2 H3 H4 H5 H6 H7].
  destruct (only_same_cfgs _ _ _ _ _ Ho) as (El & Eo & Em). destruct Ho as [_ Hv].
  assert (EV : forall g', V w' sh g' = V w sh g') by (intros; rewrite Hv, decide_False; [done|by intros []]).
  split; rewrite ?EV, ?El; auto.
  - intros g'. rewrite EV. auto.
  - intros g'. rewrite EV. auto.
  - intros k src dst. rewrite Em, !EV. auto.
  - intros g' Hg'. rewrite EV, Em, Hd. auto.
  - rewrite Hd. intros Hdel. destruct (H6 Hdel) as (src & ?). exists src. by apply Em.
  - destruct H7 as [(? & ? & ? & Hm)|(dst & Hm & ? & ? & Hp)].
    + left. unfold settled. rewrite El, Eo, EV. split_and!; auto.
      * intros k. rewrite Eo. auto.
      * intros src. rewrite Em, EV. auto.
    + right. exists dst. rewrite El, Em, !EV, Hi. split_and!; auto.
      destruct Hp as [(? & ? & ? & Hb)|(? & ? & Hb)]; [left|right]; split_and!; auto.
      * intros k. rewrite Eo. auto.
      * intros b. rewrite Hf. auto.
      * intros b. rewrite Hf. auto.
Qed.

(** What a step may add to the messages about the shard. *)
Record msgs_ok w w' sh (A : Z) (L : KvMap) (g : Z) (v : view) : Prop := {
  mo_frs b : moving w sh A L -> (sh, latest w, b) ∈ frs w' -> (sh, latest w, b) ∈ frs w;
  mo_ins : moving w sh A L -> (sh, latest w) ∈ ins w' -> (sh, latest w) ∈ ins w;
  mo_dels : (sh, latest w) ∈ dels w' ->
    (sh, latest w) ∈ dels w \/ (g <> A /\ v_data v = ∅ /\ moved w sh (latest w) g A)
}.

(** The view of a group that does not hold the shard changes. *)
Lemma at_group_bump w w' sh g v L A :
  at_group w sh L A -> only w w' sh g v -> (g = A -> v = V w sh A) ->
  (v = V w sh g \/ v_st v <> Ready) -> v_num (V w sh g) <= v_num v <= latest w ->
  (v_data v = v_data (V w sh g) \/ v_data v = ∅) ->
  (forall dst, moved w sh (latest w) A dst -> g = dst -> v_num v < latest w) ->
  msgs_ok w w' sh A L g v -> at_group w' sh L A.
Proof.
  intros [H1 H2 H3 H4 H5 H6 H7] Ho HA Hst Hnum Hdata Hdst [M1 M2 M3].
  destruct (only_same_cfgs _ _ _ _ _ Ho) as (El & Eo & Em).
  pose proof (only_view _ _ _ _ _ Ho) as EV.
  assert (EA : V w' sh A = V w sh A).
  { rewrite EV. destruct (decide (A = g)) as [E|]; [|done]. symmetry in E. auto. }
  assert (Hmono : forall g', v_num (V w sh g') <= v_num (V w' sh g') <= latest w).
  { intros g'. rewrite EV. destruct (decide (g' = g)) as [->|]; [done|]. pose proof (H3 g'). lia. }
  split; rewrite ?EA, ?El; auto.
  - intros g' Hg'. rewrite EV. destruct (decide (g' = g)) as [->|]; [|auto].
    destruct Hst as [->|?]; auto.
  - intros g'. pose proof (Hmono g'). pose proof (H3 g'). lia.
  - intros k src dst. rewrite Em. intros Hm Hk. destruct (H4 _ _ _ Hm Hk). pose proof (Hmono src). pose proof (Hmono dst). lia.
  - intros g' Hg'. rewrite EV, Em. destruct (decide (g' = g)) as [->|Hne].
    + destruct Hdata as [Hsame|?]; [|by left]. rewrite Hsame. destruct (H5 g Hg') as [?|[Hm Hnd]]; [by left|].
      destruct (decide (v_data (V w sh g) = ∅)) as [?|Hne]; [by left|]. right. split; [done|].
      intros Hd. destruct (M3 Hd) as [?|(_ & Hemp & _)]; [done|congruence].
    + destruct (H5 g' Hg') as [?|[Hm Hnd]]; [by left|]. right. split; [done|].
      intros Hd. destruct (M3 Hd) as [?|(_ & _ & Hm')]; [done|]. by destruct (moved_fun _ _ _ _ _ _ _ Hm Hm').
  - intros Hd. destruct (M3 Hd) as [Hd'|(_ & _ & ?)].
    + destruct (H6 Hd') as (src & ?). exists src. by apply Em.
    + exists g. by apply Em.
  - destruct H7 as [(? & ? & ? & Hm)|Hmv].
    + left. unfold settled. rewrite El, Eo, EA. split_and!; auto.
      * intros k. rewrite Eo. auto.
      * intros src. rewrite Em. intros Hs. destruct (Hm _ Hs). pose proof (Hmono src). lia.
    + right. pose proof Hmv as (dst & Hm & Hlt & Hi & Hp). exists dst. rewrite El, Em, EA. split_and!; auto.
      * rewrite EV. destruct (decide (dst = g)) as [->|]; [by eapply Hdst|done].
      * destruct Hp as [(? & ? & ? & Hb)|(? & ? & Hb)]; [left|right]; split_and!; auto.
        -- intros k. rewrite Eo. auto.
        -- intros b Hb'. by eapply Hb, M1.
Qed.

(** Who may be addressed by a step that is not out of date. *)
Lemma step_at_holder w sh k dst L A :
  at_group w sh L A -> moved w sh k A dst -> v_num (V w sh A) <= k ->
  k = latest w /\ moving w sh A L.
Proof.
  intros [_ _ H3 _ _ _ H7] Hm Hk. pose proof Hm as (Hk' & _ & Hd & Hne).
  destruct H7 as [(_ & _ & Hall & _)|Hmv].
  - specialize (Hall k ltac:(lia)). congruence.
  - split; [|done]. destruct Hmv as (dst' & _ & _ & _ & [(_ & _ & Hall & _)|(_ & En & _)]); [|lia].
    destruct (decide (k < latest w)); [|lia]. specialize (Hall k ltac:(lia)). congruence.
Qed.

(** While the latest configuration takes the shard away from its holder. *)
Lemma holder_moves w sh dst L A :
  at_group w sh L A -> moved w sh (latest w) A dst ->
  moving w sh A L /\ v_num (V w sh dst) < latest w.
Proof.
  intros [_ _ _ _ _ _ H7] Hm. destruct H7 as [(Ho & _)|Hmv].
  - destruct Hm as (_ & _ & ? & ?). congruence.
  - split; [done|]. destruct Hmv as (d & Hd & Hlt & _). by destruct (moved_fun _ _ _ _ _ _ _ Hm Hd) as [_ ->].
Qed.

(** An out-of-date step leaves the views alone. *)
Lemma at_group_stale w w' sh g L A :
  at_group w sh L A -> only w w' sh g (V w sh g) -> msgs_ok w w' sh A L g (V w sh g) -> at_group w' sh L A.
Proof.
  intros HA Ho Hmsgs. pose proof (ag_num _ _ _ _ HA g).
  eapply (at_group_bump w w' sh g); [done|done|by intros ->|by left|lia|by left| |done].
  intros dst Hm ->. by apply (holder_moves _ _ _ _ _ HA Hm).
Qed.

Lemma at_freeze w w' sh k src dst L A b :
  at_group w sh L A -> moved w sh k src dst -> only w w' sh src (v_freeze k (V w sh src)) ->
  frs w' = (sh, k, b) :: frs w -> ins w' = ins w -> dels w' = dels w ->
  b = (if decide (k < v_num (V w sh src)) then [] else gob_enc (v_data (V w sh src))) ->
  at_group w' sh L A.
Proof.
  intros HA Hm Ho Ef Ei Ed Hb. pose proof (ag_num _ _ _ _ HA) as Hnum. pose proof Hm as (Hk & _).
  assert (Hother : src <> A -> forall v, msgs_ok w w' sh A L src v).
  { intros Hne v. split; rewrite ?Ef, ?Ei, ?Ed; auto. intros b' (d & Hd & _).
    intros [E|?]%elem_of_cons; [|done]. simplify_eq. by destruct (moved_fun _ _ _ _ _ _ _ Hd Hm). }
  unfold v_freeze in Ho. destruct (decide (k < v_num (V w sh src))) as [Hlt|Hge].
  - eapply at_group_stale; [done|done|]. destruct (decide (src = A)) as [->|Hne]; [|auto].
    split; rewrite ?Ef, ?Ei, ?Ed; auto. intros b' _ [E|?]%elem_of_cons; [|done]. simplify_eq.
    pose proof (Hnum A). lia.
  - destruct (decide (src = A)) as [->|Hne].
    + (* the holder is frozen *)
      destruct (step_at_holder _ _ _ _ _ _ HA Hm ltac:(lia)) as [-> Hmv].
      destruct HA as [H1 H2 H3 H4 H5 H6 H7]. destruct (only_same_cfgs _ _ _ _ _ Ho) as (El & Eo & Em).
      pose proof (only_view _ _ _ _ _ Ho) as EV.
      assert (EA : V w' sh A = mkView Frozen (latest w) (v_data (V w sh A))) by (by rewrite EV, decide_True).
      split; rewrite ?EA, ?El, ?Ed; auto.
      * intros g' Hg'. rewrite EV, decide_False by done. auto.
      * intros g'. rewrite EV. dcase; cbn [v_num]; [lia|auto].
      * intros k src dst'. rewrite Em, !EV. intros Hm' Hk'. destruct (H4 _ _ _ Hm' Hk'). repeat dcase; cbn [v_num]; lia.
      * intros g' Hg'. rewrite EV, decide_False, Em by done. auto.
      * intros Hd. destruct (H6 Hd) as (src & ?). exists src. by apply Em.
      * right. destruct Hmv as (d & Hd & Hlt & Hi & Hp). exists d. rewrite El, Em, EA, Ei. cbn [v_st v_num].
        split_and!; auto.
        { rewrite EV. destruct (decide (d = A)) as [->|]; [|done]. destruct Hd as (_ & _ & _ & ?). done. }
        right. split_and!; auto. intros b'. rewrite Ef. intros [E|Hb']%elem_of_cons; [simplify_eq; by rewrite H1|].
        destruct Hp as [(_ & _ & _ & Hno)|(_ & _ & Hall)]; [by destruct (Hno b')|auto].
    + eapply (at_group_bump w w' sh src); [done|done|done|by right|cbn [v_num]; lia|by left| |auto].
      cbn [v_num]. intros dst' Hd ->. destruct (decide (k = latest w)) as [->|]; [|lia].
      by destruct (moved_fun _ _ _ _ _ _ _ Hd Hm).
Qed.

Lemma at_delete w w' sh k src dst L A :
  at_group w sh L A -> moved w sh k src dst -> (sh, k) ∈ ins w ->
  only w w' sh src (v_delete k (V w sh src)) ->
  frs w' = frs w -> ins w' = ins w -> dels w' = (sh, k) :: dels w -> at_group w' sh L A.
Proof.
  intros HA Hm Hin Ho Ef Ei Ed. pose proof (ag_num _ _ _ _ HA) as Hnum. pose proof Hm as (Hk & _).
  assert (Hlast : k = latest w -> src <> A /\ dst = A).
  { intros ->. destruct (ag_phase _ _ _ _ HA) as [(Ho' & _)|(d & _ & _ & Hi & _)]; [|done].
    destruct Hm as (_ & _ & Hd & Hne). split; congruence. }
  unfold v_delete in Ho. destruct (decide (k < v_num (V w sh src))) as [Hlt|Hge].
  - eapply at_group_stale; [done|done|]. split; rewrite ?Ef, ?Ei, ?Ed; auto.
    intros [E|?]%elem_of_cons; [|by left]. simplify_eq. pose proof (Hnum src). lia.
  - assert (Hne : src <> A).
    { intros ->. destruct (step_at_holder _ _ _ _ _ _ HA Hm ltac:(lia)) as [E _]. by destruct (Hlast E). }
    eapply (at_group_bump w w' sh src); [done|done|done|by right|cbn [v_num]; lia|by right| |].
    + cbn [v_num]. intros dst' Hd ->. destruct (decide (k = latest w)) as [->|]; [|lia].
      by destruct (moved_fun _ _ _ _ _ _ _ Hd Hm).
    + split; rewrite ?Ef, ?Ei, ?Ed; auto. intros [E|?]%elem_of_cons; [|by left]. simplify_eq.
      right. split_and!; auto. destruct (Hlast eq_refl) as [_ ->]. done.
Qed.

Lemma at_install w w' sh k src dst L A b s :
  at_group w sh L A -> moved w sh k src dst -> (sh, k, b) ∈ frs w ->
  (moving w sh A L -> k = latest w -> b = gob_enc (sdata sh L) -> s = sdata sh L) ->
  only w w' sh dst (v_install k s (V w sh dst)) ->
  frs w' = frs w -> ins w' = (sh, k) :: ins w -> dels w' = dels w -> exists A', at_group w' sh L A'.
Proof.
  intros HA Hm Hb Hs Ho Ef Ei Ed. pose proof (ag_num _ _ _ _ HA) as Hnum. pose proof Hm as (Hk & _).
  unfold v_install in Ho. destruct (decide (k <= v_num (V w sh dst))) as [Hle|Hgt].
  - exists A. eapply at_group_stale; [done|done|]. split; rewrite ?Ef, ?Ei, ?Ed; auto.
    intros (d & Hd & Hlt & _) [E|?]%elem_of_cons; [|done]. simplify_eq.
    destruct (moved_fun _ _ _ _ _ _ _ Hd Hm) as [_ ->]. lia.
  - destruct HA as [H1 H2 H3 H4 H5 H6 H7].
    assert (k = latest w) as ->.
    { destruct (decide (k < latest w)) as [Hl|]; [|lia]. destruct (H4 _ _ _ Hm Hl). lia. }
    destruct H7 as [(Ho' & _ & _ & Hset)|Hmv].
    { pose proof Hm as (_ & _ & Hd & _). assert (dst = A) as -> by congruence. destruct (Hset _ Hm). lia. }
    pose proof Hmv as (d & Hd & Hlt & Hi & Hp). destruct (moved_fun _ _ _ _ _ _ _ Hd Hm) as [-> ->].
    destruct Hp as [(_ & _ & _ & Hno)|(Hst & Hn & Hall)]; [by destruct (Hno b)|].
    rewrite (Hs Hmv eq_refl (Hall b Hb)) in Ho. clear Hs.
    pose proof Hm as (_ & _ & Hod & Hne).
    assert (Hnm : forall g, ~ moved w sh (latest w) g A).
    { intros g Hg. by destruct (moved_fun _ _ _ _ _ _ _ Hm Hg). }
    assert (Hempty : forall g, g <> A -> v_data (V w sh g) = ∅) by (intros g Hg; destruct (H5 g Hg) as [?|[? _]]; [done|by edestruct Hnm]).
    assert (Hnodel : (sh, latest w) ∉ dels w) by (intros Hdl; destruct (H6 Hdl) as (x & Hx); by edestruct Hnm).
    destruct (only_same_cfgs _ _ _ _ _ Ho) as (El & Eo & Em).
    rewrite (Hempty d), (right_id_L ∅ (∪)) in Ho by congruence. pose proof (only_view _ _ _ _ _ Ho) as EV.
    assert (EA : V w' sh d = mkView Ready (latest w) (sdata sh L)) by (by rewrite EV, decide_True).
    exists d. split; rewrite ?EA, ?El, ?Ed; auto.
    + intros g' Hg'. rewrite EV, decide_False by done. destruct (decide (g' = A)) as [->|]; [by rewrite Hst|auto].
    + intros g'. rewrite EV. dcase; cbn [v_num]; [lia|auto].
    + intros k src dst'. rewrite Em, !EV. intros Hm' Hk'. destruct (H4 _ _ _ Hm' Hk'). repeat dcase; cbn [v_num]; lia.
    + intros g' Hg'. rewrite EV, decide_False, Em by done. destruct (decide (g' = A)) as [->|]; [by right|]. left. auto.
    + done.
    + left. unfold settled. rewrite El, Eo, EA. cbn [v_st v_num]. split_and!; auto.
      * intros k Hk'. rewrite Eo. by replace k with (latest w) by lia.
      * intros src. rewrite Em. intros Hm'. destruct (moved_fun _ _ _ _ _ _ _ Hm Hm') as [-> _].
        rewrite EV, decide_False by done. lia.
Qed.

(** ** What clients saw *)

(** The answers are those of one server that starts with [m]. *)
Fixpoint explains (m : KvMap) (h : list (request * reply)) : Prop :=
  match h with
  | [] => True
  | (r, rep) :: h => rep = fst (serve m r) /\ explains (snd (serve m r)) h
  end.

Definition after (m : KvMap) (h : list (request * reply)) : KvMap :=
  foldl (fun m '(r, _) => snd (serve m r)) m h.

Lemma explains_snoc m h r rep :
  explains m (h ++ [(r, rep)]) <-> explains m h /\ rep = fst (serve (after m h) r).
Proof.
  revert m. induction h as [|[r' rep'] h IH]; intros m; simpl; [tauto|]. rewrite IH. tauto.
Qed.

Lemma after_snoc m h r rep : after m (h ++ [(r, rep)]) = snd (serve (after m h) r).
Proof. unfold after. by rewrite foldl_app. Qed.

(** ** All steps *)

(** The shards other than the one a step is about. *)
Lemma other_shards w w' sh g v L sh' A :
  only w w' sh g v -> sh' <> sh ->
  (forall s k b, s <> sh -> (s, k, b) ∈ frs w' <-> (s, k, b) ∈ frs w) ->
  (forall s k, s <> sh -> (s, k) ∈ ins w' <-> (s, k) ∈ ins w) ->
  (forall s k, s <> sh -> (s, k) ∈ dels w' <-> (s, k) ∈ dels w) ->
  at_group w sh' L A -> at_group w' sh' L A.
Proof. intros Ho Hne Hf Hi Hd HA. eapply at_group_other; [exact Ho|done|split_and!; auto|done]. Qed.

Lemma wf_set w g kv : (forall g, kv_wf (grp w g)) -> kv_wf kv -> forall g', kv_wf (<[g := kv]> (grp w) g').
Proof. intros Hw Hk g'. destruct (decide (g = g')) as [<-|]; by fn_upd. Qed.

Lemma cons_other {X : Type} (s sh : nat) (x y : X) l : s <> sh -> (s, x) ∈ (sh, y) :: l <-> (s, x) ∈ l.
Proof. intros Hne. rewrite elem_of_cons. split; [|by right]. intros [?|?]; [congruence|done]. Qed.

Lemma cons_other3 {X Y : Type} (s sh : nat) (x x' : X) (y y' : Y) l :
  s <> sh -> (s, x, y) ∈ (sh, x', y') :: l <-> (s, x, y) ∈ l.
Proof. intros Hne. rewrite elem_of_cons. split; [|by right]. intros [?|?]; [congruence|done]. Qed.

Lemma minv_freeze w L sh k src dst rep kv :
  minv w L -> (sh < NShards)%nat -> moved w sh k src dst ->
  DoFreezeShard (grp w src) (mkFreeze sh k) = Some (rep, kv) ->
  minv (mkWorld (<[src := kv]> (grp w)) (cfgs w) ((sh, k, fzr_State rep) :: frs w) (ins w) (dels w) (hist w)) L.
Proof.
  intros [W1 W2 W3 W4 W5 W6 W7] Hsh Hm Hd. set (w' := mkWorld _ _ _ _ _ _).
  destruct (DoFreezeShard_view (grp w src) sh k (W1 src) Hsh) as (rep' & kv' & E & Hwf & _ & Hv & Hst).
  rewrite Hd in E. simplify_eq.
  assert (Ho : only w w' sh src (v_freeze k (V w sh src))) by (by eapply only_set).
  assert (El : latest w' = latest w) by done. split; rewrite ?El; auto.
  - by apply wf_set.
  - intros s k' b [E|Hin]%elem_of_cons; [|by eapply W4]. simplify_eq. destruct Hm as (? & _). split; [lia|].
    rewrite Hst. dcase; [exists ∅; by left|]. eexists. right. split; [done|]. apply sdata_idem.
  - intros sh' Hsh'. destruct (W7 sh' Hsh') as (A & HA). exists A.
    destruct (decide (sh' = sh)) as [->|Hne]; [by eapply at_freeze|].
    eapply other_shards; [exact Ho|done| |done|done|done]. intros s k' b Hs. by apply cons_other3.
Qed.

Lemma minv_install w L sh k src dst b rep kv :
  minv w L -> (sh < NShards)%nat -> moved w sh k src dst -> (sh, k, b) ∈ frs w ->
  DoInstallShard (grp w dst) (mkInstall sh b k) = Some (rep, kv) ->
  minv (mkWorld (<[dst := kv]> (grp w)) (cfgs w) (frs w) ((sh, k) :: ins w) (dels w) (hist w)) L.
Proof.
  intros [W1 W2 W3 W4 W5 W6 W7] Hsh Hm Hb Hd. set (w' := mkWorld _ _ _ _ _ _).
  destruct (W4 _ _ _ Hb) as (_ & s & Hs). destruct (W7 sh Hsh) as (A & HA).
  assert (Hs' : exists s, state_bytes sh s b /\ (moving w sh A L -> k = latest w -> b = gob_enc (sdata sh L) -> s = sdata sh L)).
  { destruct (decide (b = gob_enc (sdata sh L))) as [->|]; [|by exists s]. exists (sdata sh L).
    split; [right; split; [done|apply sdata_idem]|done]. }
  destruct Hs' as (s' & Hsb & Hs').
  destruct (DoInstallShard_view (grp w dst) sh s' b k (W1 dst) Hsh Hsb) as (kv' & E & Hwf & Hv).
  rewrite Hd in E. simplify_eq.
  assert (Ho : only w w' sh dst (v_install k s' (V w sh dst))) by (by eapply only_set).
  assert (El : latest w' = latest w) by done. split; rewrite ?El; auto.
  - by apply wf_set.
  - intros s0 k' [E|Hin]%elem_of_cons; [|by eapply W5]. simplify_eq. destruct Hm as (? & _). lia.
  - intros sh' Hsh'. destruct (decide (sh' = sh)) as [->|Hne]; [by eapply at_install|].
    destruct (W7 sh' Hsh') as (A' & HA'). exists A'.
    eapply other_shards; [exact Ho|done|done| |done|done]. intros s0 k' Hs0. by apply cons_other.
Qed.

Lemma minv_delete w L sh k src dst rep kv :
  minv w L -> (sh < NShards)%nat -> moved w sh k src dst -> (sh, k) ∈ ins w ->
  DoDeleteShard (grp w src) (mkDelete sh k) = Some (rep, kv) ->
  minv (mkWorld (<[src := kv]> (grp w)) (cfgs w) (frs w) (ins w) ((sh, k) :: dels w) (hist w)) L.
Proof.
  intros [W1 W2 W3 W4 W5 W6 W7] Hsh Hm Hin Hd. set (w' := mkWorld _ _ _ _ _ _).
  destruct (DoDeleteShard_view (grp w src) sh k (W1 src) Hsh) as (kv' & E & Hwf & Hv).
  rewrite Hd in E. simplify_eq.
  assert (Ho : only w w' sh src (v_delete k (V w sh src))) by (by eapply only_set).
  assert (El : latest w' = latest w) by done. split; rewrite ?El; auto.
  - by apply wf_set.
  - intros s0 k' [E|Hin']%elem_of_cons; [|by eapply W6]. simplify_eq. destruct Hm as (? & _). lia.
  - intros sh' Hsh'. destruct (W7 sh' Hsh') as (A & HA). exists A.
    destruct (decide (sh' = sh)) as [->|Hne]; [by eapply at_delete|].
    eapply other_shards; [exact Ho|done|done|done| |done]. intros s0 k' Hs0. by apply cons_other.
Qed.

(** Only the data of the shard matters to the shard's invariant. *)
Lemma at_group_data w sh L L' A : sdata sh L = sdata sh L' -> at_group w sh L A -> at_group w sh L' A.
Proof.
  intros E [H1 H2 H3 H4 H5 H6 H7]. split; auto; [congruence|].
  destruct H7 as [?|(dst & ? & ? & ? & Hp)]; [by left|]. right. exists dst. split_and!; auto.
  destruct Hp as [?|(? & ? & Hb)]; [by left|]. right. split_and!; auto. rewrite <- E. auto.
Qed.

(** The holder serves a request: its data follow the store. *)
Lemma at_serve w w' sh L L' A :
  at_group w sh L A -> v_st (V w sh A) = Ready ->
  only w w' sh A (mkView Ready (v_num (V w sh A)) (sdata sh L')) ->
  frs w' = frs w -> ins w' = ins w -> dels w' = dels w -> at_group w' sh L' A.
Proof.
  intros [H1 H2 H3 H4 H5 H6 H7] Hr Ho Ef Ei Ed.
  destruct (only_same_cfgs _ _ _ _ _ Ho) as (El & Eo & Em). pose proof (only_view _ _ _ _ _ Ho) as EV.
  assert (EA : V w' sh A = mkView Ready (v_num (V w sh A)) (sdata sh L')) by (by rewrite EV, decide_True).
  assert (EN : forall g, v_num (V w' sh g) = v_num (V w sh g)) by (intros g; rewrite EV; by destruct (decide (g = A)) as [->|]).
  split; rewrite ?El, ?Ed; auto.
  - by rewrite EA.
  - intros g Hg. rewrite EV, decide_False by done. auto.
  - intros g. rewrite EN. auto.
  - intros k src dst. rewrite Em, !EN. auto.
  - intros g Hg. rewrite EV, decide_False, Em by done. auto.
  - intros Hd. destruct (H6 Hd) as (src & ?). exists src. by apply Em.
  - destruct H7 as [(? & ? & Hk & Hm)|(dst & ? & ? & ? & Hp)].
    + left. unfold settled. rewrite El, Eo, EA. cbn [v_st v_num]. split_and!; auto.
      * intros k. rewrite Eo. auto.
      * intros src. rewrite Em, EN. auto.
    + right. exists dst. rewrite El, Em, EN, EA, Ei, Ef. cbn [v_st v_num]. split_and!; auto.
      destruct Hp as [(? & ? & Hk & ?)|(? & _)]; [|congruence]. left. split_and!; auto. intros k. rewrite Eo. auto.
Qed.

Lemma refused_serve m r : refused (fst (serve m r)) = false.
Proof.
  destruct r as [a|a]; simpl; unfold KvSrv.Get, KvSrv.Put.
  - by destruct (m !! get_Key a).
  - destruct (m !! put_Key a); by dcase.
Qed.

Lemma refused_wrong r : refused (wrongGroup r) = true.
Proof. by destruct r. Qed.

(** A client's request: refused, or answered from [L]. *)
Lemma minv_client w L g i r rep kv :
  minv w L -> DoOp (grp w g) i (SKv r) = Some (SKvRep rep, kv) ->
  let w' h := mkWorld (<[g := kv]> (grp w)) (cfgs w) (frs w) (ins w) (dels w) h in
  (refused rep = true /\ forall h, minv (w' h) L) \/
  (refused rep = false /\ rep = fst (serve L r) /\ forall h, minv (w' h) (snd (serve L r))).
Proof.
  intros [W1 W2 W3 W4 W5 W6 W7] Hd w'. set (sh := Key2Shard (req_key r)).
  assert (Hsh : (sh < NShards)%nat) by apply Key2Shard_lt. destruct (W7 sh Hsh) as (A & HA).
  destruct (decide (v_st (V w sh g) = Ready)) as [Hr|Hr].
  - right. destruct (decide (g = A)) as [->|Hne]; [|by destruct (ag_ready _ _ _ _ HA g Hne)].
    destruct (client_view (grp w A) i r L (W1 A) Hr (ag_data _ _ _ _ HA)) as (kv' & E & Hwf & Hv).
    rewrite Hd in E. simplify_eq. split_and!; [apply refused_serve|done|]. intros h.
    assert (Ho : only w (w' h) sh A (mkView Ready (v_num (V w sh A)) (sdata sh (snd (serve L r))))) by (by eapply only_set).
    assert (El : latest (w' h) = latest w) by done. split; rewrite ?El; auto; [by apply wf_set|].
    intros sh' Hsh'. destruct (decide (sh' = sh)) as [->|Hne]; [exists A; by eapply at_serve|].
    destruct (W7 sh' Hsh') as (A' & HA'). exists A'. apply (at_group_data _ _ L); [by rewrite sdata_serve_other|].
    by eapply other_shards.
  - left. rewrite (DoOp_refuses _ i r (W1 g) Hr) in Hd. simplify_eq. split; [apply refused_wrong|]. intros h.
    assert (Ho : only w (w' h) sh g (V w sh g)).
    { eapply only_set; [done|done|]. intros sh'. by destruct (decide (sh' = sh)) as [->|]. }
    assert (El : latest (w' h) = latest w) by done. split; rewrite ?El; auto; [by apply wf_set|].
    intros sh' Hsh'. destruct (W7 sh' Hsh') as (A' & HA'). exists A'.
    destruct (decide (sh' = sh)) as [->|Hne]; [|by eapply other_shards].
    eapply at_group_stale; [done|done|]. split; auto.
Qed.

(** Before the next configuration every shard is where it should be. *)
Lemma done_settled w sh L A :
  at_group w sh L A -> (forall src dst, moved w sh (latest w) src dst -> (sh, latest w) ∈ dels w) ->
  settled w sh A /\ forall g, g <> A -> v_data (V w sh g) = ∅.
Proof.
  intros [H1 H2 H3 H4 H5 H6 H7] Hdone. split.
  - destruct H7 as [?|(dst & Hm & _)]; [done|]. destruct (H6 (Hdone _ _ Hm)) as (src & Hs).
    destruct (moved_fun _ _ _ _ _ _ _ Hm Hs) as [-> ->]. by destruct Hs as (_ & _ & _ & ?).
  - intros g Hg. destruct (H5 g Hg) as [?|[Hm Hno]]; [done|]. by destruct Hno; eapply Hdone.
Qed.

Section config.
Context (w : world) (c : ShardConfig) (L : KvMap).
Hypotheses (Hinv : minv w L) (Hc : cfg_wf c).
Hypothesis Hdone :
  forall sh src dst, (sh < NShards)%nat -> moved w sh (latest w) src dst -> (sh, latest w) ∈ dels w.
Let w' := mkWorld (grp w) (cfgs w ++ [c]) (frs w) (ins w) (dels w) (hist w).

Lemma latest_next : latest w' = latest w + 1.
Proof. unfold latest. simpl. by rewrite zlen_app. Qed.

Lemma owner_old sh k : 1 <= k <= latest w -> owner w' sh k = owner w sh k.
Proof. intros Hk. unfold owner, latest, zlen in *. simpl. by rewrite lookup_app_l by lia. Qed.

Lemma owner_next sh : owner w' sh (latest w + 1) = Shards c !! sh.
Proof.
  unfold owner, latest, zlen. simpl. replace (Z.to_nat _) with (length (cfgs w)) by lia.
  by rewrite lookup_app_r, Nat.sub_diag.
Qed.

Lemma moved_old sh k src dst : k <= latest w -> moved w' sh k src dst <-> moved w sh k src dst.
Proof.
  intros Hk. pose proof (mi_latest _ _ Hinv). unfold moved. rewrite latest_next.
  split; intros (? & ? & ? & ?); rewrite ?owner_old in * by lia; split_and!; auto; lia.
Qed.

Lemma at_config sh : (sh < NShards)%nat -> exists A, at_group w' sh L A.
Proof.
  intros Hsh. pose proof (mi_latest _ _ Hinv) as H1. destruct (mi_shard _ _ Hinv sh Hsh) as (A & HA).
  destruct (done_settled _ _ _ _ HA) as [(Ho & Hr & Hall & Hm) Hemp]; [by intros; eapply Hdone|].
  pose proof (ag_num _ _ _ _ HA) as Hnum. destruct (Shards c !! sh) as [B|] eqn:EB.
  2: { apply lookup_ge_None in EB. rewrite Hc in EB. lia. }
  assert (Hdel : (sh, latest w + 1) ∉ dels w) by (intros Hd; apply (mi_dels _ _ Hinv) in Hd; lia).
  exists A. assert (EV : forall g, V w' sh g = V w sh g) by done.
  split; rewrite ?latest_next; cbn [dels w'].
  - apply (ag_data _ _ _ _ HA).
  - apply (ag_ready _ _ _ _ HA).
  - intros g. rewrite EV. pose proof (Hnum g). lia.
  - intros k src dst Hk Hlt. apply moved_old in Hk; [|lia]. rewrite !EV.
    destruct (decide (k = latest w)) as [->|]; [|apply (ag_done _ _ _ _ HA); [done|lia]].
    assert (dst = A) as -> by (destruct Hk as (_ & _ & ? & _); congruence). by apply Hm.
  - intros g Hg. left. rewrite EV. auto.
  - done.
  - destruct (decide (B = A)) as [->|HB]; [left|right].
    + unfold settled. rewrite latest_next, owner_next, !EV. split_and!; auto.
      * intros k Hk. destruct (decide (k = latest w + 1)) as [->|]; [by rewrite owner_next|].
        pose proof (Hnum A). rewrite owner_old by lia. apply Hall. lia.
      * intros src (_ & Hs & _ & Hne). replace (latest w + 1 - 1) with (latest w) in Hs by lia.
        rewrite owner_old in Hs by lia. congruence.
    + exists B. rewrite latest_next, !EV. cbn [ins frs w']. pose proof (Hnum B). pose proof (Hnum A). split_and!.
      * unfold moved. rewrite latest_next. split_and!; [lia|lia| |by rewrite owner_next|done].
        replace (latest w + 1 - 1) with (latest w) by lia. by rewrite owner_old by lia.
      * lia.
      * intros Hi. apply (mi_ins _ _ Hinv) in Hi. lia.
      * left. split_and!; [done|lia| |].
        -- intros k Hk. rewrite owner_old by lia. apply Hall. lia.
        -- intros b Hb. destruct (mi_frs _ _ Hinv _ _ _ Hb) as [? _]. lia.
Qed.

Lemma minv_config : minv w' L.
Proof.
  pose proof Hinv as [W1 W2 W3 W4 W5 W6 W7]. split; rewrite ?latest_next; auto.
  - lia.
  - intros c'. simpl. rewrite elem_of_app, list_elem_of_singleton. intros [?| ->]; auto.
  - intros sh k b Hb. destruct (W4 _ _ _ Hb). split; [lia|done].
  - intros sh k Hk. apply W5 in Hk. lia.
  - intros sh k Hk. apply W6 in Hk. lia.
  - apply at_config.
Qed.

End config.

Lemma minit_inv w : minit w -> minv w KvSrv.MakeKVServer.
Proof.
  intros (Hg & (c & [Hn Hs] & Ec) & Ef & Ei & Ed & _).
  assert (El : latest w = 1) by (unfold latest; by rewrite Ec).
  assert (EV : forall sh g, (sh < NShards)%nat ->
    V w sh g = mkView (if decide (g = Gid1) then Ready else NotOwned) NumFirst ∅).
  { intros sh g Hsh. specialize (Hg g). unfold StartServerShardGrp in Hg.
    rewrite (decide_False (P := 0 < zlen [])) in Hg by (by unfold zlen).
    apply (inj Some) in Hg. unfold V, view_of. rewrite <- Hg. cbn [shardState cfgNum kvMap].
    rewrite !lookup_replicate_2 by done. simpl. f_equal. }
  split; rewrite ?El; [| lia | | | | |].
  - intros g. specialize (Hg g). unfold StartServerShardGrp in Hg.
    rewrite (decide_False (P := 0 < zlen [])) in Hg by (by unfold zlen). apply (inj Some) in Hg.
    rewrite <- Hg. split; apply length_replicate.
  - intros c'. rewrite Ec, list_elem_of_singleton. intros ->. unfold cfg_wf. by rewrite Hs, length_replicate.
  - intros sh k b. rewrite Ef. by intros ?%elem_of_nil.
  - intros sh k. rewrite Ei. by intros ?%elem_of_nil.
  - intros sh k. rewrite Ed. by intros ?%elem_of_nil.
  - intros sh Hsh. exists Gid1.
    assert (Hnm : forall k src dst, ~ moved w sh k src dst) by (intros k src dst (? & _); lia).
    split; rewrite ?EV, ?El by done; cbn [v_data v_st v_num].
    + done.
    + intros g Hne. rewrite EV, decide_False by done. done.
    + intros g. rewrite EV by done. done.
    + intros k src dst Hm. by destruct (Hnm _ _ _ Hm).
    + intros g _. rewrite EV by done. by left.
    + rewrite Ed. by intros ?%elem_of_nil.
    + left. unfold settled. rewrite El, EV by done. cbn [v_st v_num].
      assert (Ho : owner w sh 1 = Some Gid1).
      { unfold owner. rewrite Ec. simpl. rewrite Hs. by rewrite lookup_replicate_2. }
      split_and!; [done|by rewrite decide_True| |by intros src Hm; destruct (Hnm _ _ _ Hm)].
      intros k Hk. by replace k with 1 by (unfold NumFirst in Hk; lia).
Qed.

Definition store w : KvMap := after KvSrv.MakeKVServer (hist w).

(** The groups hold the store that results from what clients were answered. *)
Lemma mreach_inv w : mreach w -> minv w (store w) /\ explains KvSrv.MakeKVServer (hist w).
Proof.
  intros (w0 & Hi & Hr). revert w Hr. apply rtc_ind_r.
  - pose proof Hi as (_ & _ & _ & _ & _ & Eh). unfold store. rewrite Eh. split; [by apply minit_inv|done].
  - intros y z _ Hs [IH He]. destruct Hs as [w g i r rep kv Hd| | | |]; unfold store in *; cbn [hist].
    + destruct (minv_client _ _ _ _ _ _ _ IH Hd) as [[-> Hm]|(-> & -> & Hm)]; [by split|].
      rewrite after_snoc, explains_snoc. split; [apply Hm|done].
    + split; [by eapply minv_freeze|done].
    + split; [by eapply minv_install|done].
    + split; [by eapply minv_delete|done].
    + split; [by apply minv_config|done].
Qed.

(** ** Handlers never fail *)

(** The requests that reach the groups: clients' requests, and the steps of a
    migration with a state that was frozen. *)
Definition sent w (req : sreq) : Prop :=
  match req with
  | SKv _ => True
  | SFreeze a => (fz_Shard a < NShards)%nat
  | SInstall a => (in_Shard a < NShards)%nat /\ (in_Shard a, in_Num a, in_State a) ∈ frs w
  | SDelete a => (dl_Shard a < NShards)%nat
  end.

(** No group panics: in every reachable world every group executes every
    request that can be sent to it. *)
Theorem groups_never_panic w g i req : mreach w -> sent w req -> is_Some (DoOp (grp w g) i req).
Proof.
  intros [Hi _]%mreach_inv Hreq. pose proof (mi_wf _ _ Hi g) as Hwf. destruct req as [r|[sh k]|[sh b k]|[sh k]]; simpl in Hreq.
  - destruct (decide (v_st (view_of (grp w g) (Key2Shard (req_key r))) = Ready)) as [Hr|Hr].
    + by rewrite (DoOp_serves _ i r Hwf Hr).
    + by rewrite (DoOp_refuses _ i r Hwf Hr).
  - destruct (DoFreezeShard_view (grp w g) sh k Hwf Hreq) as (? & ? & E & _). simpl. by rewrite E.
  - destruct Hreq as [Hsh Hin]. destruct (mi_frs _ _ Hi _ _ _ Hin) as (_ & s & Hs).
    destruct (DoInstallShard_view (grp w g) sh s b k Hwf Hsh Hs) as (? & E & _). simpl. by rewrite E.
  - destruct (DoDeleteShard_view (grp w g) sh k Hwf Hreq) as (? & E & _). simpl. by rewrite E.
Qed.

(** ** The controller's loop *)

(** The three requests of [migrate], each as the world after its reply. *)
Definition FreezeShard w src sh k : option (list byte * world) :=
  '(rep, kv) ← DoFreezeShard (grp w src) (mkFreeze sh k);
  Some (fzr_State rep,
    mkWorld (<[src := kv]> (grp w)) (cfgs w) ((sh, k, fzr_State rep) :: frs w) (ins w) (dels w) (hist w)).

Definition InstallShard w dst sh b k : option world :=
  '(_, kv) ← DoInstallShard (grp w dst) (mkInstall sh b k);
  Some (mkWorld (<[dst := kv]> (grp w)) (cfgs w) (frs w) ((sh, k) :: ins w) (dels w) (hist w)).

Definition DeleteShard w src sh k : option world :=
  '(_, kv) ← DoDeleteShard (grp w src) (mkDelete sh k);
  Some (mkWorld (<[src := kv]> (grp w)) (cfgs w) (frs w) (ins w) ((sh, k) :: dels w) (hist w)).

(** The body of the loop for shard [sh]; [None] is a panic. *)
Definition migrate1 (cur new : ShardConfig) w sh : option world :=
  oldGid ← Shards cur !! sh;
  newGid ← Shards new !! sh;
  if decide (oldGid = newGid) then Some w
  else
    srcck ← MakeClerk cur oldGid;
    '(state, w) ← FreezeShard w srcck sh (Num new);
    dstck ← MakeClerk new newGid;
    w ← InstallShard w dstck sh state (Num new);
    DeleteShard w srcck sh (Num new).

Fixpoint migrate_loop (cur new : ShardConfig) w (shs : list nat) : option world :=
  match shs with
  | [] => Some w
  | sh :: shs => w ← migrate1 cur new w sh; migrate_loop cur new w shs
  end.

Definition migrate (cur new : ShardConfig) w : option world := migrate_loop cur new w (seq 0 NShards).

Lemma mreach_step w w' : mreach w -> rtc mstep w w' -> mreach w'.
Proof. intros (w0 & Hi & Hr) Hr'. exists w0. split; [done|]. by etrans. Qed.

Lemma mreach_nums w : mreach w -> forall i c, cfgs w !! i = Some c -> Num c = Z.of_nat i + 1.
Proof.
  intros (w0 & Hi & Hr). revert w Hr.
  apply (rtc_ind_r (fun w => forall i c, cfgs w !! i = Some c -> Num c = Z.of_nat i + 1)).
  - destruct Hi as (_ & (c0 & [Hn _] & ->) & _). intros [|i] c; simpl; [|done]. intros [= <-]. by rewrite Hn.
  - intros y z _ Hs IH. destruct Hs as [| | | |w c Hn]; cbn [cfgs]; auto.
    intros i c' Hc. destruct (lookup_app_Some (cfgs w) [c] i c') as [Hl _]. destruct (Hl Hc) as [?|[Hge Hi']]; [auto|].
    destruct (i - length (cfgs w))%nat eqn:Ei; simpl in Hi'; [|done]. simplify_eq. rewrite Hn. unfold latest, zlen. lia.
Qed.

(** [cur] and [new] are the last two configurations. *)
Definition last_two w (cur new : ShardConfig) : Prop :=
  cfgs w !! Z.to_nat (latest w - 2) = Some cur /\ cfgs w !! Z.to_nat (latest w - 1) = Some new /\ 2 <= latest w.

Lemma last_two_moved w cur new sh src dst :
  last_two w cur new -> Shards cur !! sh = Some src -> Shards new !! sh = Some dst -> src <> dst ->
  moved w sh (latest w) src dst.
Proof.
  intros (Hc & Hn & Hl) Hs Hd Hne. unfold moved, owner.
  replace (latest w - 1 - 1) with (latest w - 2) by lia. rewrite Hc, Hn. simpl. split_and!; auto; lia.
Qed.

(** What a run of (part of) the loop leaves. *)
Definition progress w w' : Prop :=
  rtc mstep w w' /\ cfgs w' = cfgs w /\ hist w' = hist w /\ dels w ⊆ dels w'.

Lemma progress_trans w1 w2 w3 : progress w1 w2 -> progress w2 w3 -> progress w1 w3.
Proof. intros (? & ? & ? & ?) (? & ? & ? & ?). split_and!; [by etrans|congruence|congruence|by etrans]. Qed.

Lemma progress_reach w w' : mreach w -> progress w w' -> mreach w'.
Proof. intros Hr (? & _). by eapply mreach_step. Qed.

Lemma migrate1_ok w cur new sh :
  mreach w -> last_two w cur new -> reachable cur new -> (sh < NShards)%nat ->
  exists w', migrate1 cur new w sh = Some w' /\ progress w w' /\
    forall src dst, moved w sh (latest w) src dst -> (sh, latest w) ∈ dels w'.
Proof.
  intros Hr Hl Hck Hsh. pose proof (mreach_inv _ Hr) as [Hi _]. pose proof Hl as (Hc & Hn & H2).
  assert (Hlen : forall c, c ∈ cfgs w -> is_Some (Shards c !! sh)).
  { intros c Hin. apply lookup_lt_is_Some. by rewrite (mi_cfgs _ _ Hi c Hin). }
  destruct (Hlen cur) as [src Es]; [by eapply list_elem_of_lookup_2|].
  destruct (Hlen new) as [dst Ed]; [by eapply list_elem_of_lookup_2|].
  unfold migrate1. rewrite Es, Ed. simpl. destruct (decide (src = dst)) as [->|Hne].
  { exists w. split; [done|]. split; [by split_and!|]. intros s d (_ & Hs & Hd & ?). unfold owner in *.
    replace (latest w - 1 - 1) with (latest w - 2) in Hs by lia. rewrite Hc in Hs. rewrite Hn in Hd. simpl in *. congruence. }
  pose proof (last_two_moved _ _ _ _ _ _ Hl Es Ed Hne) as Hm. destruct (Hck _ _ _ Es Ed Hne) as [-> ->]. simpl.
  assert (Num new = latest w) as -> by (rewrite (mreach_nums w Hr _ _ Hn); lia).
  unfold FreezeShard, InstallShard, DeleteShard.
  destruct (DoFreezeShard_view (grp w src) sh (latest w) (mi_wf _ _ Hi src) Hsh) as (rep & kv & E & _). rewrite E. simpl.
  pose proof (M_freeze _ _ _ _ _ _ _ Hsh Hm E) as S1. set (w1 := mkWorld _ _ _ _ _ _) in S1.
  destruct (mreach_inv w1) as [Hi1 _]; [by eapply mreach_step, rtc_once|].
  destruct (mi_frs _ _ Hi1 sh (latest w) (fzr_State rep)) as (_ & s & Hs); [by left|].
  destruct (DoInstallShard_view (grp w1 dst) sh s (fzr_State rep) (latest w) (mi_wf _ _ Hi1 dst) Hsh Hs) as (kv1 & E1 & _).
  unfold w1 in E1. cbn [grp] in E1. rewrite E1. simpl.
  assert (S2 := M_install w1 _ _ _ _ _ _ _ Hsh Hm (list_elem_of_here _ _) E1). cbn [w1 grp cfgs frs ins dels hist] in S2. set (w2 := mkWorld _ _ _ _ _ _) in S2.
  destruct (mreach_inv w2) as [Hi2 _]; [eapply mreach_step, rtc_l, rtc_once; [done|exact S1|exact S2]|].
  destruct (DoDeleteShard_view (grp w2 src) sh (latest w) (mi_wf _ _ Hi2 src) Hsh) as (kv2 & E2 & _).
  unfold w2 in E2. cbn [grp] in E2. rewrite E2. simpl.
  assert (S3 := M_delete w2 _ _ _ _ _ _ Hsh Hm (list_elem_of_here _ _) E2).
  eexists. split; [done|]. split.
  - split_and!; [|done|done|cbn [dels]; set_solver].
    eapply rtc_l; [exact S1|]. eapply rtc_l; [exact S2|]. by apply rtc_once.
  - intros. cbn [dels]. by left.
Qed.

Lemma migrate_loop_ok shs w cur new :
  mreach w -> last_two w cur new -> reachable cur new -> Forall (fun sh => (sh < NShards)%nat) shs ->
  exists w', migrate_loop cur new w shs = Some w' /\ progress w w' /\
    forall sh src dst, sh ∈ shs -> moved w sh (latest w) src dst -> (sh, latest w) ∈ dels w'.
Proof.
  revert w. induction shs as [|sh shs IH]; intros w Hr Hl Hck Hall.
  { exists w. split; [done|]. split; [by split_and!|]. by intros ? ? ? ?%elem_of_nil. }
  apply Forall_cons in Hall as [Hsh Hall]. simpl.
  destruct (migrate1_ok w cur new sh Hr Hl Hck Hsh) as (w1 & -> & P1 & D1). simpl.
  pose proof P1 as (_ & Ec & _ & _). assert (El : latest w1 = latest w) by (unfold latest; by rewrite Ec).
  destruct (IH w1) as (w2 & -> & P2 & D2); [by eapply progress_reach| |done|done|].
  { unfold last_two. by rewrite El, Ec. }
  exists w2. split; [done|]. split; [by eapply progress_trans|]. intros sh' src dst [->|Hin]%elem_of_cons Hm.
  - destruct P2 as (_ & _ & _ & Hsub). eapply Hsub, D1, Hm.
  - rewrite <- El. eapply (D2 _ src dst); [done|]. unfold moved, owner in *. by rewrite El, Ec.
Qed.

(** A migration completes.  Run without interruption between the last two
    configurations of a world that followed the protocol, when the groups
    between which shards move list servers, [migrate] panics nowhere, answers no
    client and ends with every shard served by the group the new configuration
    names, with exactly the keys the clients' answers imply; every other group has
    dropped the shard. *)
Theorem migrate_completes w cur new :
  mreach w -> last_two w cur new -> reachable cur new ->
  exists w', migrate cur new w = Some w' /\ mreach w' /\ hist w' = hist w /\
    forall sh A, Shards new !! sh = Some A ->
      v_st (view_of (grp w' A) sh) = Ready /\ v_data (view_of (grp w' A) sh) = sdata sh (store w) /\
      forall g, g <> A -> v_st (view_of (grp w' g) sh) <> Ready /\ v_data (view_of (grp w' g) sh) = ∅.
Proof.
  intros Hr Hl Hck. destruct (migrate_loop_ok (seq 0 NShards) w cur new Hr Hl Hck) as (w' & Em & HP & HD).
  { apply Forall_forall. intros sh Hsh%elem_of_seq. lia. }
  assert (Hr' : mreach w') by (by eapply progress_reach). destruct HP as (_ & Ec & Eh & _).
  exists w'. split; [exact Em|]. split_and!; [done|done|]. intros sh A EA. pose proof (mreach_inv _ Hr') as [Hi _].
  assert (El : latest w' = latest w) by (unfold latest; by rewrite Ec). pose proof Hl as (_ & Hn & _).
  assert (Hsh : (sh < NShards)%nat).
  { apply lookup_lt_Some in EA. rewrite <- (mi_cfgs _ _ Hi new); [done|]. rewrite Ec. by eapply list_elem_of_lookup_2. }
  destruct (mi_shard _ _ Hi sh Hsh) as (B & HB). destruct (done_settled _ _ _ _ HB) as [(Ho & Hst & _) Hemp].
  { intros src dst Hm. rewrite El in *. eapply HD; [apply elem_of_seq; lia|]. unfold moved, owner in *. by rewrite El, Ec in Hm. }
  assert (B = A) as ->.
  { unfold owner in Ho. rewrite El, Ec, Hn in Ho. simpl in Ho. congruence. }
  unfold store. rewrite <- Eh. split_and!; [done|apply (ag_data _ _ _ _ HB)|]. intros g Hg.
  split; [by apply (ag_ready _ _ _ _ HB)|by apply Hemp].
Qed.

End migration.

(** ** A migration, evaluated *)

Module MigDemo.

Import GrpDemo.

Definition cfg1 : ShardConfig := mkCfg 1 (replicate NShards Gid1) {[1 := ["s1"]; 2 := ["s2"]]}.
(** Every second shard goes to group 2. *)
Definition cfg2 : ShardConfig := mkCfg 2 [1; 2; 1; 2; 1; 2; 1; 2; 1; 2; 1; 2] (Groups cfg1).

Definition w0 : world := mkWorld
  (fun g => mkKV ∅ (replicate NShards (if decide (g = Gid1) then Ready else NotOwned)) (replicate NShards NumFirst))
  [cfg1] [] [] [] [].

Definition client (w : world) (g : Z) (r : request) : option world :=
  match DoOp (grp w g) 0 (SKv r) with
  | Some (SKvRep rep, kv) =>
      Some (mkWorld (<[g := kv]> (grp w)) (cfgs w) (frs w) (ins w) (dels w)
              (if refused rep then hist w else hist w ++ [(r, rep)]))
  | _ => None
  end.

Definition next_cfg (w : world) (c : ShardConfig) : world :=
  mkWorld (grp w) (cfgs w ++ [c]) (frs w) (ins w) (dels w) (hist w).

(** Keys of two shards, of which one moves. *)
Definition puts : option world :=
  w ← client w0 1 (RPut (mkPutArgs "a" "x" 0));
  w ← client w 1 (RPut (mkPutArgs "b" "y" 0));
  client w 2 (RGet (mkGetArgs "b")).

Definition demo : option world :=
  w ← puts; w ← migrate cfg1 cfg2 (next_cfg w cfg2);
  w ← client w 1 (RGet (mkGetArgs "a"));
  w ← client w 1 (RGet (mkGetArgs "b"));
  w ← client w 2 (RGet (mkGetArgs "a"));
  client w 2 (RPut (mkPutArgs "b" "z" 1)).

Lemma client_reach w g r w' : mreach w -> client w g r = Some w' -> mreach w'.
Proof.
  intros Hr. unfold client. destruct (DoOp _ _ _) as [[[rep| | |] kv]|] eqn:E; try done. intros [= <-].
  eapply mreach_step; [done|]. apply rtc_once. by eapply M_client.
Qed.

Lemma w0_reach : mreach w0.
Proof. exists w0. split; [|done]. split_and!; try done. by exists cfg1. Qed.

Lemma puts_reach w : puts = Some w -> mreach w.
Proof.
  unfold puts. intros H. do 2 apply bind_Some in H as (? & ? & H).
  repeat (eapply client_reach; [|done]). apply w0_reach.
Qed.

Lemma next_reach w : puts = Some w -> mreach (next_cfg w cfg2) /\ last_two (next_cfg w cfg2) cfg1 cfg2.
Proof.
  intros Hp. assert (Hc : cfgs w = [cfg1]).
  { cut (cfgs <$> puts = Some [cfg1]); [rewrite Hp; by intros [=]|]. vm_compute. reflexivity. }
  assert (Hl : latest w = 1) by (unfold latest; by rewrite Hc). split.
  - eapply mreach_step; [by apply puts_reach|]. apply rtc_once, M_config; rewrite ?Hl; [done|done|].
    intros sh src dst _ (? & _). lia.
  - unfold last_two, next_cfg, latest. cbn [cfgs]. rewrite Hc. split_and!; done.
Qed.

Lemma demo_reachable : reachable cfg1 cfg2.
Proof.
  intros sh src dst Hs Hd Hne. assert (src = 1) as ->.
  { apply list_elem_of_lookup_2, elem_of_replicate in Hs as [-> _]. done. }
  apply list_elem_of_lookup_2 in Hd. split; [done|]. repeat (apply elem_of_cons in Hd as [->|Hd]; [by vm_compute|]).
  by apply elem_of_nil in Hd.
Qed.

Lemma puts_some : exists w, puts = Some w.
Proof. destruct puts as [w|] eqn:E; [by exists w|]. by vm_compute in E. Qed.

Lemma demo_hist :
  (fun w => List.map snd (hist w)) <$> demo =
  Some [RepPut (mkPutReply OK); RepPut (mkPutReply OK); RepGet (mkGetReply "x" 1 OK); RepPut (mkPutReply OK)].
Proof. vm_compute. reflexivity. Qed.

Lemma mig_demo_reach : exists w, demo = Some w /\ mreach w.
Proof.
  destruct demo as [w|] eqn:E; [|by vm_compute in E]. exists w. split; [done|]. unfold demo in E.
  apply bind_Some in E as (wp & Ep & E). apply bind_Some in E as (wm & Em & E).
  assert (Hm : mreach wm).
  { destruct (next_reach _ Ep) as [Hr Hl].
    destruct (migrate_loop_ok (seq 0 NShards) _ _ _ Hr Hl demo_reachable) as (w' & Em' & HP & _).
    { apply Forall_forall. intros sh Hsh%elem_of_seq. lia. }
    unfold migrate in Em. rewrite Em' in Em. simplify_eq. by eapply progress_reach. }
  do 3 apply bind_Some in E as (? & ? & E). repeat (eapply client_reach; [|done]). done.
Qed.

Lemma groups_never_panic_witness :
  exists w, demo = Some w /\ is_Some (DoOp (grp w 2) 0 (SDelete (mkDelete 5 2))).
Proof.
  destruct mig_demo_reach as (w & E & Hr). exists w. split; [done|].
  apply (groups_never_panic w 2 0 _ Hr). simpl. unfold NShards. lia.
Defined.

Lemma migrate_completes_witness :
  exists w w', puts = Some w /\ migrate cfg1 cfg2 (next_cfg w cfg2) = Some w' /\
    v_st (view_of (grp w' 2) 5) = Ready /\ v_data (view_of (grp w' 1) 5) = ∅.
Proof.
  destruct puts_some as (w & E). destruct (next_reach w E) as [Hr Hl].
  destruct (migrate_completes (next_cfg w cfg2) cfg1 cfg2 Hr Hl demo_reachable) as (w' & Hm & _ & _ & Hall).
  destruct (Hall 5%nat 2 eq_refl) as (Hst & _ & Ho). destruct (Ho 1 ltac:(lia)) as [_ He].
  exists w, w'. exact (conj E (conj Hm (conj Hst He))).
Defined.

End MigDemo.
