(* ===== verification/ShardCtrl.v ===== *)
(** * The shard controllers

    [shardkv1/shardctrler/shardctrler.go]: [InitConfig], [ChangeConfigTo],
    [InitController], [Query], [readCfg] and [migrate], as programs of any number
    of controllers that run concurrently.  They share the keys "cfg" (the last
    completed configuration) and "next" (the configuration being moved to) of a
    key/value service, which behaves as the abstract service of [KvClerk], and
    send the steps of a migration to the shard groups of [ShardGrp], which may
    execute them repeatedly and late.

    The theorems: as long as [InitController] sees "cfg" and "next" at most one
    configuration apart ([serial]), the system only does what the protocol of
    [ShardMig] allows, hence stays linearizable, with one owner per shard;
    otherwise data can be lost ([CtrlRace]). *)

From S2P Require Import Prelude Gob Kv KvClerk Rsm ShardCfg ShardGrp ShardMig.

(** JSON, as far as it is relied on. *)
Class Json := {
  String : ShardConfig -> string;
  FromString : string -> option ShardConfig;
  from_string c : FromString (String c) = Some c;
  string_nonempty c : String c <> ""
}.

(** The step of [migrate] a controller is at. *)
Inductive mphase := PFreeze | PInstall (state : list byte) | PDelete.

Inductive cstate :=
| CIdle
| CDead                                           (* log.Fatalf, a panic *)
| CQuery (new : ShardConfig)                      (* ChangeConfigTo: sck.Query() *)
| CPropose (cur new : ShardConfig)                (* Put("next", new) *)
| CReread (cur new : ShardConfig)                 (* readCfg("next") *)
| CMigrate (cur new : ShardConfig) (sh : nat) (ph : mphase)
| CPublish (new : ShardConfig)                    (* Put("cfg", new) *)
| CInit1                                          (* InitController: readCfg("cfg") *)
| CInit2 (cur : option ShardConfig)               (* readCfg("next") *)
| CResume (cur nx : ShardConfig).                 (* next.Num > cur.Num *)

Inductive mreq :=
| MFreeze (src : Z) (sh : nat) (k : Z)
| MInstall (dst : Z) (sh : nat) (state : list byte) (k : Z)
| MDelete (src : Z) (sh : nat) (k : Z).

Section controller.
Context {js : Json}.

(** The puts of [InitConfig]. *)
Definition InitConfig (cfg : ShardConfig) : list request :=
  [RPut (mkPutArgs "cfg" (String cfg) 0); RPut (mkPutArgs "next" (String cfg) 0)].

(** [readCfg], given the reply of [Get]: the outer [None] is [log.Fatalf], the
    inner one nil. *)
Definition readCfg (g : GetReply) : option (option ShardConfig) :=
  if decide (getr_Err g <> OK \/ getr_Value g = "") then Some None
  else Some <$> FromString (getr_Value g).

Definition Query (g : GetReply) : option ShardConfig := FromString (getr_Value g).

Definition put_cfg (key : string) (c : ShardConfig) : request :=
  RPut (mkPutArgs key (String c) (u64 (Num c - 1))).

(** The clerk call a controller makes next. *)
Definition ctrl_next (_ : nat) (s : cstate) : option request :=
  match s with
  | CQuery _ | CInit1 => Some (RGet (mkGetArgs "cfg"))
  | CReread _ _ | CInit2 _ => Some (RGet (mkGetArgs "next"))
  | CPropose _ new => Some (put_cfg "next" new)
  | CPublish new => Some (put_cfg "cfg" new)
  | _ => None
  end.

(** [ChangeConfigTo(new)], at each return of the clerk. *)
Definition ChangeConfigTo (s : cstate) (rep : reply) : cstate :=
  match s, rep with
  | CQuery new, RepGet g =>
      match Query g with
      | None => CDead
      | Some cur => if decide (Num new <= Num cur) then CIdle else CPropose cur new
      end
  | CPropose cur new, RepPut r =>
      if decide (putr_Err r <> OK) then CReread cur new else CMigrate cur new 0 PFreeze
  | CReread cur new, RepGet g =>
      match readCfg g with
      | None => CDead
      | Some None => CIdle
      | Some (Some got) => if decide (String got <> String new) then CIdle else CMigrate cur new 0 PFreeze
      end
  | CPublish _, RepPut _ => CIdle
  | _, _ => s
  end.

Definition InitController (s : cstate) (rep : reply) : cstate :=
  match s, rep with
  | CInit1, RepGet g => match readCfg g with None => CDead | Some cur => CInit2 cur end
  | CInit2 cur, RepGet g =>
      match readCfg g with
      | None => CDead
      | Some nx => match cur, nx with
                   | Some cur, Some nx => if decide (Num cur < Num nx) then CResume cur nx else CIdle
                   | _, _ => CIdle
                   end
      end
  | _, _ => s
  end.

Definition ctrl_program : program cstate := {|
  next := ctrl_next;
  resume _ s rep := match s with CInit1 | CInit2 _ => InitController s rep | _ => ChangeConfigTo s rep end;
  local _ _ _ := False
|}.

(** The loop of [migrate]: the request it waits for ... *)
Definition wants (s : cstate) : option mreq :=
  match s with
  | CMigrate cur new sh ph =>
      oldGid ← Shards cur !! sh;
      newGid ← Shards new !! sh;
      if decide (oldGid = newGid) then None
      else match ph with
           | PFreeze => srcck ← MakeClerk cur oldGid; Some (MFreeze srcck sh (Num new))
           | PInstall state => dstck ← MakeClerk new newGid; Some (MInstall dstck sh state (Num new))
           | PDelete => srcck ← MakeClerk cur oldGid; Some (MDelete srcck sh (Num new))
           end
  | _ => None
  end.

(** [MakeClerk] panics for a group without servers. *)
Definition migrate_panics (s : cstate) : bool :=
  match s with
  | CMigrate cur new sh ph =>
      match Shards cur !! sh, Shards new !! sh with
      | Some oldGid, Some newGid =>
          if decide (oldGid = newGid) then false
          else match ph with
               | PFreeze => bool_decide (MakeClerk cur oldGid = None)
               | PInstall _ => bool_decide (MakeClerk new newGid = None)
               | PDelete => false
               end
      | _, _ => false
      end
  | _ => false
  end.

(** ... and its steps without one: the end of the loop, and a shard that stays. *)
Definition loop_step (s : cstate) : option cstate :=
  match s with
  | CMigrate cur new sh PFreeze =>
      if decide (NShards <= sh)%nat then Some (CPublish new)
      else
        oldGid ← Shards cur !! sh;
        newGid ← Shards new !! sh;
        if decide (oldGid = newGid) then Some (CMigrate cur new (sh + 1) PFreeze) else None
  | _ => None
  end.

Context `{!Gob KvMap} `{!Gob (KvMap * list ShardState * list Z)}.

(** The controllers and their service, the groups, the replies the groups gave,
    the requests that were executed at least once, and the clients' history. *)
Record kworld := mkK {
  k_kv : @asys cstate;
  k_grp : Z -> KVServer;
  k_frs : list (nat * Z * list byte);
  k_ins : list (nat * Z);
  k_dels : list (nat * Z);
  k_sent : list mreq;
  k_hist : list (request * reply)
}.
Implicit Types (k : kworld) (w : world) (c : nat) (cur new nx : ShardConfig).

Definition with_kv k (a : @asys cstate) : kworld :=
  mkK a (k_grp k) (k_frs k) (k_ins k) (k_dels k) (k_sent k) (k_hist k).

Definition set_app k c (s : cstate) : kworld :=
  with_kv k (mkA (a_st (k_kv k)) (<[c := s]> (a_app (k_kv k))) (a_op (k_kv k)) (a_late (k_kv k)) (a_hist (k_kv k))).

(** A group executes a request. *)
Definition run_req (r : mreq) k : option kworld :=
  match r with
  | MFreeze src sh n =>
      '(rep, kv) ← DoFreezeShard (k_grp k src) (mkFreeze sh n);
      Some (mkK (k_kv k) (<[src := kv]> (k_grp k)) ((sh, n, fzr_State rep) :: k_frs k) (k_ins k) (k_dels k) (r :: k_sent k) (k_hist k))
  | MInstall dst sh b n =>
      '(_, kv) ← DoInstallShard (k_grp k dst) (mkInstall sh b n);
      Some (mkK (k_kv k) (<[dst := kv]> (k_grp k)) (k_frs k) ((sh, n) :: k_ins k) (k_dels k) (r :: k_sent k) (k_hist k))
  | MDelete src sh n =>
      '(_, kv) ← DoDeleteShard (k_grp k src) (mkDelete sh n);
      Some (mkK (k_kv k) (<[src := kv]> (k_grp k)) (k_frs k) (k_ins k) ((sh, n) :: k_dels k) (r :: k_sent k) (k_hist k))
  end.

(** A reply lets the loop go on. *)
Inductive replied k : cstate -> cstate -> Prop :=
| R_freeze cur new sh b :
    is_Some (wants (CMigrate cur new sh PFreeze)) -> (sh, Num new, b) ∈ k_frs k ->
    replied k (CMigrate cur new sh PFreeze) (CMigrate cur new sh (PInstall b))
| R_install cur new sh b :
    is_Some (wants (CMigrate cur new sh (PInstall b))) -> (sh, Num new) ∈ k_ins k -> replied k (CMigrate cur new sh (PInstall b)) (CMigrate cur new sh PDelete)
| R_delete cur new sh :
    (sh, Num new) ∈ k_dels k -> replied k (CMigrate cur new sh PDelete) (CMigrate cur new (sh + 1) PFreeze).

(** [ok] restricts the configurations [InitController] goes on with. *)
Inductive kstep (ok : ShardConfig -> ShardConfig -> Prop) : kworld -> kworld -> Prop :=
| K_kv k a' : astep ctrl_program (k_kv k) a' -> kstep ok k (with_kv k a')
(* new configurations are built from one that was read from "cfg" *)
| K_change k c new :
    a_app (k_kv k) c = CIdle -> a_op (k_kv k) c = AIdle -> cfg_wf new ->
    Num new <= ver_of (a_st (k_kv k)) "cfg" + 1 -> kstep ok k (set_app k c (CQuery new))
| K_init k c :
    a_app (k_kv k) c = CIdle -> a_op (k_kv k) c = AIdle -> kstep ok k (set_app k c CInit1)
| K_resume k c cur nx :
    a_app (k_kv k) c = CResume cur nx -> ok cur nx -> kstep ok k (set_app k c (CMigrate cur nx 0 PFreeze))
| K_loop k c s' :
    loop_step (a_app (k_kv k) c) = Some s' -> kstep ok k (set_app k c s')
| K_panic k c :
    migrate_panics (a_app (k_kv k) c) = true -> kstep ok k (set_app k c CDead)
| K_run k r k' :
    (r ∈ k_sent k \/ exists c, wants (a_app (k_kv k) c) = Some r) -> run_req r k = Some k' -> kstep ok k k'
| K_reply k c s' : replied k (a_app (k_kv k) c) s' -> kstep ok k (set_app k c s')
| K_client k g i r rep kv :
    DoOp (k_grp k g) i (SKv r) = Some (SKvRep rep, kv) ->
    kstep ok k (mkK (k_kv k) (<[g := kv]> (k_grp k)) (k_frs k) (k_ins k) (k_dels k) (k_sent k)
               (if refused rep then k_hist k else k_hist k ++ [(r, rep)])).

Lemma kstep_mono (ok ok' : ShardConfig -> ShardConfig -> Prop) k k' :
  (forall cur nx, ok cur nx -> ok' cur nx) -> kstep ok k k' -> kstep ok' k k'.
Proof.
  intros Hok [? ? Hs|? c new|? c|? c cur nx|? c s'|? c|? r ?|? c s'|? g i r rep kv].
  - by apply K_kv.
  - by apply K_change.
  - by apply K_init.
  - eauto using K_resume.
  - by apply K_loop.
  - by apply K_panic.
  - by eapply K_run.
  - by apply K_reply.
  - by eapply K_client.
Qed.

(** The first configuration has been stored, no controller runs. *)
Definition kinit (c1 : ShardConfig) k : Prop :=
  first_cfg c1 /\
  k_kv k = mkA (foldl (fun m r => snd (serve m r)) KvSrv.MakeKVServer (InitConfig c1))
             (fun _ => CIdle) (fun _ => AIdle) [] [] /\
  (forall g, StartServerShardGrp g [] = Some (k_grp k g)) /\
  k_frs k = [] /\ k_ins k = [] /\ k_dels k = [] /\ k_sent k = [] /\ k_hist k = [].

Definition kreach ok k : Prop := exists (c1 : ShardConfig) k0, kinit c1 k0 /\ rtc (kstep ok) k0 k.

(** ** The invariant *)

(** The worlds of [ShardMig] that agree with the system. *)
Definition agrees k w : Prop :=
  grp w = k_grp k /\ frs w = k_frs k /\ ins w = k_ins k /\ dels w = k_dels k /\ hist w = k_hist k.

(** The migration to configuration [n] is complete. *)
Definition complete w (n : Z) : Prop :=
  forall sh src dst, (sh < NShards)%nat -> moved w sh n src dst -> (sh, n) ∈ dels w.

Definition known w (c : ShardConfig) : Prop := 1 <= Num c /\ cfgs w !! Z.to_nat (Num c - 1) = Some c.

(** What the service holds, [p] being the number of the published configuration. *)
Record store_ok (m : KvMap) w (p : Z) : Prop := {
  so_next : exists x, known w x /\ Num x = latest w /\ m !! "next" = Some (mkKvEntry (String x) (latest w));
  so_cfg : exists x, known w x /\ Num x = p /\ m !! "cfg" = Some (mkKvEntry (String x) p);
  so_gap : latest w <= p + 1;
  so_done n : n <= p -> complete w n
}.

(** The puts controllers make. *)
Inductive good_put w (p : Z) : PutArgs -> Prop :=
| G_next cur new :
    known w cur -> cfg_wf new -> Num new = Num cur + 1 -> Num cur <= p ->
    good_put w p (mkPutArgs "next" (String new) (u64 (Num new - 1)))
| G_cfg new :
    known w new -> complete w (Num new) ->
    good_put w p (mkPutArgs "cfg" (String new) (u64 (Num new - 1))).

(** A [Get] in progress, with [Q] for the configuration it returns. *)
Definition reading (key : string) (Q : ShardConfig -> Prop) (o : aop) : Prop :=
  let r := RGet (mkGetArgs key) in
  o = AIdle \/ o = APend r \/
  (exists g lf x, o = ADone r (RepGet g) lf /\ getr_Err g = OK /\ getr_Value g = String x /\ Q x).

Definition putting (r : request) (Q : Prop) (o : aop) : Prop :=
  o = AIdle \/ o = APend r \/ (exists rep lf, o = ADone r rep lf /\ (rep = put_ok -> Q) /\ exists e, rep = RepPut (mkPutReply e)).

Definition step_of cur new w : Prop := known w cur /\ known w new /\ Num new = Num cur + 1.

Definition Jctrl w (p : Z) (s : cstate) (o : aop) : Prop :=
  match s with
  | CIdle | CDead => o = AIdle
  | CQuery new => cfg_wf new /\ Num new <= p + 1 /\
      reading "cfg" (fun x => known w x /\ Num new - 1 <= Num x <= p) o
  | CPropose cur new => known w cur /\ cfg_wf new /\ Num new = Num cur + 1 /\ Num cur <= p /\
      putting (put_cfg "next" new) (known w new) o
  | CReread cur new => known w cur /\ Num new = Num cur + 1 /\ reading "next" (known w) o
  | CMigrate cur new sh ph => step_of cur new w /\ o = AIdle /\
      (forall sh' src dst, (sh' < sh)%nat -> moved w sh' (Num new) src dst -> (sh', Num new) ∈ dels w) /\
      match ph with
      | PFreeze => True
      | PInstall b => (sh, Num new, b) ∈ frs w
      | PDelete => (sh, Num new) ∈ ins w
      end
  | CPublish new => known w new /\ complete w (Num new) /\ putting (put_cfg "cfg" new) True o
  | CInit1 => reading "cfg" (known w) o
  | CInit2 cur => (forall x, cur = Some x -> known w x) /\ reading "next" (known w) o
  | CResume cur nx => known w cur /\ known w nx /\ Num cur < Num nx /\ o = AIdle
  end.

Definition good_req w (r : mreq) : Prop :=
  match r with
  | MFreeze src sh n => (sh < NShards)%nat /\ exists dst, moved w sh n src dst
  | MInstall dst sh b n => (sh < NShards)%nat /\ (exists src, moved w sh n src dst) /\ (sh, n, b) ∈ frs w
  | MDelete src sh n => (sh < NShards)%nat /\ (exists dst, moved w sh n src dst) /\ (sh, n) ∈ ins w
  end.

Record kinv k w (p : Z) : Prop := {
  ki_reach : mreach w;
  ki_agree : agrees k w;
  ki_store : store_ok (a_st (k_kv k)) w p;
  ki_ctrl c : Jctrl w p (a_app (k_kv k) c) (a_op (k_kv k) c);
  ki_late x : x ∈ a_late (k_kv k) -> good_put w p x;
  ki_sent r : r ∈ k_sent k -> good_req w r
}.

(** ** Knowledge is never lost *)

Record grows w (p : Z) w' (p' : Z) : Prop := {
  gr_cfgs : cfgs w `prefix_of` cfgs w';
  gr_frs : frs w ⊆ frs w';
  gr_ins : ins w ⊆ ins w';
  gr_dels : dels w ⊆ dels w';
  gr_p : p <= p'
}.

Lemma grows_latest w p w' p' : grows w p w' p' -> latest w <= latest w'.
Proof. intros G. destruct (gr_cfgs _ _ _ _ G) as [l E]. unfold latest. rewrite E, zlen_app. pose proof (zlen_nonneg l). lia. Qed.

Lemma known_latest w x : known w x -> Num x <= latest w.
Proof. intros [? H]. apply lookup_lt_Some in H. unfold latest, zlen. lia. Qed.

Lemma known_grows w p w' p' x : grows w p w' p' -> known w x -> known w' x.
Proof. intros G [? H]. split; [done|]. eapply prefix_lookup; [apply G|done]. Qed.

Lemma owner_grows w p w' p' sh n : grows w p w' p' -> 1 <= n <= latest w -> owner w' sh n = owner w sh n.
Proof.
  intros G Hn. unfold owner. destruct (gr_cfgs _ _ _ _ G) as [l E]. rewrite E.
  unfold latest, zlen in Hn. by rewrite lookup_app_l by lia.
Qed.

Lemma moved_grows w p w' p' sh n src dst :
  grows w p w' p' -> n <= latest w -> moved w' sh n src dst <-> moved w sh n src dst.
Proof.
  intros G Hn. pose proof (grows_latest _ _ _ _ G). unfold moved.
  pose proof (owner_grows _ _ _ _ sh n G). pose proof (owner_grows _ _ _ _ sh (n - 1) G).
  split; intros (? & Ho & Ho' & ?); (split; [lia|]); split_and!; try done.
  - by rewrite <- Ho, <- H1 by lia.
  - by rewrite <- Ho', <- H0 by lia.
  - by rewrite H1 by lia.
  - by rewrite H0 by lia.
Qed.

Lemma complete_grows w p w' p' n : grows w p w' p' -> n <= latest w -> complete w n -> complete w' n.
Proof.
  intros G Hn Hc sh src dst Hsh Hm. apply (moved_grows _ _ _ _ _ _ _ _ G Hn) in Hm.
  apply (gr_dels _ _ _ _ G). by eapply Hc.
Qed.

Lemma good_put_grows w p w' p' x : grows w p w' p' -> good_put w p x -> good_put w' p' x.
Proof.
  intros G [cur new ? ? ? ?|new Hk Hc].
  - pose proof (gr_p _ _ _ _ G). eapply G_next; eauto using known_grows. lia.
  - apply G_cfg; [by eapply known_grows|]. eapply complete_grows; eauto using known_latest.
Qed.

Lemma good_req_grows w p w' p' r : grows w p w' p' -> good_req w r -> good_req w' r.
Proof.
  intros G. assert (Hm : forall sh n src dst, moved w sh n src dst -> moved w' sh n src dst).
  { intros sh n src dst Hm. pose proof Hm as (? & _). apply (moved_grows _ _ _ _ _ _ _ _ G); [lia|done]. }
  destruct r; simpl.
  - intros (? & dst & ?). eauto.
  - intros (? & (src & ?) & ?). pose proof (gr_frs _ _ _ _ G). split_and!; eauto.
  - intros (? & (dst & ?) & ?). pose proof (gr_ins _ _ _ _ G). split_and!; eauto.
Qed.

Lemma reading_weaken key (Q Q' : ShardConfig -> Prop) o :
  (forall x, Q x -> Q' x) -> reading key Q o -> reading key Q' o.
Proof. intros HQ [?|[?|(g & lf & x & ? & ? & ? & ?)]]; unfold reading; eauto 12. Qed.

Lemma putting_weaken r (Q Q' : Prop) o : (Q -> Q') -> putting r Q o -> putting r Q' o.
Proof. intros HQ [?|[?|(rep & lf & ? & ? & ?)]]; unfold putting; eauto 12. Qed.

Lemma Jctrl_grows w p w' p' s o : grows w p w' p' -> Jctrl w p s o -> Jctrl w' p' s o.
Proof.
  intros G. pose proof (gr_p _ _ _ _ G) as Hp. assert (Hk : forall x, known w x -> known w' x) by eauto using known_grows.
  destruct s as [| |new|cur new|cur new|cur new sh ph|new| |cur|cur nx]; simpl; auto.
  - intros (? & ? & Hr). split_and!; [done|lia|]. eapply reading_weaken; [|exact Hr]. simpl. intros x [? ?]. split; [auto|lia].
  - intros (? & ? & ? & ? & Hr). split_and!; [auto|done|done|lia|]. eapply putting_weaken; [|exact Hr]. auto.
  - intros (? & ? & Hr). split_and!; auto. eapply reading_weaken; [|exact Hr]. auto.
  - intros ((Hc & Hn & ?) & ? & Hd & Hph). unfold step_of. split_and!; auto.
    + intros sh' src dst Hsh Hm. apply (gr_dels _ _ _ _ G). eapply Hd; [done|].
      apply (moved_grows _ _ _ _ _ _ _ _ G); [by apply known_latest|done].
    + destruct ph; [done|by apply (gr_frs _ _ _ _ G)|by apply (gr_ins _ _ _ _ G)].
  - intros (? & ? & ?). split_and!; auto. eapply complete_grows; eauto using known_latest.
  - intros Hr. eapply reading_weaken; [|exact Hr]. auto.
  - intros (? & Hr). split; [auto|]. eapply reading_weaken; [|exact Hr]. auto.
  - intros (? & ? & ? & ?). split_and!; auto.
Qed.

Lemma grows_refl w p : grows w p w p.
Proof. split; [done|done|done|done|lia]. Qed.

(** ** Serving a controller's request *)

Lemma store_get_cfg (m : KvMap) w p : store_ok m w p -> exists x, KvSrv.Get m (mkGetArgs "cfg") = mkGetReply (String x) p OK /\ known w x /\ Num x = p.
Proof. intros S. destruct (so_cfg _ _ _ S) as (x & ? & ? & E). exists x. unfold KvSrv.Get. simpl. by rewrite E. Qed.

Lemma store_get_next m w p : store_ok m w p -> exists x v, KvSrv.Get m (mkGetArgs "next") = mkGetReply (String x) v OK /\ known w x.
Proof. intros S. destruct (so_next _ _ _ S) as (x & ? & ? & E). exists x, (latest w). unfold KvSrv.Get. simpl. by rewrite E. Qed.

Lemma nowrap_u64 (m : KvMap) (key : string) e n : nowrap m -> m !! key = Some e -> 0 <= n <= version e + 1 -> u64 n = n.
Proof. intros Hw He Hn. apply Hw in He. unfold u64. apply Z.mod_small. lia. Qed.

(** A good put: the service moves on to a world that knows more. *)
Lemma put_good m w p x :
  nowrap m -> mreach w -> store_ok m w p -> good_put w p x ->
  let '(rep, m') := KvSrv.Put m x in
  exists w' p', mreach w' /\ store_ok m' w' p' /\ grows w p w' p' /\
    (forall k, agrees k w -> agrees k w') /\ (putr_Err rep = OK \/ putr_Err rep = ErrVersion) /\
    (forall new, put_Key x = "next" -> put_Value x = String new -> rep = mkPutReply OK -> known w' new).
Proof.
  intros Hw Hr S Hg. pose proof S as [(xn & Kn & En & Mn) (xc & Kc & Ec & Mc) Hgap Hdone].
  assert (Hquiet : forall rep, putr_Err rep = ErrVersion -> exists w' p', mreach w' /\ store_ok m w' p' /\ grows w p w' p' /\
    (forall k, agrees k w -> agrees k w') /\ (putr_Err rep = OK \/ putr_Err rep = ErrVersion) /\
    (forall new, put_Key x = "next" -> put_Value x = String new -> rep = mkPutReply OK -> known w' new)).
  { intros rep Hrep. exists w, p. split_and!; auto using grows_refl. intros ? _ _ ->. done. }
  unfold KvSrv.Put. destruct Hg as [cur new Hc Hwf Hnum Hle|new Hk Hcomp]; cbn [put_Key put_Value put_Version].
  - rewrite Mn. simpl. assert (Hu : u64 (Num new - 1) = Num new - 1).
    { destruct Hc as [? _]. eapply (nowrap_u64 m); [done|exact Mc|simpl; lia]. }
    rewrite Hu. dcase; [|by apply (Hquiet (mkPutReply ErrVersion))]. assert (Hv : Num new - 1 = latest w) by exact e.
    (* the proposal wins *)
    pose proof (known_latest _ _ Kc) as Hcl.
    assert (Hp : p = latest w) by lia.
    set (w' := mkWorld (grp w) (cfgs w ++ [new]) (frs w) (ins w) (dels w) (hist w)).
    assert (Hl : latest w' = latest w + 1) by (unfold latest; simpl; by rewrite zlen_app).
    assert (Hr' : mreach w').
    { eapply mreach_step; [done|]. apply rtc_once, M_config; [lia|done|]. rewrite <- Hp. by apply Hdone. }
    assert (G : grows w p w' p) by (split; [by eexists|done|done|done|lia]).
    assert (Kw : known w' new).
    { split; [pose proof (proj1 Hc); lia|]. simpl. rewrite Hnum. replace (Z.to_nat (Num cur + 1 - 1)) with (length (cfgs w)).
      - by rewrite lookup_app_r, Nat.sub_diag.
      - unfold latest, zlen in Hv. lia. }
    exists w', p. split_and!; auto.
    + split.
      * exists new. rewrite lookup_insert_eq, Hl. split_and!; [done|lia|].
        do 2 f_equal. eapply (nowrap_u64 m); [done|exact Mn|simpl]. pose proof (known_latest _ _ Kn). destruct Kn. lia.
      * exists xc. rewrite lookup_insert_ne by done. split_and!; auto. by eapply known_grows.
      * lia.
      * intros n Hn. eapply complete_grows; [done|lia|auto].
    + intros new' _ E _. assert (Hj : FromString (String new) = FromString (String new')) by (by rewrite E).
      rewrite !from_string in Hj. by simplify_eq.
  - rewrite Mc. simpl. assert (Hu : u64 (Num new - 1) = Num new - 1 \/ u64 (Num new - 1) <> p).
    { destruct (decide (Num new - 1 <= p + 1)); [left|].
      - destruct Hk. eapply (nowrap_u64 m); [done|exact Mc|simpl; lia].
      - left. pose proof (known_latest _ _ Hk). lia. }
    dcase; [|by apply (Hquiet (mkPutReply ErrVersion))].
    destruct Hu as [Hu|?]; [|done]. assert (Hv : Num new - 1 = p) by congruence. clear Hu e.
    exists w, (Num new). assert (G : grows w p w (Num new)) by (split; [done|done|done|done|lia]). split_and!; auto.
    + split.
      * exists xn. rewrite lookup_insert_ne by done. by split_and!.
      * exists new. rewrite lookup_insert_eq. split_and!; [done|done|]. do 2 f_equal.
        destruct Kc. rewrite (nowrap_u64 m "cfg" (mkKvEntry (String xc) p)); simpl; [lia|done|done|lia].
      * lia.
      * intros n Hn. destruct (decide (n = Num new)) as [->|]; [done|]. apply Hdone. lia.
    + by intros ? ?.
Qed.

(** The request a controller has in progress. *)
Lemma ctrl_request w p c s o r lf : Jctrl w p s o -> unserved o r lf -> ctrl_next c s = Some r.
Proof.
  intros HJ Hu.
  assert (Hrd : forall key Q, reading key Q o -> r = RGet (mkGetArgs key)).
  { intros key Q [-> |[-> |(g & lf' & x & -> & _)]]; destruct Hu as [[? _]|(rep & ? & _)]; by simplify_eq. }
  assert (Hpt : forall r' Q, putting r' Q o -> r = r').
  { intros r' Q [-> |[-> |(rep' & lf' & -> & _)]]; destruct Hu as [[? _]|(rep & ? & _)]; by simplify_eq. }
  assert (Hid : o <> AIdle) by (destruct Hu as [[-> _]|(rep & -> & _)]; done).
  destruct s; simpl in *; des; try done; f_equal; symmetry; eauto.
Qed.

Lemma serve_ctrl m w p c s o r lf :
  nowrap m -> mreach w -> store_ok m w p -> Jctrl w p s o -> unserved o r lf ->
  exists w' p', mreach w' /\ store_ok (snd (serve m r)) w' p' /\ grows w p w' p' /\
    (forall k, agrees k w -> agrees k w') /\ Jctrl w' p' s (ADone r (fst (serve m r)) lf).
Proof.
  intros Hw Hr HS HJ Hu. pose proof (ctrl_request _ _ c _ _ _ _ HJ Hu) as Hn.
  assert (Hcfg : forall Q : ShardConfig -> Prop, (forall x, known w x -> Num x = p -> Q x) ->
    reading "cfg" Q (ADone (RGet (mkGetArgs "cfg")) (fst (serve m (RGet (mkGetArgs "cfg")))) lf)).
  { intros Q HQ. destruct (store_get_cfg _ _ _ HS) as (x & E & ? & ?). right; right. simpl. rewrite E.
    eexists _, lf, x. split_and!; [done|done|done|auto]. }
  assert (Hnext : forall Q : ShardConfig -> Prop, (forall x, known w x -> Q x) ->
    reading "next" Q (ADone (RGet (mkGetArgs "next")) (fst (serve m (RGet (mkGetArgs "next")))) lf)).
  { intros Q HQ. destruct (store_get_next _ _ _ HS) as (x & v & E & ?). right; right. simpl. rewrite E.
    eexists _, lf, x. split_and!; [done|done|done|auto]. }
  destruct s as [| |new|cur new|cur new|cur new sh ph|new| |cur|cur nx]; simpl in Hn; simplify_eq; simpl in HJ.
  - exists w, p. split_and!; auto using grows_refl. destruct HJ as (? & ? & _). split_and!; auto. apply Hcfg. intros. split; [done|lia].
  - destruct HJ as (Hc & Hwf & Hnum & Hle & _).
    pose proof (put_good m w p _ Hw Hr HS (G_next w p cur new Hc Hwf Hnum Hle)) as HP. unfold put_cfg. cbn [serve].
    destruct (KvSrv.Put m _) as [[e] m'] eqn:E. destruct HP as (w' & p' & ? & ? & G & ? & _ & Hok). simpl.
    exists w', p'. split_and!; auto; [by eapply known_grows|pose proof (gr_p _ _ _ _ G); lia|].
    right; right. eexists _, lf. split_and!; [done| |by eexists]. intros [= ->]. by apply Hok.
  - exists w, p. split_and!; auto using grows_refl. destruct HJ as (? & ? & _). split_and!; auto.
  - destruct HJ as (Hk & Hcomp & _).
    pose proof (put_good m w p _ Hw Hr HS (G_cfg w p new Hk Hcomp)) as HP. unfold put_cfg. cbn [serve].
    destruct (KvSrv.Put m _) as [[e] m'] eqn:E. destruct HP as (w' & p' & ? & ? & G & ? & _ & _). simpl.
    exists w', p'. split_and!; auto; [by eapply known_grows|eapply complete_grows; eauto using known_latest|].
    right; right. eexists _, lf. split_and!; [done|done|by eexists].
  - exists w, p. split_and!; auto using grows_refl. apply Hcfg. auto.
  - exists w, p. split_and!; auto using grows_refl. destruct HJ as (? & _). split_and!; auto.
Qed.

(** Returning to the program. *)
Lemma reading_return key Q r rep lf rep' :
  reading key Q (ADone r rep lf) -> weakens lf rep rep' ->
  exists g x, rep' = RepGet g /\ getr_Err g = OK /\ getr_Value g = String x /\ Q x.
Proof.
  intros [?|[?|(g & lf' & x & ? & ? & ? & ?)]] Hw; simplify_eq.
  destruct Hw as [[-> _]|[_ [?|?]]]; [|done..]. eauto 6.
Qed.

Lemma readCfg_string g x : getr_Err g = OK -> getr_Value g = String x -> readCfg g = Some (Some x).
Proof.
  intros E1 E2. unfold readCfg. rewrite decide_False; [by rewrite E2, from_string|].
  rewrite E1, E2. intros [?|?]; [done|]. by eapply string_nonempty.
Qed.

Lemma migrate_start w p cur new :
  known w cur -> known w new -> Num new = Num cur + 1 -> Jctrl w p (CMigrate cur new 0 PFreeze) AIdle.
Proof. intros. split_and!; auto; [by split_and!|intros; lia]. Qed.

Lemma return_ctrl w p c s r rep lf rep' :
  Jctrl w p s (ADone r rep lf) -> weakens lf rep rep' -> Jctrl w p (resume ctrl_program c s rep') AIdle.
Proof.
  intros HJ Hw.
  assert (Hput : forall r' Q, putting r' Q (ADone r rep lf) -> exists e, rep' = RepPut (mkPutReply e) /\ (e = OK -> Q)).
  { intros r' Q [?|[?|(rep1 & lf' & ? & HQ & e & ?)]]; simplify_eq.
    destruct Hw as [[-> _]|[-> _]]; eexists; (split; [done|]); [|done]. intros ->. by apply HQ. }
  destruct s as [| |new|cur new|cur new|cur new sh ph|new| |cur|cur nx]; simpl in HJ; try done.
  - destruct HJ as (Hwf & ? & Hrd). destruct (reading_return _ _ _ _ _ _ Hrd Hw) as (g & x & -> & E1 & E2 & Hx & ?).
    simpl. unfold Query. rewrite E2, from_string. dcase; simpl; [done|]. split_and!; auto; [lia|lia|by left].
  - destruct HJ as (? & ? & ? & ? & Hpt). destruct (Hput _ _ Hpt) as (e & -> & He). simpl. dcase; simpl.
    + split_and!; auto. by left.
    + apply (migrate_start w p); auto. apply He. by apply dec_stable.
  - destruct HJ as (? & ? & Hrd). destruct (reading_return _ _ _ _ _ _ Hrd Hw) as (g & x & -> & E1 & E2 & Hx).
    simpl. rewrite (readCfg_string _ _ E1 E2). destruct (decide (String x <> String new)) as [|Heq]; simpl; [done|].
    apply dec_stable in Heq. apply (f_equal FromString) in Heq. rewrite !from_string in Heq. simplify_eq.
    by apply (migrate_start w p).
  - by destruct HJ as (_ & ? & _).
  - destruct HJ as (? & ? & Hpt). by destruct (Hput _ _ Hpt) as (e & -> & _).
  - destruct (reading_return _ _ _ _ _ _ HJ Hw) as (g & x & -> & E1 & E2 & Hx). simpl.
    rewrite (readCfg_string _ _ E1 E2). split; [by intros y [= <-]|by left].
  - destruct HJ as (Hcur & Hrd). destruct (reading_return _ _ _ _ _ _ Hrd Hw) as (g & x & -> & E1 & E2 & Hx). simpl.
    rewrite (readCfg_string _ _ E1 E2). destruct cur as [cur|]; [|done]. dcase; [|done]. split_and!; auto.
  - by destruct HJ as (_ & _ & _ & ?).
Qed.

(** A put left behind in the network. *)
Lemma abandon_ctrl w p s x rep lf :
  Jctrl w p s (ADone (RPut x) rep lf) -> good_put w p x /\ Jctrl w p s (ADone (RPut x) rep true).
Proof.
  assert (Hrd : forall key Q, reading key Q (ADone (RPut x) rep lf) -> False) by (intros key Q [?|[?|(? & ? & ? & ? & _)]]; done).
  assert (Hput : forall r' Q, putting r' Q (ADone (RPut x) rep lf) -> r' = RPut x /\ putting r' Q (ADone (RPut x) rep true)).
  { intros r' Q [?|[?|(rep1 & lf' & ? & HQ & e & ?)]]; simplify_eq. split; [done|]. right; right. eauto 6. }
  destruct s as [| |new|cur new|cur new|cur new sh ph|new| |cur|cur nx]; simpl; intros HJ; des; try done; try (by exfalso; eauto).
  - destruct (Hput _ _ H3) as [[= <-] ?]. split; [by eapply G_next|]. by split_and!.
  - destruct (Hput _ _ H1) as [[= <-] ?]. split; [by eapply G_cfg|]. by split_and!.
Qed.

(** ** All steps *)

Lemma invoke_ctrl w p c s r : Jctrl w p s AIdle -> ctrl_next c s = Some r -> Jctrl w p s (APend r).
Proof.
  intros HJ Hn. destruct s; simpl in *; simplify_eq; des;
    repeat match goal with |- _ /\ _ => split end; auto; right; by left.
Qed.

Lemma kinv_kv k w p a' : kinv k w p -> astep ctrl_program (k_kv k) a' -> exists w' p', kinv (with_kv k a') w' p'.
Proof.
  intros [Hr Ha HS HJ HL HQ] Hstep. remember (k_kv k) as a eqn:Ek.
  destruct Hstep as [a c s' Ho Hloc|a c r Ho Hn|a c r lf Hu Hw|a c x rep lf Ho Hne Hsp|a c r rep lf rep' Ho Hwk|a x Hx Hw].
  - done.
  - exists w, p. split; auto. simpl. intros c'. specialize (HJ c'). kcase c c'; [|done]. rewrite Ho in HJ. by apply (invoke_ctrl _ _ c').
  - destruct (serve_ctrl (a_st a) w p c _ _ r lf Hw Hr HS (HJ c) Hu) as (w' & p' & Hr' & HS' & G & Ha' & Hc).
    exists w', p'. split; simpl; auto.
    + intros c'. destruct (decide (c = c')) as [<-|Hne]; fn_upd; [done|]. by eapply Jctrl_grows.
    + intros x Hx. by eapply good_put_grows, HL.
    + intros q Hq. by eapply good_req_grows, HQ.
  - pose proof (HJ c) as Hc. rewrite Ho in Hc. destruct (abandon_ctrl _ _ _ _ _ _ Hc) as [Hg Hc'].
    exists w, p. split; simpl; auto.
    + intros c'. specialize (HJ c'). destruct (decide (c = c')) as [<-|Hn]; fn_upd; done.
    + intros y [->|Hy]%elem_of_cons; auto.
  - exists w, p. split; simpl; auto. intros c'. pose proof (HJ c') as Hc. kcase c c'; [|done]. rewrite Ho in Hc. by apply (return_ctrl _ _ c' _ r rep lf).
  - pose proof (put_good (a_st a) w p x Hw Hr HS (HL x Hx)) as HP. cbn [serve].
    destruct (KvSrv.Put (a_st a) x) as [rep m']. destruct HP as (w' & p' & Hr' & HS' & G & Ha' & _).
    exists w', p'. split; simpl; auto.
    + intros c'. by eapply Jctrl_grows.
    + intros y Hy. by eapply good_put_grows, HL.
    + intros q Hq. by eapply good_req_grows, HQ.
Qed.

Lemma kinv_app k w p c s' :
  kinv k w p -> a_op (k_kv k) c = AIdle -> Jctrl w p s' AIdle -> kinv (set_app k c s') w p.
Proof.
  intros [Hr Ha HS HJ HL HQ] Ho Hs. split; simpl; auto. intros c'. specialize (HJ c').
  destruct (decide (c = c')) as [<-|]; fn_upd; [by rewrite Ho|done].
Qed.

(** A migration step of a group. *)
Lemma kinv_groups k k' w w' p :
  kinv k w p -> k_kv k' = k_kv k -> agrees k' w' -> mreach w' -> cfgs w' = cfgs w ->
  grows w p w' p -> (forall r, r ∈ k_sent k' -> good_req w' r) -> kinv k' w' p.
Proof.
  intros [Hr Ha HS HJ HL HQ] Ek Ha' Hr' Ec G Hs.
  assert (El : latest w' = latest w) by (unfold latest; by rewrite Ec).
  split; rewrite ?Ek; auto.
  - destruct HS as [(x & K & ? & ?) (y & K' & ? & ?) ? Hd]. split; rewrite ?El; auto.
    + exists x. split_and!; auto. by eapply known_grows.
    + exists y. split_and!; auto. by eapply known_grows.
    + intros n Hn. eapply complete_grows; [done| |auto]. pose proof (known_latest _ _ K'). lia.
  - intros c. by eapply Jctrl_grows.
  - intros x Hx. by eapply good_put_grows, HL.
Qed.

Lemma step_moved w cur new sh src dst :
  step_of cur new w -> Shards cur !! sh = Some src -> Shards new !! sh = Some dst -> src <> dst ->
  moved w sh (Num new) src dst.
Proof.
  intros ((H1 & Kc) & (H2 & Kn) & E) Hs Hd Hne. pose proof (known_latest w new (conj H2 Kn)).
  unfold moved, owner. replace (Num new - 1 - 1) with (Num cur - 1) by lia. rewrite Kc, Kn. simpl. split_and!; auto; lia.
Qed.

Lemma step_stays w cur new sh src dst g :
  step_of cur new w -> Shards cur !! sh = Some g -> Shards new !! sh = Some g -> ~ moved w sh (Num new) src dst.
Proof.
  intros ((? & Kc) & (? & Kn) & E) Hs Hd (_ & Ho & Ho' & Hne). unfold owner in *.
  replace (Num new - 1 - 1) with (Num cur - 1) in Ho by lia. rewrite Kc in Ho. rewrite Kn in Ho'. simpl in *. congruence.
Qed.

Lemma MakeClerk_Some (x : ShardConfig) g ck : MakeClerk x g = Some ck -> ck = g.
Proof. unfold MakeClerk. destruct (default [] (Groups x !! g)); [done|]. by intros [= <-]. Qed.

Lemma wants_good k w p c r : kinv k w p -> wants (a_app (k_kv k) c) = Some r -> good_req w r.
Proof.
  intros HK. pose proof (ki_ctrl _ _ _ HK c) as HJ. destruct (mreach_inv _ (ki_reach _ _ _ HK)) as [Hi _].
  destruct (a_app (k_kv k) c) as [| |?|? ?|? ?|cur new sh ph|?| |?|? ?]; try done. simpl in *.
  destruct HJ as (Hst & _ & _ & Hph). intros Hw. apply bind_Some in Hw as (src & Es & Hw). apply bind_Some in Hw as (dst & Ed & Hw).
  destruct (decide (src = dst)) as [|Hne]; [done|]. pose proof (step_moved _ _ _ _ _ _ Hst Es Ed Hne) as Hm.
  assert (Hsh : (sh < NShards)%nat).
  { apply lookup_lt_Some in Es. rewrite <- (mi_cfgs _ _ Hi cur); [done|].
    destruct Hst as ((_ & Kc) & _). by eapply list_elem_of_lookup_2. }
  destruct ph; apply bind_Some in Hw as (ck & Hck & [= <-]); apply MakeClerk_Some in Hck as ->; simpl; eauto.
Qed.

Lemma kinv_run k w p r k' :
  kinv k w p -> good_req w r -> run_req r k = Some k' -> exists w', kinv k' w' p.
Proof.
  intros HK Hg Hrun. pose proof HK as [Hr Ha HS HJ HL HQ]. pose proof Ha as (Eg & Ef & Ei & Ed & Eh).
  assert (Hall : forall w', agrees k' w' -> k_kv k' = k_kv k -> k_sent k' = r :: k_sent k -> mstep w w' -> cfgs w' = cfgs w ->
    grows w p w' p -> good_req w' r -> kinv k' w' p).
  { intros w' Ha' Ek Es Hs Ec G Hgr. eapply kinv_groups; eauto.
    - eapply mreach_step; [done|by apply rtc_once].
    - rewrite Es. intros q [->|Hq]%elem_of_cons; [done|]. by eapply good_req_grows, HQ. }
  destruct r as [src sh n|dst sh b n|src sh n]; simpl in Hrun; apply bind_Some in Hrun as ([rep kv] & Hd & Hrun); simplify_eq.
  - destruct Hg as (Hsh & dst & Hm). rewrite <- Eg in Hd. eexists. eapply Hall; [|done|done|by eapply M_freeze|done| |].
    + by rewrite <- Eg, <- Ef, <- Ei, <- Ed, <- Eh.
    + split; simpl; [done|set_solver|done|done|lia].
    + split; [done|]. by exists dst.
  - destruct Hg as (Hsh & (src & Hm) & Hin). rewrite <- Eg in Hd. eexists. eapply Hall; [|done|done|by eapply M_install|done| |].
    + by rewrite <- Eg, <- Ef, <- Ei, <- Ed, <- Eh.
    + split; simpl; [done|done|set_solver|done|lia].
    + split_and!; [done|by exists src|done].
  - destruct Hg as (Hsh & (dst & Hm) & Hin). rewrite <- Eg in Hd. eexists. eapply Hall; [|done|done|by eapply M_delete|done| |].
    + by rewrite <- Eg, <- Ef, <- Ei, <- Ed, <- Eh.
    + split; simpl; [done|done|done|set_solver|lia].
    + split_and!; [done|by exists dst|done].
Qed.

(** [InitController] saw "cfg" and "next" at most one configuration apart. *)
Definition serial cur nx : Prop := Num nx <= Num cur + 1.

Lemma kinv_loop k w p c s' : kinv k w p -> loop_step (a_app (k_kv k) c) = Some s' -> kinv (set_app k c s') w p.
Proof.
  intros HK Hl. pose proof (ki_ctrl _ _ _ HK c) as HJ.
  destruct (a_app (k_kv k) c) as [| |?|? ?|? ?|cur new sh ph|?| |?|? ?] eqn:E; try done. simpl in Hl, HJ.
  destruct HJ as (Hst & Ho & Hd & Hph). destruct ph; try done. apply kinv_app; [done|done|].
  destruct (decide (NShards <= sh)%nat).
  - simplify_eq. split_and!; [apply Hst| |by left]. intros sh' src dst Hsh Hm. eapply Hd; [lia|done].
  - apply bind_Some in Hl as (g & Es & Hl). apply bind_Some in Hl as (g' & Ed & Hl).
    destruct (decide (g = g')) as [<-|]; [|done]. simplify_eq. split_and!; auto.
    intros sh' src dst Hsh Hm. destruct (decide (sh' = sh)) as [->|]; [|eapply Hd; [lia|done]].
    by destruct (step_stays _ _ _ _ src dst _ Hst Es Ed).
Qed.

Lemma kinv_reply k w p c s' : kinv k w p -> replied k (a_app (k_kv k) c) s' -> kinv (set_app k c s') w p.
Proof.
  intros HK Hrep. pose proof (ki_ctrl _ _ _ HK c) as HJ. destruct (ki_agree _ _ _ HK) as (_ & Ef & Ei & Ed & _).
  inversion Hrep as [cur new sh b Hw Hin Es|cur new sh b Hw Hin Es|cur new sh Hin Es]; subst;
    rewrite <- Es in HJ; destruct HJ as (Hst & Ho & Hd & Hph); (apply kinv_app; [done|done|]); split_and!; auto; simpl.
  - by rewrite Ef.
  - by rewrite Ei.
  - intros sh' src dst Hsh Hm. destruct (decide (sh' = sh)) as [->|]; [by rewrite Ed|]. eapply Hd; [lia|done].
Qed.

Lemma kinv_client k w p g i r rep kv :
  kinv k w p -> DoOp (k_grp k g) i (SKv r) = Some (SKvRep rep, kv) ->
  exists w', kinv (mkK (k_kv k) (<[g := kv]> (k_grp k)) (k_frs k) (k_ins k) (k_dels k) (k_sent k)
               (if refused rep then k_hist k else k_hist k ++ [(r, rep)])) w' p.
Proof.
  intros HK Hd. pose proof (ki_agree _ _ _ HK) as (Eg & Ef & Ei & Ed & Eh). rewrite <- Eg in Hd.
  eexists. eapply kinv_groups; [exact HK|done| |eapply mreach_step; [apply HK|by eapply rtc_once, M_client]|done| |].
  - by rewrite <- Eg, <- Ef, <- Ei, <- Ed, <- Eh.
  - split; [done|done|done|done|lia].
  - simpl. intros q Hq. apply (ki_sent _ _ _ HK) in Hq. by destruct q.
Qed.

Lemma kinv_step k k' w p : kinv k w p -> kstep serial k k' -> exists w' p', kinv k' w' p'.
Proof.
  intros HK Hstep.
  destruct Hstep as [k a' Hs|k c new Hc Ho Hwf Hn|k c Hc Ho|k c cur nx Hc Hok|k c s' Hl|k c Hp|k r k' Hr Hrun|k c s' Hrep|k g i r rep kv Hd].
  - by eapply kinv_kv.
  - exists w, p. apply kinv_app; [done|done|]. split_and!; [done| |by left].
    destruct (so_cfg _ _ _ (ki_store _ _ _ HK)) as (x & _ & _ & E). unfold ver_of in Hn. by rewrite E in Hn.
  - exists w, p. apply kinv_app; [done|done|]. by left.
  - exists w, p. pose proof (ki_ctrl _ _ _ HK c) as HJ. rewrite Hc in HJ. destruct HJ as (? & ? & ? & ?).
    apply kinv_app; [done|done|]. unfold serial in Hok. apply (migrate_start w p); auto. lia.
  - exists w, p. by apply kinv_loop.
  - exists w, p. pose proof (ki_ctrl _ _ _ HK c) as HJ. destruct (a_app (k_kv k) c); try done.
    destruct HJ as (_ & Ho & _). by apply kinv_app.
  - assert (Hg : good_req w r) by (destruct Hr as [Hr|(c & Hc)]; [by apply (ki_sent _ _ _ HK)|by eapply wants_good]).
    destruct (kinv_run _ _ _ _ _ HK Hg Hrun) as (w' & ?). eauto.
  - exists w, p. by apply kinv_reply.
  - destruct (kinv_client _ _ _ _ _ _ _ _ HK Hd) as (w' & ?). eauto.
Qed.

Lemma kinit_inv (c1 : ShardConfig) k : kinit c1 k -> exists w, kinv k w 1.
Proof.
  intros (Hf & Ek & Hg & E1 & E2 & E3 & E4 & E5).
  exists (mkWorld (k_grp k) [c1] [] [] [] []). pose proof Hf as [Hn Hs].
  assert (Kn : known (mkWorld (k_grp k) [c1] [] [] [] []) c1) by (split; rewrite Hn; done).
  split; rewrite ?Ek, ?E4; simpl.
  - eexists. split; [|done]. split_and!; try done. by exists c1.
  - unfold agrees. simpl. by rewrite E1, E2, E3, E5.
  - split.
    + exists c1. split_and!; [done|done|reflexivity].
    + exists c1. split_and!; [done|done|reflexivity].
    + done.
    + intros n Hn' sh src dst _ (? & _). lia.
  - done.
  - intros x. by intros ?%elem_of_nil.
  - intros r. by intros ?%elem_of_nil.
Qed.

Lemma kreach_inv k : kreach serial k -> exists w p, kinv k w p.
Proof.
  intros (c1 & k0 & Hi & Hr). revert k Hr. apply (rtc_ind_r (fun k => exists w p, kinv k w p)).
  - destruct (kinit_inv _ _ Hi) as (w & ?). eauto.
  - intros k k' _ Hs (w & p & HK). by eapply kinv_step.
Qed.

(** C5: the sharded service with its controllers.  Any number of controllers run
    [ChangeConfigTo] and [InitController] concurrently, over a key/value service
    whose puts may be lost, repeated or late, and their migration requests may
    be executed repeatedly and late; as long as no [InitController] goes on from
    two configurations that are more than one apart, what clients are answered
    is what one server would have answered. *)
Theorem controllers_linearizable k : kreach serial k -> explains KvSrv.MakeKVServer (k_hist k).
Proof.
  intros Hk. destruct (kreach_inv k Hk) as (w & p & HK). destruct (mreach_inv _ (ki_reach _ _ _ HK)) as [_ He].
  destruct (ki_agree _ _ _ HK) as (_ & _ & _ & _ & <-). exact He.
Qed.

(** A published configuration is in force.  "cfg" always holds a
    configuration whose number is its version, "next" is at most one ahead, and
    while they are at the same number every shard is served by exactly the group
    "cfg" names, with the keys the clients' answers imply, and every other group has
    dropped it. *)
Theorem query_is_current k :
  kreach serial k ->
  exists cur nx, a_st (k_kv k) !! "cfg" = Some (mkKvEntry (String cur) (Num cur)) /\
    a_st (k_kv k) !! "next" = Some (mkKvEntry (String nx) (Num nx)) /\ Num cur <= Num nx <= Num cur + 1 /\
    (Num nx = Num cur -> forall sh A, Shards cur !! sh = Some A ->
       v_st (view_of (k_grp k A) sh) = Ready /\
       v_data (view_of (k_grp k A) sh) = sdata sh (after KvSrv.MakeKVServer (k_hist k)) /\
       forall g, g <> A -> v_st (view_of (k_grp k g) sh) <> Ready /\ v_data (view_of (k_grp k g) sh) = ∅).
Proof.
  intros Hk. destruct (kreach_inv k Hk) as (w & p & HK). pose proof HK as [Hr (Eg & Ef & Ei & Ed & Eh) [(nx & Kn & En & Mn) (cur & Kc & Ec & Mc) Hgap Hdone] _ _ _].
  pose proof (known_latest _ _ Kc). exists cur, nx. rewrite Mc, Mn, En, Ec. split_and!; auto; [lia|]. intros Hsame sh A HA.
  destruct (mreach_inv _ Hr) as [Hi _].
  assert (Hsh : (sh < NShards)%nat).
  { apply lookup_lt_Some in HA. rewrite <- (mi_cfgs _ _ Hi cur); [done|]. destruct Kc as [_ Kc]. by eapply list_elem_of_lookup_2. }
  destruct (mi_shard _ _ Hi sh Hsh) as (B & HB). destruct (done_settled _ _ _ _ HB) as [(Ho & Hst & _) Hemp].
  { intros src dst Hm. eapply Hdone; [|done|done]. lia. }
  assert (B = A) as ->.
  { unfold owner in Ho. destruct Kc as [_ Kc]. rewrite Hsame, <- Ec, Kc in Ho. simpl in Ho. congruence. }
  rewrite <- Eg, <- Eh. split_and!; [exact Hst|apply (ag_data _ _ _ _ HB)|]. intros g Hg.
  split; [by apply (ag_ready _ _ _ _ HB)|by apply Hemp].
Qed.

(** C26: one owner.  Any number of controllers run, over a lossy network, and none
    that recovers sees "cfg" and "next" more than one configuration apart.  Then
    at every moment "next" is at most one configuration ahead of "cfg"; there is a
    group that holds exactly the keys of the shard which the clients' answers
    imply, and no other group serves the shard.  Either the latest configuration
    names this group and the group serves the shard, or the shard is about to move
    away from it: "cfg" still names the group and "next" names another one.  No
    group's number for the shard is beyond the latest configuration. *)
Theorem one_owner k sh :
  kreach serial k -> (sh < NShards)%nat ->
  exists cur nx A,
    a_st (k_kv k) !! "cfg" = Some (mkKvEntry (String cur) (Num cur)) /\
    a_st (k_kv k) !! "next" = Some (mkKvEntry (String nx) (Num nx)) /\ Num cur <= Num nx <= Num cur + 1 /\
    v_data (view_of (k_grp k A) sh) = sdata sh (after KvSrv.MakeKVServer (k_hist k)) /\
    (forall g, v_st (view_of (k_grp k g) sh) = Ready -> g = A) /\
    (forall g, 1 <= v_num (view_of (k_grp k g) sh) <= Num nx) /\
    ((Shards nx !! sh = Some A /\ v_st (view_of (k_grp k A) sh) = Ready) \/
     (Num nx = Num cur + 1 /\ Shards cur !! sh = Some A /\ Shards nx !! sh <> Some A)).
Proof.
  intros Hk Hsh. destruct (kreach_inv k Hk) as (w & p & HK).
  pose proof HK as [Hr (Eg & _ & _ & _ & Eh) [(nx & [K1 Kn] & En & Mn) (cur & Kc & Ec & Mc) Hgap Hdone] _ _ _].
  pose proof (known_latest _ _ Kc) as Hl. destruct Kc as [K2 Kc]. destruct (mreach_inv _ Hr) as [Hi _].
  destruct (mi_shard _ _ Hi sh Hsh) as (A & HA). exists cur, nx, A. rewrite Mc, Mn, En, Ec, <- Eg, <- Eh.
  split_and!; [done|done|lia|lia|apply (ag_data _ _ _ _ HA)| |apply (ag_num _ _ _ _ HA)|].
  - intros g Hg. destruct (decide (g = A)) as [->|Hne]; [done|]. by destruct (ag_ready _ _ _ _ HA g Hne).
  - unfold V in *. destruct (ag_phase _ _ _ _ HA) as [(Ho & Hst & _)|(dst & Hm & _)]; [left|right].
    + split; [|done]. unfold owner in Ho. by rewrite <- En, Kn in Ho.
    + assert (Hp : p = latest w - 1).
      { destruct (decide (latest w <= p)) as [Hle|]; [|lia]. pose proof (Hdone _ Hle _ _ _ Hsh Hm) as Hd.
        destruct (ag_del _ _ _ _ HA Hd) as (src & Hm'). destruct (moved_fun _ _ _ _ _ _ _ Hm Hm') as [_ <-].
        by destruct Hm as (_ & _ & _ & ?). }
      destruct Hm as (_ & Ho & Ho' & Hne). unfold owner in Ho, Ho'. rewrite <- En, Kn in Ho'.
      rewrite <- Hp, <- Ec, Kc in Ho. simpl in *. split_and!; [lia|done|congruence].
Qed.

End controller.

(** ** Runs *)

Module CtrlRace.
Import GrpDemo.

#[local] Instance cfg_countable : Countable ShardConfig.
Proof.
  refine (inj_countable' (fun c => (Num c, Shards c, Groups c)) (fun '(n, s, g) => mkCfg n s g) _).
  by intros [].
Defined.

#[export] Program Instance bit_json : Json := {|
  String c := String.string_of_list_byte (bit_enc c);
  FromString s := fst <$> bit_dec (String.list_byte_of_string s)
|}.
Next Obligation.
  intros c. simpl. rewrite String.list_byte_of_string_of_list_byte, <- (app_nil_r (bit_enc c)), bit_stream. done.
Qed.
Next Obligation.
  intros c E. apply (f_equal String.list_byte_of_string) in E.
  rewrite String.list_byte_of_string_of_list_byte in E. by apply bit_nonempty in E.
Qed.

(** What happens next; [strict] asks for the condition of [serial]. *)
Inductive kact :=
| AInvoke (c : nat) | AServe (c : nat) | AReturn (c : nat)
| AChange (c : nat) (new : ShardConfig) | AInit (c : nat) | AResume (c : nat)
| ALoop (c : nat) | ARun (c : nat) | AReply (c : nat)
| AClient (g : Z) (r : request).

Definition idle (k : kworld) (c : nat) : bool :=
  match a_app (k_kv k) c, a_op (k_kv k) c with CIdle, AIdle => true | _, _ => false end.

#[local] Instance nowrap_dec m : Decision (nowrap m).
Proof.
  destruct (decide (map_Forall (fun (_ : string) e => 1 <= version e <= 2 ^ 64 - 2) m)) as [H|H];
    [left|right]; unfold nowrap, vbound; [exact H|intros H'; apply H; exact H'].
Defined.

Definition reply_of (k : kworld) (s : cstate) : option cstate :=
  match s with
  | CMigrate cur new sh PFreeze =>
      _ ← wants s;
      '(_, b) ← List.find (fun '(sh', n, _) => bool_decide (sh' = sh /\ n = Num new)) (k_frs k);
      Some (CMigrate cur new sh (PInstall b))
  | CMigrate cur new sh (PInstall _) =>
      _ ← wants s;
      if decide ((sh, Num new) ∈ k_ins k) then Some (CMigrate cur new sh PDelete) else None
  | CMigrate cur new sh PDelete =>
      if decide ((sh, Num new) ∈ k_dels k) then Some (CMigrate cur new (sh + 1) PFreeze) else None
  | _ => None
  end.

Definition act (strict : bool) (x : kact) (k : kworld) : option kworld :=
  let a := k_kv k in
  match x with
  | AInvoke c =>
      match a_op a c, ctrl_next c (a_app a c) with
      | AIdle, Some r => Some (with_kv k (mkA (a_st a) (a_app a) (<[c := APend r]> (a_op a)) (a_late a) (a_hist a ++ [EvCall c r])))
      | _, _ => None
      end
  | AServe c =>
      match a_op a c with
      | APend r =>
          if decide (nowrap (a_st a)) then
            Some (with_kv k (mkA (snd (serve (a_st a) r)) (a_app a)
                    (<[c := ADone r (fst (serve (a_st a) r)) false]> (a_op a)) (a_late a) (a_hist a)))
          else None
      | _ => None
      end
  | AReturn c =>
      match a_op a c with
      | ADone r rep false =>
          Some (with_kv k (mkA (a_st a) (<[c := resume ctrl_program c (a_app a c) rep]> (a_app a))
                  (<[c := AIdle]> (a_op a)) (a_late a) (a_hist a ++ [EvRet c r rep])))
      | _ => None
      end
  | AChange c new =>
      if decide (idle k c = true /\ length (Shards new) = NShards /\ Num new <= ver_of (a_st a) "cfg" + 1)
      then Some (set_app k c (CQuery new)) else None
  | AInit c => if decide (idle k c = true) then Some (set_app k c CInit1) else None
  | AResume c =>
      match a_app a c with
      | CResume cur nx =>
          if decide (strict = true -> Num nx <= Num cur + 1) then Some (set_app k c (CMigrate cur nx 0 PFreeze)) else None
      | _ => None
      end
  | ALoop c => set_app k c <$> loop_step (a_app a c)
  | ARun c => r ← wants (a_app a c); run_req r k
  | AReply c => set_app k c <$> reply_of k (a_app a c)
  | AClient g r =>
      match DoOp (k_grp k g) 0 (SKv r) with
      | Some (SKvRep rep, kv) =>
          Some (mkK (k_kv k) (<[g := kv]> (k_grp k)) (k_frs k) (k_ins k) (k_dels k) (k_sent k)
                  (if refused rep then k_hist k else k_hist k ++ [(r, rep)]))
      | _ => None
      end
  end.

Definition allowed (strict : bool) (cur nx : ShardConfig) : Prop := strict = true -> serial cur nx.

Lemma reply_of_ok k s s' : reply_of k s = Some s' -> replied k s s'.
Proof.
  destruct s as [| |?|? ?|? ?|cur new sh ph|?| |?|? ?]; try done. unfold reply_of. destruct ph as [|b|].
  - intros H. apply bind_Some in H as (r & Hw & H). apply bind_Some in H as ([[sh' n] b] & Hf & [= <-]).
    apply find_some in Hf as [Hin Hb]. apply bool_decide_eq_true in Hb as [-> ->].
    apply R_freeze; [by rewrite Hw|by apply list_elem_of_In].
  - intros H. apply bind_Some in H as (r & Hw & H). revert H. dcase; intros [= <-]. apply R_install; [by rewrite Hw|done].
  - dcase; intros [= <-]. by apply R_delete.
Qed.

Lemma kact_step strict x k k' : act strict x k = Some k' -> kstep (allowed strict) k k'.
Proof.
  destruct x as [c|c|c|c new|c|c|c|c|c|g r]; cbv beta zeta iota delta [act].
  - destruct (a_op (k_kv k) c) eqn:Ho, (ctrl_next c (a_app (k_kv k) c)) eqn:Hn; try done. intros [= <-]. by apply K_kv, A_invoke.
  - destruct (a_op (k_kv k) c) eqn:Ho; try done. dcase; [|done]. intros [= <-]. apply K_kv, A_serve; [by left|done].
  - destruct (a_op (k_kv k) c) as [| |r rep []] eqn:Ho; try done. intros [= <-]. apply K_kv.
    apply (A_return ctrl_program (k_kv k) c r rep false rep); [done|]. by left.
  - unfold idle. dcase; [|done]. intros [= <-]. des. destruct (a_app (k_kv k) c) eqn:E1, (a_op (k_kv k) c) eqn:E2; try done. by apply K_change.
  - unfold idle. dcase; [|done]. intros [= <-]. destruct (a_app (k_kv k) c) eqn:E1, (a_op (k_kv k) c) eqn:E2; try done. by apply K_init.
  - destruct (a_app (k_kv k) c) eqn:E1; try done. dcase; [|done]. intros [= <-]. by eapply K_resume.
  - destruct (loop_step _) eqn:E; [|done]. intros [= <-]. by apply K_loop.
  - intros H. apply bind_Some in H as (r & Hw & H). eapply K_run; [|done]. right. by exists c.
  - destruct (reply_of _ _) eqn:E; [|done]. intros [= <-]. by apply K_reply, reply_of_ok.
  - destruct (DoOp (k_grp k g) 0 (SKv r)) as [[[rep| | |] kv]|] eqn:E; try done. intros [= <-]. by eapply K_client.
Qed.

Fixpoint acts (strict : bool) (xs : list kact) (k : kworld) : option kworld :=
  match xs with [] => Some k | x :: xs => k ← act strict x k; acts strict xs k end.

Lemma acts_steps strict xs k k' : acts strict xs k = Some k' -> rtc (kstep (allowed strict)) k k'.
Proof.
  revert k. induction xs as [|x xs IH]; intros k; cbn [acts]; [by intros [= <-]|].
  intros H. apply bind_Some in H as (k1 & H1 & H). eapply rtc_l; [by eapply kact_step|auto].
Qed.

Definition key : string := "x".
Definition gid_of (g : Z) : list Z := <[Key2Shard key := g]> (replicate NShards Gid1).
(** Configuration [n] has the shard of the key in group [n]. *)
Definition cfg (n : Z) : ShardConfig := mkCfg n (gid_of n) {[1 := ["s1"]; 2 := ["s2"]; 3 := ["s3"]]}.

Definition k0 : kworld := mkK
  (mkA (foldl (fun m r => snd (serve m r)) KvSrv.MakeKVServer (InitConfig (cfg 1))) (fun _ => CIdle) (fun _ => AIdle) [] [])
  (fun g => mkKV ∅ (replicate NShards (if decide (g = Gid1) then Ready else NotOwned)) (replicate NShards NumFirst))
  [] [] [] [] [].

Definition call (c : nat) : list kact := [AInvoke c; AServe c; AReturn c].
Definition shard_moves (c : nat) : list kact := [ARun c; AReply c; ARun c; AReply c; ARun c; AReply c].
Definition skip (c n : nat) : list kact := replicate n (ALoop c).
Definition migration (c : nat) : list kact :=
  skip c (Key2Shard key) ++ shard_moves c ++ skip c (NShards - Key2Shard key).
(** Controller [c] moves to configuration [n], up to the migration or to its end. *)
Definition begin_change (c : nat) (n : Z) : list kact := AChange c (cfg n) :: call c ++ call c.
Definition change (c : nat) (n : Z) : list kact := begin_change c n ++ migration c ++ call c.

Definition put_x : kact := AClient 1 (RPut (mkPutArgs key "v" 0)).

(** A controller fails in the middle of a migration, another one completes it
    and moves on. *)
Definition handover : list kact :=
  [put_x] ++ begin_change 0 2 ++ skip 0 (Key2Shard key) ++ [ARun 0; AReply 0] ++
  [AInit 1] ++ call 1 ++ call 1 ++ [AResume 1] ++ migration 1 ++ call 1 ++ change 1 3 ++
  [AClient 2 (RGet (mkGetArgs key)); AClient 3 (RGet (mkGetArgs key))].

Lemma k0_init : kinit (cfg 1) k0.
Proof. by split_and!. Qed.

Lemma handover_run : (fun k => List.map snd (k_hist k)) <$> acts true handover k0 =
  Some [RepPut (mkPutReply OK); RepGet (mkGetReply "v" 1 OK)].
Proof. vm_compute. reflexivity. Qed.

Lemma handover_reach : exists k, acts true handover k0 = Some k /\ kreach serial k.
Proof.
  destruct (acts true handover k0) as [k|] eqn:E; [|by vm_compute in E]. exists k. split; [done|].
  exists (cfg 1), k0. split; [apply k0_init|]. eapply rtc_subrel; [|by eapply acts_steps].
  intros k1 k2. apply kstep_mono. intros cur nx Ha. by apply Ha.
Qed.

Lemma controllers_linearizable_witness :
  exists k, acts true handover k0 = Some k /\ explains KvSrv.MakeKVServer (k_hist k).
Proof.
  destruct handover_reach as (k & E & Hr). exists k. split; [exact E|]. by apply controllers_linearizable.
Defined.

Lemma one_owner_witness :
  exists k A, acts true handover k0 = Some k /\
    v_data (view_of (k_grp k A) (Key2Shard key)) = sdata (Key2Shard key) (after KvSrv.MakeKVServer (k_hist k)) /\
    forall g, v_st (view_of (k_grp k g) (Key2Shard key)) = Ready -> g = A.
Proof.
  destruct handover_reach as (k & E & Hr).
  destruct (one_owner k (Key2Shard key) Hr ltac:(vm_compute; lia)) as (cur & nx & A & _ & _ & _ & Hd & Ho & _).
  exists k, A. exact (conj E (conj Hd Ho)).
Defined.

Lemma query_is_current_witness :
  exists k cur, acts true handover k0 = Some k /\ a_st (k_kv k) !! "cfg" = Some (mkKvEntry (String cur) (Num cur)).
Proof.
  destruct handover_reach as (k & E & Hr). destruct (query_is_current k Hr) as (cur & _ & Hc & _).
  exists k, cur. exact (conj E Hc).
Defined.

(** Controller 1 reads "cfg"; controller 0 completes configuration 2 and
    announces 3; controller 1 reads "next" and migrates from 1 to 3. *)
Definition race : list kact :=
  [put_x; AInit 1] ++ call 1 ++ change 0 2 ++ begin_change 0 3 ++ call 1 ++ [AResume 1] ++
  skip 1 (Key2Shard key) ++ [ARun 1; AReply 1; ARun 1; AReply 1] ++ [AClient 3 (RGet (mkGetArgs key))].

(** C40: two controllers lose a write.  From a fresh system ([k0]) a client's put
    is acknowledged by group 1.  Then controller 1 starts and [InitController] reads
    "cfg"; controller 0 changes to configuration 2, which moves the key's shard to
    group 2, and announces configuration 3, with the shard in group 3; controller 1
    reads "next", and migrates from 1 straight to 3.  In this run ([race]), a run of
    the controllers and groups without lost messages or crashes in which only
    [serial] is broken, group 3 then answers a get of the key: there is no such
    key.  So the clients' history is not that of a key/value server. *)
Theorem init_controller_race :
  exists k, acts false race k0 = Some k /\ kinit (cfg 1) k0 /\ rtc (kstep (fun _ _ => True)) k0 k /\
    a_app (k_kv k) 1%nat = CMigrate (cfg 1) (cfg 3) (Key2Shard key) PDelete /\
    k_hist k = [(RPut (mkPutArgs key "v" 0), RepPut (mkPutReply OK));
                (RGet (mkGetArgs key), RepGet (mkGetReply "" 0 ErrNoKey))] /\
    ~ explains KvSrv.MakeKVServer (k_hist k).
Proof.
  assert (Eh : (fun k => (a_app (k_kv k) 1%nat, k_hist k)) <$> acts false race k0 =
    Some (CMigrate (cfg 1) (cfg 3) (Key2Shard key) PDelete, [(RPut (mkPutArgs key "v" 0), RepPut (mkPutReply OK));
      (RGet (mkGetArgs key), RepGet (mkGetReply "" 0 ErrNoKey))])) by (vm_compute; reflexivity).
  destruct (acts false race k0) as [k|] eqn:E; [|done]. injection Eh as Ea Eh. exists k.
  split_and!; [done|apply k0_init| |done|done|].
  - eapply rtc_subrel; [|by eapply acts_steps]. intros k1 k2. by apply kstep_mono.
  - rewrite Eh. intros (_ & Hg & _). vm_compute in Hg. discriminate.
Qed.

End CtrlRace.
