(* ===== verification/ShardSteps.v ===== *)
(** * One controller at work

    What a test of the sharded service sees when a single controller runs and the
    groups answer: [shardctrler.go]'s [ChangeConfigTo] and [InitController] run to
    their end over the key/value store and the shard groups, and [joinGroups] and
    [leaveGroups] of [shardkv1/test.go] on top of them, with the groups of servers
    that they start and stop.

    [ShardCtrl] treats any number of controllers and lost requests.  A run here is
    one of its runs, in which only one controller takes steps, whatever the others
    have left behind; it is shown that the calls return, what the groups hold then,
    and what the test reads afterwards. *)

From S2P Require Import Prelude Gob Kv KvClerk Rsm Config PersisterWal Labrpc Groups Harness ShardCfg ShardTest ShardGrp ShardMig ShardCtrl.

Section steps.
Context {js : Json} `{!Gob KvMap} `{!Gob (KvMap * list ShardState * list Z)}.
Implicit Types (k : kworld) (cur new nx : ShardConfig).

(** The controller at work. *)
Variable me : nat.

(** ** A run without rivals *)

(** A call of the clerk of the key/value store returns. *)
Definition clerk_call (r : request) k : kworld :=
  let a := k_kv k in
  let '(rep, m) := serve (a_st a) r in
  with_kv k (mkA m (<[me := resume ctrl_program me (a_app a me) rep]> (a_app a))
    (<[me := AIdle]> (<[me := ADone r rep false]> (<[me := APend r]> (a_op a))))
    (a_late a) ((a_hist a ++ [EvCall me r]) ++ [EvRet me r rep])).

(** What [migrate] goes on with when a group has answered. *)
Definition group_reply k (s : cstate) : option cstate :=
  match s with
  | CMigrate cur new sh PFreeze => '(_, _, state) ← head (k_frs k); Some (CMigrate cur new sh (PInstall state))
  | CMigrate cur new sh (PInstall _) => Some (CMigrate cur new sh PDelete)
  | CMigrate cur new sh PDelete => Some (CMigrate cur new (sh + 1) PFreeze)
  | _ => None
  end.

(** One return of the clerk of the key/value store, one turn of the loop of
    [migrate], or one return of a group's clerk; [None] when there is nothing left
    to do. *)
Definition solo_step k : option kworld :=
  let s := a_app (k_kv k) me in
  match ctrl_next me s with
  | Some r => Some (clerk_call r k)
  | None =>
      if migrate_panics s then Some (set_app k me CDead)
      else
        match s with
        | CResume cur nx => Some (set_app k me (CMigrate cur nx 0 PFreeze))
        | _ =>
            match wants s with
            | Some q => k ← run_req q k; s ← group_reply k s; Some (set_app k me s)
            | None => set_app k me <$> loop_step s
            end
        end
  end.

Fixpoint solo (fuel : nat) k : kworld :=
  match fuel with
  | O => k
  | S fuel => match solo_step k with Some k' => solo fuel k' | None => k end
  end.

(** At most 3 calls of the store before the migration and 1 after it, 3 requests
    per shard, and the end of the loop. *)
Definition solo_fuel : nat := 5 + (3 * NShards + 1).

(** [None]: the call has not returned, or the controller died. *)
Definition returned k : option kworld :=
  match a_app (k_kv k) me with CIdle => Some k | _ => None end.

Definition changeTo k new : option kworld := returned (solo solo_fuel (set_app k me (CQuery new))).
Definition initController k : option kworld := returned (solo solo_fuel (set_app k me CInit1)).
Definition query k : option ShardConfig := Query (KvSrv.Get (a_st (k_kv k)) (mkGetArgs "cfg")).

(** [setupKVService]: the first configuration in the store of the controller, and
    the groups [grps] at their start. *)
Definition setup (srvs : list string) (grps : Z -> KVServer) : option kworld :=
  '(ok, c) ← setupKVService srvs;
  if ok : bool
  then Some (mkK (mkA (foldl (fun m r => snd (serve m r)) KvSrv.MakeKVServer (InitConfig c)) (fun _ => CIdle) (fun _ => AIdle) [] [])
               grps [] [] [] [] [])
  else None.

(** ** The steps of the tests *)

(** What the start of a group meets: its identity, the names of the ends, the
    launches of its servers. *)
Record starting := mkStarting { st_gid : Z; st_names : list (list string); st_las : list launch }.

Fixpoint joinGroups k (c : Config) (l : list starting) : option (bool * kworld * Config) :=
  match l with
  | [] => Some (true, k, c)
  | st :: l =>
      c ← MakeGroupStart c (st_gid st) (st_names st) (st_las st);
      sg ← lookupGroup c (st_gid st);
      cfg ← query k;
      newcfg ← join cfg (st_gid st) (SrvNames sg);
      k ← changeTo k newcfg;
      cfg ← query k;
      if checkMember cfg (st_gid st) then joinGroups k c l else Some (false, k, c)
  end.

Fixpoint leaveGroups k (c : Config) (gids : list Z) : option (bool * kworld * Config) :=
  match gids with
  | [] => Some (true, k, c)
  | gid :: gids =>
      cfg ← query k;
      newcfg ← leave cfg gid;
      k ← changeTo k newcfg;
      cfg ← query k;
      if checkMember cfg gid then Some (false, k, c)
      else c ← ExitGroup c gid; leaveGroups k c gids
  end.

(** ** The controller returns *)

(** The controller runs nothing. *)
Definition idle k : Prop := a_app (k_kv k) me = CIdle /\ a_op (k_kv k) me = AIdle.

(** Between two changes: "cfg" and "next" hold the configuration, at its number. *)
Definition settled k cfg : Prop :=
  nowrap (a_st (k_kv k)) /\ a_st (k_kv k) !! "cfg" = Some (mkKvEntry (String cfg) (Num cfg)) /\
  a_st (k_kv k) !! "next" = Some (mkKvEntry (String cfg) (Num cfg)).

(** In the middle of one: "next" is one ahead. *)
Definition moving k cfg nx : Prop :=
  nowrap (a_st (k_kv k)) /\ a_st (k_kv k) !! "cfg" = Some (mkKvEntry (String cfg) (Num cfg)) /\
  a_st (k_kv k) !! "next" = Some (mkKvEntry (String nx) (Num nx)).

(** The groups that neither configuration gives a shard. *)
Definition outside cur new (g : Z) : Prop := forall sh, Shards cur !! sh <> Some g /\ Shards new !! sh <> Some g.

(** A run from [k] has led to [k']: a run of [ShardCtrl], without clients, and
    without a request to a group the configurations do not name. *)
Record led cur new k k' : Prop := {
  l_reach : kreach serial k';
  l_hist : k_hist k' = k_hist k;
  l_outside g : outside cur new g -> k_grp k' g = k_grp k g
}.

Lemma led_refl cur new k : kreach serial k -> led cur new k k.
Proof. by split. Qed.

Lemma led_trans cur new k1 k2 k3 : led cur new k1 k2 -> led cur new k2 k3 -> led cur new k1 k3.
Proof. intros [H1 H2 H3] [H4 H5 H6]. split; [done|congruence|]. intros g Hg. rewrite H6, H3 by done. done. Qed.

Lemma kreach_steps k k' : kreach serial k -> rtc (kstep serial) k k' -> kreach serial k'.
Proof. intros (c1 & k0 & Hi & Hr) Hr'. exists c1, k0. split; [done|]. by etrans. Qed.

Lemma solo_add a b k : solo (a + b) k = solo b (solo a k).
Proof.
  revert k. induction a as [|a IH]; intros k; [done|]. cbn [Nat.add solo]. destruct (solo_step k) as [k'|] eqn:E; [apply IH|].
  destruct b; [done|]. cbn [solo]. by rewrite E.
Qed.

Lemma solo_stop n k : a_app (k_kv k) me = CIdle -> solo n k = k.
Proof. intros E. destruct n; [done|]. cbn [solo]. unfold solo_step. rewrite E. done. Qed.

(** [solo] reaches, within [n] steps. *)
Definition gets (n : nat) k k' : Prop := exists i, (i <= n)%nat /\ solo i k = k'.

Lemma gets_refl n k : gets n k k.
Proof. exists 0%nat. split; [lia|done]. Qed.

Lemma gets_step n k k1 k' : solo_step k = Some k1 -> gets n k1 k' -> gets (S n) k k'.
Proof. intros Hs (i & Hi & Hy). exists (S i). split; [lia|]. cbn [solo]. by rewrite Hs. Qed.

Lemma gets_trans a b k1 k2 k3 : gets a k1 k2 -> gets b k2 k3 -> gets (a + b) k1 k3.
Proof. intros (n & Hn & Hy) (n' & Hn' & Hz). exists (n + n')%nat. split; [lia|]. by rewrite solo_add, Hy. Qed.

Lemma gets_mono a b k k' : gets a k k' -> (a <= b)%nat -> gets b k k'.
Proof. intros (n & Hn & Hy) Hab. exists n. split; [lia|done]. Qed.

Lemma gets_idle n m k k' : (n <= m)%nat -> gets n k k' -> a_app (k_kv k') me = CIdle -> returned (solo m k) = Some k'.
Proof.
  intros Hnm (i & Hi & Hx) E. replace m with (i + (m - i))%nat by lia. rewrite solo_add, Hx, solo_stop by done.
  unfold returned. by rewrite E.
Qed.

(** *** One step *)

Lemma kv_steps k a' : rtc (astep ctrl_program) (k_kv k) a' -> rtc (kstep serial) k (with_kv k a').
Proof.
  revert a'. apply (rtc_ind_r (fun a' => rtc (kstep serial) k (with_kv k a'))).
  - by destruct k.
  - intros a1 a2 _ Hs IH. eapply rtc_r; [exact IH|]. by apply (K_kv serial (with_kv k a1)).
Qed.

Lemma call_step k r : kreach serial k -> a_op (k_kv k) me = AIdle -> ctrl_next me (a_app (k_kv k) me) = Some r -> nowrap (a_st (k_kv k)) ->
  kreach serial (clerk_call r k).
Proof.
  intros Hr Ho Hn Hw. eapply kreach_steps; [done|]. unfold clerk_call. destruct (serve (a_st (k_kv k)) r) as [rep m] eqn:Es.
  apply kv_steps. eapply rtc_l; [by apply (A_invoke ctrl_program _ me r)|].
  eapply rtc_l; [apply (A_serve ctrl_program _ me r false); [left; simpl; split; [by fn_upd|done]|exact Hw]|].
  apply rtc_once. simpl. rewrite Es. simpl.
  apply (A_return ctrl_program (mkA m _ _ _ _) me r rep false rep); [simpl; by fn_upd|by left].
Qed.

(** A group executes a request of a controller. *)
Lemma run_total k w p q : kinv k w p -> good_req w q ->
  exists k', run_req q k = Some k' /\ k_kv k' = k_kv k /\ k_hist k' = k_hist k /\
    match q with
    | MFreeze src sh n => (exists b, head (k_frs k') = Some (sh, n, b)) /\ forall g, g <> src -> k_grp k' g = k_grp k g
    | MInstall dst sh _ n => ((sh, n) ∈ k_ins k') /\ forall g, g <> dst -> k_grp k' g = k_grp k g
    | MDelete src sh n => ((sh, n) ∈ k_dels k') /\ forall g, g <> src -> k_grp k' g = k_grp k g
    end.
Proof.
  intros HK Hg. destruct (mreach_inv _ (ki_reach _ _ _ HK)) as [Hi _]. destruct (ki_agree _ _ _ HK) as (Eg & Ef & _).
  assert (Hwf : forall g, kv_wf (k_grp k g)) by (intros g; rewrite <- Eg; apply (mi_wf _ _ Hi)).
  destruct q as [src sh n|dst sh b n|src sh n]; simpl.
  - destruct Hg as (Hsh & _). destruct (DoFreezeShard_view (k_grp k src) sh n (Hwf src) Hsh) as (rep & kv & -> & _). simpl.
    eexists. split_and!; [done..|simpl; eauto|]. intros g Hne. simpl. by fn_upd.
  - destruct Hg as (Hsh & _ & Hin). destruct (mi_frs _ _ Hi _ _ _ Hin) as (_ & x & Hx).
    destruct (DoInstallShard_view (k_grp k dst) sh x b n (Hwf dst) Hsh Hx) as (kv & -> & _). simpl.
    eexists. split_and!; [done..|by left|]. intros g Hne. simpl. by fn_upd.
  - destruct Hg as (Hsh & _). destruct (DoDeleteShard_view (k_grp k src) sh n (Hwf src) Hsh) as (kv & -> & _). simpl.
    eexists. split_and!; [done..|by left|]. intros g Hne. simpl. by fn_upd.
Qed.

(** The store and the calls of it are untouched. *)
Definition calm k k' : Prop := a_st (k_kv k') = a_st (k_kv k) /\ a_op (k_kv k') = a_op (k_kv k).

Lemma calm_trans k1 k2 k3 : calm k1 k2 -> calm k2 k3 -> calm k1 k3.
Proof. intros [H1 H2] [H3 H4]. split; congruence. Qed.

(** The phase that follows when a group has answered. *)
Definition follows (ph ph' : mphase) : Prop :=
  match ph with PFreeze => exists b, ph' = PInstall b | PInstall _ => ph' = PDelete | PDelete => ph' = PFreeze end.

Lemma set_app_me k s : a_app (k_kv (set_app k me s)) me = s.
Proof. simpl. by fn_upd. Qed.

Lemma group_step k cur new sh ph q : kreach serial k -> a_app (k_kv k) me = CMigrate cur new sh ph -> wants (CMigrate cur new sh ph) = Some q ->
  exists k' ph', solo_step k = Some k' /\ led cur new k k' /\ calm k k' /\ follows ph ph' /\
    a_app (k_kv k') me = CMigrate cur new (match ph with PDelete => sh + 1 | _ => sh end) ph'.
Proof.
  intros Hr Ha Hw. destruct (kreach_inv k Hr) as (w & p & HK).
  pose proof (wants_good _ _ _ me q HK) as Hg. rewrite Ha in Hg. specialize (Hg Hw).
  destruct (run_total k w p q HK Hg) as (k1 & Hrun & Hkv & Hh & Hq). pose proof Hw as Hw0. simpl in Hw.
  apply bind_Some in Hw as (src & Es & Hw). apply bind_Some in Hw as (dst & Ed & Hw). destruct (decide (src = dst)) as [|Hne] eqn:Hdec; [done|].
  assert (Hp : migrate_panics (CMigrate cur new sh ph) = false).
  { simpl. rewrite Es, Ed, Hdec. destruct ph; try done; apply bind_Some in Hw as (ck & -> & _); by apply bool_decide_eq_false. }
  assert (Hr1 : kreach serial k1).
  { eapply kreach_steps; [done|]. apply rtc_once, (K_run serial k q); [|done]. right. exists me. by rewrite Ha. }
  assert (Hreply : forall s', group_reply k1 (CMigrate cur new sh ph) = Some s' -> replied k1 (CMigrate cur new sh ph) s' ->
    (forall g, outside cur new g -> k_grp k1 g = k_grp k g) ->
    solo_step k = Some (set_app k1 me s') /\ led cur new k (set_app k1 me s') /\ calm k (set_app k1 me s')).
  { intros s' Hgr Hrep Hout. split; [|split].
    - unfold solo_step. rewrite Ha, Hp. cbn [ctrl_next]. rewrite Hw0, Hrun. cbn [mbind option_bind]. by rewrite Hgr.
    - split; [|done|done]. eapply kreach_steps; [exact Hr1|]. apply rtc_once, K_reply. by rewrite Hkv, Ha.
    - unfold calm. simpl. by rewrite Hkv. }
  destruct ph as [|state|]; apply bind_Some in Hw as (ck & Hck & [= <-]); apply MakeClerk_Some in Hck as ->; destruct Hq as [Hq Hgrp].
  - destruct Hq as (b & Hb). exists (set_app k1 me (CMigrate cur new sh (PInstall b))), (PInstall b).
    destruct (Hreply (CMigrate cur new sh (PInstall b))) as (H1 & H2 & H3).
    + simpl. by rewrite Hb.
    + apply R_freeze; [by rewrite Hw0|]. by apply head_Some_elem_of.
    + intros g Hg'. apply Hgrp. intros ->. by destruct (Hg' sh).
    + split_and!; [done..|by exists b|apply set_app_me].
  - exists (set_app k1 me (CMigrate cur new sh PDelete)), PDelete. destruct (Hreply (CMigrate cur new sh PDelete)) as (H1 & H2 & H3).
    + done.
    + apply R_install; [by rewrite Hw0|done].
    + intros g Hg'. apply Hgrp. intros ->. by destruct (Hg' sh).
    + split_and!; [done..|apply set_app_me].
  - exists (set_app k1 me (CMigrate cur new (sh + 1) PFreeze)), PFreeze. destruct (Hreply (CMigrate cur new (sh + 1) PFreeze)) as (H1 & H2 & H3).
    + done.
    + by apply R_delete.
    + intros g Hg'. apply Hgrp. intros ->. by destruct (Hg' sh).
    + split_and!; [done..|apply set_app_me].
Qed.

(** *** The loop of [migrate] comes to its end *)

Lemma ctrl_idle k cur new sh ph : kreach serial k -> a_app (k_kv k) me = CMigrate cur new sh ph ->
  a_op (k_kv k) me = AIdle /\ cfg_wf cur /\ cfg_wf new.
Proof.
  intros Hr Ha. destruct (kreach_inv k Hr) as (w & p & HK). destruct (mreach_inv _ (ki_reach _ _ _ HK)) as [Hi _].
  pose proof (ki_ctrl _ _ _ HK me) as HJ. rewrite Ha in HJ. destruct HJ as ((Kc & Kn & _) & Ho & _).
  split; [done|]. split; eapply (mi_cfgs _ _ Hi), list_elem_of_lookup_2; [apply Kc|apply Kn].
Qed.

Lemma loop_turn k cur new sh s' : kreach serial k -> a_app (k_kv k) me = CMigrate cur new sh PFreeze ->
  wants (CMigrate cur new sh PFreeze) = None -> migrate_panics (CMigrate cur new sh PFreeze) = false ->
  loop_step (CMigrate cur new sh PFreeze) = Some s' ->
  solo_step k = Some (set_app k me s') /\ led cur new k (set_app k me s').
Proof.
  intros Hr Ha Hw Hp Hl. split.
  - unfold solo_step. rewrite Ha, Hp. cbn [ctrl_next]. by rewrite Hw, Hl.
  - split; [|done|done]. eapply kreach_steps; [done|]. apply rtc_once, K_loop. by rewrite Ha.
Qed.

Lemma migrate_ends cur new : reachable cur new -> forall n sh k, (sh + n = NShards)%nat ->
  kreach serial k -> a_app (k_kv k) me = CMigrate cur new sh PFreeze ->
  exists k', gets (3 * n + 1) k k' /\ led cur new k k' /\ calm k k' /\ a_app (k_kv k') me = CPublish new.
Proof.
  intros Hck. induction n as [|n IH]; intros sh k Hsh Hr Ha; destruct (ctrl_idle _ _ _ _ _ Hr Ha) as (_ & Hc & Hn).
  - assert (Ho : Shards cur !! sh = None) by (apply lookup_ge_None_2; unfold cfg_wf in Hc; lia).
    destruct (loop_turn k cur new sh (CPublish new) Hr Ha) as [Hs Hl]; [simpl; by rewrite Ho..|simpl; by rewrite decide_True by lia|].
    eexists. split_and!; [eapply gets_step; [exact Hs|apply gets_refl]|done|done|apply set_app_me].
  - destruct (lookup_lt_is_Some_2 (Shards cur) sh) as [o Ho]; [unfold cfg_wf in Hc; lia|].
    destruct (lookup_lt_is_Some_2 (Shards new) sh) as [g Hg]; [unfold cfg_wf in Hn; lia|].
    replace (3 * S n + 1)%nat with (S (S (S (3 * n + 1)))) by lia. destruct (decide (o = g)) as [Heq|Hne] eqn:Hd.
    + destruct (loop_turn k cur new sh (CMigrate cur new (sh + 1) PFreeze) Hr Ha) as [Hs Hl];
        [simpl; by rewrite Ho, Hg; simpl; rewrite Hd..|simpl; rewrite decide_False by lia; rewrite Ho, Hg; simpl; by rewrite Hd|].
      destruct (IH (sh + 1)%nat _ ltac:(lia) (l_reach _ _ _ _ Hl) (set_app_me _ _)) as (k' & Hgt & Hl' & Hst & Ha').
      exists k'. split_and!; [eapply gets_step; [exact Hs|eapply gets_mono; [done|lia]]|by eapply led_trans|done|done].
    + destruct (Hck sh o g Ho Hg Hne) as [M1 M2].
      assert (W : forall ph, is_Some (wants (CMigrate cur new sh ph))) by (intros []; simpl; rewrite Ho, Hg; simpl; rewrite Hd, ?M1, ?M2; simpl; eauto).
      destruct (W PFreeze) as [q1 W1]. destruct (group_step _ _ _ _ _ _ Hr Ha W1) as (k1 & ph1 & S1 & L1 & E1 & (b & ->) & A1).
      destruct (W (PInstall b)) as [q2 W2]. destruct (group_step _ _ _ _ _ _ (l_reach _ _ _ _ L1) A1 W2) as (k2 & ph2 & S2 & L2 & E2 & -> & A2).
      destruct (W PDelete) as [q3 W3]. destruct (group_step _ _ _ _ _ _ (l_reach _ _ _ _ L2) A2 W3) as (k3 & ph3 & S3 & L3 & E3 & -> & A3).
      destruct (IH (sh + 1)%nat k3 ltac:(lia) (l_reach _ _ _ _ L3) A3) as (k' & Hgt & Hl' & Hst & Ha').
      exists k'. split_and!; [by do 3 (eapply gets_step; [eassumption|])| |eauto using calm_trans|done].
      eapply led_trans; [exact L1|]. eapply led_trans; [exact L2|]. by eapply led_trans.
Qed.

(** *** Calls of the store *)

(** What a call of the store leaves. *)
Lemma call_led cur new k r : kreach serial k -> a_op (k_kv k) me = AIdle -> ctrl_next me (a_app (k_kv k) me) = Some r -> nowrap (a_st (k_kv k)) ->
  exists k', solo_step k = Some k' /\ led cur new k k' /\ a_op (k_kv k') me = AIdle /\ a_st (k_kv k') = snd (serve (a_st (k_kv k)) r) /\
    a_app (k_kv k') me = resume ctrl_program me (a_app (k_kv k) me) (fst (serve (a_st (k_kv k)) r)).
Proof.
  intros Hr Ho Hn Hw. exists (clerk_call r k). pose proof (call_step k r Hr Ho Hn Hw) as Hr'. split; [unfold solo_step; by rewrite Hn|].
  split; [|unfold clerk_call; destruct (serve (a_st (k_kv k)) r) as [rep m]; simpl; split_and!; by fn_upd].
  split; [done|..]; unfold clerk_call; by destruct (serve (a_st (k_kv k)) r).
Qed.

Lemma u64_small n : 0 <= n < 2 ^ 64 -> u64 n = n.
Proof. intros H. unfold u64. by apply Z.mod_small. Qed.

(** The put of a configuration at its place. *)
Lemma put_served m key c old : m !! key = Some (mkKvEntry old (Num c - 1)) -> 1 <= Num c < 2 ^ 64 ->
  serve m (put_cfg key c) = (RepPut (mkPutReply OK), <[key := mkKvEntry (String c) (Num c)]> m).
Proof.
  intros Hm Hc. unfold put_cfg. cbn [serve]. unfold KvSrv.Put. cbn [put_Key put_Version put_Value]. rewrite Hm, u64_small by lia. cbn [version].
  rewrite decide_True by done. by replace (u64 (Num c - 1 + 1)) with (Num c) by (rewrite u64_small; lia).
Qed.

Lemma nowrap_insert (m : KvMap) (key : string) v n : nowrap m -> 1 <= n <= 2 ^ 64 - 2 -> nowrap (<[key := mkKvEntry v n]> m).
Proof. intros Hm Hn x e [[<- <-]|[_ H]]%lookup_insert_Some; [done|by apply Hm in H]. Qed.

(** Migration and publication. *)
Lemma finish_ends c nx k : kreach serial k -> a_app (k_kv k) me = CMigrate c nx 0 PFreeze -> reachable c nx -> moving k c nx ->
  Num nx = Num c + 1 -> Num nx <= 2 ^ 64 - 2 ->
  exists k', gets (3 * NShards + 2) k k' /\ led c nx k k' /\ idle k' /\ settled k' nx.
Proof.
  intros Hr Ha Hck (Hw & Hcfg & Hnext) Hnum Hmax. pose proof (Hw _ _ Hcfg) as Hb. simpl in Hb.
  destruct (migrate_ends c nx Hck NShards 0 k eq_refl Hr Ha) as (k1 & Hg & Hl & Hst & Ha1).
  destruct Hst as [Hst Hop]. destruct (ctrl_idle _ _ _ _ _ Hr Ha) as (Ho & _).
  destruct (call_led c nx k1 (put_cfg "cfg" nx) (l_reach _ _ _ _ Hl)) as (k2 & S2 & L2 & Ho2 & Hst2 & Ha2);
    [by rewrite Hop|by rewrite Ha1|by rewrite Hst|].
  rewrite Hst, (put_served _ "cfg" nx (String c)) in Hst2, Ha2 by (rewrite ?Hcfg; first [lia | repeat f_equal; lia]). simpl in Hst2. rewrite Ha1 in Ha2.
  exists k2. split_and!.
  - replace (3 * NShards + 2)%nat with (3 * NShards + 1 + 1)%nat by lia. eapply gets_trans; [exact Hg|]. eapply gets_step; [exact S2|apply gets_refl].
  - by eapply led_trans.
  - by split.
  - unfold settled. rewrite Hst2, lookup_insert_eq, lookup_insert_ne by done. split_and!; [apply nowrap_insert; [done|lia]|done|done].
Qed.

(** A change of configuration returns, and the new configuration is in force. *)
Lemma changeTo_settles k c new : kreach serial k -> idle k -> settled k c -> cfg_wf new -> reachable c new ->
  Num new = Num c + 1 -> Num new <= 2 ^ 64 - 2 ->
  exists k', changeTo k new = Some k' /\ led c new k k' /\ idle k' /\ settled k' new.
Proof.
  intros Hr Hid (Hw & Hcfg & Hnext) Hwf Hck Hnum Hmax. pose proof (Hw _ _ Hcfg) as Hb. simpl in Hb. destruct Hid as [Ha Ho].
  assert (Hr0 : kreach serial (set_app k me (CQuery new))).
  { eapply kreach_steps; [done|]. apply rtc_once, K_change; [done..|]. unfold ver_of. rewrite Hcfg. simpl. lia. }
  destruct (call_led c new _ (RGet (mkGetArgs "cfg")) Hr0 Ho) as (k1 & S1 & L1 & Ho1 & St1 & A1); [by rewrite set_app_me|done|].
  rewrite set_app_me in A1. cbn [set_app k_kv with_kv a_st serve snd fst] in St1, A1. unfold KvSrv.Get in A1. cbn [get_Key] in A1. rewrite Hcfg in A1.
  cbn [resume ctrl_program ChangeConfigTo] in A1. unfold Query in A1. cbn [getr_Value value] in A1. rewrite from_string, decide_False in A1 by lia.
  destruct (call_led c new k1 (put_cfg "next" new) (l_reach _ _ _ _ L1) Ho1) as (k2 & S2 & L2 & Ho2 & St2 & A2); [by rewrite A1|by rewrite St1|].
  rewrite St1, (put_served _ "next" new (String c)) in St2, A2 by (rewrite ?Hnext; first [lia | repeat f_equal; lia]). rewrite A1 in A2.
  cbn [resume ctrl_program ChangeConfigTo fst snd putr_Err] in A2, St2. rewrite decide_False in A2 by auto.
  destruct (finish_ends c new k2 (l_reach _ _ _ _ L2) A2 Hck) as (k' & Hg & Hl & Hid & Hs); [|done|done|].
  { unfold moving. rewrite St2, lookup_insert_eq, lookup_insert_ne by done. split_and!; [apply nowrap_insert; [done|lia]|done|done]. }
  exists k'. split_and!; [|destruct L1 as [? ? ?]|done|done].
  - unfold changeTo. eapply (gets_idle (2 + (3 * NShards + 2))); [vm_compute; lia| |apply Hid]. cbn [Nat.add].
    eapply gets_step; [exact S1|]. eapply gets_step; [exact S2|exact Hg].
  - eapply led_trans; [|exact Hl]. eapply led_trans; [|exact L2]. by split.
Qed.

Lemma query_settled k c : settled k c -> query k = Some c.
Proof. intros (_ & Hc & _). unfold query, Query, KvSrv.Get. cbn [get_Key]. rewrite Hc. apply from_string. Qed.

(** A controller that takes over finishes the change its predecessor had begun. *)
Lemma takeover_settles k c nx : kreach serial k -> idle k -> moving k c nx -> reachable c nx -> Num nx = Num c + 1 -> Num nx <= 2 ^ 64 - 2 ->
  exists k', initController k = Some k' /\ led c nx k k' /\ idle k' /\ settled k' nx.
Proof.
  intros Hr [Ha Ho] (Hw & Hcfg & Hnext) Hck Hnum Hmax.
  assert (Hr0 : kreach serial (set_app k me CInit1)) by (eapply kreach_steps; [done|]; by apply rtc_once, K_init).
  destruct (call_led c nx _ (RGet (mkGetArgs "cfg")) Hr0 Ho) as (k1 & S1 & L1 & Ho1 & St1 & A1); [by rewrite set_app_me|done|].
  rewrite set_app_me in A1. cbn [set_app k_kv with_kv a_st serve snd fst] in St1, A1. unfold KvSrv.Get in A1. cbn [get_Key] in A1. rewrite Hcfg in A1.
  cbn [resume ctrl_program InitController] in A1. rewrite (readCfg_string _ c) in A1 by done.
  destruct (call_led c nx k1 (RGet (mkGetArgs "next")) (l_reach _ _ _ _ L1) Ho1) as (k2 & S2 & L2 & Ho2 & St2 & A2); [by rewrite A1|by rewrite St1|].
  rewrite A1, St1 in A2. rewrite St1 in St2. cbn [serve snd fst] in St2, A2. unfold KvSrv.Get in A2. cbn [get_Key] in A2. rewrite Hnext in A2.
  cbn [resume ctrl_program InitController] in A2. rewrite (readCfg_string _ nx), decide_True in A2 by (done || lia).
  assert (Hr3 : kreach serial (set_app k2 me (CMigrate c nx 0 PFreeze))).
  { eapply kreach_steps; [exact (l_reach _ _ _ _ L2)|]. apply rtc_once, (K_resume _ _ _ c nx); [done|]. unfold serial. lia. }
  destruct (finish_ends c nx _ Hr3 (set_app_me _ _) Hck) as (k' & Hg & Hl & Hid & Hs); [|done|done|].
  { unfold moving. cbn [set_app k_kv with_kv a_st]. by rewrite St2. }
  exists k'. split_and!; [| |done|done].
  - unfold initController. eapply (gets_idle (3 + (3 * NShards + 2))); [vm_compute; lia| |apply Hid]. cbn [Nat.add].
    eapply gets_step; [exact S1|]. eapply gets_step; [exact S2|]. eapply gets_step; [|exact Hg]. unfold solo_step. by rewrite A2.
  - destruct Hl as [? Hh Hout], L1 as [_ Hh1 Hout1], L2 as [_ Hh2 Hout2]. split; [done|simpl in *; congruence|].
    intros g Hg'. rewrite Hout by done. simpl in *. by rewrite Hout2, Hout1.
Qed.

(** The configuration is in force: it is what [Query] returns, every shard is
    served by the group it names, with the keys the clients' answers imply, and every
    other group has dropped the shard. *)
Definition in_force k cfg : Prop :=
  query k = Some cfg /\ forall sh A, Shards cfg !! sh = Some A ->
    v_st (view_of (k_grp k A) sh) = Ready /\ v_data (view_of (k_grp k A) sh) = sdata sh (after KvSrv.MakeKVServer (k_hist k)) /\
    forall g, g <> A -> v_st (view_of (k_grp k g) sh) <> Ready /\ v_data (view_of (k_grp k g) sh) = ∅.

Lemma settled_in_force k cfg : kreach serial k -> settled k cfg -> in_force k cfg.
Proof.
  intros Hr Hs. split; [by apply query_settled|]. destruct Hs as (_ & Hc & Hn).
  destruct (query_is_current k Hr) as (c & nx & Hc' & Hn' & _ & Hall). rewrite Hc in Hc'. rewrite Hn in Hn'.
  injection Hc' as E1 E2. injection Hn' as _ E3. apply (f_equal FromString) in E1. rewrite !from_string in E1. injection E1 as <-.
  apply Hall. congruence.
Qed.

(** C4: a change of configuration completes.  One controller works, whatever other
    controllers have left behind (a state of [ShardCtrl] in which none has recovered
    from configurations more than one apart), nothing is lost, the groups between
    which shards move list servers, and versions stay below 2^64 - 1.  If "cfg" and "next" hold a configuration, [ChangeConfigTo] of
    the next one returns; if "next" is already one ahead, because another controller
    stopped somewhere in the middle of the change, a new controller's
    [InitController] returns.  In both cases no client has been answered on the way, the
    new configuration is in both "cfg" and "next", and it is in force: every shard is
    served by the group it names, with exactly the keys the clients' answers imply,
    and every other group has dropped it. *)
Theorem config_change_completes k cfg new :
  kreach serial k -> idle k -> cfg_wf new -> Num new = Num cfg + 1 -> Num new <= 2 ^ 64 - 2 -> reachable cfg new ->
  (settled k cfg -> exists k', changeTo k new = Some k' /\ kreach serial k' /\ k_hist k' = k_hist k /\ settled k' new /\ in_force k' new) /\
  (moving k cfg new -> exists k', initController k = Some k' /\ kreach serial k' /\ k_hist k' = k_hist k /\ settled k' new /\ in_force k' new).
Proof.
  intros Hr Hid Hwf Hnum Hmax Hck. split; intros H.
  - destruct (changeTo_settles k cfg new) as (k' & Hk & [Hr' Hh _] & _ & Hs); [done..|]. exists k'. split_and!; [done..|by apply settled_in_force].
  - destruct (takeover_settles k cfg new) as (k' & Hk & [Hr' Hh _] & _ & Hs); [done..|]. exists k'. split_and!; [done..|by apply settled_in_force].
Qed.

(** ** Names of servers *)

Lemma dash_split a : forall a' b b' n n' z z', digits n a = Some z -> digits n' a' = Some z' ->
  (a +:+ "-" +:+ b = a' +:+ "-" +:+ b')%string -> a = a'.
Proof.
  induction a as [|x a IH]; intros [|x' a'] b b' n n' z z' Ha Ha' H; simplify_eq/=; try done.
  destruct (digit x') eqn:E; simplify_eq/=. destruct (digit x'); simplify_eq/=. f_equal. by eapply IH.
Qed.

(** The name of a server tells its group. *)
Lemma ServerName_gid g g' i j : 0 <= g -> 0 <= g' -> ServerName g i = ServerName g' j -> g = g'.
Proof.
  intros Hg Hg' H. unfold ServerName in H. apply (inj _) in H.
  destruct (pretty_digits g Hg) as (_ & _ & _ & _ & _ & Hd). destruct (pretty_digits g' Hg') as (_ & _ & _ & _ & _ & Hd').
  pose proof (dash_split _ _ _ _ _ _ _ _ Hd Hd' H) as Hp. rewrite Hp in Hd. congruence.
Qed.

(** Every group is listed with its servers' names, one at least. *)
Definition named (cfg : ShardConfig) : Prop :=
  forall g srvs, Groups cfg !! g = Some srvs -> 0 <= g /\ exists n, srvs = ServerName g <$> seq 0 (S n).

(** So a clerk can be made for the owner of every shard. *)
Lemma named_reachable cur new : named cur -> named new -> assigned cur -> assigned new -> reachable cur new.
Proof.
  assert (H : forall c sh g, named c -> assigned c -> Shards c !! sh = Some g -> MakeClerk c g = Some g).
  { intros c sh g Hn Ha Hs. destruct (Ha g) as [srvs Hg]; [by eapply list_elem_of_lookup_2|].
    destruct (Hn g srvs Hg) as (_ & n & ->). unfold MakeClerk. by rewrite Hg. }
  intros Hn Hn' Ha Ha' sh src dst Hs Hd _. eauto.
Qed.

Lemma shares_server_spec servers m : shares_server servers m = true <-> exists g xs s, m !! g = Some xs /\ s ∈ xs /\ s ∈ servers.
Proof.
  unfold shares_server. rewrite existsb_exists. setoid_rewrite <- list_elem_of_In. split.
  - intros ([g xs] & Hin%elem_of_map_to_list & (s & Hs & (s' & Hs' & <-%String.eqb_eq)%existsb_exists)%existsb_exists).
    exists g, xs, s. by rewrite !list_elem_of_In.
  - intros (g & xs & s & Hin & Hs & Hs'). exists (g, xs). split; [by apply elem_of_map_to_list|]. apply existsb_exists. exists s.
    split; [by apply list_elem_of_In|]. apply existsb_exists. exists s. split; [by apply list_elem_of_In|apply String.eqb_refl].
Qed.

Lemma named_apart cfg g n : named cfg -> 0 <= g -> Groups cfg !! g = None -> shares_server (ServerName g <$> seq 0 n) (Groups cfg) = false.
Proof.
  intros Hn Hg Hno. apply not_true_iff_false. intros (g' & xs & s & Hl & Hs & (i & -> & _)%list_elem_of_fmap)%shares_server_spec.
  destruct (Hn g' xs Hl) as (Hg' & n' & ->). apply list_elem_of_fmap in Hs as (j & Hj & _).
  assert (g = g') as -> by (by eapply ServerName_gid). congruence.
Qed.

(** ** Groups come and go *)

(** Between two steps of a test. *)
Record ready k (c : Config) (cfg : ShardConfig) : Prop := {
  r_cfg : cfg_ok c;
  r_reach : kreach serial k;
  r_idle : idle k;
  r_set : settled k cfg;
  r_wf : cfg_wf cfg;
  r_named : named cfg;
  r_bal : assigned cfg /\ balanced cfg
}.

(** A group of the table whose servers run with the state of new ones, each under
    its name, and reach each other. *)
Definition running (c : Config) (g : Z) (sg : ServerGrp) : Prop :=
  lookupGroup c g = Some sg /\
  (forall i, (i < Groups.size sg)%nat -> runs_with sg i Tester.empty /\ is_Some (serverAt (cfg_net c) (ServerName g i))) /\
  forall a b, (a < Groups.size sg)%nat -> (b < Groups.size sg)%nat -> link sg (cfg_net c) a b.

Definition names_of (st : starting) : list string := concat (st_names st) ++ (st_las st ≫= la_names).

Definition well_formed (st : starting) : Prop :=
  0 <= st_gid st /\ (0 < length (st_names st))%nat /\ (forall ns, ns ∈ st_names st -> length ns = length (st_names st)) /\ length (st_las st) = length (st_names st) /\
  forall la, la ∈ st_las st -> la_up la = true /\ length (la_names la) = length (st_names st).

(** The new groups: their identities and the names of their ends are new, and so is
    their state. *)
Record arrivals k (c : Config) (cfg : ShardConfig) (l : list starting) : Prop := {
  ar_shape st : st ∈ l -> well_formed st;
  ar_gids : NoDup (st_gid <$> l);
  ar_new st : st ∈ l -> Groups cfg !! st_gid st = None /\ cfg_grps c !! st_gid st = None;
  ar_state st : st ∈ l -> StartServerShardGrp (st_gid st) [] = Some (k_grp k (st_gid st));
  ar_nodup : NoDup (l ≫= names_of);
  ar_fresh e : e ∈ l ≫= names_of -> e ∉ ends (cfg_net c);
  ar_room : (base.size (Groups cfg) + length l <= NShards)%nat
}.

(** Another group starts. *)
Lemma running_stays c c' g g' sg sg' : cfg_ok c -> 0 <= g -> 0 <= g' -> g <> g' -> running c g sg -> cfg_grps c' = <[g' := sg']> (cfg_grps c) ->
  (forall x, (forall i, x <> ServerName g' i) -> serverAt (cfg_net c') x = serverAt (cfg_net c) x) ->
  (forall e, e ∈ ends (cfg_net c) -> e ∈ ends (cfg_net c') /\ isEnabled (cfg_net c') e = isEnabled (cfg_net c) e) -> running c' g sg.
Proof.
  intros Hc Hg Hg' Hne (Hl & Hrun & Hlk) Hgr Hsa Hen. unfold lookupGroup in *. destruct (o_grp _ Hc g sg Hl) as [Hok _]. split_and!.
  - unfold lookupGroup. by rewrite Hgr, lookup_insert_ne.
  - intros i Hi. destruct (Hrun i Hi) as [H1 H2]. split; [done|]. rewrite Hsa; [done|]. intros j E. by apply Hne, (ServerName_gid g g' i j).
  - intros a b Ha Hb. destruct (Hlk a b Ha Hb) as (e & He & Hon). exists e. split; [done|]. destruct (Hen e) as [_ ->]; [by eapply g_made|done].
Qed.

(** One turn of [joinGroups]. *)
Lemma join_one k c cfg st l : ready k c cfg -> arrivals k c cfg (st :: l) -> Num cfg + 1 <= 2 ^ 64 - 2 ->
  exists k' c' cfg' sg, joinGroups k c (st :: l) = joinGroups k' c' l /\ ready k' c' cfg' /\ arrivals k' c' cfg' l /\
    Num cfg' = Num cfg + 1 /\ Groups cfg' = <[st_gid st := SrvNames sg]> (Groups cfg) /\
    cfg_grps c' = <[st_gid st := sg]> (cfg_grps c) /\ k_hist k' = k_hist k /\ running c' (st_gid st) sg /\ Groups.size sg = length (st_names st) /\
    forall g sg0, 0 <= g -> g <> st_gid st -> running c g sg0 -> running c' g sg0.
Proof.
  intros [Hc Hr Hid Hs Hwf Hn Hb] [A1 A2 A3 A3' A4 A5 A6] Hlt. destruct (A1 st) as (Hg & Hpos & Hsq & Hlen & Hla); [by left|].
  destruct (A3 st) as [Hno Hno']; [by left|]. simpl in A4. apply NoDup_app in A4 as (Hnd & Hdis & Hnd').
  destruct (MakeGroupStart_ok c (st_gid st) (st_names st) (st_las st) Hc) as (c' & sg & Hst & Hc' & Hl & Hgid & Hsz & Hgr & _ & Hends & Hrun & Hlk & Hsa & Hen).
  { split_and!; [done..|]. intros e He. apply A5. simpl. apply elem_of_app. by left. }
  destruct (join_member cfg (st_gid st) (SrvNames sg)) as (cfg' & Hj & Hnum & HG & Hwf' & Has & Hb' & Hm); [done|done| |simpl in A6; lia|].
  { unfold SrvNames, all. rewrite Hgid. destruct (length (srvs sg)) as [|n] eqn:E; [unfold Groups.size in Hsz; lia|]. by apply named_apart. }
  assert (Hn' : named cfg').
  { intros g srvs. rewrite HG. intros [[<- <-]|[_ H]]%lookup_insert_Some; [|by apply Hn]. split; [done|].
    unfold SrvNames, all. rewrite Hgid. destruct (length (srvs sg)) as [|n] eqn:E; [unfold Groups.size in Hsz; lia|eauto]. }
  destruct (changeTo_settles k cfg cfg') as (k' & Hch & [Hr' Hh Hout] & Hid' & Hs'); [done..|by apply named_reachable; [done..|apply Hb|]|done|lia|].
  exists k', c', cfg', sg. split; [|split; [|split; [|split_and!; try done]]].
  - cbn [joinGroups]. rewrite Hst. simpl. rewrite Hl. simpl. rewrite (query_settled k cfg Hs). simpl. rewrite Hj. simpl. rewrite Hch. simpl.
    rewrite (query_settled k' cfg' Hs'). simpl. by rewrite Hm.
  - by split.
  - simpl in A2. apply NoDup_cons in A2 as [Hni Hnd2]. assert (Hlater : forall st', st' ∈ l -> Groups cfg' !! st_gid st' = None /\ cfg_grps c' !! st_gid st' = None).
    { intros st' H. destruct (A3 st') as [? ?]; [by right|].
      assert (st_gid st <> st_gid st') by (intros E; apply Hni; rewrite E; by apply list_elem_of_fmap_2).
      rewrite HG, Hgr, !lookup_insert_ne by done. done. }
    split.
    + intros st' H. apply A1. by right.
    + done.
    + exact Hlater.
    + intros st' H. rewrite Hout; [apply A3'; by right|]. destruct (Hlater st' H) as [Hl1 _]. destruct (A3 st') as [Hl2 _]; [by right|].
      intros sh. split; intros E%list_elem_of_lookup_2; [destruct (proj1 Hb _ E)|destruct (Has _ E)]; congruence.
    + done.
    + intros e He [Hin|Hin]%Hends; [by apply (Hdis e)|]. apply (A5 e); [|done]. simpl. apply elem_of_app. by right.
    + rewrite HG, map_size_insert_None by done. simpl in A6. lia.
  - split; [done|]. split.
    + intros i Hi. destruct (lookup_lt_is_Some_2 (st_las st) i) as [la Hi']; [lia|]. destruct (Hrun i la Hi') as [H1 H2]. by rewrite H2.
    + intros a b Ha Hb0. apply Hlk; lia.
  - intros g sg0 Hg0 Hne Hr0. by eapply (running_stays c c' g (st_gid st)).
Qed.

Lemma joinGroups_ok l : forall k c cfg, ready k c cfg -> arrivals k c cfg l -> Num cfg + zlen l <= 2 ^ 64 - 2 ->
  exists k' c' cfg', joinGroups k c l = Some (true, k', c') /\ ready k' c' cfg' /\ Num cfg' = Num cfg + zlen l /\ k_hist k' = k_hist k /\
    (forall g, Groups cfg' !! g = if decide (g ∈ st_gid <$> l) then SrvNames <$> cfg_grps c' !! g else Groups cfg !! g) /\
    (forall st, st ∈ l -> exists sg, running c' (st_gid st) sg /\ Groups.size sg = length (st_names st)) /\
    (forall g, g ∉ st_gid <$> l -> cfg_grps c' !! g = cfg_grps c !! g) /\
    (forall g sg, 0 <= g -> g ∉ st_gid <$> l -> running c g sg -> running c' g sg).
Proof.
  unfold zlen. induction l as [|st l IH]; intros k c cfg Hr Ha Hlt.
  { exists k, c, cfg. split_and!; try done; [simpl; lia|by intros g ?%elem_of_nil]. }
  simpl length in Hlt. destruct (ar_shape _ _ _ _ Ha st) as (Hg0 & _); [by left|].
  destruct (join_one k c cfg st l Hr Ha) as (k1 & c1 & cfg1 & sg & -> & Hr1 & Ha1 & Hn1 & HG1 & Hg1 & Hh1 & Hrun1 & Hsz1 & Hst1); [lia|].
  destruct (IH k1 c1 cfg1 Hr1 Ha1) as (k2 & c2 & cfg2 & Hj & Hr2 & Hn2 & Hh2 & HG2 & Hin2 & Hg2 & Hst2); [lia|].
  pose proof (ar_gids _ _ _ _ Ha) as Hnd. simpl in Hnd. apply NoDup_cons in Hnd as [Hni _].
  exists k2, c2, cfg2. split_and!; [done|done|simpl length; lia|congruence|..].
  - intros g. rewrite HG2, HG1. rewrite fmap_cons. destruct (decide (g ∈ st_gid <$> l)) as [Hin|Hno].
    { rewrite decide_True by (by right). done. }
    destruct (decide (g = st_gid st)) as [->|Hne].
    + rewrite decide_True by (by left). rewrite Hg2, Hg1, !lookup_insert_eq by done. done.
    + rewrite decide_False by (by intros [?|?]%elem_of_cons). by rewrite lookup_insert_ne.
  - intros st' [->|Hin]%elem_of_cons; [|by apply Hin2]. exists sg. split; [by apply Hst2|done].
  - intros g [Hne Hno]%not_elem_of_cons. by rewrite Hg2, Hg1, lookup_insert_ne.
  - intros g sg0 Hg Hnot Hrun. apply not_elem_of_cons in Hnot as [Hne Hno]. apply Hst2; [done..|]. by apply Hst1.
Qed.

Lemma leaveGroups_ok gids : forall k c cfg, ready k c cfg -> NoDup gids ->
  (forall g, g ∈ gids -> is_Some (Groups cfg !! g) /\ is_Some (cfg_grps c !! g)) ->
  (length gids < base.size (Groups cfg))%nat -> Num cfg + zlen gids <= 2 ^ 64 - 2 ->
  exists k' c' cfg', leaveGroups k c gids = Some (true, k', c') /\ ready k' c' cfg' /\ Num cfg' = Num cfg + zlen gids /\ k_hist k' = k_hist k /\
    (forall g, Groups cfg' !! g = if decide (g ∈ gids) then None else Groups cfg !! g) /\
    (forall g, cfg_grps c' !! g = if decide (g ∈ gids) then None else cfg_grps c !! g) /\
    (forall x, serverAt (cfg_net c') x = None \/ serverAt (cfg_net c') x = serverAt (cfg_net c) x) /\
    forall g sg i, g ∈ gids -> cfg_grps c !! g = Some sg -> (i < Groups.size sg)%nat -> serverAt (cfg_net c') (ServerName g i) = None.
Proof.
  unfold zlen. induction gids as [|g gids IH]; intros k c cfg Hr Hnd Hin Hsz Hlt.
  { exists k, c, cfg. split_and!; try done; [simpl; lia|by right|by intros g sg i ?%elem_of_nil]. }
  apply NoDup_cons in Hnd as [Hni Hnd]. simpl length in Hsz, Hlt. destruct (Hin g) as [Hg Hg']; [by left|].
  pose proof Hr as [Hc Hre Hid Hs Hwf Hn Hb]. destruct (leave_member cfg g) as (cfg1 & Hl & Hnum & HG & Hwf1 & Has & Hb1 & Hm); [done|done|lia|].
  assert (Hn1 : named cfg1) by (intros g0 srvs0; rewrite HG; intros [_ H]%lookup_delete_Some; by apply Hn).
  destruct (changeTo_settles k cfg cfg1) as (k1 & Hch & [Hr1 Hh1 _] & Hid1 & Hs1); [done..|by apply named_reachable; [done..|apply Hb|]|done|lia|].
  destruct (ExitGroup_ok c g Hc Hg') as (c1 & Hex & Hc1 & Hgr & _ & _ & Hsa1 & Hno1).
  destruct (IH k1 c1 cfg1) as (k2 & c2 & cfg2 & Hlv & Hr2 & Hn2 & Hh2 & HG2 & Hg2 & Hsa2 & Hno2).
  { by split. }
  { done. }
  { intros g0 H0. assert (g <> g0) by (by intros ->). rewrite HG, Hgr, !lookup_delete_ne by done. apply Hin. by right. }
  { destruct Hg as [x Hx]. rewrite HG, map_size_delete, Hx. lia. }
  { lia. }
  assert (Hdel : forall {A} (m m1 m2 : gmap Z A), m1 = delete g m -> (forall g0, m2 !! g0 = if decide (g0 ∈ gids) then None else m1 !! g0) ->
    forall g0, m2 !! g0 = if decide (g0 ∈ g :: gids) then None else m !! g0).
  { intros A mp m1 m2 -> Hm2 g0. rewrite Hm2. destruct (decide (g0 ∈ gids)) as [H0|H0]; [rewrite decide_True by (by right); done|].
    destruct (decide (g0 = g)) as [->|Hne]; [rewrite decide_True by (by left); apply lookup_delete_eq|].
    rewrite decide_False by (by intros [?|?]%elem_of_cons). by rewrite lookup_delete_ne. }
  exists k2, c2, cfg2. split_and!; [|done|simpl length; lia|congruence|..].
  - cbn [leaveGroups]. rewrite (query_settled k cfg Hs). simpl. rewrite Hl. simpl. rewrite Hch. simpl.
    rewrite (query_settled k1 cfg1 Hs1). simpl. rewrite Hm, Hex. exact Hlv.
  - by eapply Hdel.
  - by eapply Hdel.
  - intros x. destruct (Hsa2 x) as [?|E]; [by left|]. rewrite E. apply Hsa1.
  - intros g0 sg i [->|H0]%elem_of_cons Hl0 Hi.
    + destruct (Hsa2 (ServerName g i)) as [?|E]; [done|]. rewrite E. by eapply Hno1.
    + eapply Hno2; [done| |done]. rewrite Hgr, lookup_delete_ne; [done|]. by intros ->.
Qed.

(** C37: [joinGroups] and [leaveGroups].  One controller works, nothing is lost, and
    the new groups have new identities and names; there are no more groups than
    shards, and versions stay below 2^64 - 1.  Then adding the groups returns true: each of them runs, that is, all its
    servers run with the state of a new server, each is registered under its name and
    reaches each other; each is listed under its servers' names, the shards are
    balanced, and the configuration is in force at the shard groups, in that every
    shard is served by the group the configuration names, with the keys the clients'
    answers imply, and by no other.  Removing the same groups afterwards returns true
    too: the configuration without them is in force, none of their servers is
    registered any more, and the table of groups is what it was before. *)
Theorem groups_join_and_leave k c cfg l : ready k c cfg -> arrivals k c cfg l -> (0 < base.size (Groups cfg))%nat -> Num cfg + 2 * zlen l <= 2 ^ 64 - 2 ->
  exists k1 c1 cfg1 k2 c2 cfg2,
    joinGroups k c l = Some (true, k1, c1) /\ ready k1 c1 cfg1 /\ in_force k1 cfg1 /\ k_hist k1 = k_hist k /\
    (forall st, st ∈ l -> exists sg, running c1 (st_gid st) sg /\ Groups.size sg = length (st_names st) /\ Groups cfg1 !! st_gid st = Some (SrvNames sg)) /\
    leaveGroups k1 c1 (st_gid <$> l) = Some (true, k2, c2) /\ ready k2 c2 cfg2 /\ in_force k2 cfg2 /\ k_hist k2 = k_hist k /\
    Groups cfg2 = Groups cfg /\ cfg_grps c2 = cfg_grps c /\ Num cfg2 = Num cfg + 2 * zlen l /\
    forall st i, st ∈ l -> (i < length (st_names st))%nat -> serverAt (cfg_net c2) (ServerName (st_gid st) i) = None.
Proof.
  intros Hr Ha Hpos Hlt. pose proof (zlen_nonneg l) as Hl0.
  destruct (joinGroups_ok l k c cfg Hr Ha) as (k1 & c1 & cfg1 & Hj & Hr1 & Hn1 & Hh1 & HG1 & Hrun & Hg1 & _); [lia|].
  assert (Hlen : zlen (st_gid <$> l) = zlen l) by (unfold zlen; by rewrite length_fmap).
  assert (Hin : forall g, g ∈ st_gid <$> l -> is_Some (cfg_grps c1 !! g)).
  { intros g (st & -> & Hst)%list_elem_of_fmap. destruct (Hrun st Hst) as (sg & (Hl & _) & _). by exists sg. }
  assert (Hsub : list_to_set (st_gid <$> l) ∪ dom (Groups cfg) ⊆@{gset Z} dom (Groups cfg1)).
  { intros g [H%elem_of_list_to_set|H%elem_of_dom]%elem_of_union; apply elem_of_dom; rewrite HG1.
    - rewrite decide_True by done. destruct (Hin g H) as [sg ->]. done.
    - case_decide as Hd; [|done]. destruct (Hin g Hd) as [sg ->]. done. }
  apply subseteq_size in Hsub. rewrite size_union, size_list_to_set, !size_dom, length_fmap in Hsub.
  2:{ apply (ar_gids _ _ _ _ Ha). }
  2:{ intros g (st & -> & Hst)%elem_of_list_to_set%list_elem_of_fmap [x Hx]%elem_of_dom.
      destruct (ar_new _ _ _ _ Ha st Hst) as [Hnone _]. congruence. }
  destruct (leaveGroups_ok (st_gid <$> l) k1 c1 cfg1) as (k2 & c2 & cfg2 & Hlv & Hr2 & Hn2 & Hh2 & HG2 & Hg2 & _ & Hno); [done|apply (ar_gids _ _ _ _ Ha)| |..].
  { intros g Hg. split; [|by apply Hin]. rewrite HG1, decide_True by done. destruct (Hin g Hg) as [sg ->]. done. }
  { rewrite length_fmap. lia. }
  { lia. }
  assert (Hold : forall g, g ∈ st_gid <$> l -> Groups cfg !! g = None /\ cfg_grps c !! g = None).
  { intros g (st & -> & Hst)%list_elem_of_fmap. by apply (ar_new _ _ _ _ Ha). }
  exists k1, c1, cfg1, k2, c2, cfg2.
  split_and!; [done|done|by apply settled_in_force; apply Hr1|done| |done|done|by apply settled_in_force; apply Hr2|congruence|..|lia|].
  - intros st Hst. destruct (Hrun st Hst) as (sg & Hsg & Hsz). exists sg. split_and!; [done..|]. rewrite HG1, decide_True by (by apply list_elem_of_fmap_2).
    destruct Hsg as [Hl _]. unfold lookupGroup in Hl. by rewrite Hl.
  - apply map_eq. intros g. rewrite HG2, HG1. case_decide as Hd; [by destruct (Hold g Hd)|done].
  - apply map_eq. intros g. rewrite Hg2. case_decide as Hd; [by destruct (Hold g Hd)|]. by apply Hg1.
  - intros st i Hst Hi. destruct (Hrun st Hst) as (sg & (Hl & _) & Hsz). eapply Hno; [by apply list_elem_of_fmap_2|exact Hl|lia].
Qed.

Lemma put_first m key v : m !! key = None -> serve m (RPut (mkPutArgs key v 0)) = (RepPut (mkPutReply OK), <[key := mkKvEntry v 1]> m).
Proof. intros H. cbn [serve]. unfold KvSrv.Put. cbn [put_Key put_Version put_Value]. by rewrite H. Qed.

(** The first configuration is stored, and the groups are new. *)
Lemma setup_ready c n (grps : Z -> KVServer) : cfg_ok c -> (forall g, StartServerShardGrp g [] = Some (grps g)) ->
  exists k cfg, setup (ServerName Gid1 <$> seq 0 (S n)) grps = Some k /\ ready k c cfg /\
    Num cfg = NumFirst /\ Groups cfg = {[Gid1 := ServerName Gid1 <$> seq 0 (S n)]} /\ k_grp k = grps.
Proof.
  intros Hc Hgr. destruct (setup_owns_all (ServerName Gid1 <$> seq 0 (S n))) as (cfg & Hs & Hn & Hsh & HG). unfold setup. rewrite Hs. clear Hs. cbn [mbind option_bind].
  eexists _, cfg. split; [reflexivity|]. split; [|split; [exact Hn|split; [exact HG|reflexivity]]]. split; [exact Hc|..].
  - exists cfg. eexists. split; [|done]. split; [by split|]. by split_and!.
  - by split.
  - unfold settled. cbn [k_kv a_st foldl InitConfig]. rewrite !put_first; [cbn [snd]|done|by rewrite put_first].
    rewrite lookup_insert_eq, lookup_insert_ne, lookup_insert_eq, Hn by done. split_and!; [|done|done].
    assert (nowrap (∅ : KvMap)) by (by intros x e; rewrite lookup_empty). do 2 (apply nowrap_insert; [|lia]). done.
  - unfold cfg_wf. by rewrite Hsh.
  - intros g srvs. rewrite HG. intros [<- <-]%lookup_singleton_Some. split; [unfold Gid1; lia|eauto].
  - assert (Hd : forall g, is_Some (Groups cfg !! g) -> g = Gid1).
    { intros g [x Hx]. rewrite HG in Hx. by apply lookup_singleton_Some in Hx as [<- _]. }
    split; [|intros g g' ->%Hd ->%Hd; lia]. intros g. rewrite Hsh. intros [-> _]%elem_of_replicate. rewrite HG. by rewrite lookup_singleton_eq.
Qed.

End steps.

(** ** Runs *)

Module StepsDemo.
Import HarnessDemo GrpDemo.
#[local] Existing Instance CtrlRace.bit_json.

(** Two groups of three servers join the one the test starts with, and leave. *)
Definition starting_group (g : nat) : starting :=
  mkStarting (Z.of_nat g)
    ((fun a => (fun b => "group-" +:+ pretty.pretty g +:+ "-" +:+ pretty.pretty a +:+ "-" +:+ pretty.pretty b)%string <$> seq 0 3) <$> seq 0 3)
    (launch_names g 3).

Definition new_groups (g : Z) : KVServer :=
  mkKV ∅ (replicate NShards (if decide (g = Gid1) then Ready else NotOwned)) (replicate NShards NumFirst).

Lemma two_arrive k cfg : k_grp k = new_groups -> Groups cfg = {[Gid1 := ServerName Gid1 <$> seq 0 3]} ->
  arrivals k cfg0 cfg [starting_group 2; starting_group 3].
Proof.
  intros Hk HG. split.
  - intros st H. repeat (apply elem_of_cons in H as [->|H]); [..|by apply elem_of_nil in H];
      (split; [done|]; split; [vm_compute; lia|]; split; [apply Forall_forall; apply (bool_decide_unpack _); vm_compute; exact I|]; split; [done|];
       apply Forall_forall; apply (bool_decide_unpack _); vm_compute; exact I).
  - apply (bool_decide_unpack _). vm_compute. exact I.
  - intros st H. rewrite HG. repeat (apply elem_of_cons in H as [->|H]); [..|by apply elem_of_nil in H]; split; vm_compute; reflexivity.
  - intros st _. rewrite Hk. reflexivity.
  - apply (bool_decide_unpack _). vm_compute. exact I.
  - intros e. revert e. apply Forall_forall. apply (bool_decide_unpack _). vm_compute. exact I.
  - rewrite HG, map_size_singleton. vm_compute. lia.
Qed.

Lemma groups_join_and_leave_witness : exists k k1 c1 cfg1 sg,
  setup (ServerName Gid1 <$> seq 0 3) new_groups = Some k /\
  joinGroups 0 k cfg0 [starting_group 2; starting_group 3] = Some (true, k1, c1) /\ query k1 = Some cfg1 /\
  running c1 3 sg /\ Groups cfg1 !! 3 = Some (SrvNames sg).
Proof.
  destruct (setup_ready 0 cfg0 2 new_groups) as (k & cfg & Hm & Hr & Hn & HG & Hk); [exact (proj2 sg0_ok)|intros g; reflexivity|].
  destruct (groups_join_and_leave 0 k cfg0 cfg [starting_group 2; starting_group 3] Hr (two_arrive k cfg Hk HG))
    as (k1 & c1 & cfg1 & k2 & c2 & cfg2 & Hj & _ & Hf & _ & Hin & _).
  - rewrite HG, map_size_singleton. lia.
  - rewrite Hn. vm_compute. discriminate.
  - destruct (Hin (starting_group 3)) as (sg & Hrun & _ & Hsg); [right; left|].
    exists k, k1, c1, cfg1, sg. split; [exact Hm|]. split; [exact Hj|]. split; [exact (proj1 Hf)|]. split; [exact Hrun|exact Hsg].
Defined.

(** Controller 0 stops after it has frozen the shard of a key; controller 1 takes
    over.  Then controller 1 changes to the next configuration. *)
Definition stopped : list CtrlRace.kact :=
  [CtrlRace.put_x] ++ CtrlRace.begin_change 0 2 ++ CtrlRace.skip 0 (Key2Shard CtrlRace.key) ++ [CtrlRace.ARun 0; CtrlRace.AReply 0].

Lemma stopped_reach : exists k, CtrlRace.acts true stopped CtrlRace.k0 = Some k /\ kreach serial k /\ idle 1 k /\
  moving k (CtrlRace.cfg 1) (CtrlRace.cfg 2).
Proof.
  assert (E : (fun k => (a_app (k_kv k) 1%nat, a_op (k_kv k) 1%nat, a_st (k_kv k))) <$> CtrlRace.acts true stopped CtrlRace.k0 =
    Some (CIdle, AIdle, {["cfg" := mkKvEntry (String (CtrlRace.cfg 1)) 1; "next" := mkKvEntry (String (CtrlRace.cfg 2)) 2]})) by (vm_compute; reflexivity).
  destruct (CtrlRace.acts true stopped CtrlRace.k0) as [k|] eqn:Ek; [|done]. injection E as E1 E2 E3. exists k. split_and!; [done| |by split|].
  - exists (CtrlRace.cfg 1), CtrlRace.k0. split; [apply CtrlRace.k0_init|]. eapply rtc_subrel; [|by eapply CtrlRace.acts_steps].
    intros k1 k2. apply kstep_mono. intros cur nx Ha. by apply Ha.
  - unfold moving. rewrite E3. split_and!; [|by rewrite lookup_insert_eq|by rewrite lookup_insert_ne, lookup_singleton_eq].
    apply nowrap_insert; [|lia]. intros x e [<- <-]%lookup_singleton_Some. simpl. lia.
Qed.

Lemma cfg_named_reachable m n : 1 <= m <= 3 -> 1 <= n <= 3 -> reachable (CtrlRace.cfg m) (CtrlRace.cfg n).
Proof.
  intros Hm Hn sh src dst Hs Hd _. assert (H : forall i g, 1 <= i <= 3 -> Shards (CtrlRace.cfg i) !! sh = Some g -> 1 <= g <= 3).
  { intros i g Hi Hg. unfold CtrlRace.cfg, CtrlRace.gid_of in Hg. cbn [Shards] in Hg.
    apply list_lookup_insert_Some in Hg as [(_ & -> & _)|[_ Hg]]; [done|]. apply lookup_replicate in Hg as [-> _]. unfold Gid1. lia. }
  assert (C : forall i g, 1 <= g <= 3 -> MakeClerk (CtrlRace.cfg i) g = Some g).
  { intros i g Hg. assert (g = 1 \/ g = 2 \/ g = 3) as [->|[->| ->]] by lia; reflexivity. }
  split; apply C; [by apply (H m)|by apply (H n)].
Qed.

Lemma config_change_completes_witness : exists k k' k'', CtrlRace.acts true stopped CtrlRace.k0 = Some k /\
  initController 1 k = Some k' /\ changeTo 1 k' (CtrlRace.cfg 3) = Some k'' /\ in_force k'' (CtrlRace.cfg 3).
Proof.
  destruct stopped_reach as (k & Ek & Hr & Hid & Hm).
  destruct (proj2 (config_change_completes 1 k (CtrlRace.cfg 1) (CtrlRace.cfg 2) Hr Hid eq_refl eq_refl ltac:(vm_compute; discriminate)
    (cfg_named_reachable 1 2 ltac:(lia) ltac:(lia))) Hm) as (k' & Hi & Hr' & _ & Hs & _).
  assert (Hid' : idle 1 k').
  { destruct (takeover_settles 1 k (CtrlRace.cfg 1) (CtrlRace.cfg 2) Hr Hid Hm (cfg_named_reachable 1 2 ltac:(lia) ltac:(lia)) eq_refl
      ltac:(vm_compute; discriminate)) as (k1 & Hi1 & _ & Hid1 & _). rewrite Hi in Hi1. by injection Hi1 as <-. }
  destruct (proj1 (config_change_completes 1 k' (CtrlRace.cfg 2) (CtrlRace.cfg 3) Hr' Hid' eq_refl eq_refl ltac:(vm_compute; discriminate)
    (cfg_named_reachable 2 3 ltac:(lia) ltac:(lia))) Hs) as (k'' & Hc & _ & _ & _ & Hf).
  exists k, k', k''. split; [exact Ek|]. split; [exact Hi|]. split; [exact Hc|exact Hf].
Defined.

End StepsDemo.
