(* ===== verification/ShardClient.v ===== *)
(** * The clerks of the sharded service

    [shardkv1/shardgrp/client.go]: the clerk of one group, which gives up after
    [maxRetries] attempts; [shardkv1/client.go]: the clerk of the whole service,
    which finds the group in a configuration and starts again with a new
    configuration after [ErrWrongGroup].

    The outcomes of the successive [Call]s, a reply or a failure ([None]), are a
    list that the loops consume; so are the configurations that [Query] returns
    and the random numbers of [MakeClerk].  [Blocked] says that the list ends
    before the operation does, [Panic] that the code panics. *)

From S2P Require Import Prelude Kv ShardCfg ShardGrp.

Inductive result (A : Type) := Ret (x : A) | Blocked | Panic.
Arguments Ret {A}.
Arguments Blocked {A}.
Arguments Panic {A}.

(** What the outside world answers, in the order it is asked. *)
Record env (R : Type) := mkEnv { outs : list (option R); rands : list Z }.
Arguments mkEnv {R}.
Arguments outs {R}.
Arguments rands {R}.

Definition rest {R} (e : env R) : env R := mkEnv (drop 1 (outs e)) (rands e).

(** ** The clerk of a group *)

Module Grp.

Record Clerk := mkClerk { servers : list string; leader : Z }.

(** [rand.Intn(0)] panics. *)
Definition MakeClerk (servers : list string) (rand : Z) : option Clerk :=
  if decide (zlen servers = 0) then None else Some (mkClerk servers (rand mod zlen servers)).

Definition maxRetries : nat := 30.

Definition nextServer (ck : Clerk) : Clerk :=
  mkClerk (servers ck) ((leader ck + 1) mod zlen (servers ck)).

(** The loop of [Get]; [tries] counts down. *)
Fixpoint Get_loop (tries : nat) (ck : Clerk) (e : env GetReply) : result (GetReply * Clerk * env GetReply) :=
  match tries with
  | O => Ret (mkGetReply "" 0 ErrWrongGroup, ck, e)
  | S tries =>
      match outs e with
      | [] => Blocked
      | Some r :: _ =>
          if decide (getr_Err r <> ErrWrongLeader) then Ret (r, ck, rest e)
          else Get_loop tries (nextServer ck) (rest e)
      | None :: _ => Get_loop tries (nextServer ck) (rest e)
      end
  end.

Definition Get (ck : Clerk) (e : env GetReply) : result (GetReply * Clerk * env GetReply) := Get_loop maxRetries ck e.

(** The resends of [Put]. *)
Fixpoint Put_loop (tries : nat) (ck : Clerk) (e : env PutReply) : result (Err * Clerk * env PutReply) :=
  match tries with
  | O => Ret (ErrWrongGroup, ck, e)
  | S tries =>
      match outs e with
      | [] => Blocked
      | Some r :: _ =>
          if decide (putr_Err r = ErrVersion) then Ret (ErrMaybe, ck, rest e)
          else if decide (putr_Err r <> ErrWrongLeader) then Ret (putr_Err r, ck, rest e)
          else Put_loop tries (nextServer ck) (rest e)
      | None :: _ => Put_loop tries (nextServer ck) (rest e)
      end
  end.

Definition Put (ck : Clerk) (e : env PutReply) : result (Err * Clerk * env PutReply) :=
  match outs e with
  | [] => Blocked
  | Some r :: _ =>
      if decide (putr_Err r <> ErrWrongLeader) then Ret (putr_Err r, ck, rest e)
      else Put_loop maxRetries (nextServer ck) (rest e)
  | None :: _ => Put_loop maxRetries (nextServer ck) (rest e)
  end.

(** [FreezeShard], [InstallShard] and [DeleteShard] try for ever; [err] is the
    error of a reply. *)
Fixpoint insist {R} (err : R -> Err) (ck : Clerk) (os : list (option R)) : result (R * Clerk * list (option R)) :=
  match os with
  | [] => Blocked
  | Some r :: os => if decide (err r <> ErrWrongLeader) then Ret (r, ck, os) else insist err (nextServer ck) os
  | None :: os => insist err (nextServer ck) os
  end.

Definition FreezeShard (ck : Clerk) (os : list (option FreezeShardReply)) : result (list byte * Err * Clerk) :=
  match insist fzr_Err ck os with
  | Ret (r, ck, _) => Ret (fzr_State r, fzr_Err r, ck)
  | Blocked => Blocked
  | Panic => Panic
  end.

Definition InstallShard (ck : Clerk) (os : list (option InstallShardReply)) : result (Err * Clerk) :=
  match insist inr_Err ck os with Ret (r, ck, _) => Ret (inr_Err r, ck) | Blocked => Blocked | Panic => Panic end.

Definition DeleteShard (ck : Clerk) (os : list (option DeleteShardReply)) : result (Err * Clerk) :=
  match insist dlr_Err ck os with Ret (r, ck, _) => Ret (dlr_Err r, ck) | Blocked => Blocked | Panic => Panic end.

(** An attempt after which the clerk tries the next server. *)
Definition unhelpful {R} (err : R -> Err) (o : option R) : Prop :=
  match o with None => True | Some r => err r = ErrWrongLeader end.

Lemma drop_rest {R} n (e : env R) : drop n (outs (rest e)) = drop (S n) (outs e).
Proof. simpl. rewrite drop_drop. done. Qed.

Lemma Forall_take_le {A} (P : A -> Prop) n m l : (n <= m)%nat -> Forall P (take m l) -> Forall P (take n l).
Proof. intros Hle Hf. replace n with (n `min` m)%nat by lia. rewrite <- take_take. by apply Forall_take. Qed.

(** What the resends return, by the attempt that ended them. *)
Lemma Put_loop_spec tries ck e :
  (tries <= length (outs e))%nat ->
  exists n err ck' e', Put_loop tries ck e = Ret (err, ck', e') /\ outs e' = drop n (outs e) /\
    rands e' = rands e /\ (n <= tries)%nat /\
    (n = tries /\ err = ErrWrongGroup /\ Forall (unhelpful putr_Err) (take n (outs e)) \/
     exists r, (1 <= n)%nat /\ Forall (unhelpful putr_Err) (take (n - 1) (outs e)) /\
       outs e !! (n - 1)%nat = Some (Some r) /\ putr_Err r <> ErrWrongLeader /\
       err = if decide (putr_Err r = ErrVersion) then ErrMaybe else putr_Err r).
Proof.
  revert ck e. induction tries as [|tries IH]; intros ck e Hl.
  { exists 0%nat, ErrWrongGroup, ck, e. rewrite drop_0. split_and!; auto. }
  destruct e as [os rs]. destruct os as [|o os]; simpl in Hl; [lia|].
  assert (Hgo : unhelpful putr_Err o -> exists n err ck' e',
    Put_loop tries (nextServer ck) (rest (mkEnv (o :: os) rs)) = Ret (err, ck', e') /\ outs e' = drop n (o :: os) /\
    rands e' = rs /\ (n <= S tries)%nat /\
    (n = S tries /\ err = ErrWrongGroup /\ Forall (unhelpful putr_Err) (take n (o :: os)) \/
     exists r, (1 <= n)%nat /\ Forall (unhelpful putr_Err) (take (n - 1) (o :: os)) /\
       (o :: os) !! (n - 1)%nat = Some (Some r) /\ putr_Err r <> ErrWrongLeader /\
       err = if decide (putr_Err r = ErrVersion) then ErrMaybe else putr_Err r)).
  { intros Hu. destruct (IH (nextServer ck) (rest (mkEnv (o :: os) rs))) as (n & err & ck' & e' & E & Eo & Er & Hn & Hcase).
    { simpl. rewrite drop_0. lia. }
    exists (S n), err, ck', e'. simpl in *. rewrite drop_0 in *. split_and!; auto; [lia|].
    destruct Hcase as [(-> & -> & Hf)|(r & Hn' & Hf & Hr & Hne & ->)]; [left|right].
    - split_and!; auto.
    - exists r. destruct n as [|n]; [lia|]. simpl in *. rewrite Nat.sub_0_r in *. split_and!; auto. }
  cbn [Put_loop outs]. destruct o as [r|]; [|by apply Hgo].
  destruct (decide (putr_Err r = ErrVersion)) as [Ev|Ev].
  - exists 1%nat, ErrMaybe, ck, (rest (mkEnv (Some r :: os) rs)). split_and!; auto; [lia|]. right. exists r.
    split_and!; auto; [by rewrite Ev|by rewrite decide_True].
  - destruct (decide (putr_Err r <> ErrWrongLeader)) as [Hw|Hw].
    + exists 1%nat, (putr_Err r), ck, (rest (mkEnv (Some r :: os) rs)). split_and!; auto; [lia|]. right. exists r.
      split_and!; auto. by rewrite decide_False.
    + apply Hgo. by apply dec_stable in Hw.
Qed.

(** What a group clerk's [Put] means.  It returns within 31 attempts.  Every
    attempt before the last one failed or was refused by a server that does not
    lead.  The last one decides: [ErrVersion] is returned only if the first
    attempt was answered [ErrVersion]; answered to a resend it becomes
    [ErrMaybe]; any other answer is returned as it is; and without an answer the
    result is [ErrWrongGroup]. *)
Theorem grp_put_meaning ck e :
  (maxRetries < length (outs e))%nat ->
  exists n err ck' e', Put ck e = Ret (err, ck', e') /\ outs e' = drop n (outs e) /\
    (1 <= n <= maxRetries + 1)%nat /\ err <> ErrWrongLeader /\
    Forall (unhelpful putr_Err) (take (n - 1) (outs e)) /\
    (Forall (unhelpful putr_Err) (take n (outs e)) /\ n = (maxRetries + 1)%nat /\ err = ErrWrongGroup \/
     exists r, outs e !! (n - 1)%nat = Some (Some r) /\ putr_Err r <> ErrWrongLeader /\
       err = if decide ((1 < n)%nat /\ putr_Err r = ErrVersion) then ErrMaybe else putr_Err r).
Proof.
  unfold Put. generalize maxRetries. intros N Hl. destruct e as [[|o os] rs]; [simpl in Hl; lia|]. simpl in Hl.
  assert (Hgo : unhelpful putr_Err o -> exists n err ck' e',
    Put_loop N (nextServer ck) (rest (mkEnv (o :: os) rs)) = Ret (err, ck', e') /\ outs e' = drop n (o :: os) /\
    (1 <= n <= N + 1)%nat /\ err <> ErrWrongLeader /\
    Forall (unhelpful putr_Err) (take (n - 1) (o :: os)) /\
    (Forall (unhelpful putr_Err) (take n (o :: os)) /\ n = (N + 1)%nat /\ err = ErrWrongGroup \/
     exists r, (o :: os) !! (n - 1)%nat = Some (Some r) /\ putr_Err r <> ErrWrongLeader /\
       err = if decide ((1 < n)%nat /\ putr_Err r = ErrVersion) then ErrMaybe else putr_Err r)).
  { intros Hu. destruct (Put_loop_spec N (nextServer ck) (rest (mkEnv (o :: os) rs))) as (n & err & ck' & e' & E & Eo & _ & Hn & Hc).
    { simpl. rewrite drop_0. lia. }
    exists (S n), err, ck', e'. simpl in Eo, Hc. rewrite drop_0 in Eo, Hc. simpl. rewrite Nat.sub_0_r. split_and!; auto; try lia.
    - by destruct Hc as [(_ & -> & _)|(r & _ & _ & _ & Hne & ->)]; [|dcase].
    - destruct Hc as [(_ & _ & Hf)|(r & Hn' & Hf & _)]; [destruct n; constructor; [done|eapply Forall_take_le; [|done]; lia]|].
      destruct n; [lia|]. simpl in Hf. rewrite Nat.sub_0_r in Hf. by constructor.
    - destruct Hc as [(-> & -> & Hf)|(r & Hn' & _ & Hr & Hne & ->)]; [left|right].
      + split_and!; [by constructor|lia|done].
      + exists r. destruct n as [|n]; [lia|]. simpl in *. rewrite Nat.sub_0_r in Hr. split_and!; auto.
        destruct (decide (putr_Err r = ErrVersion)); [rewrite decide_True; [done|split; [lia|done]]|rewrite decide_False; [done|by intros [_ ?]]]. }
  cbn [outs]. destruct o as [r|]; [|by apply Hgo].
  destruct (decide (putr_Err r <> ErrWrongLeader)) as [Hw|Hw]; [|apply Hgo; by apply dec_stable in Hw].
  exists 1%nat, (putr_Err r), ck, (rest (mkEnv (Some r :: os) rs)). split_and!; auto; [lia|].
  right. exists r. by split_and!.
Qed.

Lemma grp_put_meaning_witness :
  exists n err ck' e', Put (mkClerk ["a"; "b"] 0) (mkEnv (None :: replicate 30 (Some (mkPutReply ErrVersion))) []) = Ret (err, ck', e') /\
    (1 <= n <= maxRetries + 1)%nat /\ outs e' = drop n (None :: replicate 30 (Some (mkPutReply ErrVersion))) /\ err <> ErrWrongLeader.
Proof.
  destruct (grp_put_meaning (mkClerk ["a"; "b"] 0) (mkEnv (None :: replicate 30 (Some (mkPutReply ErrVersion))) []))
    as (n & err & ck' & e' & H1 & H2 & H3 & H4 & _).
  - vm_compute. lia.
  - exists n, err, ck', e'. exact (conj H1 (conj H3 (conj H2 H4))).
Defined.

End Grp.

(** ** The clerk of the service *)

Module ShardKv.

(** The clerks of the groups are shared: what an operation does to one stays. *)
Record Clerk := mkClerk { rcks : gmap Z Grp.Clerk; cfg : option ShardConfig }.

Definition MakeClerk : Clerk := mkClerk ∅ None.

Definition GetClerk (ck : Clerk) (gid : Z) : option Grp.Clerk := rcks ck !! gid.

Definition getOrCreateGrpClerk {R} (ck : Clerk) (gid : Z) (servers : list string) (e : env R) : result (Grp.Clerk * env R) :=
  match rcks ck !! gid with
  | Some rck => Ret (rck, e)
  | None =>
      match rands e with
      | [] => Blocked
      | x :: rs => match Grp.MakeClerk servers x with None => Panic | Some rck => Ret (rck, mkEnv (outs e) rs) end
      end
  end.

(** One round of the loop with configuration [c]: the result ([inl]) or another
    round ([inr]); [op] is the group clerk's operation, [err] its error. *)
Definition round {R A} (op : Grp.Clerk -> env R -> result (A * Grp.Clerk * env R)) (err : A -> Err)
    (key : string) (c : ShardConfig) (ck : Clerk) (e : env R) : result ((A + unit) * Clerk * env R) :=
  match Shards c !! Key2Shard key with
  | None => Panic
  | Some gid =>
      let servers := default [] (Groups c !! gid) in
      match getOrCreateGrpClerk ck gid servers e with
      | Blocked => Blocked
      | Panic => Panic
      | Ret (rck, e) =>
          match op rck e with
          | Blocked => Blocked
          | Panic => Panic
          | Ret (x, rck, e) =>
              if decide (err x = ErrWrongGroup)
              then Ret (inr tt, mkClerk (<[gid := rck]> (rcks ck)) None, e)
              else Ret (inl x, mkClerk (<[gid := rck]> (rcks ck)) (Some c), e)
          end
      end
  end.

(** The rounds after the first; each begins with [refreshCfg]. *)
Fixpoint again {R A} (op : Grp.Clerk -> env R -> result (A * Grp.Clerk * env R)) (err : A -> Err)
    (key : string) (cs : list ShardConfig) (ck : Clerk) (e : env R) : result (A * Clerk) :=
  match cs with
  | [] => Blocked
  | c :: cs =>
      match round op err key c ck e with
      | Blocked => Blocked
      | Panic => Panic
      | Ret (inl x, ck, _) => Ret (x, ck)
      | Ret (inr _, ck, e) => again op err key cs ck e
      end
  end.

Definition loop {R A} (op : Grp.Clerk -> env R -> result (A * Grp.Clerk * env R)) (err : A -> Err)
    (key : string) (cs : list ShardConfig) (ck : Clerk) (e : env R) : result (A * Clerk) :=
  match cfg ck with
  | None => again op err key cs ck e
  | Some c => again op err key (c :: cs) ck e
  end.

Definition Get (ck : Clerk) (key : string) (cs : list ShardConfig) (e : env GetReply) : result (GetReply * Clerk) :=
  loop Grp.Get getr_Err key cs ck e.

Definition Put (ck : Clerk) (key : string) (cs : list ShardConfig) (e : env PutReply) : result (Err * Clerk) :=
  loop Grp.Put id key cs ck e.

(** A group that executes the requests that reach it; of each attempt, whether
    the request arrives and whether the reply does. *)
Fixpoint play (m : KvMap) (p : PutArgs) (net : list (bool * bool)) : list (option PutReply) * KvMap :=
  match net with
  | [] => ([], m)
  | (arrives, replied) :: net =>
      let '(rep, m) := if arrives : bool then KvSrv.Put m p else (mkPutReply OK, m) in
      let '(os, m) := play m p net in
      ((if arrives && replied then Some rep else None) :: os, m)
  end.

Definition one_group : ShardConfig := mkCfg 1 (replicate NShards 1) {[1 := ["s1"; "s2"; "s3"]]}.

(** [ErrVersion] is not reliable.  The service's clerk starts the group
    clerk's [Put] afresh after [ErrWrongGroup], and the fresh [Put] takes its
    first attempt for the first one of the operation.  The first attempt can
    have been performed with its reply lost; after the group has been out of
    reach for the other attempts, the operation returns [ErrVersion], which the
    clerks' contract reserves for puts that were definitely not performed. *)
Theorem shardkv_put_misreports :
  exists net p ck',
    let '(os, m) := play KvSrv.MakeKVServer p net in
    Put MakeClerk (put_Key p) [one_group; one_group] (mkEnv os [0; 0]) = Ret (ErrVersion, ck') /\
    m !! put_Key p = Some (mkKvEntry (put_Value p) (put_Version p + 1)).
Proof.
  exists ((true, false) :: replicate 30 (false, false) ++ [(true, true)]), (mkPutArgs "x" "v" 0).
  eexists. vm_compute. split; reflexivity.
Qed.

End ShardKv.
